(* ===== verification/_CoqProject ===== *)
-Q . S2P
Prelude.v
GoStrings.v
Crypto.v
Replay.v
Frame.v
Session.v
SessionProps.v
Crossing.v
Pairing.v
Identity.v
Handshake.v
Peers.v
Messages.v
Relay.v
RelayProps.v
Limits.v
Code.v
Transport.v
Deadlines.v
WebSocket.v
Circuit.v
Manager.v
ManagerProps.v
Adoption.v
Conversation.v
Lifecycle.v
Net.v
Candidates.v
Url.v
Upgrade.v
Dialer.v
Client.v
Reuse.v
Rendezvous.v
Idle.v
Punch.v
Expect.v
Connect.v
Join.v
Invitation.v
Command.v
RelayCommand.v
Main.v
