(* ===== verification/Prelude.v ===== *)
(** * Heimdall: a verification development

    Heimdall ([src/]) is a terminal messenger written in Go.  Two peers run an
    authenticated handshake over whatever connection they can get (a direct TCP
    connection, a hole-punched one, or a circuit through an untrusted relay) and
    then exchange encrypted, sequence-numbered frames.  A trust store remembers
    the identity keys the user has met.  Invite codes let two peers find each
    other at a relay and prove to each other that they hold the code.

    This library models the program's own logic, function by function, and proves
    what makes each part correct.  Definitions carry the names of the Go
    functions; a function that can fail returns [res] (a value, an error or a
    panic), a method that changes its receiver returns the state it leaves behind
    together with its outcome, and shared objects live in a heap.

    ** Parts and files

    - [Prelude] (this file): outcomes, bytes, machine integers, Go slices,
      big-endian integers; the notation [try[s] x := m; k] for an early return
      that leaves the receiver in state [s]; the tactics and hint databases.
    - [GoStrings]: the string functions of the Go library that the program uses.
    - [Crypto] ([internal/crypto/crypto.go]): the wrappers around HKDF and
      AES-GCM.  The primitives are the class [CryptoOps], their documented
      behaviour [CryptoLaws]; [Crypto.Toy] is a concrete instance.
    - [Replay] ([internal/proto/replay.go]): the sliding replay window as the
      64-bit words of its bitmap, and its set-based specification.
    - [Frame] ([internal/proto/frame.go], [chatframe.go]): frames and payloads.
    - [Session], [SessionProps] ([internal/proto/session.go]): key schedule,
      rotation, [Seal], [Open], [Close].  [Crossing]: the two ends with frames in
      flight both ways, under any schedule of seals and opens.
    - [Pairing] ([internal/proto/pairing.go] and [confirmPairing] of
      [internal/session/manager.go]): the proof of the invite code.
    - [Identity] ([internal/identity/identity.go]): keys, fingerprints, the
      identity file on a file system with failing writes.
    - [Handshake] ([internal/proto/handshake.go]): the three-message handshake
      as the state machine of [Handshaker]; X25519 is the class [DHOps].
    - [Peers] ([internal/peers/peers.go]): the trust store and its file.
    - [Messages] ([internal/rendezvous/messages.go], [internal/relay/encoding.go]):
      control messages and base64.
    - [Relay], [RelayProps] ([internal/relay/server.go], [limits.go]): the relay
      server.  [Relay] has the handlers; [RelayProps] has their interleavings as
      a step relation between the blocks that run under the mutex; [Limits] the
      rate counter over time.
    - [Code] ([internal/rendezvous/code.go]): invite codes and base32.
    - [Transport] ([internal/transport/transport.go]): length-prefixed frames
      over any connection that satisfies the interface [ByteStream].
      [Deadlines]: [FrameIO] on a connection with a clock, an instance of that
      interface, and the clocks of an established connection.
    - [WebSocket] ([internal/rendezvous/ws.go]): WebSocket framing, an instance
      of [ByteStream].  [Circuit]: the relay's forwarding loop between two
      WebSockets, and the life of a circuit in time.
    - [Manager], [ManagerProps] ([internal/session/manager.go]): the handshake
      driver, the registry of connections, the loops and the user's commands.
      [Adoption] wires the managers of two nodes together: what one hands to its
      transport is what the other finds in its inbox.  [Conversation]: an
      established link in use, both users and both nodes' loops in any order, with
      the queues and the frames on the wire.  [Lifecycle]: the
      goroutines of one node (accept loop, handshakes, the three loops of each
      connection), the wait group and [Shutdown], as a step relation, with the
      [Listener] of [internal/transport/transport.go].
    - [Net], [Url]: the parts of the Go packages net, strconv and net/url the
      program uses: IP addresses and their text, decimal numbers, URLs.
    - [Candidates] ([internal/rendezvous/candidates.go]): the addresses peers
      offer each other, their validation and their sealing.
    - [Upgrade] ([internal/rendezvous/ws.go]): the HTTP upgrade of both sides,
      with SHA-1 and the part of HTTP/1.1 it uses.
    - [Dialer] ([internal/rendezvous/dialer.go], [proxy.go]): endpoints, proxies,
      certificate pins and the ladder of ways to a relay.
    - [Client] ([internal/rendezvous/client.go]): the client of a relay: waiters
      in a heap, the calls split where they wait, and the supervisor as a state
      machine.  [Rendezvous] composes two clients with the relay of [Relay].
      [Idle]: the client's [pingLoop] and [readPump] and the relay's control loop
      over the WebSocket between them, with the relay's read deadline.
    - [Reuse] ([internal/transport/reuse*.go], and the dialer [main.go] gives the
      client): socket options per platform, and who shares the punch port, over a
      list of open sockets.
    - [Punch] ([internal/transport/punch.go]): the punch listener, any number of
      punches and their dial loops, as the steps between which they interleave.
    - [Expect] ([internal/connect/expect.go]): the registry of expected
      connections, shared by several rendezvous.
    - [Connect] ([internal/connect/connect.go]): the race of paths as a state
      machine of its goroutines, over [Manager.runHandshake]; the pairing key is
      one slice all of them hold.  [Join]: [Invite] and [Join] up to the race,
      over [Code], [Candidates] and [Client].
      [Invitation] composes them with the relay, its circuits and the handshake,
      from [NewCode] to the first message.
    - [Command] ([main.go]): the interactive loop and its commands, over
      [Manager] and [Peers], and the identity file.
    - [RelayCommand] ([cmd/hmdl-relay/main.go]): the relay's certificate and pin,
      its start and its end.
    - [Main] ([main.go]): [run] up to the prompt, which starts a node of
      [Lifecycle]; what is printed for events; the two ways the program ends.

    ** What the theorems show

    - The handshake: two honest ends complete it, learn each other's keys and
      can hold any conversation ([handshake_completes]); whatever arrives, a
      result is authenticated over this handshake's transcript
      ([handshake_authenticates]), and a side never panics, completes at most
      once and forgets its secrets ([handshake_safe]).
    - Sessions: frames are delivered in order and once, through every key rotation
      of either end, though they cross ([crossing_delivers]), so alternating
      conversations are ([conversation_delivers]); nothing is accepted twice ([open_never_replays],
      over the refinement [check_refines] of the bitmap to a set) or without
      authentication ([open_accepts_authentic]); rejected frames change neither
      counters nor window ([open_reject_keeps_state]).
    - Admission: nothing is recorded or registered without an authenticated key
      and, when an invite code is required, a proof of it
      ([adoption_requires_proof], [confirmPairing_sound]).  Conversely two nodes
      whose connection carries what they send always end up registered with each
      other, with an invite code or without, and every line either writes is
      shown to the other as it was typed ([adoption_completes],
      [pairing_completes]), also when both write at once and lines and
      probes cross on the wire ([conversation_flows]).
    - The trust store: only an explicit verification changes which keys are
      trusted ([trust_needs_verify]); reported levels agree with the store
      ([observe_level]); what is saved is read back ([observe_persists]).
    - The relay: under every interleaving its counters are exact and bounded
      ([relay_counters_bounded]), codes and tickets are single-use
      ([single_use]), serving a connection is such an execution
      ([serving_is_execution]); forwarding is faithful and limited
      ([pump_forwards]), and a circuit carries framed messages as a connection
      would ([circuit_transparent]), and so are connections per source ([per_source_limit])
      and requests over time ([rate_limited]).
    - The manager: racing connections converge to the same one at both ends
      ([duplicates_converge]), the registry holds exactly the open connections
      ([registry_live]), silent ones are dropped, and when
      ([silence_ends_by_deadline], [keepalive_drops]).
    - A node: in every reachable state the wait group counts its goroutines, so
      when its wait returns everything is closed ([wait_returns_clean]); without
      a handshake in progress [Shutdown] does return ([shutdown_returns]); and
      what [run] starts is such a node ([run_starts]).
    - Encodings: frames, base64, invite codes, WebSocket streams and framed
      messages over them round-trip ([parseFrame_iff], [base64_fields],
      [code_roundtrip], [websocket_stream], [frames_over_websocket]); control
      messages are dispatched as they were sent ([control_messages_arrive]) and
      closing is seen as the end of the stream ([close_ends_stream]).
    - Finding each other: an invite code leads from two users to their session
      ([invite_connects]), by way of the relay ([rendezvous_completes]); the text of a code gives both sides the same
      secrets ([invite_join_agree], [join_command_accepts]), and outstanding codes
      survive reconnections ([reconnect_republishes],
      [invite_survives_reconnect]); what a relay says is trusted no further than
      it must be ([pairing_safe]); offered addresses are filtered exactly as
      specified ([validate_equivalent], [validated_safe], [candidates_exchanged],
      [local_candidates_offered]).
    - Reaching the relay: endpoints are well formed ([endpoint_wellformed]), the
      rungs are tried in order ([dial_ladder_order]), certificates are handled as
      configured ([tls_policy]), the punch port is shared where the platform allows
      it ([port_is_shared]), the two sides of the upgrade agree
      ([upgrade_completes]), and a relay serves what its flags say and prints a
      pin its clients can use ([relay_starts], [printed_pin_accepted]).
    - Racing paths: success means an authenticated session in the rendezvous's
      role ([race_wins_with_proof]), failure that every path was tried
      ([race_failure_complete]); the key is intact while any path needs it
      ([race_key_kept]) and wiped in the end ([race_key_wiped]); expected
      connections are recognised ([expectations_owned], [expect_recognises]);
      punches neither lose nor mix up connections while they run
      ([punch_conserves]) and always return ([punch_returns]).
    - The command line: every line is handled ([commands_understood]) and the
      identity of the first run is kept ([identity_kept]).
    - Limits of the program, proved as such: the pairing confirmation can be
      reflected ([confirmation_reflectable]); unauthenticated frames can roll a
      session out of its peer's epoch ([forged_frames_desynchronise]), and a frame
      that takes two rotations to arrive is lost ([slow_frame_lost]), as is all that is sent after
      enough lines found the queue full ([full_queue_desynchronises]); a live
      session can decrypt all it ever sent ([sealed_frames_stay_recoverable]);
      a known key can take another peer's name unflagged
      ([rename_evades_detection]) and a newcomer its messages
      ([newcomer_takes_name]); unredeemed tickets exhaust the relay
      ([unredeemed_tickets_exhaust_relay]), a busy circuit is cut after ninety
      seconds ([circuit_cut]) and with a punch listener none can be opened
      ([circuit_dial_collides]); a replaced connection strands its
      name ([replaced_name_stranded]); long display names cannot connect
      ([long_names_cannot_connect]), and names with spaces cannot be addressed
      ([spaced_names_unreachable]); a pin is met by any server that shows the
      pinned certificate ([pin_met_by_any_certificate]) and strict modes fall
      back to clear text ([strict_mode_downgrades]); a handshake that outlives the
      wiping of its key is held to a public one ([wiped_key_is_public],
      [forged_confirmation_wins]); a timeout may be reported over a session that
      is up ([timeout_despite_session]); a punch that succeeds in both directions
      strands a connection ([stranded_forever]) and one punch can take another's
      waiter ([punches_interfere]); closing a client misses a dial in progress
      ([close_misses_dial]); an expired code comes back
      ([expired_invite_returns]) and pings do not keep one published
      ([pings_renew_nothing]); a handshake in progress survives [Shutdown], which
      then hangs ([late_handshake_survives]), and ending the program twice panics
      ([second_exit_panics]); the deadline of the handshake is void
      ([handshake_deadline_void], [slow_handshake_accepted]); one failing accept
      is the last ([accept_failure_final]); a peer can make the terminal show any
      event ([events_forgeable]).

    ** Parameters, bounds and fuel

    Cryptographic primitives, the JSON codecs and PBKDF2 are classes with laws,
    each with a concrete instance on which the witnesses evaluate.  The AEAD law
    says that decryption accepts exactly the encryptions under the same key,
    nonce and header, which is the authenticity the code relies on; no claim is
    made about an adversary's computing power.  Randomness is an argument: the
    bytes the generator delivers.  Clocks, orders of map iteration, outcomes of
    I/O and what arrives on a connection are arguments too, so a theorem holds
    for all of them.  Counters are integers in their machine range, with
    wrap-around written out ([wrap]); sequence numbers below 2^64 are the only
    bound on alternating conversations, and 2^32 on the frames of a crossing one,
    so that epochs do not wrap.

    Loops are structural wherever they can be.  [WebSocket.nextFrame] has fuel:
    every frame takes two bytes of input, and [enough] gives one unit per byte,
    so the fuel is not exhausted ([nextFrame_ok]).  [Transport.ReadFull] allows
    as many reads as bytes wanted, since each read of a [ByteStream] returns at
    least one ([read_loop_ok]).  The trimming functions of [GoStrings] and
    [Command.Fields] use the length of the string, of which each turn consumes a
    byte or more; the HTTP reader of [Upgrade] uses the length of its input.  The
    fuel of the state machines is their list of events, which theorems quantify
    over; [race_key_wiped], [punch_returns] and [shutdown_returns] show that the
    end is always within reach.  [Deadlines.watch] takes three turns per frame at
    most ([watch_ends]), and [Idle.readPump] one per message and one to end.  [Circuit.pump_conns] needs
    one per byte carried and one to end, as every read returns at least a byte
    ([circuit_transparent]).

    ** Not modelled

    Sockets below their options and endpoints, TLS itself, flag parsing,
    the banners of start-up, logging and terminal input; the accessors that only
    return a field; [Close] of the punch listener and of the relay server, which
    only end their background loops; memory hygiene beyond which keys a state holds.  Dials and TLS
    handshakes are arguments that say how they end.  In [Lifecycle] a handshake is
    one step and time passes only in that steps may happen in any order; the
    clocks of [Deadlines] and [Idle] are those of one connection.  A handshake is
    one step of a race, so a key that is wiped between the two uses a confirmation
    makes of it is not represented.  The calls of the rendezvous client are split
    at their waits and composed by hand in [Rendezvous] and [Invitation], where the
    relay's two circuit handlers are run one after the other and the first half's
    wait is over when the splice is; the clock of a circuit is in [Circuit] alone.
    The state machine of a race on top of those calls, and two races at once in
    [Connect] (their registry is in [Expect]), are not composed.  In [Reuse] a
    remote name stands for one resolved address.  The pattern language of Go's HTTP mux is only
    modelled for plain paths. *)
From Stdlib Require Import ZArith Lia.
From Stdlib Require Import Strings.Byte.
From stdpp Require Import base list gmap strings numbers option.

(** ** Outcomes of Go code

    A Go function that can fail returns a value, an error, or panics (an index
    or a slice bound out of range).  Every fallible definition of this
    development returns a [res], so that the absence of panics is a theorem
    and not a modelling choice. *)
Inductive res (E A : Type) : Type :=
| Ok (a : A)
| Err (e : E)
| Panic.
Arguments Ok {E A} _.
Arguments Err {E A} _.
Arguments Panic {E A}.

#[export] Instance res_ret {E} : MRet (res E) := fun A a => Ok a.

#[export] Instance res_bind {E} : MBind (res E) := fun A B f m =>
  match m with Ok a => f a | Err e => Err e | Panic => Panic end.

#[export] Instance res_fmap {E} : FMap (res E) := fun A B f m =>
  match m with Ok a => Ok (f a) | Err e => Err e | Panic => Panic end.

(** [map_err] is Go's error wrapping at a call site. *)
Definition map_err {E F A} (f : E -> F) (m : res E A) : res F A :=
  match m with Ok a => Ok a | Err e => Err (f e) | Panic => Panic end.

Definition is_ok {E A} (m : res E A) : bool :=
  match m with Ok _ => true | _ => false end.

(** Run the monad one step without unfolding anything else. *)
Ltac step_bind := cbn [mbind res_bind mret res_ret fmap res_fmap map_err fst snd negb].

(** A method that changes its receiver returns the state it leaves behind
    together with its outcome; [try_in s m k] is the early return of
    [if err != nil { return err }] with the receiver in state [s]. *)
Definition try_in {S E A B} (s : S) (m : res E A) (k : A -> S * res E B) : S * res E B :=
  match m with Ok a => k a | Err e => (s, Err e) | Panic => (s, Panic) end.

Declare Scope go_scope.
Delimit Scope go_scope with go.
Notation "'try[' s ] x ':=' m ; k" := (try_in s m (fun x => k))
  (at level 20, x pattern, m at level 100, k at level 200) : go_scope.

Section res_laws.
Context {E A B C : Type}.
Implicit Types (m : res E A) (f : A -> res E B) (g : B -> res E C).

Lemma bind_ok_inv f m b : m ≫= f = Ok b -> exists a, m = Ok a /\ f a = Ok b.
Proof. destruct m; cbn; intros; simplify_eq; eauto. Qed.

Lemma bind_assoc m f g : (m ≫= f) ≫= g = m ≫= (fun a => f a ≫= g).
Proof. by destruct m. Qed.

Lemma bind_no_panic f m :
  m <> Panic -> (forall a, m = Ok a -> f a <> Panic) -> m ≫= f <> Panic.
Proof. destruct m; cbn; naive_solver. Qed.

Lemma map_err_ok_inv {F} (h : E -> F) m a : map_err h m = Ok a -> m = Ok a.
Proof. destruct m; cbn; congruence. Qed.
End res_laws.

(** ** Bytes *)
Abbreviation bytes := (list byte).

#[export] Instance byte_eq_dec : EqDecision byte := Byte.byte_eq_dec.

#[export] Program Instance byte_countable : Countable byte :=
  {| encode b := encode (Byte.to_N b); decode p := decode p ≫= Byte.of_N |}.
Next Obligation. intros b. cbn. rewrite decode_encode. cbn. apply Byte.of_to_N. Qed.

Open Scope Z_scope.

(** Numeric value of a byte, and Go's [byte(z)] conversion (truncation). *)
Definition byte_val (b : byte) : Z := Z.of_N (Byte.to_N b).
Definition to_byte (z : Z) : byte := default x00 (Byte.of_N (Z.to_N (z mod 256))).

Lemma byte_val_range b : 0 <= byte_val b < 256.
Proof. unfold byte_val. pose proof (Byte.to_N_bounded b). lia. Qed.

Lemma to_byte_val b : to_byte (byte_val b) = b.
Proof.
  pose proof (byte_val_range b). unfold to_byte. rewrite Z.mod_small by done.
  unfold byte_val. by rewrite N2Z.id, Byte.of_to_N.
Qed.

Lemma byte_val_to_byte z : byte_val (to_byte z) = z mod 256.
Proof.
  unfold to_byte, byte_val. pose proof (Z.mod_pos_bound z 256 eq_refl) as Hz.
  destruct (Byte.of_N (Z.to_N (z mod 256))) as [b|] eqn:E; cbn.
  - apply Byte.to_of_N in E. rewrite E. lia.
  - apply Byte.of_N_None_iff in E. lia.
Qed.

Lemma byte_val_inj a b : byte_val a = byte_val b -> a = b.
Proof. intros H. by rewrite <- (to_byte_val a), H, to_byte_val. Qed.

Lemma to_byte_mod z : to_byte (z mod 256) = to_byte z.
Proof. apply byte_val_inj. rewrite !byte_val_to_byte. by rewrite Z.mod_mod. Qed.

(** Go string literals are byte sequences. *)
Definition str (s : string) : bytes := String.list_byte_of_string s.
Arguments str s%_string.

(** ** Machine integers: [uintW] values are integers in range, and arithmetic
    wraps. *)
Definition is_uint (w z : Z) : Prop := 0 <= z < 2 ^ w.
Definition wrap (w z : Z) : Z := z mod 2 ^ w.

Lemma wrap_range w z : 0 <= w -> is_uint w (wrap w z).
Proof. intros. apply Z.mod_pos_bound. lia. Qed.

Lemma wrap_small w z : is_uint w z -> wrap w z = z.
Proof. apply Z.mod_small. Qed.

(** ** Lengths, indexing and slicing of Go slices *)
Definition len {A} (l : list A) : Z := Z.of_nat (length l).

Definition index {E A} (l : list A) (i : Z) : res E A :=
  if decide (0 <= i) then
    match l !! Z.to_nat i with Some a => Ok a | None => Panic end
  else Panic.

(** [slice l a b] is Go's [l[a:b]]. *)
Definition slice {E A} (l : list A) (a b : Z) : res E (list A) :=
  if decide (0 <= a <= b /\ b <= len l)
  then Ok (take (Z.to_nat (b - a)) (drop (Z.to_nat a) l))
  else Panic.

Section slices.
Context {E A : Type}.
Implicit Types l k : list A.

Lemma len_nonneg l : 0 <= len l.
Proof. unfold len. lia. Qed.

Lemma len_nil : len (@nil A) = 0.
Proof. done. Qed.

Lemma len_cons a l : len (a :: l) = len l + 1.
Proof. unfold len. cbn. lia. Qed.

Lemma len_app l k : len (l ++ k) = len l + len k.
Proof. unfold len. rewrite length_app. lia. Qed.

Lemma len_take_le n l : 0 <= n <= len l -> len (take (Z.to_nat n) l) = n.
Proof. unfold len. rewrite length_take. lia. Qed.

Lemma len_drop n l : 0 <= n <= len l -> len (drop (Z.to_nat n) l) = len l - n.
Proof. unfold len. rewrite length_drop. lia. Qed.

Lemma len_zero_nil l : len l = 0 -> l = [].
Proof. destruct l; [done|]. rewrite len_cons. pose proof (len_nonneg l). lia. Qed.

Lemma index_in l i : 0 <= i < len l -> exists a, @index E A l i = Ok a /\ l !! Z.to_nat i = Some a.
Proof.
  intros Hi. unfold index, len in *. destruct (decide _); [|lia].
  destruct (lookup_lt_is_Some_2 l (Z.to_nat i)) as [a Ha]; [lia|].
  rewrite Ha. eauto.
Qed.

Lemma index_no_panic l i : 0 <= i < len l -> @index E A l i <> Panic.
Proof. intros (a & -> & _)%index_in. done. Qed.

Lemma slice_in l a b : 0 <= a <= b -> b <= len l ->
  @slice E A l a b = Ok (take (Z.to_nat (b - a)) (drop (Z.to_nat a) l)).
Proof. intros. unfold slice. rewrite decide_True; done. Qed.

Lemma slice_app_mid l1 l2 l3 a b : a = len l1 -> b = len l1 + len l2 ->
  @slice E A (l1 ++ l2 ++ l3) a b = Ok l2.
Proof.
  intros -> ->. rewrite slice_in; rewrite ?len_app; pose proof (len_nonneg l1);
    pose proof (len_nonneg l2); pose proof (len_nonneg l3); try lia.
  f_equal. unfold len.
  replace (Z.to_nat (Z.of_nat (length l1))) with (length l1) by lia.
  rewrite drop_app_length. rewrite take_app_le by lia. by apply take_ge; lia.
Qed.

Lemma slice_app_head l1 l2 b : b = len l1 -> @slice E A (l1 ++ l2) 0 b = Ok l1.
Proof. intros. by apply (slice_app_mid [] l1 l2). Qed.

Lemma slice_app_tail l1 l2 a b : a = len l1 -> b = len l1 + len l2 ->
  @slice E A (l1 ++ l2) a b = Ok l2.
Proof. intros. rewrite <- (app_nil_r l2) at 1. by apply slice_app_mid. Qed.

(** A slice past a prefix is a slice of the rest. *)
Lemma slice_app_skip l1 l2 a b : len l1 <= a <= b ->
  @slice E A (l1 ++ l2) a b = slice l2 (a - len l1) (b - len l1).
Proof.
  intros Hab. pose proof (len_nonneg l1). unfold slice. rewrite len_app.
  case_decide; case_decide; try lia; [|done].
  replace (b - len l1 - (a - len l1)) with (b - a) by lia.
  do 2 f_equal. unfold len. rewrite drop_app_ge by (unfold len in *; lia). f_equal.
  unfold len in *. lia.
Qed.

Lemma len_one l : len l = 1 -> exists a, l = [a].
Proof. destruct l as [|a [|b l]]; [done|eauto|]. unfold len. cbn. lia. Qed.

Lemma split_at l n : 0 <= n <= len l -> exists h t, l = h ++ t /\ len h = n /\ len t = len l - n.
Proof.
  intros Hn. exists (take (Z.to_nat n) l), (drop (Z.to_nat n) l).
  rewrite take_drop, len_take_le, len_drop by done. done.
Qed.

Lemma slice_no_panic l a b : 0 <= a <= b -> b <= len l -> @slice E A l a b <> Panic.
Proof. intros. by rewrite slice_in. Qed.

Lemma slice_inv l a b k : @slice E A l a b = Ok k ->
  0 <= a <= b /\ b <= len l /\ len k = b - a.
Proof.
  unfold slice. case_decide as H; [|done]. intros [= <-]. split; [lia|]. split; [lia|].
  apply len_take_le. rewrite len_drop by lia. lia.
Qed.
End slices.

Arguments len : simpl never.
Arguments slice : simpl never.
Arguments index : simpl never.

(** Lengths: [autorewrite with len] computes the length of a composed slice,
    [len_lia] also knows that lengths are not negative. *)
#[export] Hint Rewrite @len_app @len_cons @len_nil : len.

Ltac len_facts :=
  repeat match goal with
  | |- context [len ?l] =>
      lazymatch goal with _ : 0 <= len l |- _ => fail | _ => pose proof (len_nonneg l) end
  | _ : context [len ?l] |- _ =>
      lazymatch goal with _ : 0 <= len l |- _ => fail | _ => pose proof (len_nonneg l) end
  end.

Ltac len_lia := autorewrite with len in *; len_facts; lia.

(** ** Big-endian integers ([encoding/binary.BigEndian]) *)
Fixpoint be_put (n : nat) (z : Z) : bytes :=
  match n with
  | O => []
  | S m => to_byte (Z.shiftr z (8 * Z.of_nat m)) :: be_put m z
  end.

Definition be_get (bs : bytes) : Z :=
  fold_left (fun acc b => acc * 256 + byte_val b) bs 0.

Lemma be_get_acc bs : forall acc,
  fold_left (fun acc b => acc * 256 + byte_val b) bs acc = acc * 2 ^ (8 * len bs) + be_get bs.
Proof.
  unfold be_get. induction bs as [|b bs IH]; intros acc; cbn [fold_left].
  - change (len (@nil byte)) with 0. lia.
  - rewrite IH, (IH (0 * 256 + _)), len_cons.
    replace (8 * (len bs + 1)) with (8 + 8 * len bs) by lia.
    rewrite Z.pow_add_r by (pose proof (len_nonneg bs); lia).
    change (2 ^ 8) with 256. ring.
Qed.

Lemma be_get_cons b bs : be_get (b :: bs) = byte_val b * 2 ^ (8 * len bs) + be_get bs.
Proof. unfold be_get at 1. cbn [fold_left]. by rewrite be_get_acc. Qed.

Lemma be_get_range bs : 0 <= be_get bs < 2 ^ (8 * len bs).
Proof.
  induction bs as [|b bs IH]; [by vm_compute|]. rewrite be_get_cons, len_cons.
  pose proof (byte_val_range b). pose proof (len_nonneg bs).
  replace (8 * (len bs + 1)) with (8 + 8 * len bs) by lia.
  rewrite Z.pow_add_r by lia. change (2 ^ 8) with 256. nia.
Qed.

Lemma length_be_put n z : length (be_put n z) = n.
Proof. induction n; cbn; congruence. Qed.

Lemma len_be_put n z : len (be_put n z) = Z.of_nat n.
Proof. unfold len. by rewrite length_be_put. Qed.

Lemma be_get_put n z : be_get (be_put n z) = z mod 2 ^ (8 * Z.of_nat n).
Proof.
  induction n as [|n IH]; cbn [be_put].
  - cbn. by rewrite Z.mod_1_r.
  - rewrite be_get_cons, IH, len_be_put, byte_val_to_byte.
    rewrite Z.shiftr_div_pow2 by lia.
    replace (8 * Z.of_nat (S n)) with (8 * Z.of_nat n + 8) by lia.
    rewrite Z.pow_add_r by lia. change (2 ^ 8) with 256.
    rewrite Z.rem_mul_r by lia. ring.
Qed.

Lemma be_get_put_small n z : 0 <= z < 2 ^ (8 * Z.of_nat n) -> be_get (be_put n z) = z.
Proof. intros. by rewrite be_get_put, Z.mod_small. Qed.

Lemma be_put_shift n z k : 0 <= k -> be_put n (z + k * 2 ^ (8 * Z.of_nat n)) = be_put n z.
Proof.
  intros Hk. induction n as [|n IH] in k, Hk |- *; [done|]. cbn [be_put].
  replace (8 * Z.of_nat (S n)) with (8 + 8 * Z.of_nat n) by lia.
  rewrite Z.pow_add_r by lia. change (2 ^ 8) with 256. f_equal.
  - apply byte_val_inj. rewrite !byte_val_to_byte, !Z.shiftr_div_pow2 by lia.
    rewrite Z.mul_assoc, Z.div_add by lia. by rewrite Z.mod_add.
  - rewrite Z.mul_assoc. apply IH. lia.
Qed.

Lemma be_put_get bs : be_put (length bs) (be_get bs) = bs.
Proof.
  induction bs as [|b bs IH]; [done|]. cbn [length be_put].
  pose proof (be_get_range bs) as HB. pose proof (byte_val_range b).
  rewrite be_get_cons. unfold len in *. f_equal.
  - apply byte_val_inj. rewrite byte_val_to_byte, Z.shiftr_div_pow2 by lia.
    rewrite Z.add_comm, Z.div_add by lia. rewrite (Z.div_small (be_get bs)) by lia.
    by rewrite Z.add_0_l, Z.mod_small.
  - rewrite Z.add_comm, be_put_shift by lia. done.
Qed.

Lemma be_put_get_len n (bs : bytes) : len bs = Z.of_nat n -> be_put n (be_get bs) = bs.
Proof. unfold len. intros Hl. replace n with (length bs) by lia. apply be_put_get. Qed.

Lemma be_put_inj n a b :
  0 <= a < 2 ^ (8 * Z.of_nat n) -> 0 <= b < 2 ^ (8 * Z.of_nat n) ->
  be_put n a = be_put n b -> a = b.
Proof. intros Ha Hb H%(f_equal be_get). by rewrite !be_get_put_small in H. Qed.

#[export] Hint Rewrite len_be_put : len.

(** Facts about ranges that side conditions ask for. *)
Create HintDb go discriminated.
#[export] Hint Resolve len_nonneg byte_val_range be_get_range wrap_range : go.
#[export] Hint Resolve index_no_panic slice_no_panic : go.

#[global] Opaque be_put be_get.
