(* ===== verification/GoStrings.v ===== *)
(** The parts of the Go library's string handling the program uses: [TrimSpace]
    and the other functions of package strings, [filepath.Base],
    [net.SplitHostPort], and hexadecimal rendering.  Go strings are byte
    sequences. *)
From Stdlib Require Import ZArith Lia.
From Stdlib Require Import Strings.Byte.
From stdpp Require Import base list strings numbers option.
From S2P Require Import Prelude.

(** [strings.Join] *)
Fixpoint join (sep : bytes) (parts : list bytes) : bytes :=
  match parts with
  | [] => []
  | [p] => p
  | p :: rest => p ++ sep ++ join sep rest
  end.

(** ["%02X"] of a byte. *)
Definition hex_digit (d : Z) : byte := to_byte (if decide (d < 10) then 48 + d else 55 + d).
Definition hex2 (b : byte) : bytes := [hex_digit (byte_val b / 16); hex_digit (byte_val b mod 16)].

(** A white-space rune at the front of a UTF-8 string, as its encoded length:
    the characters of [unicode.IsSpace]. *)
Definition space_prefix (s : bytes) : nat :=
  match s with
  | x09 :: _ | x0a :: _ | x0b :: _ | x0c :: _ | x0d :: _ | x20 :: _ => 1
  | xc2 :: x85 :: _ | xc2 :: xa0 :: _ => 2
  | xe1 :: x9a :: x80 :: _ => 3
  | xe2 :: x80 :: b :: _ =>
      if decide ((128 <= byte_val b <= 138)%Z \/ b = xa8 \/ b = xa9 \/ b = xaf) then 3 else 0
  | xe2 :: x81 :: x9f :: _ => 3
  | xe3 :: x80 :: x80 :: _ => 3
  | _ => 0
  end%nat.

Fixpoint trim_left (fuel : nat) (s : bytes) : bytes :=
  match fuel with
  | O => s
  | S n => match space_prefix s with
           | O => s
           | k => trim_left n (drop k s)
           end
  end.

(** A white-space rune at the end of the string. *)
Definition space_suffix (s : bytes) : nat :=
  let n := length s in
  let try k := (k <=? n)%nat && (space_prefix (drop (n - k) s) =? k)%nat in
  if try 1%nat then 1 else if try 2%nat then 2 else if try 3%nat then 3 else 0.

Fixpoint trim_right (fuel : nat) (s : bytes) : bytes :=
  match fuel with
  | O => s
  | S n => match space_suffix s with
           | O => s
           | k => trim_right n (take (length s - k) s)
           end
  end.

(** [strings.TrimSpace]; a trim step removes at least one byte, so the length
    of the string bounds the number of steps. *)
Definition TrimSpace (s : bytes) : bytes :=
  let l := trim_left (length s) s in trim_right (length l) l.

(** [strings.LastIndexByte] and [strings.IndexByte] *)
Fixpoint IndexByte (s : bytes) (c : byte) : option nat :=
  match s with
  | [] => None
  | b :: rest => if decide (b = c) then Some O else S <$> IndexByte rest c
  end.

Fixpoint LastIndexByte (s : bytes) (c : byte) : option nat :=
  match s with
  | [] => None
  | b :: rest => match LastIndexByte rest c with
                 | Some i => Some (S i)
                 | None => if decide (b = c) then Some O else None
                 end
  end.

Definition HasPrefix (s p : bytes) : bool := bool_decide (take (length p) s = p).

(** [strings.Contains] *)
Fixpoint Contains (s p : bytes) : bool :=
  HasPrefix s p || match s with [] => false | _ :: rest => Contains rest p end.

(** [filepath.Base] on a slash-separated path. *)
Fixpoint strip_slashes_rev (r : bytes) : bytes :=
  match r with x2f :: rest => strip_slashes_rev rest | _ => r end.

Definition Base (path : bytes) : bytes :=
  match path with
  | [] => str "."
  | _ =>
      let p := rev (strip_slashes_rev (rev path)) in
      match LastIndexByte p x2f with
      | Some i => drop (S i) p
      | None => match p with [] => str "/" | _ => p end
      end
  end.

(** [net.SplitHostPort]: the address is split at its last colon; brackets may
    enclose the host, and neither part may contain a stray bracket or colon. *)
Inductive addr_err := MissingPort | TooManyColons | MissingBracket | UnexpectedBracket.

Definition SplitHostPort (hostport : bytes) : res addr_err (bytes * bytes) :=
  match LastIndexByte hostport x3a with
  | None => Err MissingPort
  | Some i =>
      match hostport with
      | x5b :: _ =>
          match IndexByte hostport x5d with
          | None => Err MissingBracket
          | Some e =>
              if decide (S e = length hostport) then Err MissingPort
              else if decide (S e = i) then
                let host := take (e - 1) (drop 1 hostport) in
                let tl := drop (S i) hostport in
                if decide (IndexByte (drop 1 hostport) x5b <> None) then Err UnexpectedBracket
                else if decide (IndexByte (drop (S e) hostport) x5d <> None) then Err UnexpectedBracket
                else Ok (host, tl)
              else if decide (nth_error hostport (S e) = Some x3a) then Err TooManyColons
              else Err MissingPort
          end
      | _ =>
          let host := take i hostport in
          if decide (IndexByte host x3a <> None) then Err TooManyColons
          else if decide (IndexByte hostport x5b <> None) then Err UnexpectedBracket
          else if decide (IndexByte hostport x5d <> None) then Err UnexpectedBracket
          else Ok (host, drop (S i) hostport)
      end
  end.

(** [net.JoinHostPort] *)
Definition JoinHostPort (host port : bytes) : bytes :=
  match IndexByte host x3a, IndexByte host x25 with
  | None, None => host ++ str ":" ++ port
  | _, _ => str "[" ++ host ++ str "]:" ++ port
  end.

(** ** Lemmas *)
Lemma hex_digit_inj a b : 0 <= a < 16 -> 0 <= b < 16 -> hex_digit a = hex_digit b -> a = b.
Proof.
  unfold hex_digit. intros Ha Hb H%(f_equal byte_val). rewrite !byte_val_to_byte in H.
  repeat case_decide; rewrite !Z.mod_small in H by lia; lia.
Qed.

Lemma hex2_inj a b : hex2 a = hex2 b -> a = b.
Proof.
  unfold hex2. intros [= H1 H2]. pose proof (byte_val_range a). pose proof (byte_val_range b).
  apply byte_val_inj.
  apply hex_digit_inj in H1, H2; try (apply Z.mod_pos_bound; lia);
    try (split; [apply Z.div_pos|apply Z.div_lt_upper_bound]; lia).
  rewrite (Z.div_mod (byte_val a) 16), (Z.div_mod (byte_val b) 16) by done. congruence.
Qed.

Lemma join_cons sep p q rest : join sep (p :: q :: rest) = p ++ sep ++ join sep (q :: rest).
Proof. done. Qed.

(** Colon-separated hexadecimal determines the bytes. *)
Lemma hex_join_inj sep x : forall y, length x = length y ->
  join sep (hex2 <$> x) = join sep (hex2 <$> y) -> x = y.
Proof.
  induction x as [|a x IH]; intros [|b y] Hl Hj; try done.
  destruct x as [|a' x], y as [|b' y]; try done; cbn [fmap list_fmap] in *.
  - cbn in Hj. f_equal. by apply hex2_inj.
  - rewrite !join_cons in Hj. apply app_inj_1 in Hj as [H1 H2]; [|done].
    apply app_inv_head in H2. f_equal; [by apply hex2_inj|]. apply IH; [cbn in *; lia|done].
Qed.
