(* ===== verification/Crypto.v ===== *)
(** The cryptographic wrappers of [src/internal/crypto/crypto.go].

    The primitives themselves (HKDF-SHA-256 and AES-256-GCM of the Go library)
    are operations of the class [CryptoOps]; [CryptoLaws] states the documented
    behaviour the wrappers and the protocol rely on.  Everything above is
    proved for every instance of the two classes, and [Toy] is a concrete
    instance on which the definitions can be evaluated. *)
From Stdlib Require Import ZArith Lia.
From Stdlib Require Import Strings.Byte.
From stdpp Require Import base list numbers option.
From S2P Require Import Prelude.

Class CryptoOps := {
  (** [hkdf.Key(sha256.New, secret, salt, info, length)] *)
  hkdf_key : bytes -> bytes -> bytes -> Z -> option bytes;
  (** AES-256-GCM: key, nonce, plaintext, additional data *)
  gcm_seal : bytes -> bytes -> bytes -> bytes -> bytes;
  (** AES-256-GCM: key, nonce, ciphertext and tag, additional data *)
  gcm_open : bytes -> bytes -> bytes -> bytes -> option bytes
}.

(** HKDF-SHA-256 delivers any length up to 255 blocks of 32 bytes.  GCM appends
    a 16-byte tag, and its decryption accepts exactly the outputs of its
    encryption under the same key, nonce and additional data. *)
Class CryptoLaws `{CryptoOps} := {
  hkdf_key_ok secret salt info n :
    0 <= n <= 255 * 32 -> exists k, hkdf_key secret salt info n = Some k /\ len k = n;
  gcm_seal_len key nonce pt aad : len (gcm_seal key nonce pt aad) = len pt + 16;
  gcm_open_iff key nonce ct aad pt :
    gcm_open key nonce ct aad = Some pt <-> ct = gcm_seal key nonce pt aad
}.

Inductive crypto_err :=
| ErrCSPRNG
| ErrEmptySecret
| ErrHKDF
| ErrInvalidKeySize (n : Z)
| ErrDecrypt.

Definition KeySize : Z := 32.
Definition NonceSize : Z := 12.
Definition TagSize : Z := 16.

(** The OS randomness is an argument: the bytes the CSPRNG will deliver.  A
    read asking for more than it delivers is the CSPRNG failure. *)
Definition RandomBytes (n : Z) (rng : bytes) : res crypto_err bytes :=
  if decide (len rng < n) then Err ErrCSPRNG else Ok (take (Z.to_nat n) rng).

Definition RandomKey (rng : bytes) : res crypto_err bytes := RandomBytes KeySize rng.

(** [Zeroise] overwrites the slice in place. *)
Definition Zeroise (b : bytes) : bytes := replicate (length b) x00.

Section wrappers.
Context `{CryptoOps}.

Definition DeriveKey (secret salt info : bytes) (length : Z) : res crypto_err bytes :=
  if decide (len secret = 0) then Err ErrEmptySecret
  else match hkdf_key secret salt info length with
       | Some key => Ok key
       | None => Err ErrHKDF
       end.

(** The AEAD is built from a 32-byte key or not at all. *)
Definition aead (key : bytes) : res crypto_err bytes :=
  if decide (len key <> KeySize) then Err (ErrInvalidKeySize (len key)) else Ok key.

Definition Seal (key aad plaintext rng : bytes) : res crypto_err bytes :=
  gcm ← aead key;
  nonce ← RandomBytes NonceSize rng;
  Ok (nonce ++ gcm_seal gcm nonce plaintext aad).

Definition Open (key aad blob : bytes) : res crypto_err bytes :=
  gcm ← aead key;
  if decide (len blob < NonceSize + TagSize) then Err ErrDecrypt
  else
    nonce ← slice blob 0 NonceSize;
    ct ← slice blob NonceSize (len blob);
    match gcm_open gcm nonce ct aad with
    | Some pt => Ok pt
    | None => Err ErrDecrypt
    end.
End wrappers.

(** ** Laws of the wrappers *)
Lemma RandomBytes_ok n rng : 0 <= n <= len rng ->
  RandomBytes n rng = Ok (take (Z.to_nat n) rng) /\ len (take (Z.to_nat n) rng) = n.
Proof.
  intros. unfold RandomBytes. rewrite decide_False by lia. split; [done|]. by apply len_take_le.
Qed.

Lemma RandomBytes_inv n rng b : 0 <= n -> RandomBytes n rng = Ok b -> len b = n.
Proof.
  unfold RandomBytes. intros. case_decide; [done|]. simplify_eq. apply len_take_le. lia.
Qed.

Lemma Zeroise_len b : len (Zeroise b) = len b.
Proof. unfold Zeroise, len. by rewrite length_replicate. Qed.

Section laws.
Context `{CryptoLaws}.

Lemma DeriveKey_ok secret salt info n : len secret <> 0 -> 0 <= n <= 255 * 32 ->
  exists k, DeriveKey secret salt info n = Ok k /\ len k = n.
Proof.
  intros Hs Hn. unfold DeriveKey. rewrite decide_False by done.
  destruct (hkdf_key_ok secret salt info n Hn) as (k & -> & Hk). eauto.
Qed.

Lemma DeriveKey_inv secret salt info n k : 0 <= n <= 255 * 32 ->
  DeriveKey secret salt info n = Ok k -> len secret <> 0 /\ len k = n.
Proof.
  unfold DeriveKey. intros Hn. case_decide; [done|].
  destruct (hkdf_key_ok secret salt info n Hn) as (k' & -> & Hk). naive_solver.
Qed.

Lemma Seal_ok key aad pt rng : len key = KeySize -> NonceSize <= len rng ->
  exists nonce, Seal key aad pt rng = Ok (nonce ++ gcm_seal key nonce pt aad) /\
    len nonce = NonceSize.
Proof.
  intros Hk Hr. unfold Seal, aead. rewrite decide_False by lia. step_bind.
  destruct (RandomBytes_ok NonceSize rng) as [-> Hl]; [unfold NonceSize in *; lia|].
  step_bind. eauto.
Qed.

Lemma Seal_inv key aad pt rng blob : Seal key aad pt rng = Ok blob ->
  exists nonce, len key = KeySize /\ len nonce = NonceSize /\
    blob = nonce ++ gcm_seal key nonce pt aad.
Proof.
  unfold Seal, aead. case_decide; [done|]. step_bind.
  destruct (RandomBytes NonceSize rng) as [n| |] eqn:Hn; try done. step_bind.
  apply RandomBytes_inv in Hn; [|done]. intros [= <-]. exists n. split; [lia|done].
Qed.

(** [Open] accepts exactly the blobs that encryption under the same key and
    additional data produces. *)
Lemma Open_iff key aad blob pt :
  Open key aad blob = Ok pt <->
  exists nonce, len key = KeySize /\ len nonce = NonceSize /\
    blob = nonce ++ gcm_seal key nonce pt aad.
Proof.
  unfold Open, aead, KeySize, NonceSize, TagSize. split.
  - destruct (decide (len key <> 32)); [done|]. step_bind. case_decide as Hlen; [done|].
    rewrite !slice_in by lia. step_bind.
    destruct (gcm_open _ _ _ _) as [pt'|] eqn:Ho; [|done]. intros [= ->].
    apply gcm_open_iff in Ho.
    exists (take 12 blob). split; [lia|]. split.
    { apply (len_take_le 12). lia. }
    rewrite <- (take_drop 12 blob) at 1. f_equal.
    rewrite Z.sub_0_r in Ho. change (take (Z.to_nat 12) (drop (Z.to_nat 0) blob)) with (take 12 blob) in Ho.
    rewrite <- Ho. symmetry. apply take_ge. rewrite length_drop. unfold len in *. lia.
  - intros (nonce & Hk & Hn & ->). rewrite decide_False by lia. step_bind.
    rewrite decide_False by (rewrite len_app, gcm_seal_len; pose proof (len_nonneg pt); lia).
    rewrite slice_app_head by done. step_bind.
    rewrite slice_app_tail by (rewrite ?len_app; done). step_bind.
    by rewrite (proj2 (gcm_open_iff _ _ _ _ _) eq_refl).
Qed.

Lemma Open_Seal key aad pt rng blob :
  Seal key aad pt rng = Ok blob -> Open key aad blob = Ok pt.
Proof. intros (n & ? & ? & ->)%Seal_inv. apply Open_iff. eauto. Qed.

Lemma Seal_len key aad pt rng blob :
  Seal key aad pt rng = Ok blob -> len blob = len pt + 28.
Proof.
  intros (n & _ & Hn & ->)%Seal_inv. rewrite len_app, gcm_seal_len, Hn.
  unfold NonceSize. lia.
Qed.

Lemma Open_no_panic key aad blob : Open key aad blob <> Panic.
Proof.
  unfold Open, aead, NonceSize, TagSize.
  destruct (decide (len key <> KeySize)); [done|]. step_bind.
  case_decide; [done|]. rewrite !slice_in by lia. step_bind. by destruct (gcm_open _ _ _ _).
Qed.
End laws.

(** ** A concrete instance

    A keyed checksum stands for the tag and a checksum stretched to the
    requested length for HKDF: enough to satisfy the laws and to evaluate the
    protocol on concrete inputs; it has no security. *)
Module Toy.
Definition mix (b : bytes) : Z :=
  fold_left (fun a x => (a * 131 + byte_val x + 7) mod 2 ^ 256) b 1.

Definition joined (parts : list bytes) : bytes :=
  foldr (fun p acc => be_put 4 (len p) ++ p ++ acc) [] parts.

Definition hkdf (secret salt info : bytes) (n : Z) : option bytes :=
  if decide (0 <= n <= 255 * 32)
  then Some (be_put (Z.to_nat n) (mix (joined [secret; salt; info]))) else None.

Definition tag (key nonce pt aad : bytes) : bytes :=
  be_put 16 (mix (joined [key; nonce; pt; aad])).

Definition seal (key nonce pt aad : bytes) : bytes := pt ++ tag key nonce pt aad.

Definition open (key nonce ct aad : bytes) : option bytes :=
  if decide (len ct < 16) then None
  else
    let pt := take (length ct - 16) ct in
    if decide (drop (length ct - 16) ct = tag key nonce pt aad) then Some pt else None.

#[export] Instance ops : CryptoOps :=
  {| hkdf_key := hkdf; gcm_seal := seal; gcm_open := open |}.

Lemma open_iff key nonce ct aad pt :
  open key nonce ct aad = Some pt <-> ct = seal key nonce pt aad.
Proof.
  unfold open, seal. split.
  - case_decide; [done|]. case_decide as Ht; [|done]. intros [= <-].
    by rewrite <- Ht, take_drop.
  - intros ->. rewrite decide_False by (rewrite len_app; unfold tag; rewrite len_be_put; pose proof (len_nonneg pt); lia).
    assert (Ht : length (tag key nonce pt aad) = 16%nat) by apply length_be_put.
    rewrite length_app, Ht. replace (length pt + 16 - 16)%nat with (length pt) by lia.
    rewrite take_app_length, drop_app_length. by rewrite decide_True.
Qed.

#[export] Instance laws : CryptoLaws.
Proof.
  split.
  - intros. cbn. unfold hkdf. rewrite decide_True by done. eexists. split; [done|].
    rewrite len_be_put. lia.
  - intros. cbn. unfold seal, tag. rewrite len_app, len_be_put. lia.
  - apply open_iff.
Qed.
End Toy.
