(* ===== verification/Replay.v ===== *)
(** The sliding replay window of [src/internal/proto/replay.go].

    The window is a 16-word bitmap indexed by age below the highest accepted
    sequence number.  [check] is proved to refine [spec_check], which remembers
    every accepted number and nothing else. *)
From Stdlib Require Import ZArith Lia.
From stdpp Require Import base list gmap numbers option.
From S2P Require Import Prelude.

Definition windowSize : Z := 1024.
Definition windowWords : nat := 16.

Record replayWindow := ReplayWindow {
  highest : Z;       (* uint64 *)
  started : bool;
  bitmap : list Z    (* [windowSize / 64]uint64 *)
}.

Definition newReplayWindow : replayWindow :=
  ReplayWindow 0 false (replicate windowWords 0).

Section operations.
Context {E : Type}.

(** One word of [slide]: the value written at index [i]. *)
Definition slide_word (bm : list Z) (words bits i : Z) : res E Z :=
  let src := i - words in
  if decide (0 <= src) then
    x ← index bm src;
    let v := wrap 64 (Z.shiftl x bits) in
    if decide (bits <> 0 /\ 0 <= src - 1) then
      y ← index bm (src - 1);
      Ok (Z.lor v (Z.shiftr y (64 - bits)))
    else Ok v
  else Ok 0.

(** The downward in-place loop of [slide]: [n] words are still to do. *)
Fixpoint slide_loop (words bits : Z) (n : nat) (bm : list Z) : res E (list Z) :=
  match n with
  | O => Ok bm
  | S i =>
      v ← slide_word bm words bits (Z.of_nat i);
      slide_loop words bits i (<[i := v]> bm)
  end.

Definition slide (w : replayWindow) (shift : Z) : res E replayWindow :=
  if decide (windowSize <= shift) then
    Ok (ReplayWindow (highest w) (started w) (replicate (length (bitmap w)) 0))
  else
    bm ← slide_loop (shift / 64) (shift mod 64) (length (bitmap w)) (bitmap w);
    Ok (ReplayWindow (highest w) (started w) bm).

Definition bitIndex (w : replayWindow) (seq : Z) : Z * Z :=
  let age := wrap 64 (highest w - seq) in (age / 64, age mod 64).

Definition mark (w : replayWindow) (seq : Z) : res E replayWindow :=
  let '(word, bit) := bitIndex w seq in
  x ← index (bitmap w) word;
  Ok (ReplayWindow (highest w) (started w)
        (<[Z.to_nat word := Z.lor x (wrap 64 (Z.shiftl 1 bit))]> (bitmap w))).

Definition seen (w : replayWindow) (seq : Z) : res E bool :=
  let '(word, bit) := bitIndex w seq in
  x ← index (bitmap w) word;
  Ok (negb (Z.land x (wrap 64 (Z.shiftl 1 bit)) =? 0)).

Definition check (w : replayWindow) (seq : Z) : res E (bool * replayWindow) :=
  if negb (started w) then
    w' ← mark (ReplayWindow seq true (bitmap w)) seq;
    Ok (true, w')
  else if decide (highest w < seq) then
    w1 ← slide w (seq - highest w);
    w2 ← mark (ReplayWindow seq (started w1) (bitmap w1)) seq;
    Ok (true, w2)
  else if decide (seq = highest w) then Ok (false, w)
  else
    let age := wrap 64 (highest w - seq) in
    if decide (windowSize <= age) then Ok (false, w)
    else
      s ← seen w seq;
      if (s : bool) then Ok (false, w)
      else w' ← mark w seq; Ok (true, w').
End operations.

(** ** Abstract specification: remember every accepted number. *)
Definition spec_fresh (A : gset Z) (seq : Z) : bool :=
  bool_decide (seq ∉ A) && bool_decide (set_Forall (fun x => x < seq + windowSize) A).

Definition spec_check (A : gset Z) (seq : Z) : bool * gset Z :=
  if spec_fresh A seq then (true, {[seq]} ∪ A) else (false, A).

(** Bit of the bitmap that stands for the number [age] below [highest]. *)
Definition bit_at (bm : list Z) (age : Z) : bool :=
  match bm !! Z.to_nat (age / 64) with
  | Some x => Z.testbit x (age mod 64)
  | None => false
  end.

Definition bm_wf (bm : list Z) : Prop :=
  length bm = windowWords /\ Forall (is_uint 64) bm.

Record win_rel (w : replayWindow) (A : gset Z) : Prop := {
  wr_bm : bm_wf (bitmap w);
  wr_hi : is_uint 64 (highest w);
  wr_init : started w = false -> A = ∅ /\ bitmap w = replicate windowWords 0;
  wr_top : started w = true -> highest w ∈ A;
  wr_below : forall x, x ∈ A -> 0 <= x <= highest w;
  wr_bits : started w = true -> forall age, 0 <= age < windowSize ->
    bit_at (bitmap w) age = bool_decide (highest w - age ∈ A)
}.

(** ** The bitmap operations, bit by bit *)
Lemma bit_at_zero n age : bit_at (replicate n 0) age = false.
Proof.
  unfold bit_at. destruct (_ !! _) eqn:H; [|done].
  apply lookup_replicate in H as [-> _]. apply Z.bits_0.
Qed.

Lemma testbit_high x b : is_uint 64 x -> 64 <= b -> Z.testbit x b = false.
Proof.
  intros Hx Hb. rewrite <- (Z.mod_small x (2 ^ 64)) by done.
  by apply Z.mod_pow2_bits_high.
Qed.

Lemma bm_wf_lookup bm i : bm_wf bm -> (i < windowWords)%nat ->
  exists x, bm !! i = Some x /\ is_uint 64 x.
Proof.
  intros [Hl Hf] Hi. destruct (lookup_lt_is_Some_2 bm i) as [x Hx]; [lia|].
  exists x. split; [done|]. by eapply Forall_lookup_1.
Qed.

Lemma bm_wf_insert bm i x : bm_wf bm -> is_uint 64 x -> bm_wf (<[i := x]> bm).
Proof.
  intros [Hl Hf] Hx. split; [by rewrite length_insert|]. by apply Forall_insert.
Qed.

Lemma index_bm {E} bm i : bm_wf bm -> 0 <= i < 16 ->
  exists x, @index E _ bm i = Ok x /\ bm !! Z.to_nat i = Some x /\ is_uint 64 x.
Proof.
  intros Hw Hi. destruct (bm_wf_lookup bm (Z.to_nat i) Hw) as (x & Hx & Hu).
  { unfold windowWords. lia. }
  exists x. unfold index. rewrite decide_True by lia. by rewrite Hx.
Qed.

Lemma wrap_lor_uint w x y : 0 <= w -> is_uint w x -> is_uint w y -> is_uint w (Z.lor x y).
Proof.
  intros Hw Hx Hy. unfold is_uint. replace (Z.lor x y) with (Z.lor x y mod 2 ^ w).
  { apply Z.mod_pos_bound. lia. }
  rewrite <- Z.land_ones by done. rewrite Z.land_lor_distr_l.
  by rewrite !Z.land_ones, !Z.mod_small.
Qed.

Lemma shiftr_uint w x n : 0 <= n -> is_uint w x -> is_uint w (Z.shiftr x n).
Proof.
  intros Hn [H0 H1]. unfold is_uint. rewrite Z.shiftr_div_pow2 by done.
  assert (0 < 2 ^ n) by (apply Z.pow_pos_nonneg; lia).
  split; [by apply Z.div_pos|]. apply Z.le_lt_trans with x; [|done].
  apply Z.div_le_upper_bound; nia.
Qed.

Lemma testbit_wrap_shiftl x n b : 0 <= n -> 0 <= b < 64 ->
  Z.testbit (wrap 64 (Z.shiftl x n)) b = (n <=? b) && Z.testbit x (b - n).
Proof.
  intros Hn Hb. unfold wrap. rewrite Z.mod_pow2_bits_low by lia.
  rewrite Z.shiftl_spec by lia. destruct (Z.leb_spec n b); [done|].
  by rewrite Z.testbit_neg_r by lia.
Qed.

Lemma slide_word_ok {E} bm words bits i :
  bm_wf bm -> 0 <= words < 16 -> 0 <= bits < 64 -> 0 <= i < 16 ->
  exists v, @slide_word E bm words bits i = Ok v /\ is_uint 64 v /\
    forall b, 0 <= b < 64 ->
      Z.testbit v b = (64 * words + bits <=? 64 * i + b) &&
                      bit_at bm (64 * i + b - (64 * words + bits)).
Proof.
  intros Hw Hwo Hbi Hi. unfold slide_word. case_decide as Hs; cycle 1.
  { exists 0. split; [done|]. split; [by vm_compute|]. intros b Hb.
    rewrite Z.bits_0. by rewrite (proj2 (Z.leb_gt _ _)) by lia. }
  destruct (@index_bm E bm (i - words) Hw) as (x & -> & Hx & Hxu); [lia|]. cbn.
  assert (Hlo : forall b, 0 <= b < 64 -> bits <= b ->
    bit_at bm (64 * i + b - (64 * words + bits)) = Z.testbit x (b - bits)).
  { intros b Hb Hle. unfold bit_at.
    replace (64 * i + b - (64 * words + bits)) with ((b - bits) + (i - words) * 64) by lia.
    rewrite Z.div_add, Z.mod_add by lia. rewrite Z.div_small, Z.mod_small by lia.
    by rewrite Z.add_0_l, Hx. }
  case_decide as Hc.
  - destruct Hc as [Hb0 Hs1].
    destruct (@index_bm E bm (i - words - 1) Hw) as (y & -> & Hy & Hyu); [lia|]. cbn.
    eexists. split; [done|]. split.
    { apply wrap_lor_uint; [lia|by apply wrap_range|]. apply shiftr_uint; [lia|done]. }
    intros b Hb. rewrite Z.lor_spec, testbit_wrap_shiftl, Z.shiftr_spec by lia.
    rewrite (proj2 (Z.leb_le (64 * words + bits) (64 * i + b))) by lia. cbn.
    destruct (Z.leb_spec bits b).
    + rewrite (testbit_high y), orb_false_r by (done || lia). by rewrite Hlo.
    + cbn. unfold bit_at.
      replace (64 * i + b - (64 * words + bits)) with ((b + 64 - bits) + (i - words - 1) * 64) by lia.
      rewrite Z.div_add, Z.mod_add by lia. rewrite Z.div_small, Z.mod_small by lia.
      rewrite Z.add_0_l, Hy. f_equal. lia.
  - eexists. split; [done|]. split; [by apply wrap_range|].
    intros b Hb. rewrite testbit_wrap_shiftl by lia. destruct (Z.leb_spec bits b).
    + rewrite (proj2 (Z.leb_le _ _)) by lia. by rewrite Hlo.
    + by rewrite (proj2 (Z.leb_gt _ _)) by lia.
Qed.

Lemma bit_at_lookup bm i b x : bm !! i = Some x -> 0 <= b < 64 ->
  bit_at bm (64 * Z.of_nat i + b) = Z.testbit x b.
Proof.
  intros Hx Hb. unfold bit_at. replace (64 * Z.of_nat i + b) with (b + Z.of_nat i * 64) by lia.
  rewrite Z.div_add, Z.mod_add by lia. rewrite Z.div_small, Z.mod_small by lia.
  by rewrite Z.add_0_l, Nat2Z.id, Hx.
Qed.

Lemma bit_at_insert_lt bm i x age : 0 <= age < 64 * Z.of_nat i ->
  bit_at (<[i := x]> bm) age = bit_at bm age.
Proof.
  intros Ha. unfold bit_at. rewrite list_lookup_insert_ne; [done|].
  pose proof (Z.div_lt_upper_bound age 64 (Z.of_nat i)). pose proof (Z.div_pos age 64). lia.
Qed.

Lemma age_split age : 0 <= age < windowSize -> exists i b,
  age = 64 * Z.of_nat i + b /\ 0 <= b < 64 /\ (i < windowWords)%nat.
Proof.
  unfold windowSize, windowWords. intros. exists (Z.to_nat (age / 64)), (age mod 64).
  pose proof (Z.mod_pos_bound age 64). pose proof (Z.div_mod age 64).
  pose proof (Z.div_pos age 64). lia.
Qed.

(** The in-place loop moves every bit up by the shift: words are written from
    the top down, so a word is always read before it is overwritten. *)
Lemma slide_loop_ok {E} words bits n : forall bm,
  bm_wf bm -> 0 <= words < 16 -> 0 <= bits < 64 -> (n <= windowWords)%nat ->
  exists bm', @slide_loop E words bits n bm = Ok bm' /\ bm_wf bm' /\
    forall age, 0 <= age < windowSize ->
      bit_at bm' age =
        if decide (age < 64 * Z.of_nat n)
        then (64 * words + bits <=? age) && bit_at bm (age - (64 * words + bits))
        else bit_at bm age.
Proof.
  induction n as [|i IH]; intros bm Hw Hwo Hbi Hn; cbn [slide_loop].
  { exists bm. split; [done|]. split; [done|]. intros. by rewrite decide_False by lia. }
  destruct (@slide_word_ok E bm words bits (Z.of_nat i) Hw) as (v & -> & Hv & Hbits);
    [done|done|unfold windowWords in *; lia|]. cbn.
  destruct (IH (<[i := v]> bm)) as (bm' & -> & Hw' & Hb'); try done.
  { by apply bm_wf_insert. } { lia. }
  exists bm'. split; [done|]. split; [done|]. intros age Ha. rewrite Hb' by done.
  case_decide as H1.
  { rewrite decide_True by lia. destruct (Z.leb_spec (64 * words + bits) age); [cbn|done].
    by rewrite bit_at_insert_lt by lia. }
  destruct (age_split age Ha) as (k & b & -> & Hb & Hk).
  case_decide as H2.
  - assert (k = i) as -> by lia. rewrite <- Hbits by done.
    apply bit_at_lookup; [|done]. apply list_lookup_insert_eq. destruct Hw. lia.
  - assert (k <> i) by lia. destruct (bm_wf_lookup bm k Hw Hk) as (x & Hx & _).
    rewrite !(bit_at_lookup _ k b x); try done. by rewrite list_lookup_insert_ne.
Qed.

Lemma slide_ok {E} w shift : bm_wf (bitmap w) -> 0 <= shift ->
  exists bm', @slide E w shift = Ok (ReplayWindow (highest w) (started w) bm') /\ bm_wf bm' /\
    forall age, 0 <= age < windowSize ->
      bit_at bm' age = (shift <=? age) && bit_at (bitmap w) (age - shift).
Proof.
  intros Hw Hs. unfold slide. case_decide as Hc.
  - destruct Hw as [Hl _]. rewrite Hl. eexists. split; [done|]. split.
    + split; [by rewrite length_replicate|]. apply Forall_replicate. by vm_compute.
    + intros age Ha. rewrite bit_at_zero. by rewrite (proj2 (Z.leb_gt _ _)) by lia.
  - unfold windowSize in Hc.
    pose proof (Z.mod_pos_bound shift 64). pose proof (Z.div_mod shift 64).
    pose proof (Z.div_pos shift 64).
    destruct (@slide_loop_ok E (shift / 64) (shift mod 64) (length (bitmap w)) (bitmap w) Hw)
      as (bm' & -> & Hw' & Hb); [lia|lia|destruct Hw; lia|].
    cbn. eexists. split; [done|]. split; [done|]. intros age Ha. rewrite Hb by done.
    destruct Hw as [Hl _]. rewrite Hl. rewrite decide_True by (unfold windowSize, windowWords in *; lia).
    by replace (64 * (shift / 64) + shift mod 64) with shift by lia.
Qed.

Lemma one_shift b : 0 <= b < 64 -> wrap 64 (Z.shiftl 1 b) = 2 ^ b.
Proof.
  intros. rewrite Z.shiftl_1_l. apply wrap_small. split; [lia|]. apply Z.pow_lt_mono_r; lia.
Qed.

Lemma bitIndex_in w seq : 0 <= highest w - seq < windowSize -> is_uint 64 (highest w) ->
  bitIndex w seq = ((highest w - seq) / 64, (highest w - seq) mod 64) /\
  0 <= (highest w - seq) / 64 < 16 /\ 0 <= (highest w - seq) mod 64 < 64.
Proof.
  unfold windowSize. intros H1 H2. unfold bitIndex. rewrite wrap_small.
  - split; [done|]. split; [|by apply Z.mod_pos_bound].
    split; [apply Z.div_pos; lia|]. apply Z.div_lt_upper_bound; lia.
  - unfold is_uint in *. lia.
Qed.

Lemma mark_ok {E} w seq : bm_wf (bitmap w) -> is_uint 64 (highest w) ->
  0 <= highest w - seq < windowSize ->
  exists bm', @mark E w seq = Ok (ReplayWindow (highest w) (started w) bm') /\ bm_wf bm' /\
    forall age, 0 <= age < windowSize ->
      bit_at bm' age = bool_decide (age = highest w - seq) || bit_at (bitmap w) age.
Proof.
  intros Hw Hh Ha. destruct (bitIndex_in w seq Ha Hh) as (Hi & H1 & H2).
  unfold mark. rewrite Hi. destruct (@index_bm E (bitmap w) _ Hw H1) as (x & -> & Hx & Hu).
  cbn. rewrite one_shift by done.
  assert (Hp : is_uint 64 (2 ^ ((highest w - seq) mod 64))).
  { split; [lia|]. apply Z.pow_lt_mono_r; lia. }
  eexists. split; [done|]. split.
  { apply bm_wf_insert; [done|]. by apply wrap_lor_uint. }
  intros age Hage. destruct (age_split age Hage) as (k & b & -> & Hb & Hk).
  pose proof (Z.div_mod (highest w - seq) 64).
  destruct (decide (k = Z.to_nat ((highest w - seq) / 64))) as [->|Hne].
  - rewrite (bit_at_lookup _ _ b x Hx) by done.
    rewrite (bit_at_lookup _ _ b (Z.lor x (2 ^ ((highest w - seq) mod 64)))); [|apply list_lookup_insert_eq; destruct Hw as [-> _]; unfold windowWords; lia|done].
    rewrite Z.lor_spec, Z.pow2_bits_eqb by lia. rewrite orb_comm. f_equal.
    apply eq_true_iff_eq. rewrite Z.eqb_eq, bool_decide_eq_true. lia.
  - rewrite bool_decide_false by lia. destruct (bm_wf_lookup _ k Hw Hk) as (y & Hy & _).
    rewrite !(bit_at_lookup _ k b y); try done. by rewrite list_lookup_insert_ne.
Qed.

Lemma seen_ok {E} w seq : bm_wf (bitmap w) -> is_uint 64 (highest w) ->
  0 <= highest w - seq < windowSize ->
  @seen E w seq = Ok (bit_at (bitmap w) (highest w - seq)).
Proof.
  intros Hw Hh Ha. destruct (bitIndex_in w seq Ha Hh) as (Hi & H1 & H2).
  unfold seen. rewrite Hi. destruct (@index_bm E (bitmap w) _ Hw H1) as (x & -> & Hx & Hu).
  cbn. rewrite one_shift by done. unfold bit_at. rewrite Hx. f_equal.
  rewrite <- Z.shiftl_1_l. destruct (Z.testbit x _) eqn:Ht.
  - apply negb_true_iff, Z.eqb_neq. intros H0. apply (f_equal (fun z => Z.testbit z ((highest w - seq) mod 64))) in H0.
    rewrite Z.land_spec, Z.shiftl_1_l, Z.pow2_bits_true, Ht, Z.bits_0 in H0 by lia. done.
  - apply negb_false_iff, Z.eqb_eq. apply Z.bits_inj'. intros n Hn.
    rewrite Z.land_spec, Z.shiftl_1_l, Z.pow2_bits_eqb, Z.bits_0 by lia.
    destruct (Z.eqb_spec ((highest w - seq) mod 64) n) as [<-|]; [by rewrite Ht|by rewrite andb_false_r].
Qed.

(** ** Refinement *)
Lemma spec_fresh_iff A seq :
  spec_fresh A seq = true <-> (seq ∉ A) /\ forall x, x ∈ A -> x < seq + windowSize.
Proof. unfold spec_fresh. rewrite andb_true_iff, !bool_decide_eq_true. done. Qed.

Lemma spec_check_fresh A seq :
  ((seq ∉ A) /\ forall x, x ∈ A -> x < seq + windowSize) -> spec_check A seq = (true, {[seq]} ∪ A).
Proof. intros H%spec_fresh_iff. unfold spec_check. by rewrite H. Qed.

Lemma spec_check_stale A seq :
  (seq ∈ A \/ exists x, x ∈ A /\ seq + windowSize <= x) -> spec_check A seq = (false, A).
Proof.
  intros H. unfold spec_check. destruct (spec_fresh A seq) eqn:E; [|done].
  apply spec_fresh_iff in E as [E1 E2]. destruct H as [?|(x & Hx & Hge)]; [done|].
  apply E2 in Hx. lia.
Qed.

Lemma win_rel_new : win_rel newReplayWindow ∅.
Proof.
  split; try done. split; [done|]. apply Forall_replicate. by vm_compute.
Qed.

(** The state after an accepted number [seq], built from a bitmap [bm] whose
    bits are already aligned with the new highest number [h]. *)
Lemma win_rel_accept h seq bm bm' A :
  bm_wf bm' -> is_uint 64 h -> is_uint 64 seq -> seq <= h -> (h = seq \/ h ∈ A) ->
  (forall x, x ∈ A -> 0 <= x <= h) ->
  (forall age, 0 <= age < windowSize -> bit_at bm age = bool_decide (h - age ∈ A)) ->
  (forall age, 0 <= age < windowSize ->
     bit_at bm' age = bool_decide (age = h - seq) || bit_at bm age) ->
  win_rel (ReplayWindow h true bm') ({[seq]} ∪ A).
Proof.
  intros Hw Hh Hseq Hle Hin Hb Hbm Hbm'. split; cbn; try done.
  - set_solver.
  - intros x [->%elem_of_singleton|Hx]%elem_of_union; [unfold is_uint in *; lia|auto].
  - intros _ age Ha. rewrite Hbm', Hbm by done. apply eq_true_iff_eq.
    rewrite orb_true_iff, !bool_decide_eq_true, elem_of_union, elem_of_singleton.
    intuition lia.
Qed.

(** Forward simulation for one call. *)
Lemma check_sim {E} w A seq :
  win_rel w A -> is_uint 64 seq ->
  exists w', @check E w seq = Ok (fst (spec_check A seq), w') /\ win_rel w' (snd (spec_check A seq)).
Proof.
  intros Hrel Hseq. pose proof Hrel as [Hbm Hhi Hinit Htop Hbelow Hbits]. unfold check.
  destruct (started w) eqn:Hst; step_bind.
  2: { destruct (Hinit eq_refl) as [-> Hz].
    destruct (@mark_ok E (ReplayWindow seq true (bitmap w)) seq) as (bm' & -> & Hw' & Hb');
      cbn [highest started bitmap] in *; [done|done|unfold windowSize; lia|].
    rewrite spec_check_fresh by (split; [apply not_elem_of_empty|intros x []%not_elem_of_empty]).
    eexists. split; [done|].
    eapply (win_rel_accept seq seq (bitmap w)); try done; [by left|].
    intros age Ha. rewrite Hz, bit_at_zero. symmetry. apply bool_decide_false, not_elem_of_empty. }
  specialize (Htop eq_refl). specialize (Hbits eq_refl).
  case_decide as Hgt.
  - destruct (@slide_ok E w (seq - highest w) Hbm) as (bm1 & -> & Hw1 & Hb1); [lia|]. step_bind.
    cbn [started bitmap highest]. rewrite Hst.
    destruct (@mark_ok E (ReplayWindow seq true bm1) seq) as (bm' & -> & Hw' & Hb');
      cbn [highest started bitmap] in *; [done|done|unfold windowSize; lia|].
    rewrite spec_check_fresh.
    2: { split; [intros ?%Hbelow; lia|]. intros x ?%Hbelow. unfold windowSize. lia. }
    eexists. split; [done|].
    eapply (win_rel_accept seq seq bm1); try done; [by left| |].
    { intros x ?%Hbelow. unfold is_uint in *. lia. }
    intros age Ha. rewrite Hb1 by done. destruct (Z.leb_spec (seq - highest w) age); cbn.
    + rewrite Hbits by lia.
      by replace (highest w - (age - (seq - highest w))) with (seq - age) by lia.
    + symmetry. apply bool_decide_false. intros ?%Hbelow. lia.
  - case_decide as Heq.
    { subst seq. rewrite spec_check_stale by auto. by eexists. }
    rewrite wrap_small by (unfold is_uint in *; lia). case_decide as Hold.
    { rewrite spec_check_stale. 2: { right. exists (highest w). split; [done|lia]. }
      by eexists. }
    assert (Hage : 0 <= highest w - seq < windowSize) by lia.
    rewrite seen_ok by done. step_bind. rewrite Hbits by done.
    replace (highest w - (highest w - seq)) with seq by lia.
    case_bool_decide as Hin.
    { rewrite spec_check_stale by auto. by eexists. }
    destruct (@mark_ok E w seq Hbm Hhi Hage) as (bm' & -> & Hw' & Hb'). step_bind.
    rewrite spec_check_fresh.
    2: { split; [done|]. intros x ?%Hbelow. lia. }
    eexists. split; [done|]. rewrite Hst.
    eapply (win_rel_accept (highest w) seq (bitmap w)); try done; [lia|by right].
Qed.

(** C8: [check] implements its specification: from related states the bitmap
    accepts a number exactly when it was never accepted before and no accepted
    number is 1024 or more above it, it never indexes out of range, and the
    states stay related. *)
Theorem check_refines {E} w A seq :
  win_rel w A -> is_uint 64 seq ->
  exists w', @check E w seq = Ok (fst (spec_check A seq), w') /\ win_rel w' (snd (spec_check A seq)).
Proof. apply check_sim. Qed.

Lemma check_refines_witness : exists w',
  @check unit newReplayWindow 5 = Ok (fst (spec_check ∅ 5), w') /\ win_rel w' (snd (spec_check ∅ 5)).
Proof. apply (check_refines newReplayWindow ∅ 5); [apply win_rel_new|by vm_compute]. Defined.

(** ** Whole histories *)

(** Feed a list of numbers to a window and collect the accepted ones, in order. *)
Fixpoint check_all {E} (w : replayWindow) (seqs : list Z) : res E (list Z * replayWindow) :=
  match seqs with
  | [] => Ok ([], w)
  | s :: rest =>
      '(ok, w1) ← check w s;
      '(acc, w2) ← check_all w1 rest;
      Ok ((if ok : bool then s :: acc else acc), w2)
  end.

Lemma check_all_rel {E} seqs : forall w A, win_rel w A -> Forall (is_uint 64) seqs ->
  exists acc w', @check_all E w seqs = Ok (acc, w') /\ NoDup acc /\
    (forall x, x ∈ acc -> x ∉ A) /\ win_rel w' (A ∪ list_to_set acc).
Proof.
  induction seqs as [|s rest IH]; intros w A Hrel Hu; cbn [check_all].
  { exists [], w. split; [done|]. split; [constructor|]. split; [set_solver|].
    by replace (A ∪ list_to_set []) with A by set_solver. }
  apply Forall_cons_iff in Hu as [Hs Hu].
  destruct (@check_sim E w A s Hrel Hs) as (w1 & -> & Hrel1). step_bind.
  destruct (spec_check A s) as [ok A1] eqn:Hspec. cbn in *.
  destruct (IH w1 A1 Hrel1 Hu) as (acc & w2 & -> & Hnd & Hnew & Hrel2). step_bind.
  unfold spec_check in Hspec. destruct (spec_fresh A s) eqn:Hf; simplify_eq.
  - apply spec_fresh_iff in Hf as [Hf _]. exists (s :: acc), w2. split; [done|].
    split; [constructor; [|done]; intros ?%Hnew; set_solver|]. split; [set_solver|].
    replace (A ∪ list_to_set (s :: acc)) with ({[s]} ∪ A ∪ list_to_set acc) by set_solver. done.
  - exists acc, w2. done.
Qed.

(** Over any history of sequence numbers the window accepts each number at
    most once, and it never panics. *)
Theorem check_all_no_replay {E} seqs :
  Forall (is_uint 64) seqs ->
  exists acc w', @check_all E newReplayWindow seqs = Ok (acc, w') /\ NoDup acc.
Proof.
  intros Hu. destruct (@check_all_rel E seqs _ _ win_rel_new Hu) as (acc & w' & H1 & H2 & _).
  eauto.
Qed.

Lemma check_all_no_replay_witness : exists acc w',
  @check_all unit newReplayWindow [3; 1; 3; 2000; 1; 1999] = Ok (acc, w') /\ NoDup acc.
Proof. apply check_all_no_replay. repeat constructor; by vm_compute. Defined.
