(* ===== verification/Frame.v ===== *)
(** Session frames and chat payloads: [src/internal/proto/frame.go] and the
    header marshalling of [src/internal/proto/session.go]. *)
From Stdlib Require Import ZArith Lia.
From Stdlib Require Import Strings.Byte.
From stdpp Require Import base list numbers option.
From S2P Require Import Prelude Crypto.

(** Errors of package [proto].  [Malformed] reasons are the texts the code
    wraps around [ErrMalformed] and [ErrHandshake]. *)
Inductive malformed :=
| TooShort | TooLarge | BadVersion (b : byte) | BadType (b : byte)
| ChatTooShort | ChatTruncated.

Inductive hs_failure :=
| AlreadyComplete | BadMessageSize | UnexpectedType (b : byte) | AuthBeforeInit
| BadPeerEphemeral | KeyAgreementFailed | AuthOpenFailed
| BadInitMessage | BadInitLength | BadAuthMessage | BadAuthLength
| AuthPayloadTooShort | BadNameLength.

Inductive proto_err :=
| ErrMalformed (why : malformed)
| ErrAuth
| ErrReplay
| ErrBadSession
| ErrBadEpoch
| ErrSessionClosed
| ErrPayloadTooLarge (n : Z)
| ErrEmptyPairingKey
| ErrEmptyTranscript
| ErrPairConfirm
| ErrHandshake (why : hs_failure)
| ErrBadSignature
| ErrSelfConnection
| ErrNoPrivateKey
| ErrNotInitiator
| ErrCannotSign
| ErrEphemeralKey
| ErrCrypto (e : crypto_err).

Definition ProtocolVersion : byte := x01.

Definition TypeChat : byte := x01.
Definition TypePing : byte := x02.
Definition TypePong : byte := x03.
Definition TypeClose : byte := x04.
Definition TypePairConfirm : byte := x05.

Definition headerSize : Z := 22.
Definition MaxPlaintext : Z := 4096.
Definition maxFrame : Z := headerSize + MaxPlaintext + 64.

Record frame := Frame {
  typ : byte;
  session : Z;    (* uint64 *)
  sequence : Z;   (* uint64 *)
  rotation : Z;   (* uint32 *)
  blob : bytes    (* nonce || ciphertext || tag *)
}.

Definition marshalHeaderOnly (f : frame) : bytes :=
  [ProtocolVersion; typ f] ++ be_put 8 (session f) ++ be_put 8 (sequence f) ++ be_put 4 (rotation f).

Definition marshalFrame (f : frame) : bytes :=
  [ProtocolVersion; typ f] ++ be_put 8 (session f) ++ be_put 8 (sequence f) ++ be_put 4 (rotation f)
    ++ blob f.

Definition known_type (t : byte) : bool :=
  match t with x01 | x02 | x03 | x04 | x05 => true | _ => false end.

Definition parseFrame (buf : bytes) : res proto_err frame :=
  if decide (len buf < headerSize) then Err (ErrMalformed TooShort)
  else if decide (maxFrame < len buf) then Err (ErrMalformed TooLarge)
  else
    b0 ← index buf 0;
    if decide (b0 <> ProtocolVersion) then Err (ErrMalformed (BadVersion b0))
    else
      b1 ← index buf 1;
      if known_type b1 then
        s ← slice buf 2 10;
        q ← slice buf 10 18;
        r ← slice buf 18 22;
        b ← slice buf headerSize (len buf);
        Ok (Frame b1 (be_get s) (be_get q) (be_get r) b)
      else Err (ErrMalformed (BadType b1)).

(** [encodeChatPayload] truncates the length to 16 bits. *)
Definition encodeChatPayload (text : bytes) : bytes := be_put 2 (wrap 16 (len text)) ++ text.

Definition decodeChatPayload (b : bytes) : res proto_err bytes :=
  if decide (len b < 2) then Err (ErrMalformed ChatTooShort)
  else
    h ← slice b 0 2;
    let n := be_get h in
    if decide (len b - 2 < n) then Err (ErrMalformed ChatTruncated)
    else slice b 2 (2 + n).

Definition DecodeChat (plaintext : bytes) : res proto_err bytes := decodeChatPayload plaintext.

(** A frame whose fields fit their wire widths. *)
Record frame_wf (f : frame) : Prop := {
  fw_typ : known_type (typ f) = true;
  fw_session : is_uint 64 (session f);
  fw_sequence : is_uint 64 (sequence f);
  fw_rotation : is_uint 32 (rotation f);
  fw_blob : len (blob f) <= maxFrame - headerSize
}.

(** ** Lemmas *)
Lemma marshalHeaderOnly_len f : len (marshalHeaderOnly f) = headerSize.
Proof. unfold marshalHeaderOnly. rewrite !len_app, !len_be_put. done. Qed.

Lemma marshalFrame_header f : marshalFrame f = marshalHeaderOnly f ++ blob f.
Proof. unfold marshalFrame, marshalHeaderOnly. by rewrite <- !app_assoc. Qed.

Lemma marshalFrame_len f : len (marshalFrame f) = headerSize + len (blob f).
Proof. by rewrite marshalFrame_header, len_app, marshalHeaderOnly_len. Qed.

Lemma be_get_uint n w (bs : bytes) : len bs = n -> w = 8 * n -> is_uint w (be_get bs).
Proof. intros <- ->. apply be_get_range. Qed.

(** Any buffer of at least 22 bytes is a header's fields in a row. *)
Lemma header_split (buf : bytes) : headerSize <= len buf -> exists b0 b1 s q r b,
  buf = [b0; b1] ++ s ++ q ++ r ++ b /\ len s = 8 /\ len q = 8 /\ len r = 4 /\
  len b = len buf - 22.
Proof.
  unfold headerSize. intros H. destruct buf as [|b0 [|b1 rest]];
    rewrite ?len_cons, ?len_nil in H; try lia.
  exists b0, b1, (take 8 rest), (take 8 (drop 8 rest)), (take 4 (drop 16 rest)), (drop 20 rest).
  rewrite !len_cons. unfold len in *. rewrite !length_take, !length_drop.
  split; [|lia]. cbn [app]. do 2 f_equal.
  rewrite <- (take_drop 8 rest) at 1. f_equal.
  rewrite <- (take_drop 8 (drop 8 rest)) at 1. f_equal. rewrite drop_drop.
  rewrite <- (take_drop 4 (drop (8 + 8) rest)) at 1. f_equal. by rewrite drop_drop.
Qed.

(** Slices of a buffer already split into header fields. *)
Lemma header_slices {E} (b0 b1 : byte) (s q r b : bytes) :
  len s = 8 -> len q = 8 -> len r = 4 ->
  let buf := [b0; b1] ++ s ++ q ++ r ++ b in
  @index E _ buf 0 = Ok b0 /\ @index E _ buf 1 = Ok b1 /\
  @slice E _ buf 2 10 = Ok s /\ @slice E _ buf 10 18 = Ok q /\ @slice E _ buf 18 22 = Ok r /\
  @slice E _ buf headerSize (len buf) = Ok b.
Proof.
  intros Hs Hq Hr buf. subst buf. do 2 (split; [done|]).
  split. { apply slice_app_mid; [done|]. by rewrite Hs. }
  split. { rewrite app_assoc. apply slice_app_mid; rewrite ?len_app, Hs, ?Hq; done. }
  split. { rewrite (app_assoc s), app_assoc. apply slice_app_mid; rewrite ?len_app, Hs, Hq, ?Hr; done. }
  rewrite (app_assoc q), (app_assoc s), app_assoc.
  apply slice_app_tail; rewrite !len_app, Hs, Hq, Hr; done.
Qed.

Lemma parseFrame_no_panic buf : parseFrame buf <> Panic.
Proof.
  unfold parseFrame. destruct (decide (len buf < headerSize)); [done|].
  destruct (decide (maxFrame < len buf)); [done|].
  destruct (header_split buf) as (b0 & b1 & s & q & r & b & Hb & Hs & Hq & Hr & _); [lia|].
  subst buf. destruct (@header_slices proto_err b0 b1 s q r b Hs Hq Hr) as (-> & -> & -> & -> & -> & ->).
  step_bind. case_decide; [done|]. by destruct (known_type b1).
Qed.

Lemma parse_iff_aux buf f :
  parseFrame buf = Ok f <-> frame_wf f /\ buf = marshalFrame f.
Proof.
  split.
  - unfold parseFrame. destruct (decide (len buf < headerSize)); [done|].
    destruct (decide (maxFrame < len buf)); [done|].
    destruct (header_split buf) as (b0 & b1 & s & q & r & b & Hb & Hs & Hq & Hr & Hbl); [lia|].
    subst buf. destruct (@header_slices proto_err b0 b1 s q r b Hs Hq Hr) as (-> & -> & -> & -> & -> & ->).
    step_bind. case_decide as Hv; [done|]. subst b0.
    destruct (known_type b1) eqn:Hk; [|done]. intros [= <-]. split.
    + split; cbn; [done|by eapply be_get_uint| by eapply be_get_uint |by eapply be_get_uint|].
      unfold maxFrame, headerSize, MaxPlaintext in *. lia.
    + unfold marshalFrame; cbn. do 2 f_equal.
      rewrite <- (be_put_get s) at 1. rewrite <- (be_put_get q) at 1. rewrite <- (be_put_get r) at 1.
      unfold len in *. by replace (length s) with 8%nat by lia; replace (length q) with 8%nat by lia;
        replace (length r) with 4%nat by lia.
  - intros [[Ht Hs Hq Hr Hb] ->]. unfold parseFrame. rewrite marshalFrame_len.
    pose proof (len_nonneg (blob f)).
    rewrite !decide_False by (unfold maxFrame, headerSize, MaxPlaintext in *; lia).
    unfold marshalFrame.
    destruct (@header_slices proto_err ProtocolVersion (typ f) (be_put 8 (session f)) (be_put 8 (sequence f))
      (be_put 4 (rotation f)) (blob f)) as (-> & -> & -> & -> & -> & Hl); rewrite ?len_be_put; try done.
    assert (Hlen : headerSize + len (blob f) = len ([ProtocolVersion; typ f] ++ be_put 8 (session f) ++
      be_put 8 (sequence f) ++ be_put 4 (rotation f) ++ blob f)) by (symmetry; apply (marshalFrame_len f)).
    rewrite Hlen, Hl. step_bind. rewrite decide_False by (intros []; done). rewrite Ht.
    rewrite !be_get_put_small by done. by destruct f.
Qed.

(** The frame parser accepts exactly the marshalled well-formed frames
    (known type, fields in their widths, at most 4160 bytes of blob), so parsing
    and marshalling are inverse of each other in both directions. *)
Theorem parseFrame_iff buf f :
  parseFrame buf = Ok f <-> frame_wf f /\ buf = marshalFrame f.
Proof. apply parse_iff_aux. Qed.

Lemma decodeChat_encode_aux text :
  len text < 2 ^ 16 -> decodeChatPayload (encodeChatPayload text) = Ok text.
Proof.
  intros Hl. pose proof (len_nonneg text). unfold decodeChatPayload, encodeChatPayload.
  rewrite wrap_small by done. rewrite len_app, len_be_put.
  rewrite decide_False by lia. rewrite slice_app_head by (by rewrite len_be_put). step_bind.
  rewrite be_get_put_small by (cbn; lia). rewrite decide_False by lia.
  apply slice_app_tail; by rewrite len_be_put.
Qed.

(** The parsers that run on bytes from the network never index or slice
    out of range, whatever the input. *)
Theorem frame_parsers_never_panic buf :
  parseFrame buf <> Panic /\ decodeChatPayload buf <> Panic.
Proof.
  split; [apply parseFrame_no_panic|]. unfold decodeChatPayload.
  destruct (decide (len buf < 2)); [done|].
  rewrite slice_in by lia. step_bind. case_decide; [done|]. apply slice_no_panic.
  - set (h := take _ _). pose proof (be_get_range h). lia.
  - lia.
Qed.
