(* ===== verification/Session.v ===== *)
(** Established sessions: [src/internal/proto/session.go] and
    [src/internal/proto/chatframe.go].

    A session is the record of the Go struct; [Seal] and [Open] take it and
    return the state they leave behind together with their outcome, because a
    failing call can leave a changed state. *)
From Stdlib Require Import ZArith Lia.
From Stdlib Require Import Strings.Byte.
From stdpp Require Import base list gmap strings numbers option.
From S2P Require Import Prelude Crypto Replay Frame.

Definition infoRoot : bytes := str "heimdall v1 root".
Definition infoHS2 : bytes := str "heimdall v1 hs2".
Definition infoHS3 : bytes := str "heimdall v1 hs3".
Definition infoSendAB : bytes := str "heimdall v1 send A-to-B".
Definition infoSendBA : bytes := str "heimdall v1 send B-to-A".
Definition infoMsg : bytes := str "heimdall v1 msg".
Definition infoRotate : bytes := str "heimdall v1 rotate".
Definition infoSession : bytes := str "heimdall v1 session id".
Definition infoPairConfirm : bytes := str "heimdall v1 pairing confirm".

Definition rotationInterval : Z := 1000.

Record chain := Chain { key : bytes }.

Record Session := mkSession {
  SessionID : Z;            (* uint64 *)
  send : option chain;      (* nil pointers are None *)
  recv : option chain;
  recvOld : option chain;
  epoch : Z;                (* uint32 *)
  sendSeq : Z;              (* uint64 *)
  recvWin : replayWindow;
  closed : bool;
  initiator : bool;
  root : bytes              (* nil is [] *)
}.

Definition zero_chain (c : chain) : chain := Chain (Zeroise (key c)).

Definition deref {E A} (p : option A) : res E A :=
  match p with Some a => Ok a | None => Panic end.

(** [itoa] writes digits downwards into a 10-byte buffer: [room] slots are
    left, and writing below slot 0 panics. *)
Fixpoint itoa_loop {E} (room : nat) (v : Z) (acc : bytes) : res E bytes :=
  if decide (0 < v) then
    match room with
    | O => Panic
    | S i => itoa_loop i (v / 10) (to_byte (48 + v mod 10) :: acc)
    end
  else Ok acc.

Definition itoa {E} (v : Z) : res E bytes :=
  if decide (v = 0) then Ok (str "0") else itoa_loop 10 v [].

Section operations.
Context `{CryptoOps}.

Definition derive (secret salt info : bytes) (n : Z) : res proto_err bytes :=
  map_err ErrCrypto (DeriveKey secret salt info n).

Definition messageKey (c : chain) (seq : Z) : res proto_err bytes :=
  derive (key c) (be_put 8 seq) infoMsg KeySize.

Definition epochSeed (s : Session) (e : Z) : res proto_err bytes :=
  n ← itoa e;
  derive (root s) [] (infoRotate ++ str " " ++ n) KeySize.

(** On an error the session is left as it was.  The previous receive chain is
    kept; the other chains that go out of use are zeroised, and are not
    reachable from the new state. *)
Definition installEpochLocked (s : Session) (e : Z) : res proto_err Session :=
  seed ← epochSeed s e;
  ab ← derive seed [] infoSendAB KeySize;
  ba ← derive seed [] infoSendBA KeySize;
  let old := match recv s with Some c => Some c | None => zero_chain <$> recvOld s end in
  let '(snd, rcv) := if initiator s then (ab, ba) else (ba, ab) in
  Ok (mkSession (SessionID s) (Some (Chain snd)) (Some (Chain rcv)) old e
        (sendSeq s) (recvWin s) (closed s) (initiator s) (root s)).

Definition newSession (shared transcript : bytes) (ini : bool) : res proto_err Session :=
  rt ← derive shared transcript infoRoot KeySize;
  sidBytes ← derive rt [] infoSession 8;
  installEpochLocked
    (mkSession (be_get sidBytes) None None None 0 0 newReplayWindow false ini rt) 0.

Definition set_sendSeq (s : Session) (n : Z) : Session :=
  mkSession (SessionID s) (send s) (recv s) (recvOld s) (epoch s) n
    (recvWin s) (closed s) (initiator s) (root s).

Definition set_recvWin (s : Session) (w : replayWindow) : Session :=
  mkSession (SessionID s) (send s) (recv s) (recvOld s) (epoch s) (sendSeq s)
    w (closed s) (initiator s) (root s).

Definition Seal (s : Session) (t : byte) (plaintext rng : bytes) : Session * res proto_err bytes :=
  if closed s then (s, Err ErrSessionClosed)
  else if decide (MaxPlaintext < len plaintext) then (s, Err (ErrPayloadTooLarge (len plaintext)))
  else
    let rotated :=
      if decide (0 < sendSeq s /\ sendSeq s mod rotationInterval = 0)
      then installEpochLocked s (wrap 32 (epoch s + 1)) else Ok s in
    match rotated with
    | Err e => (s, Err e)
    | Panic => (s, Panic)
    | Ok s1 =>
        let hdr := marshalHeaderOnly (Frame t (SessionID s1) (sendSeq s1) (epoch s1) []) in
        let sealed :=
          c ← deref (send s1);
          msgKey ← messageKey c (sendSeq s1);
          map_err ErrCrypto (Crypto.Seal msgKey hdr plaintext rng) in
        match sealed with
        | Err e => (s1, Err e)
        | Panic => (s1, Panic)
        | Ok b => (set_sendSeq s1 (wrap 64 (sendSeq s1 + 1)),
                   Ok (marshalFrame (Frame t (SessionID s1) (sendSeq s1) (epoch s1) b)))
        end
    end.

Definition chainForEpochLocked (s : Session) (e : Z) : Session * res proto_err (option chain) :=
  if decide (e = epoch s) then (s, Ok (recv s))
  else if decide (e = wrap 32 (epoch s + 1)) then
    match installEpochLocked s e with
    | Ok s' => (s', Ok (recv s'))
    | Err err => (s, Err err)
    | Panic => (s, Panic)
    end
  else if decide (wrap 32 (e + 1) = epoch s /\ is_Some (recvOld s)) then (s, Ok (recvOld s))
  else (s, Err ErrBadEpoch).

(** The part of [Open] between the choice of the chain and the replay window. *)
Definition openBlob (c : option chain) (f : frame) : res proto_err bytes :=
  ch ← deref c;
  msgKey ← messageKey ch (sequence f);
  map_err (fun _ => ErrAuth) (Crypto.Open msgKey (marshalHeaderOnly f) (blob f)).

Definition Open (s : Session) (buf : bytes) : Session * res proto_err (byte * bytes) :=
  if closed s then (s, Err ErrSessionClosed)
  else match parseFrame buf with
  | Err e => (s, Err e)
  | Panic => (s, Panic)
  | Ok f =>
    if decide (session f <> SessionID s) then (s, Err ErrBadSession)
    else
      let '(s1, rc) := chainForEpochLocked s (rotation f) in
      match (c ← rc; openBlob c f) with
      | Err e => (s1, Err e)
      | Panic => (s1, Panic)
      | Ok pt =>
        match check (recvWin s1) (sequence f) with
        | Err e => (s1, Err e)
        | Panic => (s1, Panic)
        | Ok (true, w) => (set_recvWin s1 w, Ok (typ f, pt))
        | Ok (false, w) => (set_recvWin s1 w, Err ErrReplay)
        end
      end
  end.

(** [Close] zeroises the keys in place and forgets the root. *)
Definition Close (s : Session) : Session :=
  mkSession (SessionID s) (zero_chain <$> send s) (zero_chain <$> recv s)
    (zero_chain <$> recvOld s) (epoch s) (sendSeq s) (recvWin s) true (initiator s) [].

Definition Closed (s : Session) : bool := closed s.

Definition SealChat (s : Session) (text rng : bytes) : Session * res proto_err bytes :=
  Seal s TypeChat (encodeChatPayload text) rng.
End operations.

Definition transcriptHash (sha256 : bytes -> bytes) (parts : list bytes) : bytes :=
  sha256 (concat parts).

(** ** Epoch labels *)
Definition dec_val (ds : bytes) : Z :=
  fold_left (fun a b => a * 10 + (byte_val b - 48)) ds 0.

Lemma dec_val_snoc ds b : dec_val (ds ++ [b]) = dec_val ds * 10 + (byte_val b - 48).
Proof. unfold dec_val. by rewrite fold_left_app. Qed.

Lemma itoa_loop_ok {E} room : forall v acc, 0 <= v < 10 ^ Z.of_nat room ->
  exists ds, @itoa_loop E room v acc = Ok (ds ++ acc) /\ dec_val ds = v.
Proof.
  induction room as [|room IH]; intros v acc Hv.
  - assert (v = 0) as -> by (cbn in Hv; lia). exists []. done.
  - cbn [itoa_loop]. case_decide; [|exists []; split; [done|cbn; lia]].
    rewrite Nat2Z.inj_succ, Z.pow_succ_r in Hv by lia.
    pose proof (Z.mod_pos_bound v 10). pose proof (Z.div_mod v 10).
    destruct (IH (v / 10) (to_byte (48 + v mod 10) :: acc)) as (ds & -> & Hds).
    { split; [apply Z.div_pos; lia|]. apply Z.div_lt_upper_bound; lia. }
    exists (ds ++ [to_byte (48 + v mod 10)]). split; [by rewrite <- app_assoc|].
    rewrite dec_val_snoc, Hds, byte_val_to_byte, (Z.mod_small (48 + _)) by lia. lia.
Qed.

Lemma itoa_spec {E} v : is_uint 32 v -> exists ds, @itoa E v = Ok ds /\ dec_val ds = v.
Proof.
  intros Hv. unfold itoa. case_decide as H0; [by subst; eexists|].
  destruct (@itoa_loop_ok E 10 v []) as (ds & Hds & ?).
  { unfold is_uint in Hv. cbn in *. lia. }
  exists ds. by rewrite Hds, app_nil_r.
Qed.

(** The digit loop of [itoa] stays inside its 10-byte buffer for every
    uint32 and distinct epochs are rendered differently, so every epoch gets an
    HKDF label of its own. *)
Theorem itoa_injective u v :
  is_uint 32 u -> is_uint 32 v ->
  exists du dv, @itoa proto_err u = Ok du /\ @itoa proto_err v = Ok dv /\ (du = dv -> u = v).
Proof.
  intros Hu Hv. destruct (@itoa_spec proto_err u Hu) as (du & -> & Hdu).
  destruct (@itoa_spec proto_err v Hv) as (dv & -> & Hdv).
  exists du, dv. split; [done|]. split; [done|]. intros ->. congruence.
Qed.

Lemma itoa_injective_witness : exists du dv,
  @itoa proto_err 7 = Ok du /\ @itoa proto_err 4294967295 = Ok dv /\ (du = dv -> 7 = 4294967295).
Proof. apply itoa_injective; by vm_compute. Defined.

(** ** Key schedule

    The chain of an epoch is a function of the session root, the epoch and the
    direction alone. *)
Section key_schedule.
Context `{CryptoLaws}.

Definition chain_of (R : bytes) (e : Z) (ab : bool) : res proto_err bytes :=
  n ← itoa e;
  seed ← derive R [] (infoRotate ++ str " " ++ n) KeySize;
  derive seed [] (if ab then infoSendAB else infoSendBA) KeySize.

Lemma derive_ok secret salt info n : len secret <> 0 -> 0 <= n <= 255 * 32 ->
  exists k, derive secret salt info n = Ok k /\ len k = n.
Proof.
  intros Hs Hn. unfold derive. destruct (DeriveKey_ok secret salt info n Hs Hn) as (k & -> & ?).
  eauto.
Qed.

Lemma derive_key secret salt info : len secret = KeySize ->
  exists k, derive secret salt info KeySize = Ok k /\ len k = KeySize.
Proof. intros Hs. apply derive_ok; rewrite ?Hs; done. Qed.

Lemma messageKey_ok k seq : len k = KeySize ->
  exists mk, messageKey (Chain k) seq = Ok mk /\ len mk = KeySize.
Proof. apply derive_key. Qed.

(** Installing an epoch installs both directions of the schedule. *)
Lemma install_schedule s e : len (root s) = KeySize -> is_uint 32 e ->
  exists ks kr, chain_of (root s) e (initiator s) = Ok ks /\ len ks = KeySize /\
    chain_of (root s) e (negb (initiator s)) = Ok kr /\ len kr = KeySize /\
    installEpochLocked s e =
      Ok (mkSession (SessionID s) (Some (Chain ks)) (Some (Chain kr))
            (match recv s with Some c => Some c | None => zero_chain <$> recvOld s end) e
            (sendSeq s) (recvWin s) (closed s) (initiator s) (root s)).
Proof.
  intros Hr He. unfold installEpochLocked, epochSeed, chain_of.
  destruct (@itoa_spec proto_err e He) as (n & -> & _). step_bind.
  destruct (derive_key (root s) [] (infoRotate ++ str " " ++ n) Hr) as (seed & -> & Hs).
  step_bind.
  destruct (derive_key seed [] infoSendAB Hs) as (ab & Hab & Hla).
  destruct (derive_key seed [] infoSendBA Hs) as (ba & Hba & Hlb).
  destruct (initiator s); cbn [negb]; rewrite Hab, Hba; step_bind;
    [exists ab, ba|exists ba, ab]; done.
Qed.
End key_schedule.

(** ** The session invariant *)
Definition prev_epoch (e : Z) : Z := wrap 32 (e - 1).
Definition next_epoch (e : Z) : Z := wrap 32 (e + 1).

Lemma prev_next_epoch e : is_uint 32 e -> prev_epoch (next_epoch e) = e.
Proof.
  intros He. unfold prev_epoch, next_epoch, wrap.
  rewrite Zminus_mod_idemp_l. replace (e + 1 - 1) with e by lia. by apply Z.mod_small.
Qed.

Lemma next_prev_epoch e : is_uint 32 e -> next_epoch (prev_epoch e) = e.
Proof.
  intros He. unfold prev_epoch, next_epoch, wrap.
  rewrite Zplus_mod_idemp_l. replace (e - 1 + 1) with e by lia. by apply Z.mod_small.
Qed.

Lemma next_epoch_uint e : is_uint 32 (next_epoch e).
Proof. by apply wrap_range. Qed.

Section invariant.
Context `{CryptoLaws}.

(** A live session with root [R] that has accepted the sequence numbers [A]:
    its chains are the schedule's chains for its epoch, the previous epoch's
    receive chain is kept from the first rotation on, and its replay window
    represents [A]. *)
Record session_inv (s : Session) (R : bytes) (A : gset Z) : Prop := {
  si_open : closed s = false;
  si_root : root s = R;
  si_rootlen : len R = KeySize;
  si_sid : is_uint 64 (SessionID s);
  si_epoch : is_uint 32 (epoch s);
  si_seq : is_uint 64 (sendSeq s);
  si_send : exists k, chain_of R (epoch s) (initiator s) = Ok k /\ len k = KeySize /\
    send s = Some (Chain k);
  si_recv : exists k, chain_of R (epoch s) (negb (initiator s)) = Ok k /\ len k = KeySize /\
    recv s = Some (Chain k);
  si_old : (epoch s = 0 /\ recvOld s = None) \/
    exists k, chain_of R (prev_epoch (epoch s)) (negb (initiator s)) = Ok k /\
      len k = KeySize /\ recvOld s = Some (Chain k);
  si_win : win_rel (recvWin s) A
}.

(** What neither rotation nor a rejected frame changes. *)
Record same_core (s s' : Session) : Prop := {
  sc_sid : SessionID s' = SessionID s;
  sc_ini : initiator s' = initiator s;
  sc_seq : sendSeq s' = sendSeq s;
  sc_win : recvWin s' = recvWin s
}.

Lemma same_core_refl s : same_core s s.
Proof. done. Qed.

Lemma install_inv s R A : session_inv s R A ->
  exists s', installEpochLocked s (next_epoch (epoch s)) = Ok s' /\
    session_inv s' R A /\ same_core s s' /\ epoch s' = next_epoch (epoch s).
Proof.
  intros [Ho Hr Hrl Hsid He Hq Hs Hv Hold Hw].
  destruct (install_schedule s (next_epoch (epoch s))) as (ks & kr & H1 & H2 & H3 & H4 & ->).
  { by rewrite Hr. } { apply next_epoch_uint. }
  rewrite Hr in *. eexists. split; [done|].
  destruct Hv as (k & Hk & Hkl & Hrecv). split; [|done].
  split; cbn; try done; [apply next_epoch_uint|eauto|eauto|].
  right. exists k. rewrite Hrecv, prev_next_epoch by done. done.
Qed.

Lemma newSession_inv shared transcript ini : len shared <> 0 ->
  exists s R, derive shared transcript infoRoot KeySize = Ok R /\
    newSession shared transcript ini = Ok s /\ session_inv s R ∅ /\
    initiator s = ini /\ epoch s = 0 /\ sendSeq s = 0 /\
    exists sid, derive R [] infoSession 8 = Ok sid /\ SessionID s = be_get sid.
Proof.
  intros Hs. unfold newSession.
  destruct (derive_ok shared transcript infoRoot KeySize Hs) as (R & HR & HRl); [done|].
  rewrite HR. step_bind.
  destruct (derive_ok R [] infoSession 8) as (sid & Hsid & Hsl); [by rewrite HRl|done|].
  rewrite Hsid. step_bind.
  edestruct install_schedule as (ks & kr & H1 & H2 & H3 & H4 & ->); [..|cbn in *];
    [done|by vm_compute|].
  do 2 eexists. split; [done|]. split; [done|]. split; [|eauto 10].
  split; cbn; try done; eauto using win_rel_new.
  eapply be_get_uint; done.
Qed.

(** ** Sealing *)
Definition seal_epoch (s : Session) : Z :=
  if decide (0 < sendSeq s /\ sendSeq s mod rotationInterval = 0)
  then next_epoch (epoch s) else epoch s.

Lemma seal_spec s R A t pt rng :
  session_inv s R A -> len pt <= MaxPlaintext -> NonceSize <= len rng ->
  exists s' f k mk, Seal s t pt rng = (s', Ok (marshalFrame f)) /\
    session_inv s' R A /\ SessionID s' = SessionID s /\ initiator s' = initiator s /\
    recvWin s' = recvWin s /\ epoch s' = seal_epoch s /\ sendSeq s' = wrap 64 (sendSeq s + 1) /\
    typ f = t /\ session f = SessionID s /\ sequence f = sendSeq s /\ rotation f = seal_epoch s /\
    len (blob f) = len pt + 28 /\
    chain_of R (seal_epoch s) (initiator s) = Ok k /\ messageKey (Chain k) (sendSeq s) = Ok mk /\
    Crypto.Open mk (marshalHeaderOnly f) (blob f) = Ok pt /\
    (known_type t = true -> parseFrame (marshalFrame f) = Ok f).
Proof.
  intros Hinv Hpt Hrng. unfold Seal. rewrite (si_open _ _ _ Hinv).
  rewrite decide_False by lia.
  set (rotated := if decide _ then _ else _).
  assert (exists s1, rotated = Ok s1 /\ session_inv s1 R A /\ same_core s s1 /\
    epoch s1 = seal_epoch s) as (s1 & -> & Hinv1 & [C1 C2 C3 C4] & He).
  { subst rotated. unfold seal_epoch. case_decide; [by apply install_inv|].
    exists s. done. }
  destruct (si_send _ _ _ Hinv1) as (k & Hk & Hkl & ->). cbn [deref]. step_bind.
  destruct (messageKey_ok k (sendSeq s1) Hkl) as (mk & Hmk & Hmkl). rewrite Hmk. step_bind.
  set (hdr := marshalHeaderOnly _).
  destruct (Seal_ok mk hdr pt rng Hmkl Hrng) as (nonce & Hseal & Hn). rewrite Hseal. step_bind.
  eexists _, _, k, mk. split; [done|]. rewrite <- He, <- C1, <- C2, <- C3, <- C4. cbn.
  split. { destruct Hinv1. split; cbn; try done. by apply wrap_range. }
  do 9 (split; [done|]). pose proof (Seal_len _ _ _ _ _ Hseal) as Hlen. split; [done|].
  split; [done|]. split; [done|]. split; [by eapply Open_Seal|].
  intros Ht. apply parse_iff_aux. split; [|done]. destruct Hinv1.
  split; cbn [typ session sequence rotation blob]; try done.
  apply Z.le_trans with (len pt + 28); [by apply Z.eq_le_incl|].
  unfold maxFrame, headerSize, MaxPlaintext in *. lia.
Qed.

Lemma Seal_ok_inv s t pt rng s' buf : closed s = false -> Seal s t pt rng = (s', Ok buf) ->
  len pt <= MaxPlaintext /\ NonceSize <= len rng.
Proof.
  intros Ho. unfold Seal. rewrite Ho. case_decide; [done|]. intros Hs. split; [lia|].
  destruct (decide (NonceSize <= len rng)); [done|]. exfalso. revert Hs.
  assert (Hn : forall k h, is_ok (Crypto.Seal k h pt rng) = false).
  { intros k h. unfold Crypto.Seal, RandomBytes, aead. repeat case_decide; done || lia. }
  destruct (if decide _ then _ else _) as [s0| |]; try done.
  destruct (deref _) as [c| |]; step_bind; try done.
  destruct (messageKey _ _) as [mk| |]; step_bind; try done.
  match goal with |- context [Crypto.Seal ?k ?h pt rng] => specialize (Hn k h);
    destruct (Crypto.Seal k h pt rng) end; done.
Qed.
End invariant.
