(* ===== verification/SessionProps.v ===== *)
(** Theorems about sessions: what [Open] accepts, what it leaves behind, and
    whole conversations between the two ends of a session. *)
From Stdlib Require Import ZArith Lia.
From Stdlib Require Import Strings.Byte.
From stdpp Require Import base list gmap strings numbers option.
From S2P Require Import Prelude Crypto Replay Frame Session.

Section opening.
Context `{CryptoLaws}.

(** Epochs a live session has a receive chain for. *)
Definition acceptable (s : Session) (e : Z) : Prop :=
  e = epoch s \/ e = next_epoch (epoch s) \/ (next_epoch e = epoch s /\ is_Some (recvOld s)).

#[global] Instance acceptable_dec s e : Decision (acceptable s e).
Proof. unfold acceptable. apply _. Defined.

(** Epoch of the session once a frame of epoch [e] has been looked at. *)
Definition rolled (s : Session) (e : Z) : Z :=
  if decide (e = epoch s) then epoch s
  else if decide (e = next_epoch (epoch s)) then e else epoch s.

Lemma chainForEpoch_accept s R A e :
  session_inv s R A -> is_uint 32 e -> acceptable s e ->
  exists s1 k, chainForEpochLocked s e = (s1, Ok (Some (Chain k))) /\
    chain_of R e (negb (initiator s)) = Ok k /\ len k = KeySize /\
    session_inv s1 R A /\ same_core s s1 /\ epoch s1 = rolled s e.
Proof.
  intros Hinv He Hacc. unfold chainForEpochLocked, rolled.
  case_decide as H1.
  { destruct (si_recv _ _ _ Hinv) as (k & Hk & Hkl & ->). exists s, k. subst e. done. }
  unfold next_epoch in *. case_decide as H2.
  { destruct (install_inv s R A Hinv) as (s1 & Hi & Hinv1 & Hc & He1).
    unfold next_epoch in *. rewrite H2, Hi. destruct (si_recv _ _ _ Hinv1) as (k & Hk & Hkl & ->).
    exists s1, k. rewrite <- He1, <- (sc_ini _ _ Hc). done. }
  destruct Hacc as [?|[?|Hold]]; [done|done|]. rewrite decide_True by done.
  destruct Hold as [Hn Hs]. destruct (si_old _ _ _ Hinv) as [[_ Hnone]|(k & Hk & Hkl & Hold)].
  { rewrite Hnone in Hs. by destruct Hs. }
  exists s, k. rewrite Hold. split; [done|]. split; [|done].
  rewrite <- Hk. f_equal. rewrite <- Hn. symmetry. by apply (prev_next_epoch e).
Qed.

Lemma chainForEpoch_reject s e :
  ~ acceptable s e -> chainForEpochLocked s e = (s, Err ErrBadEpoch).
Proof.
  unfold acceptable, chainForEpochLocked, next_epoch. intros Hn.
  do 3 (rewrite decide_False by tauto). done.
Qed.

(** The blob of a frame verifies under the key its header calls for. *)
Definition authentic (R : bytes) (ab : bool) (f : frame) (pt : bytes) : Prop :=
  exists k mk, chain_of R (rotation f) ab = Ok k /\ messageKey (Chain k) (sequence f) = Ok mk /\
    Crypto.Open mk (marshalHeaderOnly f) (blob f) = Ok pt.

Lemma openBlob_ok k f pt : len k = KeySize ->
  (openBlob (Some (Chain k)) f = Ok pt <->
   exists mk, messageKey (Chain k) (sequence f) = Ok mk /\
     Crypto.Open mk (marshalHeaderOnly f) (blob f) = Ok pt).
Proof.
  intros Hk. unfold openBlob. cbn [deref]. step_bind.
  destruct (messageKey_ok k (sequence f) Hk) as (mk & -> & _). step_bind. split.
  - intros ?%map_err_ok_inv. eauto.
  - intros (? & [= <-] & ->). done.
Qed.

Lemma openBlob_fail k f : len k = KeySize ->
  (exists pt, openBlob (Some (Chain k)) f = Ok pt) \/ openBlob (Some (Chain k)) f = Err ErrAuth.
Proof.
  intros Hk. unfold openBlob. cbn [deref]. step_bind.
  destruct (messageKey_ok k (sequence f) Hk) as (mk & -> & _). step_bind.
  pose proof (Open_no_panic mk (marshalHeaderOnly f) (blob f)).
  destruct (Crypto.Open _ _ _); cbn; eauto. done.
Qed.

(** Every outcome of [Open] on a live session, with the state it leaves. *)
Inductive open_outcome (s : Session) (R : bytes) (A : gset Z) (buf : bytes) :
  Session -> gset Z -> res proto_err (byte * bytes) -> Prop :=
| oo_malformed e : parseFrame buf = Err e ->
    open_outcome s R A buf s A (Err e)
| oo_session f : parseFrame buf = Ok f -> session f <> SessionID s ->
    open_outcome s R A buf s A (Err ErrBadSession)
| oo_epoch f : parseFrame buf = Ok f -> session f = SessionID s -> ~ acceptable s (rotation f) ->
    open_outcome s R A buf s A (Err ErrBadEpoch)
| oo_auth f s' : parseFrame buf = Ok f -> session f = SessionID s -> acceptable s (rotation f) ->
    (forall pt, ~ authentic R (negb (initiator s)) f pt) -> epoch s' = rolled s (rotation f) ->
    open_outcome s R A buf s' A (Err ErrAuth)
| oo_replay f pt s' : parseFrame buf = Ok f -> session f = SessionID s -> acceptable s (rotation f) ->
    authentic R (negb (initiator s)) f pt -> spec_fresh A (sequence f) = false ->
    epoch s' = rolled s (rotation f) ->
    open_outcome s R A buf s' A (Err ErrReplay)
| oo_accept f pt s' : parseFrame buf = Ok f -> session f = SessionID s -> acceptable s (rotation f) ->
    authentic R (negb (initiator s)) f pt -> spec_fresh A (sequence f) = true ->
    epoch s' = rolled s (rotation f) ->
    open_outcome s R A buf s' ({[sequence f]} ∪ A) (Ok (typ f, pt)).

Lemma open_cases s R A buf : session_inv s R A ->
  exists s' A' r, Open s buf = (s', r) /\ open_outcome s R A buf s' A' r /\
    session_inv s' R A' /\ SessionID s' = SessionID s /\ initiator s' = initiator s /\
    sendSeq s' = sendSeq s.
Proof.
  intros Hinv. unfold Open. rewrite (si_open _ _ _ Hinv).
  pose proof (parseFrame_no_panic buf) as Hnp.
  destruct (parseFrame buf) as [f|e|] eqn:Hp; [| |done].
  2: { exists s, A, (Err e). split; [done|]. split; [by constructor|done]. }
  pose proof Hp as Hp'. apply parse_iff_aux in Hp' as [Hwf _].
  case_decide as Hsid.
  { exists s, A, (Err ErrBadSession). split; [done|]. split; [by econstructor|done]. }
  destruct (decide (acceptable s (rotation f))) as [Hacc|Hacc].
  2: { rewrite chainForEpoch_reject by done. step_bind. exists s, A, (Err ErrBadEpoch).
       split; [done|]. split; [by eapply oo_epoch|done]. }
  destruct (chainForEpoch_accept s R A (rotation f) Hinv (fw_rotation _ Hwf) Hacc)
    as (s1 & k & -> & Hk & Hkl & Hinv1 & [C1 C2 C3 C4] & Hep). step_bind.
  destruct (openBlob_fail k f Hkl) as [(pt & Ho)|Ho]; rewrite Ho.
  2: { exists s1, A, (Err ErrAuth). split; [done|]. split; [|done].
       eapply oo_auth; try done. intros pt (k' & mk & Hk' & Hmk & Hop).
       assert (k' = k) as -> by congruence.
       assert (openBlob (Some (Chain k)) f = Ok pt) by (apply openBlob_ok; eauto). congruence. }
  assert (Hau : authentic R (negb (initiator s)) f pt).
  { apply openBlob_ok in Ho as (mk & Hmk & Hop); [|done]. exists k, mk. done. }
  destruct (@check_sim proto_err (recvWin s1) A (sequence f)) as (w' & -> & Hrel);
    [apply Hinv1|apply Hwf|].
  unfold spec_check in *. destruct (spec_fresh A (sequence f)) eqn:Hf; cbn [fst snd] in *.
  - exists (set_recvWin s1 w'), ({[sequence f]} ∪ A), (Ok (typ f, pt)). split; [done|].
    split; [by eapply oo_accept|]. destruct Hinv1. done.
  - exists (set_recvWin s1 w'), A, (Err ErrReplay). split; [done|].
    split; [by eapply oo_replay|]. destruct Hinv1. done.
Qed.
End opening.

Ltac open_inv Hinv buf :=
  let s' := fresh "s1" in let A' := fresh "A1" in let r := fresh "r" in
  destruct (open_cases _ _ _ buf Hinv) as (s' & A' & r & ? & ? & ? & ? & ? & ?).

(** ** What is accepted *)
Section acceptance.
Context `{CryptoLaws}.

(** The blob of [f] is the encryption of [pt] that its header calls for. *)
Definition encrypts (R : bytes) (ab : bool) (f : frame) (pt : bytes) : Prop :=
  exists k mk nonce, chain_of R (rotation f) ab = Ok k /\
    messageKey (Chain k) (sequence f) = Ok mk /\ len nonce = NonceSize /\
    blob f = nonce ++ gcm_seal mk nonce pt (marshalHeaderOnly f).

Lemma authentic_encrypts R ab f pt : authentic R ab f pt -> encrypts R ab f pt.
Proof.
  intros (k & mk & Hk & Hmk & Hop). apply Open_iff in Hop as (nonce & _ & Hn & Hb).
  exists k, mk, nonce. done.
Qed.

(** C7: [Open] returns a payload only for a frame of this session whose blob is
    exactly the AES-GCM encryption of that payload, under the key derived for
    the frame's epoch, direction and sequence number, with the whole header as
    additional data, and whose sequence number was never accepted before. *)
Theorem open_accepts_authentic s R A buf s' t pt :
  session_inv s R A -> Open s buf = (s', Ok (t, pt)) ->
  exists f, buf = marshalFrame f /\ frame_wf f /\ session f = SessionID s /\ typ f = t /\
    (sequence f ∉ A) /\ acceptable s (rotation f) /\
    encrypts R (negb (initiator s)) f pt.
Proof.
  intros Hinv Ho. open_inv Hinv buf. rewrite Ho in *. simplify_eq.
  match goal with H : open_outcome _ _ _ _ _ _ _ |- _ =>
    inversion H as [| | | | |f pt' s'' Hp Hs Hacc Hau Hf]; subst end.
  apply parse_iff_aux in Hp as [Hwf ->]. apply spec_fresh_iff in Hf as [Hf _].
  exists f. split_and!; try done. by apply authentic_encrypts.
Qed.

(** Feed any byte strings to a session; collect the sequence numbers of the
    accepted ones. *)
Fixpoint open_all (s : Session) (bufs : list bytes) : list Z :=
  match bufs with
  | [] => []
  | b :: rest =>
      let '(s1, r) := Open s b in
      match r, parseFrame b with
      | Ok _, Ok f => sequence f :: open_all s1 rest
      | _, _ => open_all s1 rest
      end
  end.

Lemma open_all_fresh bufs : forall s R A, session_inv s R A ->
  NoDup (open_all s bufs) /\ (forall x, x ∈ open_all s bufs -> x ∉ A).
Proof.
  induction bufs as [|b rest IH]; intros s R A Hinv; cbn [open_all].
  { split; [constructor|]. set_solver. }
  destruct (open_cases s R A b Hinv) as (s1 & A1 & r & -> & Ho & Hinv1 & _).
  destruct (IH s1 R A1 Hinv1) as [Hnd Hnew].
  destruct Ho as [| | | | |f pt s' Hp ? ? ? Hf]; try done.
  rewrite Hp. apply spec_fresh_iff in Hf as [Hf _]. split.
  - constructor; [intros ?%Hnew; set_solver|done].
  - intros x [->|Hx]%elem_of_cons; [done|]. apply Hnew in Hx. set_solver.
Qed.

(** C6: whatever sequence of byte strings an attacker feeds to a session
    (replays, reorderings, forgeries), each sequence number is accepted at most
    once. *)
Theorem open_never_replays s R A bufs :
  session_inv s R A -> NoDup (open_all s bufs).
Proof. intros Hinv. by eapply open_all_fresh. Qed.

(** What a rejected frame may do to a session: nothing, or one epoch step. *)
Definition unmoved (s s' : Session) : Prop :=
  SessionID s' = SessionID s /\ sendSeq s' = sendSeq s /\
  (epoch s' = epoch s \/ epoch s' = next_epoch (epoch s)).

(** [Open] never panics, and a rejected frame leaves every counter and the
    replay window as they were; the one thing it can change is the epoch, by
    exactly one step forward. *)
Theorem open_reject_keeps_state s R A buf s' r :
  session_inv s R A -> Open s buf = (s', r) ->
  r <> Panic /\ (is_ok r = false -> session_inv s' R A /\ unmoved s s').
Proof.
  intros Hinv Ho. open_inv Hinv buf. rewrite Ho in *. simplify_eq. unfold unmoved.
  match goal with H : open_outcome _ _ _ _ _ _ _ |- _ => inversion H; subst end;
    (split; [done|]); intros Hr; try done; try (by auto).
  all: split_and!; try done; unfold rolled in *; repeat case_decide;
    ((left; congruence) || (right; congruence)).
Qed.
End acceptance.

(** ** Delivery *)
Section delivery.
Context `{CryptoLaws}.

(** The two ends of one session. *)
Definition matched (a b : Session) : Prop :=
  SessionID b = SessionID a /\ initiator b = negb (initiator a).

Lemma matched_sym a b : matched a b -> matched b a.
Proof. intros [H1 H2]. split; [done|]. by rewrite H2, negb_involutive. Qed.

(** A genuine frame of an epoch the session can read, with a new number, is
    accepted. *)
Lemma open_genuine b R Ab buf f pt : session_inv b R Ab -> parseFrame buf = Ok f -> session f = SessionID b ->
  acceptable b (rotation f) -> authentic R (negb (initiator b)) f pt -> spec_fresh Ab (sequence f) = true ->
  exists b', Open b buf = (b', Ok (typ f, pt)) /\ session_inv b' R ({[sequence f]} ∪ Ab) /\
    SessionID b' = SessionID b /\ initiator b' = initiator b /\ sendSeq b' = sendSeq b /\ epoch b' = rolled b (rotation f).
Proof.
  intros Hb Hp Hsid Hacc Hau Hf.
  destruct (open_cases b R Ab buf Hb) as (b' & Ab' & r & Ho & Hoc & Hb' & T1 & T2 & T3).
  destruct Hoc as [e Hp'|f' Hp' Hs|f' Hp' Hs Hn|f' s' Hp' Hs _ Hn|f' pt' s' Hp' Hs _ _ Hn
    |f' pt' s' Hp' Hs _ Hau' _ Hr]; rewrite Hp in Hp'; simplify_eq.
  { congruence. } { by destruct (Hn pt). } { congruence. }
  assert (pt' = pt) as ->.
  { destruct Hau' as (k' & mk' & ? & ? & ?), Hau as (k'' & mk'' & ? & ? & ?). congruence. }
  exists s'. split_and!; done.
Qed.

Lemma seal_then_open a b R Aa Ab t pt rng :
  session_inv a R Aa -> session_inv b R Ab -> matched a b ->
  known_type t = true -> len pt <= MaxPlaintext -> NonceSize <= len rng ->
  acceptable b (seal_epoch a) -> spec_fresh Ab (sendSeq a) = true ->
  exists a' b' buf, Seal a t pt rng = (a', Ok buf) /\ Open b buf = (b', Ok (t, pt)) /\
    session_inv a' R Aa /\ session_inv b' R ({[sendSeq a]} ∪ Ab) /\ matched a' b' /\
    epoch a' = seal_epoch a /\ epoch b' = rolled b (seal_epoch a) /\
    sendSeq a' = wrap 64 (sendSeq a + 1) /\ sendSeq b' = sendSeq b.
Proof.
  intros Ha Hb [M1 M2] Ht Hpt Hrng Hacc Hf.
  destruct (seal_spec a R Aa t pt rng Ha Hpt Hrng) as
    (a' & f & k & mk & Hs & Ha' & S1 & S2 & S3 & S4 & S5 & F1 & F2 & F3 & F4 & F5 & Hk & Hmk & Hop & Hp).
  specialize (Hp Ht).
  assert (Hau : authentic R (negb (initiator b)) f pt).
  { exists k, mk. rewrite F3, F4, M2, negb_involutive. done. }
  destruct (open_genuine b R Ab (marshalFrame f) f pt Hb Hp) as (b' & Ho & Hb' & T1 & T2 & T3 & Hr);
    [congruence|by rewrite F4|done|by rewrite F3|].
  rewrite F1, F3, F4 in *. do 3 eexists. split; [exact Hs|]. split; [exact Ho|].
  split_and!; try done; try congruence. split; congruence.
Qed.

(** One message of a conversation: who sends it, its type, payload and the
    randomness the sender draws. *)
Record item := Item { from_a : bool; it_typ : byte; it_pt : bytes; it_rng : bytes }.

Definition item_ok (i : item) : Prop :=
  known_type (it_typ i) = true /\ len (it_pt i) <= MaxPlaintext /\ NonceSize <= len (it_rng i).

Definition transmit (snd rcv : Session) (i : item) : Session * Session * res proto_err (byte * bytes) :=
  let '(snd', r) := Seal snd (it_typ i) (it_pt i) (it_rng i) in
  match r with
  | Ok buf => let '(rcv', o) := Open rcv buf in (snd', rcv', o)
  | Err e => (snd', rcv, Err e)
  | Panic => (snd', rcv, Panic)
  end.

Fixpoint converse (script : list item) (a b : Session) : list (res proto_err (byte * bytes)) :=
  match script with
  | [] => []
  | i :: rest =>
      if from_a i then let '(a', b', o) := transmit a b i in o :: converse rest a' b'
      else let '(b', a', o) := transmit b a i in o :: converse rest a' b'
  end.

(** Both ends are in the same epoch and have accepted only numbers the other
    end has already used, with room for [n] more messages each way. *)
Definition lockstep (R : bytes) (n : Z) (a b : Session) : Prop :=
  exists Aa Ab, session_inv a R Aa /\ session_inv b R Ab /\ matched a b /\ epoch b = epoch a /\
    (forall x, x ∈ Ab -> x < sendSeq a) /\ (forall x, x ∈ Aa -> x < sendSeq b) /\
    sendSeq a + n < 2 ^ 64 /\ sendSeq b + n < 2 ^ 64 /\ epoch a <= sendSeq a + sendSeq b.

Lemma seal_epoch_le s : 0 <= epoch s -> seal_epoch s <= epoch s + 1.
Proof. intros He. unfold seal_epoch, next_epoch, wrap. case_decide; [apply Z.mod_le; lia|lia]. Qed.

Lemma lockstep_sym R n a b : lockstep R n a b -> lockstep R n b a.
Proof.
  intros (Aa & Ab & ? & ? & ?%matched_sym & ? & ? & ? & ? & ? & ?). exists Ab, Aa. split_and!; try done. lia.
Qed.

Lemma lockstep_le R n n' a b : n <= n' -> lockstep R n' a b -> lockstep R n a b.
Proof.
  intros Hn (Aa & Ab & ? & ? & ? & ? & ? & ? & ? & ? & ?). exists Aa, Ab. split_and!; try done; lia.
Qed.

Lemma lockstep_transmit R n a b i : 0 <= n -> lockstep R (n + 1) a b -> item_ok i ->
  exists a' b', transmit a b i = (a', b', Ok (it_typ i, it_pt i)) /\ lockstep R n a' b'.
Proof.
  intros Hn (Aa & Ab & Ha & Hb & Hm & He & Hab & Hba & Hna & Hnb & Hep) (Ht & Hpt & Hrng).
  destruct (seal_then_open a b R Aa Ab (it_typ i) (it_pt i) (it_rng i)) as
    (a' & b' & buf & Hs & Ho & Ha' & Hb' & Hm' & E1 & E2 & Q1 & Q2); try done.
  { unfold acceptable, seal_epoch. rewrite He. case_decide; auto. }
  { apply spec_fresh_iff. split; [intros ?%Hab; lia|]. intros x ?%Hab. unfold windowSize. lia. }
  exists a', b'. unfold transmit. rewrite Hs, Ho. split; [done|].
  pose proof (si_seq _ _ _ Ha) as [Hq _]. rewrite wrap_small in Q1 by (split; lia).
  pose proof (seal_epoch_le a (proj1 (si_epoch _ _ _ Ha))) as Hle.
  exists Aa, ({[sendSeq a]} ∪ Ab). split_and!; try done; try lia.
  - rewrite E1, E2. unfold rolled, seal_epoch. rewrite He. repeat case_decide; congruence.
  - intros x [->%elem_of_singleton|Hx%Hab]%elem_of_union; lia.
  - intros x ?%Hba. lia.
Qed.

Lemma lockstep_converse script : forall R a b,
  lockstep R (len script) a b -> Forall item_ok script ->
  converse script a b = (fun i => Ok (it_typ i, it_pt i)) <$> script.
Proof.
  induction script as [|i rest IH]; intros R a b Hl Hok; [done|].
  apply Forall_cons_iff in Hok as [Hi Hok]. rewrite len_cons in Hl.
  pose proof (len_nonneg rest). cbn [converse]. destruct (from_a i).
  - destruct (lockstep_transmit R (len rest) a b i) as (a' & b' & -> & Hl'); try done.
    cbn. f_equal. by eapply IH.
  - apply lockstep_sym in Hl.
    destruct (lockstep_transmit R (len rest) b a i) as (b' & a' & -> & Hl'); try done.
    cbn. f_equal. eapply IH; [by apply lockstep_sym|done].
Qed.

Lemma lockstep_new shared transcript a b n :
  newSession shared transcript true = Ok a -> newSession shared transcript false = Ok b ->
  n < 2 ^ 64 -> exists R, lockstep R n a b.
Proof.
  intros Hna Hnb Hn. assert (Hs : len shared <> 0).
  { unfold newSession, derive, DeriveKey in Hna. destruct (decide (len shared = 0)); done. }
  destruct (newSession_inv shared transcript true Hs) as
    (a' & R & HR & Ha & Hia & I1 & I2 & I3 & sid & Hsid & I4).
  destruct (newSession_inv shared transcript false Hs) as
    (b' & R' & HR' & Hb & Hib & J1 & J2 & J3 & sid' & Hsid' & J4).
  assert (a' = a) as -> by congruence. assert (b' = b) as -> by congruence.
  assert (R' = R) as -> by congruence. assert (sid' = sid) as -> by congruence.
  exists R, ∅, ∅. unfold matched. split_and!; try done; try congruence; try lia.
  by rewrite I1, J1.
Qed.

(** The two ends built from one handshake understand each other: in any
    conversation (either side speaking at any time, any mix of frame types,
    through every key rotation) in which frames arrive in the order they were
    sealed, every message is delivered with its type and payload unchanged. *)
Theorem conversation_delivers shared transcript a b script :
  newSession shared transcript true = Ok a -> newSession shared transcript false = Ok b ->
  Forall item_ok script -> len script < 2 ^ 64 ->
  converse script a b = (fun i => Ok (it_typ i, it_pt i)) <$> script.
Proof.
  intros Ha Hb Hok Hn. destruct (lockstep_new _ _ _ _ _ Ha Hb Hn) as [R Hl].
  by eapply lockstep_converse.
Qed.
End delivery.

(** ** Limits of the protocol as implemented *)
Section limits.
Context `{CryptoLaws}.

(** A frame anyone who saw one header can write: no key is involved. *)
Definition forged (sid e : Z) : bytes := marshalFrame (Frame TypePing sid 0 e []).

Lemma forged_parse sid e : is_uint 64 sid -> is_uint 32 e ->
  parseFrame (forged sid e) = Ok (Frame TypePing sid 0 e []).
Proof. intros. apply parse_iff_aux. split; [|done]. by split. Qed.

Lemma forged_not_authentic R ab sid e pt : ~ authentic R ab (Frame TypePing sid 0 e []) pt.
Proof.
  intros (k & mk & _ & _ & Ho). apply Open_iff in Ho as (n & _ & Hn & Hb). cbn in Hb.
  apply (f_equal len) in Hb. rewrite len_app, gcm_seal_len, Hn, len_nil in Hb.
  pose proof (len_nonneg pt). unfold NonceSize in *. lia.
Qed.

Lemma forged_rolls s R A : session_inv s R A ->
  exists s', Open s (forged (SessionID s) (next_epoch (epoch s))) = (s', Err ErrAuth) /\
    session_inv s' R A /\ SessionID s' = SessionID s /\ epoch s' = next_epoch (epoch s).
Proof.
  intros Hinv. set (buf := forged _ _).
  assert (Hp : parseFrame buf = Ok (Frame TypePing (SessionID s) 0 (next_epoch (epoch s)) [])).
  { apply forged_parse; [apply Hinv|apply next_epoch_uint]. }
  destruct (open_cases s R A buf Hinv) as (s1 & A1 & r & -> & Ho & Hi & Hsid & _).
  assert (Hr : rolled s (next_epoch (epoch s)) = next_epoch (epoch s)).
  { unfold rolled. repeat case_decide; congruence. }
  destruct Ho as [e Hp'|f Hp' Hs|f Hp' Hs Hn|f s' Hp' Hs Ha Hn He|f pt s' Hp' Hs Ha Hau
    |f pt s' Hp' Hs Ha Hau]; rewrite Hp in Hp'; simplify_eq; cbn in *.
  - by destruct Hn; right; left.
  - exists s'. split_and!; congruence || done.
  - by apply forged_not_authentic in Hau.
  - by apply forged_not_authentic in Hau.
Qed.

Lemma epoch_two_behind s e : is_uint 32 e -> epoch s = next_epoch (next_epoch e) ->
  ~ acceptable s e.
Proof.
  unfold acceptable, next_epoch, wrap, is_uint. intros He ->. change (2 ^ 32) with 4294967296 in *.
  Z.to_euclidean_division_equations. lia.
Qed.

(** C40: epochs roll before anything is authenticated.  Two frames made only of
    a session id and an epoch number, both of which travel in clear in every
    header, move a live session two epochs ahead; from then on it rejects
    every genuine frame of the epoch its peer is in. *)
Theorem forged_frames_desynchronise s R A :
  session_inv s R A ->
  exists s1 s2,
    Open s (forged (SessionID s) (next_epoch (epoch s))) = (s1, Err ErrAuth) /\
    Open s1 (forged (SessionID s) (next_epoch (next_epoch (epoch s)))) = (s2, Err ErrAuth) /\
    forall f, frame_wf f -> session f = SessionID s -> rotation f = epoch s ->
      Open s2 (marshalFrame f) = (s2, Err ErrBadEpoch).
Proof.
  intros Hinv. destruct (forged_rolls s R A Hinv) as (s1 & Ho1 & Hinv1 & Hs1 & He1).
  destruct (forged_rolls s1 R A Hinv1) as (s2 & Ho2 & Hinv2 & Hs2 & He2).
  exists s1, s2. rewrite Hs1, He1 in Ho2. split; [done|]. split; [done|].
  intros f Hwf Hsid Hrot. unfold Open. rewrite (si_open _ _ _ Hinv2).
  rewrite (proj2 (parse_iff_aux _ f)) by done. rewrite decide_False by congruence.
  rewrite chainForEpoch_reject; [done|]. rewrite Hrot. apply epoch_two_behind; [apply Hinv|].
  congruence.
Qed.

(** Decrypt a frame from the session root alone. *)
Definition recover (R : bytes) (ab : bool) (buf : bytes) : res proto_err bytes :=
  f ← parseFrame buf;
  k ← chain_of R (rotation f) ab;
  mk ← messageKey (Chain k) (sequence f);
  map_err (fun _ => ErrAuth) (Crypto.Open mk (marshalHeaderOnly f) (blob f)).

(** No key is ratcheted away while a session lives: any later live state
    of the session that sealed a frame still decrypts it, from its root and
    the frame's own header. *)
Theorem sealed_frames_stay_recoverable s R A t pt rng s1 buf s2 A2 :
  session_inv s R A -> known_type t = true -> Seal s t pt rng = (s1, Ok buf) ->
  session_inv s2 R A2 -> recover (root s2) (initiator s) buf = Ok pt.
Proof.
  intros Hinv Ht Hs Hinv2. destruct (Seal_ok_inv _ _ _ _ _ _ (si_open _ _ _ Hinv) Hs) as [Hl Hr].
  destruct (seal_spec s R A t pt rng Hinv Hl Hr) as
    (a' & f & k & mk & Hs' & Ha' & S1 & S2 & S3 & S4 & S5 & F1 & F2 & F3 & F4 & F5 & Hk & Hmk & Hop & Hp).
  rewrite Hs in Hs'. simplify_eq. unfold recover. rewrite Hp by done.
  step_bind. rewrite (si_root _ _ _ Hinv2), F4, Hk. step_bind. rewrite F3, Hmk. step_bind.
  by rewrite Hop.
Qed.
End limits.

(** ** Concrete sessions *)
Module Sample.
Import Crypto.Toy.
Definition shared : bytes := str "an agreed secret".
Definition transcript : bytes := str "a transcript hash".
Definition rng : bytes := str "twelve bytes and more".

Definition sess (ini : bool) : Session :=
  match newSession shared transcript ini with
  | Ok s => s
  | _ => mkSession 0 None None None 0 0 newReplayWindow true ini []
  end.

Lemma sess_new ini : newSession shared transcript ini = Ok (sess ini).
Proof. destruct ini; vm_compute; reflexivity. Qed.

Lemma sess_inv ini : session_inv (sess ini) (root (sess ini)) ∅.
Proof.
  destruct (newSession_inv shared transcript ini) as (s & R & _ & Hs & Hi & _); [done|].
  rewrite sess_new in Hs. simplify_eq. by rewrite (si_root _ _ _ Hi).
Qed.

Definition hello : bytes := encodeChatPayload (str "hello").

Definition hello_frame : bytes :=
  match snd (Seal (sess true) TypeChat hello rng) with Ok b => b | _ => [] end.
End Sample.

Section witnesses.
Import Crypto.Toy Sample.

Lemma open_accepts_authentic_witness : exists f, hello_frame = marshalFrame f /\
  frame_wf f /\ session f = SessionID (sess false) /\ typ f = TypeChat /\ (sequence f ∉ (∅ : gset Z)) /\
  acceptable (sess false) (rotation f) /\
  encrypts (root (sess false)) (negb (initiator (sess false))) f hello.
Proof.
  apply (open_accepts_authentic (sess false) (root (sess false)) ∅ hello_frame
    (fst (Open (sess false) hello_frame)) TypeChat hello); [apply sess_inv|].
  vm_compute. reflexivity.
Defined.

Lemma open_never_replays_witness :
  NoDup (open_all (sess false) [hello_frame; hello_frame; []]).
Proof. apply (open_never_replays _ _ _ _ (sess_inv false)). Defined.

Lemma open_reject_keeps_state_witness :
  Err ErrBadSession <> @Panic proto_err (byte * bytes) /\
  (is_ok (@Err proto_err (byte * bytes) ErrBadSession) = false ->
   session_inv (sess false) (root (sess false)) ∅ /\ unmoved (sess false) (sess false)).
Proof.
  apply (open_reject_keeps_state (sess false) (root (sess false)) ∅ (forged 17 0)); [apply sess_inv|].
  vm_compute. reflexivity.
Defined.

Lemma conversation_delivers_witness :
  converse [Item true TypeChat hello rng; Item false TypePing [] rng; Item true TypeClose [] rng]
    (sess true) (sess false) = [Ok (TypeChat, hello); Ok (TypePing, []); Ok (TypeClose, [])].
Proof.
  apply (conversation_delivers shared transcript); [apply sess_new|apply sess_new| |done].
  repeat (apply Forall_cons; [by vm_compute|]). apply Forall_nil.
Defined.

Lemma forged_frames_desynchronise_witness : exists s1 s2,
  Open (sess false) (forged (SessionID (sess false)) (next_epoch (epoch (sess false)))) = (s1, Err ErrAuth) /\
  Open s1 (forged (SessionID (sess false)) (next_epoch (next_epoch (epoch (sess false))))) = (s2, Err ErrAuth) /\
  forall f, frame_wf f -> session f = SessionID (sess false) -> rotation f = epoch (sess false) ->
    Open s2 (marshalFrame f) = (s2, Err ErrBadEpoch).
Proof. apply (forged_frames_desynchronise _ _ _ (sess_inv false)). Defined.

Lemma sealed_frames_stay_recoverable_witness :
  recover (root (sess true)) (initiator (sess true)) hello_frame = Ok hello.
Proof.
  apply (sealed_frames_stay_recoverable (sess true) (root (sess true)) ∅ TypeChat hello rng
    (fst (Seal (sess true) TypeChat hello rng)) hello_frame (sess true) ∅);
    [apply sess_inv|done|vm_compute; reflexivity|apply sess_inv].
Defined.
End witnesses.
