(* ===== verification/Crossing.v ===== *)
(** Frames that cross: the two ends of a session of
    [src/internal/proto/session.go] when both send at any time and frames take
    time to arrive.  Each direction is a queue, as a connection keeps the order
    of what is written to it; a schedule says who seals and who opens next.

    Either end starts a new epoch by itself, every [rotationInterval] frames, and
    follows the other's when it sees a frame of it.  The first part is the
    arithmetic of the epochs alone, over the numbers a frame carries. *)
From Stdlib Require Import ZArith Lia Sorting.Sorted.
From Stdlib Require Import Strings.Byte.
From stdpp Require Import base list gmap strings numbers option.
From S2P Require Import Prelude Crypto Replay Frame Session SessionProps.

(** ** Epochs in flight *)

(** The rotations an end has made by itself once it has sealed [n] frames. *)
Definition rots (n : Z) : Z := if decide (n <= 0) then 0 else (n - 1) / rotationInterval.

Lemma rots_succ n : 0 <= n ->
  rots (n + 1) = rots n + (if decide (0 < n /\ n mod rotationInterval = 0) then 1 else 0).
Proof.
  intros Hn. unfold rots, rotationInterval. rewrite (decide_False (P := n + 1 <= 0)) by lia.
  replace (n + 1 - 1) with n by lia. repeat case_decide; Z.to_euclidean_division_equations; lia.
Qed.

Lemma rots_mono m n : m <= n -> rots m <= rots n.
Proof. unfold rots, rotationInterval. repeat case_decide; Z.to_euclidean_division_equations; lia. Qed.

Lemma rots_gap m n : 0 <= m -> n - m <= rotationInterval -> rots n <= rots m + 1.
Proof. unfold rots, rotationInterval. repeat case_decide; Z.to_euclidean_division_equations; lia. Qed.

(** What matters of a frame in flight: its number, its epoch, and how many frames
    of the other end its sender had opened. *)
Record pkt := Pkt { p_seq : Z; p_ep : Z; p_ack : Z }.

(** The reader's epoch is at most one behind each frame when it gets there, and
    has caught up with the writer's epoch [last] when it has read them all. *)
Fixpoint chain_up (top : Z) (q : list pkt) (last : Z) : Prop :=
  match q with [] => last <= top | p :: q => p_ep p <= top + 1 /\ chain_up (Z.max top (p_ep p)) q last end.

Fixpoint numbered (s : Z) (q : list pkt) (n : Z) : Prop :=
  match q with [] => s = n | p :: q => p_seq p = s /\ numbered (s + 1) q n end.

Fixpoint rising (q : list pkt) (last : Z) : Prop :=
  match q with [] => True | p :: q => p_ep p <= last /\ Forall (fun p' => p_ep p <= p_ep p') q /\ rising q last end.

(** One direction: the writer is in epoch [ea] and has sealed [na], the reader is
    in epoch [eb], has sealed [nb] itself and has read [nd] of the writer's; [q] is in
    flight. *)
Record dir (ea na eb nb nd : Z) (q : list pkt) : Prop := {
  di_chain : chain_up eb q ea;
  di_num : numbered nd q na;
  di_rising : rising q ea;
  di_nd : 0 <= nd;
  di_ahead : ea <= eb + rots na - rots nd;
  di_flight : Forall (fun p => ea <= Z.max eb (p_ep p) + rots na - rots (p_seq p + 1) /\
    eb <= p_ep p + rots nb - rots (p_ack p) /\ 0 <= p_ack p <= nb) q
}.

Lemma numbered_len q : forall s n, numbered s q n -> n = s + len q.
Proof. induction q as [|p q IH]; intros s n; cbn; [rewrite len_nil; lia|]. intros [_ ->%IH]. rewrite len_cons. lia. Qed.

Lemma numbered_lt q : forall s n, numbered s q n -> Forall (fun p => s <= p_seq p < n) q.
Proof.
  induction q as [|p q IH]; intros s n Hn; [constructor|]. pose proof (numbered_len _ _ _ Hn) as Hl.
  destruct Hn as [Hs Hn]. rewrite len_cons in Hl. pose proof (len_nonneg q). constructor; [lia|].
  apply IH in Hn. revert Hn. apply Forall_impl. intros x. lia.
Qed.

Lemma numbered_snoc q p : forall s n, numbered s q n -> p_seq p = n -> numbered s (q ++ [p]) (n + 1).
Proof. induction q as [|p' q IH]; intros s n; cbn; [intros ->; split; lia|]. intros [-> Hn] Hp. split; [done|by apply IH]. Qed.

Lemma chain_top q : forall top top' last, top <= top' -> chain_up top q last -> chain_up top' q last.
Proof.
  induction q as [|p q IH]; intros top top' last Ht; cbn; [lia|]. intros [Hp Hq]. split; [lia|].
  eapply IH; [|done]. lia.
Qed.

Lemma chain_last q : forall top last last', last' <= Z.max last top -> chain_up top q last -> chain_up top q last'.
Proof.
  induction q as [|p q IH]; intros top last last' Hl; cbn; [lia|]. intros [Hp Hq]. split; [done|].
  eapply IH; [|done]. lia.
Qed.

Lemma chain_snoc q p : forall top last, chain_up top q last -> p_ep p <= last + 1 -> chain_up top (q ++ [p]) (p_ep p).
Proof.
  induction q as [|p' q IH]; intros top last; cbn; [split; lia|]. intros [Hp Hq] Hl. split; [done|]. by eapply IH.
Qed.

Lemma rising_last q : forall last last', last <= last' -> rising q last -> rising q last'.
Proof.
  induction q as [|p q IH]; intros last last' Hl; cbn; [done|]. intros (H1 & H2 & H3). split; [lia|]. split; [done|by eapply IH].
Qed.

Lemma rising_le q last : rising q last -> Forall (fun p => p_ep p <= last) q.
Proof. induction q as [|p q IH]; cbn; [constructor|]. intros (? & _ & ?). constructor; auto. Qed.

Lemma rising_snoc q p last : rising q last -> last <= p_ep p -> rising (q ++ [p]) (p_ep p).
Proof.
  intros Hr Hl. induction q as [|p' q IH]; cbn in *; [split; [lia|done]|]. destruct Hr as (H1 & H2 & H3).
  split; [lia|]. split; [|by apply IH]. apply Forall_app. split; [done|]. constructor; [lia|done].
Qed.

(** The writer seals one more frame. *)
Lemma dir_seal ea na eb nb nd q ack : dir ea na eb nb nd q -> 0 <= na ->
  eb <= ea + rots nb - rots ack -> 0 <= ack <= nb ->
  let ea' := ea + (if decide (0 < na /\ na mod rotationInterval = 0) then 1 else 0) in
  dir ea' (na + 1) eb nb nd (q ++ [Pkt na ea' ack]).
Proof.
  intros [Hc Hn Hr Hd Ha Hf] Hna Hack Hk ea'. pose proof (rots_succ na Hna) as Hs. subst ea'.
  set (k := if decide _ then 1 else 0) in *. assert (Hk01 : 0 <= k <= 1) by (subst k; case_decide; lia).
  split.
  - apply (chain_snoc q (Pkt na (ea + k) ack) eb ea Hc). cbn. lia.
  - by apply numbered_snoc.
  - apply (rising_snoc q (Pkt na (ea + k) ack) ea Hr). cbn. lia.
  - done.
  - lia.
  - apply Forall_app. split; [|constructor; [cbn; lia|done]].
    revert Hf. apply Forall_impl. intros p. lia.
Qed.

(** The reader seals a frame of its own. *)
Lemma dir_sealed ea na eb nb nd q : dir ea na eb nb nd q -> 0 <= nb ->
  dir ea na (eb + (if decide (0 < nb /\ nb mod rotationInterval = 0) then 1 else 0)) (nb + 1) nd q.
Proof.
  intros [Hc Hn Hr Hd Ha Hf] Hnb. pose proof (rots_succ nb Hnb) as Hs.
  set (k := if decide _ then 1 else 0) in *. assert (Hk01 : 0 <= k <= 1) by (subst k; case_decide; lia).
  split; try done; [eapply chain_top; [|done]; lia|lia|]. revert Hf. apply Forall_impl. intros p. lia.
Qed.

(** The reader is within one epoch of the next frame, unless it has sealed more
    than [rotationInterval] frames its writer had not seen. *)
Lemma dir_reads ea na eb nb nd p q : dir ea na eb nb nd (p :: q) -> nb - p_ack p <= rotationInterval ->
  eb - 1 <= p_ep p <= eb + 1.
Proof.
  intros [[Hc _] _ _ _ _ [(_ & Hl & Hk) _]%Forall_cons_iff] Hg.
  pose proof (rots_gap (p_ack p) nb ltac:(lia) Hg). lia.
Qed.

(** The reader opens the next frame. *)
Lemma dir_open ea na eb nb nd p q : dir ea na eb nb nd (p :: q) ->
  dir ea na (Z.max eb (p_ep p)) nb (nd + 1) q /\ p_seq p = nd /\ p_ep p <= ea.
Proof.
  intros [[Hp Hc] [Hs Hn] (Hr1 & Hr2 & Hr3) Hd Ha [(H1 & H2 & H3) Hf]%Forall_cons_iff].
  split; [|done]. split; try done; [lia|rewrite Hs in H1; lia|].
  apply Forall_forall. intros x Hx. rewrite Forall_forall in Hf, Hr2. specialize (Hf x Hx). specialize (Hr2 x Hx).
  pose proof (rots_mono (p_ack x) nb ltac:(lia)). lia.
Qed.

(** The writer moves to an epoch the reader has seen. *)
Lemma dir_follows ea na eb nb nd q e : dir ea na eb nb nd q -> e <= eb -> dir (Z.max ea e) na eb nb nd q.
Proof.
  intros [Hc Hn Hr Hd Ha Hf] He. pose proof (numbered_len _ _ _ Hn) as Hl. pose proof (len_nonneg q).
  pose proof (rots_mono nd na ltac:(lia)). split; try done.
  - eapply chain_last; [|done]. lia.
  - eapply rising_last; [|done]. lia.
  - lia.
  - pose proof (numbered_lt _ _ _ Hn) as Hlt. apply Forall_forall. intros p Hp. rewrite Forall_forall in Hf, Hlt.
    specialize (Hf p Hp). specialize (Hlt p Hp). pose proof (rots_mono (p_seq p + 1) na ltac:(lia)). lia.
Qed.

(** ** Two ends and two queues *)
Section crossing.
Context `{CryptoLaws}.

(** A sealed frame on its way, and how many of the receiver's frames its sender
    had opened when it sealed it. *)
Record flight := Flight { fl_item : item; fl_buf : bytes; fl_ack : Z }.

Record endpoint := Endpoint { e_sess : Session; e_in : list flight }.

(** [x] seals an item and writes it to [y]; a failing call writes nothing. *)
Definition post (x y : endpoint) (i : item) : endpoint * endpoint :=
  let '(s, r) := Seal (e_sess x) (it_typ i) (it_pt i) (it_rng i) in
  match r with
  | Ok buf => (Endpoint s (e_in x),
               Endpoint (e_sess y) (e_in y ++ [Flight i buf (sendSeq (e_sess y) - len (e_in x))]))
  | _ => (Endpoint s (e_in x), y)
  end.

Definition delivery : Type := item * res proto_err (byte * bytes).

(** [y] reads the next frame, if there is one. *)
Definition arrive (y : endpoint) : endpoint * list delivery :=
  match e_in y with
  | [] => (y, [])
  | f :: q => let '(s, r) := Open (e_sess y) (fl_buf f) in (Endpoint s q, [(fl_item f, r)])
  end.

Inductive action := Sends (i : item) | Reads (at_b : bool).

(** One action: the two ends, and what it delivers. *)
Definition act (x : action) (a b : endpoint) : endpoint * endpoint * list delivery :=
  match x with
  | Sends i => if from_a i then let '(a', b') := post a b i in (a', b', [])
               else let '(b', a') := post b a i in (a', b', [])
  | Reads true => let '(b', d) := arrive b in (a, b', d)
  | Reads false => let '(a', d) := arrive a in (a', b, d)
  end.

(** A schedule: the two ends, and what each reads. *)
Fixpoint schedule (l : list action) (a b : endpoint) : endpoint * endpoint * list delivery :=
  match l with
  | [] => (a, b, [])
  | x :: rest => let '(a1, b1, d) := act x a b in let '(a2, b2, ds) := schedule rest a1 b1 in (a2, b2, d ++ ds)
  end.

(** When [y] reads the next frame it has sealed no more than [rotationInterval]
    frames since the last of its own that the sender had opened by then. *)
Definition in_time (y : endpoint) : Prop :=
  match e_in y with [] => True | f :: _ => sendSeq (e_sess y) - fl_ack f <= rotationInterval end.

Fixpoint prompt (l : list action) (a b : endpoint) : Prop :=
  match l with
  | [] => True
  | x :: rest =>
      match x with Sends _ => True | Reads true => in_time b | Reads false => in_time a end /\
      let '(a1, b1, _) := act x a b in prompt rest a1 b1
  end.

Definition sent_by (of_a : bool) (l : list action) : list item :=
  omap (fun x => match x with Sends i => if Bool.eqb (from_a i) of_a then Some i else None | _ => None end) l.

Definition read_from (of_a : bool) (ds : list delivery) : list item :=
  filter (fun i => from_a i = of_a) (ds.*1).

Definition action_ok (x : action) : Prop := match x with Sends i => item_ok i | Reads _ => True end.

(** ** The invariant *)

(** What is in flight is what was sealed, in the shape the arithmetic speaks of. *)
Definition carried (R : bytes) (sid : Z) (ini : bool) (q : list flight) (ps : list pkt) : Prop :=
  Forall2 (fun fl p => exists f, parseFrame (fl_buf fl) = Ok f /\ session f = sid /\ typ f = it_typ (fl_item fl) /\
    authentic R ini f (it_pt (fl_item fl)) /\ p = Pkt (sequence f) (rotation f) (fl_ack fl)) q ps.

Definition crossing (R : bytes) (n : Z) (a b : endpoint) : Prop :=
  let (x, qa) := a in let (y, qb) := b in
  exists Aa Ab pa pb nda ndb,
    session_inv x R Aa /\ session_inv y R Ab /\ matched x y /\
    carried R (SessionID x) (initiator x) qb pb /\ carried R (SessionID y) (initiator y) qa pa /\
    dir (epoch x) (sendSeq x) (epoch y) (sendSeq y) ndb pb /\ dir (epoch y) (sendSeq y) (epoch x) (sendSeq x) nda pa /\
    (forall k, k ∈ Ab -> k < ndb) /\ (forall k, k ∈ Aa -> k < nda) /\
    epoch x <= sendSeq x + sendSeq y /\ epoch y <= sendSeq x + sendSeq y /\ sendSeq x + sendSeq y + n + 1 < 2 ^ 32.

Lemma crossing_sym R n a b : crossing R n a b -> crossing R n b a.
Proof.
  destruct a as [x qa], b as [y qb]. intros (Aa & Ab & pa & pb & nda & ndb & ? & ? & ?%matched_sym & ? & ? & ? & ? & ? & ? & ? & ? & ?).
  exists Ab, Aa, pb, pa, ndb, nda. split_and!; try done; lia.
Qed.

Lemma crossing_le R n n' a b : n' <= n -> crossing R n a b -> crossing R n' a b.
Proof.
  destruct a as [x qa], b as [y qb]. intros Hn (Aa & Ab & pa & pb & nda & ndb & ? & ? & ? & ? & ? & ? & ? & ? & ? & ? & ? & ?).
  exists Aa, Ab, pa, pb, nda, ndb. split_and!; try done. lia.
Qed.

Lemma seal_epoch_step s R A : session_inv s R A -> epoch s + 1 < 2 ^ 32 ->
  seal_epoch s = epoch s + (if decide (0 < sendSeq s /\ sendSeq s mod rotationInterval = 0) then 1 else 0).
Proof.
  intros Hi He. pose proof (si_epoch _ _ _ Hi) as [? _]. unfold seal_epoch. case_decide; [|lia].
  unfold next_epoch. apply wrap_small. split; lia.
Qed.

Lemma crossing_seal R n x qa y qb i : 0 <= n -> crossing R (n + 1) (Endpoint x qa) (Endpoint y qb) -> item_ok i ->
  exists x' buf, Seal x (it_typ i) (it_pt i) (it_rng i) = (x', Ok buf) /\ sendSeq x' = sendSeq x + 1 /\
    crossing R n (Endpoint x' qa) (Endpoint y (qb ++ [Flight i buf (sendSeq y - len qa)])).
Proof.
  intros Hn (Aa & Ab & pa & pb & nda & ndb & Ha & Hb & Hm & Cb & Ca & Db & Da & Hab & Hba & Ea & Eb & Hs) (Ht & Hpt & Hrng).
  pose proof (si_seq _ _ _ Ha) as [Hx0 _]. pose proof (si_seq _ _ _ Hb) as [Hy0 _].
  destruct (seal_spec x R Aa (it_typ i) (it_pt i) (it_rng i) Ha Hpt Hrng) as
    (x' & f & k & mk & S & Ha' & S1 & S2 & S3 & S4 & S5 & F1 & F2 & F3 & F4 & F5 & Hk & Hmk & Hop & Hp).
  specialize (Hp Ht). rewrite (seal_epoch_step x R Aa Ha) in S4, F4 by lia. rewrite wrap_small in S5 by (split; lia).
  exists x', (marshalFrame f). split; [exact S|]. split; [exact S5|].
  set (ea' := epoch x + _) in *.
  assert (Hea : epoch x <= ea' <= epoch x + 1) by (subst ea'; case_decide; lia).
  pose proof (numbered_len _ _ _ (di_num _ _ _ _ _ _ Da)) as Hl.
  assert (Hq : len qa = len pa) by (unfold len; by rewrite (Forall2_length Ca)).
  exists Aa, Ab, pa, (pb ++ [Pkt (sendSeq x) ea' nda]), nda, ndb.
  split_and!; try done; [| | |by rewrite S4, S5; apply dir_sealed|lia..].
  - split; [by rewrite S1; apply Hm|rewrite S2; apply Hm].
  - rewrite S1, S2. apply Forall2_app; [done|]. constructor; [|constructor]. exists f. cbn. split_and!; try done.
    + exists k, mk. rewrite F3, F4. unfold ea'. rewrite <- (seal_epoch_step x R Aa Ha) by lia. done.
    + rewrite F3, F4, Hq. f_equal. lia.
  - rewrite S4, S5. apply dir_seal; [done|done|apply Da|]. pose proof (di_nd _ _ _ _ _ _ Da). pose proof (len_nonneg pa). lia.
Qed.

Lemma crossing_post R n a b i : 0 <= n -> crossing R (n + 1) a b -> item_ok i ->
  exists a' b', post a b i = (a', b') /\ crossing R n a' b' /\ e_in a' = e_in a /\
    fl_item <$> e_in b' = (fl_item <$> e_in b) ++ [i].
Proof.
  destruct a as [x qa], b as [y qb]. intros Hn Hc Hi. destruct (crossing_seal R n x qa y qb i Hn Hc Hi) as (x' & buf & S & _ & Hc').
  unfold post. cbn [e_sess e_in]. rewrite S. do 2 eexists. split; [done|]. split; [done|]. split; [done|]. cbn. by rewrite fmap_app.
Qed.

Lemma crossing_open R n x qa y fl qb : 0 <= n -> crossing R n (Endpoint x qa) (Endpoint y (fl :: qb)) ->
  sendSeq y - fl_ack fl <= rotationInterval ->
  exists y', Open y (fl_buf fl) = (y', Ok (it_typ (fl_item fl), it_pt (fl_item fl))) /\ sendSeq y' = sendSeq y /\
    crossing R n (Endpoint x qa) (Endpoint y' qb).
Proof.
  intros Hn0 (Aa & Ab & pa & pb & nda & ndb & Ha & Hb & Hm & Cb & Ca & Db & Da & Hab & Hba & Ea & Eb & Hs) Hi.
  apply Forall2_cons_inv_l in Cb as (p & pb' & (f & Hp & Hsid & Ht & Hau & Hpk) & Cb & ->).
  assert (Hack : sendSeq y - p_ack p <= rotationInterval) by (by rewrite Hpk).
  pose proof (dir_reads _ _ _ _ _ _ _ Db Hack) as Hr.
  destruct (dir_open _ _ _ _ _ _ _ Db) as (Db' & Hq & He). rewrite Hpk in Hr, Hq, He. cbn [p_ep p_seq] in Hr, Hq, He.
  pose proof (si_epoch _ _ _ Hb) as [He0 _]. pose proof (si_epoch _ _ _ Ha) as [Ha0 _].
  destruct Hm as [M1 M2].
  assert (Hroll : rolled y (rotation f) = Z.max (epoch y) (rotation f) /\ acceptable y (rotation f)).
  { pose proof (proj1 (parse_iff_aux _ _) Hp) as [Hwf _]. pose proof (fw_rotation _ Hwf) as [Hf0 _].
    assert (Hnx : next_epoch (epoch y) = epoch y + 1) by (apply wrap_small; split; lia).
    unfold rolled, acceptable. rewrite Hnx.
    destruct (decide (rotation f = epoch y)) as [->|]; [split; [lia|by left]|].
    destruct (decide (rotation f = epoch y + 1)) as [->|]; [split; [lia|by right; left]|].
    split; [lia|]. right; right. assert (rotation f = epoch y - 1) as -> by lia. split.
    - unfold next_epoch. rewrite wrap_small by (split; lia). lia.
    - destruct (si_old _ _ _ Hb) as [[E _]|(k & _ & _ & ->)]; [lia|done]. }
  destruct Hroll as [Hroll Hacc].
  destruct (open_genuine y R Ab (fl_buf fl) f (it_pt (fl_item fl)) Hb Hp) as (y' & Ho & Hb' & T1 & T2 & T3 & T4).
  { by rewrite M1. } { done. } { by rewrite M2, negb_involutive. }
  { apply spec_fresh_iff. rewrite Hq. split; [intros ?%Hab; lia|]. intros k ?%Hab. unfold windowSize. lia. }
  exists y'. rewrite <- Ht. split; [exact Ho|]. split; [exact T3|].
  exists Aa, ({[sequence f]} ∪ Ab), pa, pb', nda, (ndb + 1). rewrite T1, T2, T3, T4, Hroll.
  rewrite Hpk in Db'. cbn [p_ep] in Db'.
  split_and!; try done; [by split; congruence|by apply dir_follows| |lia].
  intros k [->%elem_of_singleton|Hk%Hab]%elem_of_union; lia.
Qed.

Lemma crossing_arrive R n a b : 0 <= n -> crossing R n a b -> in_time b ->
  exists b' ds, arrive b = (b', ds) /\ crossing R n a b' /\ Forall (fun d : delivery => d.2 = Ok (it_typ d.1, it_pt d.1)) ds /\
    fl_item <$> e_in b = (ds.*1) ++ (fl_item <$> e_in b').
Proof.
  destruct a as [x qa], b as [y [|fl qb]]; intros Hn Hc Hi.
  { exists (Endpoint y []), []. done. }
  destruct (crossing_open R n x qa y fl qb Hn Hc Hi) as (y' & Ho & _ & Hc'). unfold arrive. cbn [e_in e_sess]. rewrite Ho.
  do 2 eexists. split; [done|]. split; [done|]. by split; [constructor|].
Qed.

(** The items in a queue are the writer's. *)
Definition from (of_a : bool) (q : list flight) : Prop := Forall (fun i => from_a i = of_a) (fl_item <$> q).

Lemma read_all of_a (ds : list delivery) : Forall (fun i => from_a i = of_a) (ds.*1) ->
  read_from of_a ds = ds.*1 /\ read_from (negb of_a) ds = [].
Proof.
  unfold read_from. induction (ds.*1) as [|i l IH]; [done|]. intros [Hi [E1 E2]%IH]%Forall_cons_iff.
  rewrite !filter_cons. rewrite decide_True by done. rewrite decide_False by (rewrite Hi; by destruct of_a).
  by rewrite E1, E2.
Qed.

Lemma read_app of_a ds ds' : read_from of_a (ds ++ ds') = read_from of_a ds ++ read_from of_a ds'.
Proof. unfold read_from. by rewrite fmap_app, list.filter_app. Qed.

Lemma sent_sends of_a i l : from_a i = of_a ->
  sent_by of_a (Sends i :: l) = i :: sent_by of_a l /\ sent_by (negb of_a) (Sends i :: l) = sent_by (negb of_a) l.
Proof. intros <-. unfold sent_by. cbn. by destruct (from_a i). Qed.

Lemma from_split of_a q ds : from of_a q -> forall q', fl_item <$> q = ds ++ (fl_item <$> q') ->
  Forall (fun i => from_a i = of_a) ds /\ from of_a q'.
Proof. unfold from. intros Hq q' E. rewrite E in Hq. by apply Forall_app in Hq. Qed.

Definition delivered (d : delivery) : Prop := d.2 = Ok (it_typ d.1, it_pt d.1).

Lemma crossing_schedule l : forall R a b,
  crossing R (len l) a b -> Forall action_ok l -> prompt l a b -> from true (e_in b) -> from false (e_in a) ->
  let '(a', b', ds) := schedule l a b in
  Forall delivered ds /\
  (fl_item <$> e_in b) ++ sent_by true l = read_from true ds ++ (fl_item <$> e_in b') /\
  (fl_item <$> e_in a) ++ sent_by false l = read_from false ds ++ (fl_item <$> e_in a').
Proof.
  induction l as [|x rest IH]; intros R a b Hc Hok Hp Fb Fa; cbn [schedule].
  { unfold sent_by, read_from. cbn. rewrite !app_nil_r. by split; [constructor|]. }
  apply Forall_cons_iff in Hok as [Hx Hok]. rewrite len_cons in Hc. pose proof (len_nonneg rest) as Hn.
  cbn [prompt] in Hp. destruct Hp as [Hi Hp].
  destruct x as [i|[|]]; cbn [act action_ok] in *.
  - destruct (from_a i) eqn:Ei.
    + destruct (crossing_post R _ a b i Hn Hc Hx) as (a1 & b1 & E & Hc1 & Q1 & Q2). rewrite E in *.
      specialize (IH R a1 b1 Hc1 Hok Hp). unfold from in *. rewrite Q2, Q1 in IH.
      destruct (sent_sends true i rest Ei) as [-> E2]. cbn [negb] in E2. rewrite E2.
      destruct (schedule rest a1 b1) as [[a2 b2] ds]. cbn [app]. destruct IH as (I1 & I2 & I3); [|done|].
      { apply Forall_app. split; [done|by constructor]. }
      rewrite <- app_assoc in I2. done.
    + destruct (crossing_post R _ b a i Hn (crossing_sym _ _ _ _ Hc) Hx) as (b1 & a1 & E & Hc1 & Q1 & Q2). rewrite E in *.
      apply crossing_sym in Hc1. specialize (IH R a1 b1 Hc1 Hok Hp). unfold from in *. rewrite Q2, Q1 in IH.
      destruct (sent_sends false i rest Ei) as [-> E2]. cbn [negb] in E2. rewrite E2.
      destruct (schedule rest a1 b1) as [[a2 b2] ds]. cbn [app]. destruct IH as (I1 & I2 & I3); [done| |].
      { apply Forall_app. split; [done|by constructor]. }
      rewrite <- app_assoc in I3. done.
  - assert (Hc' : crossing R (len rest) a b).
    { eapply crossing_le; [|exact Hc]. lia. }
    destruct (crossing_arrive R _ a b Hn Hc' Hi) as (b1 & d & E & Hc1 & Hd & Q). rewrite E in *.
    destruct (from_split _ _ _ Fb _ Q) as [Hd1 Fb1]. destruct (read_all true d Hd1) as [R1 R2]. cbn [negb] in R2.
    specialize (IH R a b1 Hc1 Hok Hp Fb1 Fa). destruct (schedule rest a b1) as [[a2 b2] ds].
    destruct IH as (I1 & I2 & I3). rewrite !read_app, R1, R2, Q. cbn [app].
    split; [by apply Forall_app|]. split; [|done]. rewrite <- !app_assoc. f_equal. exact I2.
  - assert (Hc' : crossing R (len rest) b a).
    { apply crossing_sym. eapply crossing_le; [|exact Hc]. lia. }
    destruct (crossing_arrive R _ b a Hn Hc' Hi) as (a1 & d & E & Hc1 & Hd & Q). rewrite E in *.
    destruct (from_split _ _ _ Fa _ Q) as [Hd1 Fa1]. destruct (read_all false d Hd1) as [R1 R2]. cbn [negb] in R2.
    specialize (IH R a1 b (crossing_sym _ _ _ _ Hc1) Hok Hp Fb Fa1). destruct (schedule rest a1 b) as [[a2 b2] ds].
    destruct IH as (I1 & I2 & I3). rewrite !read_app, R1, R2, Q. cbn [app].
    split; [by apply Forall_app|]. split; [done|]. rewrite <- !app_assoc. f_equal. exact I3.
Qed.
End crossing.

(** ** What arrives *)
Section theorems.
Context `{CryptoLaws}.

Lemma crossing_new shared transcript a b n :
  newSession shared transcript true = Ok a -> newSession shared transcript false = Ok b ->
  n + 1 < 2 ^ 32 -> exists R, crossing R n (Endpoint a []) (Endpoint b []) /\
    epoch a = 0 /\ epoch b = 0 /\ sendSeq a = 0 /\ sendSeq b = 0.
Proof.
  intros Hna Hnb Hn. assert (Hs : len shared <> 0).
  { unfold newSession, derive, DeriveKey in Hna. destruct (decide (len shared = 0)); done. }
  destruct (newSession_inv shared transcript true Hs) as
    (a' & R & HR & Ha & Hia & I1 & I2 & I3 & sid & Hsid & I4).
  destruct (newSession_inv shared transcript false Hs) as
    (b' & R' & HR' & Hb & Hib & J1 & J2 & J3 & sid' & Hsid' & J4).
  assert (a' = a) as -> by congruence. assert (b' = b) as -> by congruence.
  assert (R' = R) as -> by congruence. assert (sid' = sid) as -> by congruence.
  exists R. split; [|done]. exists ∅, ∅, [], [], 0, 0. unfold matched. rewrite I1, I2, I3, J1, J2, J3, I4, J4.
  assert (Hd : dir 0 0 0 0 0 []) by (split; [done|done|done|done|vm_compute; discriminate|constructor]).
  split_and!; try done; try constructor; try lia; set_solver.
Qed.

(** Two ends in step, with nothing in flight. *)
Lemma lockstep_crossing R m n a b : lockstep R m a b -> sendSeq a + sendSeq b + n + 1 < 2 ^ 32 ->
  crossing R n (Endpoint a []) (Endpoint b []).
Proof.
  intros (Aa & Ab & Ha & Hb & Hm & He & Hab & Hba & _ & _ & Hep) Hn.
  pose proof (si_seq _ _ _ Ha) as [Hx _]. pose proof (si_seq _ _ _ Hb) as [Hy _].
  exists Aa, Ab, [], [], (sendSeq b), (sendSeq a).
  split_and!; try done; try constructor; cbn; try done; try lia.
Qed.

(** C4: the two ends built from one handshake understand each other though their
    frames cross: both seal and open whenever they like, each starting new epochs
    by itself and following the other's, and every frame that is read by the time
    its reader has sealed [rotationInterval] frames its sender had not seen is
    delivered with its type and payload, none lost, doubled or reordered; what
    was sent and not read is still on its way. *)
Theorem crossing_delivers shared transcript a b l :
  newSession shared transcript true = Ok a -> newSession shared transcript false = Ok b ->
  Forall action_ok l -> len l + 1 < 2 ^ 32 -> prompt l (Endpoint a []) (Endpoint b []) ->
  let '(a', b', ds) := schedule l (Endpoint a []) (Endpoint b []) in
  Forall delivered ds /\
  sent_by true l = read_from true ds ++ (fl_item <$> e_in b') /\
  sent_by false l = read_from false ds ++ (fl_item <$> e_in a').
Proof.
  intros Ha Hb Hok Hn Hp. destruct (crossing_new _ _ _ _ _ Ha Hb Hn) as [R [Hc _]].
  apply (crossing_schedule l R _ _ Hc Hok Hp); constructor.
Qed.

(** An end that only seals is as many epochs on as it has made rotations. *)
Lemma posts_rotate js : forall R A (x y : endpoint), session_inv (e_sess y) R A ->
  Forall (fun i => item_ok i /\ from_a i = false) js -> epoch (e_sess y) = rots (sendSeq (e_sess y)) ->
  sendSeq (e_sess y) + len js + 1 < 2 ^ 32 ->
  exists x' y', schedule (Sends <$> js) x y = (x', y', []) /\ session_inv (e_sess y') R A /\
    SessionID (e_sess y') = SessionID (e_sess y) /\ e_in y' = e_in y /\
    sendSeq (e_sess y') = sendSeq (e_sess y) + len js /\ epoch (e_sess y') = rots (sendSeq (e_sess y')).
Proof.
  induction js as [|i js IH]; intros R A x y Hy Hok He Hn; cbn [schedule fmap list_fmap].
  { exists x, y. rewrite len_nil, Z.add_0_r. done. }
  apply Forall_cons_iff in Hok as [[(Ht & Hpt & Hrng) Hi] Hok]. rewrite len_cons in Hn. pose proof (len_nonneg js) as Hl.
  pose proof (si_seq _ _ _ Hy) as [Hs0 _]. pose proof (si_epoch _ _ _ Hy) as [He0 _].
  destruct (seal_spec (e_sess y) R A (it_typ i) (it_pt i) (it_rng i) Hy Hpt Hrng) as
    (y' & f & k & mk & S & Hy' & S1 & S2 & S3 & S4 & S5 & _).
  assert (Hb : rots (sendSeq (e_sess y)) <= sendSeq (e_sess y)).
  { unfold rots, rotationInterval. case_decide; Z.to_euclidean_division_equations; lia. }
  rewrite (seal_epoch_step _ R A Hy) in S4 by lia. rewrite wrap_small in S5 by (split; lia).
  cbn [act]. rewrite Hi. unfold post. rewrite S.
  destruct (IH R A (Endpoint (e_sess x) (e_in x ++ [Flight i (marshalFrame f) (sendSeq (e_sess x) - len (e_in y))])) (Endpoint y' (e_in y)))
    as (x2 & y2 & -> & H1' & H2' & H3' & H4' & H5'); cbn [e_sess e_in]; [done|done| |lia|].
  { rewrite S4, S5, He. by rewrite rots_succ. }
  exists x2, y2. cbn [e_sess e_in] in *. rewrite len_cons. split_and!; try done; [congruence|lia].
Qed.

Lemma schedule_app l l' : forall x y, schedule (l ++ l') x y =
  (let '(x', y', d) := schedule l x y in let '(x2, y2, d') := schedule l' x' y' in (x2, y2, d ++ d')).
Proof.
  induction l as [|z l IH]; intros x y; cbn [schedule app]; [by destruct (schedule l' x y) as [[? ?] ?]|].
  destruct (act z x y) as [[x1 y1] d]. rewrite IH. destruct (schedule l x1 y1) as [[x2 y2] d2].
  destruct (schedule l' x2 y2) as [[x3 y3] d3]. by rewrite app_assoc.
Qed.

(** Two rotations while a frame is on its way lose it: when one end has sealed
    more than twice [rotationInterval] frames before it reads what the other had
    sealed, it has no key for that epoch any more, drops the frame, and nobody is
    told. *)
Theorem slow_frame_lost shared transcript a b i js :
  newSession shared transcript true = Ok a -> newSession shared transcript false = Ok b ->
  item_ok i -> from_a i = true -> Forall (fun j => item_ok j /\ from_a j = false) js ->
  2 * rotationInterval < len js -> len js + 3 < 2 ^ 32 ->
  (schedule (Sends i :: (Sends <$> js) ++ [Reads true]) (Endpoint a []) (Endpoint b [])).2 = [(i, Err ErrBadEpoch)].
Proof.
  intros Ha Hb Hi Fi Hjs Hlong Hn.
  destruct (crossing_new _ _ _ _ 1 Ha Hb) as [R [(Aa & Ab & _ & _ & _ & _ & Hia & Hib & [Hm _] & _) (Ea & Eb & Na & Nb)]];
    [by vm_compute|].
  destruct Hi as (Ht & Hpt & Hrng).
  destruct (seal_spec a R Aa (it_typ i) (it_pt i) (it_rng i) Hia Hpt Hrng) as
    (a' & f & k & mk & S & Ha' & S1 & S2 & S3 & S4 & S5 & F1 & F2 & F3 & F4 & F5 & _ & _ & _ & Hp). specialize (Hp Ht).
  assert (Hse : seal_epoch a = 0) by (rewrite (seal_epoch_step a R Aa Hia); rewrite ?Ea, ?Na; done).
  set (x1 := Endpoint a' []). set (y1 := Endpoint b [Flight i (marshalFrame f) (sendSeq b - 0)]).
  assert (E1 : act (Sends i) (Endpoint a []) (Endpoint b []) = (x1, y1, [])).
  { cbn [act]. rewrite Fi. unfold post. cbn [e_sess]. by rewrite S. }
  destruct (posts_rotate js R Ab x1 y1 Hib Hjs) as (x2 & y2 & E2 & Hi2 & Hsid & Hin & Hseq & Hep).
  { cbn. by rewrite Eb, Nb. } { cbn. rewrite Nb. lia. }
  cbn [schedule]. rewrite E1, schedule_app, E2. cbn [schedule act app]. unfold arrive. rewrite Hin. cbn [y1 e_in fl_buf fl_item].
  assert (Ho : Open (e_sess y2) (marshalFrame f) = (e_sess y2, Err ErrBadEpoch)); [|by rewrite Ho].
  unfold Open. rewrite (si_open _ _ _ Hi2), Hp, decide_False by (intros Hx; apply Hx; rewrite Hsid, F2; cbn; congruence).
  rewrite chainForEpoch_reject; [done|]. rewrite F4, Hse. cbn [y1 e_sess] in Hseq. rewrite Nb in Hseq.
  assert (He : 2 <= epoch (e_sess y2) < 2 ^ 32 - 1).
  { rewrite Hep, Hseq. unfold rots. unfold rotationInterval in *. rewrite decide_False by lia.
    Z.to_euclidean_division_equations. lia. }
  unfold acceptable, next_epoch. rewrite (wrap_small 32 (0 + 1)), wrap_small by (split; lia). lia.
Qed.
End theorems.

(** ** Witnesses *)
Section witnesses.
Import Crypto.Toy Sample.

Definition call : item := Item true TypeChat hello rng.
Definition reply : item := Item false TypePing [] rng.

(** Both speak before either listens. *)
Definition crossed : list action := [Sends call; Sends reply; Sends call; Reads true; Reads false; Sends reply; Reads true].

Lemma crossing_delivers_witness : exists a' b' ds,
  schedule crossed (Endpoint (sess true) []) (Endpoint (sess false) []) = (a', b', ds) /\
  Forall delivered ds /\ read_from true ds = [call; call] /\ fl_item <$> e_in a' = [reply].
Proof.
  assert (Hc1 : item_ok call) by (by vm_compute). assert (Hr1 : item_ok reply) by (by vm_compute).
  assert (Hok : Forall action_ok crossed) by (unfold crossed; rewrite !Forall_cons_iff; by split_and!).
  assert (Hp : prompt crossed (Endpoint (sess true) []) (Endpoint (sess false) []))
    by (vm_compute; repeat split; discriminate).
  pose proof (crossing_delivers shared transcript (sess true) (sess false) crossed (sess_new true) (sess_new false)
    Hok (eq_refl : len crossed + 1 < 2 ^ 32) Hp) as Hc.
  assert (Hr : (fun r => (read_from true r.2, fl_item <$> e_in r.1.1)) (schedule crossed (Endpoint (sess true) []) (Endpoint (sess false) [])) =
    ([call; call], [reply])) by (vm_compute; reflexivity).
  destruct (schedule crossed _ _) as [[a' b'] ds]. cbn [fst snd] in Hr. injection Hr as R1 R2.
  exists a', b', ds. split; [reflexivity|]. split; [apply Hc|]. split; [exact R1|exact R2].
Defined.

Lemma slow_frame_lost_witness :
  (schedule (Sends call :: (Sends <$> replicate 2001 reply) ++ [Reads true])
    (Endpoint (sess true) []) (Endpoint (sess false) [])).2 = [(call, Err ErrBadEpoch)].
Proof.
  apply (slow_frame_lost shared transcript); [apply sess_new|apply sess_new|by vm_compute|reflexivity| | |].
  - apply Forall_replicate. by vm_compute.
  - unfold len. rewrite length_replicate. vm_compute. reflexivity.
  - unfold len. rewrite length_replicate. vm_compute. reflexivity.
Defined.
End witnesses.
