(* ===== verification/Pairing.v ===== *)
(** Pairing confirmation: [src/internal/proto/pairing.go], and the exchange
    [confirmPairing] of [src/internal/session/manager.go] that runs it over an
    established session. *)
From Stdlib Require Import ZArith Lia.
From Stdlib Require Import Strings.Byte.
From stdpp Require Import base list gmap strings numbers option.
From S2P Require Import Prelude Crypto Replay Frame Session SessionProps.

Definition PairConfirmSize : Z := 32.

(** [subtle.ConstantTimeCompare]: unequal lengths compare unequal, otherwise
    the differences of all bytes are accumulated. *)
Definition diff_bits (x y : bytes) : Z :=
  fold_left Z.lor (zip_with (fun a b => Z.lxor (byte_val a) (byte_val b)) x y) 0.

Definition ConstantTimeCompare (x y : bytes) : bool :=
  if decide (len x <> len y) then false else diff_bits x y =? 0.

Section operations.
Context `{CryptoOps}.

Definition PairConfirm (pairingKey transcript : bytes) : res proto_err bytes :=
  if decide (len pairingKey = 0) then Err ErrEmptyPairingKey
  else if decide (len transcript = 0) then Err ErrEmptyTranscript
  else derive pairingKey transcript infoPairConfirm PairConfirmSize.

Definition VerifyPairConfirm (pairingKey transcript got : bytes) : bool :=
  match PairConfirm pairingKey transcript with
  | Ok want => ConstantTimeCompare want got
  | _ => false
  end.

Definition SealPairConfirm (s : Session) (pairingKey transcript rng : bytes) :
  Session * res proto_err bytes :=
  match PairConfirm pairingKey transcript with
  | Ok confirm => Seal s TypePairConfirm confirm rng
  | Err e => (s, Err e)
  | Panic => (s, Panic)
  end.

(** What [RecvBefore] delivers: a frame or a transport error. *)
Inductive arrival := Got (buf : bytes) | RecvError.

Inductive confirm_err := CeProto (e : proto_err) | CeTransport.

(** The receive loop.  The end of the list is the deadline passing. *)
Fixpoint awaitConfirm (s : Session) (pairingKey transcript : bytes) (inbox : list arrival) :
  Session * res confirm_err unit :=
  match inbox with
  | [] => (s, Err (CeProto ErrPairConfirm))
  | RecvError :: _ => (s, Err CeTransport)
  | Got buf :: rest =>
      let '(s1, r) := Open s buf in
      match r with
      | Panic => (s1, Panic)
      | Err _ => (s1, Err (CeProto ErrPairConfirm))
      | Ok (t, pt) =>
          if decide (t <> TypePairConfirm) then awaitConfirm s1 pairingKey transcript rest
          else if VerifyPairConfirm pairingKey transcript pt then (s1, Ok tt)
          else (s1, Err (CeProto ErrPairConfirm))
      end
  end.

(** [confirmPairing] sends its own value first ([sent] says whether the
    transport took it), then waits for the peer's.  It returns the session,
    the frame handed to the transport and the outcome. *)
Definition confirmPairing (s : Session) (pairingKey transcript rng : bytes) (sent : bool)
  (inbox : list arrival) : Session * option bytes * res confirm_err unit :=
  let '(s1, r) := SealPairConfirm s pairingKey transcript rng in
  match r with
  | Err e => (s1, None, Err (CeProto e))
  | Panic => (s1, None, Panic)
  | Ok out =>
      if sent then let '(s2, o) := awaitConfirm s1 pairingKey transcript inbox in (s2, Some out, o)
      else (s1, Some out, Err CeTransport)
  end.
End operations.

(** ** Comparison *)
Lemma lor_fold_zero l : forall acc, Forall (fun z => 0 <= z) l -> 0 <= acc ->
  fold_left Z.lor l acc = 0 <-> acc = 0 /\ Forall (fun z => z = 0) l.
Proof.
  induction l as [|z l IH]; intros acc Hl Ha; cbn [fold_left].
  { split; [intros; split; [done|constructor]|intros [? _]; done]. }
  apply Forall_cons_iff in Hl as [Hz Hl]. rewrite IH; [|done|by apply Z.lor_nonneg].
  rewrite Z.lor_eq_0_iff, Forall_cons_iff. tauto.
Qed.

Lemma zip_xor_zero x : forall y, length x = length y ->
  Forall (fun z => z = 0) (zip_with (fun a b => Z.lxor (byte_val a) (byte_val b)) x y) <-> x = y.
Proof.
  induction x as [|a x IH]; intros [|b y] Hl; try done.
  cbn [zip_with]. rewrite Forall_cons_iff, IH by (cbn in Hl; lia). rewrite Z.lxor_eq_0_iff.
  split; [intros [?%byte_val_inj ?]; congruence|intros [= -> ->]; done].
Qed.

Lemma ConstantTimeCompare_eq x y : ConstantTimeCompare x y = bool_decide (x = y).
Proof.
  unfold ConstantTimeCompare, diff_bits. destruct (decide (len x <> len y)) as [Hl|Hl].
  { symmetry. apply bool_decide_false. by intros ->. }
  assert (Hl' : length x = length y) by (unfold len in Hl; lia). apply eq_true_iff_eq.
  rewrite Z.eqb_eq, bool_decide_eq_true, lor_fold_zero, zip_xor_zero; [tauto|done| |done].
  apply Forall_forall. intros z (a & b & -> & _)%list_elem_of_In%elem_of_zip_with.
  pose proof (byte_val_range a). pose proof (byte_val_range b). apply Z.lxor_nonneg. lia.
Qed.

(** ** The exchange *)
Section exchange.
Context `{CryptoLaws}.

Lemma PairConfirm_ok k tr : len k <> 0 -> len tr <> 0 ->
  exists c, PairConfirm k tr = Ok c /\ len c = PairConfirmSize.
Proof.
  intros Hk Ht. unfold PairConfirm. rewrite !decide_False by done. by apply derive_ok.
Qed.

Lemma Verify_iff k tr got : VerifyPairConfirm k tr got = true <-> PairConfirm k tr = Ok got.
Proof.
  unfold VerifyPairConfirm. destruct (PairConfirm k tr); [|done|done].
  rewrite ConstantTimeCompare_eq, bool_decide_eq_true. split; congruence.
Qed.

Lemma awaitConfirm_sound inbox : forall s R A k tr s',
  session_inv s R A -> awaitConfirm s k tr inbox = (s', Ok tt) ->
  exists f pt, Got (marshalFrame f) ∈ inbox /\ typ f = TypePairConfirm /\
    session f = SessionID s /\ authentic R (negb (initiator s)) f pt /\ PairConfirm k tr = Ok pt.
Proof.
  induction inbox as [|[buf|] rest IH]; intros s R A k tr s' Hinv; cbn [awaitConfirm]; try done.
  destruct (open_cases s R A buf Hinv) as (s1 & A1 & r & -> & Ho & Hinv1 & Hs1 & Hi1 & _).
  destruct Ho as [| | | | |f pt s1 Hp Hs Hacc Hau Hf He]; try done.
  case_decide as Ht.
  - intros (f' & pt' & Hin & H1 & H2 & H3 & H4)%(IH _ _ _ _ _ _ Hinv1).
    exists f', pt'. rewrite <- Hs1, <- Hi1. split; [by right|done].
  - destruct (VerifyPairConfirm k tr pt) eqn:Hv; [|done]. intros _.
    apply parse_iff_aux in Hp as [_ ->]. exists f, pt. split; [by left|].
    split_and!; try done. by apply Verify_iff.
Qed.

Lemma confirm_sound s R A k tr rng sent inbox s' out :
  session_inv s R A -> confirmPairing s k tr rng sent inbox = (s', out, Ok tt) ->
  exists f pt, Got (marshalFrame f) ∈ inbox /\ typ f = TypePairConfirm /\
    session f = SessionID s /\ authentic R (negb (initiator s)) f pt /\ PairConfirm k tr = Ok pt.
Proof.
  intros Hinv. unfold confirmPairing, SealPairConfirm.
  destruct (PairConfirm k tr) as [c| |] eqn:Hc; try done.
  destruct (Seal s TypePairConfirm c rng) as [s1 [o| |]] eqn:Hs; try done.
  destruct sent; [|done]. destruct (awaitConfirm s1 k tr inbox) as [s2 o2] eqn:Ha.
  intros Heq. simplify_eq.
  destruct (Seal_ok_inv _ _ _ _ _ _ (si_open _ _ _ Hinv) Hs) as [Hl Hr].
  destruct (seal_spec s R A TypePairConfirm c rng Hinv Hl Hr) as (a' & f & ? & ? & Hs' & Ha' & S1 & S2 & _).
  rewrite Hs in Hs'. simplify_eq.
  destruct (awaitConfirm_sound _ _ _ _ _ _ _ Ha' Ha) as (g & pt & H1 & H2 & H3 & H4 & H5).
  rewrite Hc in H5. exists g, pt. rewrite <- S1, <- S2. done.
Qed.

(** A pairing is confirmed only by an authenticated frame of this session,
    of type PairConfirm, whose payload is exactly the value derived from the
    local pairing key and transcript: silence, other frames, transport errors
    and wrong values all fail. *)
Theorem confirmPairing_sound s R A k tr rng sent inbox s' out :
  session_inv s R A -> confirmPairing s k tr rng sent inbox = (s', out, Ok tt) ->
  exists f pt, Got (marshalFrame f) ∈ inbox /\ typ f = TypePairConfirm /\
    session f = SessionID s /\ authentic R (negb (initiator s)) f pt /\ PairConfirm k tr = Ok pt.
Proof. apply confirm_sound. Qed.

(** Sealing a confirmation from a fresh session. *)
Lemma awaitConfirm_one a b R Aa Ab k tr c rng :
  session_inv a R Aa -> session_inv b R Ab -> matched b a -> NonceSize <= len rng ->
  PairConfirm k tr = Ok c -> len c = PairConfirmSize ->
  acceptable a (seal_epoch b) -> spec_fresh Aa (sendSeq b) = true ->
  exists b' a' buf, Seal b TypePairConfirm c rng = (b', Ok buf) /\
    awaitConfirm a k tr [Got buf] = (a', Ok tt).
Proof.
  intros Ha Hb Hm Hr Hc Hl Hacc Hf.
  destruct (seal_then_open b a R Ab Aa TypePairConfirm c rng) as (b' & a' & buf & Hs & Ho & _);
    try done. { unfold PairConfirmSize, MaxPlaintext in *. lia. }
  exists b', a', buf. split; [done|]. cbn [awaitConfirm]. rewrite Ho.
  rewrite decide_False by (intros []; done). by rewrite (proj2 (Verify_iff _ _ _) Hc).
Qed.

(** The state a fresh session is in once it has sealed its confirmation. *)
Lemma lockstep_fresh shared tr0 ini a b :
  newSession shared tr0 ini = Ok a -> newSession shared tr0 (negb ini) = Ok b ->
  exists R, session_inv a R ∅ /\ session_inv b R ∅ /\ matched a b /\
    epoch a = 0 /\ epoch b = 0 /\ sendSeq a = 0 /\ sendSeq b = 0.
Proof.
  intros Hna Hnb. assert (Hs : len shared <> 0).
  { unfold newSession, derive, DeriveKey in Hna. destruct (decide (len shared = 0)); done. }
  destruct (newSession_inv shared tr0 ini Hs) as (a' & R & HR & Ha & Hia & I1 & I2 & I3 & sid & Hsid & I4).
  destruct (newSession_inv shared tr0 (negb ini) Hs) as
    (b' & R' & HR' & Hb & Hib & J1 & J2 & J3 & sid' & Hsid' & J4).
  assert (a' = a) as -> by congruence. assert (b' = b) as -> by congruence.
  assert (R' = R) as -> by congruence. assert (sid' = sid) as -> by congruence.
  exists R. unfold matched. split_and!; congruence || done.
Qed.

Lemma seal_fresh s R c rng : session_inv s R ∅ -> sendSeq s = 0 -> epoch s = 0 ->
  len c = PairConfirmSize -> NonceSize <= len rng ->
  exists s' buf, Seal s TypePairConfirm c rng = (s', Ok buf) /\ session_inv s' R ∅ /\
    SessionID s' = SessionID s /\ initiator s' = initiator s /\ epoch s' = 0 /\ sendSeq s' = 1.
Proof.
  intros Hinv Hq He Hl Hr. destruct (seal_spec s R ∅ TypePairConfirm c rng Hinv) as
    (s' & f & ? & ? & Hs & Hi & S1 & S2 & _ & S4 & S5 & _); [unfold PairConfirmSize, MaxPlaintext in *; lia|done|].
  exists s', (marshalFrame f). rewrite S5, Hq. unfold seal_epoch in S4.
  rewrite decide_False in S4 by lia. split_and!; done || congruence.
Qed.

Lemma fresh_empty n : spec_fresh ∅ n = true.
Proof. apply spec_fresh_iff. split; [apply not_elem_of_empty|intros x []%not_elem_of_empty]. Qed.

(** Waiting for the confirmation a fresh session seals: it is accepted, and the
    waiting end has then taken number 0 and nothing else. *)
Lemma await_fresh a b R k tr c rng :
  session_inv a R ∅ -> session_inv b R ∅ -> matched b a -> epoch a = 0 -> epoch b = 0 -> sendSeq b = 0 ->
  NonceSize <= len rng -> PairConfirm k tr = Ok c -> len c = PairConfirmSize ->
  exists b' a' buf, Seal b TypePairConfirm c rng = (b', Ok buf) /\
    awaitConfirm a k tr [Got buf] = (a', Ok tt) /\ session_inv a' R {[0]} /\ matched b' a' /\
    epoch a' = 0 /\ sendSeq a' = sendSeq a.
Proof.
  intros Ha Hb Hm Ea Eb Qb Hr Hc Hl.
  assert (He : seal_epoch b = 0) by (unfold seal_epoch; rewrite decide_False by lia; done).
  destruct (seal_then_open b a R ∅ ∅ TypePairConfirm c rng) as
    (b' & a' & buf & Hs & Ho & _ & Ha' & Hm' & _ & E2 & _ & Q2); try done.
  { unfold PairConfirmSize, MaxPlaintext in *. lia. }
  { left. congruence. }
  exists b', a', buf. rewrite Qb, (right_id_L ∅ (∪)) in Ha'. split; [done|]. split.
  { cbn [awaitConfirm]. rewrite Ho, decide_False by (intros []; done). by rewrite (proj2 (Verify_iff _ _ _) Hc). }
  split_and!; try done. rewrite E2. unfold rolled. rewrite decide_True; congruence.
Qed.

(** Both confirmations cross; each end accepts the other's and the two sessions
    are still in lockstep. *)
Lemma confirm_crossing shared tr0 a b k tr rng_a rng_b n :
  newSession shared tr0 true = Ok a -> newSession shared tr0 false = Ok b ->
  len k <> 0 -> len tr <> 0 -> NonceSize <= len rng_a -> NonceSize <= len rng_b -> n + 1 < 2 ^ 64 ->
  exists a' b' out_a out_b R,
    (forall inbox, exists a1 o, confirmPairing a k tr rng_a true inbox = (a1, Some out_a, o)) /\
    (forall inbox, exists b1 o, confirmPairing b k tr rng_b true inbox = (b1, Some out_b, o)) /\
    confirmPairing a k tr rng_a true [Got out_b] = (a', Some out_a, Ok tt) /\
    confirmPairing b k tr rng_b true [Got out_a] = (b', Some out_b, Ok tt) /\ lockstep R n a' b'.
Proof.
  intros Ha Hb Hk Ht Hra Hrb Hn.
  destruct (lockstep_fresh _ _ true _ _ Ha Hb) as (R & Hia & Hib & Hm & Ea & Eb & Qa & Qb).
  destruct (PairConfirm_ok k tr Hk Ht) as (c & Hc & Hl).
  destruct (seal_fresh a R c rng_a Hia Qa Ea Hl Hra) as (a1 & out_a & Hsa & Hia1 & A1 & A2 & A3 & A4).
  destruct (seal_fresh b R c rng_b Hib Qb Eb Hl Hrb) as (b1 & out_b & Hsb & Hib1 & B1 & B2 & B3 & B4).
  destruct Hm as [M1 M2].
  destruct (await_fresh a1 b R k tr c rng_b) as (b2 & a2 & buf & Hs & Hw & Ia2 & [N1 N2] & F1 & F2); try done.
  { split; [congruence|]. by rewrite A2, M2, negb_involutive. }
  destruct (await_fresh b1 a R k tr c rng_a) as (a3 & b3 & buf' & Hs' & Hw' & Ib3 & [N3 N4] & F3 & F4); try done.
  { split; [congruence|]. by rewrite B2. }
  rewrite Hsb in Hs. rewrite Hsa in Hs'. simplify_eq.
  exists a2, b3, buf', buf, R. unfold confirmPairing, SealPairConfirm. rewrite Hc, Hsa, Hsb, Hw, Hw'.
  split; [|split; [|split_and!; try done]].
  - intros inbox. destruct (awaitConfirm _ _ _ inbox). eauto.
  - intros inbox. destruct (awaitConfirm _ _ _ inbox). eauto.
  - exists {[0]}, {[0]}. split_and!; try done; try congruence; try (intros x ->%elem_of_singleton; lia); try lia.
    split; [congruence|]. by rewrite N2, N4, A2, B2, M2, negb_involutive.
Qed.

(** Two honest ends of one session that hold the same pairing key and
    transcript confirm each other, and go on talking over the session. *)
Theorem pairing_completes shared tr0 a b k tr rng_a rng_b :
  newSession shared tr0 true = Ok a -> newSession shared tr0 false = Ok b ->
  len k <> 0 -> len tr <> 0 -> NonceSize <= len rng_a -> NonceSize <= len rng_b ->
  exists a' b' out_a out_b,
    confirmPairing a k tr rng_a true [Got out_b] = (a', Some out_a, Ok tt) /\
    confirmPairing b k tr rng_b true [Got out_a] = (b', Some out_b, Ok tt) /\
    forall script, Forall item_ok script -> len script + 1 < 2 ^ 64 ->
      converse script a' b' = (fun i => Ok (it_typ i, it_pt i)) <$> script.
Proof.
  intros Ha Hb Hk Ht Hra Hrb.
  destruct (confirm_crossing _ _ _ _ k tr rng_a rng_b (2 ^ 64 - 2) Ha Hb) as
    (a' & b' & out_a & out_b & R & _ & _ & Ca & Cb & Hl); try done.
  exists a', b', out_a, out_b. split_and!; try done. intros script Hok Hn. eapply lockstep_converse; [|done].
  eapply lockstep_le; [|done]. lia.
Qed.

(** What an endpoint without the pairing key can do with the other side's
    confirmation: open it as the session frame it is and send it back. *)
Definition reflect (r : Session) (out rng : bytes) : res proto_err bytes :=
  let '(r1, o) := Open r out in
  match o with
  | Ok (t, pt) => snd (Seal r1 t pt rng)
  | Err e => Err e
  | Panic => Panic
  end.

(** C33: the confirmation is the same in both directions, so it can be
    reflected: for every pairing key, an endpoint [r] that completed the
    handshake with [a] but does not have the key opens the confirmation [a]
    sent and returns it, and [a] accepts the pairing. *)
Theorem confirmation_reflectable shared tr0 ini a r k tr rng rng_r :
  newSession shared tr0 ini = Ok a -> newSession shared tr0 (negb ini) = Ok r ->
  len k <> 0 -> len tr <> 0 -> NonceSize <= len rng -> NonceSize <= len rng_r ->
  exists a' out back, reflect r out rng_r = Ok back /\
    confirmPairing a k tr rng true [Got back] = (a', Some out, Ok tt).
Proof.
  intros Ha Hr Hk Ht Hrng Hrr.
  destruct (lockstep_fresh _ _ ini _ _ Ha Hr) as (R & Hia & Hir & Hm & Ea & Er & Qa & Qr).
  destruct (PairConfirm_ok k tr Hk Ht) as (c & Hc & Hl).
  destruct (seal_then_open a r R ∅ ∅ TypePairConfirm c rng) as
    (a1 & r1 & out & Hs & Ho & Hia1 & Hir1 & Hm1 & E1 & E2 & Q1 & Q2); try done.
  { unfold PairConfirmSize, MaxPlaintext in *. lia. }
  { left. unfold seal_epoch. rewrite decide_False by lia. congruence. }
  assert (E3 : epoch a1 = 0 /\ epoch r1 = 0).
  { rewrite E1, E2. unfold rolled, seal_epoch. rewrite (decide_False (P := _ /\ _)) by lia.
    by rewrite Ea, Er. }
  destruct E3 as [E3 E4]. rewrite Qr in Q2.
  destruct (awaitConfirm_one a1 r1 R ∅ _ k tr c rng_r Hia1 Hir1) as (r2 & a2 & back & Hs2 & Hw);
    [by apply matched_sym|done|done|done| |apply fresh_empty|].
  { left. unfold seal_epoch. rewrite decide_False by lia. congruence. }
  exists a2, out, back. unfold reflect, confirmPairing, SealPairConfirm.
  rewrite Ho, Hs2, Hc, Hs, Hw. done.
Qed.
End exchange.

Section witnesses.
Import Crypto.Toy Sample.
Definition sample_key : bytes := str "pairing key".

Lemma confirmPairing_sound_witness :
  let out := match confirmPairing (sess false) sample_key transcript rng true [] with
             | (_, Some b, _) => b | _ => [] end in
  exists f pt, Got (marshalFrame f) ∈ [Got out] /\ typ f = TypePairConfirm /\
    session f = SessionID (sess true) /\ authentic (root (sess true)) (negb (initiator (sess true))) f pt /\
    PairConfirm sample_key transcript = Ok pt.
Proof.
  intros out. eapply (confirmPairing_sound (sess true) _ ∅ sample_key transcript rng true [Got out]);
    [apply sess_inv|]. vm_compute. reflexivity.
Defined.

Lemma pairing_completes_witness : exists a' b' out_a out_b,
  confirmPairing (sess true) sample_key transcript rng true [Got out_b] = (a', Some out_a, Ok tt) /\
  confirmPairing (sess false) sample_key transcript rng true [Got out_a] = (b', Some out_b, Ok tt) /\
  forall script, Forall item_ok script -> len script + 1 < 2 ^ 64 ->
    converse script a' b' = (fun i => Ok (it_typ i, it_pt i)) <$> script.
Proof. apply (pairing_completes shared transcript); apply sess_new || by vm_compute. Defined.

Lemma confirmation_reflectable_witness : exists a' out back,
  reflect (sess false) out rng = Ok back /\
  confirmPairing (sess true) sample_key transcript rng true [Got back] = (a', Some out, Ok tt).
Proof. apply (confirmation_reflectable shared transcript true); apply sess_new || by vm_compute. Defined.
End witnesses.
