(* ===== verification/Identity.v ===== *)
(** Long-term identities: [src/internal/identity/identity.go].

    Ed25519, SHA-256, PBKDF2 and the JSON codec of the on-disk payload are
    operations of classes, with the behaviour the code relies on as laws. *)
From Stdlib Require Import ZArith Lia.
From Stdlib Require Import Strings.Byte.
From stdpp Require Import base list gmap strings numbers option.
From S2P Require Import Prelude Crypto GoStrings.

(** ** Primitives *)
Class SignatureOps := {
  sha256 : bytes -> bytes;
  (** public half of a 64-byte Ed25519 private key *)
  ed25519_public : bytes -> bytes;
  ed25519_sign : bytes -> bytes -> bytes;            (* private key, message *)
  ed25519_verify : bytes -> bytes -> bytes -> bool   (* public key, message, signature *)
}.

Class SignatureLaws `{SignatureOps} := {
  sha256_len m : len (sha256 m) = 32;
  ed25519_public_len sk : len sk = 64 -> len (ed25519_public sk) = 32;
  ed25519_sign_len sk m : len sk = 64 -> len (ed25519_sign sk m) = 64;
  ed25519_verify_sign sk m : len sk = 64 ->
    ed25519_verify (ed25519_public sk) m (ed25519_sign sk m) = true
}.

Record diskFormat := DiskFormat { df_name : bytes; df_private : bytes; df_public : bytes }.

Class DiskOps := {
  pbkdf2_key : bytes -> bytes -> Z -> Z -> option bytes;  (* passphrase, salt, iterations, length *)
  json_marshal_disk : diskFormat -> option bytes;
  json_unmarshal_disk : bytes -> option diskFormat
}.

Class DiskLaws `{DiskOps} := {
  pbkdf2_key_ok p s i n : 0 < i -> 0 < n -> exists k, pbkdf2_key p s i n = Some k /\ len k = n;
  (** names that are not UTF-8 are rewritten by the encoder; others survive *)
  json_text : bytes -> Prop;
  json_disk_roundtrip d : json_text (df_name d) ->
    exists b, json_marshal_disk d = Some b /\ json_unmarshal_disk b = Some d
}.

Inductive identity_err :=
| IdEmptyName | IdKeyGen | IdCannotSign | IdCannotSave | IdEmptyPassphrase | IdKdf | IdJson
| IdCrypto (e : crypto_err) | IdIO | IdVersion | IdTruncated | IdUnencrypted
| IdPassphraseRequired | IdWrongPassphrase | IdInvalidFile | IdInvalidKey | IdKeyMismatch.

Definition identityFileVersion : byte := x01.
Definition pbkdf2Iterations : Z := 600000.
Definition saltSize : Z := 16.
Definition PrivateKeySize : Z := 64.
Definition PublicKeySize : Z := 32.

Record Identity := mkIdentity {
  Name : bytes;
  priv : option bytes;   (* nil for a peer *)
  pub : bytes
}.

Section operations.
Context `{SignatureOps}.

(** [ed25519.GenerateKey]: the seed comes from the CSPRNG, the private key is
    the seed followed by the public key. *)
Definition Generate (keygen : bytes -> bytes) (name rng : bytes) : res identity_err Identity :=
  if decide (TrimSpace name = []) then Err IdEmptyName
  else match RandomBytes 32 rng with
       | Ok seed => let sk := keygen seed in Ok (mkIdentity name (Some sk) (ed25519_public sk))
       | _ => Err IdKeyGen
       end.

Definition FromPublicKey (name p : bytes) : Identity := mkIdentity name None p.

Definition PublicKey (id : Identity) : bytes := pub id.

Definition HasPrivateKey (id : Identity) : bool := bool_decide (is_Some (priv id)).

Definition FingerprintOf (p : bytes) : bytes :=
  str "SHA256: " ++ join (str ":") (hex2 <$> sha256 p).

Definition Fingerprint (id : Identity) : bytes := FingerprintOf (pub id).

Definition ShortFingerprint (p : bytes) : res identity_err bytes :=
  let sum := sha256 p in
  a ← index sum 0; b ← index sum 1; c ← index sum 2; d ← index sum 3;
  Ok (str "SHA256: " ++ join (str ":") (hex2 <$> [a; b; c; d]) ++ [xe2; x80; xa6]).

(** [ed25519.Sign] panics on a private key of the wrong size. *)
Definition Sign (id : Identity) (msg : bytes) : res identity_err bytes :=
  match priv id with
  | None => Err IdCannotSign
  | Some sk => if decide (len sk = PrivateKeySize) then Ok (ed25519_sign sk msg) else Panic
  end.

(** [ed25519.Verify] panics on a public key of the wrong size. *)
Definition VerifyWith {E} (p msg sig : bytes) : res E bool :=
  if decide (len p = PublicKeySize) then Ok (ed25519_verify p msg sig) else Panic.

Definition Verify {E} (id : Identity) (msg sig : bytes) : res E bool := VerifyWith (pub id) msg sig.

Definition MarshalBinary (id : Identity) : bytes :=
  be_put 2 (wrap 16 (len (Name id))) ++ Name id ++ pub id.
End operations.

(** ** The identity file *)
Definition identityAAD (path : bytes) : bytes := str "heimdall identity v1 " ++ Base path.

(** What the operating system does with the writes of one save.  A failed
    write of the temporary file may leave any content in it. *)
Inductive io_outcome := IoOk | MkdirFails | WriteFails (partial : bytes) | RenameFails.

Definition tmp_of (path : bytes) : bytes := path ++ str ".tmp".

Definition encodeIdentityFile (salt blob : bytes) : bytes :=
  [identityFileVersion; to_byte (len salt)] ++ salt ++ blob.

(** Write-to-temporary-then-rename, as the identity file and the trust store do
    it: the file system afterwards, and whether it succeeded. *)
Definition atomic_write (fs : gmap bytes bytes) (path buf : bytes) (io : io_outcome) :
  gmap bytes bytes * bool :=
  match io with
  | MkdirFails => (fs, false)
  | WriteFails partial => (<[tmp_of path := partial]> fs, false)
  | RenameFails => (<[tmp_of path := buf]> fs, false)
  | IoOk => (<[path := buf]> (delete (tmp_of path) fs), true)
  end.

Definition writeIdentityFile (fs : gmap bytes bytes) (path salt blob : bytes) (io : io_outcome) :
  gmap bytes bytes * res identity_err unit :=
  let '(fs', ok) := atomic_write fs path (encodeIdentityFile salt blob) io in
  (fs', if ok : bool then Ok tt else Err IdIO).

(** The salt is nil when its recorded length is zero. *)
Definition readIdentityFile (fs : gmap bytes bytes) (path : bytes) :
  res identity_err (option bytes * bytes) :=
  match fs !! path with
  | None => Err IdIO
  | Some buf =>
      if decide (len buf < 2) then Err IdVersion
      else
        b0 ← index buf 0;
        if decide (b0 <> identityFileVersion) then Err IdVersion
        else
          b1 ← index buf 1;
          let sl := byte_val b1 in
          if decide (len buf < 2 + sl) then Err IdTruncated
          else if decide (sl = 0) then r ← slice buf 2 (len buf); Ok (None, r)
          else s ← slice buf 2 (2 + sl); r ← slice buf (2 + sl) (len buf); Ok (Some s, r)
  end.

Section files.
Context `{CryptoOps, SignatureOps, DiskOps}.

(** [Save] draws the salt and then the AEAD nonce from the CSPRNG. *)
Definition Save (fs : gmap bytes bytes) (id : Identity) (path passphrase rng : bytes) (io : io_outcome) :
  gmap bytes bytes * res identity_err unit :=
  match priv id with
  | None => (fs, Err IdCannotSave)
  | Some sk =>
    if decide (passphrase = []) then (fs, Err IdEmptyPassphrase)
    else
      let sealed :=
        salt ← map_err IdCrypto (RandomBytes saltSize rng);
        key ← match pbkdf2_key passphrase salt pbkdf2Iterations KeySize with
              | Some k => Ok k | None => Err IdKdf end;
        payload ← match json_marshal_disk (DiskFormat (Name id) sk (pub id)) with
                  | Some p => Ok p | None => Err IdJson end;
        blob ← map_err IdCrypto
                 (Crypto.Seal key (identityAAD path) payload (drop (Z.to_nat saltSize) rng));
        Ok (salt, blob) in
      match sealed with
      | Ok (salt, blob) => writeIdentityFile fs path salt blob io
      | Err e => (fs, Err e)
      | Panic => (fs, Panic)
      end
  end.

Definition SaveInsecure (fs : gmap bytes bytes) (id : Identity) (path : bytes) (io : io_outcome) :
  gmap bytes bytes * res identity_err unit :=
  match priv id with
  | None => (fs, Err IdCannotSave)
  | Some sk =>
    match json_marshal_disk (DiskFormat (Name id) sk (pub id)) with
    | Some payload => writeIdentityFile fs path [] payload io
    | None => (fs, Err IdJson)
    end
  end.

Definition Load (fs : gmap bytes bytes) (path passphrase : bytes) : res identity_err Identity :=
  '(salt, blob) ← readIdentityFile fs path;
  payload ← match salt with
            | None => if decide (passphrase <> []) then Err IdUnencrypted else Ok blob
            | Some s =>
                if decide (passphrase = []) then Err IdPassphraseRequired
                else match pbkdf2_key passphrase s pbkdf2Iterations KeySize with
                     | None => Err IdKdf
                     | Some key => map_err (fun _ => IdWrongPassphrase) (Crypto.Open key (identityAAD path) blob)
                     end
            end;
  match json_unmarshal_disk payload with
  | None => Err IdInvalidFile
  | Some df =>
      if decide (0 < len (df_private df)) then
        if decide (len (df_private df) <> PrivateKeySize \/ len (df_public df) <> PublicKeySize)
        then Err IdInvalidKey
        else if decide (df_public df <> ed25519_public (df_private df)) then Err IdKeyMismatch
        else Ok (mkIdentity (df_name df) (Some (df_private df)) (df_public df))
      else Ok (mkIdentity (df_name df) None (df_public df))
  end.
End files.

(** ** Fingerprints *)
Section fingerprints.
Context `{SignatureLaws}.

Lemma fingerprint_digest p q : FingerprintOf p = FingerprintOf q -> sha256 p = sha256 q.
Proof.
  unfold FingerprintOf. intros H2%app_inv_head. eapply hex_join_inj; [|done].
  pose proof (sha256_len p). pose proof (sha256_len q). unfold len in *. lia.
Qed.

Lemma verify_signed id sk msg : priv id = Some sk -> len sk = PrivateKeySize ->
  pub id = ed25519_public sk ->
  exists sig, Sign id msg = Ok sig /\ len sig = 64 /\ forall E, @VerifyWith _ E (pub id) msg sig = Ok true.
Proof.
  intros Hp Hl Hpub. unfold Sign, VerifyWith. rewrite Hp, decide_True by done.
  eexists. split; [done|]. split; [by apply ed25519_sign_len|]. intros E.
  rewrite Hpub, decide_True by (by apply ed25519_public_len). by rewrite ed25519_verify_sign.
Qed.
End fingerprints.

(** ** Files *)
Lemma tmp_of_ne path : tmp_of path <> path.
Proof. unfold tmp_of. intros H%(f_equal length). rewrite length_app in H. cbn in H. lia. Qed.

Lemma read_written fs path salt blob : len salt < 256 ->
  readIdentityFile (<[path := encodeIdentityFile salt blob]> fs) path =
  Ok (if decide (salt = []) then None else Some salt, blob).
Proof.
  intros Hl. pose proof (len_nonneg salt). pose proof (len_nonneg blob).
  unfold readIdentityFile. rewrite lookup_insert_eq. unfold encodeIdentityFile.
  set (hd := [identityFileVersion; to_byte (len salt)]).
  assert (Hhd : len hd = 2) by done. rewrite !len_app, Hhd. rewrite decide_False by lia.
  change (index (hd ++ salt ++ blob) 0) with (@Ok identity_err _ identityFileVersion).
  change (index (hd ++ salt ++ blob) 1) with (@Ok identity_err _ (to_byte (len salt))).
  step_bind. rewrite decide_False by (intros Hc; by apply Hc).
  rewrite byte_val_to_byte, Z.mod_small by lia. rewrite decide_False by lia.
  destruct (decide (len salt = 0)) as [Hz0|Hz0].
  - apply len_zero_nil in Hz0 as ->. rewrite slice_app_tail by done. by step_bind.
  - rewrite decide_False by (intros ->; done). rewrite (slice_app_mid hd salt blob 2 (2 + len salt)) by lia. step_bind.
    rewrite app_assoc, slice_app_tail by (rewrite ?len_app, Hhd; lia). by step_bind.
Qed.

Lemma atomic_write_spec fs path buf io fs' ok : atomic_write fs path buf io = (fs', ok) ->
  fs' !! path = if ok then Some buf else fs !! path.
Proof.
  pose proof (tmp_of_ne path). unfold atomic_write. destruct io; intros; simplify_eq.
  - by rewrite lookup_insert_eq.
  - done.
  - by rewrite lookup_insert_ne.
  - by rewrite lookup_insert_ne.
Qed.

Lemma write_atomic_aux fs path salt blob io fs' r :
  writeIdentityFile fs path salt blob io = (fs', r) ->
  (r = Ok tt /\ fs' !! path = Some (encodeIdentityFile salt blob)) \/
  (r = Err IdIO /\ fs' !! path = fs !! path).
Proof.
  unfold writeIdentityFile. destruct (atomic_write _ _ _ _) as [fs1 ok] eqn:E.
  apply atomic_write_spec in E. intros [= <- <-]. destruct ok; auto.
Qed.

Section persistence.
Context `{CryptoLaws, SignatureLaws, DiskLaws}.

(** A usable identity: a 64-byte private key and its public half. *)
Definition identity_ok (id : Identity) : Prop :=
  json_text (Name id) /\
  exists sk, priv id = Some sk /\ len sk = PrivateKeySize /\ pub id = ed25519_public sk.

Lemma save_then_load fs id path passphrase rng io fs' r :
  identity_ok id -> passphrase <> [] -> saltSize + NonceSize <= len rng ->
  Save fs id path passphrase rng io = (fs', r) ->
  (r = Ok tt /\ Load fs' path passphrase = Ok id) \/ (r = Err IdIO /\ fs' !! path = fs !! path).
Proof.
  intros (Hn & sk & Hp & Hl & Hpub) Hpass Hr. unfold Save, saltSize, NonceSize in *. rewrite Hp.
  rewrite decide_False by done.
  destruct (RandomBytes_ok 16 rng) as [-> Hsl]; [lia|]. step_bind.
  destruct (pbkdf2_key_ok passphrase (take (Z.to_nat 16) rng) pbkdf2Iterations KeySize) as (k & Hk & Hkl);
    [done|done|]. rewrite Hk. step_bind.
  destruct (json_disk_roundtrip (DiskFormat (Name id) sk (pub id)) Hn) as (b & -> & Hb). step_bind.
  destruct (Seal_ok k (identityAAD path) b (drop (Z.to_nat 16) rng) Hkl) as (nonce & Hseal & Hnl).
  { rewrite len_drop by lia. unfold NonceSize. lia. }
  rewrite Hseal. step_bind. pose proof (Open_Seal _ _ _ _ _ Hseal) as Ho.
  set (salt := take (Z.to_nat 16) rng) in *. set (blob := nonce ++ _) in *. intros Hw.
  destruct (write_atomic_aux _ _ _ _ _ _ _ Hw) as [[-> Hf]|?]; [left|by right]. split; [done|].
  unfold Load. rewrite <- (insert_id fs' path _ Hf), read_written by lia.
  rewrite decide_False by (intros Hz; rewrite Hz in Hsl; done). step_bind.
  rewrite decide_False by done. rewrite Hk, Ho. step_bind. rewrite Hb. cbn.
  unfold PrivateKeySize, PublicKeySize in *. rewrite decide_True by lia.
  rewrite decide_False by (rewrite Hpub, ed25519_public_len; [lia|done]).
  rewrite decide_False by (intros Hc; by apply Hc). destruct id. cbn in *. congruence.
Qed.

(** [Save] replaces the identity file or leaves it as it was, and what it
    wrote [Load] returns, under the same passphrase: the whole identity, private
    key included. *)
Theorem save_load fs id path passphrase rng io fs' r :
  identity_ok id -> passphrase <> [] -> saltSize + NonceSize <= len rng ->
  Save fs id path passphrase rng io = (fs', r) ->
  (r = Ok tt /\ Load fs' path passphrase = Ok id) \/ (r = Err IdIO /\ fs' !! path = fs !! path).
Proof. apply save_then_load. Qed.
End persistence.

Lemma hex_join_len sep l : len (join sep (hex2 <$> l)) = len l * 2 + (len l - 1) `max` 0 * len sep.
Proof.
  induction l as [|a l IH]; [done|]. destruct l as [|b l]; [done|].
  cbn [fmap list_fmap] in *. rewrite join_cons, !len_app, IH, !len_cons.
  pose proof (len_nonneg l). change (len (hex2 a)) with 2. nia.
Qed.

(** A fingerprint is 103 characters that render the whole digest: two keys
    have the same fingerprint exactly when their SHA-256 digests are equal. *)
Theorem fingerprint_faithful `{SignatureLaws} p q :
  len (FingerprintOf p) = 103 /\ (FingerprintOf p = FingerprintOf q <-> sha256 p = sha256 q).
Proof.
  split.
  - unfold FingerprintOf. rewrite len_app, hex_join_len, sha256_len. done.
  - split; [apply fingerprint_digest|]. unfold FingerprintOf. by intros ->.
Qed.

(** ** A concrete instance *)
Module ToyId.
Import Crypto.Toy.

Definition hash (m : bytes) : bytes := be_put 32 (mix m).
Definition public (sk : bytes) : bytes := hash (str "pk" ++ sk).
Definition sign (sk m : bytes) : bytes := be_put 64 (mix (joined [public sk; m])).
Definition verify (pk m sig : bytes) : bool :=
  bool_decide (sig = be_put 64 (mix (joined [pk; m]))).

#[export] Instance ops : SignatureOps :=
  {| sha256 := hash; ed25519_public := public; ed25519_sign := sign; ed25519_verify := verify |}.

#[export] Instance laws : SignatureLaws.
Proof.
  split; intros; cbn.
  - apply len_be_put.
  - apply len_be_put.
  - apply len_be_put.
  - by apply bool_decide_true.
Qed.

(** The codec writes each field as marked bytes up to a terminator. *)
Definition put_field (p : bytes) : bytes := (p ≫= fun b => [x01; b]) ++ [x00].

Fixpoint get_field (b : bytes) : option (bytes * bytes) :=
  match b with
  | x00 :: rest => Some ([], rest)
  | x01 :: c :: rest => '(p, r) ← get_field rest; Some (c :: p, r)
  | _ => None
  end.

Definition marshal (d : diskFormat) : option bytes :=
  Some (put_field (df_name d) ++ put_field (df_private d) ++ put_field (df_public d)).

Definition unmarshal (b : bytes) : option diskFormat :=
  '(n, b1) ← get_field b; '(s, b2) ← get_field b1; '(p, _) ← get_field b2; Some (DiskFormat n s p).

Lemma get_put_field p rest : get_field (put_field p ++ rest) = Some (p, rest).
Proof.
  induction p as [|b p IH]; [done|]. change (put_field (b :: p)) with (x01 :: b :: put_field p).
  cbn [app get_field]. by rewrite IH.
Qed.

#[export] Instance disk : DiskOps :=
  {| pbkdf2_key := fun p s _ n => Some (be_put (Z.to_nat n) (mix (joined [p; s])));
     json_marshal_disk := marshal; json_unmarshal_disk := unmarshal |}.

#[export] Instance disk_laws : DiskLaws.
Proof.
  refine (Build_DiskLaws _ _ (fun _ => True) _).
  - intros. eexists. split; [done|]. rewrite len_be_put. lia.
  - intros [n s p] _. eexists. split; [done|]. unfold json_unmarshal_disk, disk, unmarshal.
    cbn [df_name df_private df_public].
    rewrite get_put_field. cbn [mbind option_bind]. rewrite get_put_field. cbn [mbind option_bind].
    by rewrite <- (app_nil_r (put_field p)), get_put_field.
Defined.

Definition secret : bytes := replicate 64 x07.
Definition alice : Identity := mkIdentity (str "alice") (Some secret) (public secret).
Definition rng : bytes := replicate 40 x2a.
End ToyId.
Import Crypto.Toy ToyId.

Lemma save_load_witness :
  let path := str "/home/a/identity.hmdl" in
  let '(fs, r) := Save ∅ ToyId.alice path (str "pass") ToyId.rng IoOk in
  (r = Ok tt /\ Load fs path (str "pass") = Ok ToyId.alice) \/
  (r = Err IdIO /\ fs !! path = (∅ : gmap bytes bytes) !! path).
Proof.
  cbv zeta. destruct (Save _ _ _ _ _ _) as [fs r] eqn:E.
  refine (save_load _ _ _ _ _ _ _ _ _ _ _ E); [|done|done].
  split; [exact I|]. exists ToyId.secret. done.
Defined.


Lemma fingerprint_faithful_witness :
  len (FingerprintOf secret) = 103 /\
  (FingerprintOf secret = FingerprintOf (str "k") <-> sha256 secret = sha256 (str "k")).
Proof. apply (fingerprint_faithful secret (str "k")). Defined.
