(* ===== verification/Handshake.v ===== *)
(** The handshake: [src/internal/proto/handshake.go].

    X25519 is an operation of the class [DHOps]; [DHLaws] states that two honest
    key pairs agree on one secret.  A [Handshaker] is the Go struct, and
    [HandleMessage] returns the state it leaves behind with its outcome. *)
From Stdlib Require Import ZArith Lia.
From Stdlib Require Import Strings.Byte.
From stdpp Require Import base list gmap strings numbers option.
From S2P Require Import Prelude Crypto GoStrings Identity Replay Frame Session SessionProps.
Open Scope go_scope.

Class DHOps := {
  x25519_public : bytes -> bytes;
  (** [None] is the all-zero result of a low-order point *)
  x25519 : bytes -> bytes -> option bytes
}.

Class DHLaws `{DHOps} := {
  x25519_public_len k : len k = 32 -> len (x25519_public k) = 32;
  x25519_len k p s : x25519 k p = Some s -> len s = 32;
  x25519_agree a b : len a = 32 -> len b = 32 ->
    exists s, x25519 a (x25519_public b) = Some s /\ x25519 b (x25519_public a) = Some s
}.

Definition handshakeDomain : bytes := str "heimdall v1 handshake".
Definition hsTypeInit : byte := x01.
Definition hsTypeAuth : byte := x02.
Definition maxHsSize : Z := 4096.
Definition maxPeerName : Z := 64.

Record HandshakeResult := mkResult {
  hr_session : Session;
  PeerName : bytes;
  PeerKey : bytes;
  PeerFingerprint : bytes;
  Transcript : bytes
}.

Record Handshaker := mkHandshaker {
  hs_id : Identity;
  hs_initiator : bool;
  hs_eph : option bytes;
  hs_ephPub : bytes;
  hs_peerEph : bytes;
  hs_transcript : option bytes;
  hs_shared : option bytes;
  hs_done : bool
}.

(** ** Wire encoding *)
Definition parseInit (msg : bytes) : res proto_err bytes :=
  if decide (len msg < 3) then Err (ErrHandshake BadInitMessage)
  else
    t ← index msg 0;
    if decide (t <> hsTypeInit) then Err (ErrHandshake BadInitMessage)
    else
      l ← slice msg 1 3;
      let n := be_get l in
      if decide (n <> 32 \/ len msg <> 3 + n) then Err (ErrHandshake BadInitLength)
      else slice msg 3 (len msg).

Definition marshalAuth (ephPub blob : bytes) : bytes :=
  [hsTypeAuth] ++ ephPub ++ be_put 4 (wrap 32 (len blob)) ++ blob.

Definition parseAuth (msg : bytes) : res proto_err (bytes * bytes) :=
  if decide (len msg < 1 + 32 + 4) then Err (ErrHandshake BadAuthMessage)
  else
    t ← index msg 0;
    if decide (t <> hsTypeAuth) then Err (ErrHandshake BadAuthMessage)
    else
      ephPub ← slice msg 1 (1 + 32);
      l ← slice msg (1 + 32) (1 + 32 + 4);
      let n := be_get l in
      if decide (n <= 0 \/ len msg <> 1 + 32 + 4 + n) then Err (ErrHandshake BadAuthLength)
      else b ← slice msg (1 + 32 + 4) (len msg); Ok (ephPub, b).

Definition marshalAuthPlain (p name sig : bytes) : bytes :=
  p ++ be_put 2 (wrap 16 (len name)) ++ name ++ sig.

Definition parseAuthPlain (b : bytes) : res proto_err (bytes * bytes * bytes) :=
  if decide (len b < 32 + 2 + 64) then Err (ErrHandshake AuthPayloadTooShort)
  else
    p ← slice b 0 32;
    l ← slice b 32 34;
    let nl := be_get l in
    if decide (nl <= 0 \/ maxPeerName < nl \/ len b <> 34 + nl + 64)
    then Err (ErrHandshake BadNameLength)
    else
      name ← slice b 34 (34 + nl);
      sig ← slice b (34 + nl) (len b);
      Ok (p, name, sig).

Definition hsAAD : bytes := str "heimdall v1 hs aad".

Section operations.
Context `{CryptoOps, SignatureOps, DHOps}.

Definition NewHandshaker (id : Identity) (ini : bool) (rng : bytes) : res proto_err Handshaker :=
  if HasPrivateKey id then
    eph ← map_err (fun _ => ErrEphemeralKey) (RandomBytes 32 rng);
    Ok (mkHandshaker id ini (Some eph) (x25519_public eph) [] None None false)
  else Err ErrNoPrivateKey.

Definition InitMessage (h : Handshaker) : res proto_err bytes :=
  if hs_initiator h
  then Ok ([hsTypeInit] ++ be_put 2 (wrap 16 (len (hs_ephPub h))) ++ hs_ephPub h)
  else Err ErrNotInitiator.

(** [ecdh.X25519().NewPublicKey] refuses any length but 32. *)
Definition deriveShared (h : Handshaker) : res proto_err Handshaker :=
  if decide (len (hs_peerEph h) <> 32) then Err (ErrHandshake BadPeerEphemeral)
  else
    k ← deref (hs_eph h);
    match x25519 k (hs_peerEph h) with
    | None => Err (ErrHandshake KeyAgreementFailed)
    | Some s => Ok (mkHandshaker (hs_id h) (hs_initiator h) (hs_eph h) (hs_ephPub h) (hs_peerEph h)
                      (hs_transcript h) (Some s) (hs_done h))
    end.

Definition sealAuth (h : Handshaker) (info rng : bytes) : res proto_err bytes :=
  k ← derive (default [] (hs_shared h)) (default [] (hs_transcript h)) info KeySize;
  sig ← map_err (fun _ => ErrCannotSign) (Sign (hs_id h) (default [] (hs_transcript h)));
  let plain := marshalAuthPlain (PublicKey (hs_id h)) (Name (hs_id h)) sig in
  map_err ErrCrypto (Crypto.Seal k hsAAD plain rng).

Definition openAuth (h : Handshaker) (blob info : bytes) : res proto_err (bytes * bytes * bytes) :=
  k ← derive (default [] (hs_shared h)) (default [] (hs_transcript h)) info KeySize;
  plain ← map_err (fun _ => ErrHandshake AuthOpenFailed) (Crypto.Open k hsAAD blob);
  parseAuthPlain plain.

Definition finish (h : Handshaker) : Handshaker :=
  mkHandshaker (hs_id h) (hs_initiator h) None (hs_ephPub h) (hs_peerEph h) (hs_transcript h) None true.

Definition set_peer (h : Handshaker) (peer transcript : bytes) : Handshaker :=
  mkHandshaker (hs_id h) (hs_initiator h) (hs_eph h) (hs_ephPub h) peer (Some transcript)
    (hs_shared h) (hs_done h).

Definition hs_step : Type := Handshaker * res proto_err (option bytes * option HandshakeResult).

Definition handleInit (h : Handshaker) (msg rng : bytes) : hs_step :=
  try[h] peer := parseInit msg;
  let h1 := set_peer h peer (transcriptHash sha256 [handshakeDomain; peer; hs_ephPub h]) in
  try[h1] h2 := deriveShared h1;
  try[h2] blob := sealAuth h2 infoHS2 rng;
  (h2, Ok (Some (marshalAuth (hs_ephPub h2) blob), None)).

(** The checks both sides make on the other's authentication payload. *)
Definition checkPeer (h : Handshaker) (blob info : bytes) : res proto_err (bytes * bytes) :=
  '(p, name, sig) ← openAuth h blob info;
  ok ← VerifyWith p (default [] (hs_transcript h)) sig;
  if negb ok then Err ErrBadSignature
  else if decide (p = PublicKey (hs_id h)) then Err ErrSelfConnection
  else Ok (p, name).

Definition result_of (h : Handshaker) (sess : Session) (p name : bytes) : HandshakeResult :=
  mkResult sess name p (FingerprintOf p) (default [] (hs_transcript h)).

Definition handleAuthInitiator (h : Handshaker) (msg rng : bytes) : hs_step :=
  try[h] (ephB, blob) := parseAuth msg;
  let h1 := set_peer h ephB (transcriptHash sha256 [handshakeDomain; hs_ephPub h; ephB]) in
  try[h1] h2 := deriveShared h1;
  try[h2] (p, name) := checkPeer h2 blob infoHS2;
  try[h2] msg3blob := sealAuth h2 infoHS3 rng;
  let msg3 := marshalAuth (hs_ephPub h2) msg3blob in
  try[h2] sess := newSession (default [] (hs_shared h2)) (default [] (hs_transcript h2)) true;
  (finish h2, Ok (Some msg3, Some (result_of h2 sess p name))).

Definition handleAuthResponder (h : Handshaker) (msg : bytes) : hs_step :=
  match hs_transcript h with
  | None => (h, Err (ErrHandshake AuthBeforeInit))
  | Some transcript =>
      try[h] (_, blob) := parseAuth msg;
      try[h] (p, name) := checkPeer h blob infoHS3;
      try[h] sess := newSession (default [] (hs_shared h)) transcript false;
      (finish h, Ok (None, Some (result_of h sess p name)))
  end.

Definition HandleMessage (h : Handshaker) (msg rng : bytes) : hs_step :=
  if hs_done h then (h, Err (ErrHandshake AlreadyComplete))
  else if decide (len msg = 0 \/ maxHsSize < len msg) then (h, Err (ErrHandshake BadMessageSize))
  else
    try[h] t := index msg 0;
    if negb (hs_initiator h) && bool_decide (t = hsTypeInit) && bool_decide (hs_transcript h = None)
    then handleInit h msg rng
    else if decide (t = hsTypeAuth) then
      if hs_initiator h then handleAuthInitiator h msg rng else handleAuthResponder h msg
    else (h, Err (ErrHandshake (UnexpectedType t))).
End operations.

(** ** Parsers and encoders *)
Lemma parseInit_spec msg e :
  parseInit msg = Ok e <-> len e = 32 /\ msg = [hsTypeInit] ++ be_put 2 32 ++ e.
Proof.
  unfold parseInit. split.
  - destruct (decide (len msg < 3)); [done|].
    destruct (split_at msg 1) as (t & r & -> & Ht & Hr); [lia|].
    destruct (split_at r 2) as (l & b & -> & Hl & Hb); [lia|].
    apply len_one in Ht as Ht'. destruct Ht' as [ty ->].
    change (index _ 0) with (@Ok proto_err _ ty). step_bind.
    destruct (decide (ty <> hsTypeInit)) as [|Hty%dec_stable]; [done|]. subst ty.
    rewrite (slice_app_mid _ l _ 1 3) by (rewrite ?Hl; done). step_bind. case_decide as Hn; [done|].
    rewrite app_assoc, slice_app_tail; [|rewrite len_app; change (len [hsTypeInit]) with 1; lia|by rewrite len_app].
    intros [= <-]. rewrite !len_app in *. split; [lia|].
    rewrite <- app_assoc. do 2 f_equal. rewrite <- (be_put_get_len 2 l) by done. f_equal. lia.
  - intros [He ->]. rewrite !len_app, len_be_put, He. step_bind.
    change (index _ 0) with (@Ok proto_err _ hsTypeInit).
    rewrite decide_False by done. step_bind. rewrite decide_False by (intros Hc; by apply Hc).
    rewrite (slice_app_mid _ (be_put 2 32) _ 1 3) by (rewrite ?len_be_put; done). step_bind.
    rewrite be_get_put_small by done. rewrite decide_False by (change (len [hsTypeInit]) with 1; lia).
    rewrite app_assoc. apply slice_app_tail; rewrite len_app, len_be_put, ?He; done.
Qed.

Lemma parseAuth_spec msg e b :
  parseAuth msg = Ok (e, b) <-> len e = 32 /\ 0 < len b < 2 ^ 32 /\ msg = marshalAuth e b.
Proof.
  unfold parseAuth, marshalAuth. split.
  - destruct (decide (len msg < 1 + 32 + 4)); [done|].
    destruct (split_at msg 1) as (t & r & -> & Ht & Hr); [lia|].
    destruct (split_at r 32) as (e' & r' & -> & He & Hr'); [lia|].
    destruct (split_at r' 4) as (l & b' & -> & Hl & Hb); [lia|].
    apply len_one in Ht as Ht'. destruct Ht' as [ty ->].
    change (index _ 0) with (@Ok proto_err _ ty). step_bind.
    destruct (decide (ty <> hsTypeAuth)) as [|Hty%dec_stable]; [done|]. subst ty.
    rewrite (slice_app_mid [hsTypeAuth] e' _ 1 33) by (rewrite ?He; done). step_bind.
    rewrite (app_assoc _ e'), (slice_app_mid _ l _ 33 37) by (rewrite ?len_app, He, ?Hl; done). step_bind.
    case_decide as Hn; [done|].
    rewrite app_assoc, slice_app_tail; [|rewrite !len_app, He, Hl; done|by rewrite !len_app].
    intros [= <- <-]. rewrite !len_app in *. pose proof (be_get_range l) as Hlr. rewrite Hl in Hlr.
    split; [done|]. assert (Hbl : len b' = be_get l) by lia. split; [lia|].
    rewrite <- !app_assoc. do 2 f_equal. rewrite wrap_small by (rewrite Hbl; done).
    by rewrite Hbl, be_put_get_len.
  - intros (He & Hb & ->). rewrite wrap_small by (split; lia).
    rewrite !len_app, len_be_put, He. change (len [hsTypeAuth]) with 1. rewrite decide_False by lia.
    change (index _ 0) with (@Ok proto_err _ hsTypeAuth). step_bind.
    rewrite decide_False by (intros Hc; by apply Hc).
    rewrite (slice_app_mid [hsTypeAuth] e _ 1 33) by (rewrite ?He; done). step_bind.
    rewrite (app_assoc _ e), (slice_app_mid _ (be_put 4 _) _ 33 37) by (rewrite ?len_app, He, ?len_be_put; done).
    step_bind. rewrite be_get_put_small by (cbn; lia). rewrite decide_False by lia.
    rewrite app_assoc, slice_app_tail; [done|rewrite !len_app, He, len_be_put; done|].
    rewrite !len_app, len_be_put, He. change (len [hsTypeAuth]) with 1. lia.
Qed.

Lemma parseAuthPlain_spec b p name sig :
  parseAuthPlain b = Ok (p, name, sig) <->
  len p = 32 /\ 0 < len name <= maxPeerName /\ len sig = 64 /\ b = marshalAuthPlain p name sig.
Proof.
  unfold parseAuthPlain, marshalAuthPlain, maxPeerName. split.
  - destruct (decide (len b < 32 + 2 + 64)); [done|].
    destruct (split_at b 32) as (p' & r & -> & Hp & Hr); [lia|].
    destruct (split_at r 2) as (l & r' & -> & Hl & Hr'); [lia|].
    rewrite (slice_app_head _ _ 32) by done. step_bind.
    rewrite (slice_app_mid p' l _ 32 34) by (rewrite Hp, ?Hl; done). step_bind. case_decide as Hn; [done|].
    pose proof (be_get_range l) as Hlr. rewrite !len_app in *.
    destruct (split_at r' (be_get l)) as (n' & s' & -> & Hn' & Hs'); [lia|]. rewrite !len_app in *.
    rewrite (app_assoc p'), (slice_app_mid _ n' _ 34) by (rewrite len_app, Hp, Hl, ?Hn'; done). step_bind.
    rewrite (app_assoc _ n'), slice_app_tail by (rewrite !len_app, Hp, Hl, Hn'; lia).
    intros [= <- <- <-]. split_and!; try lia. rewrite <- !app_assoc. f_equal.
    rewrite wrap_small, Hn' by (split; lia). by rewrite be_put_get_len.
  - intros (Hp & Hn & Hs & ->). rewrite wrap_small by (split; lia).
    rewrite !len_app, len_be_put, Hp, Hs. rewrite decide_False by lia.
    rewrite (slice_app_head _ _ 32) by done. step_bind.
    rewrite (slice_app_mid p (be_put 2 _) _ 32 34) by (rewrite Hp, ?len_be_put; done). step_bind.
    rewrite be_get_put_small by (split; lia). rewrite decide_False by lia.
    rewrite (app_assoc p), (slice_app_mid _ name _ 34) by (rewrite len_app, len_be_put, Hp; done). step_bind.
    by rewrite (app_assoc _ name), slice_app_tail by (rewrite !len_app, Hp, len_be_put, ?Hs; lia).
Qed.

Lemma hs_parsers_no_panic msg :
  parseInit msg <> Panic /\ parseAuth msg <> Panic /\ parseAuthPlain msg <> Panic.
Proof.
  split_and!.
  - unfold parseInit. case_decide; [done|].
    destruct (@index_in proto_err _ msg 0) as (t & -> & _); [lia|]. step_bind. case_decide; [done|].
    rewrite (slice_in _ 1 3) by lia. step_bind. case_decide; [done|]. apply slice_no_panic; lia.
  - unfold parseAuth. case_decide; [done|].
    destruct (@index_in proto_err _ msg 0) as (t & -> & _); [lia|]. step_bind. case_decide; [done|].
    rewrite !slice_in by lia. step_bind. case_decide; [done|]. done.
  - unfold parseAuthPlain. case_decide; [done|].
    rewrite (slice_in _ 0 32), (slice_in _ 32 34) by lia. step_bind. case_decide; [done|].
    rewrite !slice_in by lia. done.
Qed.

(** ** What a handshake result means *)
Section handshake.
Context `{CryptoLaws, SignatureLaws, DHLaws}.

(** An identity that can sign. *)
Definition keyed (id : Identity) : Prop :=
  exists sk, priv id = Some sk /\ len sk = PrivateKeySize /\ pub id = ed25519_public sk.

(** The transcript of a handshake, as each side computes it from its own
    ephemeral key and the one it received. *)
Definition transcript_of (ini : bool) (own peer : bytes) : bytes :=
  transcriptHash sha256 [handshakeDomain; if ini then own else peer; if ini then peer else own].

Record hs_inv (h : Handshaker) : Prop := {
  hi_id : keyed (hs_id h);
  hi_pub : len (hs_ephPub h) = 32;
  hi_eph : hs_done h = false ->
    exists k, hs_eph h = Some k /\ len k = 32 /\ hs_ephPub h = x25519_public k;
  hi_done : hs_done h = true -> hs_eph h = None /\ hs_shared h = None;
  hi_fresh : hs_transcript h = None -> hs_shared h = None;
  hi_shared s : hs_shared h = Some s -> len s = 32;
  hi_transcript t : hs_transcript h = Some t ->
    t = transcript_of (hs_initiator h) (hs_ephPub h) (hs_peerEph h);
  hi_responder s : hs_initiator h = false -> hs_shared h = Some s ->
    exists k, hs_eph h = Some k /\ x25519 k (hs_peerEph h) = Some s
}.

(** A result is authentic for a message: the peer key signed the transcript of
    this handshake, inside an encryption under the key agreed with the owner of
    the other ephemeral key, and the session is built from that agreement. *)
Definition authenticated (h : Handshaker) (msg : bytes) (r : HandshakeResult) : Prop :=
  exists k peer shared key e blob sig,
    hs_eph h = Some k /\ x25519 k peer = Some shared /\
    Transcript r = transcript_of (hs_initiator h) (hs_ephPub h) peer /\
    derive shared (Transcript r) (if hs_initiator h then infoHS2 else infoHS3) KeySize = Ok key /\
    parseAuth msg = Ok (e, blob) /\
    Crypto.Open key hsAAD blob = Ok (marshalAuthPlain (PeerKey r) (PeerName r) sig) /\
    ed25519_verify (PeerKey r) (Transcript r) sig = true /\
    PeerKey r <> pub (hs_id h) /\ PeerFingerprint r = FingerprintOf (PeerKey r) /\
    0 < len (PeerName r) <= maxPeerName /\
    newSession shared (Transcript r) (hs_initiator h) = Ok (hr_session r).

Lemma checkPeer_ok h blob info p name :
  checkPeer h blob info = Ok (p, name) <->
  exists key sig, derive (default [] (hs_shared h)) (default [] (hs_transcript h)) info KeySize = Ok key /\
    Crypto.Open key hsAAD blob = Ok (marshalAuthPlain p name sig) /\
    len p = 32 /\ 0 < len name <= maxPeerName /\ len sig = 64 /\
    ed25519_verify p (default [] (hs_transcript h)) sig = true /\ p <> pub (hs_id h).
Proof.
  unfold checkPeer, openAuth, VerifyWith, PublicKeySize, PublicKey. split.
  - destruct (derive _ _ _ _) as [key| |]; try done. step_bind.
    destruct (Crypto.Open _ _ _) as [plain| |] eqn:Ho; try done. step_bind.
    destruct (parseAuthPlain plain) as [[[p' n'] sig]| |] eqn:Hp; try done. step_bind.
    apply parseAuthPlain_spec in Hp as (Hpl & Hnl & Hsl & ->). rewrite (decide_True (P := len p' = 32)) by done. step_bind.
    destruct (ed25519_verify _ _ _) eqn:Hv; [|done]. cbn [negb]. case_decide; [done|].
    intros [= -> ->]. eexists _, _. done.
  - intros (key & sig & -> & Ho & Hpl & Hnl & Hsl & Hv & Hne). step_bind. rewrite Ho. step_bind.
    rewrite (proj2 (parseAuthPlain_spec _ p name sig)) by done. step_bind.
    rewrite (decide_True (P := len p = 32)) by done. step_bind. rewrite Hv. cbn [negb]. by rewrite decide_False.
Qed.

Lemma derive_no_panic secret salt info n : derive secret salt info n <> Panic.
Proof. unfold derive, DeriveKey. case_decide; [done|]. by destruct (hkdf_key _ _ _ _). Qed.

Lemma checkPeer_no_panic h blob info : checkPeer h blob info <> Panic.
Proof.
  unfold checkPeer, openAuth. rewrite bind_assoc. apply bind_no_panic; [apply derive_no_panic|].
  intros key _. rewrite bind_assoc. pose proof (Open_no_panic key hsAAD blob).
  destruct (Crypto.Open _ _ _) as [plain| |]; try done. step_bind.
  pose proof (hs_parsers_no_panic plain) as (_ & _ & Hp).
  destruct (parseAuthPlain plain) as [[[p n] sig]| |] eqn:E; try done. step_bind.
  apply parseAuthPlain_spec in E as (Hl & _). unfold VerifyWith, PublicKeySize.
  rewrite (decide_True (P := len p = 32)) by done. step_bind. destruct (ed25519_verify _ _ _); [|done].
  cbn [negb]. by case_decide.
Qed.

Lemma sealAuth_no_panic h info rng : keyed (hs_id h) -> sealAuth h info rng <> Panic.
Proof.
  intros (sk & Hp & Hl & _). unfold sealAuth. apply bind_no_panic; [apply derive_no_panic|].
  intros k _. unfold Sign. rewrite Hp, decide_True by done. step_bind.
  unfold Crypto.Seal, aead, RandomBytes. repeat case_decide; done.
Qed.

Lemma newSession_no_panic shared tr ini : newSession shared tr ini <> Panic.
Proof.
  destruct (decide (len shared = 0)) as [Hz|Hz].
  - unfold newSession, derive, DeriveKey. by rewrite decide_True.
  - destruct (newSession_inv shared tr ini Hz) as (s & R & _ & -> & _). done.
Qed.

Lemma deriveShared_ok h h2 : deriveShared h = Ok h2 ->
  exists k s, hs_eph h = Some k /\ x25519 k (hs_peerEph h) = Some s /\
    h2 = mkHandshaker (hs_id h) (hs_initiator h) (hs_eph h) (hs_ephPub h) (hs_peerEph h)
           (hs_transcript h) (Some s) (hs_done h).
Proof.
  unfold deriveShared. case_decide; [done|]. destruct (hs_eph h) as [k|] eqn:Ek; [|done].
  cbn [deref]. step_bind. destruct (x25519 k _) as [s|] eqn:Es; [|done]. intros [= <-]. eauto.
Qed.

Lemma deriveShared_no_panic h : is_Some (hs_eph h) -> deriveShared h <> Panic.
Proof.
  intros [k Hk]. unfold deriveShared. case_decide; [done|]. rewrite Hk. cbn [deref]. step_bind.
  by destruct (x25519 _ _).
Qed.

Lemma deriveShared_inv h h2 : hs_inv h -> hs_done h = false -> is_Some (hs_transcript h) ->
  deriveShared h = Ok h2 -> hs_inv h2.
Proof.
  intros [] Hd [t Ht] (k & s & Hk & Hs & ->)%deriveShared_ok. split; cbn; try done.
  - by rewrite Hd.
  - by rewrite Ht.
  - intros s' [= ->]. by eapply x25519_len.
  - intros s' _ [= ->]. eauto.
Qed.

Lemma set_peer_inv h peer : hs_inv h -> hs_done h = false ->
  (hs_initiator h = false -> hs_transcript h = None) ->
  hs_inv (set_peer h peer (transcript_of (hs_initiator h) (hs_ephPub h) peer)).
Proof.
  intros [] Hd Hr. split; cbn; try done.
  - by intros t [= <-].
  - intros s Hi Hs. rewrite hi_fresh0 in Hs by auto. done.
Qed.

Lemma finish_inv h : hs_inv h -> hs_inv (finish h).
Proof. intros []. split; cbn; done. Qed.

(** What every step of the handshake guarantees. *)
Definition step_ok (h : Handshaker) (msg : bytes) (out : hs_step) : Prop :=
  hs_inv out.1 /\ out.2 <> Panic /\
  hs_id out.1 = hs_id h /\ hs_initiator out.1 = hs_initiator h /\ hs_ephPub out.1 = hs_ephPub h /\
  (hs_done out.1 = true -> exists m r, out.2 = Ok (m, Some r)) /\
  (forall m r, out.2 = Ok (m, Some r) -> hs_done out.1 = true /\ authenticated h msg r).

Lemma step_ok_err h msg h' e : hs_inv h' -> hs_done h' = false -> hs_id h' = hs_id h ->
  hs_initiator h' = hs_initiator h -> hs_ephPub h' = hs_ephPub h -> step_ok h msg (h', Err e).
Proof. intros. split_and!; cbn; try done. congruence. Qed.

Lemma handleInit_ok h msg rng : hs_inv h -> hs_done h = false -> hs_initiator h = false ->
  hs_transcript h = None -> step_ok h msg (handleInit h msg rng).
Proof.
  intros Hi Hd Hr Ht. unfold handleInit.
  pose proof (hs_parsers_no_panic msg) as (Hp & _ & _).
  destruct (parseInit msg) as [peer|e|]; [|by apply step_ok_err|done]. cbn [try_in].
  pose proof (set_peer_inv h peer Hi Hd (fun _ => Ht)) as Hi1. unfold transcript_of in Hi1.
  rewrite Hr in Hi1. set (h1 := set_peer _ _ _) in *.
  destruct (hi_eph _ Hi Hd) as (k & Hk & _).
  pose proof (deriveShared_no_panic h1 (mk_is_Some _ _ Hk)) as Hnp.
  destruct (deriveShared h1) as [h2|e|] eqn:Hds; [|by apply step_ok_err|done]. cbn [try_in].
  pose proof (deriveShared_inv _ _ Hi1 Hd (mk_is_Some _ _ eq_refl) Hds) as Hi2.
  apply deriveShared_ok in Hds as (k' & s & _ & _ & E2).
  pose proof (sealAuth_no_panic h2 infoHS2 rng (hi_id _ Hi2)).
  destruct (sealAuth _ _ _) as [blob|e|]; [|by subst h2; apply step_ok_err|done]. cbn [try_in].
  split_and!; cbn; subst h2; cbn; try done. congruence.
Qed.

Lemma checkPeer_authenticated h h2 msg e blob p name sess k s peer :
  parseAuth msg = Ok (e, blob) -> hs_id h2 = hs_id h ->
  hs_eph h = Some k -> x25519 k peer = Some s -> hs_shared h2 = Some s ->
  hs_transcript h2 = Some (transcript_of (hs_initiator h) (hs_ephPub h) peer) ->
  checkPeer h2 blob (if hs_initiator h then infoHS2 else infoHS3) = Ok (p, name) ->
  newSession s (default [] (hs_transcript h2)) (hs_initiator h) = Ok sess ->
  authenticated h msg (result_of h2 sess p name).
Proof.
  intros Hm Hid Hk Hs Hsh Ht (key & sig & Hkey & Ho & Hpl & Hnl & Hsl & Hv & Hne)%checkPeer_ok Hse.
  unfold authenticated, result_of. cbn. rewrite Hsh, Ht, Hid in *. cbn [default] in *.
  exists k, peer, s, key, e, blob, sig. done.
Qed.

Lemma handleAuthInitiator_ok h msg rng : hs_inv h -> hs_done h = false -> hs_initiator h = true ->
  step_ok h msg (handleAuthInitiator h msg rng).
Proof.
  intros Hi Hd Hini. unfold handleAuthInitiator.
  pose proof (hs_parsers_no_panic msg) as (_ & Hp & _).
  destruct (parseAuth msg) as [[ephB blob]|e|] eqn:Hm; [|by apply step_ok_err|done]. cbn [try_in].
  pose proof (set_peer_inv h ephB Hi Hd) as Hi1. rewrite Hini in Hi1. specialize (Hi1 ltac:(done)).
  unfold transcript_of in Hi1. set (h1 := set_peer _ _ _) in *.
  destruct (hi_eph _ Hi Hd) as (k & Hk & _).
  pose proof (deriveShared_no_panic h1 (mk_is_Some _ _ Hk)) as Hnp.
  destruct (deriveShared h1) as [h2|e|] eqn:Hds; [|by apply step_ok_err|done]. cbn [try_in].
  pose proof (deriveShared_inv _ _ Hi1 Hd (mk_is_Some _ _ eq_refl) Hds) as Hi2.
  apply deriveShared_ok in Hds as (k' & s & Hk' & Hs & E2).
  assert (Hf : forall e, step_ok h msg (h2, Err e)) by (intros; subst h2; by apply step_ok_err).
  pose proof (checkPeer_no_panic h2 blob infoHS2).
  destruct (checkPeer _ _ _) as [[p name]|e|] eqn:Hc; [|apply Hf|done]. cbn [try_in].
  pose proof (sealAuth_no_panic h2 infoHS3 rng (hi_id _ Hi2)).
  destruct (sealAuth _ _ _) as [b3|e|]; [|apply Hf|done]. cbn [try_in].
  pose proof (newSession_no_panic (default [] (hs_shared h2)) (default [] (hs_transcript h2)) true).
  destruct (newSession _ _ _) as [sess|e|] eqn:Hse; [|apply Hf|done]. cbn [try_in].
  split; [by apply finish_inv|]. subst h2. split_and!; cbn; try done; [eauto|].
  intros m r [= <- <-]. split; [done|].
  eapply (checkPeer_authenticated h _ _ _ blob); rewrite ?Hini; try done.
Qed.

Lemma handleAuthResponder_ok h msg : hs_inv h -> hs_done h = false -> hs_initiator h = false ->
  step_ok h msg (handleAuthResponder h msg).
Proof.
  intros Hi Hd Hini. unfold handleAuthResponder.
  destruct (hs_transcript h) as [t|] eqn:Ht; [|by apply step_ok_err].
  pose proof (hs_parsers_no_panic msg) as (_ & Hp & _).
  destruct (parseAuth msg) as [[ephB blob]|e|] eqn:Hm; [|by apply step_ok_err|done]. cbn [try_in].
  pose proof (checkPeer_no_panic h blob infoHS3).
  destruct (checkPeer _ _ _) as [[p name]|e|] eqn:Hc; [|by apply step_ok_err|done]. cbn [try_in].
  pose proof (newSession_no_panic (default [] (hs_shared h)) t false).
  destruct (newSession _ _ _) as [sess|e|] eqn:Hse; [|by apply step_ok_err|done]. cbn [try_in].
  split; [by apply finish_inv|]. split_and!; cbn; try done; [eauto|].
  intros m r [= <- <-]. split; [done|].
  destruct (hs_shared h) as [s|] eqn:Hsh.
  - destruct (hi_responder _ Hi s Hini Hsh) as (k & Hk & Hs).
    eapply (checkPeer_authenticated h h _ _ blob); rewrite ?Hini, ?Ht; try done.
    rewrite (hi_transcript _ Hi t Ht). by rewrite Hini.
  - unfold newSession, derive, DeriveKey in Hse. cbn [default] in Hse. by rewrite decide_True in Hse.
Qed.

Lemma handle_ok h msg rng : hs_inv h -> hs_done h = false -> step_ok h msg (HandleMessage h msg rng).
Proof.
  intros Hi Hd. unfold HandleMessage. rewrite Hd. case_decide; [by apply step_ok_err|].
  destruct (@index_in proto_err _ msg 0) as (t & -> & _); [pose proof (len_nonneg msg); lia|].
  cbn [try_in]. destruct (negb _ && _ && _) eqn:Hc.
  - apply andb_prop in Hc as [[Hini%negb_true_iff _]%andb_prop Ht%bool_decide_eq_true].
    by apply handleInit_ok.
  - destruct (decide (t = hsTypeAuth)); [|by apply step_ok_err].
    destruct (hs_initiator h) eqn:Hini; [by apply handleAuthInitiator_ok|by apply handleAuthResponder_ok].
Qed.

Lemma handle_done h msg rng : hs_done h = true ->
  HandleMessage h msg rng = (h, Err (ErrHandshake AlreadyComplete)).
Proof. intros Hd. unfold HandleMessage. by rewrite Hd. Qed.

Lemma new_inv id ini rng h : keyed id -> NewHandshaker id ini rng = Ok h ->
  hs_inv h /\ hs_done h = false /\ hs_id h = id /\ hs_initiator h = ini /\
  hs_transcript h = None /\ exists k, hs_eph h = Some k /\ len k = 32 /\ hs_ephPub h = x25519_public k.
Proof.
  intros Hid. unfold NewHandshaker. destruct (HasPrivateKey id); [|done].
  destruct (RandomBytes 32 rng) as [k| |] eqn:Hr; try done. step_bind. intros [= <-].
  apply RandomBytes_inv in Hr; [|done]. cbn. split; [|eauto 10].
  split; cbn; try done; eauto using x25519_public_len.
Qed.

Lemma new_handshaker id ini rng : keyed id -> 32 <= len rng -> exists h, NewHandshaker id ini rng = Ok h.
Proof.
  intros (sk & Hp & _) Hr. unfold NewHandshaker, HasPrivateKey. rewrite Hp.
  destruct (RandomBytes_ok 32 rng) as [-> _]; [lia|]. step_bind. eauto.
Qed.

(** ** Runs on arbitrary input *)

(** One side of a handshake fed with whatever arrives. *)
Fixpoint hs_run (h : Handshaker) (msgs : list (bytes * bytes)) :
  Handshaker * list (res proto_err (option bytes * option HandshakeResult)) :=
  match msgs with
  | [] => (h, [])
  | (m, rng) :: rest =>
      let '(h1, r) := HandleMessage h m rng in
      let '(h2, rs) := hs_run h1 rest in (h2, r :: rs)
  end.

Definition completes (r : res proto_err (option bytes * option HandshakeResult)) : bool :=
  match r with Ok (_, Some _) => true | _ => false end.

Lemma run_done msgs : forall h, hs_done h = true ->
  hs_run h msgs = (h, (fun _ => Err (ErrHandshake AlreadyComplete)) <$> msgs).
Proof.
  induction msgs as [|[m rng] rest IH]; intros h Hd; [done|].
  cbn [hs_run]. by rewrite handle_done, IH.
Qed.

Lemma run_safe msgs : forall h, hs_inv h ->
  hs_inv (hs_run h msgs).1 /\ Panic ∉ (hs_run h msgs).2 /\
  (length (filter completes (hs_run h msgs).2) <= 1)%nat.
Proof.
  induction msgs as [|[m rng] rest IH]; intros h Hi.
  { cbn. split; [done|]. split; [apply not_elem_of_nil|lia]. }
  destruct (hs_done h) eqn:Hd.
  { rewrite run_done by done. cbn [fst snd]. split; [done|]. split.
    - intros (? & ? & _)%list_elem_of_fmap. done.
    - clear. induction ((m, rng) :: rest); [cbn; lia|]. done. }
  destruct (handle_ok h m rng Hi Hd) as (Hi1 & Hp & _ & _ & _ & Hdone & Hc).
  cbn [hs_run]. destruct (HandleMessage h m rng) as [h1 r]. cbn [fst snd] in *.
  destruct (IH h1 Hi1) as (Hj2 & Hj3 & Hj4). destruct (hs_run h1 rest) as [h2 rs] eqn:Hr. cbn [fst snd] in *.
  split; [done|]. split; [by apply not_elem_of_cons|].
  rewrite filter_cons. case_decide as Hcr; [|done]. cbn.
  destruct r as [[o [res|]]| |]; try done. destruct (Hc _ _ eq_refl) as [Hd1 _].
  rewrite run_done in Hr by done. injection Hr as <- <-.
  assert (filter completes ((fun _ : bytes * bytes => Err (ErrHandshake AlreadyComplete)) <$> rest) = [])
    as ->; [|cbn; lia]. clear. by induction rest.
Qed.

(** ** The honest handshake *)
Definition nameable (id : Identity) : Prop := 0 < len (Name id) <= maxPeerName.

Lemma sealAuth_ok h info rng s t : keyed (hs_id h) ->
  hs_shared h = Some s -> len s = 32 -> hs_transcript h = Some t -> NonceSize <= len rng ->
  exists key sig blob, sealAuth h info rng = Ok blob /\ derive s t info KeySize = Ok key /\
    Crypto.Open key hsAAD blob = Ok (marshalAuthPlain (pub (hs_id h)) (Name (hs_id h)) sig) /\
    len (pub (hs_id h)) = 32 /\ len sig = 64 /\ ed25519_verify (pub (hs_id h)) t sig = true /\
    len blob = len (Name (hs_id h)) + 126.
Proof.
  intros (sk & Hp & Hl & Hpub) Hs Hsl Ht Hr. unfold sealAuth, PublicKey. rewrite Hs, Ht. cbn [from_option id].
  destruct (derive_ok s t info KeySize) as (key & Hk & Hkl); [lia|done|]. rewrite Hk. step_bind.
  unfold Sign. rewrite Hp. rewrite decide_True by done. step_bind.
  set (plain := marshalAuthPlain _ _ _).
  destruct (Seal_ok key hsAAD plain rng Hkl Hr) as (nonce & Hseal & _).
  exists key, (ed25519_sign sk t). rewrite Hseal. eexists. split; [done|]. split; [done|].
  split; [by eapply Open_Seal|]. rewrite Hpub. split; [by apply ed25519_public_len|].
  split; [by apply ed25519_sign_len|]. split; [by apply ed25519_verify_sign|].
  rewrite (Seal_len _ _ _ _ _ Hseal). subst plain. unfold marshalAuthPlain.
  rewrite !len_app, len_be_put, Hpub, ed25519_public_len, ed25519_sign_len by done. lia.
Qed.

Lemma marshalAuth_msg e blob : len e = 32 -> 0 < len blob <= 4000 ->
  index (E := proto_err) (marshalAuth e blob) 0 = Ok hsTypeAuth /\
  parseAuth (marshalAuth e blob) = Ok (e, blob) /\
  ~ (len (marshalAuth e blob) = 0 \/ maxHsSize < len (marshalAuth e blob)).
Proof.
  intros He Hb. split; [done|]. split; [apply parseAuth_spec; split_and!; [done|lia|lia|done]|].
  unfold marshalAuth, maxHsSize. rewrite !len_app, len_be_put, He. change (len [hsTypeAuth]) with 1. lia.
Qed.

(** A responder answers a well-formed first message. *)
Lemma responder_answers h e k s rng : hs_inv h -> hs_done h = false -> hs_initiator h = false ->
  hs_transcript h = None -> len (Name (hs_id h)) <= 3000 -> NonceSize <= len rng ->
  hs_eph h = Some k -> x25519 k e = Some s -> len e = 32 ->
  let t := transcript_of false (hs_ephPub h) e in
  exists h' key sig blob,
    HandleMessage h ([hsTypeInit] ++ be_put 2 32 ++ e) rng =
      (h', Ok (Some (marshalAuth (hs_ephPub h) blob), None)) /\
    hs_inv h' /\ hs_done h' = false /\ hs_initiator h' = false /\ hs_id h' = hs_id h /\
    hs_transcript h' = Some t /\ hs_shared h' = Some s /\
    derive s t infoHS2 KeySize = Ok key /\
    Crypto.Open key hsAAD blob = Ok (marshalAuthPlain (pub (hs_id h)) (Name (hs_id h)) sig) /\
    len (pub (hs_id h)) = 32 /\ len sig = 64 /\ ed25519_verify (pub (hs_id h)) t sig = true /\
    0 < len blob <= 4000.
Proof.
  intros Hi Hd Hini Ht Hn Hr Hk Hs He t. set (m := _ ++ _ ++ e).
  pose proof (handle_ok h m rng Hi Hd) as (Hi' & _). revert Hi'.
  unfold HandleMessage. rewrite Hd, Hini, Ht. 
  rewrite (decide_False (P := len m = 0 \/ _)).
  2:{ subst m. unfold maxHsSize. rewrite !len_app, len_be_put, He. change (len [hsTypeInit]) with 1. lia. }
  change (index m 0) with (@Ok proto_err _ hsTypeInit). cbn [try_in negb andb].
  rewrite !bool_decide_true by done. cbn [andb]. unfold handleInit.
  rewrite (proj2 (parseInit_spec m e)) by done. cbn [try_in].
  unfold deriveShared. cbn [set_peer hs_peerEph hs_eph]. rewrite decide_False by lia.
  rewrite Hk. cbn [deref]. step_bind. rewrite Hs. cbn [try_in].
  set (h2 := mkHandshaker _ _ _ _ _ _ _ _).
  destruct (sealAuth_ok h2 infoHS2 rng s t) as (key & sig & blob & -> & ? & ? & ? & ? & ? & Hb);
    [by apply (hi_id _ Hi)|done|by eapply x25519_len|done|done|].
  cbn [try_in fst]. intros Hi2. exists h2, key, sig, blob. pose proof (len_nonneg (Name (hs_id h))).
  split_and!; try done; cbn in Hb; lia.
Qed.

(** The initiator completes on a genuine answer. *)
Lemma initiator_completes h e blob k s key sig p name rng :
  hs_inv h -> hs_done h = false -> hs_initiator h = true -> nameable (hs_id h) ->
  NonceSize <= len rng -> hs_eph h = Some k -> x25519 k e = Some s -> len e = 32 ->
  let t := transcript_of true (hs_ephPub h) e in
  derive s t infoHS2 KeySize = Ok key ->
  Crypto.Open key hsAAD blob = Ok (marshalAuthPlain p name sig) -> len p = 32 ->
  0 < len name <= maxPeerName -> len sig = 64 -> ed25519_verify p t sig = true ->
  p <> pub (hs_id h) -> 0 < len blob <= 4000 ->
  exists h' key3 sig3 blob3 sess,
    HandleMessage h (marshalAuth e blob) rng =
      (h', Ok (Some (marshalAuth (hs_ephPub h) blob3),
               Some (mkResult sess name p (FingerprintOf p) t))) /\
    newSession s t true = Ok sess /\ derive s t infoHS3 KeySize = Ok key3 /\
    Crypto.Open key3 hsAAD blob3 = Ok (marshalAuthPlain (pub (hs_id h)) (Name (hs_id h)) sig3) /\
    len (pub (hs_id h)) = 32 /\ len sig3 = 64 /\ ed25519_verify (pub (hs_id h)) t sig3 = true /\
    0 < len blob3 <= 4000.
Proof.
  intros Hi Hd Hini Hn Hr Hk Hs He t Hkey Ho Hp Hnm Hsig Hv Hne Hb.
  destruct (marshalAuth_msg e blob He Hb) as (Hx & Hpa & Hsz).
  unfold HandleMessage. rewrite Hd, Hini. rewrite (decide_False (P := len _ = 0 \/ _)) by done.
  rewrite Hx. cbn [try_in negb andb]. rewrite decide_True by done.
  unfold handleAuthInitiator. rewrite Hpa. cbn [try_in].
  unfold deriveShared. cbn [set_peer hs_peerEph hs_eph]. rewrite decide_False by lia.
  rewrite Hk. cbn [deref]. step_bind. rewrite Hs. cbn [try_in].
  set (h2 := mkHandshaker _ _ _ _ _ _ _ _).
  rewrite (proj2 (checkPeer_ok h2 blob infoHS2 p name)) by (exists key, sig; done). cbn [try_in].
  destruct (sealAuth_ok h2 infoHS3 rng s t) as (key3 & sig3 & b3 & -> & ? & ? & ? & ? & ? & Hb3);
    [by apply (hi_id _ Hi)|done|by eapply x25519_len|done|done|]. cbn [try_in].
  pose proof (x25519_len _ _ _ Hs) as Hsl.
  destruct (newSession_inv s t true) as (sess & R & _ & Hse & _); [lia|].
  change (newSession _ _ true) with (newSession s t true). rewrite Hse. cbn [try_in].
  eexists _, key3, sig3, b3, sess. unfold nameable, maxPeerName in *.
  split_and!; try done; cbn in Hb3; lia.
Qed.

(** The responder completes on a genuine third message. *)
Lemma responder_completes h e blob s t key sig p name :
  hs_inv h -> hs_done h = false -> hs_initiator h = false ->
  hs_transcript h = Some t -> hs_shared h = Some s -> len e = 32 ->
  derive s t infoHS3 KeySize = Ok key ->
  Crypto.Open key hsAAD blob = Ok (marshalAuthPlain p name sig) -> len p = 32 ->
  0 < len name <= maxPeerName -> len sig = 64 -> ed25519_verify p t sig = true ->
  p <> pub (hs_id h) -> 0 < len blob <= 4000 ->
  exists h' sess,
    (forall rng, HandleMessage h (marshalAuth e blob) rng =
      (h', Ok (None, Some (mkResult sess name p (FingerprintOf p) t)))) /\
    newSession s t false = Ok sess.
Proof.
  intros Hi Hd Hini Ht Hs He Hkey Ho Hp Hnm Hsig Hv Hne Hb.
  destruct (marshalAuth_msg e blob He Hb) as (Hx & Hpa & Hsz).
  destruct (newSession_inv s t false) as (sess & R & _ & Hse & _); [rewrite (hi_shared _ Hi s Hs); lia|].
  exists (finish h), sess. split; [|done]. intros rng.
  unfold HandleMessage. rewrite Hd, Hini. rewrite (decide_False (P := len _ = 0 \/ _)) by done.
  rewrite Hx. cbn [try_in negb andb]. rewrite bool_decide_false by done. cbn [andb].
  rewrite decide_True by done. unfold handleAuthResponder. rewrite Ht, Hpa. cbn [try_in].
  rewrite (proj2 (checkPeer_ok h blob infoHS3 p name))
    by (exists key, sig; rewrite Ht, Hs; done). cbn [try_in].
  rewrite Hs. cbn [from_option id]. rewrite Hse. cbn [try_in]. unfold result_of. by rewrite Ht.
Qed.

(** The whole exchange between two honest ends over a faithful transport. *)
Definition exchange (a b : Identity) (rng_a rng_b rng2 rng3 : bytes) :
  res proto_err (HandshakeResult * HandshakeResult) :=
  ha ← NewHandshaker a true rng_a;
  hb ← NewHandshaker b false rng_b;
  m1 ← InitMessage ha;
  let '(hb1, r1) := HandleMessage hb m1 rng2 in
  '(o1, _) ← r1; m2 ← deref o1;
  '(o2, ra) ← snd (HandleMessage ha m2 rng3); m3 ← deref o2; ra ← deref ra;
  '(_, rb) ← snd (HandleMessage hb1 m3 []); rb ← deref rb;
  Ok (ra, rb).

(** Every step of the exchange between two honest ends: the three messages, and
    the two results, whose sessions are derived from one agreement. *)
Lemma honest_exchange a b rng_a rng_b rng2 rng3 :
  keyed a -> keyed b -> nameable a -> nameable b -> pub a <> pub b ->
  32 <= len rng_a -> 32 <= len rng_b -> NonceSize <= len rng2 -> NonceSize <= len rng3 ->
  exists ha hb hb1 ha1 hb2 m1 m2 m3 shared t sa sb,
    NewHandshaker a true rng_a = Ok ha /\ NewHandshaker b false rng_b = Ok hb /\
    InitMessage ha = Ok m1 /\ HandleMessage hb m1 rng2 = (hb1, Ok (Some m2, None)) /\
    HandleMessage ha m2 rng3 =
      (ha1, Ok (Some m3, Some (mkResult sa (Name b) (pub b) (FingerprintOf (pub b)) t))) /\
    (forall rng, HandleMessage hb1 m3 rng =
      (hb2, Ok (None, Some (mkResult sb (Name a) (pub a) (FingerprintOf (pub a)) t)))) /\
    newSession shared t true = Ok sa /\ newSession shared t false = Ok sb /\ len t = 32.
Proof.
  intros Ka Kb Na Nb Hne Ra Rb R2 R3.
  destruct (new_handshaker a true rng_a) as [ha Ha]; [done..|].
  destruct (new_handshaker b false rng_b) as [hb Hb]; [done..|].
  destruct (new_inv _ _ _ _ Ka Ha) as (Ia & Da & Ida & Ina & _ & ka & Hka & Lka & Pa).
  destruct (new_inv _ _ _ _ Kb Hb) as (Ib & Db & Idb & Inb & Tb & kb & Hkb & Lkb & Pb).
  destruct (x25519_agree ka kb Lka Lkb) as (s & Sa & Sb). rewrite <- Pa in Sb. rewrite <- Pb in Sa.
  pose proof (hi_pub _ Ia) as La. pose proof (hi_pub _ Ib) as Lb. subst a b.
  destruct (responder_answers hb (hs_ephPub ha) kb s rng2) as
    (hb1 & k2 & sig2 & b2 & E2 & Ib1 & Db1 & Inb1 & Idb1 & Tb1 & Sb1 & K2 & O2 & P2 & G2 & V2 & L2); try done.
  { unfold nameable, maxPeerName in Nb. lia. }
  destruct (initiator_completes ha (hs_ephPub hb) b2 ka s k2 sig2 (pub (hs_id hb)) (Name (hs_id hb)) rng3) as
    (ha1 & k3 & sig3 & b3 & sa & E3 & SA & K3 & O3 & P3 & G3 & V3 & L3); try done.
  destruct (responder_completes hb1 (hs_ephPub ha) b3 s (transcript_of false (hs_ephPub hb) (hs_ephPub ha)) k3
    sig3 (pub (hs_id ha)) (Name (hs_id ha))) as (hb2 & sb & Hm & SB); try done; [by rewrite Idb1|].
  do 12 eexists. split_and!; [exact Ha|exact Hb| |exact E2|exact E3|exact Hm|exact SA|exact SB|apply sha256_len].
  unfold InitMessage. by rewrite Ina, La.
Qed.

(** C2: two honest ends with different keys always complete the handshake: each
    learns the other's name and long-term key, both hold the same transcript,
    and the two sessions understand each other in every conversation. *)
Theorem handshake_completes a b rng_a rng_b rng2 rng3 :
  keyed a -> keyed b -> nameable a -> nameable b -> pub a <> pub b ->
  32 <= len rng_a -> 32 <= len rng_b -> NonceSize <= len rng2 -> NonceSize <= len rng3 ->
  exists ra rb, exchange a b rng_a rng_b rng2 rng3 = Ok (ra, rb) /\
    PeerKey ra = pub b /\ PeerName ra = Name b /\ PeerKey rb = pub a /\ PeerName rb = Name a /\
    Transcript ra = Transcript rb /\
    forall script, Forall item_ok script -> len script < 2 ^ 64 ->
      converse script (hr_session ra) (hr_session rb) = (fun i => Ok (it_typ i, it_pt i)) <$> script.
Proof.
  intros Ka Kb Na Nb Hne Ra Rb R2 R3.
  destruct (honest_exchange a b rng_a rng_b rng2 rng3) as
    (ha & hb & hb1 & ha1 & hb2 & m1 & m2 & m3 & s & t & sa & sb & Ha & Hb & E1 & E2 & E3 & E4 & SA & SB & _); try done.
  unfold exchange. rewrite Ha, Hb. step_bind. rewrite E1. step_bind. rewrite E2. step_bind. cbn [deref]. step_bind.
  rewrite E3. step_bind. cbn [deref]. step_bind. rewrite E4. step_bind. cbn [deref]. step_bind.
  do 2 eexists. split; [done|]. cbn. split_and!; try done. intros script Hok Hn.
  destruct (lockstep_new _ _ _ _ _ SA SB Hn) as [R Hl]. by eapply lockstep_converse.
Qed.

(** C26: whatever bytes arrive and in whatever order, one side of the handshake
    never panics, delivers at most one result, and keeps its invariant: the
    ephemeral secret and the shared secret are gone once it is done. *)
Theorem handshake_safe id ini rng h msgs :
  keyed id -> NewHandshaker id ini rng = Ok h ->
  hs_inv (hs_run h msgs).1 /\ Panic ∉ (hs_run h msgs).2 /\
  (length (filter completes (hs_run h msgs).2) <= 1)%nat.
Proof. intros Hid Hn. apply run_safe. by apply (new_inv _ _ _ _ Hid Hn). Qed.

(** C3: a result the handshake delivers is authenticated, whatever came before:
    the peer key, which is not the local one, verifies a signature over the hash
    of both ephemeral keys of this handshake, received inside an encryption
    under the agreed key, and the session is derived from that agreement. *)
Theorem handshake_authenticates id ini rng h msgs msg rng' h' out r :
  keyed id -> NewHandshaker id ini rng = Ok h ->
  HandleMessage (hs_run h msgs).1 msg rng' = (h', Ok (out, Some r)) ->
  authenticated (hs_run h msgs).1 msg r /\ hs_done h' = true.
Proof.
  intros Hid Hn Hh. destruct (run_safe msgs h) as (Hi & _); [by apply (new_inv _ _ _ _ Hid Hn)|].
  destruct (hs_done (hs_run h msgs).1) eqn:Hd; [by rewrite handle_done in Hh|].
  destruct (handle_ok _ msg rng' Hi Hd) as (_ & _ & _ & _ & _ & _ & Hc). rewrite Hh in Hc.
  destruct (Hc _ _ eq_refl). done.
Qed.

Lemma parseAuthPlain_long p name sig : len p = 32 -> maxPeerName < len name < 2 ^ 16 ->
  parseAuthPlain (marshalAuthPlain p name sig) = Err (ErrHandshake BadNameLength).
Proof.
  intros Hp Hn. pose proof (len_nonneg sig). unfold parseAuthPlain, marshalAuthPlain, maxPeerName in *.
  rewrite wrap_small by (split; lia). rewrite !len_app, len_be_put, Hp. rewrite decide_False by lia.
  rewrite (slice_app_head _ _ 32) by done. step_bind.
  rewrite (slice_app_mid p (be_put 2 _) _ 32 34) by (rewrite Hp, ?len_be_put; done). step_bind.
  rewrite be_get_put_small by (cbn; lia). by rewrite decide_True by lia.
Qed.

(** [Generate] accepts a display name of any length, but an identity whose
    name is longer than 64 bytes cannot connect to anyone: its handshake fails
    at the peer, which refuses the name. *)
Theorem long_names_cannot_connect keygen name rng b a rng_a rng_b rng2 rng3 :
  TrimSpace name <> [] -> 64 < len name <= 3000 -> 32 <= len rng ->
  Generate keygen name rng = Ok b -> keyed b -> keyed a ->
  32 <= len rng_a -> 32 <= len rng_b -> NonceSize <= len rng2 ->
  exchange a b rng_a rng_b rng2 rng3 = Err (ErrHandshake BadNameLength).
Proof.
  intros _ Hlen _ Hg Kb Ka Ra Rb R2. assert (Hname : Name b = name).
  { unfold Generate in Hg. case_decide; [done|]. destruct (RandomBytes 32 rng); try done. by simplify_eq. }
  unfold exchange.
  destruct (new_handshaker a true rng_a) as [ha Ha]; [done..|].
  destruct (new_handshaker b false rng_b) as [hb Hb]; [done..|].
  destruct (new_inv _ _ _ _ Ka Ha) as (Ia & Da & Ida & Ina & _ & ka & Hka & Lka & Pa).
  destruct (new_inv _ _ _ _ Kb Hb) as (Ib & Db & Idb & Inb & Tb & kb & Hkb & Lkb & Pb).
  destruct (x25519_agree ka kb Lka Lkb) as (s & Sa & Sb). rewrite <- Pa in Sb. rewrite <- Pb in Sa.
  pose proof (hi_pub _ Ia) as La. pose proof (hi_pub _ Ib) as Lb.
  rewrite Ha, Hb. step_bind. unfold InitMessage. rewrite Ina, La. step_bind. change (wrap 16 32) with 32.
  destruct (responder_answers hb (hs_ephPub ha) kb s rng2) as
    (hb1 & k2 & sig2 & b2 & -> & _ & _ & _ & _ & _ & _ & K2 & O2 & P2 & G2 & V2 & L2); try done.
  { rewrite Idb, Hname. lia. }
  step_bind. cbn [deref]. step_bind. destruct (marshalAuth_msg (hs_ephPub hb) b2 Lb L2) as (Hx & Hpa & Hsz).
  unfold HandleMessage. rewrite Da, Ina. rewrite (decide_False (P := len _ = 0 \/ _)) by done.
  rewrite Hx. cbn [try_in negb andb]. rewrite decide_True by done.
  unfold handleAuthInitiator. rewrite Hpa. cbn [try_in].
  unfold deriveShared. cbn [set_peer hs_peerEph hs_eph]. rewrite decide_False by lia.
  rewrite Hka. cbn [deref]. step_bind. rewrite Sa. cbn [try_in]. unfold checkPeer, openAuth.
  cbn [hs_shared hs_transcript set_peer from_option id]. unfold transcript_of in K2. rewrite K2. step_bind.
  rewrite O2. step_bind. rewrite parseAuthPlain_long; [done|done|].
  rewrite Idb, Hname. unfold maxPeerName. lia.
Qed.
End handshake.

(** ** A concrete key agreement and sample runs *)
Module ToyDH.
(** Toy agreement: the public key is the private key, the secret their
    bytewise sum. *)
Definition agree (a b : bytes) : option bytes :=
  Some (be_put 32 ((be_get a + be_get b) mod 2 ^ 256)).

#[export] Instance ops : DHOps := {| x25519_public := fun k => k; x25519 := agree |}.

#[export] Instance laws : DHLaws.
Proof.
  split.
  - done.
  - intros k p s [= <-]. apply len_be_put.
  - intros a b _ _. cbn. unfold agree. eexists. split; [done|]. by rewrite Z.add_comm.
Qed.

Definition ident (c : byte) (name : string) : Identity :=
  mkIdentity (str name) (Some (replicate 64 c)) (ToyId.public (replicate 64 c)).

Definition rng (c : byte) : bytes := replicate 40 c.

Lemma ident_keyed c name : @keyed ToyId.ops (ident c name).
Proof. exists (replicate 64 c). done. Qed.
End ToyDH.
Import Crypto.Toy ToyId ToyDH.

Definition sample_script : list item := [Item true TypeChat (str "x") (ToyDH.rng x05)].

Lemma sample_script_ok : Forall item_ok sample_script.
Proof. apply Forall_cons; [by vm_compute|apply Forall_nil]. Qed.

Lemma sample_keys_differ : pub (ident x01 "alice") <> pub (ident x02 "bob").
Proof. apply (bool_decide_unpack _). vm_compute. exact I. Qed.

Lemma handshake_completes_witness : exists ra rb,
  exchange (ident x01 "alice") (ident x02 "bob") (ToyDH.rng x0a) (ToyDH.rng x0b) (ToyDH.rng x0c)
    (ToyDH.rng x0d) = Ok (ra, rb) /\
  PeerName ra = str "bob" /\ PeerName rb = str "alice" /\
  converse sample_script (hr_session ra) (hr_session rb) =
    (fun i => Ok (it_typ i, it_pt i)) <$> sample_script.
Proof.
  edestruct (handshake_completes (ident x01 "alice") (ident x02 "bob") (ToyDH.rng x0a) (ToyDH.rng x0b)
    (ToyDH.rng x0c) (ToyDH.rng x0d)) as (ra & rb & He & _ & Ha & _ & Hb & _ & Hc);
    [apply ident_keyed|apply ident_keyed|done|done|apply sample_keys_differ|done|done|done|done|].
  exists ra, rb. split; [exact He|]. split; [exact Ha|]. split; [exact Hb|].
  apply Hc; [apply sample_script_ok|reflexivity].
Defined.

Definition sample_hs (ini : bool) : Handshaker :=
  mkHandshaker (ident x01 "alice") ini (Some (replicate 32 x0a)) (replicate 32 x0a) [] None None false.

Lemma handshake_safe_witness :
  Panic ∉ (hs_run (sample_hs false) [(str "junk", []); (hsTypeAuth :: replicate 40 x00, [])]).2.
Proof.
  apply (handshake_safe (ident x01 "alice") false (rng x0a)); [apply ident_keyed|done].
Defined.

Lemma long_names_cannot_connect_witness :
  let name := replicate 65 x61 in
  let sk := replicate 64 x02 in
  exchange (ident x01 "alice") (mkIdentity name (Some sk) (ToyId.public sk)) (rng x0a) (rng x0b) (rng x0c) [] =
  Err (ErrHandshake BadNameLength).
Proof.
  cbv zeta. apply (long_names_cannot_connect (fun _ => replicate 64 x02) (replicate 65 x61) (rng x01));
    [|done|done|done|by exists (replicate 64 x02)|apply ident_keyed|done|done|done].
  apply (bool_decide_unpack _). vm_compute. exact I.
Defined.

(** The responder of a sample run, after the first message, and the third
    message of its peer. *)
Definition bob_hs : Handshaker :=
  mkHandshaker (ident x02 "bob") false (Some (replicate 32 x0b)) (replicate 32 x0b) [] None None false.

Definition first_msg : bytes := [hsTypeInit] ++ be_put 2 32 ++ replicate 32 x0a.

Definition third_msg : bytes :=
  match HandleMessage bob_hs first_msg (ToyDH.rng x0c) with
  | (_, Ok (Some m2, _)) =>
      match HandleMessage (sample_hs true) m2 (ToyDH.rng x0d) with
      | (_, Ok (Some m3, _)) => m3
      | _ => []
      end
  | _ => []
  end.

Lemma sample_run_completes : exists h' r,
  HandleMessage (hs_run bob_hs [(first_msg, ToyDH.rng x0c)]).1 third_msg [] = (h', Ok (None, Some r)).
Proof. vm_compute. do 2 eexists. reflexivity. Qed.

Lemma handshake_authenticates_witness : exists r,
  authenticated (hs_run bob_hs [(first_msg, ToyDH.rng x0c)]).1 third_msg r.
Proof.
  destruct sample_run_completes as (h' & r & Hr). exists r.
  apply (handshake_authenticates (ident x02 "bob") false (ToyDH.rng x0b) bob_hs
    [(first_msg, ToyDH.rng x0c)] third_msg [] h' None r); [apply ident_keyed|reflexivity|exact Hr].
Defined.
