(* ===== verification/Peers.v ===== *)
(** The trust store: [src/internal/peers/peers.go].

    The store is a finite map from fingerprints to records and a file.  Go
    iterates over a map in an unspecified order, so every operation that ranges
    over the map takes the order as an argument, and its theorems hold for
    every enumeration of the map. *)
From Stdlib Require Import ZArith Lia.
From Stdlib Require Import Strings.Byte.
From stdpp Require Import base list gmap strings numbers option sorting.
From S2P Require Import Prelude Crypto GoStrings Identity.

Inductive TrustLevel := TrustUnknown | TrustUnverified | TrustVerified | TrustChanged.

#[export] Instance TrustLevel_eq_dec : EqDecision TrustLevel.
Proof. solve_decision. Defined.

Definition TrustLevel_String (t : TrustLevel) : bytes :=
  match t with
  | TrustVerified => str "VERIFIED"
  | TrustUnverified => str "UNVERIFIED"
  | TrustChanged => str "IDENTITY CHANGED"
  | TrustUnknown => str "UNKNOWN"
  end.

Record Peer := mkPeer {
  p_name : bytes;
  p_key : bytes;
  p_fingerprint : bytes;
  p_verified : bool;
  p_address : bytes;
  p_first : Z;      (* time.Time, in nanoseconds *)
  p_last : Z;
  p_pending : bytes (* nil is [] *)
}.

Record Store := mkStore { st_path : bytes; st_peers : gmap bytes Peer }.

Inductive peers_err := NoSuchPeer | CorruptStore | StoreIO | StoreJSON.

Class PeersJSON := {
  json_marshal_peers : list Peer -> option bytes;
  (** entries of the array may be null *)
  json_unmarshal_peers : bytes -> option (list (option Peer))
}.

Class PeersJSONLaws `{PeersJSON} := {
  (** records the codec preserves: UTF-8 text and times in its range *)
  json_peer : Peer -> Prop;
  json_peers_roundtrip l : Forall json_peer l ->
    exists b, json_marshal_peers l = Some b /\ json_unmarshal_peers b = Some (Some <$> l)
}.

(** Go's order on strings. *)
Fixpoint bytes_le (a b : bytes) : bool :=
  match a, b with
  | [], _ => true
  | _ :: _, [] => false
  | x :: a', y :: b' =>
      if decide (x = y) then bytes_le a' b' else bool_decide (byte_val x < byte_val y)
  end.

Definition name_le (p q : Peer) : Prop := bytes_le (p_name p) (p_name q) = true.

#[export] Instance name_le_dec p q : Decision (name_le p q).
Proof. unfold name_le. solve_decision. Defined.

(** [sort.Slice] by name; records of one name keep the order of the range. *)
Definition sort_by_name (l : list Peer) : list Peer := merge_sort name_le l.

(** The records a range over the map visits. *)
Definition values (m : gmap bytes Peer) (order : list bytes) : list Peer :=
  omap (fun id => m !! id) order.

(** The first record of the range with the given name, and its key. *)
Fixpoint find_named (m : gmap bytes Peer) (order : list bytes) (name : bytes) : option (bytes * Peer) :=
  match order with
  | [] => None
  | id :: rest =>
      match m !! id with
      | Some p => if decide (p_name p = name) then Some (id, p) else find_named m rest name
      | None => find_named m rest name
      end
  end.

Section operations.
Context `{SignatureOps, PeersJSON}.

Definition PendingFingerprint (p : Peer) : bytes :=
  if decide (len (p_pending p) = 0) then [] else FingerprintOf (p_pending p).

Definition peerID (p : bytes) : bytes := FingerprintOf p.

Fixpoint load_list (l : list (option Peer)) (m : gmap bytes Peer) : res peers_err (gmap bytes Peer) :=
  match l with
  | [] => Ok m
  | None :: _ => Panic
  | Some p :: rest =>
      if decide (len (p_key p) <> PublicKeySize) then load_list rest m
      else load_list rest (<[peerID (p_key p) := p]> m)
  end.

(** [unreadable] is a read error other than a missing file. *)
Definition OpenStore (fs : gmap bytes bytes) (path : bytes) (unreadable : bool) : res peers_err Store :=
  if unreadable then Err StoreIO
  else match fs !! path with
  | None => Ok (mkStore path ∅)
  | Some buf =>
      match json_unmarshal_peers buf with
      | None => Err CorruptStore
      | Some l => m ← load_list l ∅; Ok (mkStore path m)
      end
  end.

Definition saveLocked (fs : gmap bytes bytes) (s : Store) (order : list bytes) (io : io_outcome) :
  gmap bytes bytes * res peers_err unit :=
  match json_marshal_peers (sort_by_name (values (st_peers s) order)) with
  | None => (fs, Err StoreJSON)
  | Some buf =>
      let '(fs', ok) := atomic_write fs (st_path s) buf io in
      (fs', if ok : bool then Ok tt else Err StoreIO)
  end.

Definition level (p : Peer) : TrustLevel := if p_verified p then TrustVerified else TrustUnverified.

(** What [Observe] does in memory: the new map, the record it returns and the
    level. *)
Definition observe (m : gmap bytes Peer) (order : list bytes) (name address p : bytes) (now : Z) :
  gmap bytes Peer * Peer * TrustLevel :=
  let id := peerID p in
  match m !! id with
  | Some q =>
      let q' := mkPeer name (p_key q) (p_fingerprint q) (p_verified q)
                  (if decide (address = []) then p_address q else address) (p_first q) now [] in
      (<[id := q']> m, q', level q')
  | None =>
      match find_named m order name with
      | Some (k, q) =>
          let q' := mkPeer (p_name q) (p_key q) (p_fingerprint q) (p_verified q) (p_address q)
                      (p_first q) now p in
          (<[k := q']> m, q', TrustChanged)
      | None =>
          let q := mkPeer name p (FingerprintOf p) false address now now [] in
          (<[id := q]> m, q, TrustUnknown)
      end
  end.

(** [order] is the range over the names, [order'] the range of the save. *)
Definition Observe (fs : gmap bytes bytes) (s : Store) (order order' : list bytes)
  (name address p : bytes) (now : Z) (io : io_outcome) :
  gmap bytes bytes * Store * (Peer * TrustLevel * res peers_err unit) :=
  let '(m, q, lvl) := observe (st_peers s) order name address p now in
  let s' := mkStore (st_path s) m in
  let '(fs', r) := saveLocked fs s' order' io in
  (fs', s', (q, lvl, r)).

Definition findByNameLocked (s : Store) (order : list bytes) (name : bytes) : option (bytes * Peer) :=
  find_named (st_peers s) order name.

Definition verify_record (m : gmap bytes Peer) (k : bytes) (q : Peer) : gmap bytes Peer * Peer :=
  if decide (0 < len (p_pending q)) then
    let oldID := peerID (p_key q) in
    let q' := mkPeer (p_name q) (p_pending q) (FingerprintOf (p_pending q)) true (p_address q)
                (p_first q) (p_last q) [] in
    (<[peerID (p_pending q) := q']> (delete oldID m), q')
  else
    let q' := mkPeer (p_name q) (p_key q) (p_fingerprint q) true (p_address q)
                (p_first q) (p_last q) (p_pending q) in
    (<[k := q']> m, q').

Definition Verify (fs : gmap bytes bytes) (s : Store) (order order' : list bytes) (name : bytes)
  (io : io_outcome) : gmap bytes bytes * Store * res peers_err (Peer * res peers_err unit) :=
  match findByNameLocked s order name with
  | None => (fs, s, Err NoSuchPeer)
  | Some (k, q) =>
      let '(m, q') := verify_record (st_peers s) k q in
      let s' := mkStore (st_path s) m in
      let '(fs', r) := saveLocked fs s' order' io in
      (fs', s', Ok (q', r))
  end.

Definition Reject (fs : gmap bytes bytes) (s : Store) (order order' : list bytes) (name : bytes)
  (io : io_outcome) : gmap bytes bytes * Store * res peers_err unit :=
  match findByNameLocked s order name with
  | None => (fs, s, Err NoSuchPeer)
  | Some (k, q) =>
      let q' := mkPeer (p_name q) (p_key q) (p_fingerprint q) (p_verified q) (p_address q)
                  (p_first q) (p_last q) [] in
      let s' := mkStore (st_path s) (<[k := q']> (st_peers s)) in
      let '(fs', r) := saveLocked fs s' order' io in
      (fs', s', r)
  end.

Definition Get (s : Store) (order : list bytes) (name : bytes) : option Peer :=
  snd <$> findByNameLocked s order name.

Definition List (s : Store) (order : list bytes) : list Peer :=
  sort_by_name (values (st_peers s) order).

Definition TrustOf (s : Store) (order : list bytes) (name p : bytes) : TrustLevel :=
  match st_peers s !! peerID p with
  | Some q => level q
  | None => match find_named (st_peers s) order name with
            | Some _ => TrustChanged
            | None => TrustUnknown
            end
  end.
End operations.

(** ** Ranges over the map *)
Definition enumerates (order : list bytes) (m : gmap bytes Peer) : Prop :=
  NoDup order /\ forall id, id ∈ order <-> is_Some (m !! id).

Lemma find_named_some m order name k q :
  find_named m order name = Some (k, q) -> m !! k = Some q /\ p_name q = name.
Proof.
  induction order as [|id rest IH]; cbn; [done|].
  destruct (m !! id) as [p|] eqn:E; [|done]. destruct (decide (p_name p = name)); [|done].
  intros [= <- <-]. done.
Qed.

Lemma find_named_none m order name : enumerates order m ->
  find_named m order name = None <-> forall id p, m !! id = Some p -> p_name p <> name.
Proof.
  intros [_ Hall]. split.
  - intros Hf id p Hp. assert (Hin : id ∈ order) by (apply Hall; eauto). clear Hall.
    induction order as [|a rest IH]; [by apply not_elem_of_nil in Hin|].
    cbn in Hf. apply elem_of_cons in Hin as [->|Hin].
    + rewrite Hp in Hf. by destruct (decide (p_name p = name)).
    + apply IH; [|done]. destruct (m !! a) as [q|]; [|done]. by destruct (decide (p_name q = name)).
  - intros Hn. destruct (find_named m order name) as [[k q]|] eqn:E; [|done].
    apply find_named_some in E as [? ?]. by destruct (Hn k q).
Qed.

(** Whether a name is known does not depend on the order of the range. *)
Lemma find_named_order m o1 o2 name : enumerates o1 m -> enumerates o2 m ->
  is_Some (find_named m o1 name) <-> is_Some (find_named m o2 name).
Proof.
  intros H1 H2. rewrite <- !not_eq_None_Some, (find_named_none _ _ _ H1), (find_named_none _ _ _ H2). done.
Qed.

Lemma elem_of_values m order p : enumerates order m -> p ∈ values m order <-> exists id, m !! id = Some p.
Proof.
  intros [_ Hall]. unfold values. rewrite list_elem_of_omap. split.
  - intros (id & _ & ?). eauto.
  - intros (id & Hp). exists id. split; [apply Hall; eauto|done].
Qed.

Lemma bytes_le_total a : forall b, bytes_le a b = true \/ bytes_le b a = true.
Proof.
  induction a as [|x a IH]; intros [|y b]; cbn; auto.
  destruct (decide (x = y)) as [->|Hne]; [rewrite decide_True by done; auto|].
  rewrite (decide_False (P := y = x)) by congruence.
  rewrite !bool_decide_eq_true. destruct (Z.lt_total (byte_val x) (byte_val y)) as [|[He|]]; auto.
  apply byte_val_inj in He. done.
Qed.

#[export] Instance name_le_total : Total name_le.
Proof. intros p q. apply bytes_le_total. Qed.

(** ** The store *)
Section store.
Context `{SignatureLaws, PeersJSONLaws}.

(** Every record is filed under the fingerprint of its key and shows it. *)
Definition store_inv (m : gmap bytes Peer) : Prop :=
  map_Forall (fun id p => id = peerID (p_key p) /\ p_fingerprint p = id /\
    len (p_key p) = PublicKeySize /\ (p_pending p = [] \/ len (p_pending p) = PublicKeySize)) m.

(** The operations of the store, on the maps they leave behind. *)
Inductive op :=
| OpObserve (name address p : bytes) (now : Z)
| OpVerify (name : bytes)
| OpReject (name : bytes).

Definition op_ok (o : op) : Prop :=
  match o with OpObserve _ _ p _ => len p = PublicKeySize | _ => True end.

Inductive step (o : op) (s s' : Store) : Prop :=
| step_observe name address p now fs order order' io fs' r :
    o = OpObserve name address p now -> enumerates order (st_peers s) ->
    Observe fs s order order' name address p now io = (fs', s', r) -> step o s s'
| step_verify name fs order order' io fs' r :
    o = OpVerify name -> enumerates order (st_peers s) ->
    Verify fs s order order' name io = (fs', s', r) -> step o s s'
| step_reject name fs order order' io fs' r :
    o = OpReject name -> enumerates order (st_peers s) ->
    Reject fs s order order' name io = (fs', s', r) -> step o s s'.

Inductive steps : list op -> Store -> Store -> Prop :=
| steps_nil s : steps [] s s
| steps_cons o os s s1 s2 : step o s s1 -> steps os s1 s2 -> steps (o :: os) s s2.

Lemma Observe_mem fs s order order' name address p now io fs' s' q lvl r :
  Observe fs s order order' name address p now io = (fs', s', (q, lvl, r)) ->
  observe (st_peers s) order name address p now = (st_peers s', q, lvl) /\ st_path s' = st_path s /\
  saveLocked fs s' order' io = (fs', r).
Proof.
  unfold Observe. destruct (observe _ _ _ _ _ _) as [[m q'] l'].
  destruct (saveLocked _ _ _ _) as [f r'] eqn:E. intros [= <- <- <- <- <-]. done.
Qed.

Lemma observe_inv m order name address p now : store_inv m -> len p = PublicKeySize ->
  store_inv (observe m order name address p now).1.1.
Proof.
  intros Hi Hp. unfold observe. destruct (m !! peerID p) as [q|] eqn:Eq.
  - apply map_Forall_insert_2; [|done]. destruct (Hi _ _ Eq) as (? & ? & ? & ?). cbn. auto.
  - destruct (find_named m order name) as [[k q]|] eqn:Ef; cbn.
    + apply find_named_some in Ef as [Ef _]. apply map_Forall_insert_2; [|done].
      destruct (Hi _ _ Ef) as (? & ? & ? & ?). cbn. auto.
    + apply map_Forall_insert_2; [|done]. cbn. auto.
Qed.

Lemma verify_record_inv m k q : store_inv m -> m !! k = Some q -> store_inv (verify_record m k q).1.
Proof.
  intros Hi Hq. destruct (Hi _ _ Hq) as (? & ? & ? & Hpe). unfold verify_record. case_decide; cbn.
  - apply map_Forall_insert_2; [|by apply map_Forall_delete]. cbn.
    destruct Hpe as [E|E]; [rewrite E in *; done|]. auto.
  - apply map_Forall_insert_2; [|done]. cbn. auto.
Qed.

Lemma step_inv o s s' : step o s s' -> op_ok o -> store_inv (st_peers s) -> store_inv (st_peers s').
Proof.
  intros [name address p now fs order order' io fs' [[q lvl] r] -> He Ho|
          name fs order order' io fs' r -> He Ho|name fs order order' io fs' r -> He Ho] Hok Hi.
  - apply Observe_mem in Ho as [Ho _].
    pose proof (observe_inv _ order name address p now Hi Hok) as Hi'. by rewrite Ho in Hi'.
  - unfold Verify, findByNameLocked in Ho.
    destruct (find_named _ _ _) as [[k q]|] eqn:Ef; [|by simplify_eq].
    apply find_named_some in Ef as [Ef _]. pose proof (verify_record_inv _ _ _ Hi Ef) as Hi'.
    destruct (verify_record _ _ _) as [m q']. destruct (saveLocked _ _ _ _). by simplify_eq.
  - unfold Reject, findByNameLocked in Ho.
    destruct (find_named _ _ _) as [[k q]|] eqn:Ef; [|by simplify_eq].
    apply find_named_some in Ef as [Ef _]. destruct (saveLocked _ _ _ _). simplify_eq. cbn.
    apply map_Forall_insert_2; [|done]. destruct (Hi _ _ Ef) as (? & ? & ? & ?). cbn. auto.
Qed.

(** ** Trust changes only by verification *)
Definition trusted (m : gmap bytes Peer) (id : bytes) : Prop :=
  exists p, m !! id = Some p /\ p_verified p = true.

(** Every known key is kept, and the same keys are trusted. *)
Definition same_trust (m m' : gmap bytes Peer) : Prop :=
  (forall id p, m !! id = Some p -> exists p', m' !! id = Some p' /\ p_key p' = p_key p) /\
  (forall id, trusted m' id <-> trusted m id).

#[local] Instance same_trust_preorder : PreOrder same_trust.
Proof.
  split.
  - intros m. split; [eauto|done].
  - intros m1 m2 m3 [K1 T1] [K2 T2]. split.
    + intros id p (p2 & H2' & E2)%K1. destruct (K2 _ _ H2') as (p3 & ? & ?). exists p3. split; congruence.
    + intros id. by rewrite T2.
Qed.

Lemma trusted_insert m k q id :
  trusted (<[k := q]> m) id <-> (id = k /\ p_verified q = true) \/ (id <> k /\ trusted m id).
Proof.
  unfold trusted. destruct (decide (id = k)) as [->|Hne].
  - rewrite lookup_insert_eq. naive_solver.
  - rewrite lookup_insert_ne by done. naive_solver.
Qed.

Lemma same_trust_update m k q q' : m !! k = Some q -> p_key q' = p_key q ->
  p_verified q' = p_verified q -> same_trust m (<[k := q']> m).
Proof.
  intros Hq Hk Hv. split.
  - intros id p Hp. destruct (decide (id = k)) as [->|Hne].
    + exists q'. rewrite lookup_insert_eq. split; [done|]. congruence.
    + exists p. by rewrite lookup_insert_ne.
  - intros id. rewrite trusted_insert. unfold trusted. destruct (decide (id = k)) as [->|Hne]; naive_solver.
Qed.

Lemma same_trust_new m k q : m !! k = None -> p_verified q = false -> same_trust m (<[k := q]> m).
Proof.
  intros Hk Hv. split.
  - intros id p Hp. exists p. rewrite lookup_insert_ne by congruence. done.
  - intros id. rewrite trusted_insert. split.
    + intros [[_ Hq]|[_ Ht]]; [congruence|done].
    + intros Ht. right. split; [|done]. intros ->. destruct Ht as (p & Hp & _). congruence.
Qed.

Definition not_verify (o : op) : Prop := match o with OpVerify _ => False | _ => True end.

Lemma step_same_trust o s s' : step o s s' -> not_verify o -> same_trust (st_peers s) (st_peers s').
Proof.
  intros [name address p now fs order order' io fs' [[q lvl] r] -> He Ho|? ? ? ? ? ? ? -> |
          name fs order order' io fs' r -> He Ho] Hnv; [|done|].
  - apply Observe_mem in Ho as [Ho _]. unfold observe in Ho.
    destruct (_ !! peerID p) as [q0|] eqn:Eq; [injection Ho as <- _ _; by eapply same_trust_update|].
    destruct (find_named _ _ _) as [[k q0]|] eqn:Ef; injection Ho as <- _ _.
    + apply find_named_some in Ef as [Ef _]. by eapply same_trust_update.
    + by apply same_trust_new.
  - unfold Reject, findByNameLocked in Ho.
    destruct (find_named _ _ _) as [[k q]|] eqn:Ef; [|by simplify_eq].
    apply find_named_some in Ef as [Ef _]. destruct (saveLocked _ _ _ _). simplify_eq. cbn.
    by eapply same_trust_update.
Qed.

(** C10: keys are never silently replaced: whatever peers present and however
    often, without an explicit verification every recorded key stays on file and
    exactly the keys that were trusted before are trusted after. *)
Theorem trust_needs_verify os s s' :
  steps os s s' -> Forall not_verify os -> same_trust (st_peers s) (st_peers s').
Proof.
  induction 1 as [s|o os s s1 s2 Hs _ IH]; intros Hnv; [done|].
  apply Forall_cons_iff in Hnv as [Hn Hnv]. etrans; [by eapply step_same_trust|by apply IH].
Qed.

(** Every reachable store files each record under the fingerprint of the key
    it holds, so looking a presented key up finds that very key. *)
Theorem store_keyed os s s' :
  steps os s s' -> Forall op_ok os -> store_inv (st_peers s) -> store_inv (st_peers s').
Proof.
  induction 1 as [s|o os s s1 s2 Hs _ IH]; intros Hok Hi; [done|].
  apply Forall_cons_iff in Hok as [Ho Hok]. apply IH; [done|]. by eapply step_inv.
Qed.

(** The level [Observe] reports is the one [TrustOf] predicts, whatever the
    order of iteration, and the store then agrees with the report: a changed key
    stays flagged, and a new key becomes unverified, never verified. *)
Theorem observe_level fs s order order' o1 o2 name address p now io fs' s' q lvl r :
  enumerates order (st_peers s) -> enumerates o1 (st_peers s) -> enumerates o2 (st_peers s') ->
  Observe fs s order order' name address p now io = (fs', s', (q, lvl, r)) ->
  lvl = TrustOf s o1 name p /\
  TrustOf s' o2 name p = (if decide (lvl = TrustUnknown) then TrustUnverified else lvl).
Proof.
  intros He H1' H2' Ho. apply Observe_mem in Ho as [Ho _]. unfold observe in Ho. unfold TrustOf.
  destruct (st_peers s !! peerID p) as [q0|] eqn:Eq.
  { injection Ho as <- <- <-. rewrite lookup_insert_eq. split; [done|]. unfold level. cbn.
    destruct (p_verified q0); by rewrite decide_False. }
  pose proof (find_named_order _ _ _ name He H1') as Hio.
  destruct (find_named (st_peers s) order name) as [[k q0]|] eqn:Ef; injection Ho as Hm <- <-.
  - destruct (find_named _ o1 name) as [|] eqn:E1; [|by destruct Hio as [[? ?] _]; eauto].
    split; [done|]. apply find_named_some in Ef as [Ef Hn]. rewrite decide_False by done.
    rewrite <- Hm in *. rewrite lookup_insert_ne, Eq by congruence.
    destruct (find_named _ o2 name) eqn:E2; [done|]. exfalso.
    eapply (proj1 (find_named_none _ _ _ H2') E2 k); [apply lookup_insert_eq|done].
  - destruct (find_named _ o1 name) as [|] eqn:E1; [by destruct Hio as [_ [? ?]]; eauto|].
    split; [done|]. rewrite <- Hm. rewrite lookup_insert_eq. by rewrite decide_True.
Qed.

(** ** Persistence *)
Lemma load_list_lookup (l : list Peer) : forall m0 m,
  Forall (fun p => len (p_key p) = PublicKeySize) l -> NoDup ((fun p => peerID (p_key p)) <$> l) ->
  load_list (Some <$> l) m0 = Ok m ->
  (forall p, p ∈ l -> m !! peerID (p_key p) = Some p) /\
  (forall id, id ∉ (fun p => peerID (p_key p)) <$> l -> m !! id = m0 !! id).
Proof.
  induction l as [|p l IH]; intros m0 m Hl Hnd.
  { intros [= ->]. split; [by intros ? ?%not_elem_of_nil|done]. }
  apply Forall_cons_iff in Hl as [Hp Hl]. cbn in Hnd. apply NoDup_cons in Hnd as [Hnp Hnd].
  cbn [fmap list_fmap load_list]. rewrite decide_False by (intros Hc; by apply Hc).
  intros (Ha & Hb)%IH; [|done|done]. split.
  - intros q [->|Hq]%elem_of_cons; [|by apply Ha]. rewrite Hb by done. by rewrite lookup_insert_eq.
  - intros id [Hne Hid]%not_elem_of_cons. rewrite Hb by done. by rewrite lookup_insert_ne.
Qed.

Lemma load_list_total (l : list Peer) : forall m0, exists m, load_list (Some <$> l) m0 = Ok m.
Proof. induction l as [|p l IH]; intros m0; cbn; [eauto|]. case_decide; apply IH. Qed.

Lemma values_ids m order : store_inv m -> (forall id, id ∈ order -> is_Some (m !! id)) ->
  (fun p => peerID (p_key p)) <$> values m order = order.
Proof.
  intros Hi Hall. induction order as [|id rest IH]; [done|].
  destruct (Hall id) as [p Hp]; [apply elem_of_cons; auto|].
  unfold values. cbn [omap list_omap]. rewrite Hp. cbn [fmap list_fmap]. destruct (Hi _ _ Hp) as (<- & _). f_equal.
  apply IH. intros id' ?. apply Hall. apply elem_of_cons. auto.
Qed.

(** Loading the records of a range, in any order, rebuilds the map. *)
Lemma load_values m order l : store_inv m -> enumerates order m -> l ≡ₚ values m order ->
  load_list (Some <$> l) ∅ = Ok m.
Proof.
  intros Hi He Hp. destruct (load_list_total l ∅) as [m' Hm]. rewrite Hm. f_equal.
  assert (Hv : forall p, p ∈ l <-> exists id, m !! id = Some p).
  { intros p. by rewrite Hp, elem_of_values. }
  assert (Hids : (fun p => peerID (p_key p)) <$> l ≡ₚ order).
  { rewrite Hp, values_ids; [done|done|]. intros id. apply He. }
  destruct (load_list_lookup l ∅ m') as [Ha Hb]; [| |done|].
  - apply Forall_forall. intros p Hin. apply Hv in Hin as (id & Hid). by apply (Hi _ _ Hid).
  - rewrite Hids. apply He.
  - apply map_eq. intros id. destruct (m !! id) as [p|] eqn:Ep.
    + destruct (Hi _ _ Ep) as (-> & _). apply Ha, Hv. eauto.
    + rewrite Hb; [done|]. rewrite Hids. intros Hin%He. rewrite Ep in Hin. by destruct Hin.
Qed.

Lemma save_open_aux fs s order io fs' r :
  store_inv (st_peers s) -> map_Forall (fun _ => json_peer) (st_peers s) ->
  enumerates order (st_peers s) -> saveLocked fs s order io = (fs', r) ->
  (r = Ok tt /\ OpenStore fs' (st_path s) false = Ok s) \/
  (r = Err StoreIO /\ fs' !! st_path s = fs !! st_path s).
Proof.
  intros Hi Hj He. unfold saveLocked.
  set (l := sort_by_name _). assert (Hl : l ≡ₚ values (st_peers s) order) by apply merge_sort_Permutation.
  destruct (json_peers_roundtrip l) as (b & -> & Hb).
  { apply Forall_forall. intros p Hin. rewrite Hl in Hin.
    apply elem_of_values in Hin as (id & Hid); [|done]. by apply (Hj _ _ Hid). }
  destruct (atomic_write _ _ _ _) as [fs1 ok] eqn:Ew. apply atomic_write_spec in Ew.
  intros [= <- <-]. destruct ok; [left|by right]. split; [done|]. unfold OpenStore. rewrite Ew, Hb.
  rewrite (load_values _ order l) by done. step_bind. by destruct s.
Qed.

(** An observation that was saved survives a restart: opening the store
    again gives the very records in memory, trust decisions and pending keys
    included; a failed save leaves the previous file in place. *)
Theorem observe_persists fs s order order' name address p now io fs' s' q lvl r :
  store_inv (st_peers s) -> len p = PublicKeySize -> map_Forall (fun _ => json_peer) (st_peers s') ->
  enumerates order' (st_peers s') ->
  Observe fs s order order' name address p now io = (fs', s', (q, lvl, r)) ->
  (r = Ok tt /\ OpenStore fs' (st_path s) false = Ok s') \/
  (r = Err StoreIO /\ fs' !! st_path s = fs !! st_path s).
Proof.
  intros Hi Hp Hj He Ho. apply Observe_mem in Ho as (Ho & Hpath & Hs).
  pose proof (observe_inv _ order name address p now Hi Hp) as Hi'. rewrite Ho in Hi'.
  rewrite <- Hpath. by eapply save_open_aux.
Qed.

(** Names are not protected against a key that is already on file: a peer
    known as someone else can present the name of another peer without being
    flagged, and then [Verify] of that name may, depending on the iteration
    order, mark the wrong key as verified while the right one stays unverified. *)
Theorem rename_evades_detection fs s order order' ka km a x name address now io fs' s' q lvl r :
  enumerates order (st_peers s) ->
  st_peers s !! peerID ka = Some a -> p_name a = name -> p_verified a = false ->
  st_peers s !! peerID km = Some x -> p_verified x = false -> peerID ka <> peerID km ->
  Observe fs s order order' name address km now io = (fs', s', (q, lvl, r)) ->
  lvl = TrustUnverified /\
  exists ord, enumerates ord (st_peers s') /\ forall fs1 ord' io1 fs2 s2 v,
    Verify fs1 s' ord ord' name io1 = (fs2, s2, v) ->
    trusted (st_peers s2) (peerID km) /\ ~ trusted (st_peers s2) (peerID ka).
Proof.
  intros He Ha Hn Hav Hx Hxv Hne Ho. apply Observe_mem in Ho as (Ho & _ & _). unfold observe in Ho.
  rewrite Hx in Ho. injection Ho as Hm <- <-. unfold level. cbn [p_verified]. rewrite Hxv. split; [done|].
  set (x' := mkPeer _ _ _ _ _ _ _ _) in Hm.
  exists (peerID km :: filter (fun id => id <> peerID km) order). split.
  - destruct He as [Hnd Hall]. split.
    + apply NoDup_cons. split; [by intros [? _]%list_elem_of_filter|by apply NoDup_filter].
    + intros id. rewrite <- Hm, elem_of_cons, list_elem_of_filter, Hall.
      destruct (decide (id = peerID km)) as [->|Hd].
      * rewrite lookup_insert_eq. split; eauto.
      * rewrite lookup_insert_ne by done. split; [by intros [?|[_ ?]]|by auto].
  - intros fs1 ord' io1 fs2 s2 v. unfold Verify, findByNameLocked. cbn [find_named].
    rewrite <- Hm, lookup_insert_eq. rewrite decide_True by done.
    unfold verify_record. rewrite (decide_False (P := 0 < len (p_pending x'))) by (intros Hc; done).
    destruct (saveLocked _ _ _ _). intros [= <- <- <-]. cbn [st_peers].
    rewrite !trusted_insert. split; [by left|]. intros [[? _]|[_ Ht]]; [done|].
    destruct Ht as [[? _]|[_ (p & Hp & Hv)]]; [done|]. congruence.
Qed.
End store.

(** ** A concrete codec and sample stores *)
Module ToyPeers.
Import ToyId.

Definition put_peer (p : Peer) : bytes :=
  put_field (p_name p) ++ put_field (p_key p) ++ put_field (p_fingerprint p) ++
  put_field [if p_verified p then x01 else x00] ++ put_field (p_address p) ++
  put_field (be_put 8 (p_first p)) ++ put_field (be_put 8 (p_last p)) ++ put_field (p_pending p).

Definition get_peer (b : bytes) : option (Peer * bytes) :=
  '(n, b) ← get_field b; '(k, b) ← get_field b; '(f, b) ← get_field b; '(v, b) ← get_field b;
  '(a, b) ← get_field b; '(t1, b) ← get_field b; '(t2, b) ← get_field b; '(pe, b) ← get_field b;
  Some (mkPeer n k f (bool_decide (v = [x01])) a (be_get t1) (be_get t2) pe, b).

Fixpoint put_peers (l : list Peer) : bytes :=
  match l with [] => [x00] | p :: rest => x01 :: put_peer p ++ put_peers rest end.

Fixpoint get_peers (fuel : nat) (b : bytes) : option (list (option Peer)) :=
  match fuel, b with
  | S n, x01 :: b' => '(p, r) ← get_peer b'; l ← get_peers n r; Some (Some p :: l)
  | _, x00 :: _ => Some []
  | _, _ => None
  end.

#[export] Instance json : PeersJSON :=
  {| json_marshal_peers := fun l => Some (put_peers l);
     json_unmarshal_peers := fun b => get_peers (length b) b |}.

Definition timely (p : Peer) : Prop := is_uint 64 (p_first p) /\ is_uint 64 (p_last p).

Lemma get_put_peer p rest : timely p -> get_peer (put_peer p ++ rest) = Some (p, rest).
Proof.
  intros [H1 H2]. unfold get_peer, put_peer. rewrite <- !app_assoc.
  do 8 (rewrite get_put_field; cbn [mbind option_bind]).
  rewrite !be_get_put_small by done. destruct p as [? ? ? [] ? ? ? ?]; done.
Qed.

Lemma get_put_peers l : forall fuel, (length l <= fuel)%nat -> Forall timely l ->
  get_peers fuel (put_peers l) = Some (Some <$> l).
Proof.
  induction l as [|p l IH]; intros fuel Hf Hl; [by destruct fuel|].
  destruct fuel as [|fuel]; [cbn in Hf; lia|]. apply Forall_cons_iff in Hl as [Hp Hl].
  cbn [put_peers get_peers]. rewrite get_put_peer by done. cbn [mbind option_bind].
  rewrite IH; [done|cbn in Hf; lia|done].
Qed.

Lemma put_peers_length l : (length l <= length (put_peers l))%nat.
Proof. induction l; cbn; [lia|]. rewrite length_app. lia. Qed.

#[export] Instance json_laws : PeersJSONLaws.
Proof.
  refine (Build_PeersJSONLaws _ timely _). intros l Hl. eexists. split; [done|].
  apply get_put_peers; [apply put_peers_length|done].
Defined.

Definition key_of (c : byte) : bytes := replicate 32 c.
Definition rec_of (c : byte) (name : string) : Peer :=
  mkPeer (str name) (key_of c) (peerID (key_of c)) false [] 1 1 [].
Definition store : Store :=
  mkStore (str "peers.json") (<[peerID (key_of x0a) := rec_of x0a "alice"]>
                              {[peerID (key_of x0d) := rec_of x0d "mallory"]}).
Definition order : list bytes := [peerID (key_of x0a); peerID (key_of x0d)].

Lemma ids_differ : peerID (key_of x0a) <> peerID (key_of x0d).
Proof. apply (bool_decide_unpack _). vm_compute. exact I. Qed.

Lemma enum_two k1 k2 (p1 p2 : Peer) : k1 <> k2 -> enumerates [k1; k2] (<[k1 := p1]> {[k2 := p2]}).
Proof.
  intros Hne. split.
  - apply NoDup_cons. split; [|apply NoDup_singleton]. by intros Hin%list_elem_of_singleton.
  - intros id. rewrite elem_of_cons, list_elem_of_singleton, lookup_insert_is_Some, lookup_singleton_is_Some.
    destruct (decide (id = k1)); naive_solver.
Qed.

Lemma store_enum : enumerates order (st_peers store).
Proof. apply enum_two, ids_differ. Qed.

Lemma store_ok : store_inv (st_peers store).
Proof.
  apply map_Forall_insert_2; [|apply map_Forall_singleton];
    (split; [reflexivity|split; [reflexivity|split; [reflexivity|left; reflexivity]]]).
Qed.

Lemma store_lookup_a : st_peers store !! peerID (key_of x0a) = Some (rec_of x0a "alice").
Proof. apply lookup_insert_eq. Qed.

Lemma store_lookup_m : st_peers store !! peerID (key_of x0d) = Some (rec_of x0d "mallory").
Proof. unfold store. cbn [st_peers]. rewrite lookup_insert_ne by apply ids_differ. apply lookup_insert_eq. Qed.
End ToyPeers.
Import Crypto.Toy ToyId ToyPeers.

(** Mallory presents the name of Alice. *)
Definition renamed : gmap bytes bytes * Store * (Peer * TrustLevel * res peers_err unit) :=
  Observe ∅ store order order (str "alice") [] (key_of x0d) 7 IoOk.

Lemma rename_evades_detection_witness :
  let '(_, s', (_, lvl, _)) := renamed in
  lvl = TrustUnverified /\
  exists ord, enumerates ord (st_peers s') /\ forall fs1 ord' io1 fs2 s2 v,
    Verify fs1 s' ord ord' (str "alice") io1 = (fs2, s2, v) ->
    trusted (st_peers s2) (peerID (key_of x0d)) /\ ~ trusted (st_peers s2) (peerID (key_of x0a)).
Proof.
  destruct renamed as [[f s] [[q l] r]] eqn:E. unfold renamed in E.
  exact (rename_evades_detection ∅ store order order (key_of x0a) (key_of x0d) (rec_of x0a "alice")
    (rec_of x0d "mallory") (str "alice") [] 7 IoOk f s q l r store_enum store_lookup_a eq_refl eq_refl
    store_lookup_m eq_refl ids_differ E).
Defined.

Definition seen_alice : gmap bytes bytes * Store * (Peer * TrustLevel * res peers_err unit) :=
  Observe ∅ store order order (str "alice") (str "10.0.0.1:7331") (key_of x0a) 9 IoOk.

Lemma seen_enum : enumerates order (st_peers seen_alice.1.2).
Proof.
  assert (E : st_peers seen_alice.1.2 = (observe (st_peers store) order (str "alice")
    (str "10.0.0.1:7331") (key_of x0a) 9).1.1).
  { unfold seen_alice, Observe. destruct (observe _ _ _ _ _ _) as [[m q] l].
    by destruct (saveLocked _ _ _ _). }
  rewrite E. unfold observe. rewrite store_lookup_a. cbn [fst]. unfold store, order. cbn [st_peers].
  rewrite insert_insert_eq. apply enum_two, ids_differ.
Qed.

Lemma seen_step : step (OpObserve (str "alice") (str "10.0.0.1:7331") (key_of x0a) 9) store seen_alice.1.2.
Proof.
  destruct seen_alice as [[f s] r] eqn:E. unfold seen_alice in E.
  eapply step_observe; [reflexivity|apply store_enum|exact E].
Qed.

Lemma trust_needs_verify_witness : same_trust (st_peers store) (st_peers seen_alice.1.2).
Proof.
  apply (trust_needs_verify [OpObserve (str "alice") (str "10.0.0.1:7331") (key_of x0a) 9] store).
  - exact (steps_cons _ [] _ _ _ seen_step (steps_nil _)).
  - apply Forall_singleton. exact I.
Defined.

Lemma store_keyed_witness : store_inv (st_peers seen_alice.1.2).
Proof.
  apply (store_keyed [OpObserve (str "alice") (str "10.0.0.1:7331") (key_of x0a) 9] store).
  - exact (steps_cons _ [] _ _ _ seen_step (steps_nil _)).
  - apply Forall_singleton. reflexivity.
  - apply store_ok.
Defined.

Lemma observe_level_witness :
  let '(_, s', (_, lvl, _)) := seen_alice in
  lvl = TrustOf store order (str "alice") (key_of x0a) /\
  TrustOf s' order (str "alice") (key_of x0a) = (if decide (lvl = TrustUnknown) then TrustUnverified else lvl).
Proof.
  pose proof seen_enum as He. destruct seen_alice as [[f s] [[q l] r]] eqn:E.
  unfold seen_alice in E.
  exact (observe_level ∅ store order order order order (str "alice") (str "10.0.0.1:7331") (key_of x0a) 9 IoOk
    f s q l r store_enum store_enum He E).
Defined.

Lemma seen_timely : map_Forall (fun _ => timely) (st_peers seen_alice.1.2).
Proof. apply (bool_decide_unpack _). vm_compute. exact I. Qed.

Lemma observe_persists_witness :
  let '(fs', s', (_, _, r)) := seen_alice in
  (r = Ok tt /\ OpenStore fs' (str "peers.json") false = Ok s') \/
  (r = Err StoreIO /\ fs' !! str "peers.json" = None).
Proof.
  pose proof seen_enum as He. pose proof seen_timely as Ht. destruct seen_alice as [[f s] [[q l] r]] eqn:E.
  unfold seen_alice in E.
  exact (observe_persists ∅ store order order (str "alice") (str "10.0.0.1:7331") (key_of x0a) 9 IoOk f s q l r
    store_ok eq_refl Ht He E).
Defined.
