(* ===== verification/Messages.v ===== *)
(** Control messages of the rendezvous protocol: [src/internal/rendezvous/messages.go]
    and [src/internal/relay/encoding.go], with the base64 encoding
    ([base64.StdEncoding]) their binary fields use.  The JSON codec is a
    parameter. *)
From Stdlib Require Import ZArith Lia.
From Stdlib Require Import Strings.Byte.
From stdpp Require Import base list strings numbers option.
From S2P Require Import Prelude.

(** ** Base64 *)
Definition alphabet : bytes := str "ABCDEFGHIJKLMNOPQRSTUVWXYZabcdefghijklmnopqrstuvwxyz0123456789+/".

Definition digit (v : Z) : byte := nth (Z.to_nat (v mod 64)) alphabet x3d.

Definition pad : byte := x3d.

Fixpoint EncodeToString (b : bytes) : bytes :=
  match b with
  | x :: y :: z :: rest =>
      let v := be_get [x; y; z] in
      digit (Z.shiftr v 18) :: digit (Z.shiftr v 12) :: digit (Z.shiftr v 6) :: digit v ::
      EncodeToString rest
  | [x; y] =>
      let v := be_get [x; y; x00] in
      [digit (Z.shiftr v 18); digit (Z.shiftr v 12); digit (Z.shiftr v 6); pad]
  | [x] =>
      let v := be_get [x; x00; x00] in
      [digit (Z.shiftr v 18); digit (Z.shiftr v 12); pad; pad]
  | [] => []
  end.

(** The value of an alphabet character. *)
Definition undigit (c : byte) : option Z :=
  (fun i => Z.of_nat i.1) <$> list_find (fun d => d = c) alphabet.

(** The decoder works on quanta of four characters; a padded quantum ends the
    input, and the unused low bits of a padded quantum are ignored. *)
Fixpoint decode_quanta (s : bytes) : option bytes :=
  match s with
  | [] => Some []
  | a :: b :: c :: d :: rest =>
      va ← undigit a; vb ← undigit b;
      if decide (c = pad) then
        if decide (d = pad /\ rest = []) then
          Some (take 1 (be_put 3 (va * 2 ^ 18 + vb * 2 ^ 12)))
        else None
      else
        vc ← undigit c;
        if decide (d = pad) then
          if decide (rest = []) then Some (take 2 (be_put 3 (va * 2 ^ 18 + vb * 2 ^ 12 + vc * 2 ^ 6)))
          else None
        else
          vd ← undigit d;
          t ← decode_quanta rest;
          Some (be_put 3 (va * 2 ^ 18 + vb * 2 ^ 12 + vc * 2 ^ 6 + vd) ++ t)
  | _ => None
  end.

(** Line breaks are skipped. *)
Definition DecodeString (s : bytes) : option bytes :=
  decode_quanta (filter (fun c => c <> x0a /\ c <> x0d) s).

(** ** Messages *)
Record Message := mkMessage {
  m_type : bytes;
  m_rid : bytes;
  m_candidates : bytes;
  m_observed : bytes;
  m_role : bytes;
  m_peer_candidates : bytes;
  m_peer_observed : bytes;
  m_punch_ms : Z;
  m_ticket : bytes;
  m_reason : bytes
}.

Definition MsgPublish : bytes := str "publish".
Definition MsgPublished : bytes := str "published".
Definition MsgClaim : bytes := str "claim".
Definition MsgPaired : bytes := str "paired".
Definition MsgCircuit : bytes := str "circuit".
Definition MsgCircuitOK : bytes := str "circuit_ok".
Definition MsgError : bytes := str "error".
Definition MsgBye : bytes := str "bye".
Definition RolePublisher : bytes := str "publisher".
Definition RoleClaimer : bytes := str "claimer".
Definition MaxControlFrame : Z := 8192.

Inductive message_err := ErrControlTooLarge | BadControl | NoType | BadBase64 | WrongSize (n : Z).

Class MessageJSON := {
  json_marshal_message : Message -> option bytes;
  json_unmarshal_message : bytes -> option Message
}.

Class MessageJSONLaws `{MessageJSON} := {
  json_message : Message -> Prop;
  json_message_roundtrip m : json_message m ->
    exists b, json_marshal_message m = Some b /\ json_unmarshal_message b = Some m
}.

Section operations.
Context `{MessageJSON}.

Definition EncodeMessage (m : Message) : res message_err bytes :=
  match json_marshal_message m with
  | None => Err BadControl
  | Some buf => if decide (MaxControlFrame < len buf) then Err ErrControlTooLarge else Ok buf
  end.

Definition DecodeMessage (buf : bytes) : res message_err Message :=
  if decide (MaxControlFrame < len buf) then Err ErrControlTooLarge
  else match json_unmarshal_message buf with
       | None => Err BadControl
       | Some m => if decide (m_type m = []) then Err NoType else Ok m
       end.
End operations.

Definition b64 (b : bytes) : bytes := EncodeToString b.

Definition unb64 (s : bytes) (max : Z) : res message_err bytes :=
  match DecodeString s with
  | None => Err BadBase64
  | Some b => if decide (max < len b) then Err (WrongSize (len b)) else Ok b
  end.

(** [relay.decodeExact] and [relay.encode] *)
Definition decodeExact (s : bytes) (want : Z) : res message_err bytes :=
  match DecodeString s with
  | None => Err BadBase64
  | Some b => if decide (len b <> want) then Err (WrongSize (len b)) else Ok b
  end.

Definition encode (b : bytes) : bytes := EncodeToString b.

(** ** Base64 round trip *)
Definition digit_spec (n : nat) : bool :=
  let c := nth n alphabet x3d in
  bool_decide (undigit c = Some (Z.of_nat n)) && bool_decide (c <> pad) &&
  bool_decide (c <> x0a) && bool_decide (c <> x0d).

Lemma digits_checked : forallb digit_spec (seq 0 64) = true.
Proof. vm_compute. reflexivity. Qed.

Lemma digit_ok v :
  undigit (digit v) = Some (v mod 64) /\ digit v <> pad /\ digit v <> x0a /\ digit v <> x0d.
Proof.
  pose proof (Z.mod_pos_bound v 64 eq_refl) as Hv.
  pose proof (proj1 (forallb_forall _ _) digits_checked (Z.to_nat (v mod 64))) as Hd.
  specialize (Hd ltac:(apply in_seq; lia)). unfold digit_spec in Hd.
  rewrite !andb_true_iff, !bool_decide_eq_true in Hd. destruct Hd as [[[Hu Hp] Hn] Hr].
  rewrite Z2Nat.id in Hu by lia. done.
Qed.

Lemma undigit_digit v : undigit (digit v) = Some (v mod 64).
Proof. apply digit_ok. Qed.

Lemma sextets v : 0 <= v < 2 ^ 24 ->
  Z.shiftr v 18 mod 64 * 2 ^ 18 + Z.shiftr v 12 mod 64 * 2 ^ 12 + Z.shiftr v 6 mod 64 * 2 ^ 6 + v mod 64 = v.
Proof.
  intros Hv. rewrite !Z.shiftr_div_pow2 by lia. change (2 ^ 18) with (64 * 64 * 64).
  change (2 ^ 12) with (64 * 64). change (2 ^ 6) with 64. change (2 ^ 24) with (64 * 64 * 64 * 64) in Hv.
  rewrite <- !Z.div_div by lia.
  pose proof (Z.div_mod v 64). pose proof (Z.div_mod (v / 64) 64). pose proof (Z.div_mod (v / 64 / 64) 64).
  rewrite (Z.mod_small (v / 64 / 64 / 64)).
  - lia.
  - split; [repeat apply Z.div_pos; lia|]. repeat (apply Z.div_lt_upper_bound; [lia|]). lia.
Qed.

Lemma be3 (x y z : byte) : be_put 3 (be_get [x; y; z]) = [x; y; z].
Proof. apply (be_put_get [x; y; z]). Qed.

Lemma be3_range (x y z : byte) : 0 <= be_get [x; y; z] < 2 ^ 24.
Proof. apply (be_get_range [x; y; z]). Qed.

(** The low bits of a short quantum are zero. *)
Lemma low_zero (x y z : byte) k : 0 <= k -> be_get [x; y; z] mod 2 ^ k = 0 ->
  forall j, 0 <= j -> 2 ^ j * 64 = 2 ^ k -> Z.shiftr (be_get [x; y; z]) j mod 64 = 0.
Proof.
  intros Hk Hz j Hj He. rewrite Z.shiftr_div_pow2 by lia.
  apply Z.mod_divide in Hz as [q ->]; [|lia]. rewrite <- He.
  replace (q * (2 ^ j * 64)) with (q * 64 * 2 ^ j) by ring. rewrite Z.div_mul by lia. apply Z.mod_mul. lia.
Qed.

Lemma be3_mod (x y : byte) :
  be_get [x; y; x00] mod 2 ^ 6 = 0 /\ be_get [x; x00; x00] mod 2 ^ 6 = 0 /\ be_get [x; x00; x00] mod 2 ^ 12 = 0.
Proof.
  rewrite !be_get_cons, !len_cons, !len_nil. change (be_get []) with 0. change (byte_val x00) with 0.
  split_and!; apply Z.mod_divide; try lia.
  - exists (byte_val x * 2 ^ 10 + byte_val y * 4). cbn. lia.
  - exists (byte_val x * 2 ^ 10). cbn. lia.
  - exists (byte_val x * 2 ^ 4). cbn. lia.
Qed.

Lemma decode_full (x y z : byte) rest t : decode_quanta rest = Some t ->
  let v := be_get [x; y; z] in
  decode_quanta (digit (Z.shiftr v 18) :: digit (Z.shiftr v 12) :: digit (Z.shiftr v 6) :: digit v :: rest) =
  Some (x :: y :: z :: t).
Proof.
  intros Hr v. cbn [decode_quanta]. rewrite !undigit_digit. cbn [mbind option_bind].
  rewrite !decide_False by apply digit_ok. cbn [mbind option_bind]. rewrite Hr. cbn [mbind option_bind].
  rewrite sextets by apply be3_range. subst v. by rewrite be3.
Qed.

Lemma decode_two (x y : byte) :
  let v := be_get [x; y; x00] in
  decode_quanta [digit (Z.shiftr v 18); digit (Z.shiftr v 12); digit (Z.shiftr v 6); pad] = Some [x; y].
Proof.
  intros v. cbn [decode_quanta]. rewrite !undigit_digit. cbn [mbind option_bind].
  rewrite (decide_False (P := digit _ = pad)) by apply digit_ok. rewrite !decide_True by done.
  cbn [mbind option_bind].
  pose proof (sextets v (be3_range _ _ _)) as Hs. destruct (be3_mod x y) as (Hz & _).
  change (v mod 64 = 0) in Hz. rewrite Hz, Z.add_0_r in Hs. rewrite Hs. subst v. by rewrite be3.
Qed.

Lemma decode_one (x : byte) :
  let v := be_get [x; x00; x00] in
  decode_quanta [digit (Z.shiftr v 18); digit (Z.shiftr v 12); pad; pad] = Some [x].
Proof.
  intros v. cbn [decode_quanta]. rewrite !undigit_digit. cbn [mbind option_bind].
  rewrite !decide_True by done.
  pose proof (sextets v (be3_range _ _ _)) as Hs. destruct (be3_mod x x00) as (_ & Hz & Hz').
  change (v mod 64 = 0) in Hz. pose proof (low_zero _ _ _ 12 ltac:(lia) Hz' 6 ltac:(lia) eq_refl) as H6.
  change (Z.shiftr v 6 mod 64 = 0) in H6. rewrite Hz, H6, Z.mul_0_l, !Z.add_0_r in Hs.
  rewrite Hs. subst v. by rewrite be3.
Qed.

Lemma decode_encode_quanta n : forall b, (length b <= n)%nat -> decode_quanta (EncodeToString b) = Some b.
Proof.
  induction n as [|n IH]; intros b Hb.
  { destruct b; [done|cbn in Hb; lia]. }
  destruct b as [|x [|y [|z rest]]].
  - done.
  - apply decode_one.
  - apply decode_two.
  - apply decode_full, IH. cbn in Hb. lia.
Qed.

Lemma encode_no_breaks n : forall b, (length b <= n)%nat ->
  filter (fun c => c <> x0a /\ c <> x0d) (EncodeToString b) = EncodeToString b.
Proof.
  induction n as [|n IH]; intros b Hb.
  { destruct b; [done|cbn in Hb; lia]. }
  assert (Hp : pad <> x0a /\ pad <> x0d) by done.
  destruct b as [|x [|y [|z rest]]]; cbn [EncodeToString]; cbv zeta; [done|..];
    repeat (rewrite filter_cons_True; [f_equal|by apply Hp || apply digit_ok]); try done.
  apply IH. cbn in Hb. lia.
Qed.

Lemma decode_encode b : DecodeString (EncodeToString b) = Some b.
Proof.
  unfold DecodeString. rewrite (encode_no_breaks (length b)) by done. by apply (decode_encode_quanta (length b)).
Qed.

Lemma encode_inj a b : EncodeToString a = EncodeToString b -> a = b.
Proof. intros H%(f_equal DecodeString). rewrite !decode_encode in H. congruence. Qed.

(** Binary fields survive the wire: whatever the bytes, decoding their
    base64 text with a sufficient size bound, or with the exact size, returns
    them, and distinct values have distinct texts. *)
Theorem base64_fields b max : len b <= max ->
  unb64 (b64 b) max = Ok b /\ decodeExact (encode b) (len b) = Ok b /\
  (forall b', encode b = encode b' -> b = b').
Proof.
  intros Hl. unfold unb64, b64, decodeExact, encode. rewrite !decode_encode.
  rewrite decide_False by lia. rewrite decide_False by (intros Hc; by apply Hc).
  split_and!; [done|done|apply encode_inj].
Qed.

Lemma base64_fields_witness : unb64 (b64 (str "any bytes")) 9 = Ok (str "any bytes").
Proof. apply (base64_fields (str "any bytes") 9). vm_compute. discriminate. Defined.
