(* ===== verification/Relay.v ===== *)
(** The relay server: [src/internal/relay/server.go] and [src/internal/relay/limits.go].

    The server state is the Go struct; connections and circuits are object
    identities (natural numbers), and the circuits live in a heap because two
    tickets refer to one circuit.  Each block the code runs under its mutex is
    one definition; the handlers are their compositions.  The clock, the
    randomness and the outcome of every send are arguments. *)
From Stdlib Require Import ZArith Lia.
From Stdlib Require Import Strings.Byte.
From stdpp Require Import base list gmap strings numbers option fin_maps.
From S2P Require Import Prelude Crypto GoStrings Messages.

(** ** Limits *)
Record Limits := mkLimits {
  CodeTTL : Z;               (* durations in nanoseconds *)
  MaxPendingCodes : Z;
  MaxCircuits : Z;
  CircuitIdle : Z;
  CircuitLifetime : Z;
  CircuitBytes : Z;
  MaxConnsPerIP : Z;
  PublishesPerIPPerMin : Z;
  PunchDelay : Z
}.

Definition Millisecond : Z := 1000000.
Definition Second : Z := 1000 * Millisecond.
Definition Minute : Z := 60 * Second.

Definition DefaultLimits : Limits :=
  mkLimits (5 * Minute) 4096 512 (90 * Second) (12 * 60 * Minute) (Z.shiftl 256 20) 32 30 (250 * Millisecond).

Record window := mkWindow { w_count : Z; w_start : Z }.

(** [rateCounter.allow]: a fixed window per key. *)
Definition allow (r : gmap bytes window) (k : bytes) (limit per now : Z) : gmap bytes window * bool :=
  match r !! k with
  | None => (<[k := mkWindow 1 now]> r, true)
  | Some w =>
      if decide (per < now - w_start w) then (<[k := mkWindow 1 now]> r, true)
      else if decide (limit <= w_count w) then (r, false)
      else (<[k := mkWindow (w_count w + 1) (w_start w)]> r, true)
  end.

Definition sweep (r : gmap bytes window) (per now : Z) : gmap bytes window :=
  filter (fun kv => ~ per < now - w_start kv.2) r.

(** ** Server *)
Definition rendezvousIDSize : Z := 16.
Definition TicketSize : Z := 32.
Definition maxReapInterval : Z := 30 * Second.

Definition reapInterval (ttl : Z) : Z :=
  let d := ttl ÷ 2 in
  if decide (maxReapInterval < d) then maxReapInterval
  else if decide (d < Millisecond) then Millisecond else d.

Record pendingCode := mkPending {
  pc_conn : nat;
  pc_sealed : bytes;
  pc_observed : bytes;
  pc_created : Z
}.

Record circuit := mkCircuit {
  conn0 : option nat;
  conn1 : option nat;
  started : bool;
  c_created : Z;
  released : bool
}.

Record Server := mkServer {
  limits : Limits;
  pending : gmap bytes pendingCode;
  tickets : gmap bytes (nat * bool);   (* circuit and side: false is 0, true is 1 *)
  circuits : Z;
  ipConns : gmap bytes Z;
  publishes : gmap bytes window;
  heap : gmap nat circuit
}.

Definition New (l : Limits) : Server := mkServer l ∅ ∅ 0 ∅ ∅ ∅.

Definition set_pending (s : Server) (p : gmap bytes pendingCode) : Server :=
  mkServer (limits s) p (tickets s) (circuits s) (ipConns s) (publishes s) (heap s).
Definition set_tickets (s : Server) (t : gmap bytes (nat * bool)) : Server :=
  mkServer (limits s) (pending s) t (circuits s) (ipConns s) (publishes s) (heap s).
Definition set_circuits (s : Server) (n : Z) : Server :=
  mkServer (limits s) (pending s) (tickets s) n (ipConns s) (publishes s) (heap s).
Definition set_ipConns (s : Server) (m : gmap bytes Z) : Server :=
  mkServer (limits s) (pending s) (tickets s) (circuits s) m (publishes s) (heap s).
Definition set_publishes (s : Server) (r : gmap bytes window) : Server :=
  mkServer (limits s) (pending s) (tickets s) (circuits s) (ipConns s) r (heap s).
Definition set_heap (s : Server) (h : gmap nat circuit) : Server :=
  mkServer (limits s) (pending s) (tickets s) (circuits s) (ipConns s) (publishes s) h.

Definition sourceIP (remoteAddr : bytes) : bytes :=
  match SplitHostPort remoteAddr with Ok (host, _) => host | _ => remoteAddr end.

(** *** Per-source connection counts *)
Definition acquireIP (s : Server) (ip : bytes) : Server * bool :=
  let n := default 0 (ipConns s !! ip) in
  if decide (MaxConnsPerIP (limits s) <= n) then (s, false)
  else (set_ipConns s (<[ip := n + 1]> (ipConns s)), true).

Definition releaseIP (s : Server) (ip : bytes) : Server :=
  let n := default 0 (ipConns s !! ip) in
  if decide (n <= 1) then set_ipConns s (delete ip (ipConns s))
  else set_ipConns s (<[ip := n - 1]> (ipConns s)).

(** *** Invite codes *)
Definition addPending (s : Server) (rid : bytes) (conn : nat) (sealed observed : bytes) (now : Z) :
  Server * bool :=
  if decide (MaxPendingCodes (limits s) <= Z.of_nat (size (pending s))) then (s, false)
  else (set_pending s (<[rid := mkPending conn sealed observed now]> (pending s)), true).

Definition dropPending (s : Server) (rid : bytes) (conn : nat) : Server :=
  match pending s !! rid with
  | Some p => if decide (pc_conn p = conn) then set_pending s (delete rid (pending s)) else s
  | None => s
  end.

(** *** Circuit slots *)
Definition releaseCircuit (s : Server) : Server :=
  if decide (0 < circuits s) then set_circuits s (circuits s - 1) else s.

(** [released.Do(s.releaseCircuit)] *)
Definition releaseOnce (s : Server) (cid : nat) : Server :=
  match heap s !! cid with
  | Some c =>
      if released c then s
      else releaseCircuit (set_heap s (<[cid := mkCircuit (conn0 c) (conn1 c) (started c) (c_created c) true]>
                                         (heap s)))
  | None => s
  end.

Definition dropCircuit (s : Server) (cid : nat) (ts : list bytes) : Server :=
  releaseOnce (set_tickets s (foldr delete (tickets s) ts)) cid.

(** *** Pairing *)
Inductive pair_err := NoSuchCode | OwnCode | AtCapacity | InternalError | PeerWentAway.

Definition pair_reserve (s : Server) (rid : bytes) (claimer : nat) : Server * res pair_err pendingCode :=
  match pending s !! rid with
  | None => (s, Err NoSuchCode)
  | Some p =>
      if decide (pc_conn p = claimer) then (s, Err OwnCode)
      else if decide (MaxCircuits (limits s) <= circuits s) then (s, Err AtCapacity)
      else (set_circuits (set_pending s (delete rid (pending s))) (circuits s + 1), Ok p)
  end.

Definition NewTicket (rng : bytes) : res crypto_err bytes := RandomBytes TicketSize rng.

(** The two tickets are two consecutive draws. *)
Definition pair_tickets (rng : bytes) : res pair_err (bytes * bytes) :=
  match NewTicket rng with
  | Ok a => match NewTicket (drop (Z.to_nat TicketSize) rng) with
            | Ok b => Ok (a, b)
            | _ => Err InternalError
            end
  | _ => Err InternalError
  end.

(** The identity of a newly allocated circuit. *)
Definition new_circuit (s : Server) : nat := fresh (elements (dom (heap s) : gset nat)).

Definition pair_issue (s : Server) (a b : bytes) (now : Z) : Server * nat :=
  let cid := new_circuit s in
  (set_heap (set_tickets s (<[encode b := (cid, true)]> (<[encode a := (cid, false)]> (tickets s))))
     (<[cid := mkCircuit None None false now false]> (heap s)), cid).

Definition paired_message (rid role cand observed : bytes) (punchMS : Z) (ticket : bytes) : Message :=
  mkMessage MsgPaired rid [] [] role cand observed punchMS ticket [].

Definition out : Type := list (nat * Message).

(** [pair] run without interruption; [sent_p] and [sent_c] are the outcomes of
    the two sends. *)
Definition pair (s : Server) (rid : bytes) (claimer : nat) (claimerSealed claimerAddr : bytes)
  (rng : bytes) (now : Z) (sent_p sent_c : bool) : Server * out * res pair_err unit :=
  let '(s1, r) := pair_reserve s rid claimer in
  match r with
  | Err e => (s1, [], Err e)
  | Panic => (s1, [], Panic)
  | Ok p =>
      match pair_tickets rng with
      | Ok (a, b) =>
          let '(s2, cid) := pair_issue s1 a b now in
          let punchMS := PunchDelay (limits s) ÷ Millisecond in
          let msgs :=
            [(pc_conn p, paired_message rid RolePublisher claimerSealed claimerAddr punchMS (encode a));
             (claimer, paired_message rid RoleClaimer (pc_sealed p) (pc_observed p) punchMS (encode b))] in
          if negb sent_p || negb sent_c
          then (dropCircuit s2 cid [encode a; encode b], msgs, Err PeerWentAway)
          else (s2, msgs, Ok tt)
      | Err e => (releaseCircuit s1, [], Err e)
      | Panic => (releaseCircuit s1, [], Panic)
      end
  end.

(** *** Circuits *)
Definition redeem (s : Server) (ticket : bytes) : Server * option (nat * bool) :=
  match tickets s !! ticket with
  | Some ref => (set_tickets s (delete ticket (tickets s)), Some ref)
  | None => (s, None)
  end.

(** Set this half's connection; whether it is the half that splices. *)
Definition attach (s : Server) (cid : nat) (side : bool) (conn : nat) : Server * bool :=
  match heap s !! cid with
  | Some c =>
      let '(c0, c1) := if side then (conn0 c, Some conn) else (Some conn, conn1 c) in
      let other := if side then c0 else c1 in
      let second := bool_decide (is_Some other) && negb (started c) in
      (set_heap s (<[cid := mkCircuit c0 c1 (started c || second) (c_created c) (released c)]> (heap s)), second)
  | None => (s, false)
  end.

(** One read of the forwarding loop: the bytes read, whether the read reported
    an error, and how many bytes the write accepted if it failed. *)
Record transfer := mkTransfer { t_data : bytes; t_err : bool; t_write : option nat }.

(** [pump] returns the bytes it wrote to the other side. *)
Fixpoint pump (limit total : Z) (reads : list transfer) : bytes :=
  match reads with
  | [] => []
  | r :: rest =>
      let n := len (t_data r) in
      if decide (0 < n) then
        if decide (limit < total + n) then []
        else match t_write r with
             | Some k => take k (t_data r)
             | None => t_data r ++ (if t_err r then [] else pump limit (total + n) rest)
             end
      else if t_err r then [] else pump limit total rest
  end.

(** [splice] runs [pump] both ways until one of them stops, the lifetime is over
    or the server closes, and then gives the slot back: the bytes each direction
    wrote, and the state. *)
Definition splice (s : Server) (cid : nat) (ab ba : list transfer) : Server * bytes * bytes :=
  let limit := CircuitBytes (limits s) in
  (releaseOnce s cid, pump limit 0 ab, pump limit 0 ba).

(** What ends the wait of the first half. *)
Inductive wait_end := CircuitDone | IdleTimeout | ServerClosed.

Definition error_message (rid reason : bytes) : Message :=
  mkMessage MsgError rid [] [] [] [] [] 0 [] reason.

(** [attachCircuit]: the half that arrives second splices until the circuit
    ends and releases the slot; the first waits. [ab] and [ba] are the reads of
    the two directions. *)
Definition attachCircuit (s : Server) (conn : nat) (msg : Message) (sent : bool) (w : wait_end)
  (ab ba : list transfer) : Server * out :=
  match decodeExact (m_ticket msg) TicketSize with
  | Ok _ =>
      let '(s1, ref) := redeem s (m_ticket msg) in
      match ref with
      | None => (s1, [(conn, error_message [] (str "unknown or spent ticket"))])
      | Some (cid, side) =>
          let ok := mkMessage MsgCircuitOK [] [] [] [] [] [] 0 [] [] in
          if negb sent then (s1, [(conn, ok)])
          else
            let '(s2, second) := attach s1 cid side conn in
            if second then let '(s3, _, _) := splice s2 cid ab ba in (s3, [(conn, ok)])
            else match w with
                 | IdleTimeout => (releaseOnce s2 cid, [(conn, ok)])
                 | CircuitDone | ServerClosed => (s2, [(conn, ok)])
                 end
      end
  | _ => (s, [(conn, error_message [] (str "malformed ticket"))])
  end.

(** *** The reaper *)
Definition reap (s : Server) (now : Z) : Server :=
  let ttl := CodeTTL (limits s) in
  let pending' := filter (fun kv => ~ ttl < now - pc_created kv.2) (pending s) in
  let tickets' := filter (fun kv => ~ ttl < now - from_option c_created 0 (heap s !! kv.2.1)) (tickets s) in
  set_publishes (set_tickets (set_pending s pending') tickets') (sweep (publishes s) Minute now).

(** *** The control loop *)
Definition checkRID (conn : nat) (msg : Message) : res Message bytes :=
  match decodeExact (m_rid msg) rendezvousIDSize with
  | Ok _ =>
      if decide (MaxControlFrame < len (m_candidates msg))
      then Err (error_message (m_rid msg) (str "candidate list too large")) else Ok (m_rid msg)
  | _ => Err (error_message (m_rid msg) (str "malformed rendezvous id"))
  end.

Definition pair_reason (e : pair_err) : bytes :=
  match e with
  | NoSuchCode => str "no such invite code"
  | OwnCode => str "cannot claim your own invite code"
  | AtCapacity => str "relay is at capacity"
  | InternalError => str "internal error"
  | PeerWentAway => str "peer went away"
  end.

Definition published_message (rid observed : bytes) : Message :=
  mkMessage MsgPublished rid [] observed [] [] [] 0 [] [].

(** What the environment does while one message is served. *)
Record env := mkEnv {
  e_now : Z;
  e_rng : bytes;
  e_sent : bool;        (* the reply to this connection *)
  e_sent_peer : bool;   (* the pairing message to the publisher *)
  e_sent_claim : bool;  (* the pairing message to this connection *)
  e_wait : wait_end;
  e_ab : list transfer;
  e_ba : list transfer
}.

(** One turn of the loop of [serveConn]: the state, the messages sent, the codes
    this connection has published, and whether the loop goes on. *)
Definition serveMessage (s : Server) (conn : nat) (remoteAddr : bytes) (published : list bytes)
  (msg : Message) (e : env) : Server * out * list bytes * bool :=
  if decide (m_type msg = MsgPublish) then
    match checkRID conn msg with
    | Ok rid =>
        let '(r, ok) := allow (publishes s) (sourceIP remoteAddr) (PublishesPerIPPerMin (limits s)) Minute (e_now e) in
        let s1 := set_publishes s r in
        if negb ok then (s1, [(conn, error_message (m_rid msg) (str "rate limit exceeded"))], published, false)
        else
          let '(s2, added) := addPending s1 rid conn (m_candidates msg) remoteAddr (e_now e) in
          if negb added then (s2, [(conn, error_message (m_rid msg) (str "relay is at capacity"))], published, false)
          else (s2, [(conn, published_message rid remoteAddr)], published ++ [rid], e_sent e)
    | Err m => (s, [(conn, m)], published, false)
    | Panic => (s, [], published, false)
    end
  else if decide (m_type msg = MsgClaim) then
    match checkRID conn msg with
    | Ok rid =>
        let reply := (conn, published_message rid remoteAddr) in
        if negb (e_sent e) then (s, [reply], published, false)
        else
          let '(s1, msgs, r) := pair s rid conn (m_candidates msg) remoteAddr (e_rng e) (e_now e)
                                  (e_sent_peer e) (e_sent_claim e) in
          match r with
          | Err err => (s1, reply :: msgs ++ [(conn, error_message rid (pair_reason err))], published, true)
          | _ => (s1, reply :: msgs, published, true)
          end
    | Err m => (s, [(conn, m)], published, false)
    | Panic => (s, [], published, false)
    end
  else if decide (m_type msg = MsgCircuit) then
    let '(s1, msgs) := attachCircuit s conn msg (e_sent e) (e_wait e) (e_ab e) (e_ba e) in (s1, msgs, published, false)
  else if decide (m_type msg = MsgBye) then (s, [], published, false)
  else (s, [(conn, error_message (m_rid msg) (str "unexpected message"))], published, false).

(** [serveConn] until the connection ends: a receive error, or a message that
    ends the loop; the deferred clean-up drops the codes still held. *)
Fixpoint serveConn (s : Server) (conn : nat) (remoteAddr : bytes) (published : list bytes)
  (msgs : list (Message * env)) : Server * out :=
  let cleanup s published := foldl (fun s rid => dropPending s rid conn) s published in
  match msgs with
  | [] => (cleanup s published, [])
  | (m, e) :: rest =>
      let '(s1, o, published', go) := serveMessage s conn remoteAddr published m e in
      if go : bool then let '(s2, o') := serveConn s1 conn remoteAddr published' rest in (s2, o ++ o')
      else (cleanup s1 published', o)
  end.

(** [serveHTTP]: [upgraded] is whether the request is a WebSocket upgrade. *)
Definition serveHTTP (s : Server) (conn : nat) (remoteAddr : bytes) (upgraded : bool)
  (msgs : list (Message * env)) : Server * out :=
  let ip := sourceIP remoteAddr in
  let '(s1, ok) := acquireIP s ip in
  if negb ok then (s1, [])
  else if negb upgraded then (releaseIP s1 ip, [])
  else let '(s2, o) := serveConn s1 conn remoteAddr [] msgs in (releaseIP s2 ip, o).

Definition Stats (s : Server) : Z * Z := (Z.of_nat (size (pending s)), circuits s).
