(* ===== verification/RelayProps.v ===== *)
(** Theorems about the relay server: interleaved executions of the handlers,
    the accounting of circuit slots, single use of codes and tickets, and
    forwarding limits. *)
From Stdlib Require Import ZArith Lia.
From Stdlib Require Import Strings.Byte.
From stdpp Require Import base list gmap strings numbers option fin_maps.
From S2P Require Import Prelude Crypto GoStrings Messages Relay.

(** ** Interleavings

    Handlers run on their own goroutines and interleave between the blocks they
    run under the mutex.  A configuration adds to the server what the running
    handlers hold: how many pairings have reserved a slot and not yet issued
    tickets, the circuits whose pairing messages are still being sent, and the
    redeemed tickets whose connection is not attached yet. *)
Record config := mkConfig {
  srv : Server;
  reserved : nat;
  sending : gset nat;
  redeeming : list (nat * bool)
}.

Inductive event :=
| EvPublish (rid : bytes) (conn : nat) (sealed observed : bytes) (now : Z)
| EvRate (ip : bytes) (limit per now : Z)
| EvDrop (rid : bytes) (conn : nat)
| EvReserve (rid : bytes) (claimer : nat)
| EvTicketFail
| EvIssue (a b : bytes) (now : Z)
| EvSent (cid : nat)
| EvUnsent (cid : nat) (ts : list bytes)
| EvRedeem (ticket : bytes)
| EvReplyFail (cid : nat) (side : bool)
| EvAttach (cid : nat) (side : bool) (conn : nat)
| EvRelease (cid : nat)
| EvReap (now : Z)
| EvAcquire (ip : bytes)
| EvReleaseIP (ip : bytes).

Definition attached (c : circuit) : Prop := is_Some (conn0 c) \/ is_Some (conn1 c).

Inductive step : config -> event -> config -> Prop :=
| st_publish s n u r rid conn sealed observed now s' :
    addPending s rid conn sealed observed now = (s', true) ->
    step (mkConfig s n u r) (EvPublish rid conn sealed observed now) (mkConfig s' n u r)
| st_rate s n u r ip limit per now :
    step (mkConfig s n u r) (EvRate ip limit per now)
         (mkConfig (set_publishes s (allow (publishes s) ip limit per now).1) n u r)
| st_drop s n u r rid conn :
    step (mkConfig s n u r) (EvDrop rid conn) (mkConfig (dropPending s rid conn) n u r)
| st_reserve s n u r rid claimer s' p :
    pair_reserve s rid claimer = (s', Ok p) ->
    step (mkConfig s n u r) (EvReserve rid claimer) (mkConfig s' (S n) u r)
| st_ticket_fail s n u r :
    step (mkConfig s (S n) u r) EvTicketFail (mkConfig (releaseCircuit s) n u r)
| st_issue s n u r a b now s' cid :
    pair_issue s a b now = (s', cid) ->
    step (mkConfig s (S n) u r) (EvIssue a b now) (mkConfig s' n ({[cid]} ∪ u) r)
| st_sent s n u r cid : cid ∈ u ->
    step (mkConfig s n u r) (EvSent cid) (mkConfig s n (u ∖ {[cid]}) r)
| st_unsent s n u r cid ts : cid ∈ u ->
    step (mkConfig s n u r) (EvUnsent cid ts) (mkConfig (dropCircuit s cid ts) n (u ∖ {[cid]}) r)
| st_redeem s n u r ticket s' ref : redeem s ticket = (s', Some ref) ->
    step (mkConfig s n u r) (EvRedeem ticket) (mkConfig s' n u (ref :: r))
| st_reply_fail s n u r1 cid side r2 :
    step (mkConfig s n u (r1 ++ (cid, side) :: r2)) (EvReplyFail cid side) (mkConfig s n u (r1 ++ r2))
| st_attach s n u r1 cid side r2 conn :
    step (mkConfig s n u (r1 ++ (cid, side) :: r2)) (EvAttach cid side conn)
         (mkConfig (attach s cid side conn).1 n u (r1 ++ r2))
| st_release s n u r cid c : heap s !! cid = Some c -> attached c ->
    step (mkConfig s n u r) (EvRelease cid) (mkConfig (releaseOnce s cid) n u r)
| st_reap s n u r now :
    step (mkConfig s n u r) (EvReap now) (mkConfig (reap s now) n u r)
| st_acquire s n u r ip :
    step (mkConfig s n u r) (EvAcquire ip) (mkConfig (acquireIP s ip).1 n u r)
| st_release_ip s n u r ip :
    step (mkConfig s n u r) (EvReleaseIP ip) (mkConfig (releaseIP s ip) n u r).

Inductive steps : config -> list event -> config -> Prop :=
| steps_nil c : steps c [] c
| steps_cons c1 e c2 es c3 : step c1 e c2 -> steps c2 es c3 -> steps c1 (e :: es) c3.

Lemma steps_app c1 es1 c2 es2 c3 : steps c1 es1 c2 -> steps c2 es2 c3 -> steps c1 (es1 ++ es2) c3.
Proof. induction 1; cbn; [done|]. intros. econstructor; eauto. Qed.

Lemma steps_one c e c' : step c e c' -> steps c [e] c'.
Proof. intros. econstructor; [done|constructor]. Qed.

(** ** Accounting of circuit slots *)
Definition live (h : gmap nat circuit) : gmap nat circuit :=
  filter (fun kv => released kv.2 = false) h.

(** Every slot in use belongs to a pairing in progress or to a circuit that has
    not been released. *)
Record slots_inv (c : config) : Prop := {
  sl_count : circuits (srv c) = Z.of_nat (reserved c + size (live (heap (srv c))));
  sl_max : circuits (srv c) <= Z.max 0 (MaxCircuits (limits (srv c)));
  sl_pending : Z.of_nat (size (pending (srv c))) <= Z.max 0 (MaxPendingCodes (limits (srv c)));
  sl_tickets : map_Forall (fun _ ref => is_Some (heap (srv c) !! ref.1)) (tickets (srv c));
  sl_sending : forall cid, cid ∈ sending c -> is_Some (heap (srv c) !! cid);
  sl_redeeming : forall cid side, (cid, side) ∈ redeeming c -> is_Some (heap (srv c) !! cid)
}.

Lemma live_insert_same h cid c c' : h !! cid = Some c -> released c' = released c ->
  size (live (<[cid := c']> h)) = size (live h).
Proof.
  intros Hc Hr. unfold live. destruct (released c) eqn:E.
  - rewrite map_filter_insert_False by (cbn; congruence).
    rewrite map_filter_delete. rewrite delete_id; [done|].
    apply map_lookup_filter_None. right. intros c0 Hc0. cbn. congruence.
  - rewrite map_filter_insert_True by done. rewrite map_size_insert_Some; [done|].
    exists c. apply map_lookup_filter_Some. done.
Qed.

Lemma live_insert_new h cid c : h !! cid = None -> released c = false ->
  size (live (<[cid := c]> h)) = S (size (live h)).
Proof.
  intros Hc Hr. unfold live. rewrite map_filter_insert_True by done.
  rewrite map_size_insert_None; [done|]. apply map_lookup_filter_None. by left.
Qed.

Lemma live_release h cid c c' : h !! cid = Some c -> released c = false -> released c' = true ->
  S (size (live (<[cid := c']> h))) = size (live h).
Proof.
  intros Hc Hr Hr'. unfold live. rewrite map_filter_insert_False by (cbn; congruence).
  rewrite map_filter_delete.
  assert (Hl : filter (fun kv : nat * circuit => released kv.2 = false) h !! cid = Some c)
    by (apply map_lookup_filter_Some; done).
  rewrite map_size_delete_Some by eauto. 
  assert (size (filter (fun kv : nat * circuit => released kv.2 = false) h) <> 0%nat).
  { intros E%map_size_empty_inv. rewrite E in Hl. done. }
  lia.
Qed.

Lemma delete_all_lookup {A} (m : gmap bytes A) ts k a : foldr delete m ts !! k = Some a -> m !! k = Some a.
Proof. induction ts as [|t ts IH]; cbn; [done|]. intros [_ ?]%lookup_delete_Some. auto. Qed.

(** What a block of the server may change: the slots it accounts for. *)
Lemma releaseCircuit_frame s :
  limits (releaseCircuit s) = limits s /\ pending (releaseCircuit s) = pending s /\
  tickets (releaseCircuit s) = tickets s /\ heap (releaseCircuit s) = heap s.
Proof. unfold releaseCircuit. by case_decide. Qed.

Lemma releaseOnce_frame s cid :
  limits (releaseOnce s cid) = limits s /\ pending (releaseOnce s cid) = pending s /\
  tickets (releaseOnce s cid) = tickets s /\
  (forall k, is_Some (heap (releaseOnce s cid) !! k) <-> is_Some (heap s !! k)).
Proof.
  unfold releaseOnce. destruct (heap s !! cid) as [c|] eqn:E; [|done].
  destruct (released c); [done|].
  match goal with |- context [releaseCircuit ?t] => destruct (releaseCircuit_frame t) as (-> & -> & -> & ->) end.
  cbn. split_and!; try done. intros k. rewrite lookup_insert_is_Some. destruct (decide (cid = k)); naive_solver.
Qed.

Lemma releaseOnce_count s cid n : circuits s = Z.of_nat (n + size (live (heap s))) ->
  circuits (releaseOnce s cid) = Z.of_nat (n + size (live (heap (releaseOnce s cid)))) /\
  circuits (releaseOnce s cid) <= circuits s.
Proof.
  intros Hc. unfold releaseOnce. destruct (heap s !! cid) as [c|] eqn:E; [|split; [done|lia]].
  destruct (released c) eqn:Er; [split; [done|lia]|].
  match goal with |- context [releaseCircuit ?t] => set (t0 := t) end.
  pose proof (live_release (heap s) cid c
    (mkCircuit (conn0 c) (conn1 c) (started c) (c_created c) true) E Er eq_refl) as Hl.
  unfold releaseCircuit. rewrite decide_True by (cbn; lia). cbn. lia.
Qed.

Lemma attach_frame s cid side conn :
  let s' := (attach s cid side conn).1 in
  limits s' = limits s /\ pending s' = pending s /\ tickets s' = tickets s /\ circuits s' = circuits s /\
  size (live (heap s')) = size (live (heap s)) /\
  (forall k, is_Some (heap s' !! k) <-> is_Some (heap s !! k)).
Proof.
  unfold attach. destruct (heap s !! cid) as [c|] eqn:E; [|done].
  destruct (if side then _ else _) as [c0 c1]. cbn. split_and!; try done.
  - by eapply live_insert_same.
  - intros k. rewrite lookup_insert_is_Some. destruct (decide (cid = k)); naive_solver.
Qed.

Lemma dropPending_frame s rid conn :
  let s' := dropPending s rid conn in
  limits s' = limits s /\ tickets s' = tickets s /\ circuits s' = circuits s /\ heap s' = heap s /\
  (size (pending s') <= size (pending s))%nat.
Proof.
  unfold dropPending. destruct (pending s !! rid) as [p|] eqn:Ep; [case_decide|]; cbn; split_and!; try done.
  rewrite map_size_delete_Some by eauto. lia.
Qed.

Lemma slots_frame s s' n u r u' r' :
  slots_inv (mkConfig s n u r) ->
  limits s' = limits s -> circuits s' = Z.of_nat (n + size (live (heap s'))) -> circuits s' <= circuits s ->
  (size (pending s') <= size (pending s))%nat ->
  (forall k ref, tickets s' !! k = Some ref -> tickets s !! k = Some ref) ->
  (forall k, is_Some (heap s !! k) -> is_Some (heap s' !! k)) ->
  (forall cid, cid ∈ u' -> cid ∈ u) -> (forall x, x ∈ r' -> x ∈ r) ->
  slots_inv (mkConfig s' n u' r').
Proof.
  intros [] Hl Hc Hle Hp Ht Hh Hu Hr. cbn in *. split; cbn; rewrite ?Hl; try done; try lia.
  - intros k ref Hk. apply Hh. by apply (sl_tickets0 k), Ht.
  - intros cid ?. apply Hh, sl_sending0, Hu. done.
  - intros cid side ?. apply Hh, (sl_redeeming0 cid side), Hr. done.
Qed.

Lemma new_circuit_fresh s : heap s !! new_circuit s = None.
Proof.
  apply not_elem_of_dom. rewrite <- elem_of_elements. apply infinite_is_fresh.
Qed.

Lemma issue_slots s n u r a b now s' cid : slots_inv (mkConfig s (S n) u r) ->
  pair_issue s a b now = (s', cid) -> slots_inv (mkConfig s' n ({[cid]} ∪ u) r).
Proof.
  intros [] Hi. unfold pair_issue in Hi. pose proof (new_circuit_fresh s) as Hf. injection Hi as <- <-.
  set (k := new_circuit s) in *. cbn in *. split; cbn; try done.
  - rewrite live_insert_new by done. lia.
  - apply map_Forall_insert_2; [cbn; rewrite lookup_insert_eq; eauto|].
    apply map_Forall_insert_2; [cbn; rewrite lookup_insert_eq; eauto|].
    intros t ref Ht. apply lookup_insert_is_Some'. right. by apply (sl_tickets0 t).
  - intros cid [->%elem_of_singleton|Hc]%elem_of_union; apply lookup_insert_is_Some'; [by left|right; auto].
  - intros cid side Hc. apply lookup_insert_is_Some'. right. by eapply sl_redeeming0.
Qed.

Lemma unsent_slots s n u r cid ts : slots_inv (mkConfig s n u r) ->
  slots_inv (mkConfig (dropCircuit s cid ts) n (u ∖ {[cid]}) r).
Proof.
  intros Hi. unfold dropCircuit. set (s0 := set_tickets _ _).
  destruct (releaseOnce_frame s0 cid) as (E1 & E2 & E3 & E4).
  destruct (releaseOnce_count s0 cid n) as [C1 C2]; [apply (sl_count _ Hi)|].
  eapply slots_frame; [done|by rewrite E1|done|done|by rewrite E2| |intros k ?; by apply E4| |done].
  - intros k ref. rewrite E3. apply delete_all_lookup.
  - intros ? []%elem_of_difference. done.
Qed.

Lemma slots_step c e c' : slots_inv c -> step c e c' -> slots_inv c'.
Proof.
  intros Hi Hs. destruct Hs.
  - unfold addPending in H. case_decide; [done|]. injection H as <-. destruct Hi. cbn in *.
    split; cbn; try done. destruct (decide (is_Some (pending s !! rid))).
    + rewrite map_size_insert_Some by done. lia.
    + rewrite map_size_insert_None by (by apply eq_None_not_Some). lia.
  - destruct Hi. split; done.
  - destruct (dropPending_frame s rid conn) as (E1 & E2 & E3 & E4 & E5).
    eapply slots_frame; [done|..]; rewrite ?E1, ?E2, ?E3, ?E4; try done. apply (sl_count _ Hi).
  - unfold pair_reserve in H. destruct (pending s !! rid) as [p0|] eqn:Ep; [|done].
    repeat case_decide; try done. injection H as <- <-. destruct Hi. cbn in *. split; cbn; try done; try lia.
    rewrite map_size_delete_Some by eauto. lia.
  - destruct (releaseCircuit_frame s) as (E1 & E2 & E3 & E4).
    destruct Hi. cbn in *. split; cbn; rewrite ?E1, ?E2, ?E3, ?E4; try done;
      unfold releaseCircuit; rewrite decide_True by lia; cbn; lia.
  - by eapply issue_slots.
  - destruct Hi. split; cbn in *; try done. intros cid' ?%elem_of_difference. naive_solver.
  - by apply unsent_slots.
  - unfold redeem in H. destruct (tickets s !! ticket) as [ref0|] eqn:Et; [|done]. injection H as <- ->.
    destruct Hi. cbn in *. split; cbn; try done.
    + by apply map_Forall_delete.
    + intros cid side [<-|?]%elem_of_cons; [by apply (sl_tickets0 _ _ Et)|by eapply sl_redeeming0].
  - eapply slots_frame; [done|..]; try done; [apply (sl_count _ Hi)|].
    intros x. rewrite !elem_of_app, elem_of_cons. naive_solver.
  - destruct (attach_frame s cid side conn) as (E1 & E2 & E3 & E4 & E5 & E6).
    eapply slots_frame; [done|..]; cbn in *; rewrite ?E1, ?E2, ?E3, ?E4, ?E5; try done.
    + apply (sl_count _ Hi).
    + intros k ?. by apply E6.
    + intros x. rewrite !elem_of_app, elem_of_cons. naive_solver.
  - destruct (releaseOnce_frame s cid) as (E1 & E2 & E3 & E4).
    destruct (releaseOnce_count s cid n) as [C1 C2]; [apply (sl_count _ Hi)|].
    eapply slots_frame; [done|by rewrite E1|done|done|by rewrite E2|by rewrite E3|intros k ?; by apply E4|done|done].
  - eapply slots_frame; [done|..]; cbn; try done; [apply (sl_count _ Hi)| |].
    + apply map_size_filter.
    + intros k ref. by intros [? _]%map_lookup_filter_Some.
  - unfold acquireIP. case_decide; [done|]. destruct Hi. split; done.
  - unfold releaseIP. destruct Hi. case_decide; split; done.
Qed.

Lemma slots_steps c es c' : steps c es c' -> slots_inv c -> slots_inv c'.
Proof. induction 1; [done|]. intros Hi. by apply IHsteps, (slots_step _ _ _ Hi H). Qed.

Definition start (l : Limits) : config := mkConfig (New l) 0 ∅ [].

Lemma start_slots l : slots_inv (start l).
Proof.
  split; cbn.
  - done.
  - lia.
  - rewrite map_size_empty. lia.
  - apply map_Forall_empty.
  - intros cid Hc. by apply not_elem_of_empty in Hc.
  - intros cid side Hc. by apply not_elem_of_nil in Hc.
Qed.

(** C9: under every interleaving of its handlers the relay's counters are right
    and bounded: the number of circuit slots in use is exactly the number of
    pairings in progress plus the circuits not yet released, never exceeds the
    configured maximum, and neither does the number of unclaimed codes. *)
Theorem relay_counters_bounded l es c : steps (start l) es c ->
  let s := srv c in
  circuits s = Z.of_nat (reserved c + size (live (heap s))) /\
  0 <= circuits s <= Z.max 0 (MaxCircuits (limits s)) /\
  0 <= Z.of_nat (size (pending s)) <= Z.max 0 (MaxPendingCodes (limits s)).
Proof.
  intros Hs. destruct (slots_steps _ _ _ Hs (start_slots l)). cbv zeta. split_and!; lia || done.
Qed.

(** ** Single use *)


(** How often an execution redeems a ticket, issues it, claims a code or
    publishes it. *)
Fixpoint count (p : event -> nat) (es : list event) : nat :=
  match es with [] => 0 | e :: rest => p e + count p rest end%nat.

Definition redeems (t : bytes) (e : event) : nat :=
  match e with EvRedeem t' => if decide (t' = t) then 1 else 0 | _ => 0 end.
Definition issues (t : bytes) (e : event) : nat :=
  match e with EvIssue a b _ => if decide (encode a = t \/ encode b = t) then 1 else 0 | _ => 0 end.
Definition claims (rid : bytes) (e : event) : nat :=
  match e with EvReserve r _ => if decide (r = rid) then 1 else 0 | _ => 0 end.
Definition publications (rid : bytes) (e : event) : nat :=
  match e with EvPublish r _ _ _ _ => if decide (r = rid) then 1 else 0 | _ => 0 end.

Definition present {A} (m : gmap bytes A) (k : bytes) : nat :=
  if decide (is_Some (m !! k)) then 1 else 0.

Lemma present_le {A} (m : gmap bytes A) k : (present m k <= 1)%nat.
Proof. unfold present. case_decide; lia. Qed.

Lemma present_mono {A} (m m' : gmap bytes A) k :
  (forall a, m' !! k = Some a -> is_Some (m !! k)) -> (present m' k <= present m k)%nat.
Proof. intros H. unfold present. repeat case_decide; try lia. destruct H0. naive_solver. Qed.

Lemma present_delete {A} (m : gmap bytes A) k : is_Some (m !! k) ->
  S (present (delete k m) k) = present m k.
Proof.
  intros H. unfold present. rewrite (decide_True (P := is_Some (m !! k))) by done.
  rewrite decide_False; [done|]. rewrite lookup_delete_eq. by intros [? ?].
Qed.

Lemma tickets_step c e c' t : step c e c' ->
  (redeems t e + present (tickets (srv c')) t <= issues t e + present (tickets (srv c)) t)%nat.
Proof.
  intros Hs. destruct Hs; cbn [srv redeems issues]; try (apply present_mono; by eauto).
  - unfold addPending in H. case_decide; [done|]. by injection H as <-.
  - destruct (dropPending_frame s rid conn) as (_ & -> & _). done.
  - unfold pair_reserve in H. destruct (pending s !! rid); [|done]. repeat case_decide; try done. by injection H as <- <-.
  - destruct (releaseCircuit_frame s) as (_ & _ & -> & _). done.
  - unfold pair_issue in H. injection H as <- <-. cbn. case_decide as Hd; [pose proof (present_le (<[encode b:=(new_circuit s, true)]> (<[encode a:=(new_circuit s, false)]> (tickets s))) t); lia|].
    apply present_mono. intros x. rewrite !lookup_insert_ne by naive_solver. eauto.
  - unfold dropCircuit. destruct (releaseOnce_frame (set_tickets s (foldr delete (tickets s) ts)) cid) as (_ & _ & -> & _).
    apply present_mono. intros x ?%delete_all_lookup. eauto.
  - unfold redeem in H. destruct (tickets s !! ticket) as [ref0|] eqn:E; [|done]. injection H as <- <-. cbn.
    case_decide as Hd; [subst ticket; pose proof (present_delete _ _ (mk_is_Some _ _ E)); lia|].
    apply present_mono. intros x [_ ?]%lookup_delete_Some. eauto.
  - destruct (attach_frame s cid side conn) as (_ & _ & -> & _). done.
  - destruct (releaseOnce_frame s cid) as (_ & _ & -> & _). done.
  - apply present_mono. cbn. intros x [? _]%map_lookup_filter_Some. eauto.
  - unfold acquireIP. by case_decide.
  - unfold releaseIP. by case_decide.
Qed.

Lemma pending_step c e c' rid : step c e c' ->
  (claims rid e + present (pending (srv c')) rid <= publications rid e + present (pending (srv c)) rid)%nat.
Proof.
  intros Hs. destruct Hs; cbn [srv claims publications]; try done.
  - unfold addPending in H. case_decide; [done|]. injection H as <-. cbn.
    case_decide as Hd; [pose proof (present_le (<[rid0 := mkPending conn sealed observed now]> (pending s)) rid); lia|].
    apply present_mono. intros x. rewrite lookup_insert_ne by done. eauto.
  - unfold dropPending. destruct (pending s !! rid0) eqn:E; [|done]. case_decide; [|done]. cbn.
    apply present_mono. intros x [_ ?]%lookup_delete_Some. eauto.
  - unfold pair_reserve in H. destruct (pending s !! rid0) eqn:E; [|done].
    do 2 (case_decide; [done|]). injection H as <- <-. cbn.
    case_decide as Hd; [subst rid0; pose proof (present_delete _ _ (mk_is_Some _ _ E)); lia|].
    apply present_mono. intros x [_ ?]%lookup_delete_Some. eauto.
  - destruct (releaseCircuit_frame s) as (_ & -> & _). done.
  - unfold pair_issue in H. by injection H as <- <-.
  - unfold dropCircuit. by destruct (releaseOnce_frame (set_tickets s (foldr delete (tickets s) ts)) cid) as (_ & -> & _).
  - unfold redeem in H. destruct (tickets s !! ticket); [|done]. by injection H as <- <-.
  - destruct (attach_frame s cid side conn) as (_ & -> & _). done.
  - destruct (releaseOnce_frame s cid) as (_ & -> & _). done.
  - apply present_mono. cbn. intros x [? _]%map_lookup_filter_Some. eauto.
  - unfold acquireIP. by case_decide.
  - unfold releaseIP. by case_decide.
Qed.

Lemma steps_count (m : config -> nat) (p q : event -> nat) :
  (forall c e c', step c e c' -> (p e + m c' <= q e + m c)%nat) ->
  forall c es c', steps c es c' -> (count p es + m c' <= count q es + m c)%nat.
Proof.
  intros H. induction 1 as [|c1 e c2 es c3 Hs _ IH]; cbn; [lia|]. specialize (H _ _ _ Hs). lia.
Qed.

(** C29: invite codes and circuit tickets are single-use under every
    interleaving: a code is claimed at most as often as it was published, and a
    ticket redeemed at most as often as it was issued. *)
Theorem single_use l es c : steps (start l) es c -> forall k,
  (count (claims k) es <= count (publications k) es)%nat /\
  (count (redeems k) es <= count (issues k) es)%nat.
Proof.
  intros Hs k.
  pose proof (steps_count (fun c => present (pending (srv c)) k) _ _ (fun c e c' => pending_step c e c' k) _ _ _ Hs) as H1.
  pose proof (steps_count (fun c => present (tickets (srv c)) k) _ _ (fun c e c' => tickets_step c e c' k) _ _ _ Hs) as H2.
  cbv beta in H1, H2. change (present (pending (srv (start l))) k) with 0%nat in H1.
  change (present (tickets (srv (start l))) k) with 0%nat in H2. lia.
Qed.

(** ** Slots that are never released *)

(** A circuit both peers were told about and neither came to. *)
Record abandoned (c : config) (cid : nat) (ci : circuit) : Prop := {
  ab_heap : heap (srv c) !! cid = Some ci;
  ab_live : released ci = false;
  ab_free : ~ attached ci;
  ab_sending : (cid ∉ sending c);
  ab_redeeming : forall side, ((cid, side) ∉ redeeming c)
}.

(** ... and whose tickets are gone. *)
Definition leaked (c : config) (cid : nat) : Prop :=
  (exists ci, abandoned c cid ci) /\ forall t side, tickets (srv c) !! t <> Some (cid, side).

Lemma releaseOnce_other s k cid : k <> cid -> heap (releaseOnce s k) !! cid = heap s !! cid.
Proof.
  intros Hne. unfold releaseOnce. destruct (heap s !! k) as [c|]; [|done]. destruct (released c); [done|].
  match goal with |- context [releaseCircuit ?t] => destruct (releaseCircuit_frame t) as (_ & _ & _ & ->) end.
  cbn. by rewrite lookup_insert_ne.
Qed.

Lemma leaked_frame s n u r s' n' u' r' cid :
  leaked (mkConfig s n u r) cid -> heap s' !! cid = heap s !! cid ->
  (forall t ref, tickets s' !! t = Some ref -> tickets s !! t = Some ref \/ ref.1 <> cid) ->
  (cid ∈ u' -> cid ∈ u) -> (forall side, (cid, side) ∈ r' -> (cid, side) ∈ r) ->
  leaked (mkConfig s' n' u' r') cid.
Proof.
  intros [[ci []] Ht] Hh Hts Hu Hr. cbn in *. split.
  - exists ci. split; cbn; try done; [congruence|by intros ?%Hu|]. intros side ?%Hr. by eapply ab_redeeming0.
  - intros t side E. cbn in E. destruct (Hts _ _ E) as [?|?]; [by eapply Ht|done].
Qed.

Lemma leaked_unsent s n u r cid0 ts cid : leaked (mkConfig s n u r) cid -> cid0 <> cid ->
  leaked (mkConfig (dropCircuit s cid0 ts) n (u ∖ {[cid0]}) r) cid.
Proof.
  intros Hl Hne. unfold dropCircuit. set (s0 := set_tickets _ _).
  destruct (releaseOnce_frame s0 cid0) as (_ & _ & E & _).
  apply (leaked_frame _ _ _ _ _ _ _ _ _ Hl); eauto.
  - by rewrite releaseOnce_other.
  - rewrite E. intros t ref ?%delete_all_lookup. by left.
  - by intros [? _]%elem_of_difference.
Qed.

Lemma leaked_step c e c' cid : leaked c cid -> step c e c' -> leaked c' cid.
Proof.
  intros Hl Hs. pose proof Hl as [[ci Hab] Ht]. destruct Hs; cbn in Ht.
  - unfold addPending in H. case_decide; [done|]. injection H as <-. by apply (leaked_frame _ _ _ _ _ _ _ _ _ Hl); eauto.
  - by apply (leaked_frame _ _ _ _ _ _ _ _ _ Hl); eauto.
  - destruct (dropPending_frame s rid conn) as (_ & E1 & _ & E2 & _).
    apply (leaked_frame _ _ _ _ _ _ _ _ _ Hl); rewrite ?E1, ?E2; eauto.
  - unfold pair_reserve in H. destruct (pending s !! rid); [|done]. do 2 (case_decide; [done|]).
    injection H as <- <-. by apply (leaked_frame _ _ _ _ _ _ _ _ _ Hl); eauto.
  - destruct (releaseCircuit_frame s) as (_ & _ & E1 & E2). apply (leaked_frame _ _ _ _ _ _ _ _ _ Hl); rewrite ?E1, ?E2; eauto.
  - pose proof (new_circuit_fresh s) as Hf. pose proof (ab_heap _ _ _ Hab) as Hh. cbn in Hh.
    unfold pair_issue in H. injection H as <- <-. assert (new_circuit s <> cid) by congruence.
    apply (leaked_frame _ _ _ _ _ _ _ _ _ Hl); cbn; eauto.
    + by rewrite lookup_insert_ne.
    + intros t ref. rewrite !lookup_insert_Some. naive_solver.
    + intros [?%elem_of_singleton|?]%elem_of_union; naive_solver.
  - apply (leaked_frame _ _ _ _ _ _ _ _ _ Hl); eauto. by intros [? _]%elem_of_difference.
  - apply leaked_unsent; [done|]. intros ->. by apply (ab_sending _ _ _ Hab).
  - unfold redeem in H. destruct (tickets s !! ticket) as [ref0|] eqn:E; [|done]. injection H as <- ->.
    apply (leaked_frame _ _ _ _ _ _ _ _ _ Hl); eauto; cbn.
    + intros t ref' [_ ?]%lookup_delete_Some. auto.
    + intros side [<-|?]%elem_of_cons; [by destruct (Ht ticket side)|done].
  - apply (leaked_frame _ _ _ _ _ _ _ _ _ Hl); eauto. intros side'. rewrite !elem_of_app, elem_of_cons. naive_solver.
  - assert (cid0 <> cid).
    { intros ->. apply (ab_redeeming _ _ _ Hab side). cbn. apply elem_of_app. right. apply elem_of_cons. auto. }
    destruct (attach_frame s cid0 side conn) as (_ & _ & E & _).
    apply (leaked_frame _ _ _ _ _ _ _ _ _ Hl); eauto; cbn.
    + unfold attach. destruct (heap s !! cid0) as [c0|]; [|done]. destruct (if side then _ else _).
      cbn. by rewrite lookup_insert_ne.
    + cbn in E. rewrite E. auto.
    + intros side'. rewrite !elem_of_app, elem_of_cons. naive_solver.
  - destruct (releaseOnce_frame s cid0) as (_ & _ & E & _).
    assert (cid0 <> cid).
    { intros ->. pose proof (ab_heap _ _ _ Hab) as Hh. cbn in Hh. apply (ab_free _ _ _ Hab). congruence. }
    apply (leaked_frame _ _ _ _ _ _ _ _ _ Hl); eauto; [by rewrite releaseOnce_other|]. rewrite E. auto.
  - apply (leaked_frame _ _ _ _ _ _ _ _ _ Hl); eauto. cbn. intros t ref [? _]%map_lookup_filter_Some. auto.
  - unfold acquireIP. case_decide; [done|]. by apply (leaked_frame _ _ _ _ _ _ _ _ _ Hl); eauto.
  - unfold releaseIP. case_decide; by apply (leaked_frame _ _ _ _ _ _ _ _ _ Hl); eauto.
Qed.

Lemma leaked_steps c es c' cid : steps c es c' -> leaked c cid -> leaked c' cid.
Proof. induction 1 as [|c1 e c2 es c3 Hs _ IH]; [done|]. intros Hl. apply IH. by eapply leaked_step. Qed.

Lemma limits_step c e c' : step c e c' -> limits (srv c') = limits (srv c).
Proof.
  intros Hs. destruct Hs; cbn; try done.
  - unfold addPending in H. case_decide; [done|]. by injection H as <-.
  - by destruct (dropPending_frame s rid conn) as (-> & _).
  - unfold pair_reserve in H. destruct (pending s !! rid); [|done]. do 2 (case_decide; [done|]). by injection H as <- <-.
  - by destruct (releaseCircuit_frame s) as (-> & _).
  - unfold pair_issue in H. by injection H as <- <-.
  - unfold dropCircuit. by destruct (releaseOnce_frame (set_tickets s (foldr delete (tickets s) ts)) cid) as (-> & _).
  - unfold redeem in H. destruct (tickets s !! ticket); [|done]. by injection H as <- <-.
  - by destruct (attach_frame s cid side conn) as (-> & _).
  - by destruct (releaseOnce_frame s cid) as (-> & _).
  - unfold acquireIP. by case_decide.
  - unfold releaseIP. by case_decide.
Qed.

Lemma limits_steps c es c' : steps c es c' -> limits (srv c') = limits (srv c).
Proof. induction 1 as [|c1 e c2 es c3 Hs _ IH]; [done|]. by rewrite IH, (limits_step _ _ _ Hs). Qed.

(** The reaper drops the tickets of an abandoned circuit and keeps its slot. *)
Lemma reap_leaks c now c' cid ci : step c (EvReap now) c' -> abandoned c cid ci ->
  CodeTTL (limits (srv c)) < now - c_created ci -> leaked c' cid.
Proof.
  intros Hs [Hh Hr Hf Hse Hre] Ht. inversion Hs; subst; clear Hs. cbn in *. split.
  - exists ci. split; done.
  - intros t side. cbn. intros [_ Hk]%map_lookup_filter_Some. cbn in Hk. rewrite Hh in Hk. cbn in Hk. lia.
Qed.

Lemma live_lower (L : list nat) (h : gmap nat circuit) : NoDup L ->
  (forall cid, cid ∈ L -> exists ci, h !! cid = Some ci /\ released ci = false) ->
  (length L <= size (live h))%nat.
Proof.
  intros Hnd HL. rewrite <- size_dom. rewrite <- (size_list_to_set (C := gset nat) L Hnd).
  apply subseteq_size. intros cid Hc%elem_of_list_to_set. apply HL in Hc as (ci & Hci & Hr).
  apply elem_of_dom. exists ci. by apply map_lookup_filter_Some.
Qed.

(** C34: circuits whose peers never come exhaust the relay: when as many
    circuits as the limit allows were paired and not joined by the time their
    tickets expire, the reaper deletes the tickets without releasing the slots,
    and from then on every claim of every code is refused, whatever happens. *)
Theorem unredeemed_tickets_exhaust_relay c now c1 es c2 L :
  slots_inv c -> NoDup L -> Z.of_nat (length L) = MaxCircuits (limits (srv c)) ->
  (forall cid, cid ∈ L -> exists ci, abandoned c cid ci /\ CodeTTL (limits (srv c)) < now - c_created ci) ->
  step c (EvReap now) c1 -> steps c1 es c2 ->
  forall rid claimer p, (pair_reserve (srv c2) rid claimer).2 <> Ok p.
Proof.
  intros Hi Hnd Hlen HL Hr Hs rid claimer p.
  assert (Hleak : forall cid, cid ∈ L -> leaked c2 cid).
  { intros cid (ci & Hab & Ht)%HL. eapply leaked_steps; [done|]. by eapply reap_leaks. }
  pose proof (slots_steps _ _ _ Hs (slots_step _ _ _ Hi Hr)) as Hi2.
  assert (Hlim : limits (srv c2) = limits (srv c)).
  { rewrite (limits_steps _ _ _ Hs). by eapply limits_step. }
  assert (Hlow : (length L <= size (live (heap (srv c2))))%nat).
  { apply live_lower; [done|]. intros cid Hc. destruct (Hleak cid Hc) as [[ci []] _]. eauto. }
  pose proof (sl_count _ Hi2) as Hc. unfold pair_reserve.
  destruct (pending (srv c2) !! rid) as [q|]; [|done]. case_decide; [done|].
  rewrite decide_True by (rewrite Hlim, <- Hlen; lia). done.
Qed.

(** ** The handlers are such executions *)
Lemma pair_steps s n u r rid claimer sealed addr rng now sp sc s' o res :
  slots_inv (mkConfig s n u r) ->
  pair s rid claimer sealed addr rng now sp sc = (s', o, res) ->
  exists es, steps (mkConfig s n u r) es (mkConfig s' n u r).
Proof.
  intros Hi. unfold pair. destruct (pair_reserve s rid claimer) as [s1 [p|e|]] eqn:Er.
  2,3: unfold pair_reserve in Er; destruct (pending s !! rid); repeat case_decide; try done;
    injection Er as <- <-; intros [= <- <- <-]; exists []; constructor.
  pose proof (st_reserve s n u r rid claimer s1 p Er) as Hst.
  pose proof (slots_step _ _ _ Hi Hst) as Hi1.
  destruct (pair_tickets rng) as [[a b]|e|] eqn:Ea.
  2,3: intros [= <- <- <-]; exists [EvReserve rid claimer; EvTicketFail];
    (eapply steps_cons; [exact Hst|]); apply steps_one, st_ticket_fail.
  destruct (pair_issue s1 a b now) as [s2 cid] eqn:Ei.
  assert (Hf : cid ∉ u).
  { intros Hc. pose proof (new_circuit_fresh s1). unfold pair_issue in Ei. injection Ei as _ <-.
    destruct (sl_sending _ Hi1 _ Hc) as [? ?]. cbn in *. congruence. }
  assert (Hu : ({[cid]} ∪ u) ∖ {[cid]} = u) by set_solver.
  assert (Hin : cid ∈ {[cid]} ∪ u) by set_solver.
  destruct (negb sp || negb sc); intros [= <- <- <-].
  - exists [EvReserve rid claimer; EvIssue a b now; EvUnsent cid [encode a; encode b]].
    eapply steps_cons; [exact Hst|]. eapply steps_cons; [by apply st_issue|]. apply steps_one.
    rewrite <- Hu at 2. by apply st_unsent.
  - exists [EvReserve rid claimer; EvIssue a b now; EvSent cid].
    eapply steps_cons; [exact Hst|]. eapply steps_cons; [by apply st_issue|]. apply steps_one.
    rewrite <- Hu at 2. by apply st_sent.
Qed.

Lemma attach_attached s cid side conn c : heap s !! cid = Some c ->
  exists c', heap (attach s cid side conn).1 !! cid = Some c' /\ attached c'.
Proof.
  intros Hc. unfold attach. rewrite Hc. destruct side; cbn; rewrite lookup_insert_eq;
    eexists; (split; [done|]); unfold attached; cbn; eauto.
Qed.

Lemma attachCircuit_steps s n u r conn msg sent w ab ba s' o : slots_inv (mkConfig s n u r) ->
  attachCircuit s conn msg sent w ab ba = (s', o) -> exists es, steps (mkConfig s n u r) es (mkConfig s' n u r).
Proof.
  intros Hi. unfold attachCircuit.
  destruct (decodeExact _ _); [|intros [= <- <-]; exists []; constructor..].
  destruct (redeem s (m_ticket msg)) as [s1 [[cid side]|]] eqn:Er.
  2:{ unfold redeem in Er. destruct (tickets s !! m_ticket msg); [done|]. injection Er as <-.
      intros [= <- <-]. exists []. constructor. }
  pose proof (st_redeem s n u r _ s1 (cid, side) Er) as Hst.
  destruct (sl_redeeming _ (slots_step _ _ _ Hi Hst) cid side) as [c Hc]; [by left|]. cbn in Hc.
  destruct (attach_attached s1 cid side conn c Hc) as (c' & Hc' & Hat).
  destruct sent; cbn [negb].
  2:{ intros [= <- <-]. exists [EvRedeem (m_ticket msg); EvReplyFail cid side].
      eapply steps_cons; [exact Hst|]. apply steps_one, (st_reply_fail s1 n u [] cid side r). }
  pose proof (st_attach s1 n u [] cid side r conn) as Hsa. cbn [app] in Hsa.
  destruct (attach s1 cid side conn) as [s2 second]. cbn [fst] in *.
  assert (Hrel : exists es, steps (mkConfig s n u r) es (mkConfig (releaseOnce s2 cid) n u r)).
  { exists [EvRedeem (m_ticket msg); EvAttach cid side conn; EvRelease cid].
    eapply steps_cons; [exact Hst|]. eapply steps_cons; [exact Hsa|]. apply steps_one. by eapply st_release. }
  assert (Hno : exists es, steps (mkConfig s n u r) es (mkConfig s2 n u r)).
  { exists [EvRedeem (m_ticket msg); EvAttach cid side conn].
    eapply steps_cons; [exact Hst|]. by apply steps_one. }
  destruct second; [by intros [= <- <-]|]. destruct w; by intros [= <- <-].
Qed.

Lemma serveMessage_steps s n u r conn addr published msg e s' o published' go :
  slots_inv (mkConfig s n u r) ->
  serveMessage s conn addr published msg e = (s', o, published', go) ->
  exists es, steps (mkConfig s n u r) es (mkConfig s' n u r).
Proof.
  intros Hi. assert (Hid : exists es, steps (mkConfig s n u r) es (mkConfig s n u r)) by (exists []; constructor).
  unfold serveMessage. case_decide; [|case_decide; [|case_decide; [|case_decide]]].
  - destruct (checkRID conn msg) as [rid|m|]; [|by intros [= <- _ _ _]..].
    pose proof (st_rate s n u r (sourceIP addr) (PublishesPerIPPerMin (limits s)) Minute (e_now e)) as Hr.
    destruct (allow _ _ _ _ _) as [rc ok]. cbn [fst] in Hr. destruct ok; cbn [negb].
    2:{ intros [= <- _ _ _]. eexists. by apply steps_one. }
    destruct (addPending _ _ _ _ _ _) as [s2 added] eqn:Ea. destruct added; cbn [negb]; intros [= <- _ _ _].
    + eexists. eapply steps_cons; [exact Hr|]. apply steps_one. by eapply st_publish.
    + unfold addPending in Ea. case_decide; [|done]. injection Ea as <-. eexists. by apply steps_one.
  - destruct (checkRID conn msg) as [rid|m|]; [|by intros [= <- _ _ _]..].
    destruct (e_sent e); cbn [negb]; [|by intros [= <- _ _ _]].
    destruct (pair _ _ _ _ _ _ _ _ _) as [[s1 msgs] res] eqn:Ep.
    pose proof (pair_steps _ _ _ _ _ _ _ _ _ _ _ _ _ _ _ Hi Ep) as Hs.
    by destruct res; intros [= <- _ _ _].
  - destruct (attachCircuit _ _ _ _ _ _ _) as [s1 msgs] eqn:Ea. intros [= <- _ _ _].
    by eapply attachCircuit_steps.
  - by intros [= <- _ _ _].
  - by intros [= <- _ _ _].
Qed.

Lemma cleanup_steps published : forall s n u r conn,
  exists es, steps (mkConfig s n u r) es (mkConfig (foldl (fun s rid => dropPending s rid conn) s published) n u r).
Proof.
  induction published as [|rid rest IH]; intros s n u r conn; cbn; [exists []; constructor|].
  destruct (IH (dropPending s rid conn) n u r conn) as [es Hes]. exists (EvDrop rid conn :: es).
  econstructor; [apply st_drop|done].
Qed.

(** Serving a connection from its first message to its clean-up, whatever it
    sends and whatever fails on the way, is one of the executions above, and it
    ends with no slot reserved, no pairing half sent and no ticket half
    redeemed: the counters account for every circuit it leaves behind. *)
Theorem serving_is_execution msgs : forall s conn addr published s' o,
  slots_inv (mkConfig s 0 ∅ []) -> serveConn s conn addr published msgs = (s', o) ->
  (exists es, steps (mkConfig s 0 ∅ []) es (mkConfig s' 0 ∅ [])) /\ slots_inv (mkConfig s' 0 ∅ []).
Proof.
  assert (Hmain : forall s conn addr published s' o,
    slots_inv (mkConfig s 0 ∅ []) -> serveConn s conn addr published msgs = (s', o) ->
    exists es, steps (mkConfig s 0 ∅ []) es (mkConfig s' 0 ∅ [])).
  { induction msgs as [|[m e] rest IH]; intros s conn addr published s' o Hi; cbn [serveConn].
    - intros [= <- _]. apply cleanup_steps.
    - destruct (serveMessage _ _ _ _ _ _) as [[[s1 o1] pub1] go] eqn:Em.
      destruct (serveMessage_steps _ _ _ _ _ _ _ _ _ _ _ _ _ Hi Em) as [es1 H1]. destruct go.
      + destruct (serveConn s1 conn addr pub1 rest) as [s2 o2] eqn:Es. intros [= <- _].
        destruct (IH s1 conn addr pub1 s2 o2) as [es2 H2]; [by eapply slots_steps|done|].
        exists (es1 ++ es2). by eapply steps_app.
      + intros [= <- _]. destruct (cleanup_steps pub1 s1 0%nat ∅ [] conn) as [es2 H2].
        exists (es1 ++ es2). by eapply steps_app. }
  intros s conn addr published s' o Hi Hs. destruct (Hmain _ _ _ _ _ _ Hi Hs) as [es He].
  split; [eauto|]. by eapply slots_steps.
Qed.

(** ** Forwarding *)
Lemma pump_bound limit reads : forall total, total <= limit -> len (pump limit total reads) <= limit - total.
Proof.
  induction reads as [|[d err w] rest IH]; intros total Ht; cbn [pump t_data t_err t_write]; [rewrite len_nil; lia|].
  destruct (decide (0 < len d)).
  - destruct (decide (limit < total + len d)); [rewrite len_nil; lia|]. destruct w as [k|].
    + assert (len (take k d) <= len d); [|lia]. unfold len. rewrite length_take. lia.
    + rewrite len_app. destruct err; [rewrite len_nil; lia|]. specialize (IH (total + len d)). lia.
  - destruct err; [rewrite len_nil; lia|]. by apply IH.
Qed.

Lemma pump_prefix limit reads : forall total, pump limit total reads `prefix_of` concat (t_data <$> reads).
Proof.
  induction reads as [|[d err w] rest IH]; intros total; cbn [pump t_data t_err t_write fmap list_fmap concat];
    [apply prefix_nil|].
  destruct (decide (0 < len d)) as [Hd|Hd].
  - destruct (decide (limit < total + len d)); [apply prefix_nil|]. destruct w as [k|].
    + exists (drop k d ++ concat (t_data <$> rest)). by rewrite app_assoc, take_drop.
    + destruct err; [apply prefix_app, prefix_nil|]. apply prefix_app, IH.
  - assert (d = []) as -> by (apply len_zero_nil; len_lia).
    destruct err; [apply prefix_nil|]. apply IH.
Qed.

Lemma pump_complete limit reads : forall total,
  Forall (fun r => t_err r = false /\ t_write r = None) reads ->
  total + len (concat (t_data <$> reads)) <= limit -> pump limit total reads = concat (t_data <$> reads).
Proof.
  induction reads as [|[d err w] rest IH]; intros total Hf Hl; cbn [pump t_data t_err t_write fmap list_fmap concat] in *; [done|].
  apply Forall_cons_iff in Hf as [[He Hw] Hf]. cbn in He, Hw. subst err w. rewrite len_app in Hl.
  pose proof (len_nonneg (concat (t_data <$> rest))). destruct (decide (0 < len d)) as [Hd|Hd].
  - rewrite decide_False by lia. f_equal. apply IH; [done|lia].
  - assert (d = []) as -> by (apply len_zero_nil; len_lia). apply IH; [done|].
    rewrite len_nil in Hl. lia.
Qed.

(** The relay forwards bytes unchanged and in order: what one direction of a
    circuit writes is a prefix of what it read, never longer than the byte
    limit, and all of it when nothing fails and the limit is not exceeded. *)
Theorem pump_forwards limit reads : 0 <= limit ->
  let all := concat (t_data <$> reads) in
  pump limit 0 reads `prefix_of` all /\ len (pump limit 0 reads) <= limit /\
  (Forall (fun r => t_err r = false /\ t_write r = None) reads -> len all <= limit ->
   pump limit 0 reads = all).
Proof.
  intros Hl all. split; [apply pump_prefix|]. split.
  - pose proof (pump_bound limit reads 0 Hl). lia.
  - intros. apply pump_complete; [done|]. done.
Qed.

(** ** Connections per source address *)
Definition occ (ip : bytes) (conns : list bytes) : nat := length (filter (fun x => x = ip) conns).

(** Servers reached by accepting and closing connections, with the sources of
    the connections open. *)
Inductive serving : Server -> list bytes -> Prop :=
| serving_new l : serving (New l) []
| serving_accept s open ip s' : serving s open -> acquireIP s ip = (s', true) -> serving s' (ip :: open)
| serving_refuse s open ip s' : serving s open -> acquireIP s ip = (s', false) -> serving s' open
| serving_close s open1 ip open2 : serving s (open1 ++ ip :: open2) -> serving (releaseIP s ip) (open1 ++ open2).

Definition slot_of (n : nat) : option Z := if decide (n = 0)%nat then None else Some (Z.of_nat n).

Lemma occ_cons ip x l : occ ip (x :: l) = ((if decide (x = ip) then 1 else 0) + occ ip l)%nat.
Proof. unfold occ. rewrite filter_cons. by case_decide. Qed.

Lemma occ_app ip l k : occ ip (l ++ k) = (occ ip l + occ ip k)%nat.
Proof. unfold occ. by rewrite filter_app, length_app. Qed.

Lemma slot_default n : default 0 (slot_of n) = Z.of_nat n.
Proof. unfold slot_of. case_decide; by subst. Qed.

(** The per-source counters are exact and bounded: a source with [n] open
    connections has the entry [n], a source without has none (so the table does
    not grow), and no source ever exceeds the limit. *)
Theorem per_source_limit s open : serving s open ->
  (forall ip, ipConns s !! ip = slot_of (occ ip open)) /\
  (forall ip, Z.of_nat (occ ip open) <= Z.max 0 (MaxConnsPerIP (limits s))).
Proof.
  induction 1 as [l|s open ip s' _ [IH1 IH2] Ha|s open ip s' _ [IH1 IH2] Ha|s o1 ip o2 _ [IH1 IH2]].
  - split; [done|]. intros ip. cbn. lia.
  - unfold acquireIP in Ha. case_decide as Hd; [done|]. injection Ha as <-.
    rewrite IH1, slot_default in Hd. split; intros ip'; rewrite occ_cons; cbn [ipConns limits set_ipConns].
    + rewrite IH1, slot_default. case_decide as He; [subst ip'|].
      * rewrite lookup_insert_eq. unfold slot_of. rewrite decide_False by lia. f_equal. lia.
      * by rewrite lookup_insert_ne.
    + case_decide as He; [subst ip'; lia|]. apply IH2.
  - unfold acquireIP in Ha. case_decide; [|done]. by injection Ha as <-.
  - assert (Hocc : forall ip', occ ip' (o1 ++ ip :: o2) = ((if decide (ip = ip') then 1 else 0) + occ ip' (o1 ++ o2))%nat).
    { intros ip'. rewrite !occ_app, occ_cons. lia. }
    unfold releaseIP. rewrite IH1, slot_default, Hocc, (decide_True (P := ip = ip)) by done.
    split; intros ip'.
    + specialize (IH1 ip'). rewrite Hocc in IH1.
      destruct (decide (Z.of_nat (1 + occ ip (o1 ++ o2)) <= 1)) as [Hn|Hn]; cbn [ipConns set_ipConns].
      * destruct (decide (ip = ip')) as [->|He].
        -- rewrite lookup_delete_eq. unfold slot_of. by rewrite decide_True by lia.
        -- by rewrite lookup_delete_ne.
      * destruct (decide (ip = ip')) as [->|He].
        -- rewrite lookup_insert_eq. unfold slot_of. rewrite decide_False by lia. f_equal. lia.
        -- by rewrite lookup_insert_ne.
    + specialize (IH2 ip'). rewrite Hocc in IH2.
      destruct (decide (Z.of_nat (1 + occ ip (o1 ++ o2)) <= 1)); cbn [limits set_ipConns]; destruct (decide (ip = ip')); lia.
Qed.

(** ** Sample runs *)
Module SampleRelay.
(** One circuit, codes live for ten ticks. *)
Definition tight : Limits := mkLimits 10 4 1 90 1000 64 2 30 250000000.

Definition code : bytes := encode (replicate 16 x01).
Definition ticket_a : bytes := replicate 32 x0a.
Definition ticket_b : bytes := replicate 32 x0b.

Definition s1 : Server := (addPending (New tight) code 1 [] [] 0).1.
Definition s2 : Server := (pair_reserve s1 code 2).1.
Definition s3 : Server := (pair_issue s2 ticket_a ticket_b 0).1.

(** A code was published and claimed, and nobody redeems the tickets. *)
Definition waiting : config := mkConfig s3 0 ({[0%nat]} ∖ {[0%nat]}) [].

Definition history : list event :=
  [EvPublish code 1 [] [] 0; EvReserve code 2; EvIssue ticket_a ticket_b 0; EvSent 0].

Lemma waiting_reached : steps (start tight) history waiting.
Proof.
  eapply steps_cons; [apply (st_publish _ _ _ _ _ _ _ _ _ s1); reflexivity|].
  eapply steps_cons; [eapply (st_reserve _ _ _ _ _ _ s2); reflexivity|].
  eapply steps_cons; [apply (st_issue _ _ _ _ _ _ _ s3 0%nat); vm_compute; reflexivity|].
  assert (E : {[0%nat]} ∪ ∅ = ({[0%nat]} : gset nat)) by set_solver. rewrite E.
  apply steps_one, st_sent. set_solver.
Qed.

Lemma waiting_abandoned : abandoned waiting 0 (mkCircuit None None false 0 false).
Proof.
  split; [vm_compute; reflexivity|reflexivity| | |].
  - intros [[? E]|[? E]]; discriminate E.
  - cbn. intros [_ Hn]%elem_of_difference. by apply Hn, elem_of_singleton.
  - intros side Hs. by apply not_elem_of_nil in Hs.
Qed.
End SampleRelay.
Import SampleRelay.

Lemma relay_counters_bounded_witness : circuits s3 = 1 /\ 0 <= circuits s3 <= 1.
Proof.
  destruct (relay_counters_bounded tight history waiting waiting_reached) as (_ & H & _).
  split; [reflexivity|exact H].
Defined.

Lemma single_use_witness : (count (claims code) history <= count (publications code) history)%nat /\
  (count (redeems code) history <= count (issues code) history)%nat.
Proof. exact (single_use tight history waiting waiting_reached code). Defined.

Lemma unredeemed_tickets_exhaust_relay_witness :
  (pair_reserve (reap s3 11) code 3).2 <> Ok (mkPending 1 [] [] 12).
Proof.
  apply (unredeemed_tickets_exhaust_relay waiting 11 (mkConfig (reap s3 11) 0 ({[0%nat]} ∖ {[0%nat]}) []) []
    (mkConfig (reap s3 11) 0 ({[0%nat]} ∖ {[0%nat]}) []) [0%nat]).
  - exact (slots_steps _ _ _ waiting_reached (start_slots tight)).
  - apply NoDup_singleton.
  - reflexivity.
  - intros cid ->%list_elem_of_singleton. eexists. split; [exact waiting_abandoned|reflexivity].
  - apply st_reap.
  - apply steps_nil.
Defined.

Definition hello_msgs : list (Message * env) :=
  [(mkMessage MsgPublish code [] [] [] [] [] 0 [] [], mkEnv 0 [] true true true CircuitDone [] [])].

Lemma serving_is_execution_witness :
  slots_inv (mkConfig (serveConn (New tight) 1 (str "10.0.0.1:5") [] hello_msgs).1 0 ∅ []).
Proof.
  destruct (serveConn (New tight) 1 (str "10.0.0.1:5") [] hello_msgs) as [s' o] eqn:E.
  exact (proj2 (serving_is_execution hello_msgs _ _ _ _ _ _ (start_slots tight) E)).
Defined.

Lemma pump_forwards_witness :
  let reads := [mkTransfer (str "abc") false None; mkTransfer (str "de") false None] in
  pump 64 0 reads = str "abcde".
Proof.
  apply (pump_forwards 64 [mkTransfer (str "abc") false None; mkTransfer (str "de") false None]).
  - lia.
  - repeat constructor.
  - vm_compute. discriminate.
Defined.

Lemma per_source_limit_witness :
  let s := (acquireIP (New tight) (str "10.0.0.1")).1 in
  ipConns s !! str "10.0.0.1" = slot_of (occ (str "10.0.0.1") [str "10.0.0.1"]).
Proof.
  apply (per_source_limit (acquireIP (New tight) (str "10.0.0.1")).1 [str "10.0.0.1"]).
  eapply serving_accept; [apply (serving_new tight)|reflexivity].
Defined.
