(* ===== verification/Limits.v ===== *)
(** The publish limit: the fixed-window counter of
    [src/internal/relay/limits.go], over any sequence of requests and sweeps. *)
From Stdlib Require Import ZArith Lia.
From Stdlib Require Import Strings.Byte.
From stdpp Require Import base gmap strings numbers option sorting list.
From S2P Require Import Prelude Relay.

(** What happens to a counter, each at its own time. *)
Inductive rate_event := Ask (k : bytes) (now : Z) | Swept (now : Z).

Definition event_time (e : rate_event) : Z := match e with Ask _ now => now | Swept now => now end.

Section rates.
Context (limit per : Z).

(** The times at which requests of [k] were allowed. *)
Fixpoint allowed (r : gmap bytes window) (k : bytes) (es : list rate_event) : list Z :=
  match es with
  | [] => []
  | Swept now :: rest => allowed (sweep r per now) k rest
  | Ask k' now :: rest =>
      let '(r1, ok) := allow r k' limit per now in
      (if bool_decide (k' = k) && ok then [now] else []) ++ allowed r1 k rest
  end.

(** How many of the times lie in the interval of length [per] from [a]. *)
Definition within (a : Z) (ts : list Z) : Z := len (filter (fun t => a <= t <= a + per) ts).

Definition cap : Z := Z.max 1 limit.

Lemma within_app a l1 l2 : within a (l1 ++ l2) = within a l1 + within a l2.
Proof. unfold within. by rewrite filter_app, len_app. Qed.

Lemma within_le a l : within a l <= len l.
Proof. unfold within, len. pose proof (length_filter (fun t => a <= t <= a + per) l). lia. Qed.

Lemma within_one a t : within a [t] <= 1.
Proof. apply (within_le a [t]). Qed.

Lemma within_none a l : Forall (fun t => t < a) l -> within a l = 0.
Proof.
  induction l as [|t l IH]; [done|]. intros [Ht Hl]%Forall_cons_iff. unfold within in *.
  rewrite filter_cons_False by lia. by apply IH.
Qed.

Lemma within_outside a t : ~ a <= t <= a + per -> within a [t] = 0.
Proof. intros Ht. unfold within. by rewrite filter_cons_False. Qed.

(** What is known of the requests allowed so far, [adm]: those of the latest
    window, which started at [s], are [cur]; those before it are [old]. *)
Record spread (r : gmap bytes window) (k : bytes) (now : Z) (old cur : list Z) (s : Z) : Prop := {
  sp_old : Forall (fun t => t <= s) old;
  sp_cur : len cur <= cap;
  sp_recent : forall a, s - per <= a -> within a old <= cap;
  sp_all : forall a, within a (old ++ cur) <= 2 * cap;
  sp_now : Forall (fun t => t <= now) cur /\ s <= now;
  sp_window : match r !! k with
              | Some w => w_start w = s /\ w_count w = len cur
              | None => s + per < now \/ old ++ cur = []
              end
}.

(** A window that starts now. *)
Lemma spread_new r k now0 now old cur s r' : spread r k now0 old cur s -> now0 <= now ->
  s + per < now \/ old ++ cur = [] -> r' !! k = Some (mkWindow 1 now) -> 0 <= per ->
  spread r' k now (old ++ cur) [now] now.
Proof.
  intros [S1 S2 S3 S4 [S5 S6] S7] Hle Hs Hr Hper. assert (1 <= cap) by (unfold cap; lia).
  assert (Hcur : forall a, now - per <= a -> within a (old ++ cur) <= cap).
  { intros a Ha. destruct Hs as [Hs|Hs]; [|rewrite Hs; unfold within; cbn; unfold len; cbn; lia].
    rewrite within_app, (within_none a old).
    - pose proof (within_le a cur). lia.
    - eapply Forall_impl; [exact S1|]. cbn. lia. }
  split.
  - apply Forall_app. split; (eapply Forall_impl; [eassumption|]); cbn; lia.
  - unfold len. cbn. lia.
  - done.
  - intros a. rewrite within_app. destruct (decide (a <= now <= a + per)) as [Hin|Hin].
    + pose proof (Hcur a ltac:(lia)). pose proof (within_one a now). lia.
    + rewrite (within_outside a now Hin). pose proof (S4 a). lia.
  - split; [by constructor|lia].
  - rewrite Hr. done.
Qed.

(** One more request in the window. *)
Lemma spread_more r k now0 now old cur s r' : spread r k now0 old cur s -> now0 <= now -> now <= s + per ->
  len cur < cap -> r' !! k = Some (mkWindow (len cur + 1) s) -> spread r' k now old (cur ++ [now]) s.
Proof.
  intros [S1 S2 S3 S4 [S5 S6] S7] Hle Hs Hc Hr.
  assert (Hl : len (cur ++ [now]) = len cur + 1) by (rewrite len_app; done).
  split; try done.
  - lia.
  - intros a. rewrite app_assoc, within_app. destruct (decide (a <= now <= a + per)) as [Hin|Hin].
    + pose proof (S3 a ltac:(lia)). rewrite within_app. pose proof (within_le a cur).
      pose proof (within_one a now). lia.
    + rewrite (within_outside a now Hin). pose proof (S4 a). lia.
  - split; [|lia]. apply Forall_app. split; [|by constructor]. eapply Forall_impl; [exact S5|]. cbn. lia.
  - rewrite Hr, Hl. done.
Qed.

(** Time passes, other keys are counted, stale windows go. *)
Lemma spread_wait r k now0 now old cur s r' : spread r k now0 old cur s -> now0 <= now ->
  r' !! k = r !! k \/ (r' !! k = None /\ s + per < now) -> spread r' k now old cur s.
Proof.
  intros [S1 S2 S3 S4 [S5 S6] S7] Hle Hr. split; try done.
  - split; [|lia]. eapply Forall_impl; [exact S5|]. cbn. lia.
  - destruct Hr as [->|[-> Hs]]; [|by left]. destruct (r !! k); [done|]. destruct S7; [left; lia|by right].
Qed.

Lemma allowed_spread es : forall r k now old cur s, 0 <= per -> spread r k now old cur s ->
  Sorted Z.le (now :: (event_time <$> es)) -> forall a, within a ((old ++ cur) ++ allowed r k es) <= 2 * cap.
Proof.
  induction es as [|e es IH]; intros r k now old cur s Hper Hsp Hsort a.
  { cbn. rewrite app_nil_r. apply Hsp. }
  cbn [fmap list_fmap] in Hsort. apply Sorted_inv in Hsort as [Hsort Hle]. apply HdRel_inv in Hle.
  destruct e as [k' t|t]; cbn [event_time allowed] in *.
  - pose proof (sp_window _ _ _ _ _ _ Hsp) as Hw. unfold allow.
    destruct (decide (k' = k)) as [->|Hne].
    + rewrite bool_decide_true by done. cbn [andb]. destruct (r !! k) as [w|] eqn:Er.
      * destruct Hw as [Hs Hc]. destruct (decide (per < t - w_start w)).
        -- rewrite app_assoc. eapply (IH _ _ t (old ++ cur) [t] t); [done| |done].
           eapply spread_new; [exact Hsp|done|left; lia|apply lookup_insert_eq|done].
        -- destruct (decide (limit <= w_count w)).
           ++ cbn [app]. eapply (IH _ _ t old cur s); [done| |done]. eapply spread_wait; [exact Hsp|done|by left].
           ++ rewrite app_assoc, <- (app_assoc old). eapply (IH _ _ t old (cur ++ [t]) s); [done| |done].
              eapply spread_more; [exact Hsp|done|lia|unfold cap; lia|rewrite lookup_insert_eq; congruence].
      * rewrite app_assoc. eapply (IH _ _ t (old ++ cur) [t] t); [done| |done].
        eapply spread_new; [exact Hsp|done|destruct Hw; [left; lia|by right]|apply lookup_insert_eq|done].
    + rewrite bool_decide_false by done. cbn [andb].
      destruct (r !! k') as [w|]; [destruct (decide (per < t - w_start w)); [|destruct (decide (limit <= w_count w))]|];
        cbn [app]; (eapply (IH _ _ t old cur s); [done| |done]); (eapply spread_wait; [exact Hsp|done|left]);
        rewrite ?lookup_insert_ne by done; done.
  - eapply (IH _ _ t old cur s); [done| |done]. eapply spread_wait; [exact Hsp|done|].
    pose proof (sp_window _ _ _ _ _ _ Hsp) as Hw. unfold sweep.
    destruct (r !! k) as [w|] eqn:Er.
    + destruct Hw as [Hs _]. destruct (decide (per < t - w_start w)).
      * right. split; [|lia]. apply map_lookup_filter_None. right. intros x Hx. cbn. congruence || (simplify_eq; lia).
      * left. apply map_lookup_filter_Some. by split.
    + left. apply map_lookup_filter_None. by left.
Qed.

(** C25: the publish limit holds over any interval, not only within a window:
    whatever the requests, from one address or many, and whenever the counters
    are swept, at most twice the limit (or two, when the limit is not positive)
    is allowed to one address within any interval as long as the window. *)
Theorem rate_limited k es t0 : 0 <= per -> Sorted Z.le (t0 :: (event_time <$> es)) ->
  forall a, within a (allowed ∅ k es) <= 2 * Z.max 1 limit.
Proof.
  intros Hper Hs a. apply (allowed_spread es ∅ k t0 [] [] t0 Hper); [|done]. split; try done.
  - unfold len, cap. cbn. lia.
  - intros a' _. unfold cap, within, len. cbn. lia.
  - intros a'. unfold cap, within, len. cbn. lia.
  - by right.
Qed.
End rates.

(** Twice the limit is reached: thirty requests at the end of a window, thirty
    at the start of the next. *)
Definition burst : list rate_event :=
  Ask (str "10.0.0.1") 0 :: (Ask (str "10.0.0.1") <$> replicate 29 (60 * Second)) ++
  (Ask (str "10.0.0.1") <$> replicate 40 (60 * Second + 1)).

Lemma rate_limited_witness : within (60 * Second) (30 * Second) (allowed 30 (60 * Second) ∅ (str "10.0.0.1") burst) <= 60.
Proof.
  apply (rate_limited 30 (60 * Second) (str "10.0.0.1") burst 0); [discriminate|].
  unfold burst. cbn. repeat constructor; discriminate.
Defined.

Example burst_allowed : len (allowed 30 (60 * Second) ∅ (str "10.0.0.1") burst) = 60.
Proof. vm_compute. reflexivity. Qed.
