(* ===== verification/Code.v ===== *)
(** Invite codes: [src/internal/rendezvous/code.go], with the unpadded base32
    encoding ([base32.StdEncoding.WithPadding(NoPadding)]) they are rendered in. *)
From Stdlib Require Import ZArith Lia.
From Stdlib Require Import Strings.Byte.
From stdpp Require Import base list strings numbers option.
From S2P Require Import Prelude Crypto.

(** ** Base32 *)
Definition alphabet32 : bytes := str "ABCDEFGHIJKLMNOPQRSTUVWXYZ234567".

Definition digit32 (v : Z) : byte := nth (Z.to_nat (v mod 32)) alphabet32 x3d.

Definition undigit32 (c : byte) : option Z :=
  (fun i => Z.of_nat i.1) <$> list_find (fun d => d = c) alphabet32.

(** The [n] five-bit digits of a number, most significant first. *)
Fixpoint quintets (n : nat) (v : Z) : list Z :=
  match n with
  | O => []
  | S m => Z.shiftr v (5 * Z.of_nat m) mod 32 :: quintets m v
  end.

Definition of_quintets (ds : list Z) : Z := fold_left (fun a d => a * 32 + d) ds 0.

(** Characters of a short last quantum, by the bytes it holds, and back.  The
    decoder's switch has no case for one, three or six characters, so they
    yield no bytes. *)
Definition chars_of (n : nat) : nat := match n with 1 => 2 | 2 => 4 | 3 => 5 | 4 => 7 | _ => 0 end%nat.
Definition bytes_of (n : nat) : nat := match n with 2 => 1 | 4 => 2 | 5 => 3 | 7 => 4 | 8 => 5 | _ => 0 end%nat.

Fixpoint encode32 (b : bytes) : bytes :=
  match b with
  | x1 :: x2 :: x3 :: x4 :: x5 :: rest =>
      (digit32 <$> quintets 8 (be_get [x1; x2; x3; x4; x5])) ++ encode32 rest
  | _ =>
      take (chars_of (length b)) (digit32 <$> quintets 8 (be_get (b ++ replicate (5 - length b) x00)))
  end.

Definition decode_quantum (s : bytes) : option bytes :=
  ds ← mapM undigit32 s;
  Some (take (bytes_of (length s)) (be_put 5 (of_quintets (ds ++ replicate (8 - length s) 0)))).

Fixpoint decode32 (s : bytes) : option bytes :=
  match s with
  | [] => Some []
  | c1 :: c2 :: c3 :: c4 :: c5 :: c6 :: c7 :: c8 :: rest =>
      q ← decode_quantum [c1; c2; c3; c4; c5; c6; c7; c8]; t ← decode32 rest; Some (q ++ t)
  | _ => decode_quantum s
  end.

(** ** Codes *)
Definition codeEntropyBytes : Z := 20.
Definition PairingKeySize : Z := 32.
Definition codeIDSize : Z := 16.
Definition groupSize : nat := 4.
Definition infoRendezvousID : bytes := str "heimdall v1 rendezvous id".
Definition infoPairingKey : bytes := str "heimdall v1 pairing key".

Inductive code_err := ErrBadCode | CodeCrypto (e : crypto_err).

Record Code := mkCode { secret : bytes }.

Definition NewCode (rng : bytes) : res code_err Code :=
  s ← map_err CodeCrypto (RandomBytes codeEntropyBytes rng); Ok (mkCode s).

Definition separator (c : byte) : bool :=
  match c with x2d | x20 | x09 | x0a | x0d => true | _ => false end.

Definition is_lower (c : byte) : bool := bool_decide (97 <= byte_val c <= 122).
Definition upper1 (c : byte) : byte := if is_lower c then to_byte (byte_val c - 32) else c.

(** [strings.ToUpper]: besides the ASCII letters, two characters have an
    upper-case form in ASCII, the long s and the dotless i; every other
    character stays outside ASCII, whatever its case. *)
Fixpoint ToUpper (s : bytes) : bytes :=
  match s with
  | xc5 :: xbf :: rest => x53 :: ToUpper rest
  | xc4 :: xb1 :: rest => x49 :: ToUpper rest
  | c :: rest => upper1 c :: ToUpper rest
  | [] => []
  end.

Definition clean (s : bytes) : bytes := ToUpper (filter (fun c => separator c = false) s).

Definition ParseCode (s : bytes) : res code_err Code :=
  let cleaned := clean s in
  if decide (cleaned = []) then Err ErrBadCode
  else match decode32 cleaned with
       | None => Err ErrBadCode
       | Some b => if decide (len b <> codeEntropyBytes) then Err ErrBadCode else Ok (mkCode b)
       end.

(** The loop of [String] writes a dash before every fourth character but the
    first. *)
Fixpoint group (i : nat) (raw : bytes) : bytes :=
  match raw with
  | [] => []
  | c :: rest =>
      if decide ((0 < i)%nat /\ (i mod groupSize = 0)%nat) then x2d :: c :: group (S i) rest
      else c :: group (S i) rest
  end.

Definition Code_String (c : Code) : bytes := group 0 (encode32 (secret c)).

Section keys.
Context `{CryptoOps}.

Definition ID (c : Code) : res code_err bytes :=
  map_err CodeCrypto (DeriveKey (secret c) [] infoRendezvousID codeIDSize).

Definition PairingKey (c : Code) : res code_err bytes :=
  map_err CodeCrypto (DeriveKey (secret c) [] infoPairingKey PairingKeySize).
End keys.

Definition Code_Zeroise (c : Code) : Code := mkCode (Zeroise (secret c)).

(** ** Base32 round trip *)
Definition digit32_spec (n : nat) : bool :=
  let c := nth n alphabet32 x3d in
  bool_decide (undigit32 c = Some (Z.of_nat n)) && negb (separator c) &&
  negb (is_lower c) && bool_decide (byte_val c < 128).

Lemma digits32_checked : forallb digit32_spec (seq 0 32) = true.
Proof. vm_compute. reflexivity. Qed.

Lemma digit32_ok v : undigit32 (digit32 v) = Some (v mod 32) /\ separator (digit32 v) = false /\
  is_lower (digit32 v) = false /\ byte_val (digit32 v) < 128.
Proof.
  pose proof (Z.mod_pos_bound v 32 eq_refl) as Hv.
  pose proof (proj1 (forallb_forall _ _) digits32_checked (Z.to_nat (v mod 32))) as Hd.
  specialize (Hd ltac:(apply in_seq; lia)). unfold digit32_spec in Hd.
  rewrite !andb_true_iff, !negb_true_iff, !bool_decide_eq_true in Hd. destruct Hd as [[[Hu Hp] Hn] Hr].
  rewrite Z2Nat.id in Hu by lia. done.
Qed.

Lemma of_quintets_acc ds : forall acc,
  fold_left (fun a d => a * 32 + d) ds acc = acc * 2 ^ (5 * len ds) + of_quintets ds.
Proof.
  unfold of_quintets. induction ds as [|d ds IH]; intros acc; cbn [fold_left].
  - change (len (@nil Z)) with 0. lia.
  - rewrite IH, (IH (0 * 32 + d)), len_cons.
    replace (5 * (len ds + 1)) with (5 + 5 * len ds) by lia.
    rewrite Z.pow_add_r by (pose proof (len_nonneg ds); lia). change (2 ^ 5) with 32. ring.
Qed.

Lemma quintets_len n v : len (quintets n v) = Z.of_nat n.
Proof. induction n as [|n IH]; [done|]. cbn [quintets]. rewrite len_cons, IH. lia. Qed.

Lemma of_quintets_spec n v : of_quintets (quintets n v) = v mod 2 ^ (5 * Z.of_nat n).
Proof.
  induction n as [|n IH]; [by rewrite Z.mod_1_r|]. cbn [quintets]. unfold of_quintets. cbn [fold_left].
  rewrite of_quintets_acc, IH, quintets_len, Z.shiftr_div_pow2 by lia.
  replace (5 * Z.of_nat (S n)) with (5 * Z.of_nat n + 5) by lia.
  rewrite Z.pow_add_r by lia. change (2 ^ 5) with 32. rewrite Z.rem_mul_r by lia. lia.
Qed.

Lemma quintets_mod n v : Forall (fun d => d mod 32 = d) (quintets n v).
Proof.
  induction n as [|n IH]; cbn [quintets]; constructor; [|done]. apply Z.mod_mod. lia.
Qed.

Lemma mapM_digits ds : Forall (fun d => d mod 32 = d) ds -> mapM undigit32 (digit32 <$> ds) = Some ds.
Proof.
  induction 1 as [|d ds Hd _ IH]; [done|]. cbn [fmap list_fmap mapM].
  destruct (digit32_ok d) as [-> _]. cbn [mbind option_bind]. rewrite IH. cbn. by rewrite Hd.
Qed.

Lemma decode_full_quantum (x1 x2 x3 x4 x5 : byte) :
  decode_quantum (digit32 <$> quintets 8 (be_get [x1; x2; x3; x4; x5])) = Some [x1; x2; x3; x4; x5].
Proof.
  set (v := be_get _). unfold decode_quantum. rewrite mapM_digits by apply quintets_mod.
  cbn [mbind option_bind]. change (length (digit32 <$> quintets 8 v)) with 8%nat. cbn [Nat.sub replicate bytes_of].
  rewrite app_nil_r, of_quintets_spec.
  rewrite Z.mod_small by apply (be_get_range [x1; x2; x3; x4; x5]). subst v.
  rewrite (be_put_get_len 5 [x1; x2; x3; x4; x5]) by done. done.
Qed.

Lemma decode32_quantum (q rest : bytes) : length q = 8%nat ->
  decode32 (q ++ rest) = x ← decode_quantum q; t ← decode32 rest; Some (x ++ t).
Proof.
  intros Hq. do 8 (destruct q as [|? q]; [done|]). destruct q; [done|done].
Qed.

Lemma decode_encode32 k : forall b, length b = (5 * k)%nat -> decode32 (encode32 b) = Some b.
Proof.
  induction k as [|k IH]; intros b Hb.
  { destruct b; done. }
  do 5 (destruct b as [|? b]; [cbn in Hb; lia|]).
  cbn [encode32]. rewrite decode32_quantum by done. rewrite decode_full_quantum. cbn [mbind option_bind].
  rewrite IH by (cbn in Hb; lia). done.
Qed.

(** Characters the renderer writes: upper-case ASCII, no separators. *)
Definition plain (c : byte) : Prop := separator c = false /\ is_lower c = false /\ byte_val c < 128.

Lemma plain_digits ds : Forall plain (digit32 <$> ds).
Proof.
  induction ds as [|d ds IH]; cbn; constructor; [|done]. destruct (digit32_ok d) as (_ & ? & ? & ?). done.
Qed.

Lemma plain_encode k : forall b, length b = (5 * k)%nat -> Forall plain (encode32 b).
Proof.
  induction k as [|k IH]; intros b Hb.
  { destruct b; [|done]. constructor. }
  do 5 (destruct b as [|? b]; [cbn in Hb; lia|]). cbn [encode32]. apply Forall_app. split; [apply plain_digits|].
  apply IH. cbn in Hb. lia.
Qed.

Lemma encode32_length k : forall b, length b = (5 * k)%nat -> length (encode32 b) = (8 * k)%nat.
Proof.
  induction k as [|k IH]; intros b Hb.
  { by destruct b. }
  do 5 (destruct b as [|? b]; [cbn in Hb; lia|]). cbn [encode32]. rewrite length_app, IH by (cbn in Hb; lia).
  cbn. lia.
Qed.

(** A character at most 127 does not start a two-byte sequence. *)
Lemma ToUpper_ascii c rest : byte_val c < 128 -> ToUpper (c :: rest) = upper1 c :: ToUpper rest.
Proof. intros Hc. destruct c; try done; vm_compute in Hc; done. Qed.

Lemma upper1_ascii c : byte_val c < 128 -> byte_val (upper1 c) < 128.
Proof.
  unfold upper1, is_lower. case_bool_decide as Hl; [|done]. intros _. rewrite byte_val_to_byte, Z.mod_small; lia.
Qed.

(** How a code may be retyped: separators added or dropped anywhere, and any
    letter in lower case. *)
Inductive retyped : bytes -> bytes -> Prop :=
| rt_nil : retyped [] []
| rt_added c s t : separator c = true -> retyped s t -> retyped (c :: s) t
| rt_dropped c s t : separator c = true -> retyped s t -> retyped s (c :: t)
| rt_char c d s t : separator c = false -> byte_val c < 128 -> upper1 c = d -> retyped s t ->
    retyped (c :: s) (d :: t).

Lemma clean_retyped s t : retyped s t -> Forall (fun c => separator c = true \/ plain c) t -> clean s = clean t.
Proof.
  unfold clean. induction 1 as [|c s t Hc _ IH|c s t Hc _ IH|c d s t Hc Ha Hd _ IH]; intros Hf.
  - done.
  - rewrite filter_cons_False by congruence. by apply IH.
  - apply Forall_cons_iff in Hf as [_ Hf]. rewrite (filter_cons_False _ c t) by congruence. by apply IH.
  - apply Forall_cons_iff in Hf as [[Hd'|(Hs & Hl & Hb)] Hf].
    + exfalso. revert Hc Hd'. rewrite <- Hd. unfold upper1. destruct (is_lower c) eqn:El; [|congruence].
      clear -Ha El. destruct c; vm_compute in El; try done.
    + rewrite !filter_cons_True by done. rewrite !ToUpper_ascii by done. f_equal; [|by apply IH].
      rewrite Hd. unfold upper1. by rewrite Hl.
Qed.

Lemma filter_group raw : forall i, Forall plain raw -> filter (fun c => separator c = false) (group i raw) = raw.
Proof.
  induction raw as [|c raw IH]; intros i Hf; [done|]. apply Forall_cons_iff in Hf as [(Hs & _) Hf].
  cbn [group]. case_decide; [rewrite filter_cons_False by done|]; rewrite filter_cons_True by done; by rewrite IH.
Qed.

Lemma ToUpper_plain raw : Forall plain raw -> ToUpper raw = raw.
Proof.
  induction raw as [|c raw IH]; intros Hf; [done|]. apply Forall_cons_iff in Hf as [(_ & Hl & Hb) Hf].
  rewrite ToUpper_ascii by done. rewrite IH by done. unfold upper1. by rewrite Hl.
Qed.

Lemma group_chars raw : forall i, Forall plain raw -> Forall (fun c => separator c = true \/ plain c) (group i raw).
Proof.
  induction raw as [|c raw IH]; intros i Hf; [constructor|]. apply Forall_cons_iff in Hf as [Hc Hf].
  cbn [group]. case_decide; [constructor; [by left|]|]; (constructor; [by right|by apply IH]).
Qed.

Lemma parse_retyped c s : len (secret c) = codeEntropyBytes -> retyped s (Code_String c) -> ParseCode s = Ok c.
Proof.
  intros Hl Hr. assert (Hlen : length (secret c) = (5 * 4)%nat) by (unfold len, codeEntropyBytes in Hl; lia).
  pose proof (plain_encode 4 _ Hlen) as Hp.
  assert (Hc : clean s = encode32 (secret c)).
  { rewrite (clean_retyped _ _ Hr) by (by apply group_chars). unfold clean, Code_String.
    rewrite filter_group by done. by apply ToUpper_plain. }
  unfold ParseCode. rewrite Hc. rewrite (decide_False (P := encode32 _ = [])).
  2:{ intros E%(f_equal length). rewrite (encode32_length 4) in E by done. done. }
  rewrite (decode_encode32 4) by done. rewrite decide_False by (rewrite Hl; intros Hn; by apply Hn).
  by destruct c.
Qed.

(** An invite code read back is the code that was issued, however it was
    retyped: in lower case, and with dashes, spaces or line breaks added or left
    out anywhere. *)
Theorem code_roundtrip c s : len (secret c) = codeEntropyBytes -> retyped s (Code_String c) -> ParseCode s = Ok c.
Proof. apply parse_retyped. Qed.

Definition sample_code : Code := mkCode (str "twenty random bytes!").

(** The rendered code in one piece. *)
Lemma code_roundtrip_witness :
  Code_String sample_code = str "OR3W-K3TU-PEQH-EYLO-MRXW-2IDC-PF2G-K4ZB" /\
  ParseCode (str "OR3wK3TU PEQH-EYLO-MRXW-2IDC-PF2G-K4zb") = Ok sample_code.
Proof.
  split; [vm_compute; reflexivity|].
  apply (code_roundtrip sample_code); [reflexivity|].
  assert (E : Code_String sample_code = str "OR3W-K3TU-PEQH-EYLO-MRXW-2IDC-PF2G-K4ZB") by (vm_compute; reflexivity).
  rewrite E. cbn.
  repeat first [apply rt_nil | apply rt_char; [reflexivity|reflexivity|reflexivity|]
               | apply rt_dropped; [reflexivity|] | apply rt_added; [reflexivity|]].
Defined.
