(* ===== verification/Transport.v ===== *)
(** Length-prefixed framing: [src/internal/transport/transport.go].

    [FrameIO] runs over any connection.  What it needs of one is the class
    [ByteStream]: a state that holds the bytes still to come, and a [Read] that
    hands out a non-empty piece of them.  A TCP connection and a WebSocket
    connection are instances. *)
From Stdlib Require Import ZArith Lia.
From Stdlib Require Import Strings.Byte.
From stdpp Require Import base list strings numbers option.
From S2P Require Import Prelude.

(** [read s n] is [Read] on a buffer of [n] bytes: the bytes read and whether an
    error came with them. *)
Class ByteStream (St : Type) := {
  read : St -> Z -> St * (bytes * bool);
  holds : St -> bytes -> Prop;
  read_holds s d n : holds s d -> d <> [] -> 0 < n ->
    exists b d' s', read s n = (s', (b, false)) /\ d = b ++ d' /\ 0 < len b <= n /\ holds s' d'
}.

(** [io.ReadFull].  Every read of a stream that holds bytes returns at least
    one, so as many reads as bytes wanted are enough. *)
Fixpoint read_loop `{ByteStream St} (fuel : nat) (s : St) (n : Z) (acc : bytes) : St * option bytes :=
  if decide (n <= 0) then (s, Some acc)
  else match fuel with
       | O => (s, None)
       | S fuel' =>
           let '(s', (b, err)) := read s n in
           if decide (n <= len b) then (s', Some (acc ++ b))
           else if err : bool then (s', None)
           else read_loop fuel' s' (n - len b) (acc ++ b)
       end.

Definition ReadFull `{ByteStream St} (s : St) (n : Z) : St * option bytes := read_loop (Z.to_nat n) s n [].

Definition MaxFrameSize : Z := Z.shiftl 1 20.

Inductive frame_err := ErrFrameTooLarge | FrameIOError.

(** [Send]: the writes it makes on the connection. *)
Definition Send (payload : bytes) : res frame_err (list bytes) :=
  if decide (MaxFrameSize < len payload) then Err ErrFrameTooLarge
  else
    let hdr := be_put 4 (wrap 32 (len payload)) in
    if decide (len payload = 0) then Ok [hdr] else Ok [hdr; payload].

Section recv.
Context `{ByteStream St}.

Definition RecvBefore (s : St) : St * res frame_err bytes :=
  let '(s1, h) := ReadFull s 4 in
  match h with
  | None => (s1, Err FrameIOError)
  | Some hdr =>
      let n := be_get hdr in
      if decide (MaxFrameSize < n) then (s1, Err ErrFrameTooLarge)
      else if decide (n = 0) then (s1, Ok [])
      else
        let '(s2, p) := ReadFull s1 n in
        match p with
        | None => (s2, Err FrameIOError)
        | Some payload => (s2, Ok payload)
        end
  end.

Definition Recv (s : St) : St * res frame_err bytes := RecvBefore s.

(** ** Lemmas *)
Lemma read_loop_ok fuel : forall s d d' n acc, holds s (d ++ d') -> len d = n -> (Z.to_nat n <= fuel)%nat ->
  exists s', read_loop fuel s n acc = (s', Some (acc ++ d)) /\ holds s' d'.
Proof.
  induction fuel as [|fuel IH]; intros s d d' n acc Hh Hl Hf; cbn [read_loop].
  - assert (d = []) as -> by (apply len_zero_nil; len_lia).
    rewrite decide_True by (rewrite <- Hl; done). exists s. by rewrite app_nil_r.
  - case_decide as Hn.
    { assert (d = []) as -> by (apply len_zero_nil; len_lia).
      exists s. by rewrite app_nil_r. }
    destruct (read_holds s (d ++ d') n) as (b & e & s' & -> & He & Hb & Hh'); [done| |lia|].
    { intros [-> _]%app_eq_nil. rewrite len_nil in Hl. lia. }
    assert (exists t, d = b ++ t) as [t ->].
    { exists (drop (length b) d). rewrite <- (take_drop (length b) d) at 1. f_equal.
      apply (f_equal (take (length b))) in He. rewrite take_app_length in He.
      rewrite take_app_le in He; [done|]. unfold len in *. lia. }
    rewrite <- app_assoc in He. apply app_inv_head in He. subst e. rewrite len_app in Hl. case_decide.
    + assert (t = []) as -> by (apply len_zero_nil; len_lia).
      exists s'. by rewrite app_nil_r.
    + destruct (IH s' t d' (n - len b) (acc ++ b)) as (s2 & -> & Hs2); [done|lia|lia|].
      exists s2. by rewrite <- app_assoc.
Qed.

Lemma ReadFull_ok s d d' n : holds s (d ++ d') -> len d = n -> exists s', ReadFull s n = (s', Some d) /\ holds s' d'.
Proof. intros Hh Hl. apply (read_loop_ok (Z.to_nat n) s d d' n []); done. Qed.

Lemma frame_size (p : bytes) : len p <= MaxFrameSize -> 0 <= len p < 2 ^ 32.
Proof. change MaxFrameSize with 1048576. pose proof (len_nonneg p). lia. Qed.

(** The bytes one payload takes on the wire. *)
Definition framed (payload : bytes) : bytes := be_put 4 (len payload) ++ payload.

Lemma Send_framed payload : len payload <= MaxFrameSize ->
  exists ws, Send payload = Ok ws /\ concat ws = framed payload.
Proof.
  intros Hl. unfold Send. rewrite decide_False by lia. pose proof (len_nonneg payload).
  rewrite wrap_small by (by apply frame_size).
  case_decide as Hz; eexists; (split; [done|]); unfold framed; cbn.
  - by rewrite (len_zero_nil payload).
  - by rewrite app_nil_r.
Qed.

Lemma RecvBefore_ok s payload rest : holds s (framed payload ++ rest) -> len payload <= MaxFrameSize ->
  exists s', RecvBefore s = (s', Ok payload) /\ holds s' rest.
Proof.
  intros Hh Hl. unfold RecvBefore. pose proof (len_nonneg payload) as Hp. unfold framed in Hh.
  rewrite <- app_assoc in Hh. destruct (ReadFull_ok s _ _ 4 Hh) as (s1 & -> & H1); [by rewrite len_be_put|].
  rewrite be_get_put_small by (by apply frame_size). rewrite decide_False by lia.
  case_decide as Hz.
  - apply len_zero_nil in Hz as ->. eauto.
  - destruct (ReadFull_ok s1 _ _ (len payload) H1) as (s2 & -> & H2); [done|]. eauto.
Qed.

(** Receive [n] frames. *)
Fixpoint recv_all (n : nat) (s : St) : St * list (res frame_err bytes) :=
  match n with
  | O => (s, [])
  | S m => let '(s1, r) := RecvBefore s in let '(s2, rs) := recv_all m s1 in (s2, r :: rs)
  end.

Lemma frames_received payloads : forall s rest,
  Forall (fun p => len p <= MaxFrameSize) payloads -> holds s (concat (framed <$> payloads) ++ rest) ->
  exists s', recv_all (length payloads) s = (s', Ok <$> payloads) /\ holds s' rest.
Proof.
  induction payloads as [|p ps IH]; intros s rest Hf Hh; [by exists s|].
  apply Forall_cons_iff in Hf as [Hp Hf]. cbn in Hh. rewrite <- app_assoc in Hh. cbn [length recv_all].
  destruct (RecvBefore_ok s p _ Hh Hp) as (s1 & -> & H1). destruct (IH s1 rest Hf H1) as (s2 & -> & H2).
  exists s2. done.
Qed.

(** Over any connection that delivers its bytes, however it cuts them into
    pieces, the frames received are the payloads sent, in order and with their
    boundaries. *)
Theorem frames_delivered payloads : forall s rest,
  Forall (fun p => len p <= MaxFrameSize) payloads -> holds s (concat (framed <$> payloads) ++ rest) ->
  exists s', recv_all (length payloads) s = (s', Ok <$> payloads) /\ holds s' rest.
Proof. apply frames_received. Qed.

(** An announced length over the limit is refused before anything is allocated. *)
Lemma oversized_refused s n rest : holds s (be_put 4 n ++ rest) -> MaxFrameSize < n < 2 ^ 32 ->
  exists s', RecvBefore s = (s', Err ErrFrameTooLarge).
Proof.
  intros Hh Hn. unfold RecvBefore. destruct (ReadFull_ok s _ _ 4 Hh) as (s1 & -> & _); [by rewrite len_be_put|].
  rewrite be_get_put_small by (change MaxFrameSize with 1048576 in Hn; cbn; lia). rewrite decide_True by lia. eauto.
Qed.
End recv.

(** ** A TCP connection

    The segments still to arrive, none of them empty. *)
Record tcp := Tcp { segments : list bytes }.

Definition tcp_read (c : tcp) (n : Z) : tcp * (bytes * bool) :=
  match segments c with
  | [] => (c, ([], true))
  | seg :: rest =>
      if decide (len seg <= n) then (Tcp rest, (seg, false))
      else (Tcp (drop (Z.to_nat n) seg :: rest), (take (Z.to_nat n) seg, false))
  end.

Definition tcp_holds (c : tcp) (d : bytes) : Prop :=
  Forall (fun seg => seg <> []) (segments c) /\ concat (segments c) = d.

#[export] Instance tcp_stream : ByteStream tcp.
Proof.
  refine {| read := tcp_read; holds := tcp_holds |}.
  intros [segs] d n [Hne <-] Hd Hn. unfold tcp_read. cbn [segments] in *. destruct segs as [|seg rest]; [done|].
  apply Forall_cons_iff in Hne as [Hseg Hne].
  assert (0 < len seg) by (destruct seg; [done|rewrite len_cons; pose proof (len_nonneg seg); lia]).
  case_decide as Hl.
  - exists seg, (concat rest), (Tcp rest).
    split; [done|]. split; [done|]. split; [lia|]. by split.
  - exists (take (Z.to_nat n) seg), (drop (Z.to_nat n) seg ++ concat rest), (Tcp (drop (Z.to_nat n) seg :: rest)).
    rewrite len_take_le by lia. split; [done|]. split; [|split; [lia|split; [|done]]].
    + cbn. by rewrite app_assoc, take_drop.
    + constructor; [|done]. intros E%(f_equal len). rewrite len_drop, len_nil in E by lia. lia.
Defined.

Lemma frames_delivered_witness :
  snd (recv_all 2 (Tcp [be_put 4 2; str "h"; str "i" ++ be_put 4 3 ++ str "yo"; str "u"])) =
  [Ok (str "hi"); Ok (str "you")].
Proof.
  destruct (frames_delivered (St := tcp) [str "hi"; str "you"]
    (Tcp [be_put 4 2; str "h"; str "i" ++ be_put 4 3 ++ str "yo"; str "u"]) []) as (s' & E & _).
  - repeat constructor; vm_compute; discriminate.
  - split; [repeat constructor; discriminate|reflexivity].
  - cbn [length] in E. rewrite E. reflexivity.
Defined.
