(* ===== verification/Deadlines.v ===== *)
(** Time: the deadlines of [src/internal/transport/transport.go] and the two
    clocks of a connection in [src/internal/session/manager.go], the read
    deadline of the read loop and the ticker of the keepalive loop.

    Times are nanoseconds.  A [tconn] is a connection with a clock: what arrives
    on it and when, and how long each write takes to be accepted, are part of
    the state; reading and writing move the clock. *)
From Stdlib Require Import ZArith Lia.
From Stdlib Require Import Strings.Byte.
From stdpp Require Import base strings numbers option sorting list.
From S2P Require Import Prelude Crypto Transport.

Definition Second : Z := 1000000000.
Definition DialTimeout : Z := 10 * Second.
Definition IOTimeout : Z := 30 * Second.
Definition HandshakeTimeout : Z := 15 * Second.
Definition keepaliveInterval : Z := 20 * Second.
Definition keepaliveMisses : Z := 3.

(** ** A connection with a clock *)
Record tconn := TConn {
  t_now : Z;
  t_rd : option Z;                (* read deadline *)
  t_wr : option Z;                (* write deadline *)
  t_closed : bool;
  t_in : list (Z * bytes);        (* segments and the times they arrive; nothing after them *)
  t_delays : list Z;              (* how long each write waits for room; none after them *)
  t_hung : bool                   (* an operation without a deadline never returned *)
}.

Definition at_time (c : tconn) (now : Z) : tconn :=
  TConn now (t_rd c) (t_wr c) (t_closed c) (t_in c) (t_delays c) (t_hung c).
Definition set_in (c : tconn) (l : list (Z * bytes)) : tconn :=
  TConn (t_now c) (t_rd c) (t_wr c) (t_closed c) l (t_delays c) (t_hung c).
Definition hang (c : tconn) : tconn :=
  TConn (t_now c) (t_rd c) (t_wr c) (t_closed c) (t_in c) (t_delays c) true.

(** The methods of [net.Conn]. *)
Definition conn_SetReadDeadline (c : tconn) (d : option Z) : tconn :=
  TConn (t_now c) d (t_wr c) (t_closed c) (t_in c) (t_delays c) (t_hung c).
Definition conn_SetWriteDeadline (c : tconn) (d : option Z) : tconn :=
  TConn (t_now c) (t_rd c) d (t_closed c) (t_in c) (t_delays c) (t_hung c).
Definition conn_SetDeadline (c : tconn) (d : option Z) : tconn :=
  conn_SetWriteDeadline (conn_SetReadDeadline c d) d.
Definition conn_Close (c : tconn) : tconn :=
  TConn (t_now c) (t_rd c) (t_wr c) true (t_in c) (t_delays c) (t_hung c).

Definition expired (d : option Z) (now : Z) : bool := match d with Some t => t <=? now | None => false end.

(** Wait until [t] under a deadline: when it passes first, until then. *)
Definition before (d : option Z) (t : Z) : bool := match d with Some d => t <? d | None => true end.

Definition conn_Read (c : tconn) (n : Z) : tconn * (bytes * bool) :=
  if t_closed c || t_hung c || expired (t_rd c) (t_now c) then (c, ([], true))
  else match t_in c with
  | (a, seg) :: rest =>
      let t := Z.max (t_now c) a in
      if before (t_rd c) t then
        if decide (len seg <= n) then (set_in (at_time c t) rest, (seg, false))
        else (set_in (at_time c t) ((a, drop (Z.to_nat n) seg) :: rest), (take (Z.to_nat n) seg, false))
      else (at_time c (default 0 (t_rd c)), ([], true))
  | [] => match t_rd c with Some d => (at_time c d, ([], true)) | None => (hang c, ([], true)) end
  end.

(** The bytes themselves go to the peer and are not kept. *)
Definition conn_Write (c : tconn) : tconn * bool :=
  if t_closed c || t_hung c || expired (t_wr c) (t_now c) then (c, false)
  else
    let t := t_now c + Z.max 0 (default 0 (head (t_delays c))) in
    let c1 := TConn t (t_rd c) (t_wr c) (t_closed c) (t_in c) (tail (t_delays c)) (t_hung c) in
    if before (t_wr c) t then (c1, true) else (at_time c1 (default 0 (t_wr c)), false).

(** What a timed connection delivers: the segments that arrive before its read
    deadline. *)
Definition timely (c : tconn) (d : bytes) : Prop :=
  t_closed c = false /\ t_hung c = false /\ before (t_rd c) (t_now c) = true /\
  exists l1 l2, t_in c = l1 ++ l2 /\ concat l1.*2 = d /\
    Forall (fun s => s.2 <> [] /\ before (t_rd c) s.1 = true) l1.

Lemma expired_before d t : expired d t = negb (before d t).
Proof. unfold expired, before. destruct d; [|done]. rewrite Z.leb_antisym. done. Qed.

Lemma before_max d a b : before d (Z.max a b) = before d a && before d b.
Proof.
  unfold before. destruct d as [d|]; [|done].
  destruct (Z.ltb_spec a d), (Z.ltb_spec b d), (Z.ltb_spec (Z.max a b) d); done || lia.
Qed.

#[export] Instance tconn_stream : ByteStream tconn.
Proof.
  refine {| read := conn_Read; holds := timely |}.
  intros c d n (Hc & Hh & Hb & l1 & l2 & Hin & Hd & Hl) Hne Hn.
  destruct l1 as [|[a seg] l1]; [by subst d|]. apply Forall_cons_iff in Hl as [[Hseg Ha] Hl].
  unfold conn_Read. rewrite Hc, Hh, expired_before, Hb. cbn [orb negb]. rewrite Hin. cbn [app].
  rewrite before_max, Hb. cbn [fst] in Ha. rewrite Ha. cbn [andb].
  assert (0 < len seg) by (destruct seg; [done|rewrite len_cons; pose proof (len_nonneg seg); lia]).
  cbn in Hd. case_decide as Hsz.
  - exists seg, (concat l1.*2). eexists. split; [done|]. split; [done|]. split; [lia|].
    split; [done|]. split; [done|]. cbn. split; [by rewrite before_max, Hb, Ha|]. by exists l1, l2.
  - exists (take (Z.to_nat n) seg), (drop (Z.to_nat n) seg ++ concat l1.*2). eexists.
    split; [done|]. rewrite len_take_le by lia. split; [by rewrite app_assoc, take_drop|]. split; [lia|].
    split; [done|]. split; [done|]. cbn. split; [by rewrite before_max, Hb, Ha|].
    exists ((a, drop (Z.to_nat n) seg) :: l1), l2. split; [done|]. split; [done|]. constructor; [|done].
    split; [|done]. cbn. intros E%(f_equal len). rewrite len_drop, len_nil in E by lia. lia.
Defined.

(** ** The framed transport on it *)

(** [FrameIO.RecvBefore]: the deadline is set, and set again between the header
    and the payload. *)
Definition FrameIO_RecvBefore (c : tconn) (deadline : Z) : tconn * res frame_err bytes :=
  RecvBefore (conn_SetReadDeadline c (Some deadline)).

Definition FrameIO_Recv (c : tconn) : tconn * res frame_err bytes := FrameIO_RecvBefore c (t_now c + IOTimeout).

Definition FrameIO_Send (c : tconn) (payload : bytes) : tconn * res frame_err unit :=
  match Send payload with
  | Ok writes =>
      let c1 := conn_SetWriteDeadline c (Some (t_now c + IOTimeout)) in
      let '(c2, ok) := foldl (fun '(c, ok) _ => if ok : bool then conn_Write c else (c, false)) (c1, true) writes in
      (c2, if ok : bool then Ok tt else Err FrameIOError)
  | Err e => (c, Err e)
  | Panic => (c, Panic)
  end.

Definition FrameIO_SetDeadline (c : tconn) (t : Z) : tconn := conn_SetDeadline c (Some t).
Definition FrameIO_ClearDeadline (c : tconn) : tconn := conn_SetDeadline c None.
Definition FrameIO_Close (c : tconn) : tconn := conn_Close c.

(** [RemoteAddr] of a connection whose address may be missing. *)
Definition FrameIO_RemoteAddr (addr : option bytes) : bytes := default [] addr.

(** A program over a framed connection: it stops at the first error. *)
Inductive io_op := OSend (payload : bytes) | ORecv.

Fixpoint run_ops (c : tconn) (ops : list io_op) : tconn * list bytes * bool :=
  match ops with
  | [] => (c, [], true)
  | OSend p :: rest =>
      let '(c1, r) := FrameIO_Send c p in
      match r with Ok _ => run_ops c1 rest | _ => (c1, [], false) end
  | ORecv :: rest =>
      let '(c1, r) := FrameIO_Recv c in
      match r with
      | Ok b => let '(c2, got, ok) := run_ops c1 rest in (c2, b :: got, ok)
      | _ => (c1, [], false)
      end
  end.

(** The start of [runHandshake]: its deadline, then its messages. *)
Definition handshake_ops (c : tconn) (ops : list io_op) : tconn * list bytes * bool :=
  run_ops (FrameIO_SetDeadline c (t_now c + HandshakeTimeout)) ops.

(** ** The clocks of a connection *)
Inductive ending := ReadTimeout | KeepaliveMissed.

(** The read loop started its current receive at [rd], the next tick is at
    [tick], [unanswered] pings have had no pong; [frames] arrive at the given
    times, each a pong or not.  Each turn handles the event that comes first. *)
Fixpoint watch (fuel : nat) (rd tick unanswered : Z) (frames : list (Z * bool)) : option (Z * ending) :=
  match fuel with
  | O => None
  | S fuel' =>
      let deadline := rd + IOTimeout in
      let arrival := match frames with (a, _) :: _ => Z.max rd a | [] => deadline end in
      let e := Z.min arrival deadline in
      if decide (tick < e) then
        if decide (keepaliveMisses < unanswered + 1) then Some (tick, KeepaliveMissed)
        else watch fuel' rd (tick + keepaliveInterval) (unanswered + 1) frames
      else match frames with
      | (a, pong) :: rest =>
          if decide (arrival < deadline)
          then watch fuel' arrival tick (if pong : bool then 0 else unanswered) rest
          else Some (deadline, ReadTimeout)
      | [] => Some (deadline, ReadTimeout)
      end
  end.

(** A connection registered at [t0]. *)
Definition watch_from (fuel : nat) (t0 : Z) (frames : list (Z * bool)) : option (Z * ending) :=
  watch fuel t0 (t0 + keepaliveInterval) 0 frames.

(** ** Lemmas: every operation returns by its own deadline *)
Record paced (d : Z) (c c' : tconn) : Prop := {
  pc_rd : t_rd c' = t_rd c;
  pc_wr : t_wr c' = t_wr c;
  pc_hung : t_hung c' = t_hung c;
  pc_now : t_now c <= t_now c' <= d
}.

Lemma paced_refl d c : t_now c <= d -> paced d c c.
Proof. by split. Qed.

Lemma paced_trans d c1 c2 c3 : paced d c1 c2 -> paced d c2 c3 -> paced d c1 c3.
Proof. intros [] []. split; try congruence. lia. Qed.

Lemma before_spec d t : before (Some d) t = true <-> t < d.
Proof. cbn. apply Z.ltb_lt. Qed.

Lemma read_paced c n d : t_rd c = Some d -> t_now c <= d -> paced d c (conn_Read c n).1.
Proof.
  intros Hd Hn. unfold conn_Read. rewrite Hd. destruct (_ || _ || _); [by apply paced_refl|].
  destruct (t_in c) as [|[a seg] rest]; [by split|].
  destruct (before (Some d) (Z.max (t_now c) a)) eqn:Hb; [|by split].
  apply before_spec in Hb. case_decide; split; cbn; try done; lia.
Qed.

Lemma write_paced c d : t_wr c = Some d -> t_now c <= d -> paced d c (conn_Write c).1.
Proof.
  intros Hd Hn. unfold conn_Write. rewrite Hd. destruct (_ || _ || _); [by apply paced_refl|].
  destruct (before (Some d) _) eqn:Hb; [|by split]. apply before_spec in Hb. split; cbn; try done; lia.
Qed.

Lemma read_loop_paced fuel : forall c n acc d, t_rd c = Some d -> t_now c <= d ->
  paced d c (read_loop fuel c n acc).1.
Proof.
  induction fuel as [|fuel IH]; intros c n acc d Hd Hn; cbn [read_loop].
  { case_decide; by apply paced_refl. }
  case_decide; [by apply paced_refl|]. pose proof (read_paced c n d Hd Hn) as Hp.
  change (read c n) with (conn_Read c n). destruct (conn_Read c n) as [c1 [b err]]. cbn [fst] in Hp.
  case_decide; [done|]. destruct err; [done|].
  eapply paced_trans; [exact Hp|]. apply IH; [rewrite (pc_rd _ _ _ Hp); done|apply Hp].
Qed.

Lemma RecvBefore_paced c d : t_rd c = Some d -> t_now c <= d -> paced d c (RecvBefore c).1.
Proof.
  intros Hd Hn. unfold RecvBefore, ReadFull.
  pose proof (read_loop_paced (Z.to_nat 4) c 4 [] d Hd Hn) as P1.
  destruct (read_loop (Z.to_nat 4) c 4 []) as [c1 [hdr|]]; cbn [fst] in P1; [|done].
  case_decide; [done|]. case_decide; [done|].
  assert (Hd1 : t_rd c1 = Some d) by (rewrite (pc_rd _ _ _ P1); done).
  pose proof (read_loop_paced (Z.to_nat (be_get hdr)) c1 (be_get hdr) [] d Hd1 (proj2 (pc_now _ _ _ P1))) as P2.
  destruct (read_loop _ c1 _ _) as [c2 [p|]]; cbn [fst] in P2; by eapply paced_trans.
Qed.

Lemma Recv_paced c : t_now c <= t_now (FrameIO_Recv c).1 <= t_now c + IOTimeout /\
  t_hung (FrameIO_Recv c).1 = t_hung c.
Proof.
  unfold FrameIO_Recv, FrameIO_RecvBefore.
  destruct (RecvBefore_paced (conn_SetReadDeadline c (Some (t_now c + IOTimeout))) (t_now c + IOTimeout)) as [_ _ Hh Hn];
    [done|cbn; unfold IOTimeout, Second; lia|]. by split.
Qed.

Lemma Send_paced c p : t_now c <= t_now (FrameIO_Send c p).1 <= t_now c + IOTimeout /\
  t_hung (FrameIO_Send c p).1 = t_hung c.
Proof.
  assert (Hw : forall ws c0 ok d, t_wr c0 = Some d -> t_now c0 <= d ->
    paced d c0 (foldl (fun '(c, ok) (_ : bytes) => if ok : bool then conn_Write c else (c, false)) (c0, ok) ws).1).
  { induction ws as [|w ws IH]; intros c0 ok d Hd Hn; cbn [foldl]; [by apply paced_refl|].
    destruct ok; [|by apply IH]. pose proof (write_paced c0 d Hd Hn) as Hp.
    destruct (conn_Write c0) as [c1 ok]. cbn [fst] in Hp. eapply paced_trans; [exact Hp|].
    apply IH; [rewrite (pc_wr _ _ _ Hp); done|apply Hp]. }
  unfold FrameIO_Send. assert (t_now c <= t_now c + IOTimeout) by (unfold IOTimeout, Second; lia).
  destruct (Send p) as [ws|e|]; [|by split..].
  specialize (Hw ws (conn_SetWriteDeadline c (Some (t_now c + IOTimeout))) true (t_now c + IOTimeout)).
  destruct (foldl _ _ _) as [c2 ok]. cbn [fst]. destruct Hw as [_ _ Hh Hn]; done.
Qed.

Lemma run_ops_paced ops : forall c, let c' := (run_ops c ops).1.1 in
  t_now c <= t_now c' <= t_now c + len ops * IOTimeout /\ t_hung c' = t_hung c.
Proof.
  induction ops as [|[p|] ops IH]; intros c; cbn [run_ops].
  - cbn. split; [unfold len; cbn; lia|done].
  - rewrite len_cons. destruct (Send_paced c p) as [P1 P2]. pose proof (len_nonneg ops).
    assert (0 < IOTimeout) by done. destruct (FrameIO_Send c p) as [c1 [u|e|]]; cbn [fst] in *; [|split; [nia|done]..].
    destruct (IH c1) as [Q1 Q2]. split; [nia|congruence].
  - rewrite len_cons. destruct (Recv_paced c) as [P1 P2]. pose proof (len_nonneg ops).
    assert (0 < IOTimeout) by done. destruct (FrameIO_Recv c) as [c1 [b|e|]]; cbn [fst] in *; [|split; [nia|done]..].
    destruct (IH c1) as [Q1 Q2]. destruct (run_ops c1 ops) as [[c2 got] ok]. cbn [fst] in *. split; [nia|congruence].
Qed.

(** ** Deadlines set before do not matter *)
Definition alike (c c' : tconn) : Prop := exists r w, c' = conn_SetReadDeadline (conn_SetWriteDeadline c w) r.

Lemma alike_now c c' : alike c c' -> t_now c' = t_now c.
Proof. by intros (r & w & ->). Qed.

Lemma read_other c n w : conn_Read (conn_SetWriteDeadline c w) n =
  (conn_SetWriteDeadline (conn_Read c n).1 w, (conn_Read c n).2).
Proof.
  unfold conn_Read. cbn [conn_SetWriteDeadline t_closed t_hung t_rd t_now t_in]. destruct (_ || _ || _); [done|].
  destruct (t_in c) as [|[a seg] rest]; [by destruct (t_rd c)|]. destruct (before _ _); [|done]. by case_decide.
Qed.

Lemma write_other c r : conn_Write (conn_SetReadDeadline c r) =
  (conn_SetReadDeadline (conn_Write c).1 r, (conn_Write c).2).
Proof.
  unfold conn_Write. cbn [conn_SetReadDeadline t_closed t_hung t_wr t_now t_in t_delays].
  destruct (_ || _ || _); [done|]. by destruct (before _ _).
Qed.

Lemma read_loop_other fuel : forall c n acc w, read_loop fuel (conn_SetWriteDeadline c w) n acc =
  (conn_SetWriteDeadline (read_loop fuel c n acc).1 w, (read_loop fuel c n acc).2).
Proof.
  induction fuel as [|fuel IH]; intros c n acc w; cbn [read_loop]; [by case_decide|].
  case_decide; [done|]. change (read ?c n) with (conn_Read c n). rewrite read_other.
  destruct (conn_Read c n) as [c1 [b err]]. cbn [fst snd]. case_decide; [done|]. destruct err; [done|]. apply IH.
Qed.

Lemma RecvBefore_other c w : RecvBefore (conn_SetWriteDeadline c w) =
  (conn_SetWriteDeadline (RecvBefore c).1 w, (RecvBefore c).2).
Proof.
  unfold RecvBefore, ReadFull. rewrite read_loop_other.
  destruct (read_loop _ c 4 []) as [c1 [hdr|]]; cbn [fst snd]; [|done].
  case_decide; [done|]. case_decide; [done|]. rewrite read_loop_other.
  by destruct (read_loop _ c1 _ _) as [c2 [p|]].
Qed.

Lemma alike_Recv c c' : alike c c' -> alike (FrameIO_Recv c).1 (FrameIO_Recv c').1 /\ (FrameIO_Recv c').2 = (FrameIO_Recv c).2.
Proof.
  intros (r & w & ->). unfold FrameIO_Recv, FrameIO_RecvBefore. cbn [conn_SetReadDeadline conn_SetWriteDeadline t_now].
  change (conn_SetReadDeadline (conn_SetReadDeadline (conn_SetWriteDeadline c w) r) ?d)
    with (conn_SetWriteDeadline (conn_SetReadDeadline c d) w).
  rewrite RecvBefore_other. cbn [fst snd]. split; [|done].
  destruct (RecvBefore _) as [c1 o]. cbn [fst]. exists (t_rd c1), w. by destruct c1.
Qed.

Lemma alike_Send c c' p : alike c c' -> alike (FrameIO_Send c p).1 (FrameIO_Send c' p).1 /\
  (FrameIO_Send c' p).2 = (FrameIO_Send c p).2.
Proof.
  intros (r & w & ->). unfold FrameIO_Send. destruct (Send p) as [ws|e|]; [|split; [by exists r, w|done]..].
  cbn [conn_SetReadDeadline conn_SetWriteDeadline t_now].
  change (conn_SetWriteDeadline (conn_SetReadDeadline (conn_SetWriteDeadline c w) r) ?d)
    with (conn_SetReadDeadline (conn_SetWriteDeadline c d) r).
  generalize (conn_SetWriteDeadline c (Some (t_now c + IOTimeout))). intros c0. 
  assert (Hw : forall ok, foldl (fun '(c, ok) (_ : bytes) => if ok : bool then conn_Write c else (c, false))
      (conn_SetReadDeadline c0 r, ok) ws =
    let '(c1, ok1) := foldl (fun '(c, ok) (_ : bytes) => if ok : bool then conn_Write c else (c, false)) (c0, ok) ws in
    (conn_SetReadDeadline c1 r, ok1)).
  { revert c0. induction ws as [|x ws IH]; intros c0 ok; cbn [foldl]; [done|]. destruct ok; [|apply IH].
    rewrite write_other. destruct (conn_Write c0) as [c1 ok]. cbn [fst snd]. apply IH. }
  rewrite Hw. destruct (foldl _ (c0, true) ws) as [c1 ok]. cbn [fst snd]. split; [|done].
  exists r, (t_wr c1). by destruct c1.
Qed.

Lemma alike_run ops : forall c c', alike c c' ->
  alike (run_ops c ops).1.1 (run_ops c' ops).1.1 /\ (run_ops c' ops).1.2 = (run_ops c ops).1.2 /\
  (run_ops c' ops).2 = (run_ops c ops).2.
Proof.
  induction ops as [|[p|] ops IH]; intros c c' Ha; cbn [run_ops]; [done| |].
  - destruct (alike_Send c c' p Ha) as [A1 A2]. destruct (FrameIO_Send c p) as [c1 o], (FrameIO_Send c' p) as [c1' o'].
    cbn [fst snd] in *. subst o'. destruct o; [by apply IH|done..].
  - destruct (alike_Recv c c' Ha) as [A1 A2]. destruct (FrameIO_Recv c) as [c1 o], (FrameIO_Recv c') as [c1' o'].
    cbn [fst snd] in *. subst o'. destruct o as [b|e|]; [|by split_and!..]. destruct (IH c1 c1' A1) as (I1 & I2 & I3).
    destruct (run_ops c1 ops) as [[c2 g] k], (run_ops c1' ops) as [[c2' g'] k']. cbn [fst snd] in *. by subst.
Qed.

(** The handshake deadline bounds nothing: on every connection, with
    whatever delays and segments, the messages of a handshake get the same
    results at the same times with the deadline of 15 seconds as without it,
    because each send and receive sets its own; what holds is 30 seconds for
    each message, 90 for the three, and no operation hangs. *)
Theorem handshake_deadline_void c ops :
  let '(c1, got, ok) := handshake_ops c ops in
  let '(c2, got', ok') := run_ops c ops in
  got = got' /\ ok = ok' /\ t_now c1 = t_now c2 /\
  t_now c <= t_now c1 <= t_now c + len ops * IOTimeout /\ t_hung c1 = t_hung c.
Proof.
  assert (Ha : alike c (FrameIO_SetDeadline c (t_now c + HandshakeTimeout))) by (do 2 eexists; reflexivity).
  unfold handshake_ops. destruct (alike_run ops _ _ Ha) as (A1 & A2 & A3).
  pose proof (run_ops_paced ops c) as [P1 P2].
  pose proof (run_ops_paced ops (FrameIO_SetDeadline c (t_now c + HandshakeTimeout))) as [_ P3].
  destruct (run_ops c ops) as [[c2 g] k], (run_ops (FrameIO_SetDeadline _ _) ops) as [[c1 g'] k']. cbn [fst snd] in *.
  apply alike_now in A1. rewrite A1, A2, A3. do 3 (split; [done|]). split; [exact P1|exact P3].
Qed.

(** ** A slow peer *)
Lemma Recv_at c a p rest : t_closed c = false -> t_hung c = false -> t_in c = (a, framed p) :: rest ->
  len p <= MaxFrameSize -> a < t_now c + IOTimeout ->
  exists c', FrameIO_Recv c = (c', Ok p) /\ t_now c' = Z.max (t_now c) a /\ t_in c' = rest /\
    t_closed c' = false /\ t_hung c' = false /\ t_wr c' = t_wr c /\ t_delays c' = t_delays c.
Proof.
  intros Hc Hh Hin Hp Ha. pose proof (len_nonneg p) as Hn. pose proof (frame_size p Hp) as Hsz.
  assert (Hio : 0 < IOTimeout) by done.
  unfold FrameIO_Recv, FrameIO_RecvBefore, RecvBefore, ReadFull.
  set (c0 := conn_SetReadDeadline c _). set (D := t_now c + IOTimeout) in *.
  assert (Hb : before (Some D) (Z.max (t_now c) a) = true) by (apply before_spec; lia).
  assert (He : expired (Some D) (t_now c) = false) by (cbn; apply Z.leb_gt; lia).
  change (Z.to_nat 4) with 4%nat. cbn [read_loop]. rewrite decide_False by lia.
  change (read c0 4) with (conn_Read c0 4). unfold conn_Read at 1. subst c0.
  cbn [conn_SetReadDeadline t_closed t_hung t_rd t_now t_in]. rewrite Hc, Hh, He, Hin. cbn [orb]. rewrite Hb.
  assert (Lf : len (framed p) = 4 + len p) by (unfold framed; rewrite len_app, len_be_put; done).
  assert (Hdrop : drop (Z.to_nat 4) (framed p) = p) by (apply drop_app_length'; pose proof (len_be_put 4 (len p)); unfold len in *; lia).
  destruct (decide (len (framed p) <= 4)) as [Hz|Hz].
  - assert (p = []) as -> by (apply len_zero_nil; lia). rewrite decide_True by lia. cbn [app].
    eexists. split; [done|]. by split_and!.
  - assert (Htake : take (Z.to_nat 4) (framed p) = be_put 4 (len p)) by (apply take_app_length'; pose proof (len_be_put 4 (len p)); unfold len in *; lia).
    rewrite Htake, Hdrop, len_be_put. rewrite decide_True by done. cbn [app].
    rewrite be_get_put_small by (by cbn). rewrite decide_False by lia. rewrite decide_False by lia.
    destruct (Z.to_nat (len p)) as [|k] eqn:Ek; [lia|]. cbn [read_loop]. rewrite decide_False by lia.
    match goal with |- context [read ?x (len p)] => change (read x (len p)) with (conn_Read x (len p)) end.
    unfold conn_Read. cbn [set_in at_time conn_SetReadDeadline t_closed t_hung t_rd t_now t_in].
    rewrite Hc, Hh. replace (expired (Some D) (Z.max (t_now c) a)) with false by (rewrite expired_before, Hb; done).
    cbn [orb]. replace (Z.max (Z.max (t_now c) a) a) with (Z.max (t_now c) a) by lia. rewrite Hb.
    rewrite decide_True by lia. rewrite decide_True by lia. eexists. split; [done|]. by split_and!.
Qed.

Lemma Send_at c p : t_closed c = false -> t_hung c = false -> t_delays c = [] -> len p <= MaxFrameSize ->
  exists c', FrameIO_Send c p = (c', Ok tt) /\ t_now c' = t_now c /\ t_in c' = t_in c /\
    t_closed c' = false /\ t_hung c' = false /\ t_delays c' = [].
Proof.
  intros Hc Hh Hd Hp. unfold FrameIO_Send, Send. rewrite decide_False by lia.
  assert (Hw : forall c0, t_closed c0 = false -> t_hung c0 = false -> t_delays c0 = [] ->
    t_wr c0 = Some (t_now c0 + IOTimeout) -> conn_Write c0 = (c0, true)).
  { intros c0 C1 C2 C3 C4. unfold conn_Write. rewrite C1, C2, C3, C4. cbn [head default tail orb].
    assert (0 < IOTimeout) by done. replace (expired _ _) with false by (symmetry; cbn; apply Z.leb_gt; lia).
    cbn. rewrite Z.max_id, Z.add_0_r. replace (t_now c0 <? _) with true by (symmetry; apply Z.ltb_lt; lia).
    destruct c0. cbn in *. by subst. }
  case_decide; cbn [foldl]; rewrite ?Hw by done; eexists; (split; [done|]); by split_and!.
Qed.

(** A peer that takes just under 30 seconds for each of its two messages
    completes the handshake of the accepting side, which then took up to four
    times its deadline. *)
Theorem slow_handshake_accepted c a1 a2 p1 m2 p2 :
  t_closed c = false -> t_hung c = false -> t_delays c = [] -> t_in c = [(a1, framed p1); (a2, framed p2)] ->
  len p1 <= MaxFrameSize -> len p2 <= MaxFrameSize -> len m2 <= MaxFrameSize ->
  t_now c <= a1 < t_now c + IOTimeout -> a1 <= a2 < a1 + IOTimeout ->
  exists c', handshake_ops c [ORecv; OSend m2; ORecv] = (c', [p1; p2], true) /\ t_now c' = a2.
Proof.
  intros Hc Hh Hd Hin L1 L2 Lm Ha1 Ha2. unfold handshake_ops. cbn [run_ops].
  set (c0 := FrameIO_SetDeadline c _).
  destruct (Recv_at c0 a1 p1 [(a2, framed p2)]) as (c1 & -> & N1 & I1 & C1 & H1 & _ & D1); try done; [cbn; lia|].
  destruct (Send_at c1 m2) as (c2 & -> & N2 & I2 & C2 & H2 & D2); try done; [by rewrite D1|].
  cbn [t_now c0 FrameIO_SetDeadline conn_SetDeadline conn_SetWriteDeadline conn_SetReadDeadline] in N1.
  destruct (Recv_at c2 a2 p2 []) as (c3 & -> & N3 & _); try done; [by rewrite I2|lia|].
  exists c3. split; [done|]. lia.
Qed.

(** ** What notices a dead link *)

Definition next_read (rd : Z) (frames : list (Z * bool)) : Z :=
  Z.min (match frames with (a, _) :: _ => Z.max rd a | [] => rd + IOTimeout end) (rd + IOTimeout).

Lemma watch_tick f rd tick n frames : tick < next_read rd frames ->
  watch (S f) rd tick n frames =
  if decide (keepaliveMisses < n + 1) then Some (tick, KeepaliveMissed)
  else watch f rd (tick + keepaliveInterval) (n + 1) frames.
Proof. intros Ht. cbn [watch]. by rewrite (decide_True (P := tick < _)). Qed.

Lemma watch_read f rd tick n frames : ~ tick < next_read rd frames ->
  watch (S f) rd tick n frames =
  match frames with
  | (a, pong) :: rest =>
      if decide (Z.max rd a < rd + IOTimeout) then watch f (Z.max rd a) tick (if pong : bool then 0 else n) rest
      else Some (rd + IOTimeout, ReadTimeout)
  | [] => Some (rd + IOTimeout, ReadTimeout)
  end.
Proof. intros Ht. cbn [watch]. rewrite (decide_False (P := tick < _)) by done. by destruct frames as [|[a p] rest]. Qed.

(** Between two reads there are at most two ticks. *)
Lemma watch_gap f rd tick n frames : rd <= tick ->
  (forall f' t k, (f <= f')%nat -> rd <= t -> ~ t < next_read rd frames -> is_Some (watch (S f') rd t k frames)) ->
  is_Some (watch (S (S (S f))) rd tick n frames).
Proof.
  assert (Hio : IOTimeout = 30 * Second) by done. assert (Hka : keepaliveInterval = 20 * Second) by done.
  assert (Hs : 0 < Second) by done. intros Hr Hnext.
  assert (Hlast : next_read rd frames <= rd + IOTimeout) by (unfold next_read; lia).
  destruct (decide (tick < next_read rd frames)); [rewrite watch_tick by done|apply Hnext; [lia|lia|done]].
  destruct (decide (keepaliveMisses < n + 1)); [by eauto|].
  destruct (decide (tick + keepaliveInterval < next_read rd frames));
    [rewrite watch_tick by done|apply Hnext; [lia|lia|done]].
  destruct (decide (keepaliveMisses < n + 1 + 1)); [by eauto|apply Hnext; lia].
Qed.

(** Fuel for three events per frame is enough. *)
Lemma watch_ends frames : forall fuel rd tick n, rd <= tick -> (3 * S (length frames) <= fuel)%nat ->
  is_Some (watch fuel rd tick n frames).
Proof.
  induction frames as [|[a p] frames IH]; intros fuel rd tick n Hr Hf; cbn [length] in Hf;
    (destruct fuel as [|[|[|fuel]]]; [lia..|]);
    apply watch_gap; try done; intros f' t k Hf' Hrt Ht; rewrite watch_read by done; [by eauto|].
  case_decide; [|by eauto]. apply IH; [unfold next_read in Ht; lia|lia].
Qed.

(** Where a receive may have started: at the registration or with a frame. *)
Definition heard (t0 : Z) (all : list (Z * bool)) (rd : Z) : Prop := rd = t0 \/ rd ∈ all.*1.

(** The current receive started with a frame, or nothing was read since the
    registration and every tick so far is counted. *)
Definition tracked (t0 : Z) (all : list (Z * bool)) (rd tick n : Z) : Prop :=
  rd ∈ all.*1 \/ (rd = t0 /\ 0 <= n /\ tick = t0 + keepaliveInterval * (n + 1)).

Lemma watch_verdict fuel : forall t0 all rd tick n frames t e,
  tracked t0 all rd tick n -> rd <= tick -> Sorted Z.le (rd :: frames.*1) -> frames ⊆ all ->
  watch fuel rd tick n frames = Some (t, e) ->
  match e with
  | ReadTimeout => exists r, heard t0 all r /\ t = r + IOTimeout
  | KeepaliveMissed => exists r, r ∈ all.*1 /\ r <= t < r + IOTimeout
  end.
Proof.
  assert (Hka : keepaliveInterval = 20 * Second) by done. assert (Hio : IOTimeout = 30 * Second) by done.
  assert (Hs : 0 < Second) by done.
  induction fuel as [|fuel IH]; intros t0 all rd tick n frames t e Ht Hr Hsort Hsub; [done|].
  assert (Hheard : heard t0 all rd) by (destruct Ht as [Ht|(Ht & _)]; [by right|by left]).
  destruct (decide (tick < next_read rd frames)) as [Hlt|Hlt].
  - rewrite watch_tick by done. unfold next_read in Hlt. destruct (decide (keepaliveMisses < n + 1)) as [Hm|Hm].
    + intros [= <- <-]. destruct Ht as [Ht|(-> & Hn & ->)]; [exists rd; split; [done|lia]|].
      unfold keepaliveMisses in Hm. nia.
    + apply IH; [|lia|done|done]. destruct Ht as [Ht|(-> & Hn & ->)]; [by left|right]. split; [done|]. split; lia.
  - rewrite watch_read by done. destruct frames as [|[a p] frames]; [intros [= <- <-]; by exists rd|].
    apply Sorted_inv in Hsort as [Hsort Hle]. apply HdRel_inv in Hle. cbn [fst] in Hle.
    unfold next_read in Hlt. replace (Z.max rd a) with a in * by lia.
    case_decide; [|intros [= <- <-]; by exists rd]. apply IH; [|lia|done|].
    + left. apply list_elem_of_fmap. exists (a, p). split; [done|]. apply Hsub. by left.
    + intros x Hx. apply Hsub. by right.
Qed.


(** ** Samples *)
Module SampleTime.
Definition idle : list (Z * bool) := [(5 * Second, true); (20 * Second, true); (40 * Second, true)].
Definition p1 : bytes := str "first message".
Definition p2 : bytes := str "third message".
Definition slow : tconn :=
  TConn 0 None None false [(29 * Second, framed p1); (58 * Second, framed p2)] [] false.
End SampleTime.
Import SampleTime.


Example idle_dropped : watch_from 12 0 idle = Some (70 * Second, ReadTimeout).
Proof. reflexivity. Qed.

(** Only a peer that keeps sending and answers no ping is given up on. *)
Example mute_dropped :
  watch_from 40 0 [(25 * Second, false); (50 * Second, false); (75 * Second, false)] =
  Some (80 * Second, KeepaliveMissed).
Proof. reflexivity. Qed.

Lemma slow_handshake_accepted_witness : exists c',
  handshake_ops slow [ORecv; OSend (str "second message"); ORecv] = (c', [p1; p2], true) /\ t_now c' = 58 * Second.
Proof.
  apply (slow_handshake_accepted slow (29 * Second) (58 * Second) p1 (str "second message") p2);
    try reflexivity; try (vm_compute; discriminate); split; try reflexivity; vm_compute; discriminate.
Defined.
