(* ===== verification/WebSocket.v ===== *)
(** WebSocket framing: [WSConn] of [src/internal/rendezvous/ws.go].

    A connection is the Go struct together with the bytes still to arrive on the
    socket, the bytes written to it, and the randomness for mask keys.  [broken]
    makes every write fail. *)
From Stdlib Require Import ZArith Lia.
From Stdlib Require Import Strings.Byte.
From stdpp Require Import base list strings numbers option.
From S2P Require Import Prelude Crypto Messages Transport.
Open Scope go_scope.

Definition opContinuation : Z := 0.
Definition opText : Z := 1.
Definition opBinary : Z := 2.
Definition opClose : Z := 8.
Definition opPing : Z := 9.
Definition opPong : Z := 10.
Definition maxWSPayload : Z := Z.shiftl 1 20 + 1024.
Definition maxControlPayload : Z := 125.

Inductive ws_err :=
| WsEOF | WsShort | WsProtocol | WsWrite | WsCrypto (e : crypto_err) | WsMessage (e : message_err)
| WsFuel.

Record WSConn := mkWS {
  inp : bytes;
  outp : bytes;
  wrng : bytes;
  broken : bool;
  mask : bool;
  rem : Z;
  rmask : bytes;
  rmasked : bool;
  rmaskPos : Z
}.

Definition NewWSConn (input rng : bytes) (client : bool) : WSConn :=
  mkWS input [] rng false client 0 (replicate 4 x00) false 0.

Definition set_inp (c : WSConn) (i : bytes) : WSConn :=
  mkWS i (outp c) (wrng c) (broken c) (mask c) (rem c) (rmask c) (rmasked c) (rmaskPos c).
Definition set_out (c : WSConn) (o rng : bytes) : WSConn :=
  mkWS (inp c) o rng (broken c) (mask c) (rem c) (rmask c) (rmasked c) (rmaskPos c).
Definition set_frame (c : WSConn) (n : Z) (k : bytes) (m : bool) (pos : Z) : WSConn :=
  mkWS (inp c) (outp c) (wrng c) (broken c) (mask c) n k m pos.

(** ** Masking *)
Definition byte_xor (a b : byte) : byte := to_byte (Z.lxor (byte_val a) (byte_val b)).

(** [p[i] ^= key[pos & 3]] over the whole slice, from position [pos]. *)
Fixpoint xor_mask (key : bytes) (pos : Z) (p : bytes) : bytes :=
  match p with
  | [] => []
  | b :: rest => byte_xor b (nth (Z.to_nat (Z.land pos 3)) key x00) :: xor_mask key (pos + 1) rest
  end.

(** ** Writing *)
Definition frame_header (opcode n : Z) : bytes :=
  let b0 := to_byte (Z.lor 128 opcode) in
  if decide (n < 126) then [b0; to_byte n]
  else if decide (n <= 65535) then [b0; to_byte 126] ++ be_put 2 (wrap 16 n)
  else [b0; to_byte 127] ++ be_put 8 (wrap 64 n).

(** [hdr[1] |= 0x80] *)
Definition set_mask_bit (hdr : bytes) : bytes :=
  match hdr with b0 :: b1 :: rest => b0 :: to_byte (Z.lor (byte_val b1) 128) :: rest | _ => hdr end.

Definition writeFrame (c : WSConn) (opcode : Z) (payload : bytes) : WSConn * res ws_err unit :=
  let hdr := frame_header opcode (len payload) in
  if mask c then
    try[c] key := map_err WsCrypto (RandomBytes 4 (wrng c));
    let rng' := drop 4 (wrng c) in
    let o := set_mask_bit hdr ++ key ++ xor_mask key 0 payload in
    if broken c then (set_out c (outp c) rng', Err WsWrite)
    else (set_out c (outp c ++ o) rng', Ok tt)
  else if broken c then (c, Err WsWrite)
  else (set_out c (outp c ++ hdr ++ payload) (wrng c), Ok tt).

Definition Write (c : WSConn) (p : bytes) : WSConn * res ws_err Z :=
  if decide (maxWSPayload < len p) then (c, Err WsProtocol)
  else let '(c', r) := writeFrame c opBinary p in (c', r ≫= fun _ => Ok (len p)).

Definition writeControl (c : WSConn) (opcode : Z) (payload : bytes) : WSConn * res ws_err unit :=
  let payload := if decide (maxControlPayload < len payload)
                 then take (Z.to_nat maxControlPayload) payload else payload in
  writeFrame c opcode payload.

Definition Ping (c : WSConn) : WSConn * res ws_err unit := writeControl c opPing [].

(** [first] says whether [closeOnce] has not run yet; the socket below is closed
    in either case. *)
Definition WSConn_Close (c : WSConn) (first : bool) : WSConn :=
  if first then (writeControl c opClose [x03; xe8]).1 else c.

(** ** Reading *)

(** [io.ReadFull] on the buffered reader. *)
Definition readFull (c : WSConn) (n : Z) : WSConn * res ws_err bytes :=
  if decide (len (inp c) < n)
  then (set_inp c [], Err (if decide (inp c = []) then WsEOF else WsShort))
  else (set_inp c (drop (Z.to_nat n) (inp c)), Ok (take (Z.to_nat n) (inp c))).

Definition readPayload (c : WSConn) (n : Z) (key : bytes) (masked : bool) : WSConn * res ws_err bytes :=
  if decide (n = 0) then (c, Ok [])
  else
    let '(c1, r) := readFull c n in
    try[c1] buf := r;
    (c1, Ok (if masked then xor_mask key 0 buf else buf)).

Definition drain (c : WSConn) (n : Z) (key : bytes) (masked : bool) : WSConn * res ws_err unit :=
  let '(c1, r) := readPayload c n key masked in (c1, r ≫= fun _ => Ok tt).

(** The length field and its extensions. *)
Definition readLength (c : WSConn) (b1 : Z) : WSConn * res ws_err Z :=
  let n := Z.land b1 127 in
  if decide (n = 126) then
    let '(c1, r) := readFull c 2 in try[c1] ext := r; (c1, Ok (be_get ext))
  else if decide (n = 127) then
    let '(c1, r) := readFull c 8 in
    try[c1] ext := r;
    if decide (maxWSPayload < be_get ext) then (c1, Err WsProtocol) else (c1, Ok (be_get ext))
  else (c, Ok n).

Record header := mkHeader {
  h_fin : bool;
  h_opcode : Z;
  h_length : Z;
  h_masked : bool;
  h_key : bytes
}.

(** The header of a frame, with the checks on the reserved bits, the length and
    the masking role. *)
Definition readHeader (c : WSConn) : WSConn * res ws_err header :=
  let '(c1, r) := readFull c 2 in
  try[c1] hdr := r;
  try[c1] h0 := index hdr 0;
  try[c1] h1 := index hdr 1;
  let b0 := byte_val h0 in
  let b1 := byte_val h1 in
  let fin := negb (bool_decide (Z.land b0 128 = 0)) in
  if decide (Z.land b0 112 <> 0) then (c1, Err WsProtocol)
  else
    let masked := negb (bool_decide (Z.land b1 128 = 0)) in
    let '(c2, r) := readLength c1 b1 in
    try[c2] length := r;
    if decide (maxWSPayload < length) then (c2, Err WsProtocol)
    else if negb (mask c2) && negb masked then (c2, Err WsProtocol)
    else if mask c2 && masked then (c2, Err WsProtocol)
    else
      let '(c3, r) := if masked then readFull c2 4 else (c2, Ok (replicate 4 x00)) in
      try[c3] maskKey := r;
      (c3, Ok (mkHeader fin (Z.land b0 15) length masked maskKey)).

Fixpoint nextFrame (fuel : nat) (c : WSConn) : WSConn * res ws_err unit :=
  match fuel with
  | O => (c, Err WsFuel)
  | S fuel =>
    let '(c3, r) := readHeader c in
    try[c3] h := r;
    let opcode := h_opcode h in
    if decide (opcode = opBinary \/ opcode = opContinuation) then
      let c4 := set_frame c3 (h_length h) (h_key h) (h_masked h) 0 in
      if decide (h_length h = 0) then nextFrame fuel c4 else (c4, Ok tt)
    else if decide (opcode = opText) then (c3, Err WsProtocol)
    else if decide (opcode = opClose) then
      let '(c4, r) := drain c3 (h_length h) (h_key h) (h_masked h) in
      try[c4] _ := r;
      let '(c5, _) := writeControl c4 opClose [] in (c5, Err WsEOF)
    else if decide (opcode = opPing) then
      if decide (maxControlPayload < h_length h \/ h_fin h = false) then (c3, Err WsProtocol)
      else
        let '(c4, r) := readPayload c3 (h_length h) (h_key h) (h_masked h) in
        try[c4] payload := r;
        let '(c5, r) := writeControl c4 opPong payload in
        try[c5] _ := r;
        nextFrame fuel c5
    else if decide (opcode = opPong) then
      if decide (maxControlPayload < h_length h \/ h_fin h = false) then (c3, Err WsProtocol)
      else
        let '(c4, r) := drain c3 (h_length h) (h_key h) (h_masked h) in
        try[c4] _ := r;
        nextFrame fuel c4
    else (c3, Err WsProtocol)
  end.

(** Every frame takes at least two bytes, so the number of bytes to come bounds
    the frames to skip. *)
Definition enough (c : WSConn) : nat := S (length (inp c)).

(** [Read] with a buffer of [n] bytes: the bytes it stored and the error. *)
Definition readData (c : WSConn) (n : Z) : WSConn * (bytes * option ws_err) :=
  let n := if decide (rem c < n) then rem c else n in
  let got := take (Z.to_nat n) (inp c) in
  let data := if rmasked c then xor_mask (rmask c) (rmaskPos c) got else got in
  let c' := set_frame (set_inp c (drop (Z.to_nat n) (inp c))) (rem c - len got) (rmask c) (rmasked c)
              (if rmasked c then rmaskPos c + len got else rmaskPos c) in
  (c', (data, if decide (len got < n) then Some (if decide (got = []) then WsEOF else WsShort) else None)).

Definition Read (c : WSConn) (n : Z) : WSConn * (bytes * option ws_err) :=
  if decide (0 < rem c) then readData c n
  else
    let '(c1, r) := nextFrame (enough c) c in
    match r with
    | Ok _ => readData c1 n
    | Err e => (c1, ([], Some e))
    | Panic => (c1, ([], Some WsProtocol))
    end.

Section messages.
Context `{MessageJSON}.

Definition SendMessage (c : WSConn) (m : Message) : WSConn * res ws_err unit :=
  try[c] buf := map_err WsMessage (EncodeMessage m);
  writeFrame c opBinary buf.

Definition RecvMessage (c : WSConn) : WSConn * res ws_err Message :=
  let '(c1, (d, e)) := Read c MaxControlFrame in
  match e with
  | Some err => (c1, Err err)
  | None =>
      if decide (0 < rem c1) then (c1, Err (WsMessage ErrControlTooLarge))
      else (c1, map_err WsMessage (DecodeMessage d))
  end.
End messages.

(** ** Masking twice restores the bytes *)
Lemma lxor_byte a b : 0 <= a < 256 -> 0 <= b < 256 -> 0 <= Z.lxor a b < 256.
Proof.
  intros Ha Hb. split; [apply Z.lxor_nonneg; lia|]. change 256 with (2 ^ 8).
  destruct (decide (Z.lxor a b = 0)) as [->|Hn]; [done|].
  assert (0 <= Z.lxor a b) by (apply Z.lxor_nonneg; lia).
  apply Z.log2_lt_pow2; [lia|]. pose proof (Z.log2_lxor a b ltac:(lia) ltac:(lia)) as Hl.
  assert (Z.log2 a < 8) by (destruct (decide (a = 0)) as [->|]; [done|apply Z.log2_lt_pow2; [lia|cbn; lia]]).
  assert (Z.log2 b < 8) by (destruct (decide (b = 0)) as [->|]; [done|apply Z.log2_lt_pow2; [lia|cbn; lia]]).
  lia.
Qed.

Lemma byte_xor_twice a k : byte_xor (byte_xor a k) k = a.
Proof.
  apply byte_val_inj. unfold byte_xor. rewrite !byte_val_to_byte.
  pose proof (byte_val_range a). pose proof (byte_val_range k).
  rewrite (Z.mod_small (Z.lxor (byte_val a) (byte_val k))) by (by apply lxor_byte).
  rewrite Z.lxor_assoc, Z.lxor_nilpotent, Z.lxor_0_r. by apply Z.mod_small.
Qed.

Lemma xor_mask_twice key p : forall pos, xor_mask key pos (xor_mask key pos p) = p.
Proof.
  induction p as [|b p IH]; intros pos; [done|]. cbn [xor_mask]. by rewrite byte_xor_twice, IH.
Qed.

Lemma xor_mask_len key p : forall pos, len (xor_mask key pos p) = len p.
Proof. induction p as [|b p IH]; intros pos; [done|]. cbn [xor_mask]. rewrite !len_cons. by rewrite IH. Qed.

Lemma xor_mask_app key p q : forall pos, xor_mask key pos (p ++ q) = xor_mask key pos p ++ xor_mask key (pos + len p) q.
Proof.
  induction p as [|b p IH]; intros pos; cbn [xor_mask app]; [by rewrite len_nil, Z.add_0_r|].
  rewrite IH, len_cons. do 3 f_equal. lia.
Qed.

(** ** Frames on the wire *)
Definition frame_wire (masked : bool) (key : bytes) (opcode : Z) (p : bytes) : bytes :=
  let hdr := frame_header opcode (len p) in
  if masked then set_mask_bit hdr ++ key ++ xor_mask key 0 p else hdr ++ p.

Lemma writeFrame_wire c opcode p : broken c = false -> 4 <= len (wrng c) ->
  exists rng', writeFrame c opcode p =
    (set_out c (outp c ++ frame_wire (mask c) (take 4 (wrng c)) opcode p) rng', Ok tt) /\
    (len rng' = len (wrng c) \/ len rng' = len (wrng c) - 4).
Proof.
  intros Hb Hr. unfold writeFrame, frame_wire. rewrite Hb. destruct (mask c).
  - destruct (RandomBytes_ok 4 (wrng c)) as [-> _]; [lia|]. cbn [map_err try_in].
    change (Z.to_nat 4) with 4%nat. eexists. split; [done|]. right. apply (len_drop 4). lia.
  - eauto.
Qed.

Definition len_spec (n : nat) : bool :=
  let n := Z.of_nat n in
  let m := byte_val (to_byte (Z.lor (byte_val (to_byte n)) 128)) in
  bool_decide (Z.land (byte_val (to_byte n)) 127 = n) && bool_decide (Z.land (byte_val (to_byte n)) 128 = 0) &&
  bool_decide (Z.land m 127 = n) && negb (bool_decide (Z.land m 128 = 0)).

Lemma lens_checked : forallb len_spec (seq 0 128) = true.
Proof. vm_compute. reflexivity. Qed.

Lemma len_ok n : 0 <= n < 128 ->
  let m := byte_val (to_byte (Z.lor (byte_val (to_byte n)) 128)) in
  Z.land (byte_val (to_byte n)) 127 = n /\ Z.land (byte_val (to_byte n)) 128 = 0 /\
  Z.land m 127 = n /\ bool_decide (Z.land m 128 = 0) = false.
Proof.
  intros Hn. pose proof (proj1 (forallb_forall _ _) lens_checked (Z.to_nat n)) as Hd.
  specialize (Hd ltac:(apply in_seq; lia)). unfold len_spec in Hd. rewrite Z2Nat.id in Hd by lia.
  rewrite !andb_true_iff, negb_true_iff in Hd. destruct Hd as [[[H1 H2] H3] H4].
  apply bool_decide_eq_true in H1, H2, H3. done.
Qed.

Definition known_op (op : Z) : Prop := op = opBinary \/ op = opPing \/ op = opPong \/ op = opClose.

Lemma op_ok op : known_op op ->
  let b := byte_val (to_byte (Z.lor 128 op)) in
  Z.land b 112 = 0 /\ Z.land b 15 = op /\ bool_decide (Z.land b 128 = 0) = false.
Proof. intros [->|[->|[->| ->]]]; done. Qed.

Lemma readFull_app c p rest n : inp c = p ++ rest -> len p = n -> readFull c n = (set_inp c rest, Ok p).
Proof.
  intros Hi <-. unfold readFull. rewrite Hi, len_app. pose proof (len_nonneg rest). rewrite decide_False by lia.
  unfold len. rewrite Nat2Z.id. by rewrite take_app_length, drop_app_length.
Qed.

(** The first two header bytes and the extended length. *)
Definition head0 (op : Z) : byte := to_byte (Z.lor 128 op).
Definition head1 (n : Z) (masked : bool) : byte :=
  let b := to_byte (if decide (n < 126) then n else if decide (n <= 65535) then 126 else 127) in
  if masked then to_byte (Z.lor (byte_val b) 128) else b.
Definition ext_len (n : Z) : bytes :=
  if decide (n < 126) then [] else if decide (n <= 65535) then be_put 2 (wrap 16 n) else be_put 8 (wrap 64 n).

Lemma frame_wire_split m key op p :
  frame_wire m key op p =
  [head0 op; head1 (len p) m] ++ ext_len (len p) ++ (if m then key ++ xor_mask key 0 p else p).
Proof.
  unfold frame_wire, frame_header, set_mask_bit, head0, head1, ext_len.
  destruct m; repeat case_decide; cbn [app]; rewrite ?app_assoc; done.
Qed.

Lemma readLength_ok c n m rest : 0 <= n <= maxWSPayload -> inp c = ext_len n ++ rest ->
  readLength c (byte_val (head1 n m)) = (set_inp c rest, Ok n).
Proof.
  intros Hn Hi. change maxWSPayload with 1049600 in *. unfold readLength, head1, ext_len in *.
  assert (Hl : forall k, 0 <= k < 128 ->
    Z.land (byte_val (if m then to_byte (Z.lor (byte_val (to_byte k)) 128) else to_byte k)) 127 = k).
  { intros k Hk. destruct (len_ok k Hk) as (H1 & _ & H3 & _). by destruct m. }
  destruct (decide (n < 126)); [|destruct (decide (n <= 65535))].
  - rewrite Hl by lia. rewrite !decide_False by lia. cbn in Hi. destruct c; cbn in *. by subst.
  - rewrite Hl by lia. rewrite decide_True by done.
    rewrite (readFull_app c _ _ 2 Hi) by (by rewrite len_be_put). cbn [try_in].
    rewrite wrap_small by (split; cbn; lia). by rewrite be_get_put_small by (cbn; lia).
  - rewrite Hl by lia. rewrite decide_False by done. rewrite decide_True by done.
    rewrite (readFull_app c _ _ 8 Hi) by (by rewrite len_be_put). cbn [try_in].
    rewrite wrap_small by (split; cbn; lia). rewrite be_get_put_small by (cbn; lia).
    by rewrite decide_False by (change maxWSPayload with 1049600; lia).
Qed.

Lemma head1_masked n m : bool_decide (Z.land (byte_val (head1 n m)) 128 = 0) = negb m \/ n < 0.
Proof.
  destruct (decide (n < 0)); [by right|left]. unfold head1.
  set (k := if decide _ then _ else _). assert (Hk : 0 <= k < 128) by (subst k; repeat case_decide; lia).
  destruct (len_ok k Hk) as (_ & H2 & _ & H4). destruct m; [done|]. by rewrite H2.
Qed.

Lemma readHeader_wire c m key op p rest : inp c = frame_wire m key op p ++ rest -> m = negb (mask c) ->
  len key = 4 -> known_op op -> len p <= maxWSPayload ->
  readHeader c = (set_inp c ((if m then xor_mask key 0 p else p) ++ rest),
    Ok (mkHeader true op (len p) m (if m then key else replicate 4 x00))).
Proof.
  intros Hi Hm Hk Hop Hp. pose proof (len_nonneg p). rewrite frame_wire_split, <- !app_assoc in Hi.
  unfold readHeader. rewrite (readFull_app c _ _ 2 Hi) by done. cbn [try_in].
  change (index [head0 op; head1 (len p) m] 0) with (@Ok ws_err _ (head0 op)).
  change (index [head0 op; head1 (len p) m] 1) with (@Ok ws_err _ (head1 (len p) m)). cbn [try_in].
  destruct (op_ok op Hop) as (Ho1 & Ho2 & Ho3). unfold head0. rewrite Ho1, Ho2, Ho3.
  rewrite decide_False by (intros Hc; by apply Hc).
  destruct (head1_masked (len p) m) as [->|?]; [|lia]. rewrite negb_involutive.
  set (c1 := set_inp c _). rewrite (readLength_ok c1 (len p) m (if m then key ++ xor_mask key 0 p ++ rest else p ++ rest))
    by (try lia; subst c1; cbn; by destruct m; rewrite <- ?app_assoc). cbn [try_in].
  rewrite decide_False by lia. change (mask (set_inp c1 _)) with (mask c). subst m.
  destruct (mask c) eqn:Em; cbn [negb andb].
  - cbn [try_in]. done.
  - set (c2 := set_inp c1 _). rewrite (readFull_app c2 key (xor_mask key 0 p ++ rest) 4) by done. done.
Qed.

(** ** The byte stream a connection carries *)
Inductive wframe := WData (p : bytes) | WPing (p : bytes) | WPong (p : bytes).

Definition op_of (f : wframe) : Z :=
  match f with WData _ => opBinary | WPing _ => opPing | WPong _ => opPong end.
Definition payload_of (f : wframe) : bytes := match f with WData p | WPing p | WPong p => p end.
Definition data_of (f : wframe) : bytes := match f with WData p => p | _ => [] end.

(** A frame with its mask key, as the other end writes it. *)
Definition wire (m : bool) (f : wframe * bytes) : bytes := frame_wire m f.2 (op_of f.1) (payload_of f.1).

Definition data (f : wframe * bytes) : bytes := data_of f.1.

Definition frame_ok (f : wframe * bytes) : Prop :=
  len f.2 = 4 /\ len (payload_of (fst f)) <= match fst f with WData _ => maxWSPayload | _ => maxControlPayload end.

(** The connection is inside a frame with the bytes [cur] left, [frames] follow
    on the wire, and together they carry the data [d]. *)
Definition carries (c : WSConn) (d : bytes) : Prop :=
  exists (cur : bytes) (frames : list (wframe * bytes)),
    rem c = len cur /\
    inp c = (if rmasked c then xor_mask (rmask c) (rmaskPos c) cur else cur)
              ++ concat (wire (negb (mask c)) <$> frames) /\
    Forall frame_ok frames /\ d = cur ++ concat (data <$> frames) /\
    broken c = false /\ 4 * Z.of_nat (length frames) <= len (wrng c).

Lemma frame_ok_size (f : wframe * bytes) : frame_ok f -> len (payload_of (fst f)) <= maxWSPayload.
Proof.
  intros [_ Hl]. change maxWSPayload with 1049600. change maxWSPayload with 1049600 in Hl.
  unfold maxControlPayload in Hl. destruct (fst f); lia.
Qed.

Lemma known_op_of f : known_op (op_of f).
Proof. unfold known_op. destruct f; auto. Qed.

Lemma readPayload_ok c (m : bool) key p rest : inp c = (if m then xor_mask key 0 p else p) ++ rest ->
  readPayload c (len p) key m = (set_inp c rest, Ok p).
Proof.
  intros Hi. unfold readPayload. case_decide as Hz.
  - apply len_zero_nil in Hz as ->. destruct m; cbn in Hi; destruct c; cbn in *; by subst.
  - rewrite (readFull_app c _ rest (len p) Hi) by (destruct m; rewrite ?xor_mask_len; done).
    cbn [try_in]. destruct m; [by rewrite xor_mask_twice|done].
Qed.

Lemma writePong_ok c p : broken c = false -> (mask c = true -> 4 <= len (wrng c)) -> len p <= maxControlPayload ->
  exists o rng', writeControl c opPong p = (set_out c o rng', Ok tt) /\ len (wrng c) - 4 <= len rng'.
Proof.
  intros Hb Hr Hp. unfold writeControl. rewrite decide_False by lia.
  destruct (mask c) eqn:Hm.
  - destruct (writeFrame_wire c opPong p Hb (Hr eq_refl)) as (rng' & -> & Hrng). eexists _, rng'. split; [done|]. lia.
  - unfold writeFrame. rewrite Hm, Hb. do 2 eexists. split; [done|]. lia.
Qed.

(** Frames without data leave the reader at what follows them. *)
Lemma nextFrame_skip (ctl : list (wframe * bytes)) : forall fuel c tail,
  inp c = concat (wire (negb (mask c)) <$> ctl) ++ tail -> Forall frame_ok ctl -> concat (data <$> ctl) = [] ->
  broken c = false -> (mask c = true -> 4 * Z.of_nat (length ctl) <= len (wrng c)) ->
  exists c', nextFrame (length ctl + fuel) c = nextFrame fuel c' /\ inp c' = tail /\ mask c' = mask c /\ broken c' = false /\
    (rem c = 0 -> rem c' = 0) /\ len (wrng c) - 4 * Z.of_nat (length ctl) <= len (wrng c').
Proof.
  induction ctl as [|[f key] ctl IH]; intros fuel c tail Hi Hok Hd Hb Hr.
  { exists c. split_and!; try done. cbn. lia. }
  apply Forall_cons_iff in Hok as [Hfk Hok]. pose proof (frame_ok_size _ Hfk) as Hsz.
  destruct Hfk as [Hk Hl]. cbn [length] in Hr. cbn [fmap list_fmap concat] in *. rewrite <- app_assoc in Hi.
  apply app_eq_nil in Hd as [Hd0 Hd].
  pose proof (readHeader_wire c _ key (op_of f) (payload_of f) _ Hi eq_refl Hk (known_op_of f) Hsz) as Hh.
  cbn [length Nat.add nextFrame]. rewrite Hh. cbn [try_in h_opcode h_length h_masked h_key h_fin].
  set (m := negb (mask c)) in *. set (rest := concat (wire m <$> ctl) ++ tail) in *. set (c3 := set_inp c _).
  assert (Hgo : forall c', inp c' = rest -> mask c' = mask c -> broken c' = false -> len (wrng c) - 4 <= len (wrng c') ->
    (rem c = 0 -> rem c' = 0) ->
    exists c2, nextFrame (length ctl + fuel) c' = nextFrame fuel c2 /\ inp c2 = tail /\ mask c2 = mask c /\
      broken c2 = false /\ (rem c = 0 -> rem c2 = 0) /\ len (wrng c) - 4 * Z.of_nat (S (length ctl)) <= len (wrng c2)).
  { intros c' E1 E2 E3 E4 E5. destruct (IH fuel c' tail) as (c2 & F1 & F2 & F3 & F4 & F5 & F6); try done.
    - by rewrite E1, E2.
    - rewrite E2. intros Hm. specialize (Hr Hm). lia.
    - exists c2. split_and!; try done; [congruence|auto|lia]. }
  destruct f as [p|p|p]; cbn [op_of payload_of data data_of fst snd app] in *.
  - subst p. rewrite decide_True by (by left). rewrite decide_True by done. apply Hgo; try done; [|cbn; lia].
    change ((if m then xor_mask key 0 [] else []) ++ rest = rest). by case m.
  - do 3 (rewrite decide_False by (intros Hc; naive_solver)). rewrite decide_True by done.
    rewrite decide_False by (intros [?|?]; [lia|done]).
    rewrite (readPayload_ok c3 m (if m then key else replicate 4 x00) p rest)
      by (change (inp c3) with ((if m then xor_mask key 0 p else p) ++ rest); by case m).
    cbn [try_in]. destruct (writePong_ok (set_inp c3 rest) p) as (o & rng' & -> & Hrng); [done|intros Hm; specialize (Hr Hm); cbn; lia|done|].
    cbn [try_in]. apply Hgo; done.
  - do 4 (rewrite decide_False by (intros Hc; naive_solver)). rewrite decide_True by done.
    rewrite decide_False by (intros [?|?]; [lia|done]). unfold drain.
    rewrite (readPayload_ok c3 m (if m then key else replicate 4 x00) p rest)
      by (change (inp c3) with ((if m then xor_mask key 0 p else p) ++ rest); by case m).
    step_bind. cbn [try_in]. apply Hgo; try done. cbn. lia.
Qed.

(** A frame with data is where the reader stops. *)
Lemma nextFrame_data fuel c p key tail : inp c = wire (negb (mask c)) (WData p, key) ++ tail -> frame_ok (WData p, key) ->
  p <> [] ->
  let m := negb (mask c) in
  nextFrame (S fuel) c =
    (set_frame (set_inp c ((if m then xor_mask key 0 p else p) ++ tail)) (len p) (if m then key else replicate 4 x00) m 0, Ok tt).
Proof.
  intros Hi Hok Hp m. pose proof (frame_ok_size _ Hok) as Hsz. destruct Hok as [Hk _].
  pose proof (readHeader_wire c _ key opBinary p _ Hi eq_refl Hk (or_introl eq_refl) Hsz) as Hh.
  cbn [nextFrame]. rewrite Hh. cbn [try_in h_opcode h_length h_masked h_key h_fin].
  rewrite decide_True by (by left). by rewrite decide_False by (by intros ?%len_zero_nil).
Qed.

Lemma first_data (frames : list (wframe * bytes)) : concat (data <$> frames) <> [] ->
  exists ctl p key rest, frames = ctl ++ (WData p, key) :: rest /\ concat (data <$> ctl) = [] /\ p <> [].
Proof.
  induction frames as [|[f key] frames IH]; [done|]. cbn [fmap list_fmap concat]. intros Hd.
  destruct (decide (data (f, key) = [])) as [E|E].
  - rewrite E in Hd. destruct (IH Hd) as (ctl & p & k & rest & -> & Hc & Hp).
    exists ((f, key) :: ctl), p, k, rest. cbn [fmap list_fmap concat]. by rewrite E.
  - destruct f as [p|p|p]; try done. by exists [], p, key, frames.
Qed.

(** Skipping to the next data frame: control frames are answered or discarded. *)
Lemma nextFrame_ok (frames : list (wframe * bytes)) fuel c : (length frames < fuel)%nat ->
  inp c = concat (wire (negb (mask c)) <$> frames) -> Forall frame_ok frames ->
  concat (data <$> frames) <> [] -> broken c = false ->
  4 * Z.of_nat (length frames) <= len (wrng c) ->
  exists c', nextFrame fuel c = (c', Ok tt) /\ 0 < rem c' /\
    carries c' (concat (data <$> frames)).
Proof.
  intros Hf Hi Hok (ctl & p & key & rest & -> & Hd & Hp)%first_data Hb Hr.
  apply Forall_app in Hok as [Hc [Hfk Hrest]%Forall_cons_iff]. rewrite length_app in Hf, Hr. cbn [length] in Hf, Hr.
  rewrite fmap_app, concat_app in Hi. replace fuel with (length ctl + S (fuel - length ctl - 1))%nat by lia.
  destruct (nextFrame_skip ctl (S (fuel - length ctl - 1)) c _ Hi Hc Hd Hb) as (c1 & -> & E1 & E2 & E3 & _ & E5); [lia|].
  cbn [fmap list_fmap concat] in E1. rewrite <- E2 in E1. rewrite (nextFrame_data _ c1 p key _ E1 Hfk Hp).
  eexists. split; [done|]. pose proof (len_nonneg p). split; [cbn; destruct p; [done|rewrite len_cons; pose proof (len_nonneg p); lia]|].
  exists p, rest. split; [done|]. split.
  { cbn. by destruct (mask c1). }
  split; [done|]. split; [by rewrite fmap_app, concat_app, Hd|]. split; [done|]. cbn. lia.
Qed.

Lemma xor_mask_take key p n : forall pos, take n (xor_mask key pos p) = xor_mask key pos (take n p).
Proof. revert n. induction p as [|b p IH]; intros [|n] pos; cbn [xor_mask take]; [done..|]. by rewrite IH. Qed.

Lemma xor_mask_drop key p n : forall pos,
  drop n (xor_mask key pos p) = xor_mask key (pos + len (take n p)) (drop n p).
Proof.
  intros pos. rewrite <- (take_drop n p) at 1. rewrite xor_mask_app.
  set (x := xor_mask key pos (take n p)). assert (Hx : length x = length (take n p)).
  { pose proof (xor_mask_len key (take n p) pos) as Hl. unfold len in Hl. subst x. lia. }
  rewrite drop_app. rewrite (drop_ge x) by (rewrite Hx, length_take; lia). cbn [app].
  destruct (decide (n <= length p)%nat) as [Hn|Hn].
  - rewrite Hx, length_take. by replace (n - n `min` length p)%nat with 0%nat by lia.
  - rewrite (drop_ge p) by lia. cbn [xor_mask]. by rewrite drop_nil.
Qed.

Lemma readData_ok c cur frames n : rem c = len cur -> 0 < rem c -> 0 < n ->
  inp c = (if rmasked c then xor_mask (rmask c) (rmaskPos c) cur else cur)
            ++ concat (wire (negb (mask c)) <$> frames) ->
  Forall frame_ok frames -> broken c = false -> 4 * Z.of_nat (length frames) <= len (wrng c) ->
  let k := Z.to_nat (if decide (rem c < n) then rem c else n) in
  exists c', readData c n = (c', (take k cur, None)) /\ 0 < len (take k cur) <= n /\
    carries c' (drop k cur ++ concat (data <$> frames)).
Proof.
  intros Hrem Hpos Hn Hi Hok Hb Hr k. set (rest := concat (wire _ <$> frames)) in Hi.
  set (m := rmasked c) in *. set (body := if m then _ else _) in Hi.
  assert (Hbl : len body = len cur) by (subst body; destruct m; [apply xor_mask_len|done]).
  assert (Hk : (0 < k <= length cur)%nat) by (unfold len in *; subst k; case_decide; lia).
  assert (Hlk : len (take k cur) = Z.of_nat k) by (unfold len; rewrite length_take; lia).
  assert (Hgot : take k (inp c) = take k body).
  { rewrite Hi, take_app_le; [done|]. unfold len in *. lia. }
  assert (Hglen : len (take k body) = Z.of_nat k) by (unfold len in *; rewrite length_take; lia).
  unfold readData. fold k. rewrite Hgot, Hglen.
  rewrite (decide_False (P := Z.of_nat k < _)) by (subst k; case_decide; lia).
  eexists. split.
  { f_equal. f_equal. subst body. fold m. destruct m; [|done]. by rewrite xor_mask_take, xor_mask_twice. }
  split; [rewrite Hlk; subst k; case_decide; lia|].
  exists (drop k cur), frames. cbn [rem set_frame inp set_inp rmasked rmask rmaskPos mask broken wrng]. fold m.
  split; [rewrite Hrem; unfold len; rewrite length_drop; lia|]. split.
  - rewrite Hi, drop_app_le by (unfold len in *; lia). f_equal. subst body. destruct m; [|done].
    rewrite xor_mask_drop. by rewrite Hlk.
  - split; [done|]. split; [done|]. split; [done|]. done.
Qed.

Lemma frames_length m (frames : list (wframe * bytes)) :
  (length frames <= length (concat (wire m <$> frames)))%nat.
Proof.
  induction frames as [|f fs IH]; [done|]. cbn [fmap list_fmap concat length]. rewrite length_app.
  unfold wire at 1. rewrite frame_wire_split, length_app. cbn [length]. lia.
Qed.

Lemma Read_ok c d n : carries c d -> d <> [] -> 0 < n ->
  exists b d' c', Read c n = (c', (b, None)) /\ d = b ++ d' /\ 0 < len b <= n /\ carries c' d'.
Proof.
  assert (Hmain : forall c d, carries c d -> 0 < rem c -> 0 < n ->
    exists b d' c', readData c n = (c', (b, None)) /\ d = b ++ d' /\ 0 < len b <= n /\ carries c' d').
  { clear. intros c d (cur & frames & Hrem & Hi & Hok & -> & Hb & Hr) Hpos Hn.
    destruct (readData_ok c cur frames n) as (c' & E & Hl & Hc); try done.
    eexists _, _, c'. split; [exact E|]. split; [by rewrite app_assoc, take_drop|]. done. }
  intros Hc Hd Hn. unfold Read. destruct (decide (0 < rem c)) as [Hp|Hp]; [by apply Hmain|].
  destruct Hc as (cur & frames & Hrem & Hi & Hok & -> & Hb & Hr).
  assert (cur = []) as -> by (apply len_zero_nil; len_lia).
  cbn [app] in *. destruct (nextFrame_ok frames (enough c) c) as (c1 & -> & Hpos & Hc1); try done.
  - unfold enough. rewrite Hi, length_app. pose proof (frames_length (negb (mask c)) frames). lia.
  - rewrite Hi. by destruct (rmasked c).
  - by apply Hmain.
Qed.

(** Whatever frames the other end writes (binary frames in any sizes, pings
    and pongs between them, masked or not as its role requires), reading returns
    exactly the bytes of the binary frames in order: each read returns a
    non-empty piece that fits the buffer, and the control frames leave no trace
    in the data. *)
Theorem websocket_stream c d n : carries c d -> d <> [] -> 0 < n ->
  exists b d' c', Read c n = (c', (b, None)) /\ d = b ++ d' /\ 0 < len b <= n /\ carries c' d'.
Proof. apply Read_ok. Qed.

(** A WebSocket connection is a byte stream for the framing layer. *)
#[export] Instance ws_stream : ByteStream WSConn.
Proof.
  refine {| read := fun c n => let '(c', (b, e)) := Read c n in (c', (b, bool_decide (is_Some e)));
            holds := carries |}.
  intros c d n Hc Hd Hn. destruct (Read_ok c d n Hc Hd Hn) as (b & d' & c' & E & H1 & H2 & H3).
  exists b, d', c'. rewrite E. done.
Defined.

(** ** Framing over a WebSocket *)
Fixpoint write_all (c : WSConn) (ws : list bytes) : WSConn * res ws_err unit :=
  match ws with
  | [] => (c, Ok tt)
  | w :: rest => let '(c1, r) := Write c w in try[c1] _ := r; write_all c1 rest
  end.

(** Send each payload through [FrameIO] on the connection. *)
Fixpoint send_all (c : WSConn) (payloads : list bytes) : WSConn * res ws_err unit :=
  match payloads with
  | [] => (c, Ok tt)
  | p :: rest =>
      try[c] ws := map_err (fun _ => WsProtocol) (Send p);
      let '(c1, r) := write_all c ws in
      try[c1] _ := r; send_all c1 rest
  end.

(** What a writer has put on the wire: binary frames carrying [d]. *)
Definition wrote (c : WSConn) (m : bool) (d : bytes) (budget used : nat) : Prop :=
  mask c = m /\ broken c = false /\ 4 * Z.of_nat budget <= len (wrng c) /\
  exists frames, outp c = concat (wire m <$> frames) /\ Forall frame_ok frames /\
    concat (data <$> frames) = d /\ length frames = used.

Lemma Write_wrote c m d w budget used : wrote c m d (S budget) used -> len w <= maxWSPayload ->
  exists c', Write c w = (c', Ok (len w)) /\ wrote c' m (d ++ w) budget (S used).
Proof.
  intros (Hm & Hb & Hr & frames & Ho & Hok & Hd & Hu) Hw. unfold Write. rewrite decide_False by lia.
  destruct (writeFrame_wire c opBinary w Hb) as (rng' & -> & Hrng); [lia|]. step_bind.
  eexists. split; [done|]. split; [done|]. split; [done|]. split; [cbn; lia|].
  exists (frames ++ [(WData w, take 4 (wrng c))]). cbn [outp set_out].
  rewrite !fmap_app, !concat_app, length_app, Ho, Hd, Hm, Hu. cbn [fmap list_fmap concat]. rewrite !app_nil_r.
  split; [done|]. split; [|split; [done|cbn; lia]].
  apply Forall_app. split; [done|]. constructor; [|constructor]. split; [apply (len_take_le 4); lia|done].
Qed.

Lemma send_wrote payloads : forall c m d used,
  wrote c m d (2 * length payloads) used -> Forall (fun p => len p <= MaxFrameSize) payloads ->
  exists c' used', send_all c payloads = (c', Ok tt) /\ (used' <= used + 2 * length payloads)%nat /\
    wrote c' m (d ++ concat (framed <$> payloads)) 0 used'.
Proof.
  induction payloads as [|p ps IH]; intros c m d used Hw Hf.
  { exists c, used. cbn. rewrite app_nil_r. split; [done|]. split; [lia|done]. }
  apply Forall_cons_iff in Hf as [Hp Hf]. cbn [send_all length] in *.
  destruct (Send_framed p Hp) as (ws & Hs & Hc). unfold Send in Hs |- *.
  assert (Hmax : maxWSPayload = 1049600) by done. change MaxFrameSize with 1048576 in *.
  rewrite decide_False in Hs |- * by lia.
  set (hdr := be_put 4 _) in *. assert (Hh : len hdr = 4) by apply len_be_put.
  replace (2 * S (length ps))%nat with (S (S (2 * length ps))) in Hw by lia.
  destruct (Write_wrote c m d hdr _ _ Hw) as (c1 & E1 & W1); [lia|].
  cbn [fmap list_fmap concat]. case_decide as Hz; injection Hs as <-; cbn [map_err try_in write_all] in *;
    rewrite E1; cbn [try_in]; rewrite <- Hc; cbn [concat].
  - rewrite app_nil_r, app_assoc.
    destruct (IH c1 m (d ++ hdr) (S used)) as (c' & u' & -> & Hu & W); [|done|].
    { destruct W1 as (? & ? & ? & ?). split; [done|]. split; [done|]. split; [lia|done]. }
    exists c', u'. split; [done|]. split; [lia|done].
  - destruct (Write_wrote c1 m _ p _ _ W1) as (c2 & E2 & W2); [lia|]. rewrite E2. cbn [try_in].
    rewrite app_nil_r, !app_assoc. destruct (IH c2 m ((d ++ hdr) ++ p) (S (S used))) as (c' & u' & -> & Hu & W); [done|done|].
    exists c', u'. split; [done|]. split; [lia|done].
Qed.

(** [Close] ends the stream of the other end between two messages with EOF and no
    other error, and only the first call writes anything. *)
Theorem close_ends_stream c d rest n : broken c = false -> 4 <= len (wrng c) ->
  mask d = negb (mask c) -> rem d = 0 -> outp (WSConn_Close c true) = outp c ++ inp d ->
  outp (WSConn_Close (WSConn_Close c true) false) = outp (WSConn_Close c true) /\
  exists d', Read (set_inp d (inp d ++ rest)) n = (d', ([], Some WsEOF)).
Proof.
  intros Hb Hr Hm Hrem Ho. split; [done|]. unfold WSConn_Close, writeControl in Ho.
  rewrite decide_False in Ho by (vm_compute; discriminate).
  destruct (writeFrame_wire c opClose [x03; xe8] Hb Hr) as (rng' & E & _). rewrite E in Ho. cbn in Ho.
  apply app_inv_head in Ho. unfold Read. cbn [set_inp rem]. rewrite Hrem. cbn [decide]. rewrite decide_False by lia.
  set (d0 := set_inp d _). unfold enough. cbn [nextFrame].
  rewrite (readHeader_wire d0 (mask c) (take 4 (wrng c)) opClose [x03; xe8] rest); cbn [d0 set_inp inp mask];
    [|by rewrite <- Ho|by rewrite Hm, negb_involutive|by apply (len_take_le 4)|unfold known_op; auto|vm_compute; discriminate].
  cbn [try_in h_opcode h_length h_masked h_key h_fin]. set (d1 := set_inp d0 _).
  rewrite (decide_False (P := opClose = opBinary \/ opClose = opContinuation)) by (intros [|]; discriminate).
  rewrite (decide_False (P := opClose = opText)) by discriminate. rewrite (decide_True (P := opClose = opClose)) by done.
  unfold drain. rewrite (readPayload_ok d1 (mask c) _ [x03; xe8] rest) by (cbn; by destruct (mask c)).
  step_bind. cbn [try_in]. destruct (writeControl _ _ _) as [d2 ?]. by eexists.
Qed.

(** Messages framed by [FrameIO] and sent over a WebSocket, in either role,
    arrive at the other end as they were sent: the two framings compose. *)
Theorem frames_over_websocket client payloads rng rng' :
  Forall (fun p => len p <= MaxFrameSize) payloads ->
  8 * Z.of_nat (length payloads) <= len rng -> 8 * Z.of_nat (length payloads) <= len rng' ->
  exists c', send_all (NewWSConn [] rng client) payloads = (c', Ok tt) /\
    snd (recv_all (length payloads) (NewWSConn (outp c') rng' (negb client))) = Ok <$> payloads.
Proof.
  intros Hf Hr Hr'. destruct (send_wrote payloads (NewWSConn [] rng client) client [] 0) as (c' & u & E & Hu & W).
  { split; [done|]. split; [done|]. split; [cbn; lia|]. exists []. done. }
  { done. }
  exists c'. split; [done|]. destruct W as (_ & _ & _ & frames & Ho & Hok & Hd & Hl). cbn [app] in Hd.
  destruct (frames_received payloads (NewWSConn (outp c') rng' (negb client)) []) as (s' & -> & _); [done| |done].
  exists [], frames. cbn. rewrite app_nil_r, negb_involutive. split_and!; try done. lia.
Qed.

Lemma frames_over_websocket_witness : exists c',
  send_all (NewWSConn [] (replicate 16 x5a) true) [str "hi"; []] = (c', Ok tt) /\
  snd (recv_all 2 (NewWSConn (outp c') (replicate 16 x00) false)) = [Ok (str "hi"); Ok []].
Proof.
  apply (frames_over_websocket true [str "hi"; []] (replicate 16 x5a) (replicate 16 x00)).
  - repeat constructor; vm_compute; discriminate.
  - vm_compute. discriminate.
  - vm_compute. discriminate.
Defined.

(** A server connection with a masked data frame, a ping and another data frame
    to come. *)
Definition sample_frames : list (wframe * bytes) :=
  [(WData (str "abc"), str "key1"); (WPing (str "?"), str "key2"); (WData (str "de"), str "key3")].
Definition sample_conn : WSConn := NewWSConn (concat (wire true <$> sample_frames)) (replicate 12 x00) false.

Lemma websocket_stream_witness : exists b d' c',
  Read sample_conn 2 = (c', (b, None)) /\ str "abcde" = b ++ d' /\ 0 < len b <= 2 /\ carries c' d'.
Proof.
  apply (websocket_stream sample_conn (str "abcde") 2); [|discriminate|lia].
  exists [], sample_frames. split; [reflexivity|]. split; [reflexivity|].
  split; [repeat constructor; vm_compute; (reflexivity || discriminate)|].
  split; [reflexivity|]. split; [reflexivity|]. vm_compute. discriminate.
Defined.
