(* ===== verification/Circuit.v ===== *)
(** Relayed circuits: [pump], [splice] and the wait of [attachCircuit] in
    [src/internal/relay/server.go], over the connections of [WebSocket].

    [Relay.pump] abstracts a direction to the reads it makes.  [pump_conns] is the
    loop on the two [WSConn]s themselves; the timed definitions say when a circuit
    ends, with the clock and the arrival of every read as arguments. *)
From Stdlib Require Import ZArith Lia.
From Stdlib Require Import Strings.Byte.
From stdpp Require Import base list gmap strings numbers option.
From S2P Require Import Prelude Crypto Messages Transport WebSocket Relay.
Open Scope go_scope.

(** ** The loop on two connections *)
Definition pumpBuf : Z := Z.shiftl 32 10.

(** Why the loop returned. *)
Inductive pump_stop := PumpLimit | PumpWrite | PumpRead (e : ws_err) | PumpFuel.

(** [dst.Write(buf[:n])]: the connection it leaves and whether it succeeded. *)
Definition forward (dst : WSConn) (b : bytes) : WSConn * bool :=
  if decide (0 < len b) then let '(d, r) := Write dst b in (d, is_ok r) else (dst, true).

Fixpoint pump_conns (fuel : nat) (limit total : Z) (dst src : WSConn) : WSConn * WSConn * pump_stop :=
  match fuel with
  | O => (dst, src, PumpFuel)
  | S fuel =>
      let '(src1, (b, e)) := Read src pumpBuf in
      if decide (0 < len b /\ limit < total + len b) then (dst, src1, PumpLimit)
      else
        let '(dst1, ok) := forward dst b in
        if negb ok then (dst1, src1, PumpWrite)
        else match e with
             | Some err => (dst1, src1, PumpRead err)
             | None => pump_conns fuel limit (total + len b) dst1 src1
             end
  end.

(** The reads of the loop as [Relay.pump] sees them. *)
Fixpoint reads_of (fuel : nat) (src : WSConn) : list transfer :=
  match fuel with
  | O => []
  | S fuel =>
      let '(src1, (b, e)) := Read src pumpBuf in
      mkTransfer b (bool_decide (is_Some e)) None :: (if decide (is_Some e) then [] else reads_of fuel src1)
  end.

(** ** The circuit in time *)

(** A read that returns at [ar_at] what [ar_read] says; its bytes are written by
    [ar_done]. *)
Record arrival := mkArrival { ar_at : Z; ar_done : Z; ar_read : transfer }.

(** When [pump], entered at [now], returns, if nobody closes its connections:
    each read has [CircuitIdle] to return. *)
Fixpoint pump_returns (l : Limits) (total now : Z) (reads : list arrival) : Z :=
  match reads with
  | [] => now + CircuitIdle l
  | r :: rest =>
      if decide (now + CircuitIdle l < ar_at r) then now + CircuitIdle l
      else
        let t := ar_read r in
        let n := len (t_data t) in
        if decide (0 < n) then
          if decide (CircuitBytes l < total + n) then ar_at r
          else match t_write t with
               | Some _ => ar_done r
               | None => if t_err t then ar_done r else pump_returns l (total + n) (ar_done r) rest
               end
        else if t_err t then ar_at r else pump_returns l total (ar_at r) rest
  end.

(** The reads that return before the time [stop] at which the connections are
    closed, if nothing else stops the loop first. *)
Fixpoint reads_before (l : Limits) (stop now : Z) (reads : list arrival) : list transfer :=
  match reads with
  | [] => []
  | r :: rest =>
      if decide (now + CircuitIdle l < ar_at r \/ stop <= ar_at r) then []
      else ar_read r :: reads_before l stop (if decide (0 < len (t_data (ar_read r))) then ar_done r else ar_at r) rest
  end.

(** [splice] entered at [now]: either direction's return, the lifetime or the end
    of the server, whichever is first. *)
Definition splice_until (l : Limits) (now : Z) (ab ba : list arrival) (closed_at : option Z) : Z :=
  let e := Z.min (Z.min (pump_returns l 0 now ab) (pump_returns l 0 now ba)) (now + CircuitLifetime l) in
  match closed_at with Some k => Z.min e (Z.max now k) | None => e end.

(** The [select] of the half that attached first, at [t0]: [done] is closed when
    the splice the other half entered has ended by itself; the timer runs from
    [t0].  When it fires, or the server closes, the connection is closed. *)
Definition first_half (l : Limits) (t0 done : Z) (closed_at : option Z) : wait_end * Z :=
  let timer := t0 + CircuitIdle l in
  match closed_at with
  | Some k =>
      if decide (Z.max t0 k < Z.min timer done) then (ServerClosed, Z.max t0 k)
      else if decide (timer < done) then (IdleTimeout, timer) else (CircuitDone, done)
  | None => if decide (timer < done) then (IdleTimeout, timer) else (CircuitDone, done)
  end.

Record circuit_run := mkRun { run_wait : wait_end; run_end : Z; run_ab : bytes; run_ba : bytes }.

(** A circuit whose halves attach at [t0] and [t1]: how the first half's wait
    ends, when the circuit ends, and what each direction forwarded.  Closing
    the first half's connection ends both pumps, which read or write it. *)
Definition run_circuit (l : Limits) (t0 t1 : Z) (ab ba : list arrival) (closed_at : option Z) : circuit_run :=
  let alone := splice_until l t1 ab ba closed_at in
  let '(w, stop) := first_half l t0 alone closed_at in
  let stop := Z.max t1 (Z.min alone stop) in
  mkRun w stop (pump (CircuitBytes l) 0 (reads_before l stop t1 ab))
    (pump (CircuitBytes l) 0 (reads_before l stop t1 ba)).

(** ** A connection at its end *)
Lemma Read_empty c n : carries c [] -> exists c', Read c n = (c', ([], Some WsEOF)).
Proof.
  intros (cur & frames & Hrem & Hi & Hok & Hd & Hb & Hr). symmetry in Hd. apply app_eq_nil in Hd as [-> Hd].
  unfold Read. change (len []) with 0 in Hrem. rewrite Hrem. cbn [decide]. rewrite decide_False by lia.
  assert (Hi' : inp c = concat (wire (negb (mask c)) <$> frames) ++ []) by (rewrite Hi, app_nil_r; by destruct (rmasked c)).
  pose proof (frames_length (negb (mask c)) frames) as Hl.
  assert (He : enough c = (length frames + S (enough c - length frames - 1))%nat).
  { unfold enough. rewrite Hi', app_nil_r. lia. }
  rewrite He. destruct (nextFrame_skip frames (S (enough c - length frames - 1)) c [] Hi' Hok Hd Hb) as (c1 & -> & E & _); [lia|].
  cbn [nextFrame]. unfold readHeader, readFull. rewrite E. cbn. by eexists.
Qed.

Lemma wrote_le c m d budget budget' used : wrote c m d budget used -> (budget' <= budget)%nat -> wrote c m d budget' used.
Proof. intros (? & ? & ? & ?) ?. split; [done|]. split; [done|]. split; [lia|done]. Qed.

(** The loop carries over whatever is in flight, and ends with the stream. *)
Lemma pump_carries n : forall fuel limit total dst src d m acc used,
  (length d <= n)%nat -> (n < fuel)%nat -> carries src d -> wrote dst m acc n used -> total + len d <= limit ->
  exists dst' src' used', pump_conns fuel limit total dst src = (dst', src', PumpRead WsEOF) /\
    (used' <= used + n)%nat /\ wrote dst' m (acc ++ d) 0 used'.
Proof.
  induction n as [|n IH]; intros fuel limit total dst src d m acc used Hn Hf Hc Hw Hl;
    (destruct fuel as [|fuel]; [lia|]); cbn [pump_conns].
  1: assert (d = []) as -> by (destruct d; [done|cbn in Hn; lia]).
  2: destruct (decide (d = [])) as [->|Hd].
  1,2: destruct (Read_empty src pumpBuf Hc) as [src' ->]; change (len []) with 0;
       rewrite decide_False by lia; change (forward dst []) with (dst, true); cbn [negb];
       exists dst, src', used; rewrite app_nil_r; split; [done|]; split; [lia|by eapply wrote_le; [done|lia]].
  destruct (Read_ok src d pumpBuf Hc Hd) as (b & d' & src' & -> & -> & Hb & Hc'); [done|].
  rewrite len_app in Hl. pose proof (len_nonneg d'). rewrite decide_False by lia.
  unfold forward. rewrite decide_True by lia.
  destruct (Write_wrote dst m acc b n used Hw) as (dst1 & -> & Hw1).
  { change pumpBuf with 32768 in Hb. change maxWSPayload with 1049600. lia. }
  cbn [is_ok negb].
  assert (0 < length b)%nat by (unfold len in Hb; lia). rewrite length_app in Hn.
  destruct (IH fuel limit (total + len b) dst1 src' d' m (acc ++ b) (S used)) as (dst' & src2 & u' & -> & Hu & Hw'); [lia|lia|done|done|lia|].
  exists dst', src2, u'. rewrite app_assoc. split; [done|]. split; [lia|done].
Qed.

(** What the loop writes is what [Relay.pump] says of its reads. *)
Lemma pump_refines fuel : forall limit total dst src m acc used,
  wrote dst m acc fuel used ->
  exists dst' src' stop used', pump_conns fuel limit total dst src = (dst', src', stop) /\
    wrote dst' m (acc ++ pump limit total (reads_of fuel src)) 0 used'.
Proof.
  induction fuel as [|fuel IH]; intros limit total dst src m acc used Hw; cbn [pump_conns reads_of].
  { do 3 eexists. exists used. rewrite app_nil_r. split; [done|]. done. }
  destruct (Read src pumpBuf) as [src1 [b e]] eqn:ER. cbn [pump t_data t_write t_err].
  pose proof (len_nonneg b).
  assert (Hb : len b <= maxWSPayload).
  { unfold Read in ER. revert ER. assert (Hd : forall c, len (readData c pumpBuf).2.1 <= maxWSPayload).
    { intros c. unfold readData. cbn. set (k := if decide (rem c < pumpBuf) then rem c else pumpBuf).
      assert (len (take (Z.to_nat k) (inp c)) <= maxWSPayload).
      { change pumpBuf with 32768 in k. change maxWSPayload with 1049600. unfold len. rewrite length_take. subst k. case_decide; lia. }
      destruct (rmasked c); rewrite ?xor_mask_len; done. }
    assert (0 <= maxWSPayload) by (vm_compute; discriminate).
    case_decide; [intros E; specialize (Hd src); rewrite E in Hd; done|].
    destruct (nextFrame _ _) as [c1 [?|?|]]; intros E; [specialize (Hd c1); by rewrite E in Hd|by simplify_eq..]. }
  destruct (decide (0 < len b)) as [Hp|Hp].
  - destruct (decide (limit < total + len b)) as [Hx|Hx].
    + rewrite decide_True by done. do 3 eexists. exists used. split; [done|]. rewrite app_nil_r. eapply wrote_le; [done|lia].
    + rewrite decide_False by lia. unfold forward. rewrite decide_True by done.
      destruct (Write_wrote dst m acc b fuel used Hw Hb) as (dst1 & -> & Hw1). cbn [is_ok negb].
      destruct e as [err|]; cbn.
      * do 3 eexists. exists (S used). rewrite app_nil_r. split; [done|]. eapply wrote_le; [done|lia].
      * destruct (IH limit (total + len b) dst1 src1 m (acc ++ b) (S used) Hw1) as (d' & s' & st & u' & -> & Hw').
        do 4 eexists. split; [done|]. by rewrite app_assoc.
  - rewrite decide_False by lia. unfold forward. rewrite decide_False by done. cbn [negb].
    destruct e as [err|]; cbn.
    + do 3 eexists. exists used. rewrite app_nil_r. split; [done|]. eapply wrote_le; [done|lia].
    + assert (Hz : len b = 0) by lia. rewrite Hz, Z.add_0_r.
      destruct (IH limit total dst src1 m acc used) as (d' & s' & st & u' & -> & Hw'); [eapply wrote_le; [done|lia]|].
      do 4 eexists. done.
Qed.

(** ** A circuit is a connection *)

(** C19: a relayed circuit is a direct connection: what one client frames and sends
    over its WebSocket, the relay reads in pieces of whatever size, forwards over
    the other client's WebSocket, and the other client unframes exactly the
    payloads that were sent, in order and with their boundaries; the loop ends
    because the stream did, for every amount of traffic below the byte ceiling. *)
Theorem circuit_transparent payloads rngA rngS rngD rngB limit fuel :
  let d := concat (framed <$> payloads) in
  Forall (fun p => len p <= MaxFrameSize) payloads -> len d <= limit -> (length d < fuel)%nat ->
  8 * Z.of_nat (length payloads) <= len rngA -> 8 * Z.of_nat (length payloads) <= len rngS ->
  4 * len d <= len rngD -> 4 * len d <= len rngB ->
  exists a src dst, send_all (NewWSConn [] rngA true) payloads = (a, Ok tt) /\
    pump_conns fuel limit 0 (NewWSConn [] rngD false) (NewWSConn (outp a) rngS false) = (dst, src, PumpRead WsEOF) /\
    snd (recv_all (length payloads) (NewWSConn (outp dst) rngB true)) = Ok <$> payloads.
Proof.
  intros d Hf Hl Hfuel HA HS HD HB.
  destruct (send_wrote payloads (NewWSConn [] rngA true) true [] 0) as (a & u & E & Hu & W).
  { split; [done|]. split; [done|]. split; [cbn; lia|]. exists []. done. }
  { done. }
  destruct W as (_ & _ & _ & frames & Ho & Hok & Hd & Hn). cbn [app] in Hd. fold d in Hd.
  destruct (pump_carries (length d) fuel limit 0 (NewWSConn [] rngD false) (NewWSConn (outp a) rngS false) d false [] 0)
    as (dst & src & u' & E' & Hu' & W'); [lia|lia| | |lia|].
  { exists [], frames. cbn. rewrite Ho, <- Hd. split_and!; try done. lia. }
  { split; [done|]. split; [done|]. split; [cbn; unfold len in *; lia|]. exists []. done. }
  exists a, src, dst. split; [done|]. split; [done|].
  destruct W' as (_ & _ & _ & frames' & Ho' & Hok' & Hd' & Hn'). cbn [app] in Hd'.
  destruct (frames_received payloads (NewWSConn (outp dst) rngB true) []) as (s' & -> & _); [done| |done].
  exists [], frames'. cbn. rewrite app_nil_r, Ho', Hd'. split_and!; try done. unfold len in *. lia.
Qed.

(** ** How long a circuit lasts *)

(** A direction that nothing in it ends before [horizon]: every read returns in
    time, without an error, below the byte ceiling, and is written. *)
Fixpoint busy (l : Limits) (horizon total now : Z) (reads : list arrival) : Prop :=
  match reads with
  | [] => horizon <= now + CircuitIdle l
  | r :: rest =>
      let n := len (t_data (ar_read r)) in
      now <= ar_at r <= now + CircuitIdle l /\ ar_at r <= ar_done r /\
      t_err (ar_read r) = false /\ t_write (ar_read r) = None /\ total + n <= CircuitBytes l /\
      busy l horizon (total + n) (if decide (0 < n) then ar_done r else ar_at r) rest
  end.

Lemma busy_returns l horizon reads : forall total now, busy l horizon total now reads ->
  horizon <= pump_returns l total now reads.
Proof.
  induction reads as [|r reads IH]; intros total now; cbn [busy pump_returns]; [done|].
  intros (Ha & Hd & He & Hw & Hl & Hb). rewrite decide_False by lia. rewrite Hw, He.
  pose proof (len_nonneg (t_data (ar_read r))). destruct (decide (0 < _)).
  - rewrite decide_False by lia. by apply IH.
  - replace (len (t_data (ar_read r))) with 0 in Hb by lia. rewrite Z.add_0_r in Hb. by apply IH.
Qed.

Lemma busy_later l horizon reads : forall total now, busy l horizon total now reads ->
  Forall (fun r => now <= ar_at r) reads.
Proof.
  induction reads as [|r reads IH]; intros total now; cbn [busy]; [by constructor|].
  intros (Ha & Hd & _ & _ & _ & Hb). constructor; [lia|]. apply IH in Hb. revert Hb. apply Forall_impl.
  intros x. case_decide; lia.
Qed.

(** What such a direction reads before [stop]. *)
Definition payload_before (stop : Z) (reads : list arrival) : bytes :=
  concat ((fun r => t_data (ar_read r)) <$> filter (fun r => ar_at r < stop) reads).

Lemma busy_forwards l horizon stop reads : forall total now, busy l horizon total now reads ->
  pump (CircuitBytes l) total (reads_before l stop now reads) = payload_before stop reads.
Proof.
  unfold payload_before. induction reads as [|r reads IH]; intros total now; cbn [busy reads_before pump]; [done|].
  intros (Ha & Hd & He & Hw & Hl & Hb). rewrite filter_cons. destruct (decide (ar_at r < stop)) as [Hs|Hs].
  - rewrite decide_False by lia. cbn [pump fmap list_fmap concat]. rewrite Hw, He.
    pose proof (len_nonneg (t_data (ar_read r))). destruct (decide (0 < len _)) as [Hp|Hp].
    + rewrite decide_False by lia. by rewrite (IH _ _ Hb).
    + assert (Hz : len (t_data (ar_read r)) = 0) by lia. rewrite Hz, Z.add_0_r in Hb. rewrite (IH _ _ Hb).
      apply len_zero_nil in Hz as ->. done.
  - rewrite decide_True by lia. cbn [pump]. apply busy_later in Hb.
    assert (Hn : Forall (fun r => ~ ar_at r < stop) reads).
    { revert Hb. apply Forall_impl. intros x. case_decide; lia. }
    clear -Hn. induction Hn as [|x xs Hx _ IH]; [done|]. by rewrite filter_cons, decide_False.
Qed.

Lemma first_half_bound l t0 done closed_at : (first_half l t0 done closed_at).2 <= t0 + CircuitIdle l.
Proof. unfold first_half. destruct closed_at; repeat case_decide; cbn; lia. Qed.

(** C21: no relayed circuit outlives its first half's idle timer.  The half that
    attaches first waits for the splice with a timer that runs from its own
    arrival, so the circuit ends [CircuitIdle] later whatever it carries: two
    directions that would keep it alive for [CircuitLifetime] are cut there, and
    what either would still have sent is not forwarded. *)
Theorem circuit_cut l t0 t1 ab ba closed_at :
  run_end (run_circuit l t0 t1 ab ba closed_at) <= Z.max t1 (t0 + CircuitIdle l) /\
  (busy l (t1 + CircuitLifetime l) 0 t1 ab -> busy l (t1 + CircuitLifetime l) 0 t1 ba ->
   t0 <= t1 < t0 + CircuitIdle l -> CircuitIdle l < CircuitLifetime l ->
   splice_until l t1 ab ba None = t1 + CircuitLifetime l /\
   run_circuit l t0 t1 ab ba None =
     mkRun IdleTimeout (t0 + CircuitIdle l)
       (payload_before (t0 + CircuitIdle l) ab) (payload_before (t0 + CircuitIdle l) ba)).
Proof.
  split.
  - unfold run_circuit. pose proof (first_half_bound l t0 (splice_until l t1 ab ba closed_at) closed_at) as Hb.
    destruct (first_half _ _ _ _) as [w stop]. cbn in *. lia.
  - intros Ha Hb Ht Hl. pose proof (busy_returns _ _ _ _ _ Ha). pose proof (busy_returns _ _ _ _ _ Hb).
    assert (Hs : splice_until l t1 ab ba None = t1 + CircuitLifetime l) by (unfold splice_until; lia).
    split; [done|]. unfold run_circuit. rewrite Hs. unfold first_half. rewrite decide_True by lia.
    replace (Z.max t1 _) with (t0 + CircuitIdle l) by lia.
    by rewrite (busy_forwards _ _ _ _ _ _ Ha), (busy_forwards _ _ _ _ _ _ Hb).
Qed.

(** A call that sends a little every minute, for thirteen hours. *)
Definition tick (k : nat) : arrival :=
  let t := Z.of_nat (S k) * Minute in mkArrival t t (mkTransfer (str "x") false None).
Definition ticks : list arrival := tick <$> seq 0 780.

Lemma ticks_busy now n total : forall start, now = Z.of_nat start * Minute ->
  total + Z.of_nat n <= CircuitBytes DefaultLimits ->
  13 * 60 * Minute <= Z.of_nat (start + n) * Minute ->
  busy DefaultLimits (13 * 60 * Minute) total now (tick <$> seq start n).
Proof.
  revert now total. induction n as [|n IH]; intros now total start -> Ht Hh; cbn [seq fmap list_fmap busy].
  - change (CircuitIdle DefaultLimits) with (90 * Second). change Minute with (60 * Second) in *. change Second with 1000000000 in *. lia.
  - cbn [tick ar_read ar_at ar_done t_data t_err t_write]. change (len (str "x")) with 1.
    change (CircuitIdle DefaultLimits) with 90000000000. change Minute with 60000000000 in *.
    split_and!; [lia|lia|lia|done|done|lia|]. rewrite decide_True by lia. apply IH; [done|lia|].
    replace (S start + n)%nat with (start + S n)%nat by lia. done.
Qed.

Lemma busy_weaken l h h' reads : h' <= h -> forall total now, busy l h total now reads -> busy l h' total now reads.
Proof. intros Hh. induction reads as [|r reads IH]; intros total now; cbn; [lia|]. naive_solver. Qed.

Lemma circuit_cut_witness :
  splice_until DefaultLimits 0 ticks ticks None = 12 * 60 * Minute /\
  run_circuit DefaultLimits 0 0 ticks ticks None = mkRun IdleTimeout (90 * Second) (str "x") (str "x").
Proof.
  assert (Hb : busy DefaultLimits (12 * 60 * Minute) 0 0 ticks).
  { apply (busy_weaken _ (13 * 60 * Minute)); [vm_compute; discriminate|].
    apply (ticks_busy 0 780 0 0%nat); [done|vm_compute; discriminate|vm_compute; discriminate]. }
  destruct (circuit_cut DefaultLimits 0 0 ticks ticks None) as [_ Hc].
  destruct (Hc Hb Hb) as [H1 H2]; [by split; vm_compute|by vm_compute|].
  split; [exact H1|]. rewrite H2. vm_compute. reflexivity.
Defined.

Lemma circuit_transparent_witness : exists a src dst,
  send_all (NewWSConn [] (replicate 16 x5a) true) [str "hi"; []] = (a, Ok tt) /\
  pump_conns 11 100 0 (NewWSConn [] (replicate 40 x00) false) (NewWSConn (outp a) (replicate 16 x00) false) =
    (dst, src, PumpRead WsEOF) /\
  snd (recv_all 2 (NewWSConn (outp dst) (replicate 40 x00) true)) = [Ok (str "hi"); Ok []].
Proof.
  apply (circuit_transparent [str "hi"; []] (replicate 16 x5a) (replicate 16 x00) (replicate 40 x00) (replicate 40 x00) 100 11).
  - repeat constructor; vm_compute; discriminate.
  - vm_compute. discriminate.
  - apply Nat.ltb_lt. vm_compute. reflexivity.
  - vm_compute. discriminate.
  - vm_compute. discriminate.
  - vm_compute. discriminate.
  - vm_compute. discriminate.
Defined.
