(* ===== verification/Manager.v ===== *)
(** The session manager: [src/internal/session/manager.go].

    Connections are shared objects (the maps, the read loop, the keepalive loop
    and the timers all hold pointers to them), so they live in a heap and the
    maps hold identities.  Each operation the code runs under its mutex, and
    each turn of a loop, is one definition; the clock, the order of map
    iteration and what arrives on a connection are arguments. *)
From Stdlib Require Import ZArith Lia.
From Stdlib Require Import Strings.Byte.
From stdpp Require Import base list gmap strings numbers option.
From S2P Require Import Prelude Crypto GoStrings Identity Replay Frame Session SessionProps Pairing Handshake Peers.

Inductive EventType :=
| EventPeerConnected | EventPeerDisconnected | EventMessage | EventSecurityWarning | EventError.

(** What an event says; [Main] has the wording of warnings. *)
Inductive event_text :=
| NoText
| Text (t : bytes)
| HandshakeFailed (e : proto_err)
| PairingFailed
| KeyChanged (old new : bytes).

Record Event := mkEvent {
  ev_type : EventType;
  ev_peer : bytes;
  ev_fingerprint : bytes;
  ev_text : event_text;
  ev_trust : TrustLevel;
  ev_path : bytes
}.

Definition PathDirect : bytes := str "DIRECT".
Definition PathPunched : bytes := str "PUNCHED".
Definition PathRelay : bytes := str "RELAY".
Definition keepaliveMisses : Z := 3.
Definition queueSize : nat := 64.
Definition eventQueue : nat := 256.

Record conn := mkConn {
  c_fp : bytes;
  c_name : bytes;
  c_sess : Session;
  c_trust : TrustLevel;
  c_addr : bytes;
  c_queue : list bytes;     (* the buffered channel [send] *)
  c_done : bool;
  c_path : bytes;
  c_unanswered : Z;
  c_announced : bool
}.

Record Manager := mkManager {
  m_id : Identity;
  m_conns : gmap bytes nat;
  m_byName : gmap bytes nat;
  m_heap : gmap nat conn;
  m_events : list Event;    (* the buffered channel [events], oldest first *)
  m_closing : bool
}.

Inductive manager_err :=
| NotConnected | ConnClosed | QueueFull | MeProto (e : proto_err) | MeConfirm (e : confirm_err)
| MeTransport | MeNoSession | MeStore (e : peers_err).

Definition NewManager (id : Identity) : Manager := mkManager id ∅ ∅ ∅ [] false.

Definition set_conn (m : Manager) (cid : nat) (c : conn) : Manager :=
  mkManager (m_id m) (m_conns m) (m_byName m) (<[cid := c]> (m_heap m)) (m_events m) (m_closing m).
Definition set_maps (m : Manager) (conns byName : gmap bytes nat) : Manager :=
  mkManager (m_id m) conns byName (m_heap m) (m_events m) (m_closing m).

Definition set_sess (c : conn) (s : Session) : conn :=
  mkConn (c_fp c) (c_name c) s (c_trust c) (c_addr c) (c_queue c) (c_done c) (c_path c) (c_unanswered c) (c_announced c).
Definition set_queue (c : conn) (q : list bytes) : conn :=
  mkConn (c_fp c) (c_name c) (c_sess c) (c_trust c) (c_addr c) q (c_done c) (c_path c) (c_unanswered c) (c_announced c).
Definition set_unanswered (c : conn) (n : Z) : conn :=
  mkConn (c_fp c) (c_name c) (c_sess c) (c_trust c) (c_addr c) (c_queue c) (c_done c) (c_path c) n (c_announced c).
Definition set_announced (c : conn) : conn :=
  mkConn (c_fp c) (c_name c) (c_sess c) (c_trust c) (c_addr c) (c_queue c) (c_done c) (c_path c) (c_unanswered c) true.

Definition emit (m : Manager) (e : Event) : Manager :=
  if decide (length (m_events m) < eventQueue)%nat
  then mkManager (m_id m) (m_conns m) (m_byName m) (m_heap m) (m_events m ++ [e]) (m_closing m)
  else m.

(** [conn.close], under the connection's [once]. *)
Definition close_conn (c : conn) : conn :=
  if c_done c then c
  else mkConn (c_fp c) (c_name c) (Close (c_sess c)) (c_trust c) (c_addr c) (c_queue c) true (c_path c)
         (c_unanswered c) (c_announced c).

(** *** The registry *)
Definition preferNew (old new : conn) : bool :=
  if decide (0 < c_unanswered old) then true
  else bool_decide (SessionID (c_sess new) < SessionID (c_sess old)).

(** [register] of the connection [cid], already allocated. *)
Definition register (m : Manager) (cid : nat) (c : conn) : Manager * bool :=
  let install m := set_maps m (<[c_fp c := cid]> (m_conns m)) (<[c_name c := cid]> (m_byName m)) in
  match m_conns m !! c_fp c with
  | Some ocid =>
      match m_heap m !! ocid with
      | Some old =>
          if c_announced old && bool_decide (c_unanswered old = 0) then (m, false)
          else if negb (preferNew old c) then (m, false)
          else (install (set_conn m ocid (close_conn old)), true)
      | None => (install m, true)
      end
  | None => (install m, true)
  end.

Definition unregister (m : Manager) (cid : nat) (c : conn) : Manager :=
  if decide (m_conns m !! c_fp c = Some cid) then
    set_maps m (delete (c_fp c) (m_conns m))
      (if decide (m_byName m !! c_name c = Some cid) then delete (c_name c) (m_byName m) else m_byName m)
  else m.

Definition announce (m : Manager) (cid : nat) : Manager :=
  match m_heap m !! cid with
  | Some c =>
      if c_done c then m
      else if decide (m_conns m !! c_fp c = Some cid) then
        if c_announced c then m
        else emit (set_conn m cid (set_announced c))
               (mkEvent EventPeerConnected (c_name c) (c_fp c) NoText (c_trust c) (c_path c))
      else m
  | None => m
  end.

Definition dropConn (m : Manager) (cid : nat) : Manager :=
  match m_heap m !! cid with
  | Some c =>
      if c_done c then m
      else
        let m1 := unregister (set_conn m cid (close_conn c)) cid c in
        if c_announced c
        then emit m1 (mkEvent EventPeerDisconnected (c_name c) (c_fp c) NoText (c_trust c) (c_path c))
        else m1
  | None => m
  end.

Section loops.
Context `{CryptoOps}.

(** Seal a frame and queue it; a sealed frame that finds the queue full is lost. *)
Definition enqueue (m : Manager) (cid : nat) (typ : byte) (payload rng : bytes) : Manager * res manager_err unit :=
  match m_heap m !! cid with
  | Some c =>
      let '(s, r) := Seal (c_sess c) typ payload rng in
      let m1 := set_conn m cid (set_sess c s) in
      match r with
      | Err e => (m1, Err (MeProto e))
      | Panic => (m1, Panic)
      | Ok buf =>
          if decide (length (c_queue c) < queueSize)%nat
          then (set_conn m cid (set_queue (set_sess c s) (c_queue c ++ [buf])), Ok tt)
          else if c_done c then (m1, Err ConnClosed) else (m1, Err QueueFull)
      end
  | None => (m, Panic)
  end.

(** One received frame in [readLoop]; whether the loop goes on. *)
Definition readFrame (m : Manager) (cid : nat) (buf rng : bytes) : Manager * bool :=
  match m_heap m !! cid with
  | Some c =>
      let '(s, r) := Open (c_sess c) buf in
      let m1 := set_conn m cid (set_sess c s) in
      match r with
      | Err ErrBadSession => (m1, false)
      | Err _ => (m1, true)
      | Panic => (m1, false)
      | Ok (typ, pt) =>
          if decide (typ = TypeChat) then
            match DecodeChat pt with
            | Ok text => (emit m1 (mkEvent EventMessage (c_name c) (c_fp c) (Text text) (c_trust c) []), true)
            | _ => (m1, true)
            end
          else if decide (typ = TypePing) then ((enqueue m1 cid TypePong [] rng).1, true)
          else if decide (typ = TypePong) then (set_conn m1 cid (set_unanswered (set_sess c s) 0), true)
          else if decide (typ = TypeClose) then (m1, false)
          else (m1, true)
      end
  | None => (m, false)
  end.

(** [readLoop]: the frames that arrive, until a receive error (the end of the
    list) or a frame that ends it; then the connection is dropped. *)
Fixpoint readLoop (m : Manager) (cid : nat) (frames : list (bytes * bytes)) : Manager :=
  match frames with
  | [] => dropConn m cid
  | (buf, rng) :: rest =>
      let '(m1, go) := readFrame m cid buf rng in
      if go : bool then readLoop m1 cid rest else dropConn m1 cid
  end.

(** One tick of [keepaliveLoop]; whether the loop goes on. *)
Definition keepaliveTick (m : Manager) (cid : nat) (rng : bytes) : Manager * bool :=
  match m_heap m !! cid with
  | Some c =>
      if c_done c then (m, false)
      else
        let n := c_unanswered c + 1 in
        let m1 := set_conn m cid (set_unanswered c n) in
        if decide (keepaliveMisses < n) then (dropConn m1 cid, false)
        else
          let '(m2, r) := enqueue m1 cid TypePing [] rng in
          match r with Ok _ => (m2, true) | _ => (dropConn m2 cid, false) end
  | None => (m, false)
  end.

(** One turn of [writeLoop]: the frame handed to the transport. *)
Definition writeTurn (m : Manager) (cid : nat) (sent : bool) : Manager * option bytes :=
  match m_heap m !! cid with
  | Some c =>
      if c_done c then (m, None)
      else match c_queue c with
           | [] => (m, None)
           | buf :: rest =>
               let m1 := set_conn m cid (set_queue c rest) in
               if sent then (m1, Some buf) else (dropConn m1 cid, Some buf)
           end
  | None => (m, None)
  end.

Definition Send (m : Manager) (name text rng : bytes) : Manager * res manager_err unit :=
  match m_byName m !! name with
  | None => (m, Err NotConnected)
  | Some cid => enqueue m cid TypeChat (encodeChatPayload text) rng
  end.

(** [order] enumerates the connections. *)
Fixpoint broadcast (m : Manager) (order : list nat) (text rng : bytes) (n : Z) : Manager * Z :=
  match order with
  | [] => (m, n)
  | cid :: rest =>
      let '(m1, r) := enqueue m cid TypeChat (encodeChatPayload text) rng in
      broadcast m1 rest text rng (match r with Ok _ => n + 1 | _ => n end)
  end.

Definition Broadcast (m : Manager) (order : list nat) (text rng : bytes) : Manager * Z :=
  broadcast m order text rng 0.

Definition Disconnect (m : Manager) (name rng : bytes) : Manager * res manager_err unit :=
  match m_byName m !! name with
  | None => (m, Err NotConnected)
  | Some cid => (dropConn (enqueue m cid TypeClose [] rng).1 cid, Ok tt)
  end.

Definition Shutdown (m : Manager) (order : list nat) (rng : bytes) : Manager :=
  let m0 := mkManager (m_id m) (m_conns m) (m_byName m) (m_heap m) (m_events m) true in
  let m1 := foldl (fun m cid => (enqueue m cid TypeClose [] rng).1) m0 order in
  foldl dropConn m1 order.
End loops.

Record PeerInfo := mkPeerInfo {
  pi_name : bytes; pi_fingerprint : bytes; pi_address : bytes; pi_trust : TrustLevel; pi_path : bytes
}.

Definition info_of (c : conn) : PeerInfo := mkPeerInfo (c_name c) (c_fp c) (c_addr c) (c_trust c) (c_path c).

Definition Manager_Peers (m : Manager) (order : list nat) : list PeerInfo :=
  omap (fun cid => info_of <$> m_heap m !! cid) order.

Definition Manager_TrustOf (m : Manager) (name : bytes) : TrustLevel * bool :=
  match m_byName m !! name ≫= fun cid => m_heap m !! cid with
  | Some c => (c_trust c, true)
  | None => (TrustUnknown, false)
  end.

(** *** Adopting a connection *)
Record AdoptOptions := mkAdopt { o_initiator : bool; o_pairing : bytes; o_path : bytes }.

(** What happens on the transport and around it during one handshake. *)
Record hs_env := mkHsEnv {
  he_eph : bytes;             (* randomness of the ephemeral key *)
  he_seal : bytes;            (* of the handshake message *)
  he_confirm : bytes;         (* of the pairing confirmation *)
  he_inbox : list arrival;    (* what is received *)
  he_sent1 : bool;            (* outcomes of the sends, in order *)
  he_sent2 : bool;
  he_sent3 : bool;
  he_addr : bytes;
  he_now : Z;
  he_order : list bytes;      (* iterations over the trust store *)
  he_order' : list bytes;
  he_io : io_outcome
}.

Definition recv_msg (inbox : list arrival) : option bytes * list arrival :=
  match inbox with Got b :: rest => (Some b, rest) | RecvError :: rest => (None, rest) | [] => (None, []) end.

(** How the exchange of handshake messages ends: the result and what is left in
    the inbox, or an error and whether the user is told of a failed handshake. *)
Inductive negotiated :=
| Established (r : HandshakeResult) (rest : list arrival)
| Failed (e : manager_err) (told : bool).

Section adopt.
Context `{CryptoOps, SignatureOps, DHOps, PeersJSON}.

Definition negotiate (id : Identity) (ini : bool) (e : hs_env) : negotiated :=
  match NewHandshaker id ini (he_eph e) with
  | Ok hs =>
      if ini then
        match InitMessage hs with
        | Ok _ =>
            if negb (he_sent1 e) then Failed MeTransport false
            else match recv_msg (he_inbox e) with
            | (None, _) => Failed MeTransport false
            | (Some msg2, rest) =>
                match (HandleMessage hs msg2 (he_seal e)).2 with
                | Ok (_, r) =>
                    if negb (he_sent2 e) then Failed MeTransport false
                    else match r with Some r => Established r rest | None => Failed MeNoSession false end
                | Err err => Failed (MeProto err) true
                | Panic => Failed MeNoSession false
                end
            end
        | _ => Failed (MeProto ErrNotInitiator) false
        end
      else
        match recv_msg (he_inbox e) with
        | (None, _) => Failed MeTransport false
        | (Some msg1, rest) =>
            let '(hs1, r1) := HandleMessage hs msg1 (he_seal e) in
            match r1 with
            | Ok _ =>
                if negb (he_sent1 e) then Failed MeTransport false
                else match recv_msg rest with
                | (None, _) => Failed MeTransport false
                | (Some msg3, rest') =>
                    match (HandleMessage hs1 msg3 (he_seal e)).2 with
                    | Ok (_, Some r) => Established r rest'
                    | Ok (_, None) => Failed MeNoSession false
                    | Err err => Failed (MeProto err) true
                    | Panic => Failed MeNoSession false
                    end
                end
            | Err err => Failed (MeProto err) false
            | Panic => Failed MeNoSession false
            end
        end
  | Err err => Failed (MeProto err) false
  | Panic => Failed MeNoSession false
  end.

(** The handshake messages [runHandshake] hands to the transport, in order. *)
Definition hs_sends (id : Identity) (ini : bool) (e : hs_env) : list bytes :=
  match NewHandshaker id ini (he_eph e) with
  | Ok hs =>
      if ini then
        match InitMessage hs with
        | Ok msg1 =>
            msg1 ::
            (if negb (he_sent1 e) then []
             else match recv_msg (he_inbox e) with
             | (None, _) => []
             | (Some msg2, _) =>
                 match (HandleMessage hs msg2 (he_seal e)).2 with
                 | Ok (msg3, _) => [default [] msg3]
                 | _ => []
                 end
             end)
        | _ => []
        end
      else
        match recv_msg (he_inbox e) with
        | (None, _) => []
        | (Some msg1, _) =>
            match (HandleMessage hs msg1 (he_seal e)).2 with
            | Ok (msg2, _) => [default [] msg2]
            | _ => []
            end
        end
  | _ => []
  end.

(** The pairing confirmation it hands to the transport, when one is required. *)
Definition confirm_sends (opts : AdoptOptions) (e : hs_env) (r : HandshakeResult) (rest : list arrival) : list bytes :=
  if decide (0 < len (o_pairing opts)) then
    match confirmPairing (hr_session r) (o_pairing opts) (Transcript r) (he_confirm e) (he_sent3 e) rest with
    | (_, Some out, _) => [out]
    | _ => []
    end
  else [].

(** Everything one [runHandshake] hands to the transport. *)
Definition outbox (id : Identity) (opts : AdoptOptions) (e : hs_env) : list bytes :=
  hs_sends id (o_initiator opts) e ++
  match negotiate id (o_initiator opts) e with
  | Established r rest => confirm_sends opts e r rest
  | Failed _ _ => []
  end.

Definition new_conn (m : Manager) : nat := fresh (elements (dom (m_heap m) : gset nat)).

(** The end of [runHandshake], from the trust decision on. *)
Definition record_peer (m : Manager) (st : Store) (fs : gmap bytes bytes) (opts : AdoptOptions) (e : hs_env)
  (r : HandshakeResult) (sess : Session) : Manager * Store * gmap bytes bytes * res manager_err unit :=
  let '(fs', st', (p, trust, saved)) :=
    Observe fs st (he_order e) (he_order' e) (PeerName r) (he_addr e) (PeerKey r) (he_now e) (he_io e) in
  match saved with
  | Err err => (m, st', fs', Err (MeStore err))
  | Panic => (m, st', fs', Panic)
  | Ok _ =>
      let m1 := if decide (trust = TrustChanged)
                then emit m (mkEvent EventSecurityWarning (PeerName r) (PendingFingerprint p)
                               (KeyChanged (p_fingerprint p) (PendingFingerprint p)) trust [])
                else m in
      let path := if decide (o_path opts = []) then PathDirect else o_path opts in
      let c := mkConn (PeerFingerprint r) (PeerName r) sess trust (he_addr e) [] false path 0 false in
      let cid := new_conn m1 in
      let '(m2, kept) := register (set_conn m1 cid c) cid c in
      if kept : bool then (m2, st', fs', Ok tt)
      else (set_conn m2 cid (close_conn c), st', fs', Ok tt)
  end.

Definition runHandshake (m : Manager) (st : Store) (fs : gmap bytes bytes) (opts : AdoptOptions) (e : hs_env) :
  Manager * Store * gmap bytes bytes * res manager_err unit :=
  match negotiate (m_id m) (o_initiator opts) e with
  | Failed err told =>
      let m1 := match err with
                | MeProto pe => if told : bool
                    then emit m (mkEvent EventError [] [] (HandshakeFailed pe) TrustUnknown []) else m
                | _ => m
                end in
      (m1, st, fs, Err err)
  | Established r rest =>
      if decide (0 < len (o_pairing opts)) then
        let '(s1, _, c) := confirmPairing (hr_session r) (o_pairing opts) (Transcript r) (he_confirm e)
                             (he_sent3 e) rest in
        match c with
        | Ok _ => record_peer m st fs opts e r s1
        | Err err =>
            (emit m (mkEvent EventSecurityWarning (PeerName r) (PeerFingerprint r) PairingFailed TrustUnknown []),
             st, fs, Err (MeConfirm err))
        | Panic => (m, st, fs, Panic)
        end
      else record_peer m st fs opts e r (hr_session r)
  end.
End adopt.
