(* ===== verification/ManagerProps.v ===== *)
(** Theorems about the session manager: what it takes to be recorded and
    registered, how duplicate connections resolve, which connections the
    registry holds, and how messages are routed by name. *)
From Stdlib Require Import ZArith Lia.
From Stdlib Require Import Strings.Byte.
From stdpp Require Import base gmap strings numbers option sorting list.
From S2P Require Import Prelude Crypto GoStrings Identity Replay Frame Session SessionProps Pairing Handshake Peers Manager.

(** ** Admission *)
Section admission.
Context `{CryptoLaws, SignatureLaws, DHLaws, PeersJSON}.

Lemma negotiate_authenticated id ini e r rest : keyed id -> negotiate id ini e = Established r rest ->
  (exists h msg, hs_id h = id /\ hs_initiator h = ini /\ authenticated h msg r) /\
  exists pre, he_inbox e = pre ++ rest.
Proof.
  intros Hid. unfold negotiate. destruct (NewHandshaker id ini (he_eph e)) as [hs| |] eqn:En; try done.
  destruct (new_inv _ _ _ _ Hid En) as (Hi & Hd & Eid & Eini & _ & _). destruct ini.
  - destruct (InitMessage hs); try done. destruct (he_sent1 e); [|done]. cbn [negb].
    destruct (he_inbox e) as [|[msg2|] rest0]; try done. cbn [recv_msg].
    pose proof (handle_ok hs msg2 (he_seal e) Hi Hd) as (_ & _ & _ & _ & _ & _ & Hc).
    destruct (HandleMessage hs msg2 (he_seal e)) as [hs1 [[o [r0|]]| |]]; try done; cbn [fst snd] in *;
      destruct (he_sent2 e); cbn [negb]; try done.
    intros [= <- <-]. destruct (Hc _ _ eq_refl) as [_ Ha]. split; [eauto|]. exists [Got msg2]. done.
  - destruct (he_inbox e) as [|[msg1|] rest0]; try done. cbn [recv_msg].
    pose proof (handle_ok hs msg1 (he_seal e) Hi Hd) as (Hi1 & _ & E1 & E2 & _).
    destruct (HandleMessage hs msg1 (he_seal e)) as [hs1 [o1| |]]; try done. cbn [fst snd] in *.
    destruct (he_sent1 e); [|done]. cbn [negb]. destruct rest0 as [|[msg3|] rest1]; try done. cbn [recv_msg].
    destruct (hs_done hs1) eqn:Hd1; [by rewrite handle_done|].
    pose proof (handle_ok hs1 msg3 (he_seal e) Hi1 Hd1) as (_ & _ & _ & _ & _ & _ & Hc).
    destruct (HandleMessage hs1 msg3 (he_seal e)) as [hs2 [[o [r0|]]| |]]; try done; cbn [fst snd] in *.
    intros [= <- <-]. destruct (Hc _ _ eq_refl) as [_ Ha]. split; [|exists [Got msg1; Got msg3]; done].
    exists hs1, msg3. split_and!; [congruence|congruence|done].
Qed.

Lemma emit_maps m ev : m_conns (emit m ev) = m_conns m /\ m_byName (emit m ev) = m_byName m /\
  m_heap (emit m ev) = m_heap m.
Proof. unfold emit. by case_decide. Qed.

Lemma record_peer_store m st fs opts e r sess m' st' fs' out :
  record_peer m st fs opts e r sess = (m', st', fs', out) ->
  st' = (Observe fs st (he_order e) (he_order' e) (PeerName r) (he_addr e) (PeerKey r) (he_now e) (he_io e)).1.2.
Proof.
  unfold record_peer. destruct (Observe _ _ _ _ _ _ _ _ _) as [[f s] [[p t] [ok| |]]]; cbn [fst snd].
  - destruct (register _ _ _) as [m2 kept]. destruct kept; by intros [= _ <- _ _].
  - by intros [= _ <- _ _].
  - by intros [= _ <- _ _].
Qed.

(** A peer proved its identity in this handshake and, when an invite code was
    required, its knowledge of the code in an authenticated frame. *)
Definition proved (m : Manager) (opts : AdoptOptions) (e : hs_env) (r : HandshakeResult) : Prop :=
  (exists h msg, hs_id h = m_id m /\ hs_initiator h = o_initiator opts /\ authenticated h msg r) /\
  (0 < len (o_pairing opts) -> exists f pt,
     Got (marshalFrame f) ∈ he_inbox e /\ typ f = TypePairConfirm /\
     authentic (root (hr_session r)) (negb (o_initiator opts)) f pt /\
     PairConfirm (o_pairing opts) (Transcript r) = Ok pt).

Lemma authenticated_session h msg r : authenticated h msg r ->
  session_inv (hr_session r) (root (hr_session r)) ∅ /\ initiator (hr_session r) = hs_initiator h.
Proof.
  intros (k & peer & shared & key & e & blob & sig & _ & Hs & _ & _ & _ & _ & _ & _ & _ & _ & Hn).
  destruct (newSession_inv shared (Transcript r) (hs_initiator h)) as (s & R & _ & Hn' & Hi & Hini & _).
  { rewrite (x25519_len _ _ _ Hs). done. }
  assert (s = hr_session r) as -> by congruence. by rewrite (si_root _ _ _ Hi).
Qed.

(** C5: nothing is recorded or registered without proof: after a handshake on any
    connection, whatever was received, either the trust store, its file and the
    registry are as they were, or the recorded peer authenticated its key in
    this handshake and, when an invite code was required, sent an authenticated
    confirmation holding the value derived from the code. *)
Theorem adoption_requires_proof m st fs opts e m' st' fs' out :
  keyed (m_id m) -> runHandshake m st fs opts e = (m', st', fs', out) ->
  (st' = st /\ fs' = fs /\ m_conns m' = m_conns m /\ m_byName m' = m_byName m) \/
  exists r, proved m opts e r /\
    st' = (Observe fs st (he_order e) (he_order' e) (PeerName r) (he_addr e) (PeerKey r) (he_now e) (he_io e)).1.2.
Proof.
  intros Hid. unfold runHandshake. destruct (negotiate _ _ _) as [r rest|err told] eqn:En.
  2:{ intros [= <- <- <- _]. left. destruct err; try done. destruct told; [|done].
      match goal with |- context [emit ?a ?b] => destruct (emit_maps a b) as (-> & -> & _) end. done. }
  destruct (negotiate_authenticated _ _ _ _ _ Hid En) as ((h & msg & Hh & Hini & Ha) & pre & Hpre).
  destruct (authenticated_session _ _ _ Ha) as [Hinv Hsi].
  destruct (decide (0 < len (o_pairing opts))) as [Hp|Hp].
  - destruct (confirmPairing _ _ _ _ _ _) as [[s1 o] [u|err|]] eqn:Hc.
    + intros Hr. right. exists r. split; [|by eapply record_peer_store]. split; [eauto|]. intros _. destruct u.
      destruct (confirm_sound _ _ _ _ _ _ _ _ _ _ Hinv Hc) as (f & pt & Hin & Ht & _ & Hau & Hpc).
      exists f, pt. rewrite Hsi, Hini in Hau. split_and!; try done.
      rewrite Hpre. apply elem_of_app. by right.
    + intros [= <- <- <- _]. left.
      match goal with |- context [emit ?a ?b] => destruct (emit_maps a b) as (-> & -> & _) end. done.
    + intros [= <- <- <- _]. by left.
  - intros Hr. right. exists r. split; [|by eapply record_peer_store]. split; [eauto|done].
Qed.
End admission.

(** ** Duplicate connections *)

(** A connection that finished its handshake is offered to the registry: it is
    kept or closed. *)
Definition offer (m : Manager) (x : nat * conn) : Manager :=
  let '(m1, kept) := register (set_conn m x.1 x.2) x.1 x.2 in
  if kept : bool then m1 else set_conn m1 x.1 (close_conn x.2).

(** A new connection to the peer [fp], before the settle delay is over. *)
Definition racing (fp : bytes) (c : conn) : Prop :=
  c_fp c = fp /\ c_announced c = false /\ c_unanswered c = 0 /\ c_done c = false.

Definition sid (c : conn) : Z := SessionID (c_sess c).

(** The peer's registered connection is a live racing one with this session. *)
Definition current (m : Manager) (fp : bytes) (cid : nat) (c : conn) : Prop :=
  m_conns m !! fp = Some cid /\ m_heap m !! cid = Some c /\ racing fp c.

Lemma register_fresh m cid c : m_conns m !! c_fp c = None ->
  register m cid c = (set_maps m (<[c_fp c := cid]> (m_conns m)) (<[c_name c := cid]> (m_byName m)), true).
Proof. intros Hn. unfold register. by rewrite Hn. Qed.

Lemma offer_first m fp cid c : m_conns m !! fp = None -> racing fp c -> current (offer m (cid, c)) fp cid c.
Proof.
  intros Hn Hr. pose proof Hr as [Hf _]. unfold offer. cbn [fst snd]. subst fp.
  rewrite register_fresh by done. unfold current. cbn [m_conns m_heap set_maps set_conn]. split; [by rewrite lookup_insert_eq|]. split; [by rewrite lookup_insert_eq|done].
Qed.

(** Of two racing connections the one with the smaller session ID stays. *)
Lemma offer_next m fp cid0 c0 cid c : current m fp cid0 c0 -> racing fp c -> cid <> cid0 ->
  exists cid' c', current (offer m (cid, c)) fp cid' c' /\ sid c' = Z.min (sid c0) (sid c) /\ (cid' = cid0 \/ cid' = cid).
Proof.
  intros (Hc & Hh & Hr0) Hr Hne. pose proof Hr0 as (Hf0 & Ha0 & Hu0 & Hd0). pose proof Hr as (Hf & _).
  unfold offer, register. cbn [fst snd]. cbn [set_conn m_conns m_heap]. rewrite Hf, Hc.
  rewrite lookup_insert_ne by done. rewrite Hh, Ha0. cbn [andb]. unfold preferNew. rewrite Hu0.
  rewrite decide_False by lia. case_bool_decide as Hlt; cbn [negb].
  - exists cid, c. split; [|split; [unfold sid in *; lia|by right]].
    unfold current. cbn [m_conns m_heap set_maps set_conn]. split; [by rewrite lookup_insert_eq|].
    split; [rewrite lookup_insert_ne by done; by rewrite lookup_insert_eq|done].
  - exists cid0, c0. split; [|split; [unfold sid in *; lia|by left]].
    unfold current. cbn [m_conns m_heap set_maps set_conn].
    split; [done|]. split; [|done]. by rewrite !lookup_insert_ne.
Qed.

Lemma offers_converge l : forall m fp cid0 c0, current m fp cid0 c0 -> NoDup (cid0 :: l.*1) ->
  Forall (fun x => racing fp x.2) l ->
  exists cid c, current (foldl offer m l) fp cid c /\
    sid c ∈ sid c0 :: (sid <$> l.*2) /\ Forall (fun z => sid c <= z) (sid c0 :: (sid <$> l.*2)).
Proof.
  induction l as [|[cid1 c1] l IH]; intros m fp cid0 c0 Hc Hnd Hr.
  { exists cid0, c0. cbn. split; [done|]. split; [by left|]. constructor; [lia|constructor]. }
  apply Forall_cons_iff in Hr as [Hr1 Hr]. cbn in Hnd. apply NoDup_cons in Hnd as [Hn0 Hnd].
  apply not_elem_of_cons in Hn0 as [Hne Hn0].
  destruct (offer_next m fp cid0 c0 cid1 c1 Hc Hr1 ltac:(done)) as (cid' & c' & Hc' & Hs & Hcid).
  destruct (IH (offer m (cid1, c1)) fp cid' c' Hc') as (cid & c & Hcur & Hin & Hle); [|done|].
  { apply NoDup_cons in Hnd as [? ?]. apply NoDup_cons. split; [|done]. by destruct Hcid as [->| ->]. }
  exists cid, c. split; [done|]. rewrite Hs in *. cbn [fmap list_fmap snd fst] in *.
  apply Forall_cons_iff in Hle as [Hmin Hle]. split.
  - apply elem_of_cons in Hin as [Hin|Hin].
    + destruct (Z.min_spec (sid c0) (sid c1)) as [[_ E]|[_ E]]; rewrite Hin, E; [left|right; left].
    + right. right. done.
  - constructor; [lia|]. constructor; [lia|done].
Qed.

(** Offer a list of candidates to a manager with no connection to the peer. *)
Lemma offers_min m fp x l : m_conns m !! fp = None -> NoDup ((x :: l).*1) ->
  Forall (fun x => racing fp x.2) (x :: l) ->
  exists cid c, current (foldl offer m (x :: l)) fp cid c /\
    sid c ∈ sid <$> (x :: l).*2 /\ Forall (fun z => sid c <= z) (sid <$> (x :: l).*2).
Proof.
  destruct x as [cid0 c0]. intros Hn Hnd Hr. apply Forall_cons_iff in Hr as [Hr0 Hr]. cbn [foldl].
  by apply (offers_converge l (offer m (cid0, c0)) fp cid0 c0); [apply offer_first|..].
Qed.

(** Racing paths converge without negotiation: when the two ends of a pair of
    peers finish the same set of connections (the same session IDs), each in an
    order of its own, both keep one of them, and it is the same one. *)
Theorem duplicates_converge m1 fp1 l1 m2 fp2 l2 :
  m_conns m1 !! fp1 = None -> m_conns m2 !! fp2 = None -> l1 <> [] ->
  NoDup l1.*1 -> NoDup l2.*1 ->
  Forall (fun x => racing fp1 x.2) l1 -> Forall (fun x => racing fp2 x.2) l2 ->
  sid <$> l1.*2 ≡ₚ sid <$> l2.*2 ->
  exists cid1 c1 cid2 c2,
    current (foldl offer m1 l1) fp1 cid1 c1 /\ current (foldl offer m2 l2) fp2 cid2 c2 /\ sid c1 = sid c2.
Proof.
  intros H1 H2 Hne N1 N2 R1 R2 Hp. destruct l1 as [|x1 l1]; [done|].
  destruct l2 as [|x2 l2]; [by apply Permutation_nil_r in Hp|].
  destruct (offers_min m1 fp1 x1 l1 H1 N1 R1) as (i1 & c1 & C1 & I1 & L1).
  destruct (offers_min m2 fp2 x2 l2 H2 N2 R2) as (i2 & c2 & C2 & I2 & L2).
  exists i1, c1, i2, c2. split; [done|]. split; [done|].
  rewrite Hp in I1. rewrite <- Hp in I2. rewrite Forall_forall in L1, L2.
  apply Z.le_antisymm; [apply L1|apply L2]; done.
Qed.

(** ** The registry *)

(** Every registered connection is open and filed under its own peer. *)
Definition registry_ok (m : Manager) : Prop :=
  map_Forall (fun fp cid => exists c, m_heap m !! cid = Some c /\ c_fp c = fp /\ c_done c = false) (m_conns m).

(** Two versions of a connection that differ only in what the loops change. *)
Definition same_peer (c c' : conn) : Prop :=
  c_fp c' = c_fp c /\ c_name c' = c_name c /\ c_done c' = c_done c.

Lemma update_ok m cid c c' : registry_ok m -> m_heap m !! cid = Some c -> same_peer c c' ->
  registry_ok (set_conn m cid c').
Proof.
  intros Hi Hc (Hf & _ & Hd) fp k Hk. cbn in Hk |- *. destruct (Hi _ _ Hk) as (c1 & H1 & H2 & H3).
  destruct (decide (cid = k)) as [->|Hne].
  - exists c'. rewrite lookup_insert_eq. split; [done|]. split; congruence.
  - exists c1. by rewrite lookup_insert_ne.
Qed.

Lemma emit_ok m ev : registry_ok m -> registry_ok (emit m ev).
Proof. unfold registry_ok. destruct (emit_maps m ev) as (-> & _ & ->). done. Qed.

Lemma drop_ok m cid : registry_ok m -> registry_ok (dropConn m cid).
Proof.
  intros Hi. unfold dropConn. destruct (m_heap m !! cid) as [c|] eqn:Hc; [|done].
  destruct (c_done c) eqn:Hd; [done|].
  assert (Hu : registry_ok (unregister (set_conn m cid (close_conn c)) cid c)).
  { unfold unregister. cbn [set_conn m_conns m_byName]. case_decide as He.
    - intros fp k Hk. cbn in Hk |- *. apply lookup_delete_Some in Hk as [Hne Hk].
      destruct (Hi _ _ Hk) as (c1 & H1 & H2 & H3). exists c1.
      rewrite lookup_insert_ne; [done|]. intros ->. congruence.
    - intros fp k Hk. cbn in Hk |- *. destruct (Hi _ _ Hk) as (c1 & H1 & H2 & H3). exists c1.
      rewrite lookup_insert_ne; [done|]. intros ->. apply He. congruence. }
  destruct (c_announced c); [by apply emit_ok|done].
Qed.

Lemma offer_ok m cid c : registry_ok m -> m_heap m !! cid = None -> c_done c = false -> registry_ok (offer m (cid, c)).
Proof.
  intros Hi Hn Hd. unfold offer, register. cbn [fst snd set_conn m_conns m_heap].
  assert (Hkeep : forall fp k, m_conns m !! fp = Some k -> exists c1, m_heap m !! k = Some c1 /\
    c_fp c1 = fp /\ c_done c1 = false /\ k <> cid).
  { intros fp k Hk. destruct (Hi _ _ Hk) as (c1 & H1 & H2 & H3). exists c1. split_and!; try done. congruence. }
  assert (Hrej : registry_ok (set_conn (set_conn m cid c) cid (close_conn c))).
  { intros fp k Hk. cbn in Hk |- *. destruct (Hkeep _ _ Hk) as (c1 & H1 & H2 & H3 & H4). exists c1.
    by rewrite !lookup_insert_ne. }
  assert (Hnew : forall h : gmap nat conn, h !! cid = Some c ->
    (forall fp k, m_conns m !! fp = Some k -> fp <> c_fp c -> h !! k = m_heap m !! k) ->
    map_Forall (fun fp k => exists c1, h !! k = Some c1 /\ c_fp c1 = fp /\ c_done c1 = false)
      (<[c_fp c := cid]> (m_conns m))).
  { intros h Hh Ho fp k Hk. apply lookup_insert_Some in Hk as [[<- <-]|[Hne Hk]]; [by exists c|].
    destruct (Hkeep _ _ Hk) as (c1 & H1 & H2 & H3 & _). exists c1. by rewrite (Ho fp) by congruence. }
  destruct (m_conns m !! c_fp c) as [o|] eqn:Eo.
  - destruct (Hkeep _ _ Eo) as (co & Hco & Hfo & _ & Hno). rewrite lookup_insert_ne, Hco by done.
    destruct (c_announced co && _); [done|]. destruct (negb _); [done|].
    apply Hnew; cbn [set_maps set_conn m_heap].
    + rewrite lookup_insert_ne by done. by rewrite lookup_insert_eq.
    + intros fp k Hk Hne. destruct (Hkeep _ _ Hk) as (c1 & H1 & H2 & _ & H4).
      rewrite !lookup_insert_ne; [done|done|]. intros ->. congruence.
  - apply Hnew; cbn [set_maps set_conn m_heap]; [by rewrite lookup_insert_eq|].
    intros fp k Hk Hne. destruct (Hkeep _ _ Hk) as (c1 & H1 & H2 & _ & H4). by rewrite lookup_insert_ne.
Qed.

(** Conversely, every open connection is the registered one of its peer. *)
Definition live_registered (m : Manager) : Prop :=
  map_Forall (fun cid c => c_done c = false -> m_conns m !! c_fp c = Some cid) (m_heap m).

Lemma emit_live m ev : live_registered m -> live_registered (emit m ev).
Proof. unfold live_registered. destruct (emit_maps m ev) as (-> & _ & ->). done. Qed.

(** A connection may be updated, or closed and left registered for now. *)
Lemma set_conn_live m cid c c' : live_registered m -> m_heap m !! cid = Some c -> c_fp c' = c_fp c ->
  (c_done c' = false -> c_done c = false) -> live_registered (set_conn m cid c').
Proof.
  intros Hi Hc Hf Hd k ck Hk Hdk. cbn in Hk |- *. apply lookup_insert_Some in Hk as [[<- <-]|[_ Hk]].
  - rewrite Hf. eapply Hi; eauto.
  - by eapply Hi.
Qed.

Lemma update_live m cid c c' : live_registered m -> m_heap m !! cid = Some c -> same_peer c c' ->
  live_registered (set_conn m cid c').
Proof. intros Hi Hc (Hf & _ & Hd). apply (set_conn_live m cid c); [done|done|done|by rewrite Hd]. Qed.

Lemma close_conn_done c : c_done (close_conn c) = true.
Proof. unfold close_conn. destruct (c_done c) eqn:E; done. Qed.

Lemma close_conn_fp c : c_fp (close_conn c) = c_fp c.
Proof. unfold close_conn. by destruct (c_done c). Qed.

Lemma drop_live m cid : live_registered m -> live_registered (dropConn m cid).
Proof.
  intros Hi. unfold dropConn. destruct (m_heap m !! cid) as [c|] eqn:Hc; [|done].
  destruct (c_done c) eqn:Hd; [done|].
  assert (Hu : live_registered (unregister (set_conn m cid (close_conn c)) cid c)).
  { assert (H1 : live_registered (set_conn m cid (close_conn c))).
    { apply (set_conn_live m cid c); [done|done|apply close_conn_fp|by rewrite close_conn_done]. }
    unfold unregister. case_decide as He; [|done]. intros k ck Hk Hdk. cbn in Hk.
    apply lookup_insert_Some in Hk as [[<- <-]|[Hne Hk]]; [by rewrite close_conn_done in Hdk|]. cbn.
    pose proof (Hi k ck Hk Hdk) as Hr. rewrite lookup_delete_ne; [done|]. intros E. cbn in He. congruence. }
  destruct (c_announced c); [by apply emit_live|done].
Qed.

Lemma offer_live m cid c : live_registered m -> m_heap m !! cid = None -> c_done c = false ->
  registry_ok m -> live_registered (offer m (cid, c)).
Proof.
  intros Hi Hn Hd Hok. unfold offer, register. cbn [fst snd set_conn m_conns m_heap].
  assert (Hrej : live_registered (set_conn (set_conn m cid c) cid (close_conn c))).
  { intros k ck Hk Hdk. cbn in Hk |- *. rewrite insert_insert_eq in Hk.
    apply lookup_insert_Some in Hk as [[<- <-]|[_ Hk]]; [by rewrite close_conn_done in Hdk|by eapply Hi]. }
  assert (Hnew : forall h : gmap nat conn, h !! cid = Some c ->
    (forall k ck, h !! k = Some ck -> c_done ck = false -> k <> cid ->
       m_conns m !! c_fp ck = Some k /\ c_fp ck <> c_fp c) ->
    map_Forall (fun k ck => c_done ck = false -> <[c_fp c := cid]> (m_conns m) !! c_fp ck = Some k) h).
  { intros h Hh Ho k ck Hk Hdk. destruct (decide (k = cid)) as [->|Hne].
    - assert (ck = c) as -> by congruence. by rewrite lookup_insert_eq.
    - destruct (Ho k ck Hk Hdk Hne) as [Hr Hf]. by rewrite lookup_insert_ne. }
  destruct (m_conns m !! c_fp c) as [o|] eqn:Eo.
  - destruct (Hok _ _ Eo) as (co & Hco & Hfo & _). assert (Hno : o <> cid) by congruence.
    rewrite lookup_insert_ne, Hco by done.
    destruct (c_announced co && _); [done|]. destruct (negb _); [done|]. apply Hnew; cbn [set_maps set_conn m_heap].
    + rewrite lookup_insert_ne by done. by rewrite lookup_insert_eq.
    + intros k ck Hk Hdk Hne. cbn in Hk.
      apply lookup_insert_Some in Hk as [[_ <-]|[Hok' Hk]]; [by rewrite close_conn_done in Hdk|].
      rewrite lookup_insert_ne in Hk by done. pose proof (Hi k ck Hk Hdk) as Hr. split; [done|]. intros E. rewrite E in Hr. congruence.
  - apply Hnew; [cbn; by rewrite lookup_insert_eq|]. intros k ck Hk Hdk Hne. cbn in Hk.
    rewrite lookup_insert_ne in Hk by done. pose proof (Hi k ck Hk Hdk) as Hr. split; [done|]. intros E. rewrite E in Hr. congruence.
Qed.

(** The registry and the open connections are the same thing. *)
Definition registry_exact (m : Manager) : Prop := registry_ok m /\ live_registered m.

Lemma emit_exact m ev : registry_exact m -> registry_exact (emit m ev).
Proof. intros []. split; [by apply emit_ok|by apply emit_live]. Qed.
Lemma update_exact m cid c c' : registry_exact m -> m_heap m !! cid = Some c -> same_peer c c' ->
  registry_exact (set_conn m cid c').
Proof. intros [] ??. split; [by apply (update_ok m cid c)|by apply (update_live m cid c)]. Qed.
Lemma drop_exact m cid : registry_exact m -> registry_exact (dropConn m cid).
Proof. intros []. split; [by apply drop_ok|by apply drop_live]. Qed.
Lemma offer_exact m cid c : registry_exact m -> m_heap m !! cid = None -> c_done c = false ->
  registry_exact (offer m (cid, c)).
Proof. intros [] ??. split; [by apply offer_ok|by apply offer_live]. Qed.

Section registry.
Context `{CryptoOps}.

(** The operations on connections that interleave in a running manager. *)
Inductive mstep : Manager -> Manager -> Prop :=
| ms_offer m cid c : m_heap m !! cid = None -> c_done c = false -> mstep m (offer m (cid, c))
| ms_announce m cid : mstep m (announce m cid)
| ms_read m cid buf rng : mstep m (readFrame m cid buf rng).1
| ms_keepalive m cid rng : mstep m (keepaliveTick m cid rng).1
| ms_write m cid sent : mstep m (writeTurn m cid sent).1
| ms_send m name text rng : mstep m (Send m name text rng).1
| ms_enqueue m cid t p rng : mstep m (enqueue m cid t p rng).1
| ms_drop m cid : mstep m (dropConn m cid)
| ms_disconnect m name rng : mstep m (Disconnect m name rng).1
| ms_emit m ev : mstep m (emit m ev).

Inductive msteps : Manager -> Manager -> Prop :=
| msteps_refl m : msteps m m
| msteps_step m1 m2 m3 : mstep m1 m2 -> msteps m2 m3 -> msteps m1 m3.

Lemma msteps_one m m' : mstep m m' -> msteps m m'.
Proof. intros Hs. econstructor; [exact Hs|constructor]. Qed.

Lemma msteps_trans m1 m2 m3 : msteps m1 m2 -> msteps m2 m3 -> msteps m1 m3.
Proof. induction 1; [done|]. intros. econstructor; eauto. Qed.

(** Everything a step does is made of four effects: an event, an update of one
    connection by its loops, a drop, a new connection.  What those four keep,
    every step keeps. *)
Section preserved.
Context (P : Manager -> Prop).
Hypothesis P_emit : forall m ev, P m -> P (emit m ev).
Hypothesis P_update : forall m cid c c', P m -> m_heap m !! cid = Some c -> same_peer c c' -> P (set_conn m cid c').
Hypothesis P_drop : forall m cid, P m -> P (dropConn m cid).
Hypothesis P_offer : forall m cid c, P m -> m_heap m !! cid = None -> c_done c = false -> P (offer m (cid, c)).

Lemma enqueue_keeps m cid t p rng : P m -> P (enqueue m cid t p rng).1.
Proof.
  intros Hi. unfold enqueue. destruct (m_heap m !! cid) as [c|] eqn:Hc; [|done].
  destruct (Seal _ _ _ _) as [s [buf|e|]]; [repeat case_decide; [|destruct (c_done c)]|..];
    by apply (P_update m cid c).
Qed.

Lemma read_keeps m cid buf rng : P m -> P (readFrame m cid buf rng).1.
Proof.
  intros Hi. unfold readFrame. destruct (m_heap m !! cid) as [c|] eqn:Hc; [|done].
  destruct (Open (c_sess c) buf) as [s r].
  assert (H1 : P (set_conn m cid (set_sess c s))) by (by apply (P_update m cid c)).
  destruct r as [[t pt]|e|]; [|destruct e; done|done].
  destruct (decide (t = TypeChat)); [destruct (DecodeChat pt); [by apply P_emit|done|done]|].
  destruct (decide (t = TypePing)); [by apply enqueue_keeps|].
  destruct (decide (t = TypePong)); [|by destruct (decide (t = TypeClose))].
  apply (P_update (set_conn m cid (set_sess c s)) cid (set_sess c s)); [done|by apply lookup_insert_eq|done].
Qed.

Lemma tick_keeps m cid rng : P m -> P (keepaliveTick m cid rng).1.
Proof.
  intros Hi. unfold keepaliveTick. destruct (m_heap m !! cid) as [c|] eqn:Hc; [|done].
  destruct (c_done c) eqn:Hd; [done|].
  set (m1 := set_conn m cid _). assert (H1 : P m1) by (by apply (P_update m cid c)).
  case_decide; [by apply P_drop|]. pose proof (enqueue_keeps m1 cid TypePing [] rng H1) as H2.
  destruct (enqueue m1 cid TypePing [] rng) as [m2 [u|e|]]; [done|by apply P_drop|by apply P_drop].
Qed.

Lemma write_keeps m cid sent : P m -> P (writeTurn m cid sent).1.
Proof.
  intros Hi. unfold writeTurn. destruct (m_heap m !! cid) as [c|] eqn:Hc; [|done]. destruct (c_done c) eqn:Hd; [done|].
  destruct (c_queue c) as [|b q]; [done|].
  assert (H1 : P (set_conn m cid (set_queue c q))) by (by apply (P_update m cid c)).
  destruct sent; [done|by apply P_drop].
Qed.

Lemma mstep_keeps m m' : mstep m m' -> P m -> P m'.
Proof.
  intros Hs Hi. destruct Hs.
  - by apply P_offer.
  - unfold announce. destruct (m_heap m !! cid) as [c|] eqn:Hc; [|done]. destruct (c_done c) eqn:Hd; [done|].
    case_decide; [|done]. destruct (c_announced c); [done|]. apply P_emit. by apply (P_update m cid c).
  - by apply read_keeps.
  - by apply tick_keeps.
  - by apply write_keeps.
  - unfold Send. destruct (m_byName m !! name); [by apply enqueue_keeps|done].
  - by apply enqueue_keeps.
  - by apply P_drop.
  - unfold Disconnect. destruct (m_byName m !! name); [by apply P_drop, enqueue_keeps|done].
  - by apply P_emit.
Qed.

Lemma msteps_keep m m' : msteps m m' -> P m -> P m'.
Proof. induction 1 as [|m1 m2 m3 Hs _ IH]; [done|]. intros Hm. by apply IH, (mstep_keeps _ _ Hs). Qed.
End preserved.

Lemma msteps_exact m m' : msteps m m' -> registry_exact m -> registry_exact m'.
Proof. apply msteps_keep; [apply emit_exact|apply update_exact|apply drop_exact|apply offer_exact]. Qed.

Lemma enqueue_heap m cid t p rng c : m_heap m !! cid = Some c -> exists c',
  m_heap (enqueue m cid t p rng).1 !! cid = Some c' /\ same_peer c c' /\
  c_unanswered c' = c_unanswered c /\ m_conns (enqueue m cid t p rng).1 = m_conns m.
Proof.
  intros Hc. unfold enqueue. rewrite Hc.
  destruct (Seal _ _ _ _) as [s [buf|e|]]; [case_decide; [|destruct (c_done c)]|..];
    (eexists; cbn [set_conn m_heap m_conns fst]; rewrite lookup_insert_eq; split; [done|done]).
Qed.

End registry.

(** ** Keepalive *)
Section keepalive.
Context `{CryptoOps}.

(** The keepalive loop for a list of ticks (the randomness of each ping). *)
Fixpoint ticks (m : Manager) (cid : nat) (rngs : list bytes) : Manager :=
  match rngs with
  | [] => m
  | r :: rest => let '(m1, go) := keepaliveTick m cid r in if go : bool then ticks m1 cid rest else m1
  end.

Definition gone (m : Manager) (fp : bytes) (cid : nat) : Prop :=
  m_conns m !! fp <> Some cid /\ exists c, m_heap m !! cid = Some c /\ c_done c = true.

Lemma drop_gone m cid c : m_heap m !! cid = Some c -> c_done c = false -> gone (dropConn m cid) (c_fp c) cid.
Proof.
  intros Hc Hd. unfold dropConn. rewrite Hc, Hd.
  set (m1 := unregister _ _ _). assert (Hg : gone m1 (c_fp c) cid).
  { subst m1. unfold unregister, close_conn. rewrite Hd. cbn [set_conn m_conns m_byName]. case_decide as He.
    - split; cbn; [by rewrite lookup_delete_eq|]. eexists. by rewrite lookup_insert_eq.
    - split; cbn; [done|]. eexists. by rewrite lookup_insert_eq. }
  destruct (c_announced c); [|done]. unfold gone.
  match goal with |- context [emit ?a ?b] => destruct (emit_maps a b) as (-> & _ & ->) end. done.
Qed.

Lemma ticks_gone rngs : forall m cid c, m_heap m !! cid = Some c -> c_done c = false ->
  keepaliveMisses < c_unanswered c + Z.of_nat (length rngs) -> gone (ticks m cid rngs) (c_fp c) cid \/
  (c_unanswered c > keepaliveMisses /\ rngs = []).
Proof.
  induction rngs as [|r rest IH]; intros m cid c Hc Hd Hn.
  { right. cbn in Hn. split; [lia|done]. }
  left. cbn [ticks]. unfold keepaliveTick. rewrite Hc, Hd.
  set (c1 := set_unanswered c (c_unanswered c + 1)). set (m1 := set_conn m cid c1).
  assert (H1 : m_heap m1 !! cid = Some c1) by apply lookup_insert_eq.
  case_decide as Hk; [by apply (drop_gone m1 cid c1)|].
  destruct (enqueue_heap m1 cid TypePing [] r c1 H1) as (c2 & H2 & (Hf & _ & Hd2) & Hu & _).
  destruct (enqueue m1 cid TypePing [] r) as [m2 [u|e|]]; cbn [fst] in *.
  - destruct (IH m2 cid c2 H2) as [Hg|[Hg _]].
    + by rewrite Hd2.
    + rewrite Hu. cbn. cbn [length] in Hn. lia.
    + by rewrite Hf in Hg.
    + rewrite Hu in Hg. cbn in Hg. lia.
  - pose proof (drop_gone m2 cid c2 H2) as Hg. rewrite Hf in Hg. apply Hg. by rewrite Hd2.
  - pose proof (drop_gone m2 cid c2 H2) as Hg. rewrite Hf in Hg. apply Hg. by rewrite Hd2.
Qed.

(** A black-holed connection does not linger: four keepalive ticks with no
    pong in between close it and take it out of the registry. *)
Theorem keepalive_drops m cid c r1 r2 r3 r4 :
  m_heap m !! cid = Some c -> c_done c = false -> c_unanswered c = 0 ->
  gone (ticks m cid [r1; r2; r3; r4]) (c_fp c) cid.
Proof.
  intros Hc Hd Hu. destruct (ticks_gone [r1; r2; r3; r4] m cid c Hc Hd) as [?|[_ ?]]; [|done|done].
  rewrite Hu. unfold keepaliveMisses. cbn. lia.
Qed.
End keepalive.

(** ** Routing by name *)
Section routing.
Context `{CryptoLaws}.

Lemma enqueue_sends m cid c R A text rng : m_heap m !! cid = Some c -> session_inv (c_sess c) R A ->
  (length (c_queue c) < queueSize)%nat -> len text + 2 <= MaxPlaintext -> NonceSize <= len rng ->
  exists s buf, Seal (c_sess c) TypeChat (encodeChatPayload text) rng = (s, Ok buf) /\
    enqueue m cid TypeChat (encodeChatPayload text) rng =
      (set_conn m cid (set_queue (set_sess c s) (c_queue c ++ [buf])), Ok tt).
Proof.
  intros Hc Hi Hq Ht Hr.
  destruct (seal_spec (c_sess c) R A TypeChat (encodeChatPayload text) rng Hi) as (s & f & _ & _ & Hs & _).
  { unfold encodeChatPayload. rewrite len_app, len_be_put. lia. }
  { done. }
  exists s, (marshalFrame f). split; [done|]. unfold enqueue. rewrite Hc, Hs. by rewrite decide_True.
Qed.

(** A display name routes to whoever registered it last: when another peer
    connects under the name of one that is connected (whatever its trust level),
    the next message to that name is sealed for the newcomer, and the peer the
    user was talking to gets nothing. *)
Theorem newcomer_takes_name m a ca cid c R A text rng :
  m_byName m !! c_name c = Some a -> m_heap m !! a = Some ca -> c_fp ca <> c_fp c ->
  m_heap m !! cid = None -> m_conns m !! c_fp c = None -> racing (c_fp c) c -> c_queue c = [] ->
  session_inv (c_sess c) R A -> len text + 2 <= MaxPlaintext -> NonceSize <= len rng ->
  exists s buf m', Seal (c_sess c) TypeChat (encodeChatPayload text) rng = (s, Ok buf) /\
    Send (offer m (cid, c)) (c_name c) text rng = (m', Ok tt) /\
    m_heap m' !! cid = Some (set_queue (set_sess c s) [buf]) /\ m_heap m' !! a = Some ca.
Proof.
  intros Hb Ha Hne Hfresh Hn Hr Hq Hi Ht Hrng. assert (Hac : a <> cid) by congruence.
  unfold offer. cbn [fst snd]. rewrite register_fresh by done.
  set (m1 := set_maps _ _ _). unfold Send.
  assert (E : m_byName m1 !! c_name c = Some cid) by apply lookup_insert_eq. rewrite E.
  destruct (enqueue_sends m1 cid c R A text rng) as (s & buf & Hs & ->); try done.
  { cbn. by rewrite lookup_insert_eq. } { rewrite Hq. unfold queueSize. cbn. lia. }
  exists s, buf. eexists. split; [done|]. split; [done|]. rewrite Hq. cbn [app set_conn m_heap].
  split; [by rewrite lookup_insert_eq|]. cbn. by rewrite !lookup_insert_ne.
Qed.
End routing.

(** Replacing a connection can strand a name: when a peer reconnects under
    another display name and the new connection replaces the old one, the old
    name keeps pointing to the closed connection, dropping that connection again
    does not remove it, and messages to the name fail as to a closed session. *)
Theorem replaced_name_stranded `{CryptoOps} m o old cid c text rng :
  m_conns m !! c_fp c = Some o -> m_heap m !! o = Some old -> m_heap m !! cid = None ->
  m_byName m !! c_name old = Some o -> c_name c <> c_name old ->
  c_done old = false -> c_announced old = false -> preferNew old c = true ->
  let m' := offer m (cid, c) in
  m_byName m' !! c_name old = Some o /\ dropConn m' o = m' /\
  (Send m' (c_name old) text rng).2 = Err (MeProto ErrSessionClosed).
Proof.
  intros Hc Ho Hfresh Hb Hne Hd Ha Hp m'. assert (Hoc : cid <> o) by congruence.
  assert (Em : m' = set_maps (set_conn (set_conn m cid c) o (close_conn old))
    (<[c_fp c := cid]> (m_conns m)) (<[c_name c := cid]> (m_byName m))).
  { subst m'. unfold offer, register. cbn [fst snd set_conn m_conns m_heap]. rewrite Hc.
    rewrite lookup_insert_ne, Ho by done. rewrite Ha. cbn [andb]. by rewrite Hp. }
  assert (Hname : m_byName m' !! c_name old = Some o).
  { rewrite Em. cbn. by rewrite lookup_insert_ne. }
  assert (Hheap : m_heap m' !! o = Some (close_conn old)).
  { rewrite Em. cbn. by rewrite lookup_insert_eq. }
  split; [done|]. split.
  - unfold dropConn. rewrite Hheap. unfold close_conn. by rewrite Hd.
  - unfold Send. rewrite Hname. unfold enqueue. rewrite Hheap. unfold close_conn. rewrite Hd. done.
Qed.

(** ** Sample runs *)
Module SampleManager.
Import Crypto.Toy ToyId ToyDH ToyPeers.

Definition session_with (n : Z) : Session := mkSession n None None None 0 0 newReplayWindow false true [].

Definition link (fp name : string) (s : Session) : conn :=
  mkConn (str fp) (str name) s TrustUnverified [] [] false PathDirect 0 false.

Definition alice_end : list (nat * conn) :=
  [(0%nat, link "B" "bob" (session_with 5)); (1%nat, link "B" "bob" (session_with 3))].
Definition bob_end : list (nat * conn) :=
  [(7%nat, link "A" "alice" (session_with 3)); (8%nat, link "A" "alice" (session_with 5))].

Definition empty : Manager := NewManager (ident x02 "bob").

Definition handshake_env : hs_env :=
  mkHsEnv (ToyDH.rng x0b) (ToyDH.rng x0c) (ToyDH.rng x0d) [Got first_msg; Got third_msg] true true true
    (str "10.0.0.1:5") 9 order order IoOk.

(** Alice is connected. *)
Definition with_alice : Manager := offer empty (0%nat, link "A" "alice" (Sample.sess true)).
Definition mallory : conn := link "M" "alice" (Sample.sess false).
End SampleManager.
Import Crypto.Toy ToyId ToyDH ToyPeers SampleManager.

Lemma adoption_requires_proof_witness :
  let '(m', st', fs', _) := runHandshake empty store ∅ (mkAdopt false [] []) handshake_env in
  (st' = store /\ fs' = ∅ /\ m_conns m' = m_conns empty /\ m_byName m' = m_byName empty) \/
  exists r, proved empty (mkAdopt false [] []) handshake_env r /\
    st' = (Observe ∅ store order order (PeerName r) (str "10.0.0.1:5") (PeerKey r) 9 IoOk).1.2.
Proof.
  destruct (runHandshake empty store ∅ (mkAdopt false [] []) handshake_env) as [[[m' st'] fs'] out] eqn:E.
  exact (adoption_requires_proof empty store ∅ (mkAdopt false [] []) handshake_env m' st' fs' out
    (ident_keyed x02 "bob") E).
Defined.

Lemma duplicates_converge_witness : exists cid1 c1 cid2 c2,
  current (foldl offer empty alice_end) (str "B") cid1 c1 /\
  current (foldl offer empty bob_end) (str "A") cid2 c2 /\ sid c1 = sid c2.
Proof.
  apply (duplicates_converge empty (str "B") alice_end empty (str "A") bob_end).
  - reflexivity.
  - reflexivity.
  - discriminate.
  - apply (bool_decide_unpack _). vm_compute. exact I.
  - apply (bool_decide_unpack _). vm_compute. exact I.
  - repeat constructor.
  - repeat constructor.
  - apply (Permutation_swap 3 5 []).
Defined.


Lemma keepalive_drops_witness : gone (ticks with_alice 0 [ToyDH.rng x01; ToyDH.rng x02; ToyDH.rng x03; ToyDH.rng x04])
  (str "A") 0.
Proof.
  apply (keepalive_drops with_alice 0 (link "A" "alice" (Sample.sess true))
    (ToyDH.rng x01) (ToyDH.rng x02) (ToyDH.rng x03) (ToyDH.rng x04)); reflexivity.
Defined.

Lemma newcomer_takes_name_witness : exists s buf m',
  Seal (c_sess mallory) TypeChat (encodeChatPayload (str "secret")) (ToyDH.rng x01) = (s, Ok buf) /\
  Send (offer with_alice (1%nat, mallory)) (str "alice") (str "secret") (ToyDH.rng x01) = (m', Ok tt) /\
  m_heap m' !! 1%nat = Some (set_queue (set_sess mallory s) [buf]) /\
  m_heap m' !! 0%nat = Some (link "A" "alice" (Sample.sess true)).
Proof.
  apply (newcomer_takes_name with_alice 0 (link "A" "alice" (Sample.sess true)) 1 mallory
    (root (Sample.sess false)) ∅ (str "secret") (ToyDH.rng x01)).
  - reflexivity.
  - reflexivity.
  - discriminate.
  - reflexivity.
  - reflexivity.
  - repeat constructor.
  - reflexivity.
  - apply (Sample.sess_inv false).
  - vm_compute. discriminate.
  - vm_compute. discriminate.
Defined.

Lemma replaced_name_stranded_witness :
  let m' := offer (offer empty (0%nat, link "A" "alice" (session_with 5))) (1%nat, link "A" "al" (session_with 3)) in
  m_byName m' !! str "alice" = Some 0%nat /\ dropConn m' 0 = m' /\
  (Send m' (str "alice") (str "hi") []).2 = Err (MeProto ErrSessionClosed).
Proof.
  apply (replaced_name_stranded (offer empty (0%nat, link "A" "alice" (session_with 5))) 0
    (link "A" "alice" (session_with 5)) 1 (link "A" "al" (session_with 3)) (str "hi") []);
    reflexivity || discriminate.
Defined.
