(* ===== verification/Adoption.v ===== *)
(** Two nodes, end to end: the handshake, the pairing confirmation, the trust
    store and the registry of [src/internal/session/manager.go] on both sides of
    one connection, and then chat through the two managers ([Send], the write
    loop, the read loop, the event channel). *)
From Stdlib Require Import ZArith Lia.
From Stdlib Require Import Strings.Byte.
From stdpp Require Import base list gmap strings numbers option.
From S2P Require Import Prelude Crypto GoStrings Identity Replay Frame Session SessionProps Pairing Handshake Peers Manager ManagerProps.

Definition with_inbox (e : hs_env) (i : list arrival) : hs_env :=
  mkHsEnv (he_eph e) (he_seal e) (he_confirm e) i (he_sent1 e) (he_sent2 e) (he_sent3 e) (he_addr e) (he_now e)
    (he_order e) (he_order' e) (he_io e).

(** Randomness of the right size, and sends that the transport takes. *)
Record able (e : hs_env) : Prop := {
  ab_eph : 32 <= len (he_eph e);
  ab_seal : NonceSize <= len (he_seal e);
  ab_confirm : NonceSize <= len (he_confirm e);
  ab_sent1 : he_sent1 e = true;
  ab_sent2 : he_sent2 e = true;
  ab_sent3 : he_sent3 e = true
}.

(** ** Chat between two managers *)

(** The chat layer takes every pending event. *)
Definition drained (m : Manager) : Manager :=
  mkManager (m_id m) (m_conns m) (m_byName m) (m_heap m) [] (m_closing m).

Record line := Line { l_from_a : bool; l_text : bytes; l_rng : bytes }.

Definition line_ok (l : line) : Prop := len (l_text l) + 2 <= MaxPlaintext /\ NonceSize <= len (l_rng l).

Section chat.
Context `{CryptoOps}.

(** One message: [s] sends it to the peer it knows as [name], whose connection
    is [cs] there; the write loop hands it to the transport; the read loop of
    the connection [cr] of [r] takes it.  The events it raises at [r]. *)
Definition deliver (s r : Manager) (cs cr : nat) (name : bytes) (l : line) : Manager * Manager * list Event :=
  let '(s1, o) := Send s name (l_text l) (l_rng l) in
  match o with
  | Ok _ =>
      match writeTurn s1 cs true with
      | (s2, Some buf) =>
          let r1 := (readFrame (drained r) cr buf []).1 in (s2, r1, m_events r1)
      | (s2, None) => (s2, r, [])
      end
  | _ => (s1, r, [])
  end.

Fixpoint chat (a b : Manager) (ca cb : nat) (na nb : bytes) (script : list line) : list (list Event) :=
  match script with
  | [] => []
  | l :: rest =>
      if l_from_a l
      then let '(a1, b1, evs) := deliver a b ca cb nb l in evs :: chat a1 b1 ca cb na nb rest
      else let '(b1, a1, evs) := deliver b a cb ca na l in evs :: chat a1 b1 ca cb na nb rest
  end.
End chat.

(** The manager's side of one link: the peer's connection is registered under
    its fingerprint and its name, is open and has nothing queued. *)
Record link_end (m : Manager) (cid : nat) (fp name : bytes) (trust : TrustLevel) (s : Session) : Prop := {
  le_conns : m_conns m !! fp = Some cid;
  le_name : m_byName m !! name = Some cid;
  le_conn : exists addr path u ann, m_heap m !! cid = Some (mkConn fp name s trust addr [] false path u ann)
}.

Section linked.
Context `{CryptoLaws}.

Lemma deliver_ok R n s r cs cr fps ns ts ss fpr nr tr sr l : 0 <= n -> lockstep R (n + 1) ss sr ->
  link_end s cs fps ns ts ss -> link_end r cr fpr nr tr sr -> line_ok l ->
  exists s' r' ss' sr', deliver s r cs cr ns l =
      (s', r', [mkEvent EventMessage nr fpr (Text (l_text l)) tr []]) /\
    lockstep R n ss' sr' /\ link_end s' cs fps ns ts ss' /\ link_end r' cr fpr nr tr sr'.
Proof.
  intros Hn Hl [Sc Sn (addr & path & u & ann & Sh)] [Rc Rn (addr' & path' & u' & ann' & Rh)] [Ht Hr].
  destruct (lockstep_transmit R n ss sr (Item true TypeChat (encodeChatPayload (l_text l)) (l_rng l)))
    as (ss' & sr' & Hx & Hl'); [done|done| |].
  { split; [done|]. cbn. unfold encodeChatPayload. rewrite len_app, len_be_put. split; [lia|done]. }
  unfold transmit in Hx. cbn [it_typ it_pt it_rng] in Hx.
  destruct (Seal ss TypeChat (encodeChatPayload (l_text l)) (l_rng l)) as [s1 [buf| |]] eqn:Hs; try done.
  destruct (Open sr buf) as [s2 o] eqn:Ho. simplify_eq.
  unfold deliver, Send. rewrite Sn. unfold enqueue. rewrite Sh. cbn [c_sess c_queue]. rewrite Hs.
  rewrite decide_True by (cbn; unfold queueSize; lia).
  unfold writeTurn. cbn [set_conn m_heap]. rewrite lookup_insert_eq. cbn [set_queue set_sess c_done c_queue app].
  unfold readFrame. cbn [drained m_heap]. rewrite Rh. cbn [c_sess]. rewrite Ho.
  rewrite decide_True by done. unfold DecodeChat.
  rewrite decodeChat_encode_aux by (unfold MaxPlaintext in Ht; lia). cbn [fst].
  unfold emit. cbn [set_conn drained m_events]. rewrite decide_True by (cbn; unfold eventQueue; lia).
  eexists _, _, ss', sr'. split; [reflexivity|]. split; [done|].
  split; (split; [done|done|]); do 4 eexists; cbn; rewrite lookup_insert_eq; done.
Qed.

(** What the receiving side is shown of a line. *)
Definition shown (fpa na : bytes) (ta : TrustLevel) (fpb nb : bytes) (tb : TrustLevel) (l : line) : list Event :=
  [if l_from_a l then mkEvent EventMessage na fpa (Text (l_text l)) ta []
   else mkEvent EventMessage nb fpb (Text (l_text l)) tb []].

Lemma chat_ok script : forall R a b ca cb fpa na ta fpb nb tb sa sb,
  lockstep R (len script) sa sb -> link_end a ca fpb nb tb sa -> link_end b cb fpa na ta sb ->
  Forall line_ok script ->
  chat a b ca cb na nb script = shown fpa na ta fpb nb tb <$> script.
Proof.
  induction script as [|l rest IH]; intros R a b ca cb fpa na ta fpb nb tb sa sb Hl La Lb Hok; [done|].
  apply Forall_cons_iff in Hok as [Hi Hok]. rewrite len_cons in Hl. pose proof (len_nonneg rest).
  cbn [chat]. unfold shown at 1. cbn [fmap list_fmap]. destruct (l_from_a l).
  - destruct (deliver_ok R (len rest) a b ca cb fpb nb tb sa fpa na ta sb l) as
      (a' & b' & sa' & sb' & -> & Hl' & La' & Lb'); try done. f_equal. by eapply IH.
  - apply lockstep_sym in Hl.
    destruct (deliver_ok R (len rest) b a cb ca fpa na ta sb fpb nb tb sa l) as
      (b' & a' & sb' & sa' & -> & Hl' & Lb' & La'); try done. f_equal.
    eapply IH; [by apply lockstep_sym|done|done|done].
Qed.
End linked.

(** ** Adopting a connection on both sides *)
Section adoption.
Context `{CryptoLaws, SignatureLaws, DHLaws, PeersJSON}.

(** Everything one side receives is what the other side sends. *)
Definition wired (a b : Identity) (oa ob : AdoptOptions) (ea eb : hs_env) (ia ib : list arrival) : Prop :=
  ia = Got <$> outbox b ob (with_inbox eb ib) /\ ib = Got <$> outbox a oa (with_inbox ea ia).

(** The trust store can record the peer. *)
Definition recordable (st : Store) (fs : gmap bytes bytes) (e : hs_env) (peer : Identity) : Prop :=
  (Observe fs st (he_order e) (he_order' e) (Name peer) (he_addr e) (pub peer) (he_now e) (he_io e)).2.2 = Ok tt.

Lemma initiator_runs a e ha ha1 m1 m2 m3 r : able e -> NewHandshaker a true (he_eph e) = Ok ha ->
  InitMessage ha = Ok m1 -> HandleMessage ha m2 (he_seal e) = (ha1, Ok (Some m3, Some r)) ->
  (forall i, exists l, hs_sends a true (with_inbox e i) = m1 :: l) /\
  forall rest, hs_sends a true (with_inbox e (Got m2 :: rest)) = [m1; m3] /\
    negotiate a true (with_inbox e (Got m2 :: rest)) = Established r rest.
Proof.
  intros [_ _ _ S1 S2 _] Hn Hi Hm. unfold hs_sends, negotiate. cbn [with_inbox he_eph he_sent1 he_sent2 he_seal he_inbox].
  rewrite Hn, Hi, S1, S2. split; [eauto|]. intros rest. cbn [recv_msg]. by rewrite Hm.
Qed.

Lemma responder_runs b e hb hb1 hb2 m1 m2 m3 r : able e -> NewHandshaker b false (he_eph e) = Ok hb ->
  HandleMessage hb m1 (he_seal e) = (hb1, Ok (Some m2, None)) ->
  HandleMessage hb1 m3 (he_seal e) = (hb2, Ok (None, Some r)) ->
  (forall rest, hs_sends b false (with_inbox e (Got m1 :: rest)) = [m2]) /\
  forall rest, negotiate b false (with_inbox e (Got m1 :: Got m3 :: rest)) = Established r rest.
Proof.
  intros [_ _ _ S1 _ _] Hn E1 E2. unfold hs_sends, negotiate. cbn [with_inbox he_eph he_sent1 he_seal he_inbox].
  rewrite Hn, S1. split; intros rest; cbn [recv_msg]; rewrite E1; [done|]. cbn. by rewrite E2.
Qed.

(** The confirmation stage between the two sessions of one agreement: what each
    side sends does not depend on what it receives, and each goes on to record
    the other with sessions that are still in lockstep. *)
Lemma confirm_stage shared t ra rb oa ob ea eb n :
  newSession shared t true = Ok (hr_session ra) -> newSession shared t false = Ok (hr_session rb) ->
  Transcript ra = t -> Transcript rb = t -> len t = 32 -> able ea -> able eb ->
  o_pairing oa = o_pairing ob -> n + 1 < 2 ^ 64 ->
  exists ca cb sa sb R,
    (forall i rest, confirm_sends oa (with_inbox ea i) ra rest = ca) /\
    (forall i rest, confirm_sends ob (with_inbox eb i) rb rest = cb) /\
    (forall m st fs i, negotiate (m_id m) (o_initiator oa) (with_inbox ea i) = Established ra (Got <$> cb) ->
       runHandshake m st fs oa (with_inbox ea i) = record_peer m st fs oa (with_inbox ea i) ra sa) /\
    (forall m st fs i, negotiate (m_id m) (o_initiator ob) (with_inbox eb i) = Established rb (Got <$> ca) ->
       runHandshake m st fs ob (with_inbox eb i) = record_peer m st fs ob (with_inbox eb i) rb sb) /\
    lockstep R n sa sb.
Proof.
  intros SA SB Ta Tb Lt Aa Ab Hk Hn. unfold confirm_sends, runHandshake. rewrite Ta, Tb, <- Hk.
  cbn [with_inbox he_confirm he_sent3]. rewrite (ab_sent3 _ Aa), (ab_sent3 _ Ab).
  destruct (decide (0 < len (o_pairing oa))) as [Hp|Hp].
  - destruct (confirm_crossing shared t (hr_session ra) (hr_session rb) (o_pairing oa) t (he_confirm ea)
      (he_confirm eb) n SA SB) as (sa & sb & outa & outb & R & Fa & Fb & Ca & Cb & Hl);
      [lia|lia|apply Aa|apply Ab|done|].
    exists [outa], [outb], sa, sb, R. split_and!; try done.
    + intros _ rest. destruct (Fa rest) as (? & ? & ->). done.
    + intros _ rest. destruct (Fb rest) as (? & ? & ->). done.
    + intros m st fs i ->. rewrite Ta. cbn [fmap list_fmap]. by rewrite Ca.
    + intros m st fs i ->. rewrite Tb. cbn [fmap list_fmap]. by rewrite Cb.
  - destruct (lockstep_new _ _ _ _ n SA SB) as [R Hl]; [lia|].
    exists [], [], (hr_session ra), (hr_session rb), R. split_and!; try done.
    + intros m st fs i ->. done.
    + intros m st fs i ->. done.
Qed.

(** Recording a peer that is not connected registers its connection. *)
Lemma record_links m st fs opts e r s : m_conns m !! PeerFingerprint r = None ->
  (Observe fs st (he_order e) (he_order' e) (PeerName r) (he_addr e) (PeerKey r) (he_now e) (he_io e)).2.2 = Ok tt ->
  exists m' st' fs' cid trust, record_peer m st fs opts e r s = (m', st', fs', Ok tt) /\ cid = new_conn m /\
    link_end m' cid (PeerFingerprint r) (PeerName r) trust s.
Proof.
  intros Hn Ho. unfold record_peer.
  destruct (Observe fs st (he_order e) (he_order' e) (PeerName r) (he_addr e) (PeerKey r) (he_now e) (he_io e))
    as [[fs' st'] [[p t] o]]. cbn in Ho. subst o.
  set (m1 := if decide (t = TrustChanged) then _ else m).
  assert (Hm1 : m_conns m1 = m_conns m /\ m_heap m1 = m_heap m).
  { subst m1. destruct (decide (t = TrustChanged)); [|done]. split; apply emit_maps. }
  destruct Hm1 as [Hm1 Hh1].
  rewrite register_fresh by (cbn; by rewrite Hm1).
  eexists _, st', fs', (new_conn m1), t. split; [reflexivity|]. split; [unfold new_conn; by rewrite Hh1|].
  split; cbn; try by rewrite lookup_insert_eq. do 4 eexists. by rewrite lookup_insert_eq.
Qed.

(** The messages of a wired exchange: there is exactly one, and both sides reach
    the record of the other. *)
Lemma wired_exchange a b oa ob ea eb n :
  keyed a -> keyed b -> nameable a -> nameable b -> pub a <> pub b -> able ea -> able eb ->
  o_initiator oa = true -> o_initiator ob = false -> o_pairing oa = o_pairing ob -> n + 1 < 2 ^ 64 ->
  exists ia ib ra rb sa sb R, (forall x y, wired a b oa ob ea eb x y <-> x = ia /\ y = ib) /\
    (forall m st fs, m_id m = a ->
       runHandshake m st fs oa (with_inbox ea ia) = record_peer m st fs oa (with_inbox ea ia) ra sa) /\
    (forall m st fs, m_id m = b ->
       runHandshake m st fs ob (with_inbox eb ib) = record_peer m st fs ob (with_inbox eb ib) rb sb) /\
    PeerName ra = Name b /\ PeerKey ra = pub b /\ PeerFingerprint ra = Fingerprint b /\
    PeerName rb = Name a /\ PeerKey rb = pub a /\ PeerFingerprint rb = Fingerprint a /\ lockstep R n sa sb.
Proof.
  intros Ka Kb Na Nb Hne Aa Ab Ia Ib Hk Hn.
  destruct (honest_exchange a b (he_eph ea) (he_eph eb) (he_seal eb) (he_seal ea)) as
    (ha & hb & hb1 & ha1 & hb2 & m1 & m2 & m3 & sh & t & sa0 & sb0 & Ha & Hb & E1 & E2 & E3 & E4 & SA & SB & Lt);
    try done; try (by apply Aa); try (by apply Ab).
  destruct (initiator_runs a ea ha ha1 m1 m2 m3 _ Aa Ha E1 E3) as [I1 I2].
  destruct (responder_runs b eb hb hb1 hb2 m1 m2 m3 _ Ab Hb E2 (E4 _)) as [J1 J2].
  set (ra := mkResult sa0 _ _ _ _) in *. set (rb := mkResult sb0 _ _ _ _) in *.
  destruct (confirm_stage sh t ra rb oa ob ea eb n) as (ca & cb & sa & sb & R & Ca & Cb & Pa & Pb & Hl); try done.
  exists (Got <$> m2 :: cb), (Got <$> m1 :: m3 :: ca), ra, rb, sa, sb, R.
  assert (Oa : forall rest, outbox a oa (with_inbox ea (Got m2 :: rest)) = m1 :: m3 :: ca).
  { intros rest. unfold outbox. rewrite Ia. destruct (I2 rest) as [-> ->]. by rewrite Ca. }
  assert (Ob : forall rest, outbox b ob (with_inbox eb (Got m1 :: Got m3 :: rest)) = m2 :: cb).
  { intros rest. unfold outbox. by rewrite Ib, J1, J2, Cb. }
  split_and!; try done.
  - intros x y. unfold wired. split; [|intros [-> ->]; cbn [fmap list_fmap]; by rewrite Oa, Ob].
    intros [Hx Hy]. assert (exists l, y = Got m1 :: l) as [l ->].
    { destruct (I1 x) as [l Hl1]. rewrite Hy. unfold outbox. rewrite Ia, Hl1. cbn. eauto. }
    assert (exists l', x = Got m2 :: l') as [l' ->].
    { rewrite Hx. unfold outbox. rewrite Ib, J1. cbn. eauto. }
    rewrite Oa in Hy. rewrite Hy in Hx. cbn [fmap list_fmap] in Hx. by rewrite Ob in Hx.
  - intros m st fs Hm. apply Pa. rewrite Hm, Ia. apply I2.
  - intros m st fs Hm. apply Pb. rewrite Hm, Ib. apply J2.
Qed.

(** Two honest nodes that are not connected to each other. *)
Record strangers (ma mb : Manager) (sta stb : Store) (fsa fsb : gmap bytes bytes) (ea eb : hs_env) : Prop := {
  sg_key_a : keyed (m_id ma);
  sg_key_b : keyed (m_id mb);
  sg_name_a : nameable (m_id ma);
  sg_name_b : nameable (m_id mb);
  sg_differ : pub (m_id ma) <> pub (m_id mb);
  sg_able_a : able ea;
  sg_able_b : able eb;
  sg_free_a : m_conns ma !! Fingerprint (m_id mb) = None;
  sg_free_b : m_conns mb !! Fingerprint (m_id ma) = None;
  sg_rec_a : recordable sta fsa ea (m_id mb);
  sg_rec_b : recordable stb fsb eb (m_id ma)
}.

(** The handshakes of two nodes whose connection carries what they send: they end
    with each registered at the other, and everything said is shown. *)
Definition connects (ma mb : Manager) (sta stb : Store) (fsa fsb : gmap bytes bytes) (oa ob : AdoptOptions) (ea eb : hs_env) : Prop :=
  exists ia ib ma' sta' fsa' mb' stb' fsb' ca cb ta tb,
    (forall x y, wired (m_id ma) (m_id mb) oa ob ea eb x y <-> x = ia /\ y = ib) /\
    runHandshake ma sta fsa oa (with_inbox ea ia) = (ma', sta', fsa', Ok tt) /\
    runHandshake mb stb fsb ob (with_inbox eb ib) = (mb', stb', fsb', Ok tt) /\
    m_conns ma' !! Fingerprint (m_id mb) = Some ca /\ m_conns mb' !! Fingerprint (m_id ma) = Some cb /\
    forall script, Forall line_ok script -> len script + 1 < 2 ^ 64 ->
      chat ma' mb' ca cb (Name (m_id ma)) (Name (m_id mb)) script =
        shown (Fingerprint (m_id ma)) (Name (m_id ma)) ta (Fingerprint (m_id mb)) (Name (m_id mb)) tb <$> script.

Lemma strangers_connect ma mb sta stb fsa fsb oa ob ea eb : strangers ma mb sta stb fsa fsb ea eb ->
  o_initiator oa = true -> o_initiator ob = false -> o_pairing oa = o_pairing ob ->
  connects ma mb sta stb fsa fsb oa ob ea eb.
Proof.
  intros [Ka Kb Na Nb Hne Aa Ab Fa Fb Ra Rb] Ia Ib Hk.
  destruct (wired_exchange (m_id ma) (m_id mb) oa ob ea eb (2 ^ 64 - 2)) as
    (ia & ib & ra & rb & sa & sb & R & Hw & Ha & Hb & N1 & N2 & N3 & N4 & N5 & N6 & Hl); try done.
  destruct (record_links ma sta fsa oa (with_inbox ea ia) ra sa) as (ma' & sta' & fsa' & ca & tb & Pa & _ & La);
    [by rewrite N3|by rewrite N1, N2|].
  destruct (record_links mb stb fsb ob (with_inbox eb ib) rb sb) as (mb' & stb' & fsb' & cb & ta & Pb & _ & Lb);
    [by rewrite N6|by rewrite N4, N5|].
  rewrite N1, N3 in La. rewrite N4, N6 in Lb.
  exists ia, ib, ma', sta', fsa', mb', stb', fsb', ca, cb, ta, tb.
  split_and!; [done|by rewrite Ha|by rewrite Hb|apply La|apply Lb|].
  intros script Hok Hn. eapply chat_ok; [|done|done|done]. eapply lockstep_le; [|done]. lia.
Qed.

(** Two honest nodes that are not yet connected, with opposite roles and the
    same invite key (or none), always connect: the exchange in which each side
    receives exactly what the other sends exists and is unique, both handshakes
    return without error, each registry holds the other under its fingerprint,
    and from then on every message either user sends to the other by name, in
    any interleaving, is shown once, unaltered and in order at the other end,
    under the sender's authenticated name and fingerprint. *)
Theorem adoption_completes ma mb sta fsa stb fsb oa ob ea eb :
  keyed (m_id ma) -> keyed (m_id mb) -> nameable (m_id ma) -> nameable (m_id mb) -> pub (m_id ma) <> pub (m_id mb) ->
  able ea -> able eb -> o_initiator oa = true -> o_initiator ob = false -> o_pairing oa = o_pairing ob ->
  m_conns ma !! Fingerprint (m_id mb) = None -> m_conns mb !! Fingerprint (m_id ma) = None ->
  recordable sta fsa ea (m_id mb) -> recordable stb fsb eb (m_id ma) ->
  exists ia ib ma' sta' fsa' mb' stb' fsb' ca cb ta tb,
    (forall x y, wired (m_id ma) (m_id mb) oa ob ea eb x y <-> x = ia /\ y = ib) /\
    runHandshake ma sta fsa oa (with_inbox ea ia) = (ma', sta', fsa', Ok tt) /\
    runHandshake mb stb fsb ob (with_inbox eb ib) = (mb', stb', fsb', Ok tt) /\
    m_conns ma' !! Fingerprint (m_id mb) = Some ca /\ m_conns mb' !! Fingerprint (m_id ma) = Some cb /\
    forall script, Forall line_ok script -> len script + 1 < 2 ^ 64 ->
      chat ma' mb' ca cb (Name (m_id ma)) (Name (m_id mb)) script =
        shown (Fingerprint (m_id ma)) (Name (m_id ma)) ta (Fingerprint (m_id mb)) (Name (m_id mb)) tb <$> script.
Proof. intros. by apply strangers_connect. Qed.
End adoption.

(** ** A sample pair *)
Module SamplePair.
Import Crypto.Toy ToyId ToyDH ToyPeers.

Definition party (c : byte) (name : string) : Manager := NewManager (ident c name).
Definition none : Store := mkStore (str "peers.json") ∅.
Definition env_of (c d e : byte) (peer : Identity) : hs_env :=
  mkHsEnv (ToyDH.rng c) (ToyDH.rng d) (ToyDH.rng e) [] true true true (str "10.0.0.1:5") 9 [] [peerID (pub peer)] IoOk.
Definition ini : AdoptOptions := mkAdopt true (str "invite key") PathRelay.
Definition rsp : AdoptOptions := mkAdopt false (str "invite key") PathRelay.
Definition talk : list line :=
  [Line true (str "hi") (ToyDH.rng x01); Line false (str "hello") (ToyDH.rng x02); Line false [] (ToyDH.rng x03)].

Lemma talk_ok : Forall line_ok talk.
Proof. repeat constructor; by vm_compute. Qed.

Lemma env_able c d e peer : able (env_of c d e peer).
Proof. by constructor. Qed.
End SamplePair.
Import Crypto.Toy ToyId ToyDH ToyPeers SamplePair.

Lemma adoption_completes_witness : exists ma mb ca cb ta tb,
  chat ma mb ca cb (str "alice") (str "bob") talk =
    shown (Fingerprint (ident x01 "alice")) (str "alice") ta (Fingerprint (ident x02 "bob")) (str "bob") tb <$> talk.
Proof.
  destruct (adoption_completes (party x01 "alice") (party x02 "bob") none ∅ none ∅ ini rsp
    (env_of x0a x0c x0e (ident x02 "bob")) (env_of x0b x0d x0f (ident x01 "alice"))) as
    (ia & ib & ma & _ & _ & mb & _ & _ & ca & cb & ta & tb & _ & _ & _ & _ & _ & Hc);
    [apply ident_keyed|apply ident_keyed|done|done|apply sample_keys_differ|apply env_able|apply env_able
    |reflexivity|reflexivity|reflexivity|reflexivity|reflexivity|reflexivity|reflexivity|].
  exists ma, mb, ca, cb, ta, tb. apply Hc; [apply talk_ok|reflexivity].
Defined.
