(* ===== verification/Conversation.v ===== *)
(** A link in use: two nodes of [src/internal/session/manager.go] that have adopted
    each other's connection, with everything that then happens on it: users who
    write at any time ([Send]), the write loops, the read loops, the keepalive
    timers and the answers to pings, frames waiting in the bounded queues and on
    the wire both ways.  Refines [Crossing]: what is queued or on the wire to a node
    is what is in flight to its end of the session. *)
From Stdlib Require Import ZArith Lia.
From Stdlib Require Import Strings.Byte.
From stdpp Require Import base list gmap strings numbers option.
From S2P Require Import Prelude Crypto Identity Replay Frame Session SessionProps Handshake Peers Manager ManagerProps Adoption Crossing.

Section link.
Context `{CryptoOps}.

(** One node's side of the link: its manager, its connection to the peer, the name
    it knows the peer by, and the frames that have arrived for the connection.
    [sd_acks] is not in the program: for every frame of the peer that is not read
    yet, how many of this side's frames the peer had read when it sealed it. *)
Record side := Side { sd_mgr : Manager; sd_cid : nat; sd_peer : bytes; sd_wire : list bytes; sd_acks : list Z }.

Definition with_sd_mgr (x : side) (m : Manager) : side := Side m (sd_cid x) (sd_peer x) (sd_wire x) (sd_acks x).

Definition seq_of (x : side) : Z := from_option (fun c => sendSeq (c_sess c)) 0 (m_heap (sd_mgr x) !! sd_cid x).

(** [x] has become [x']: if it sealed a frame, that is now on its way to [y]. *)
Definition noted (x x' y : side) : side :=
  if decide (seq_of x' = seq_of x) then y
  else Side (sd_mgr y) (sd_cid y) (sd_peer y) (sd_wire y) (sd_acks y ++ [seq_of y - len (sd_acks x')]).

(** The user of [x] sends a line to the peer by name. *)
Definition say (x y : side) (text rng : bytes) : side * side :=
  let x' := with_sd_mgr x (Send (sd_mgr x) (sd_peer x) text rng).1 in (x', noted x x' y).

(** The keepalive timer of [x] fires. *)
Definition probe (x y : side) (rng : bytes) : side * side :=
  let x' := with_sd_mgr x (keepaliveTick (sd_mgr x) (sd_cid x) rng).1 in (x', noted x x' y).

(** The write loop of [x] writes its next frame. *)
Definition push (x y : side) : side * side :=
  match writeTurn (sd_mgr x) (sd_cid x) true with
  | (m, Some buf) => (with_sd_mgr x m, Side (sd_mgr y) (sd_cid y) (sd_peer y) (sd_wire y ++ [buf]) (sd_acks y))
  | (m, None) => (with_sd_mgr x m, y)
  end.

(** The read loop of [y] takes the next frame, and the terminal all events. *)
Definition hear (y x : side) (rng : bytes) : side * side * list Event :=
  match sd_wire y with
  | [] => (y, x, [])
  | buf :: rest =>
      let m := (readFrame (drained (sd_mgr y)) (sd_cid y) buf rng).1 in
      let y' := Side m (sd_cid y) (sd_peer y) rest (drop 1 (sd_acks y)) in
      (y', noted y y' x, m_events m)
  end.

Inductive move := Say (of_a : bool) (text rng : bytes) | Probe (of_a : bool) (rng : bytes) | Push (of_a : bool) | Hear (of_a : bool) (rng : bytes).

(** One move: the two sides, and what the terminals of [a] and [b] are shown. *)
Definition make (mv : move) (a b : side) : side * side * (list Event * list Event) :=
  match mv with
  | Say true t r => let '(a', b') := say a b t r in (a', b', ([], []))
  | Say false t r => let '(b', a') := say b a t r in (a', b', ([], []))
  | Probe true r => let '(a', b') := probe a b r in (a', b', ([], []))
  | Probe false r => let '(b', a') := probe b a r in (a', b', ([], []))
  | Push true => let '(a', b') := push a b in (a', b', ([], []))
  | Push false => let '(b', a') := push b a in (a', b', ([], []))
  | Hear true r => let '(a', b', e) := hear a b r in (a', b', (e, []))
  | Hear false r => let '(b', a', e) := hear b a r in (a', b', ([], e))
  end.

Fixpoint play (l : list move) (a b : side) : side * side * (list Event * list Event) :=
  match l with
  | [] => (a, b, ([], []))
  | mv :: rest =>
      let '(a1, b1, (ea, eb)) := make mv a b in
      let '(a2, b2, (ea', eb')) := play rest a1 b1 in (a2, b2, (ea ++ ea', eb ++ eb'))
  end.

(** ** When a link is calm *)

(** The queue has room for one more frame. *)
Definition room (x : side) : Prop :=
  from_option (fun c => (length (c_queue c) < queueSize)%nat) False (m_heap (sd_mgr x) !! sd_cid x).

Definition answered (x : side) : Prop :=
  from_option (fun c => c_unanswered c + 1 <= keepaliveMisses) False (m_heap (sd_mgr x) !! sd_cid x).

(** The next frame to read is not older than [rotationInterval] frames of the
    reader's own. *)
Definition timely (y : side) : Prop :=
  match sd_acks y with [] => True | k :: _ => seq_of y - k <= rotationInterval end.

Definition allowed_move (mv : move) (a b : side) : Prop :=
  match mv with
  | Say of_a t r => room (if of_a then a else b) /\ len t + 2 <= MaxPlaintext /\ NonceSize <= len r
  | Probe of_a r => room (if of_a then a else b) /\ answered (if of_a then a else b) /\ NonceSize <= len r
  | Push _ => True
  | Hear of_a r => room (if of_a then a else b) /\ timely (if of_a then a else b) /\ NonceSize <= len r
  end.

Fixpoint calm (l : list move) (a b : side) : Prop :=
  match l with
  | [] => True
  | mv :: rest => allowed_move mv a b /\ let '(a1, b1, _) := make mv a b in calm rest a1 b1
  end.

(** What a side says in a script. *)
Definition said (of_a : bool) (l : list move) : list bytes :=
  omap (fun mv => match mv with Say s t _ => if Bool.eqb s of_a then Some t else None | _ => None end) l.

(** ** The invariant *)
Definition item_text (i : item) : option bytes :=
  if decide (it_typ i = TypeChat) then match DecodeChat (it_pt i) with Ok t => Some t | _ => None end else None.

Definition texts (q : list flight) : list bytes := omap (fun f => item_text (fl_item f)) q.

(** What a side knows of its peer. *)
Record known := Known { kn_fp : bytes; kn_name : bytes; kn_trust : TrustLevel }.

(** The side's connection: registered under the peer's name, open, with this
    session and queue. *)
Definition holds_link (x : side) (p : known) (s : Session) (queue : list bytes) : Prop :=
  (sd_peer x = kn_name p /\ m_byName (sd_mgr x) !! kn_name p = Some (sd_cid x)) /\
  exists addr path u ann, m_heap (sd_mgr x) !! sd_cid x = Some (mkConn (kn_fp p) (kn_name p) s (kn_trust p) addr queue false path u ann).

(** What is in flight to [y]: on its wire, then in the queue of [x]. *)
Definition in_flight (y : side) (queue : list bytes) (q : list flight) : Prop :=
  fl_buf <$> q = sd_wire y ++ queue /\ fl_ack <$> q = sd_acks y /\
  Forall (fun f => it_typ (fl_item f) = TypeChat \/ it_typ (fl_item f) = TypePing \/ it_typ (fl_item f) = TypePong) q.

(** The peers of [x] and [y] have the fingerprints [fy] and [fx]. *)
Definition flowing (R : bytes) (n : Z) (px py : known) (x y : side) (cx cy : list bytes) : Prop :=
  exists sx sy ux uy qx qy, holds_link x py sx ux /\ holds_link y px sy uy /\
    crossing R n (Endpoint sx qx) (Endpoint sy qy) /\
    in_flight x uy qx /\ in_flight y ux qy /\ texts qx = cx /\ texts qy = cy.
End link.

(** ** The moves keep it *)
Section moves.
Context `{CryptoLaws}.

Definition opt_list {A} (o : option A) : list A := match o with Some a => [a] | None => [] end.

Lemma texts_snoc q f : texts (q ++ [f]) = texts q ++ opt_list (item_text (fl_item f)).
Proof. unfold texts. by rewrite omap_app. Qed.

Lemma texts_cons f q : texts (f :: q) = opt_list (item_text (fl_item f)) ++ texts q.
Proof. unfold texts. cbn. by destruct (item_text (fl_item f)). Qed.

Lemma flowing_sym R n px py x y cx cy : flowing R n px py x y cx cy -> flowing R n py px y x cy cx.
Proof.
  intros (sx & sy & ux & uy & qx & qy & Hx & Hy & Hc & Fx & Fy & Tx & Ty).
  exists sy, sx, uy, ux, qy, qx. split_and!; try done. by apply crossing_sym.
Qed.

Lemma flowing_le R n n' px py x y cx cy : n' <= n -> flowing R n px py x y cx cy -> flowing R n' px py x y cx cy.
Proof.
  intros Hn (sx & sy & ux & uy & qx & qy & Hx & Hy & Hc & Fx & Fy & Tx & Ty).
  exists sx, sy, ux, uy, qx, qy. split_and!; try done. by eapply crossing_le.
Qed.

Lemma link_seq x p s q : holds_link x p s q -> seq_of x = sendSeq s.
Proof. intros (_ & addr & path & u & ann & Hh). unfold seq_of. by rewrite Hh. Qed.

(** Sealing a frame into a queue with room. *)
Lemma enqueue_flows R n px py x y cx cy typ pt rng : 0 <= n ->
  flowing R (n + 1) px py x y cx cy -> room x -> len pt <= MaxPlaintext -> NonceSize <= len rng ->
  typ = TypeChat \/ typ = TypePing \/ typ = TypePong ->
  exists m', enqueue (sd_mgr x) (sd_cid x) typ pt rng = (m', Ok tt) /\ m_events m' = m_events (sd_mgr x) /\
    flowing R n px py (with_sd_mgr x m') (noted x (with_sd_mgr x m') y) cx
      (cy ++ opt_list (item_text (Item true typ pt rng))).
Proof.
  intros Hn (sx & sy & ux & uy & qx & qy & Hx & Hy & Hc & (Bx & Ax & Ox) & (By & Ay & Oy) & Tx & Ty) Hr Hp Hg Ht.
  destruct (crossing_seal R n sx qx sy qy (Item true typ pt rng) Hn Hc) as (sx' & buf & S & Hs & Hc').
  { split_and!; try done. cbn. by destruct Ht as [->|[->| ->]]. }
  cbn [it_typ it_pt it_rng] in S. pose proof (link_seq _ _ _ _ Hx) as Qx. pose proof (link_seq _ _ _ _ Hy) as Qy.
  destruct Hx as (Nx & addr & path & u & ann & Hh). unfold room in Hr. rewrite Hh in Hr. cbn in Hr.
  unfold enqueue. rewrite Hh. cbn [c_sess c_queue]. rewrite S, decide_True by done.
  eexists. split; [reflexivity|]. split; [done|].
  set (m' := set_conn _ _ _). set (x' := with_sd_mgr x m').
  assert (Hh' : m_heap m' !! sd_cid x = Some (mkConn (kn_fp py) (kn_name py) sx' (kn_trust py) addr (ux ++ [buf]) false path u ann)).
  { subst m'. cbn. by rewrite lookup_insert_eq. }
  assert (Qx' : seq_of x' = sendSeq sx') by (unfold seq_of; change (sd_mgr x') with m'; change (sd_cid x') with (sd_cid x); by rewrite Hh').
  unfold noted. rewrite decide_False by (rewrite Qx', Qx, Hs; lia).
  exists sx', sy, (ux ++ [buf]), uy, qx, (qy ++ [Flight (Item true typ pt rng) buf (sendSeq sy - len qx)]).
  split_and!; [split; [done|by do 4 eexists]|done|done|done| |done|].
  - split_and!; cbn.
    + by rewrite fmap_app, By, app_assoc.
    + rewrite fmap_app, Ay, Qy, <- Ax. cbn. unfold len. by rewrite length_fmap.
    + apply Forall_app. split; [done|by constructor].
  - rewrite texts_snoc, Ty. done.
Qed.

Lemma say_flows R n px py x y cx cy t rng : 0 <= n ->
  flowing R (n + 1) px py x y cx cy -> room x -> len t + 2 <= MaxPlaintext -> NonceSize <= len rng ->
  exists x' y', say x y t rng = (x', y') /\ flowing R n px py x' y' cx (cy ++ [t]).
Proof.
  intros Hn Hf Hr Ht Hg. unfold say, Send. pose proof Hf as (sx & sy & ux & uy & qx & qy & ((Px & Nx) & _) & _). rewrite Px, Nx.
  destruct (enqueue_flows R n px py x y cx cy TypeChat (encodeChatPayload t) rng Hn Hf Hr) as (m' & -> & _ & Hf'); try done.
  { unfold encodeChatPayload. rewrite len_app, len_be_put. lia. }
  { by left. }
  cbn [fst]. do 2 eexists. split; [done|]. unfold item_text in Hf'. cbn [it_typ it_pt] in Hf'.
  rewrite decide_True in Hf' by done. unfold DecodeChat in Hf'.
  rewrite decodeChat_encode_aux in Hf' by (unfold MaxPlaintext in Ht; lia). exact Hf'.
Qed.

(** The keepalive counter is no part of the invariant. *)
Lemma flowing_unanswered R n px py x y cx cy c k : m_heap (sd_mgr x) !! sd_cid x = Some c ->
  flowing R n px py x y cx cy ->
  flowing R n px py (with_sd_mgr x (set_conn (sd_mgr x) (sd_cid x) (set_unanswered c k))) y cx cy.
Proof.
  intros Hh (sx & sy & ux & uy & qx & qy & (Nx & addr & path & u & ann & Hx) & Hrest).
  assert (c = mkConn (kn_fp py) (kn_name py) sx (kn_trust py) addr ux false path u ann) as -> by congruence.
  exists sx, sy, ux, uy, qx, qy. split; [|done]. split; [done|]. cbn. rewrite lookup_insert_eq. by do 4 eexists.
Qed.

Lemma probe_flows R n px py x y cx cy rng : 0 <= n ->
  flowing R (n + 1) px py x y cx cy -> room x -> answered x -> NonceSize <= len rng ->
  exists x' y', probe x y rng = (x', y') /\ flowing R n px py x' y' cx cy.
Proof.
  intros Hn Hf Hr Ha Hg. unfold probe, keepaliveTick. pose proof Hf as (sx & sy & ux & uy & qx & qy & (Nx & addr & path & u & ann & Hh) & _).
  unfold answered in Ha. unfold room in Hr. rewrite Hh in *. cbn [c_done c_unanswered from_option] in *.
  rewrite (decide_False (P := keepaliveMisses < u + 1)) by lia. set (c := mkConn _ _ _ _ _ _ _ _ _ _) in *.
  set (m1 := set_conn (sd_mgr x) (sd_cid x) (set_unanswered c (u + 1))). set (x1 := with_sd_mgr x m1).
  assert (Hf1 : flowing R (n + 1) px py x1 y cx cy) by (by apply flowing_unanswered).
  destruct (enqueue_flows R n px py x1 y cx cy TypePing [] rng Hn Hf1) as (m' & E & _ & Hf'); try done.
  { unfold room. cbn. rewrite lookup_insert_eq. done. } { auto. }
  cbn [sd_mgr sd_cid x1 with_sd_mgr] in E. rewrite E. cbn [fst]. do 2 eexists. split; [done|].
  change (item_text (Item true TypePing [] rng)) with (@None bytes) in Hf'. cbn [opt_list] in Hf'. rewrite app_nil_r in Hf'.
  assert (Hq : seq_of x1 = seq_of x) by (unfold seq_of; cbn; by rewrite lookup_insert_eq, Hh).
  unfold noted in *. rewrite Hq in Hf'. exact Hf'.
Qed.

Lemma push_flows R n px py x y cx cy : flowing R n px py x y cx cy ->
  exists x' y', push x y = (x', y') /\ flowing R n px py x' y' cx cy.
Proof.
  intros (sx & sy & ux & uy & qx & qy & (Nx & addr & path & u & ann & Hh) & Hy & Hc & Fx & (By & Ay & Oy) & Tx & Ty).
  unfold push, writeTurn. rewrite Hh. cbn [c_done c_queue]. destruct ux as [|buf ux].
  - do 2 eexists. split; [done|]. exists sx, sy, [], uy, qx, qy. split_and!; try done. split; [done|by do 4 eexists].
  - do 2 eexists. split; [done|]. exists sx, sy, ux, uy, qx, qy.
    split_and!; try done; [split; [done|]; cbn; rewrite lookup_insert_eq; by do 4 eexists|].
    split; [|done]. cbn. rewrite By. by rewrite <- app_assoc.
Qed.

(** What a terminal is shown of a line of the peer. *)
Definition message_event (p : known) (t : bytes) : Event := mkEvent EventMessage (kn_name p) (kn_fp p) (Text t) (kn_trust p) [].

Lemma noted_same x x' y : seq_of x' = seq_of x -> noted x x' y = y.
Proof. intros E. unfold noted. by rewrite decide_True. Qed.

Lemma hear_flows R n px py x y cx cy rng : 0 <= n ->
  flowing R (n + 1) px py x y cx cy -> room y -> timely y -> NonceSize <= len rng ->
  exists x' y' evs ts cy', hear y x rng = (y', x', evs) /\ flowing R n px py x' y' cx cy' /\ cy = ts ++ cy' /\
    evs = message_event px <$> ts.
Proof.
  intros Hn Hf Hr Ht Hg. unfold hear. destruct (sd_wire y) as [|buf w] eqn:Ew.
  { exists x, y, [], [], cy. split_and!; try done. eapply flowing_le; [|exact Hf]. lia. }
  destruct Hf as (sx & sy & ux & uy & qx & qy & Hx & Hy & Hc & Fx & (By & Ay & Oy) & Tx & Ty).
  rewrite Ew in By. destruct qy as [|fl qy]; [done|]. cbn [fmap list_fmap app] in By, Ay. injection By as Eb By.
  apply Forall_cons_iff in Oy as [Ho Oy]. rewrite texts_cons in Ty.
  pose proof (link_seq _ _ _ _ Hy) as Qy. unfold timely in Ht. rewrite <- Ay, Qy in Ht.
  destruct (crossing_open R (n + 1) sx qx sy fl qy ltac:(lia) Hc Ht) as (sy' & Hop & Hs & Hc'). rewrite Eb in Hop.
  destruct Hy as ((Py & Ny) & addr & path & u & ann & Hh). unfold room in Hr. rewrite Hh in Hr. cbn in Hr.
  unfold readFrame. cbn [drained m_heap]. rewrite Hh. cbn [c_sess c_name c_fp c_trust]. rewrite Hop. rewrite <- Ay. cbn [drop]. rewrite drop_0.
  set (c1 := set_sess _ sy'). set (m1 := set_conn (drained (sd_mgr y)) (sd_cid y) c1).
  (* after a frame that is not answered *)
  assert (Hdone : forall m2 c2, m_byName m2 = m_byName (sd_mgr y) -> m_heap m2 = <[sd_cid y := c2]> (m_heap (sd_mgr y)) ->
    (exists k, c2 = set_unanswered c1 k) ->
    let y2 := Side m2 (sd_cid y) (sd_peer y) w (fl_ack <$> qy) in
    noted y y2 x = x /\ flowing R (n + 1) px py x y2 cx (texts qy)).
  { intros m2 c2 E1 E2 [k ->] y2.
    assert (Hl : holds_link y2 px sy' uy).
    { split; [split; [done|by cbn; rewrite E1]|]. cbn. rewrite E2, lookup_insert_eq. by do 4 eexists. }
    split; [apply noted_same; by rewrite (link_seq _ _ _ _ Hl), Qy|].
    exists sx, sy', ux, uy, qx, qy. split_and!; try done. }
  assert (Hle : forall x' y' c, flowing R (n + 1) px py x' y' cx c -> flowing R n px py x' y' cx c)
    by (intros x' y' c; apply flowing_le; lia).
  destruct Ho as [Hty|[Hty|Hty]]; rewrite Hty; unfold item_text in Ty; rewrite Hty in Ty.
  - rewrite (decide_True (P := TypeChat = TypeChat)) in * by done. destruct (DecodeChat (it_pt (fl_item fl))) as [t| |] eqn:Ed; cbn [opt_list fst] in *.
    + destruct (Hdone (emit m1 (mkEvent EventMessage (kn_name px) (kn_fp px) (Text t) (kn_trust px) [])) (set_unanswered c1 u)) as [-> Hf2];
        [done|done|by eexists|].
      do 2 eexists. exists [message_event px t], [t], (texts qy). split; [reflexivity|]. split; [by apply Hle|done].
    + destruct (Hdone m1 c1) as [-> Hf2]; [done|done|by exists u|].
      do 2 eexists. exists [], [], (texts qy). split; [reflexivity|]. split; [by apply Hle|done].
    + destruct (Hdone m1 c1) as [-> Hf2]; [done|done|by exists u|].
      do 2 eexists. exists [], [], (texts qy). split; [reflexivity|]. split; [by apply Hle|done].
  - rewrite (decide_False (P := TypePing = TypeChat)) in * by done. rewrite (decide_True (P := TypePing = TypePing)) by done. cbn [opt_list] in Ty.
    destruct (Hdone m1 c1) as [Hn1 Hf2]; [done|done|by exists u|].
    set (y1 := Side m1 (sd_cid y) (sd_peer y) w (fl_ack <$> qy)) in *.
    destruct (enqueue_flows R n py px y1 x (texts qy) cx TypePong [] rng Hn (flowing_sym _ _ _ _ _ _ _ _ Hf2)) as (m' & E & Ev & Hf3);
      [unfold room; cbn; by rewrite lookup_insert_eq|done|done|by right; right|].
    cbn [sd_mgr sd_cid y1] in E. rewrite E. cbn [fst].
    change (item_text (Item true TypePong [] rng)) with (@None bytes) in Hf3. cbn [opt_list] in Hf3. rewrite app_nil_r in Hf3.
    assert (Hq : seq_of y1 = seq_of y) by (unfold seq_of at 1; cbn; rewrite lookup_insert_eq; cbn; by rewrite Qy).
    unfold noted in Hf3. rewrite Hq in Hf3. apply flowing_sym in Hf3.
    do 2 eexists. exists [], [], (texts qy). split; [by rewrite Ev|]. split; [exact Hf3|done].
  - rewrite (decide_False (P := TypePong = TypeChat)) in * by done. rewrite (decide_False (P := TypePong = TypePing)) by done.
    rewrite (decide_True (P := TypePong = TypePong)) by done. cbn [opt_list fst] in *.
    destruct (Hdone (set_conn m1 (sd_cid y) (set_unanswered c1 0)) (set_unanswered c1 0)) as [-> Hf2]; [done|cbn; by rewrite insert_insert_eq|by eexists|].
    do 2 eexists. exists [], [], (texts qy). split; [reflexivity|]. split; [by apply Hle|done].
Qed.
End moves.

(** ** Whole scripts *)
Section scripts.
Context `{CryptoLaws}.

Lemma play_flows l : forall R pa pb a b ca cb, flowing R (len l) pa pb a b ca cb -> calm l a b ->
  exists a' b' ta tb ca' cb', play l a b = (a', b', (message_event pb <$> ta, message_event pa <$> tb)) /\
    flowing R 0 pa pb a' b' ca' cb' /\ cb ++ said true l = tb ++ cb' /\ ca ++ said false l = ta ++ ca'.
Proof.
  induction l as [|mv rest IH]; intros R pa pb a b ca cb Hf Hc; cbn [play].
  { exists a, b, [], [], ca, cb. unfold said. cbn. rewrite !app_nil_r. done. }
  destruct Hc as [Hal Hc]. rewrite len_cons in Hf. pose proof (len_nonneg rest) as Hn.
  assert (Hstep : exists a1 b1 ta tb ca1 cb1, make mv a b = (a1, b1, (message_event pb <$> ta, message_event pa <$> tb)) /\
    flowing R (len rest) pa pb a1 b1 ca1 cb1 /\
    cb ++ said true (mv :: rest) = tb ++ cb1 ++ said true rest /\ ca ++ said false (mv :: rest) = ta ++ ca1 ++ said false rest).
  { unfold said at 1 3. destruct mv as [[|] t r|[|] r|[|]|[|] r]; cbn [omap list_omap Bool.eqb make allowed_move] in *.
    - destruct Hal as (Hr & Ht & Hg). destruct (say_flows R _ pa pb a b ca cb t r Hn Hf Hr Ht Hg) as (x & y & -> & Hf').
      exists x, y, [], [], ca, (cb ++ [t]). split_and!; try done. by rewrite <- app_assoc.
    - destruct Hal as (Hr & Ht & Hg). destruct (say_flows R _ pb pa b a cb ca t r Hn (flowing_sym _ _ _ _ _ _ _ _ Hf) Hr Ht Hg) as (x & y & -> & Hf').
      exists y, x, [], [], (ca ++ [t]), cb. split_and!; try done; [by apply flowing_sym|by rewrite <- app_assoc].
    - destruct Hal as (Hr & Ha & Hg). destruct (probe_flows R _ pa pb a b ca cb r Hn Hf Hr Ha Hg) as (x & y & -> & Hf').
      by exists x, y, [], [], ca, cb.
    - destruct Hal as (Hr & Ha & Hg). destruct (probe_flows R _ pb pa b a cb ca r Hn (flowing_sym _ _ _ _ _ _ _ _ Hf) Hr Ha Hg) as (x & y & -> & Hf').
      exists y, x, [], [], ca, cb. split_and!; try done. by apply flowing_sym.
    - destruct (push_flows R _ pa pb a b ca cb Hf) as (x & y & -> & Hf').
      exists x, y, [], [], ca, cb. split_and!; try done. eapply flowing_le; [|exact Hf']. lia.
    - destruct (push_flows R _ pb pa b a cb ca (flowing_sym _ _ _ _ _ _ _ _ Hf)) as (x & y & -> & Hf').
      exists y, x, [], [], ca, cb. split_and!; try done. apply flowing_sym. eapply flowing_le; [|exact Hf']. lia.
    - destruct Hal as (Hr & Ht & Hg).
      destruct (hear_flows R _ pb pa b a cb ca r Hn (flowing_sym _ _ _ _ _ _ _ _ Hf) Hr Ht Hg) as (y & x & evs & ts & ca' & -> & Hf' & -> & ->).
      exists x, y, ts, [], ca', cb. split_and!; try done; [by apply flowing_sym|by rewrite <- app_assoc].
    - destruct Hal as (Hr & Ht & Hg).
      destruct (hear_flows R _ pa pb a b ca cb r Hn Hf Hr Ht Hg) as (x & y & evs & ts & cb' & -> & Hf' & -> & ->).
      exists x, y, [], ts, ca, cb'. split_and!; try done. by rewrite <- app_assoc. }
  destruct Hstep as (a1 & b1 & ta & tb & ca1 & cb1 & E & Hf1 & Q1 & Q2). rewrite E in *.
  destruct (IH R pa pb a1 b1 ca1 cb1 Hf1 Hc) as (a2 & b2 & ta' & tb' & ca2 & cb2 & E2 & Hf2 & Q3 & Q4). rewrite E2.
  exists a2, b2, (ta ++ ta'), (tb ++ tb'), ca2, cb2. rewrite !fmap_app, Q1, Q2, Q3, Q4, !app_assoc. done.
Qed.

(** Nothing is on its way from [x] to [y] any more. *)
Definition caught_up (x y : side) : Prop :=
  sd_wire y = [] /\ from_option c_queue [] (m_heap (sd_mgr x) !! sd_cid x) = [].

Lemma caught_up_texts R n px py x y cx cy : flowing R n px py x y cx cy -> caught_up x y -> cy = [].
Proof.
  intros (sx & sy & ux & uy & qx & qy & (_ & addr & path & u & ann & Hh) & _ & _ & _ & (By & _) & _ & <-) [Hw Hq].
  rewrite Hh in Hq. cbn in Hq. rewrite Hw, Hq in By. by destruct qy.
Qed.

(** A side as adoption leaves it. *)
Definition fresh_side (m : Manager) (cid : nat) (peer : Identity) : side := Side m cid (Name peer) [] [].

Definition quiet (x : side) : Prop :=
  exists c, m_heap (sd_mgr x) !! sd_cid x = Some c /\ c_queue c = [] /\ sd_acks x = [] /\ sd_wire x = [].

Lemma link_flows R m cida cidb ma mb fa na ta fb nb tb sa sb :
  lockstep R m sa sb -> link_end ma cida fb nb tb sa -> link_end mb cidb fa na ta sb ->
  forall n, sendSeq sa + sendSeq sb + n + 1 < 2 ^ 32 ->
  flowing R n (Known fa na ta) (Known fb nb tb) (Side ma cida nb [] []) (Side mb cidb na [] []) [] [].
Proof.
  intros Hl [La1 La2 La3] [Lb1 Lb2 Lb3] n Hn. exists sa, sb, [], [], [], [].
  split_and!; try done. by eapply lockstep_crossing.
Qed.

(** What a calm script shows: to each user a first part of what the other said, as
    it was typed and in order, and all of it once nothing is on its way. *)
Definition carries_talk (pa pb : known) (a b : side) : Prop :=
  forall l, len l + 4 < 2 ^ 32 -> calm l a b ->
    exists a' b' heard_a heard_b late_a late_b,
      play l a b = (a', b', (message_event pb <$> heard_a, message_event pa <$> heard_b)) /\
      said true l = heard_b ++ late_b /\ said false l = heard_a ++ late_a /\
      (caught_up a' b' -> late_b = []) /\ (caught_up b' a' -> late_a = []).

Lemma flowing_talk R pa pb a b : (forall n, n + 4 < 2 ^ 32 -> flowing R n pa pb a b [] []) -> carries_talk pa pb a b.
Proof.
  intros Hf l Hn Hc. destruct (play_flows l R pa pb a b [] [] (Hf _ Hn) Hc) as (a' & b' & ta & tb & ca & cb & E & Hf' & Q1 & Q2).
  exists a', b', ta, tb, ca, cb. split_and!; try done; [by eapply caught_up_texts|].
  apply flowing_sym in Hf'. by eapply caught_up_texts.
Qed.
End scripts.

Section conversation.
Context `{CryptoLaws, SignatureLaws, DHLaws, PeersJSON}.

End conversation.

(** ** When a queue stays full *)
Section full.
Context `{CryptoLaws}.

(** Send lines one after another to the peer of that name; what each call returns. *)
Fixpoint send_each (m : Manager) (name : bytes) (ls : list (bytes * bytes)) : Manager * list (res manager_err unit) :=
  match ls with
  | [] => (m, [])
  | (t, r) :: rest => let '(m1, o) := Send m name t r in let '(m2, os) := send_each m1 name rest in (m2, o :: os)
  end.

Definition sendable (l : bytes * bytes) : Prop := len l.1 + 2 <= MaxPlaintext /\ NonceSize <= len l.2.

(** A call that finds the queue full has sealed its frame all the same. *)
Lemma seal_chat_spec s R A t r : session_inv s R A -> sendable (t, r) -> 0 <= epoch s -> epoch s + 1 < 2 ^ 32 -> sendSeq s + 1 < 2 ^ 64 ->
  exists s' f, Seal s TypeChat (encodeChatPayload t) r = (s', Ok (marshalFrame f)) /\ session_inv s' R A /\
    SessionID s' = SessionID s /\ sendSeq s' = sendSeq s + 1 /\ epoch s' = epoch s + (rots (sendSeq s + 1) - rots (sendSeq s)) /\
    parseFrame (marshalFrame f) = Ok f /\ session f = SessionID s /\ rotation f = epoch s'.
Proof.
  intros Hi [Ht Hr] He0 He Hs. cbn [fst snd] in *. pose proof (si_seq _ _ _ Hi) as [Hs0 _].
  destruct (seal_spec s R A TypeChat (encodeChatPayload t) r Hi) as
    (s' & f & k & mk & S & Hi' & S1 & S2 & S3 & S4 & S5 & F1 & F2 & F3 & F4 & F5 & _ & _ & _ & Hp).
  { unfold encodeChatPayload. rewrite len_app, len_be_put. lia. } { done. }
  exists s', f. rewrite (rots_succ _ Hs0). rewrite wrap_small in S5 by (split; lia).
  pose proof (seal_epoch_step s R A Hi ltac:(lia)) as E. split_and!; try done; [rewrite S4, E; lia|by apply Hp|congruence].
Qed.

Lemma send_each_full ls : forall m name cid c R A, m_byName m !! name = Some cid -> m_heap m !! cid = Some c ->
  c_done c = false -> (queueSize <= length (c_queue c))%nat -> session_inv (c_sess c) R A -> Forall sendable ls ->
  epoch (c_sess c) + len ls + 1 < 2 ^ 32 -> sendSeq (c_sess c) + len ls < 2 ^ 64 ->
  exists m' s', send_each m name ls = (m', replicate (length ls) (Err QueueFull)) /\
    m_byName m' = m_byName m /\ m_heap m' !! cid = Some (set_sess c s') /\ session_inv s' R A /\
    SessionID s' = SessionID (c_sess c) /\ sendSeq s' = sendSeq (c_sess c) + len ls /\
    epoch s' = epoch (c_sess c) + (rots (sendSeq s') - rots (sendSeq (c_sess c))).
Proof.
  induction ls as [|[t r] ls IH]; intros m name cid c R A Hname Hh Hd Hq Hi Hok He Hs; cbn [send_each].
  { exists m, (c_sess c). rewrite len_nil. split_and!; try done; [by destruct c|lia|lia]. }
  apply Forall_cons_iff in Hok as [Ht Hok]. rewrite len_cons in *. pose proof (len_nonneg ls).
  pose proof (si_epoch _ _ _ Hi) as [He0 _]. pose proof (si_seq _ _ _ Hi) as [Hs0 _].
  destruct (seal_chat_spec (c_sess c) R A t r Hi Ht) as (s1 & f & S & Hi1 & S1 & S2 & S3 & _); [lia..|].
  unfold Send. rewrite Hname. unfold enqueue. rewrite Hh, S. rewrite decide_False by lia. rewrite Hd.
  set (m1 := set_conn m cid (set_sess c s1)).
  assert (Hk : rots (sendSeq (c_sess c) + 1) - rots (sendSeq (c_sess c)) <= 1) by (pose proof (rots_succ _ Hs0) as Hr; case_decide; lia).
  destruct (IH m1 name cid (set_sess c s1) R A) as (m' & s' & -> & E1 & E2 & E3 & E4 & E5 & E6); cbn [set_sess c_sess c_done c_queue] in *; try done.
  { cbn. by rewrite lookup_insert_eq. } { lia. } { lia. }
  exists m', s'. split_and!; try done; [congruence|lia|]. rewrite E6, S2, S3. lia.
Qed.

End full.

(** One line from a quiet link is calm. *)
Lemma one_line_calm `{CryptoOps} x y t r r' : quiet x -> quiet y -> len t + 2 <= MaxPlaintext -> NonceSize <= len r ->
  NonceSize <= len r' -> calm [Say true t r; Push true; Hear false r'] x y.
Proof.
  intros (cx & Hx & Qx & Ax & Wx) (cy & Hy & Qy & Ay & Wy) Ht Hr Hr'.
  assert (Room : forall m, m_heap m = m_heap (sd_mgr y) -> forall w k, room (Side m (sd_cid y) (sd_peer y) w k)).
  { intros m Em w k. unfold room. cbn. rewrite Em, Hy. cbn. rewrite Qy. unfold queueSize. cbn. lia. }
  cbn [calm allowed_move make]. split; [split_and!; try done; unfold room; rewrite Hx; cbn; rewrite Qx; unfold queueSize; cbn; lia|].
  unfold say. set (x' := with_sd_mgr x _).
  assert (Htm : forall w, timely (Side (sd_mgr y) (sd_cid y) (sd_peer y) w (sd_acks (noted x x' y)))).
  { intros w. unfold timely, noted. change (sd_acks x') with (sd_acks x). rewrite Ax. cbn [sd_acks].
    destruct (decide _); cbn [sd_acks]; rewrite Ay; cbn [app]; [done|].
    change (seq_of (Side (sd_mgr y) _ _ _ _)) with (seq_of y). rewrite len_nil. unfold rotationInterval. lia. }
  assert (Hn : sd_mgr (noted x x' y) = sd_mgr y /\ sd_cid (noted x x' y) = sd_cid y /\ sd_peer (noted x x' y) = sd_peer y)
    by (unfold noted; by destruct (decide _)).
  destruct Hn as (E1 & E2 & E3). unfold push. split; [done|].
  destruct (writeTurn (sd_mgr x') (sd_cid x') true) as [m [buf|]]; cbn [sd_mgr sd_cid sd_peer sd_acks sd_wire];
    (split; [|by destruct (hear _ _ _) as [[? ?] ?]]).
  - rewrite E1, E2, E3. split_and!; [by apply Room|apply Htm|done].
  - destruct (noted x x' y) as [my cy' py wy ky]. cbn in *. subst my cy' py. split_and!; [by apply Room|apply Htm|done].
Qed.

(** ** Witness *)
Import Crypto.Toy ToyId ToyDH ToyPeers SamplePair.

Lemma alice_meets_bob : strangers (party x01 "alice") (party x02 "bob") none none ∅ ∅
  (env_of x0a x0c x0e (ident x02 "bob")) (env_of x0b x0d x0f (ident x01 "alice")).
Proof. split; [apply ident_keyed|apply ident_keyed|done|done|apply sample_keys_differ|apply env_able|apply env_able|reflexivity..]. Qed.


(** Alice's side of a stalled link, and Bob's. *)
Module Stalled.
Import Sample.
Definition stalled (ini : bool) (fp name : bytes) (queue : list bytes) : conn :=
  mkConn fp name (sess ini) TrustUnknown [] queue false PathDirect 0 true.
Definition alice : Manager :=
  mkManager (ident x01 "alice") ∅ {[str "bob" := 0%nat]} {[0%nat := stalled true (Fingerprint (ident x02 "bob")) (str "bob") (replicate 64 [])]} [] false.
Definition bob : Manager :=
  mkManager (ident x02 "bob") ∅ {[str "alice" := 0%nat]} {[0%nat := stalled false (Fingerprint (ident x01 "alice")) (str "alice") []]} [] false.
Definition paste : list (bytes * bytes) := replicate 2001 (str "x", Sample.rng).

Lemma paste_sendable : Forall sendable paste.
Proof. apply Forall_replicate. split; by vm_compute. Qed.
End Stalled.
Import Stalled.

