(* ===== verification/Lifecycle.v ===== *)
(** The goroutines of a node: [src/internal/session/manager.go].

    The accept loop, the handshakes and the three loops of every connection run
    as goroutines counted by the wait group [wg]; [Shutdown] closes what it finds
    and waits for the count to reach zero.  A [world] is what they share, a
    [node] is a world and the goroutines that run; a turn of one goroutine is a
    rule of [runs], a call from outside (the command line, the rendezvous layer,
    the network, a timer) a rule of [call]. *)
From Stdlib Require Import ZArith Lia.
From Stdlib Require Import Strings.Byte.
From stdpp Require Import base gmap strings numbers option list.
From S2P Require Import Prelude Crypto GoStrings Identity Replay Frame Session SessionProps Pairing Handshake Peers Manager ManagerProps Adoption.

(** ** The listener of [src/internal/transport/transport.go] *)
Record Listener := mkListener { ln_addr : bytes; ln_open : bool }.

(** [bound] is the address the socket got, unless it could not be opened. *)
Definition transport_Listen (bound : option bytes) : res manager_err Listener :=
  match bound with Some a => Ok (mkListener a true) | None => Err MeTransport end.

(** [arrived] is the remote address of the next connection, unless the socket
    fails; a closed listener accepts nothing. *)
Definition AcceptConn (l : Listener) (arrived : option bytes) : res manager_err bytes :=
  match arrived with
  | Some remote => if ln_open l then Ok remote else Err MeTransport
  | None => Err MeTransport
  end.

Definition Addr (l : Listener) : bytes := ln_addr l.
Definition Listener_Close (l : Listener) : Listener := mkListener (ln_addr l) false.

(** [transport.Dial]; [dialled] says whether the connection came up. *)
Definition transport_Dial (dialled : bool) : res manager_err unit := if dialled then Ok tt else Err MeTransport.

(** ** State *)

(** The kinds of goroutine; [Accepting] may hold a connection it has accepted,
    [Reading] has the frames that arrived and were not read yet, each with the
    randomness an answer would draw. *)
Inductive task :=
| Accepting (held : option bytes)
| Handshaking (opts : AdoptOptions) (counted : bool)
| Reading (cid : nat) (frames : list (bytes * bytes))
| Writing (cid : nat)
| Probing (cid : nat).

Record world := mkWorld {
  w_mgr : Manager;
  w_store : Store;
  w_fs : gmap bytes bytes;
  w_ln : option Listener;
  w_hook : option (bytes -> option AdoptOptions);      (* on the remote address *)
  w_wg : Z
}.

Record node := Node { n_world : world; n_tasks : list task }.

Definition with_mgr (w : world) (m : Manager) : world :=
  mkWorld m (w_store w) (w_fs w) (w_ln w) (w_hook w) (w_wg w).
Definition wg_add (w : world) (k : Z) : world :=
  mkWorld (w_mgr w) (w_store w) (w_fs w) (w_ln w) (w_hook w) (w_wg w + k).
Definition with_ln (w : world) (ln : option Listener) : world :=
  mkWorld (w_mgr w) (w_store w) (w_fs w) ln (w_hook w) (w_wg w).

(** ** Calls *)
Definition SetInboundHook (w : world) (fn : option (bytes -> option AdoptOptions)) : world :=
  mkWorld (w_mgr w) (w_store w) (w_fs w) (w_ln w) fn (w_wg w).

Definition inboundOptions (w : world) (remote : bytes) : AdoptOptions :=
  match w_hook w with
  | Some hook => default (mkAdopt false [] PathDirect) (hook remote)
  | None => mkAdopt false [] PathDirect
  end.

Definition Listen (n : node) (addr : bytes) (bound : option bytes) : node * res manager_err bytes :=
  if decide (addr = []) then (n, Ok [])
  else match transport_Listen bound with
  | Ok ln => (Node (wg_add (with_ln (n_world n) (Some ln)) 1) (n_tasks n ++ [Accepting None]), Ok (Addr ln))
  | Err e => (n, Err e)
  | Panic => (n, Panic)
  end.

Definition ListenAddr (w : world) : bytes := match w_ln w with Some ln => Addr ln | None => [] end.

Definition HandleInbound (w : world) (remote : bytes) : world * list task :=
  (wg_add w 1, [Handshaking (inboundOptions w remote) true]).

Definition Connect (n : node) (dialled : bool) : node * res manager_err unit :=
  match transport_Dial dialled with
  | Ok _ => (Node (wg_add (n_world n) 1) (n_tasks n ++ [Handshaking (mkAdopt true [] PathDirect) true]), Ok tt)
  | Err e => (n, Err e)
  | Panic => (n, Panic)
  end.

(** [Adopt] runs in the goroutine of its caller, which the group does not count. *)
Definition Adopt (n : node) (opts : AdoptOptions) : node := Node (n_world n) (n_tasks n ++ [Handshaking opts false]).

(** The receive on the channel of [Events]. *)
Definition Events (m : Manager) : Manager * option Event :=
  match m_events m with
  | [] => (m, None)
  | e :: rest => (mkManager (m_id m) (m_conns m) (m_byName m) (m_heap m) rest (m_closing m), Some e)
  end.

(** ** Turns *)
Section turns.
Context `{CryptoOps, SignatureOps, DHOps, PeersJSON}.

(** The connection a handshake registered, if it did. *)
Definition launched (m m' : Manager) : option nat :=
  match m_heap m' !! new_conn m with
  | Some c => if c_done c then None else Some (new_conn m)
  | None => None
  end.

(** A handshake runs to its end and starts the loops of a connection it kept. *)
Definition handshake_turn (w : world) (opts : AdoptOptions) (counted : bool) (e : hs_env) : world * list task :=
  let '(m, st, fs, _) := runHandshake (w_mgr w) (w_store w) (w_fs w) opts e in
  let w1 := mkWorld m st fs (w_ln w) (w_hook w) (w_wg w) in
  let '(w2, loops) :=
    match launched (w_mgr w) m with
    | Some cid => (wg_add w1 3, [Reading cid []; Writing cid; Probing cid])
    | None => (w1, [])
    end in
  (if counted then wg_add w2 (-1) else w2, loops).

(** One frame in the read loop. *)
Definition read_turn (w : world) (cid : nat) (buf rng : bytes) (rest : list (bytes * bytes)) : world * list task :=
  let '(m, go) := readFrame (w_mgr w) cid buf rng in
  if go : bool then (with_mgr w m, [Reading cid rest])
  else (wg_add (with_mgr w (dropConn m cid)) (-1), []).

(** A receive that fails: the peer is gone, or the connection is closed. *)
Definition read_fails (w : world) (cid : nat) : world * list task :=
  (wg_add (with_mgr w (dropConn (w_mgr w) cid)) (-1), []).

Definition write_turn (w : world) (cid : nat) (sent : bool) : world * list task :=
  let '(m, out) := writeTurn (w_mgr w) cid sent in
  match out with
  | Some _ => if sent then (with_mgr w m, [Writing cid]) else (wg_add (with_mgr w m) (-1), [])
  | None => (wg_add w (-1), [])
  end.

Definition probe_turn (w : world) (cid : nat) (rng : bytes) : world * list task :=
  let '(m, go) := keepaliveTick (w_mgr w) cid rng in
  if go : bool then (with_mgr w m, [Probing cid]) else (wg_add (with_mgr w m) (-1), []).

(** The write loop has something to do: its connection is closed or a frame is
    queued. *)
Definition writable (m : Manager) (cid : nat) : Prop :=
  exists c, m_heap m !! cid = Some c /\ (c_done c = true \/ c_queue c <> []).

(** One turn of a goroutine: the world after it, and the goroutines that take
    its place (itself, when it goes on, and those it starts). *)
Inductive runs : world -> task -> world * list task -> Prop :=
| r_accept w ln arrived remote : w_ln w = Some ln -> AcceptConn ln arrived = Ok remote ->
    runs w (Accepting None) (w, [Accepting (Some remote)])
| r_inbound w remote : runs w (Accepting (Some remote))
    (let '(w', ts) := HandleInbound w remote in (w', Accepting None :: ts))
| r_accept_end w ln arrived e : w_ln w = Some ln -> AcceptConn ln arrived = Err e ->
    runs w (Accepting None) (wg_add w (-1), [])
| r_handshake w opts counted e : runs w (Handshaking opts counted) (handshake_turn w opts counted e)
| r_read w cid buf rng rest : runs w (Reading cid ((buf, rng) :: rest)) (read_turn w cid buf rng rest)
| r_read_fails w cid frames : runs w (Reading cid frames) (read_fails w cid)
| r_write w cid sent : writable (w_mgr w) cid -> runs w (Writing cid) (write_turn w cid sent)
| r_probe w cid rng : runs w (Probing cid) (probe_turn w cid rng).

Inductive turn : node -> node -> Prop :=
| turn_of w l1 t l2 w' ts : runs w t (w', ts) -> turn (Node w (l1 ++ t :: l2)) (Node w' (l1 ++ ts ++ l2)).

(** [Shutdown] up to its wait: [order] enumerates the registered connections. *)
Definition stop (n : node) (order : list nat) (rng : bytes) : node :=
  let w := n_world n in
  Node (mkWorld (Shutdown (w_mgr w) order rng) (w_store w) (w_fs w)
          (Listener_Close <$> w_ln w) (w_hook w) (w_wg w)) (n_tasks n).

(** What the rest of the program and the network do; the node listens once. *)
Inductive call : node -> node -> Prop :=
| c_listen n addr bound : w_ln (n_world n) = None -> call n (Listen n addr bound).1
| c_hook n fn : call n (Node (SetInboundHook (n_world n) fn) (n_tasks n))
| c_inbound n remote : call n (let '(w, ts) := HandleInbound (n_world n) remote in Node w (n_tasks n ++ ts))
| c_connect n dialled : call n (Connect n dialled).1
| c_adopt n opts : call n (Adopt n opts)
| c_arrive w l1 l2 cid frames f c : m_heap (w_mgr w) !! cid = Some c -> c_done c = false ->
    call (Node w (l1 ++ Reading cid frames :: l2)) (Node w (l1 ++ Reading cid (frames ++ [f]) :: l2))
| c_announce n cid : call n (Node (with_mgr (n_world n) (announce (w_mgr (n_world n)) cid)) (n_tasks n))
| c_send n name text rng : call n (Node (with_mgr (n_world n) (Send (w_mgr (n_world n)) name text rng).1) (n_tasks n))
| c_broadcast n order text rng :
    call n (Node (with_mgr (n_world n) (Broadcast (w_mgr (n_world n)) order text rng).1) (n_tasks n))
| c_disconnect n name rng : call n (Node (with_mgr (n_world n) (Disconnect (w_mgr (n_world n)) name rng).1) (n_tasks n))
| c_events n : call n (Node (with_mgr (n_world n) (Events (w_mgr (n_world n))).1) (n_tasks n))
| c_stop n order rng : call n (stop n order rng).

Inductive reachable (n0 : node) : node -> Prop :=
| reach_start : reachable n0 n0
| reach_turn n n' : reachable n0 n -> turn n n' -> reachable n0 n'
| reach_call n n' : reachable n0 n -> call n n' -> reachable n0 n'.

(** [k] turns and nothing else. *)
Inductive turns : nat -> node -> node -> Prop :=
| turns_O n : turns 0 n n
| turns_S k n1 n2 n3 : turn n1 n2 -> turns k n2 n3 -> turns (S k) n1 n3.
End turns.

Definition start (id : Identity) (st : Store) (fs : gmap bytes bytes) : node :=
  Node (mkWorld (NewManager id) st fs None None 0) [].

(** ** What a handshake does to the manager *)
Section handshakes.
Context `{CryptoOps, SignatureOps, DHOps, PeersJSON}.

(** Nothing but events, and at most one new connection. *)
Lemma record_peer_steps m st fs o e r s m' st' fs' out : record_peer m st fs o e r s = (m', st', fs', out) ->
  m' = m \/ exists m1 c, msteps m m1 /\ m_heap m1 = m_heap m /\ c_done c = false /\ m' = offer m1 (new_conn m, c).
Proof.
  unfold record_peer.
  destruct (Observe _ _ _ _ _ _ _ _ _) as [[f s'] [[p t] [ok| |]]]; [|intros [= <- _ _ _]; by left..].
  set (m1 := if decide (t = TrustChanged) then _ else m). set (c := mkConn _ _ _ _ _ _ _ _ _ _).
  assert (G1 : msteps m m1 /\ m_heap m1 = m_heap m).
  { subst m1. destruct (decide (t = TrustChanged)); [|split; [apply msteps_refl|done]]. split; [apply msteps_one, ms_emit|apply emit_maps]. }
  destruct G1 as [Hs Hh]. assert (Hn : new_conn m1 = new_conn m) by (unfold new_conn; by rewrite Hh). rewrite Hn.
  intros Hr. right. exists m1, c. split_and!; [done|done|done|]. unfold offer. cbn [fst snd].
  destruct (register (set_conn m1 (new_conn m) c) (new_conn m) c) as [m2 kept]. destruct kept; congruence.
Qed.

Lemma handshake_steps m st fs o e m' st' fs' out : runHandshake m st fs o e = (m', st', fs', out) ->
  (msteps m m' /\ m_heap m' = m_heap m) \/
  exists m1 c, msteps m m1 /\ m_heap m1 = m_heap m /\ c_done c = false /\ m' = offer m1 (new_conn m, c).
Proof.
  assert (He : forall ev, msteps m (emit m ev) /\ m_heap (emit m ev) = m_heap m).
  { intros ev. split; [apply msteps_one, ms_emit|apply emit_maps]. }
  assert (Hn : msteps m m /\ m_heap m = m_heap m) by (split; [constructor|done]).
  assert (Hr : forall r s, record_peer m st fs o e r s = (m', st', fs', out) ->
    (msteps m m' /\ m_heap m' = m_heap m) \/
    exists m1 c, msteps m m1 /\ m_heap m1 = m_heap m /\ c_done c = false /\ m' = offer m1 (new_conn m, c)).
  { intros r s [->|?]%record_peer_steps; [by left|by right]. }
  unfold runHandshake. destruct (negotiate _ _ _) as [r rest|err told].
  - destruct (decide (0 < len (o_pairing o))); [|apply Hr].
    destruct (confirmPairing _ _ _ _ _ _) as [[s1 oo] [u|ce|]]; [apply Hr|intros [= <- _ _ _]; left; apply He
      |intros [= <- _ _ _]; by left].
  - intros [= <- _ _ _]. left. destruct err; try done. destruct told; [apply He|done].
Qed.

Lemma new_conn_free m : m_heap m !! new_conn m = None.
Proof.
  apply (not_elem_of_dom (D := gset nat)). intros Hin.
  apply (infinite_is_fresh (elements (dom (m_heap m) : gset nat))). by apply elem_of_elements.
Qed.

Lemma handshake_msteps m st fs o e m' st' fs' out : runHandshake m st fs o e = (m', st', fs', out) -> msteps m m'.
Proof.
  intros [[Hs _]|(m1 & c & Hs & Hh & Hd & ->)]%handshake_steps; [done|].
  eapply msteps_trans; [done|]. apply msteps_one, ms_offer; [|done]. rewrite Hh. apply new_conn_free.
Qed.
End handshakes.

(** ** Connections only ever close *)
Definition later (m m' : Manager) : Prop := forall cid c, m_heap m !! cid = Some c ->
  exists c', m_heap m' !! cid = Some c' /\ (c_done c = true -> c_done c' = true).

Lemma later_refl m : later m m.
Proof. intros cid c Hc. eauto. Qed.

Lemma later_trans m1 m2 m3 : later m1 m2 -> later m2 m3 -> later m1 m3.
Proof. intros H1 H2 cid c Hc. destruct (H1 _ _ Hc) as (c' & Hc' & Hd). destruct (H2 _ _ Hc') as (c2 & ? & ?). eauto 10. Qed.

Lemma emit_later m0 m ev : later m0 m -> later m0 (emit m ev).
Proof. intros Hl cid c Hc. rewrite (proj2 (proj2 (emit_maps m ev))). by apply Hl. Qed.

Lemma set_conn_later m0 m cid c c' : later m0 m -> m_heap m !! cid = Some c ->
  (c_done c = true -> c_done c' = true) -> later m0 (set_conn m cid c').
Proof.
  intros Hl Hc Hd k ck Hk. destruct (Hl _ _ Hk) as (c1 & H1 & H2). cbn.
  destruct (decide (cid = k)) as [->|Hne]; [|rewrite lookup_insert_ne by done; eauto].
  rewrite lookup_insert_eq. exists c'. split; [done|]. intros ?%H2. apply Hd. congruence.
Qed.

Lemma drop_later m0 m cid : later m0 m -> later m0 (dropConn m cid).
Proof.
  intros Hl. unfold dropConn. destruct (m_heap m !! cid) as [c|] eqn:Hc; [|done].
  destruct (c_done c) eqn:Hd; [done|].
  assert (later m0 (unregister (set_conn m cid (close_conn c)) cid c)).
  { unfold unregister. case_decide; apply (set_conn_later m0 m cid c); try done; intros; by rewrite close_conn_done. }
  destruct (c_announced c); [by apply emit_later|done].
Qed.

Lemma offer_later m0 m cid c : later m0 m -> m_heap m !! cid = None -> c_done c = false ->
  later m0 (offer m (cid, c)).
Proof.
  intros Hl Hn Hd.
  assert (H1 : later m0 (set_conn m cid c)).
  { intros k ck Hk. destruct (Hl _ _ Hk) as (c1 & H1 & H2). cbn. rewrite lookup_insert_ne; [eauto|congruence]. }
  assert (Hin : m_heap (set_conn m cid c) !! cid = Some c) by (cbn; by rewrite lookup_insert_eq).
  unfold offer, register. cbn [fst snd].
  assert (Hrej : later m0 (set_conn (set_conn m cid c) cid (close_conn c))).
  { apply (set_conn_later m0 _ cid c); try done. intros. by rewrite close_conn_done. }
  destruct (m_conns (set_conn m cid c) !! c_fp c) as [o|]; [|done].
  destruct (m_heap (set_conn m cid c) !! o) as [old|] eqn:Ho; [|done].
  destruct (c_announced old && _); [done|]. destruct (negb _); [done|].
  apply (set_conn_later m0 _ o old); [done|done|]. intros. by rewrite close_conn_done.
Qed.

(** An open connection of the heap after a drop, an update or an event was one
    before. *)
Definition opened_in (m : Manager) (l : list nat) : Prop :=
  forall cid c, m_heap m !! cid = Some c -> c_done c = false -> cid ∈ l.

Lemma emit_opened l m ev : opened_in m l -> opened_in (emit m ev) l.
Proof. intros Hl cid c. rewrite (proj2 (proj2 (emit_maps m ev))). apply Hl. Qed.

Lemma set_conn_opened l m cid c c' : opened_in m l -> m_heap m !! cid = Some c ->
  (c_done c' = false -> c_done c = false) -> opened_in (set_conn m cid c') l.
Proof.
  intros Hl Hc Hd k ck Hk Hdk. cbn in Hk. apply lookup_insert_Some in Hk as [[<- <-]|[_ Hk]]; eauto.
Qed.

Lemma drop_opened l m cid : opened_in m l -> opened_in (dropConn m cid) l.
Proof.
  intros Hl. unfold dropConn. destruct (m_heap m !! cid) as [c|] eqn:Hc; [|done].
  destruct (c_done c) eqn:Hd; [done|].
  assert (opened_in (unregister (set_conn m cid (close_conn c)) cid c) l).
  { unfold unregister. case_decide; apply (set_conn_opened l m cid c); try done; by rewrite close_conn_done. }
  destruct (c_announced c); [by apply emit_opened|done].
Qed.

(** A dropped connection is closed. *)
Lemma drop_closed m cid l : opened_in m l -> opened_in (dropConn m cid) (filter (fun k => k <> cid) l).
Proof.
  intros Hl k c Hk Hd. apply list_elem_of_filter. split; [|by eapply (drop_opened l m cid)].
  intros ->. unfold dropConn in Hk. destruct (m_heap m !! cid) as [c0|] eqn:Hc; [|congruence].
  destruct (c_done c0) eqn:Hd0; [congruence|].
  assert (Hu : m_heap (unregister (set_conn m cid (close_conn c0)) cid c0) !! cid = Some (close_conn c0)).
  { unfold unregister. case_decide; cbn; by rewrite lookup_insert_eq. }
  assert (Hk' : m_heap (unregister (set_conn m cid (close_conn c0)) cid c0) !! cid = Some c).
  { destruct (c_announced c0); [|done]. by rewrite (proj2 (proj2 (emit_maps _ _))) in Hk. }
  rewrite Hu in Hk'. simplify_eq. by rewrite close_conn_done in Hd.
Qed.

Lemma offer_opened l m cid c : opened_in m l -> m_heap m !! cid = None -> opened_in (offer m (cid, c)) (cid :: l).
Proof.
  intros Hl Hn.
  assert (Hc : opened_in (set_conn m cid c) (cid :: l)).
  { intros k ck Hk Hd. cbn in Hk. apply lookup_insert_Some in Hk as [[<- _]|[_ Hk]]; [by left|right; by eapply Hl]. }
  assert (Hin : m_heap (set_conn m cid c) !! cid = Some c) by (cbn; by rewrite lookup_insert_eq).
  unfold offer, register. cbn [fst snd].
  assert (Hrej : opened_in (set_conn (set_conn m cid c) cid (close_conn c)) (cid :: l)).
  { apply (set_conn_opened _ _ cid c); try done. by rewrite close_conn_done. }
  destruct (m_conns (set_conn m cid c) !! c_fp c) as [o|]; [|done].
  destruct (m_heap (set_conn m cid c) !! o) as [old|] eqn:Ho; [|done].
  destruct (c_announced old && _); [done|]. destruct (negb _); [done|].
  apply (set_conn_opened _ _ o old); [done|done|]. by rewrite close_conn_done.
Qed.

Lemma opened_weaken m l l' : opened_in m l -> l ⊆ l' -> opened_in m l'.
Proof. intros Hl Hs cid c Hc Hd. by apply Hs, (Hl _ _ Hc). Qed.

(** ** The invariant of a running node *)
Definition counted (t : task) : bool := match t with Handshaking _ c => c | _ => true end.

(** What the wait group should hold. *)
Fixpoint tally (ts : list task) : Z :=
  match ts with [] => 0 | t :: rest => (if counted t then 1 else 0) + tally rest end.

Definition loop_of (t : task) : option nat :=
  match t with Reading cid _ => Some cid | Writing cid => Some cid | Probing cid => Some cid | _ => None end.

Definition readers (ts : list task) : list nat := omap (fun t => match t with Reading cid _ => Some cid | _ => None end) ts.

Definition known (m : Manager) (t : task) : Prop := forall cid, loop_of t = Some cid -> is_Some (m_heap m !! cid).

Definition accepting (t : task) : bool := match t with Accepting _ => true | _ => false end.

Record world_ok (w : world) (ts : list task) : Prop := {
  wo_registry : registry_exact (w_mgr w);
  wo_readers : opened_in (w_mgr w) (readers ts);
  wo_known : Forall (known (w_mgr w)) ts;
  wo_listener : Exists accepting ts -> is_Some (w_ln w);
  wo_wg : w_wg w = tally ts
}.

Definition node_ok (n : node) : Prop := world_ok (n_world n) (n_tasks n).

Lemma tally_app a b : tally (a ++ b) = tally a + tally b.
Proof. induction a as [|t a IH]; cbn; lia. Qed.

Lemma tally_nonneg ts : 0 <= tally ts.
Proof. induction ts as [|t ts IH]; cbn; [done|]. destruct (counted t); lia. Qed.

Lemma readers_app a b : readers (a ++ b) = readers a ++ readers b.
Proof. apply omap_app. Qed.

Lemma known_later m m' t : later m m' -> known m t -> known m' t.
Proof. intros Hl Hk cid Hc. destruct (Hk _ Hc) as [c Hm]. destruct (Hl _ _ Hm) as (c' & -> & _). done. Qed.

Section lifecycle.
Context `{CryptoOps, SignatureOps, DHOps, PeersJSON}.

Lemma msteps_later m m' : msteps m m' -> later m m'.
Proof.
  intros Hs. apply (msteps_keep (later m) (emit_later m)) with (m := m); [| |by apply offer_later|done|apply later_refl].
  - intros m1 cid c c' Hl Hc (_ & _ & Hd). apply (set_conn_later m m1 cid c); [done|done|by rewrite Hd].
  - intros m1 cid. apply drop_later.
Qed.

Lemma update_opened l m cid c c' : opened_in m l -> m_heap m !! cid = Some c -> same_peer c c' ->
  opened_in (set_conn m cid c') l.
Proof. intros Hl Hc (_ & _ & Hd). apply (set_conn_opened l m cid c); [done|done|by rewrite Hd]. Qed.

(** What one turn of a goroutine does to the invariant, whatever runs beside it. *)
Record effect (w : world) (t : task) (w' : world) (ts : list task) : Prop := {
  ef_steps : msteps (w_mgr w) (w_mgr w');
  ef_readers : forall l, opened_in (w_mgr w) (readers [t] ++ l) -> opened_in (w_mgr w') (readers ts ++ l);
  ef_known : known (w_mgr w) t -> Forall (known (w_mgr w')) ts;
  ef_ln : w_ln w' = w_ln w;
  ef_accept : Exists accepting ts -> accepting t = true;
  ef_wg : w_wg w' = w_wg w + tally ts - tally [t]
}.

Lemma drop_ends w m cid t : msteps (w_mgr w) m -> loop_of t = Some cid ->
  (forall l, opened_in (w_mgr w) (cid :: l) -> opened_in m (cid :: l)) ->
  (forall l, readers [t] ++ l ⊆ cid :: l) -> counted t = true ->
  effect w t (wg_add (with_mgr w (dropConn m cid)) (-1)) [].
Proof.
  intros Hs Ht Ho Hr Hc. split; cbn [with_mgr wg_add w_mgr w_ln w_wg].
  - eapply msteps_trans; [done|]. apply msteps_one, ms_drop.
  - intros l Hl. cbn. apply (opened_weaken _ (filter (fun k => k <> cid) (cid :: l))).
    { apply drop_closed, Ho. eapply opened_weaken; [done|apply Hr]. }
    intros k [Hk Hin]%list_elem_of_filter. apply elem_of_cons in Hin as [->|]; done.
  - constructor.
  - done.
  - by intros ?%Exists_nil.
  - cbn. rewrite Hc. lia.
Qed.

Lemma launch_effect w opts k e w' ts : handshake_turn w opts k e = (w', ts) -> effect w (Handshaking opts k) w' ts.
Proof.
  unfold handshake_turn. destruct (runHandshake _ _ _ _ _) as [[[m st] fs] out] eqn:Hr.
  pose proof (handshake_msteps _ _ _ _ _ _ _ _ _ Hr) as Hs.
  assert (Hopen : forall l, opened_in (w_mgr w) l ->
    opened_in m (match launched (w_mgr w) m with Some cid => [cid] | None => [] end ++ l)).
  { intros l Hl. unfold launched. destruct (handshake_steps _ _ _ _ _ _ _ _ _ Hr) as [[_ Hh]|(m1 & c & _ & Hh & Hd & ->)].
    - rewrite Hh, new_conn_free. intros cid c. rewrite Hh. apply Hl.
    - assert (H1' : opened_in (offer m1 (new_conn (w_mgr w), c)) (new_conn (w_mgr w) :: l)).
      { apply offer_opened; [|rewrite Hh; apply new_conn_free]. intros cid cc. rewrite Hh. apply Hl. }
      destruct (m_heap (offer m1 (new_conn (w_mgr w), c)) !! new_conn (w_mgr w)) as [c1|] eqn:Hc1.
      + destruct (c_done c1) eqn:Hd1; [|done]. intros k0 ck Hk Hdk.
        pose proof (H1' _ _ Hk Hdk) as Hin. apply elem_of_cons in Hin as [->|]; [congruence|done].
      + intros k0 ck Hk Hdk. pose proof (H1' _ _ Hk Hdk) as Hin. apply elem_of_cons in Hin as [->|]; [congruence|done]. }
  assert (Hk : forall cid, launched (w_mgr w) m = Some cid -> is_Some (m_heap m !! cid)).
  { intros cid. unfold launched. destruct (m_heap m !! new_conn (w_mgr w)) as [c|] eqn:E; [|done].
    destruct (c_done c); [done|]. intros [= <-]. eauto. }
  destruct (launched (w_mgr w) m) as [cid|]; intros [= <- <-].
  - split.
    + by destruct k.
    + intros l Hl. destruct k; by apply Hopen.
    + intros _. assert (Hg : is_Some (m_heap m !! cid)) by by apply Hk.
      destruct k; repeat constructor; by intros ? [= <-].
    + by destruct k.
    + intros Hx. repeat (apply Exists_cons in Hx as [Hx|Hx]; [done|]). by apply Exists_nil in Hx.
    + destruct k; cbn; lia.
  - split.
    + by destruct k.
    + intros l Hl. destruct k; by apply Hopen.
    + constructor.
    + by destruct k.
    + by intros ?%Exists_nil.
    + destruct k; cbn; lia.
Qed.

(** A loop that goes on over an operation without new connections. *)
Lemma loop_goes_on w m t t' : msteps (w_mgr w) m -> (forall l, opened_in (w_mgr w) l -> opened_in m l) ->
  readers [t'] = readers [t] -> loop_of t' = loop_of t -> counted t' = counted t -> accepting t' = false ->
  effect w t (with_mgr w m) [t'].
Proof.
  intros Hs Ho Hr Hl Hc Ha. split; cbn [with_mgr w_mgr w_ln w_wg].
  - done.
  - intros l Hi. rewrite Hr. by apply Ho.
  - intros Hk. constructor; [|constructor]. intros cid Hcid. rewrite Hl in Hcid.
    destruct (Hk _ Hcid) as [c Hm]. destruct (msteps_later _ _ Hs _ _ Hm) as (c' & -> & _). done.
  - done.
  - intros [Hx|Hx]%Exists_cons; [by rewrite Ha in Hx|by apply Exists_nil in Hx].
  - cbn. rewrite Hc. lia.
Qed.

(** A loop that ends without dropping: its connection was closed already. *)
Lemma loop_ends w m t : msteps (w_mgr w) m -> (forall l, opened_in (w_mgr w) l -> opened_in m l) ->
  readers [t] = [] -> counted t = true -> effect w t (wg_add (with_mgr w m) (-1)) [].
Proof.
  intros Hs Ho Hr Hc. split; cbn [with_mgr wg_add w_mgr w_ln w_wg].
  - done.
  - intros l Hi. rewrite Hr in Hi. by apply Ho.
  - constructor.
  - done.
  - by intros ?%Exists_nil.
  - cbn. rewrite Hc. lia.
Qed.

Lemma read_opened l m cid buf rng : opened_in m l -> opened_in (readFrame m cid buf rng).1 l.
Proof.
  apply (read_keeps (fun m => opened_in m l)); [apply emit_opened|apply update_opened].
Qed.

Lemma tick_opened l m cid rng : opened_in m l -> opened_in (keepaliveTick m cid rng).1 l.
Proof.
  apply (tick_keeps (fun m => opened_in m l)); [apply update_opened|apply drop_opened].
Qed.

Lemma write_opened l m cid sent : opened_in m l -> opened_in (writeTurn m cid sent).1 l.
Proof.
  apply (write_keeps (fun m => opened_in m l)); [apply update_opened|apply drop_opened].
Qed.

Lemma with_mgr_same w : with_mgr w (w_mgr w) = w.
Proof. by destruct w. Qed.

Lemma runs_effect w t w' ts : runs w t (w', ts) -> effect w t w' ts.
Proof.
  intros Hr. inversion Hr; subst; clear Hr.
  - split; try apply msteps_refl; try done; cbn; [|lia]. by repeat constructor.
  - split; try apply msteps_refl; try done; cbn; [|lia]. by repeat constructor.
  - split; try apply msteps_refl; try done; cbn; lia.
  - by apply launch_effect with (e := e).
  - unfold read_turn in *. pose proof (ms_read (w_mgr w) cid buf rng) as Hs.
    pose proof (fun l => read_opened l (w_mgr w) cid buf rng) as Ho.
    destruct (readFrame (w_mgr w) cid buf rng) as [m go]. cbn [fst] in *. destruct go; simplify_eq.
    + apply loop_goes_on; try done. by apply msteps_one.
    + apply drop_ends; try done; [by apply msteps_one|]. intros l. apply Ho.
  - unfold read_fails in *. simplify_eq. apply drop_ends; try done. apply msteps_refl.
  - unfold write_turn in *. pose proof (ms_write (w_mgr w) cid sent) as Hs.
    pose proof (fun l => write_opened l (w_mgr w) cid sent) as Ho.
    destruct (writeTurn (w_mgr w) cid sent) as [m out]. cbn [fst] in *. destruct out; [destruct sent|]; simplify_eq.
    + apply loop_goes_on; try done. by apply msteps_one.
    + apply loop_ends; try done. by apply msteps_one.
    + rewrite <- (with_mgr_same w) at 2. apply loop_ends; try done. apply msteps_refl.
  - unfold probe_turn in *. pose proof (ms_keepalive (w_mgr w) cid rng) as Hs.
    pose proof (fun l => tick_opened l (w_mgr w) cid rng) as Ho.
    destruct (keepaliveTick (w_mgr w) cid rng) as [m go]. cbn [fst] in *. destruct go; simplify_eq.
    + apply loop_goes_on; try done. by apply msteps_one.
    + apply loop_ends; try done. by apply msteps_one.
Qed.

Lemma readers_perm (a b c : list task) : readers (a ++ b ++ c) ⊆ readers b ++ readers a ++ readers c.
Proof. rewrite !readers_app. set_solver. Qed.

Lemma turn_ok n n' : turn n n' -> node_ok n -> node_ok n'.
Proof.
  intros [w l1 t l2 w' ts Hr%runs_effect]. unfold node_ok. cbn [n_world n_tasks].
  intros [W1 W2 W3 W4 W5]. destruct Hr as [E1 E2 E3 E4 E5 E6].
  apply Forall_app in W3 as [K1 [Kt K2]%Forall_cons_iff]. pose proof (msteps_later _ _ E1) as Hl.
  split.
  - by apply (msteps_exact _ _ E1).
  - eapply opened_weaken; [apply (E2 (readers l1 ++ readers l2))|].
    + eapply opened_weaken; [exact W2|]. change (t :: l2) with ([t] ++ l2). apply readers_perm.
    + rewrite !readers_app. set_solver.
  - assert (Hk : forall l, Forall (known (w_mgr w)) l -> Forall (known (w_mgr w')) l).
    { intros l Hf. eapply Forall_impl; [exact Hf|]. intros t'. by apply known_later. }
    apply Forall_app. split; [by apply Hk|]. apply Forall_app. split; [by apply E3|by apply Hk].
  - rewrite E4. intros Hx. apply W4. apply Exists_app in Hx as [Hx|Hx]; [apply Exists_app; by left|].
    apply Exists_app. right. apply Exists_cons. apply Exists_app in Hx as [Hx|Hx]; [left; by apply Is_true_true, E5|by right].
  - rewrite E6, W5, !tally_app. cbn. lia.
Qed.

(** A call that only works on the manager. *)
Lemma mgr_call_ok n m : msteps (w_mgr (n_world n)) m -> (forall l, opened_in (w_mgr (n_world n)) l -> opened_in m l) ->
  node_ok n -> node_ok (Node (with_mgr (n_world n) m) (n_tasks n)).
Proof.
  intros Hs Ho [W1 W2 W3 W4 W5]. split; cbn; [by apply (msteps_exact _ _ Hs)|by apply Ho| |done|done].
  eapply Forall_impl; [exact W3|]. intros t. apply known_later, msteps_later, Hs.
Qed.

(** A call that starts goroutines without a connection of their own. *)
Lemma spawn_ok n ln ts : node_ok n -> readers ts = [] -> Forall (fun t => loop_of t = None) ts ->
  (Exists accepting ts -> is_Some ln) -> (is_Some (w_ln (n_world n)) -> is_Some ln) ->
  node_ok (Node (wg_add (with_ln (n_world n) ln) (tally ts)) (n_tasks n ++ ts)).
Proof.
  intros [W1 W2 W3 W4 W5] Hr Hl He Hs. split; cbn; [done| | | |].
  - by rewrite readers_app, Hr, app_nil_r.
  - apply Forall_app. split; [done|]. eapply Forall_impl; [exact Hl|]. intros t Ht cid. by rewrite Ht.
  - intros [Hx|Hx]%Exists_app; [by apply Hs, W4|by apply He].
  - rewrite tally_app. lia.
Qed.

Lemma wg_add_0 w : wg_add w 0 = w.
Proof. destruct w. unfold wg_add. cbn. f_equal. lia. Qed.
Lemma with_ln_same w : with_ln w (w_ln w) = w.
Proof. by destruct w. Qed.

Lemma enqueue_opened l m cid t p rng : opened_in m l -> opened_in (enqueue m cid t p rng).1 l.
Proof. apply (enqueue_keeps (fun m => opened_in m l)), update_opened. Qed.

Lemma broadcast_steps order : forall m text rng k, msteps m (broadcast m order text rng k).1 /\
  forall l, opened_in m l -> opened_in (broadcast m order text rng k).1 l.
Proof.
  induction order as [|cid order IH]; intros m text rng k; cbn [broadcast]; [split; [apply msteps_refl|done]|].
  pose proof (ms_enqueue m cid TypeChat (encodeChatPayload text) rng) as Hs.
  pose proof (fun l => enqueue_opened l m cid TypeChat (encodeChatPayload text) rng) as Ho.
  destruct (enqueue m cid TypeChat (encodeChatPayload text) rng) as [m1 r]. cbn [fst] in *.
  destruct (IH m1 text rng (match r with Ok _ => k + 1 | _ => k end)) as [I1 I2].
  split; [by eapply msteps_step|]. intros l Hl. by apply I2, Ho.
Qed.

Lemma announce_opened l m cid : opened_in m l -> opened_in (announce m cid) l.
Proof.
  intros Hl. unfold announce. destruct (m_heap m !! cid) as [c|] eqn:Hc; [|done]. destruct (c_done c); [done|].
  case_decide; [|done]. destruct (c_announced c); [done|]. apply emit_opened. by apply (update_opened l m cid c).
Qed.

Lemma dropped_order order : forall m, msteps m (foldl dropConn m order) /\
  forall l, opened_in m l -> opened_in (foldl dropConn m order) (filter (fun k => k ∉ order) l).
Proof.
  induction order as [|cid order IH]; intros m; cbn [foldl].
  { split; [apply msteps_refl|]. intros l Hl. eapply opened_weaken; [done|]. intros k Hk. apply list_elem_of_filter.
    split; [apply not_elem_of_nil|done]. }
  destruct (IH (dropConn m cid)) as [I1 I2]. split; [eapply msteps_step; [apply ms_drop|done]|].
  intros l Hl. apply (drop_closed m cid l), I2 in Hl. eapply opened_weaken; [exact Hl|].
  intros k [Hk [Hne Hin]%list_elem_of_filter]%list_elem_of_filter. apply list_elem_of_filter. split; [|done].
  by intros [->|]%elem_of_cons.
Qed.

Lemma closes_order order : forall m rng, let m' := foldl (fun m cid => (enqueue m cid TypeClose [] rng).1) m order in
  msteps m m' /\ forall l, opened_in m l -> opened_in m' l.
Proof.
  induction order as [|cid order IH]; intros m rng; cbn [foldl]; [split; [apply msteps_refl|done]|].
  destruct (IH (enqueue m cid TypeClose [] rng).1 rng) as [I1 I2].
  split; [eapply msteps_step; [apply ms_enqueue|done]|]. intros l Hl. by apply I2, enqueue_opened.
Qed.

(** [Shutdown] closes every connection it enumerates. *)
Lemma Shutdown_spec m order rng : exists m0, m_heap m0 = m_heap m /\ m_conns m0 = m_conns m /\ m_closing m0 = true /\ m_id m0 = m_id m /\
  msteps m0 (Shutdown m order rng) /\
  forall l, opened_in m l -> opened_in (Shutdown m order rng) (filter (fun k => k ∉ order) l).
Proof.
  unfold Shutdown. set (m0 := mkManager _ _ _ _ _ _). exists m0. do 4 (split; [done|]).
  set (m1 := foldl _ m0 order).
  destruct (closes_order order m0 rng) as [G1 G2].
  destruct (dropped_order order m1) as [D1 D2].
  split; [by eapply msteps_trans|]. intros l Hl. by apply D2, G2.
Qed.

Lemma stop_ok n order rng : node_ok n -> node_ok (stop n order rng).
Proof.
  intros [W1 W2 W3 W4 W5]. destruct (Shutdown_spec (w_mgr (n_world n)) order rng) as (m0 & Hh & Hc & _ & _ & Hs & Ho).
  split; cbn.
  - apply (msteps_exact _ _ Hs). destruct W1 as [R1 R2]. unfold registry_exact, registry_ok, live_registered.
    rewrite Hh, Hc. done.
  - eapply opened_weaken; [by apply Ho|]. intros k Hk. by apply list_elem_of_filter in Hk as [_ ?].
  - eapply Forall_impl; [exact W3|]. intros t. apply known_later. intros cid c. rewrite <- Hh.
    by apply msteps_later.
  - intros Hx. apply fmap_is_Some. by apply W4.
  - done.
Qed.

Lemma spawn_handshake_ok n o : node_ok n ->
  node_ok (Node (wg_add (n_world n) 1) (n_tasks n ++ [Handshaking o true])).
Proof.
  intros Hn. rewrite <- (with_ln_same (n_world n)). apply (spawn_ok n _ [Handshaking o true]); try done.
  - by repeat constructor.
  - intros [Hx|Hx]%Exists_cons; [done|by apply Exists_nil in Hx].
Qed.

Lemma call_ok n n' : call n n' -> node_ok n -> node_ok n'.
Proof.
  intros Hc Hn. destruct Hc.
  - unfold Listen. case_decide; [done|]. destruct bound as [a|]; [|done]. cbn [fst].
    apply (spawn_ok n _ [Accepting None]); try done; by repeat constructor.
  - by destruct Hn.
  - by apply spawn_handshake_ok.
  - unfold Connect. destruct dialled; [by apply spawn_handshake_ok|done].
  - pose proof (spawn_ok n (w_ln (n_world n)) [Handshaking opts false] Hn) as Hs.
    cbn [tally counted] in Hs. rewrite wg_add_0, with_ln_same in Hs. apply Hs; try done.
    + by repeat constructor.
    + intros [Hx|Hx]%Exists_cons; [done|by apply Exists_nil in Hx].
  - destruct Hn as [W1 W2 W3 W4 W5]. cbn [n_world n_tasks] in *.
    split; cbn [n_world n_tasks]; [done| | | |].
    + rewrite readers_app in *. exact W2.
    + apply Forall_app in W3 as [? [? ?]%Forall_cons_iff]. apply Forall_app. split; [done|]. by constructor.
    + intros Hx. apply W4. apply Exists_app in Hx as [Hx|Hx]; apply Exists_app; [by left|right].
      apply Exists_cons in Hx as [Hx|Hx]; [done|]. by right.
    + rewrite tally_app in *. exact W5.
  - apply mgr_call_ok; [apply msteps_one, ms_announce|intros l; apply announce_opened|done].
  - apply mgr_call_ok; [apply msteps_one, ms_send| |done]. intros l Hl. unfold Manager.Send.
    destruct (m_byName _ !! name); [by apply enqueue_opened|done].
  - destruct (broadcast_steps order (w_mgr (n_world n)) text rng 0) as [Hb1 Hb2]. by apply mgr_call_ok.
  - apply mgr_call_ok; [apply msteps_one, ms_disconnect| |done]. intros l Hl. unfold Disconnect.
    destruct (m_byName _ !! name); [by apply drop_opened, enqueue_opened|done].
  - destruct Hn as [W1 W2 W3 W4 W5]. unfold Events.
    destruct (m_events (w_mgr (n_world n))) as [|ev evs]; cbn [fst];
      [rewrite with_mgr_same; by destruct n|]. by split.
  - by apply stop_ok.
Qed.

Lemma start_node_ok id st fs : node_ok (start id st fs).
Proof.
  split; cbn; [split; apply map_Forall_empty|by intros ??|constructor|by intros ?%Exists_nil|done].
Qed.

Lemma reachable_ok n0 n : reachable n0 n -> node_ok n0 -> node_ok n.
Proof. induction 1; [done|intros; by eapply turn_ok; eauto|intros; by eapply call_ok; eauto]. Qed.

(** No counted goroutine is left when the group is at zero. *)
Lemma tally_zero ts : tally ts = 0 -> Forall (fun t => counted t = false) ts.
Proof.
  induction ts as [|t ts IH]; cbn; [constructor|]. pose proof (tally_nonneg ts).
  destruct (counted t) eqn:E; [lia|]. intros Hz. constructor; [done|apply IH; lia].
Qed.


(** *** The wait after [Shutdown] *)

(** No handshake is in progress and no accepted connection is about to start
    one. *)
Definition settled (t : task) : Prop :=
  match t with Handshaking _ _ => False | Accepting (Some _) => False | _ => True end.

Definition stopped (w : world) : Prop :=
  (forall cid c, m_heap (w_mgr w) !! cid = Some c -> c_done c = true) /\
  match w_ln w with Some ln => ln_open ln = false | None => True end.

(** What is left to do: every goroutine has one turn more than frames to read. *)
Definition work (ts : list task) : nat :=
  sum_list_with (fun t => match t with Reading _ fs => S (length fs) | _ => 1%nat end) ts.

(** A read loop is only ever continued by itself. *)
Lemma runs_readers w t w' ts cid : settled t -> runs w t (w', ts) -> cid ∈ readers ts -> loop_of t = Some cid.
Proof.
  intros Hset Hr. inversion Hr; subst; cbn in Hset; try done; try (cbn; by intros ?%not_elem_of_nil).
  - unfold read_turn in *. destruct (readFrame _ _ _ _) as [m go]. destruct go; simplify_eq; cbn.
    + by intros ->%list_elem_of_singleton.
    + by intros ?%not_elem_of_nil.
  - unfold write_turn in *. destruct (writeTurn _ _ _) as [m [b|]]; [destruct sent|]; simplify_eq; cbn;
      by intros ?%not_elem_of_nil.
  - unfold probe_turn in *. destruct (keepaliveTick _ _ _) as [m go]. destruct go; simplify_eq; cbn;
      by intros ?%not_elem_of_nil.
Qed.

Lemma stopped_later w w' : opened_in (w_mgr w') [] -> w_ln w' = w_ln w -> stopped w -> stopped w'.
Proof.
  intros Ho Hln [Hd Hl]. split; [|by rewrite Hln]. intros cid c Hc. destruct (c_done c) eqn:E; [done|].
  by apply (Ho _ _ Hc), not_elem_of_nil in E.
Qed.

Lemma stopped_opened w l : stopped w -> opened_in (w_mgr w) l.
Proof. intros [Hd _] cid c Hc E. rewrite (Hd _ _ Hc) in E. done. Qed.

(** In a stopped world a settled goroutine starts nothing, reads what it has left
    and ends. *)
Lemma stopped_runs w t w' ts : stopped w -> settled t -> known (w_mgr w) t -> runs w t (w', ts) ->
  stopped w' /\ Forall settled ts /\ (work ts < work [t])%nat.
Proof.
  intros Hst Hset Hk Hr.
  pose proof (runs_effect _ _ _ _ Hr) as [E1 E2 _ E4 _ _].
  assert (Hopen : opened_in (w_mgr w') (readers ts ++ [])) by apply E2, stopped_opened, Hst.
  assert (Hcid : forall cid, loop_of t = Some cid -> exists c, m_heap (w_mgr w) !! cid = Some c /\ c_done c = true).
  { intros cid Hcid. destruct (Hk _ Hcid) as [c Hc]. exists c. split; [done|]. by apply Hst in Hc. }
  assert (Hst' : stopped w').
  { apply (stopped_later w); [|done|done].
    intros cid c Hc Hd. pose proof (Hopen _ _ Hc Hd) as Hin. rewrite app_nil_r in Hin.
    destruct (Hcid cid) as (c0 & Hc0 & Hd0); [by eapply runs_readers|].
    destruct (msteps_later _ _ E1 _ _ Hc0) as (c1 & Hc1 & Hd1). rewrite Hc in Hc1. simplify_eq.
    rewrite (Hd1 Hd0) in Hd. done. }
  split; [done|]. inversion Hr; subst; cbn in Hset; try done.
  - destruct Hst as [_ Hl]. match goal with E : w_ln _ = Some _, E' : AcceptConn _ ?a = _ |- _ =>
      rewrite E in Hl; unfold AcceptConn in E'; destruct a; by rewrite ?Hl in E' end.
  - split; [constructor|cbn; lia].
  - unfold read_turn in *. destruct (readFrame _ _ _ _) as [m go]. destruct go; simplify_eq.
    + split; [by repeat constructor|cbn; lia].
    + split; [constructor|cbn; lia].
  - unfold read_fails in *. simplify_eq. split; [constructor|cbn; lia].
  - destruct (Hcid _ eq_refl) as (c0 & Hc0 & Hd0). unfold write_turn, writeTurn in *. rewrite Hc0, Hd0 in *.
    simplify_eq. split; [constructor|cbn; lia].
  - destruct (Hcid _ eq_refl) as (c0 & Hc0 & Hd0). unfold probe_turn, keepaliveTick in *. rewrite Hc0, Hd0 in *.
    simplify_eq. split; [constructor|cbn; lia].
Qed.

Lemma stop_stopped n order rng : node_ok n ->
  (forall fp cid, m_conns (w_mgr (n_world n)) !! fp = Some cid -> cid ∈ order) -> stopped (n_world (stop n order rng)).
Proof.
  intros [[R1 R2] W2 W3 W4 W5] Hall.
  destruct (Shutdown_spec (w_mgr (n_world n)) order rng) as (m0 & _ & _ & _ & _ & _ & Ho). split; cbn.
  - intros cid c Hc. destruct (c_done c) eqn:E; [done|]. specialize (Ho order). exfalso.
    assert (Hin : cid ∈ filter (fun k => k ∉ order) order).
    { eapply Ho; [|exact Hc|exact E]. intros k ck Hk Hd. eapply Hall. by apply (R2 _ _ Hk). }
    by apply list_elem_of_filter in Hin as [? ?].
  - by destruct (w_ln (n_world n)).
Qed.

Record halting (n : node) : Prop := {
  ha_ok : node_ok n;
  ha_stopped : stopped (n_world n);
  ha_settled : Forall settled (n_tasks n)
}.

Lemma halting_turn n n' : turn n n' -> halting n -> halting n' /\ (work (n_tasks n') < work (n_tasks n))%nat.
Proof.
  intros Ht [Ho Hs Hset]. pose proof (turn_ok _ _ Ht Ho) as Ho'. destruct Ht as [w l1 t l2 w' ts Hr].
  cbn [n_world n_tasks] in *. apply Forall_app in Hset as [S1 [St S2]%Forall_cons_iff].
  destruct Ho as [_ _ W3 _ _]. cbn in W3. apply Forall_app in W3 as [_ [Kt _]%Forall_cons_iff].
  destruct (stopped_runs _ _ _ _ Hs St Kt Hr) as (Hs' & Hts & Hw). split.
  - split; [done|done|]. cbn. apply Forall_app. split; [done|]. apply Forall_app. by split.
  - unfold work in *. rewrite !sum_list_with_app. cbn in *. lia.
Qed.

Lemma halting_progress n : halting n -> w_wg (n_world n) = 0 \/ exists n', turn n n'.
Proof.
  intros [[_ _ W3 W4 W5] [Hd _] Hset]. destruct n as [w [|t ts]]; cbn in *; [by left|right].
  apply Forall_cons_iff in Hset as [St _]. apply Forall_cons_iff in W3 as [Kt _].
  assert (Hrun : exists w' ts', runs w t (w', ts')).
  { destruct t as [[r|]|o k|cid fs|cid|cid]; try done.
    - destruct W4 as [ln Hln]; [by left|]. do 2 eexists. by eapply (r_accept_end _ ln None).
    - do 2 eexists. apply r_read_fails.
    - destruct (Kt cid eq_refl) as [c Hc].
      destruct (write_turn w cid true) as [w' ts'] eqn:E. exists w', ts'. rewrite <- E. apply r_write.
      exists c. split; [done|]. left. by eapply Hd.
    - destruct (probe_turn w cid []) as [w' ts'] eqn:E. exists w', ts'. rewrite <- E. apply r_probe. }
  destruct Hrun as (w' & ts' & Hr). eexists. by apply (turn_of w [] t ts).
Qed.

Lemma halting_turns k n n' : turns k n n' -> halting n -> halting n' /\ (k + work (n_tasks n') <= work (n_tasks n))%nat.
Proof.
  induction 1 as [|k n1 n2 n3 Ht _ IH]; intros Hh; [done|].
  destruct (halting_turn _ _ Ht Hh) as [H2' Hw]. destruct (IH H2') as [H3' Hk]. split; [done|lia].
Qed.

End lifecycle.

(** ** One failing accept *)
Section accepting.
Context `{CryptoOps, SignatureOps, DHOps, PeersJSON}.

(** Nothing accepts, and the listener is the one at the address [addr]. *)
Definition deaf (addr : bytes) (n : node) : Prop :=
  ~ Exists accepting (n_tasks n) /\ ListenAddr (n_world n) = addr /\ is_Some (w_ln (n_world n)).

Lemma no_accepting_app l1 l2 : ~ Exists accepting (l1 ++ l2) <-> ~ Exists accepting l1 /\ ~ Exists accepting l2.
Proof. rewrite Exists_app. naive_solver. Qed.

Lemma deaf_turn addr n n' : turn n n' -> deaf addr n -> deaf addr n'.
Proof.
  intros [w l1 t l2 w' ts Hr%runs_effect] (Hd & Ha & Hl). unfold deaf in *. cbn [n_world n_tasks] in *.
  unfold ListenAddr in *. rewrite (ef_ln _ _ _ _ Hr). split; [|done].
  change (t :: l2) with ([t] ++ l2) in Hd. rewrite !no_accepting_app in *. destruct Hd as (H1' & Ht & H2').
  split; [done|]. split; [|done]. intros Hx. apply Ht. left. by apply Is_true_true, (ef_accept _ _ _ _ Hr).
Qed.

Lemma deaf_call addr n n' : call n n' -> deaf addr n -> deaf addr n'.
Proof.
  intros Hc (Hd & Ha & Hl). unfold deaf.
  assert (Hone : forall t, accepting t = false -> ~ Exists accepting (n_tasks n ++ [t])).
  { intros t Ht. apply no_accepting_app. split; [done|]. intros [Hx|Hx]%Exists_cons; [by rewrite Ht in Hx|by apply Exists_nil in Hx]. }
  destruct Hc; cbn [fst] in *; try done.
  - destruct Hl as [? Hl]. congruence.
  - by split; [apply Hone|].
  - unfold Connect. destruct dialled; cbn; [by split; [apply Hone|]|done].
  - by split; [apply Hone|].
  - cbn [n_world n_tasks] in *. split; [|done]. intros Hx. apply Hd. apply Exists_app in Hx as [Hx|Hx]; apply Exists_app; [by left|right].
    apply Exists_cons in Hx as [Hx|Hx]; [done|by right].
  - cbn [stop n_world n_tasks w_ln]. split; [done|]. unfold ListenAddr in *. cbn [w_ln].
    destruct (w_ln (n_world n)); [done|]. by destruct Hl.
Qed.

(** An accept that fails while the listener is open, for want of a file
    descriptor say, is the last one: whatever happens afterwards no goroutine
    accepts, the listener stays bound and its address goes on being reported. *)
Theorem accept_failure_final w ln l1 l2 n' : w_ln w = Some ln -> ln_open ln = true -> ~ Exists accepting (l1 ++ l2) ->
  let n := Node (wg_add w (-1)) (l1 ++ l2) in
  turn (Node w (l1 ++ Accepting None :: l2)) n /\
  (reachable n n' -> ~ Exists accepting (n_tasks n') /\ ListenAddr (n_world n') = Addr ln).
Proof.
  intros Hln Ho Hd n. split.
  - apply (turn_of w l1 (Accepting None) l2 _ []). by eapply (r_accept_end _ ln None).
  - intros Hr. assert (deaf (Addr ln) n') as (? & ? & _); [|done].
    induction Hr as [|? ? _ IH Ht|? ? _ IH Hc]; [|by eapply deaf_turn|by eapply deaf_call].
    split; [done|]. cbn. unfold ListenAddr. cbn. rewrite Hln. split; [done|by eexists].
Qed.
End accepting.


(** ** A handshake in progress at shutdown *)
Section late.
Context `{CryptoLaws, SignatureLaws, DHLaws, PeersJSON}.

Lemma msteps_closing m m' : msteps m m' -> m_closing m = true -> m_closing m' = true.
Proof.
  apply (msteps_keep (fun m => m_closing m = true)).
  - intros m1 ev Hc. unfold emit. by case_decide.
  - done.
  - intros m1 cid Hc. unfold dropConn. destruct (m_heap m1 !! cid) as [c|]; [|done]. destruct (c_done c); [done|].
    unfold unregister, emit. by repeat case_decide; destruct (c_announced c).
  - intros m1 cid c Hc _ _. unfold offer, register. cbn [fst snd].
    destruct (m_conns _ !! c_fp c) as [o|]; [|done]. destruct (m_heap _ !! o) as [old|]; [|done].
    destruct (c_announced old && _); [done|]. by destruct (negb _).
Qed.

(** C23: the closing flag stops nothing: when Shutdown is called while a handshake
    with an honest peer is in progress, that handshake goes on, its connection
    is registered and its three loops are counted in the group Shutdown waits
    for; the manager still shows what the peer writes and delivers what is sent,
    for as long as the two sides please. *)
Theorem late_handshake_survives id st fs n l1 oa k l2 order rng mb stb fsb ob ea eb :
  reachable (start id st fs) n -> n_tasks n = l1 ++ Handshaking oa k :: l2 ->
  (forall fp cid, m_conns (w_mgr (n_world n)) !! fp = Some cid -> cid ∈ order) ->
  let a := m_id (w_mgr (n_world (stop n order rng))) in
  let b := m_id mb in
  keyed a -> keyed b -> nameable a -> nameable b -> pub a <> pub b -> able ea -> able eb ->
  o_initiator oa = true -> o_initiator ob = false -> o_pairing oa = o_pairing ob ->
  m_conns mb !! Fingerprint a = None ->
  recordable (w_store (n_world n)) (w_fs (n_world n)) ea b -> recordable stb fsb eb a ->
  exists ia ib n' mb' stb' fsb' ca cb ta tb,
    wired a b oa ob ea eb ia ib /\ turn (stop n order rng) n' /\
    runHandshake mb stb fsb ob (with_inbox eb ib) = (mb', stb', fsb', Ok tt) /\
    m_closing (w_mgr (n_world n')) = true /\ m_conns (w_mgr (n_world n')) !! Fingerprint b = Some ca /\
    3 <= w_wg (n_world n') /\
    forall script, Forall line_ok script -> len script + 1 < 2 ^ 64 ->
      chat (w_mgr (n_world n')) mb' ca cb (Name a) (Name b) script =
        shown (Fingerprint a) (Name a) ta (Fingerprint b) (Name b) tb <$> script.
Proof.
  intros Hr Hts Hall a b Ka Kb Na Nb Hne Aa Ab Ia Ib Hk Fb Ra Rb.
  pose proof (reachable_ok _ _ Hr (start_node_ok id st fs)) as Ho.
  pose proof (stop_ok n order rng Ho) as Ho0. destruct (stop_stopped n order rng Ho Hall) as [Hcl _].
  destruct (Shutdown_spec (w_mgr (n_world n)) order rng) as (m0 & _ & _ & Hc0 & _ & Hs0 & _).
  set (ms := Shutdown (w_mgr (n_world n)) order rng) in *.
  pose proof (msteps_closing _ _ Hs0 Hc0) as Hclosing.
  assert (Hfree : m_conns ms !! Fingerprint b = None).
  { destruct (m_conns ms !! Fingerprint b) as [cid|] eqn:E; [|done]. destruct Ho0 as [[R1 _] _ _ _ _].
    destruct (R1 _ _ E) as (c & Hc & _ & Hd). rewrite (Hcl _ _ Hc) in Hd. done. }
  destruct (wired_exchange a b oa ob ea eb (2 ^ 64 - 2)) as
    (ia & ib & ra & rb & sa & sb & R & Hw & Ha & Hb & N1 & N2 & N3 & N4 & N5 & N6 & Hl); try done.
  specialize (Ha ms (w_store (n_world n)) (w_fs (n_world n)) eq_refl). specialize (Hb mb stb fsb eq_refl).
  destruct (record_links ms (w_store (n_world n)) (w_fs (n_world n)) oa (with_inbox ea ia) ra sa) as
    (ma' & sta' & fsa' & ca & tb & Pa & Hca & La); [by rewrite N3|by rewrite N1, N2|].
  destruct (record_links mb stb fsb ob (with_inbox eb ib) rb sb) as (mb' & stb' & fsb' & cb & ta & Pb & _ & Lb);
    [by rewrite N6|by rewrite N4, N5|].
  rewrite N1, N3 in La. rewrite N4, N6 in Lb. rewrite Pa in Ha. rewrite Pb in Hb.
  destruct (handshake_turn (n_world (stop n order rng)) oa k (with_inbox ea ia)) as [w' ts] eqn:Hturn.
  pose proof (r_handshake (n_world (stop n order rng)) oa k (with_inbox ea ia)) as Hrun. rewrite Hturn in Hrun.
  unfold handshake_turn in Hturn. cbn [stop n_world w_mgr w_store w_fs w_ln w_hook w_wg] in Hturn. fold ms in Hturn.
  rewrite Ha in Hturn. destruct (le_conn _ _ _ _ _ _ La) as (addr & path & u & ann & Hheap).
  unfold launched in Hturn. rewrite <- Hca, Hheap in Hturn. cbn [c_done] in Hturn.
  assert (Hmgr : w_mgr w' = ma' /\ ts = [Reading ca []; Writing ca; Probing ca]).
  { destruct k; simplify_eq; done. }
  destruct Hmgr as [Hmgr Hloops].
  assert (Ht : turn (stop n order rng) (Node w' (l1 ++ ts ++ l2))).
  { replace (stop n order rng) with (Node (n_world (stop n order rng)) (l1 ++ Handshaking oa k :: l2));
      [by apply turn_of|]. rewrite <- Hts. by destruct n. }
  exists ia, ib, (Node w' (l1 ++ ts ++ l2)), mb', stb', fsb', ca, cb, ta, tb. cbn [n_world]. rewrite Hmgr.
  split_and!; [by apply Hw|done|done| |apply La| |].
  - by apply (msteps_closing ms); [eapply handshake_msteps|].
  - pose proof (wo_wg _ _ (turn_ok _ _ Ht Ho0)) as E. cbn [n_world n_tasks] in E. rewrite E, Hloops, !tally_app.
    pose proof (tally_nonneg l1). pose proof (tally_nonneg l2). cbn. lia.
  - intros script Hok Hn. eapply chat_ok; [|done|done|done]. eapply lockstep_le; [|done]. lia.
Qed.
End late.

(** ** Sample runs *)
Module SampleLife.
Import Crypto.Toy ToyId ToyDH ToyPeers SamplePair.

(** A node that listens, and then shuts down. *)
Definition fresh_node : node := start (ident x01 "alice") none ∅.
Definition listening : node := (Listen fresh_node (str ":7331") (Some (str "[::]:7331"))).1.

(** A node that has dialled a peer, whose handshake is still going on. *)
Definition dialling : node := (Connect fresh_node true).1.
Definition open_ini : AdoptOptions := mkAdopt true [] PathDirect.
Definition open_rsp : AdoptOptions := mkAdopt false [] PathDirect.

Lemma listening_reachable : reachable fresh_node listening.
Proof. eapply reach_call; [apply reach_start|by apply c_listen]. Qed.

Lemma dialling_reachable : reachable fresh_node dialling.
Proof. eapply reach_call; [apply reach_start|apply c_connect]. Qed.
End SampleLife.
Import Crypto.Toy ToyId ToyDH ToyPeers SamplePair SampleLife.



Lemma late_handshake_survives_witness : exists n' mb' ca cb ta tb,
  turn (stop dialling [] []) n' /\ m_closing (w_mgr (n_world n')) = true /\ 3 <= w_wg (n_world n') /\
  chat (w_mgr (n_world n')) mb' ca cb (str "alice") (str "bob") talk =
    shown (Fingerprint (ident x01 "alice")) (str "alice") ta (Fingerprint (ident x02 "bob")) (str "bob") tb <$> talk.
Proof.
  destruct (late_handshake_survives (ident x01 "alice") none ∅ dialling [] open_ini true [] [] []
    (party x02 "bob") none ∅ open_rsp (env_of x0a x0c x0e (ident x02 "bob")) (env_of x0b x0d x0f (ident x01 "alice")))
    as (ia & ib & n' & mb' & _ & _ & ca & cb & ta & tb & _ & Ht & _ & Hc & _ & Hg & Hs);
    [apply dialling_reachable|reflexivity|intros fp cid E; by apply (lookup_empty_Some (M := gmap bytes) fp cid) in E
    |apply ident_keyed|apply ident_keyed|done|done|apply sample_keys_differ|apply env_able|apply env_able
    |reflexivity|reflexivity|reflexivity|reflexivity|reflexivity|reflexivity|].
  exists n', mb', ca, cb, ta, tb. split; [exact Ht|]. split; [exact Hc|]. split; [exact Hg|].
  apply Hs; [apply talk_ok|reflexivity].
Defined.
