(* ===== verification/Net.v ===== *)
(** The parts of the Go library's packages net, net/netip and strconv the program
    uses: decimal integers, textual IP addresses, and the predicates on address
    classes.  A [net.IP] is a byte slice of length 4 or 16. *)
From Stdlib Require Import ZArith Lia.
From Stdlib Require Import Strings.Byte.
From stdpp Require Import base sets strings numbers option sorting list.
From S2P Require Import Prelude GoStrings.

(** ** Decimal integers *)
Definition digit_val (c : byte) : option Z :=
  if decide (48 <= byte_val c <= 57) then Some (byte_val c - 48) else None.

Fixpoint dec_loop (fuel : nat) (v : Z) (acc : bytes) : bytes :=
  match fuel with
  | O => acc
  | S n => if decide (0 < v) then dec_loop n (v / 10) (to_byte (48 + v mod 10) :: acc) else acc
  end.

(** [strconv.Itoa] of a non-negative int: a number below [2 ^ n] has at most [n]
    digits. *)
Definition Itoa (v : Z) : bytes :=
  if decide (v = 0) then str "0" else dec_loop (S (Z.to_nat (Z.log2 v))) v [].

Fixpoint digits_val (s : bytes) (acc : Z) : option Z :=
  match s with
  | [] => Some acc
  | c :: rest => d ← digit_val c; digits_val rest (acc * 10 + d)
  end.

Definition int_range (z : Z) : option Z := if decide (- 2 ^ 63 <= z < 2 ^ 63) then Some z else None.

(** [strconv.Atoi]: an optional sign and at least one digit, in the range of int. *)
Definition Atoi (s : bytes) : option Z :=
  let '(neg, ds) := match s with x2d :: r => (true, r) | x2b :: r => (false, r) | _ => (false, s) end in
  match ds with
  | [] => None
  | _ => v ← digits_val ds 0; int_range (if neg : bool then - v else v)
  end.

(** ** Textual addresses *)

(** [parseIPv4Fields]: octets between dots, without leading zeros; [fields] are
    the octets read so far, [val] and [n] the value and the number of digits of
    the current one. *)
Fixpoint ipv4_fields (s : bytes) (val n : Z) (fields : bytes) : option bytes :=
  match s with
  | [] => if decide (len fields < 3) then None else Some (fields ++ [to_byte val])
  | c :: rest =>
      match digit_val c with
      | Some d =>
          if decide (n = 1 /\ val = 0) then None
          else if decide (255 < val * 10 + d) then None
          else ipv4_fields rest (val * 10 + d) (n + 1) fields
      | None =>
          if decide (c = x2e) then
            if decide (n = 0 \/ rest = []) then None
            else if decide (len fields = 3) then None
            else ipv4_fields rest 0 0 (fields ++ [to_byte val])
          else None
      end
  end.

Definition hex_val (c : byte) : option Z :=
  let v := byte_val c in
  if decide (48 <= v <= 57) then Some (v - 48)
  else if decide (97 <= v <= 102) then Some (v - 87)
  else if decide (65 <= v <= 70) then Some (v - 55)
  else None.

(** One group of hexadecimal digits: its value, how many there are, the rest. *)
Fixpoint scan_hex (s : bytes) (off acc : Z) : option (Z * Z * bytes) :=
  match s with
  | [] => Some (acc, off, [])
  | c :: rest =>
      match hex_val c with
      | None => Some (acc, off, s)
      | Some d =>
          if decide (3 < off) then None
          else if decide (65535 < acc * 16 + d) then None
          else scan_hex rest (off + 1) (acc * 16 + d)
      end
  end.

(** The loop of [parseIPv6]; [fuel] is the number of groups that still fit, so
    the loop ends with the address full.  [ell] is the position of the ellipsis. *)
Fixpoint ipv6_loop (fuel : nat) (s ip : bytes) (ell : option nat) : option (bytes * option nat * bytes) :=
  match fuel with
  | O => Some (ip, ell, s)
  | S n =>
      match scan_hex s 0 0 with
      | None => None
      | Some (acc, off, rest) =>
          if decide (off = 0) then None
          else
            let ip' := ip ++ [to_byte (Z.shiftr acc 8); to_byte acc] in
            match rest with
            | [] => Some (ip', ell, [])
            | c :: rest1 =>
                if decide (c = x2e) then
                  if decide (ell = None /\ length ip <> 12%nat) then None
                  else if decide (16 < length ip + 4)%nat then None
                  else f ← ipv4_fields s 0 0 []; Some (ip ++ f, ell, [])
                else if decide (c <> x3a) then None
                else match rest1 with
                     | [] => None
                     | c2 :: rest2 =>
                         if decide (c2 = x3a) then
                           if decide (ell <> None) then None
                           else match rest2 with
                                | [] => Some (ip', Some (length ip'), [])
                                | _ => ipv6_loop n rest2 ip' (Some (length ip'))
                                end
                         else ipv6_loop n rest1 ip' ell
                     end
            end
      end
  end.

Definition ipv6_finish (r : bytes * option nat * bytes) : option bytes :=
  let '(ip, ell, s) := r in
  if decide (s <> []) then None
  else if decide (length ip < 16)%nat then
    e ← ell; Some (take e ip ++ replicate (16 - length ip) x00 ++ drop e ip)
  else match ell with Some _ => None | None => Some ip end.

Definition parseIPv6 (s : bytes) : option bytes :=
  if decide (take 2 s = str "::") then
    match drop 2 s with
    | [] => Some (replicate 16 x00)
    | rest => ipv6_loop 8 rest [] (Some O) ≫= ipv6_finish
    end
  else ipv6_loop 8 s [] None ≫= ipv6_finish.

(** The first character that tells the families apart. *)
Fixpoint addr_kind (s : bytes) : option byte :=
  match s with
  | [] => None
  | c :: rest => if decide (c = x2e \/ c = x3a \/ c = x25) then Some c else addr_kind rest
  end.

Definition v4InV6Prefix : bytes := replicate 10 x00 ++ [xff; xff].

(** [net.ParseIP]: an address with a zone is refused, so a percent sign anywhere
    makes the text invalid. *)
Definition ParseIP (s : bytes) : option bytes :=
  match addr_kind s with
  | None => None
  | Some c =>
      if decide (c = x2e) then f ← ipv4_fields s 0 0 []; Some (v4InV6Prefix ++ f)
      else if decide (c = x3a) then if decide (x25 ∈ s) then None else parseIPv6 s
      else None
  end.

(** ** Methods of [net.IP] *)
Definition To4 (ip : bytes) : option bytes :=
  if decide (length ip = 4%nat) then Some ip
  else if decide (length ip = 16%nat /\ take 12 ip = v4InV6Prefix) then Some (drop 12 ip) else None.

Definition To16 (ip : bytes) : option bytes :=
  if decide (length ip = 4%nat) then Some (v4InV6Prefix ++ ip)
  else if decide (length ip = 16%nat) then Some ip else None.

Definition IP_Equal (ip x : bytes) : bool :=
  if decide (length ip = length x) then bool_decide (ip = x)
  else if decide (length ip = 4%nat /\ length x = 16%nat) then bool_decide (v4InV6Prefix ++ ip = x)
  else if decide (length ip = 16%nat /\ length x = 4%nat) then bool_decide (ip = v4InV6Prefix ++ x)
  else false.

Definition IPv4 (a b c d : byte) : bytes := v4InV6Prefix ++ [a; b; c; d].
Definition IPv4zero : bytes := IPv4 x00 x00 x00 x00.
Definition IPv4bcast : bytes := IPv4 xff xff xff xff.
Definition IPv6unspecified : bytes := replicate 16 x00.
Definition IPv6loopback : bytes := replicate 15 x00 ++ [x01].

(** The [i]-th byte; the predicates read it only below the length. *)
Definition at_ (ip : bytes) (i : nat) : Z := byte_val (nth i ip x00).

Definition IsUnspecified (ip : bytes) : bool := IP_Equal ip IPv4zero || IP_Equal ip IPv6unspecified.

Definition IsLoopback (ip : bytes) : bool :=
  match To4 ip with
  | Some ip4 => bool_decide (at_ ip4 0 = 127)
  | None => IP_Equal ip IPv6loopback
  end.

Definition IsPrivate (ip : bytes) : bool :=
  match To4 ip with
  | Some ip4 =>
      bool_decide (at_ ip4 0 = 10) ||
      (bool_decide (at_ ip4 0 = 172) && bool_decide (Z.land (at_ ip4 1) 240 = 16)) ||
      (bool_decide (at_ ip4 0 = 192) && bool_decide (at_ ip4 1 = 168))
  | None => bool_decide (length ip = 16%nat) && bool_decide (Z.land (at_ ip 0) 254 = 252)
  end.

Definition IsMulticast (ip : bytes) : bool :=
  match To4 ip with
  | Some ip4 => bool_decide (Z.land (at_ ip4 0) 240 = 224)
  | None => bool_decide (length ip = 16%nat) && bool_decide (at_ ip 0 = 255)
  end.

Definition IsInterfaceLocalMulticast (ip : bytes) : bool :=
  bool_decide (length ip = 16%nat) && bool_decide (at_ ip 0 = 255) && bool_decide (Z.land (at_ ip 1) 15 = 1).

Definition IsLinkLocalMulticast (ip : bytes) : bool :=
  match To4 ip with
  | Some ip4 => bool_decide (at_ ip4 0 = 224) && bool_decide (at_ ip4 1 = 0) && bool_decide (at_ ip4 2 = 0)
  | None => bool_decide (length ip = 16%nat) && bool_decide (at_ ip 0 = 255) && bool_decide (Z.land (at_ ip 1) 15 = 2)
  end.

Definition IsLinkLocalUnicast (ip : bytes) : bool :=
  match To4 ip with
  | Some ip4 => bool_decide (at_ ip4 0 = 169) && bool_decide (at_ ip4 1 = 254)
  | None => bool_decide (length ip = 16%nat) && bool_decide (at_ ip 0 = 254) && bool_decide (Z.land (at_ ip 1) 192 = 128)
  end.

(** [IP.String]: dotted decimal for IPv4, and for IPv6 lower-case groups with
    the first longest run of at least two zero groups replaced by an ellipsis. *)
Definition hexlow (d : Z) : byte := to_byte (if decide (d < 10) then 48 + d else 87 + d).

Definition hex_group (g : byte * byte) : bytes :=
  let a := byte_val g.1 in let b := byte_val g.2 in
  let ds := [a / 16; a mod 16; b / 16; b mod 16] in
  let sig := match ds with
             | 0 :: 0 :: 0 :: r => r
             | 0 :: 0 :: r => r
             | 0 :: r => r
             | _ => ds
             end in
  hexlow <$> sig.

Fixpoint groups (ip : bytes) : list (byte * byte) :=
  match ip with a :: b :: rest => (a, b) :: groups rest | _ => [] end.

(** Length of the run of zero groups at the front. *)
Fixpoint zero_run (gs : list (byte * byte)) : nat :=
  match gs with
  | g :: rest => if decide (g = (x00, x00)) then S (zero_run rest) else O
  | [] => O
  end.

(** Start and length of the run chosen: [i] is the position of [gs]. *)
Fixpoint best_run (i : nat) (gs : list (byte * byte)) (best : nat * nat) : nat * nat :=
  match gs with
  | [] => best
  | _ :: rest =>
      let l := zero_run gs in
      best_run (S i) rest (if decide (2 <= l /\ best.2 < l)%nat then (i, l) else best)
  end.

Definition join_groups (gs : list (byte * byte)) : bytes := join (str ":") (hex_group <$> gs).

Definition string6 (ip : bytes) : bytes :=
  let gs := groups ip in
  let '(start, l) := best_run 0 gs (O, O) in
  if decide (l = O) then join_groups gs
  else join_groups (take start gs) ++ str "::" ++ join_groups (drop (start + l) gs).

Definition string4 (ip : bytes) : bytes := join (str ".") ((fun b => Itoa (byte_val b)) <$> ip).

Definition IP_String (ip : bytes) : bytes :=
  match To4 ip with
  | Some ip4 => string4 ip4
  | None => if decide (length ip = 16%nat) then string6 ip
            else match ip with [] => str "<nil>" | _ => str "?" ++ (ip ≫= hex2) end
  end.

(** ** Splitting and joining host and port *)
Lemma IndexByte_None s c : IndexByte s c = None <-> c ∉ s.
Proof.
  induction s as [|b s IH]; cbn; [split; [intros _; apply not_elem_of_nil|done]|].
  rewrite not_elem_of_cons. case_decide; [naive_solver|].
  destruct (IndexByte s c); cbn; naive_solver.
Qed.

Lemma LastIndexByte_None s c : c ∉ s -> LastIndexByte s c = None.
Proof.
  induction s as [|b s IH]; cbn; [done|]. rewrite not_elem_of_cons. intros [Hb Hs].
  rewrite IH by done. by rewrite decide_False.
Qed.

Lemma LastIndexByte_app s c t : c ∉ t -> LastIndexByte (s ++ c :: t) c = Some (length s).
Proof.
  intros Ht. induction s as [|b s IH]; cbn; [|by rewrite IH].
  rewrite LastIndexByte_None by done. by rewrite decide_True.
Qed.

Lemma IndexByte_app s c t : c ∉ s -> IndexByte (s ++ c :: t) c = Some (length s).
Proof.
  induction s as [|b s IH]; cbn; [by rewrite decide_True|]. rewrite not_elem_of_cons. intros [Hb Hs].
  rewrite decide_False by done. by rewrite IH.
Qed.

(** Text without the characters that delimit hosts and ports. *)
Definition port_ok (p : bytes) : Prop := x3a ∉ p /\ x5b ∉ p /\ x5d ∉ p.
Definition host_ok (h : bytes) : Prop := x5b ∉ h /\ x5d ∉ h.

Ltac no_index := rewrite decide_False by
  (intros Hn; apply Hn; apply IndexByte_None; rewrite ?elem_of_app, ?elem_of_cons; set_solver).

Lemma split_plain h p : host_ok h -> port_ok p -> x3a ∉ h -> SplitHostPort (h ++ str ":" ++ p) = Ok (h, p).
Proof.
  intros [H1 H2] (H3 & H4 & H5) Hc. unfold SplitHostPort. change (str ":" ++ p) with (x3a :: p).
  rewrite LastIndexByte_app by done.
  assert (E : match h ++ x3a :: p with x5b :: _ => false | _ => true end = true).
  { destruct h as [|b h]; [done|]. destruct b; try done. set_solver. }
  assert (Hd : drop (S (length h)) (h ++ x3a :: p) = p).
  { replace (S (length h)) with (length h + 1)%nat by lia. rewrite <- drop_drop, drop_app_length. done. }
  assert (G : (if decide (IndexByte (take (length h) (h ++ x3a :: p)) x3a <> None) then Err TooManyColons
          else if decide (IndexByte (h ++ x3a :: p) x5b <> None) then Err UnexpectedBracket
          else if decide (IndexByte (h ++ x3a :: p) x5d <> None) then Err UnexpectedBracket
          else Ok (take (length h) (h ++ x3a :: p), drop (S (length h)) (h ++ x3a :: p))) = Ok (h, p)).
  { rewrite take_app_length. do 3 no_index. by rewrite Hd. }
  destruct (h ++ x3a :: p) as [|b l]; [done|]. destruct b; try done.
Qed.

Lemma split_bracketed h p : host_ok h -> port_ok p ->
  SplitHostPort (str "[" ++ h ++ str "]:" ++ p) = Ok (h, p).
Proof.
  intros [H1 H2] (H3 & H4 & H5). unfold SplitHostPort.
  change (str "[" ++ h ++ str "]:" ++ p) with ((x5b :: h) ++ x5d :: x3a :: p).
  replace ((x5b :: h) ++ x5d :: x3a :: p) with ((x5b :: h ++ [x5d]) ++ x3a :: p) at 1
    by (cbn; rewrite <- app_assoc; done).
  rewrite LastIndexByte_app by done. cbn [app].
  change (x5b :: h ++ x5d :: x3a :: p) with ((x5b :: h) ++ x5d :: x3a :: p).
  rewrite (IndexByte_app (x5b :: h) x5d) by set_solver. cbn [length app].
  rewrite !length_app. cbn [length]. rewrite decide_False by lia. rewrite decide_True by lia.
  cbn [drop]. rewrite !drop_0.
  replace (S (length h) - 1)%nat with (length h) by lia. rewrite take_app_length.
  assert (Hd1 : drop (S (length h)) (h ++ x5d :: x3a :: p) = x3a :: p).
  { replace (S (length h)) with (length h + 1)%nat by lia. by rewrite <- drop_drop, drop_app_length. }
  assert (Hd2 : drop (S (length h + 1)) (h ++ x5d :: x3a :: p) = p).
  { replace (S (length h + 1)) with (length h + 2)%nat by lia. by rewrite <- drop_drop, drop_app_length. }
  rewrite Hd1, Hd2. by do 2 no_index.
Qed.

(** [net.SplitHostPort] undoes [net.JoinHostPort]. *)
Lemma split_join h p : host_ok h -> port_ok p -> SplitHostPort (JoinHostPort h p) = Ok (h, p).
Proof.
  intros Hh Hp. unfold JoinHostPort.
  destruct (IndexByte h x3a) eqn:E1; [by apply split_bracketed|].
  destruct (IndexByte h x25) eqn:E2; [by apply split_bracketed|].
  apply split_plain; try done. by apply IndexByte_None.
Qed.

(** ** Addresses read back *)

(** Characters of a rendered address. *)
Definition addr_char (c : byte) : Prop := c <> x25 /\ c <> x5b /\ c <> x5d.

#[export] Instance addr_char_dec c : Decision (addr_char c).
Proof. unfold addr_char. apply _. Defined.

Lemma join_chars (P : byte -> Prop) sep parts : Forall P sep -> Forall (Forall P) parts -> Forall P (join sep parts).
Proof.
  intros Hs. induction 1 as [|p ps Hp Hps IH]; [constructor|]. destruct ps as [|q ps]; [done|].
  rewrite join_cons, !Forall_app. done.
Qed.

Lemma octet_ok b rest fs : ipv4_fields (Itoa (byte_val b) ++ rest) 0 0 fs =
  ipv4_fields rest (byte_val b) (len (Itoa (byte_val b))) fs.
Proof. destruct b; reflexivity. Qed.

Lemma octet_kind b rest : addr_kind (Itoa (byte_val b) ++ rest) = addr_kind rest.
Proof. destruct b; reflexivity. Qed.

Lemma octet_chars b : Forall addr_char (Itoa (byte_val b)).
Proof. apply (bool_decide_unpack _). destruct b; vm_compute; exact I. Qed.

Lemma octet_len b : 0 < len (Itoa (byte_val b)).
Proof. destruct b; reflexivity. Qed.

Lemma fields_dot rest v n fs : n <> 0 -> rest <> [] -> len fs <> 3 ->
  ipv4_fields (x2e :: rest) v n fs = ipv4_fields rest 0 0 (fs ++ [to_byte v]).
Proof.
  intros Hn Hr Hf. cbn [ipv4_fields]. change (digit_val x2e) with (@None Z). cbn match.
  rewrite decide_True by done. rewrite decide_False by tauto. by rewrite decide_False.
Qed.

Lemma octet_dot b rest fs : rest <> [] -> len fs <> 3 ->
  ipv4_fields (Itoa (byte_val b) ++ x2e :: rest) 0 0 fs = ipv4_fields rest 0 0 (fs ++ [b]).
Proof.
  intros Hr Hf. rewrite octet_ok, fields_dot, to_byte_val; [done|pose proof (octet_len b); lia|done|done].
Qed.

Lemma octet_ne b rest : Itoa (byte_val b) ++ rest <> [].
Proof. pose proof (octet_len b). destruct (Itoa (byte_val b)); done. Qed.

Lemma parse_string4 a b c d : ParseIP (string4 [a; b; c; d]) = Some (IPv4 a b c d).
Proof.
  unfold ParseIP, string4, IPv4. cbn [fmap list_fmap join]. change (str ".") with [x2e]. cbn [app].
  rewrite octet_kind. cbn [addr_kind]. rewrite decide_True by (by left). rewrite decide_True by done.
  rewrite !octet_dot; try apply octet_ne; try done.
  2:{ rewrite <- (app_nil_r (Itoa _)). apply octet_ne. }
  rewrite <- (app_nil_r (Itoa (byte_val d))), octet_ok. cbn. by rewrite to_byte_val.
Qed.

(** *** Groups of hexadecimal digits *)
Lemma hexlow_spec d : 0 <= d < 16 ->
  hex_val (hexlow d) = Some d /\ addr_char (hexlow d) /\ hexlow d <> x2e /\ hexlow d <> x3a.
Proof.
  intros Hd. unfold addr_char.
  assert (d = 0 \/ d = 1 \/ d = 2 \/ d = 3 \/ d = 4 \/ d = 5 \/ d = 6 \/ d = 7 \/ d = 8 \/ d = 9 \/ d = 10 \/
    d = 11 \/ d = 12 \/ d = 13 \/ d = 14 \/ d = 15) by lia.
  destruct_or!; subst; split_and!; done.
Qed.

Lemma nibbles b : 0 <= byte_val b / 16 < 16 /\ 0 <= byte_val b mod 16 < 16 /\
  byte_val b = byte_val b / 16 * 16 + byte_val b mod 16.
Proof.
  pose proof (byte_val_range b). pose proof (Z.div_mod (byte_val b) 16 ltac:(done)).
  pose proof (Z.mod_pos_bound (byte_val b) 16 eq_refl).
  split; [split; [apply Z.div_pos|apply Z.div_lt_upper_bound]|]; lia.
Qed.

Definition group_val (g : byte * byte) : Z := byte_val g.1 * 256 + byte_val g.2.

Lemma scan_digit d rest off acc : 0 <= d < 16 -> off <= 3 -> acc * 16 + d <= 65535 ->
  scan_hex (hexlow d :: rest) off acc = scan_hex rest (off + 1) (acc * 16 + d).
Proof.
  intros Hd Ho Ha. cbn [scan_hex]. destruct (hexlow_spec d Hd) as [-> _].
  rewrite decide_False by lia. by rewrite decide_False by lia.
Qed.

(** The digits of a group: its significant nibbles. *)
Lemma group_digits g : exists ds, hex_group g = hexlow <$> ds /\ ds <> [] /\ (length ds <= 4)%nat /\
  Forall (fun d => 0 <= d < 16) ds /\ foldl (fun a d => a * 16 + d) 0 ds = group_val g.
Proof.
  destruct g as [a b]. unfold hex_group, group_val. cbn [fst snd].
  destruct (nibbles a) as (? & ? & Ea), (nibbles b) as (? & ? & Eb).
  set (p := byte_val a / 16) in *. set (q := byte_val a mod 16) in *.
  set (r := byte_val b / 16) in *. set (t := byte_val b mod 16) in *. clearbody p q r t.
  assert (Hv : byte_val a * 256 + byte_val b = ((p * 16 + q) * 16 + r) * 16 + t) by lia. rewrite Hv.
  destruct p as [|p|p]; [destruct q as [|q|q]; [destruct r as [|r|r]|..]|..]; try lia;
    eexists; (split; [reflexivity|]); (split; [done|]); (split; [cbn; lia|]);
    (split; [repeat constructor; lia|cbn; lia]).
Qed.

Lemma scan_digits ds : forall rest off acc, Forall (fun d => 0 <= d < 16) ds -> 0 <= acc -> 0 <= off ->
  off + len ds <= 4 -> acc < 16 ^ off ->
  scan_hex ((hexlow <$> ds) ++ rest) off acc =
  scan_hex rest (off + len ds) (foldl (fun a d => a * 16 + d) acc ds).
Proof.
  induction ds as [|d ds IH]; intros rest off acc Hd Ha Ho Hl Hb; [by rewrite len_nil, Z.add_0_r|].
  apply Forall_cons_1 in Hd as [Hd Hds]. rewrite len_cons in *. pose proof (len_nonneg ds). cbn [fmap list_fmap app foldl].
  assert (Hp : 16 ^ (off + 1) <= 16 ^ 4) by (apply Z.pow_le_mono_r; lia). rewrite Z.pow_add_r in Hp by lia.
  rewrite scan_digit by (change (16 ^ 4) with 65536 in Hp; lia).
  rewrite IH; try lia; [f_equal; lia|done|rewrite Z.pow_add_r by lia; lia].
Qed.

Definition ends_group (rest : bytes) : Prop := match rest with [] => True | c :: _ => hex_val c = None end.

Lemma scan_group g rest : ends_group rest -> exists n, 0 < n /\ scan_hex (hex_group g ++ rest) 0 0 = Some (group_val g, n, rest).
Proof.
  intros Hr. destruct (group_digits g) as (ds & -> & Hn & Hl & Hd & Hv). exists (len ds).
  assert (0 < len ds <= 4) by (unfold len; destruct ds; [done|cbn in *; lia]). split; [lia|].
  rewrite scan_digits by (done || lia). rewrite Hv, Z.add_0_l. destruct rest as [|c rest]; [done|]. cbn. cbn in Hr. by rewrite Hr.
Qed.

Lemma group_head g : exists c t, hex_group g = c :: t /\ c <> x3a /\ Forall addr_char (c :: t) /\
  forall rest, addr_kind ((c :: t) ++ rest) = addr_kind rest.
Proof.
  destruct (group_digits g) as (ds & -> & Hn & _ & Hd & _).
  assert (Hs : Forall (fun c => addr_char c /\ c <> x2e /\ c <> x3a) (hexlow <$> ds)).
  { apply Forall_fmap. eapply Forall_impl; [exact Hd|]. intros d Hd'. by apply hexlow_spec. }
  destruct ds as [|d ds]; [done|]. cbn [fmap list_fmap] in *. eexists _, _. split; [reflexivity|].
  split; [by inversion Hs as [|?? (_ & _ & ?)]|].
  split; [eapply Forall_impl; [exact Hs|]; by intros ? [? _]|]. intros rest.
  induction Hs as [|c cs (Hc & H1 & H2) _ IH]; [done|]. cbn [app addr_kind].
  rewrite decide_False; [apply IH|]. destruct Hc as (? & _). tauto.
Qed.

Definition group_bytes (gs : list (byte * byte)) : bytes := gs ≫= fun g => [g.1; g.2].

Lemma group_val_bytes g : [to_byte (Z.shiftr (group_val g) 8); to_byte (group_val g)] = [g.1; g.2].
Proof.
  unfold group_val. pose proof (byte_val_range g.1). pose proof (byte_val_range g.2). f_equal; [|f_equal];
    apply byte_val_inj; rewrite byte_val_to_byte.
  - rewrite Z.shiftr_div_pow2 by lia. change (2 ^ 8) with 256. rewrite Z.div_add_l, Z.div_small by lia.
    rewrite Z.add_0_r, Z.mod_small; lia.
  - rewrite Z.add_comm, Z.mod_add, Z.mod_small; lia.
Qed.

Lemma group_bytes_cons g gs : group_bytes (g :: gs) = g.1 :: g.2 :: group_bytes gs.
Proof. done. Qed.

Lemma group_bytes_app gs hs : group_bytes (gs ++ hs) = group_bytes gs ++ group_bytes hs.
Proof. apply bind_app. Qed.

Lemma group_bytes_length gs : length (group_bytes gs) = (2 * length gs)%nat.
Proof. induction gs as [|g gs IH]; [done|]. rewrite group_bytes_cons. cbn [length]. lia. Qed.

Lemma join_groups_cons g h gs : join_groups (g :: h :: gs) = hex_group g ++ x3a :: join_groups (h :: gs).
Proof. done. Qed.

(** The loop reads groups up to the end of the text, or up to an ellipsis. *)
Lemma loop_groups gs : forall fuel ip ell, gs <> [] -> (length gs <= fuel)%nat ->
  ipv6_loop fuel (join_groups gs) ip ell = Some (ip ++ group_bytes gs, ell, []).
Proof.
  induction gs as [|g gs IH]; intros fuel ip ell Hn Hl; [done|]. destruct fuel as [|fuel]; [cbn in Hl; lia|].
  destruct gs as [|h gs]; cbn [ipv6_loop].
  - destruct (scan_group g [] I) as (n & Hp & E). change (join_groups [g]) with (hex_group g).
    rewrite app_nil_r in E. rewrite E, decide_False by lia. cbv zeta. by rewrite group_val_bytes.
  - rewrite join_groups_cons. destruct (scan_group g (x3a :: join_groups (h :: gs)) eq_refl) as (n & Hp & E).
    rewrite E, decide_False by lia. cbv zeta. rewrite group_val_bytes.
    rewrite (decide_False (P := x3a = x2e)), (decide_False (P := x3a <> x3a)) by tauto || done.
    pose proof (IH fuel (ip ++ [g.1; g.2]) ell ltac:(done) ltac:(cbn in *; lia)) as IH'.
    destruct (group_head h) as (c & t & Hc & Hne & _ & _).
    assert (Hj : exists r, join_groups (h :: gs) = c :: r).
    { unfold join_groups. cbn [fmap list_fmap]. rewrite Hc. destruct gs; [by exists t|]. eexists. reflexivity. }
    destruct Hj as [r Hj]. rewrite Hj in *. rewrite (decide_False (P := c = x3a)) by done.
    rewrite IH'. cbn [group_bytes mbind list_bind app]. by rewrite <- app_assoc.
Qed.

Lemma group_start h gs rest : exists c r, join_groups (h :: gs) ++ rest = c :: r /\ c <> x3a.
Proof.
  destruct (group_head h) as (c & t & Hc & Hne & _ & _). unfold join_groups. cbn [fmap list_fmap]. rewrite Hc.
  destruct gs; eexists _, _; (split; [reflexivity|done]).
Qed.

Lemma loop_ellipsis gs : forall fuel ip t, gs <> [] -> (length gs <= fuel)%nat ->
  ipv6_loop fuel (join_groups gs ++ x3a :: x3a :: t) ip None =
  let ip' := ip ++ group_bytes gs in
  match t with
  | [] => Some (ip', Some (length ip'), [])
  | _ => ipv6_loop (fuel - length gs) t ip' (Some (length ip'))
  end.
Proof.
  induction gs as [|g gs IH]; intros fuel ip t Hn Hl; [done|]. destruct fuel as [|fuel]; [cbn in Hl; lia|].
  destruct gs as [|h gs].
  - change (join_groups [g]) with (hex_group g). cbn [ipv6_loop].
    destruct (scan_group g (x3a :: x3a :: t) eq_refl) as (n & Hp & E).
    rewrite E, decide_False by lia. cbv zeta. rewrite group_val_bytes.
    rewrite (decide_False (P := x3a = x2e)), (decide_False (P := x3a <> x3a)) by tauto || done.
    rewrite (decide_True (P := x3a = x3a)), (decide_False (P := None <> None)) by tauto || done.
    cbn [length Nat.sub]. by rewrite Nat.sub_0_r.
  - rewrite join_groups_cons, <- app_assoc. cbn [app ipv6_loop].
    destruct (scan_group g (x3a :: join_groups (h :: gs) ++ x3a :: x3a :: t) eq_refl) as (n & Hp & E).
    rewrite E, decide_False by lia. cbv zeta. rewrite group_val_bytes.
    rewrite (decide_False (P := x3a = x2e)), (decide_False (P := x3a <> x3a)) by tauto || done.
    pose proof (IH fuel (ip ++ [g.1; g.2]) t ltac:(done) ltac:(cbn in *; lia)) as IH'.
    destruct (group_start h gs (x3a :: x3a :: t)) as (c & r & Hj & Hne). rewrite Hj in *.
    rewrite (decide_False (P := c = x3a)) by done. rewrite IH'. cbv zeta.
    rewrite (group_bytes_cons g), <- !app_assoc. reflexivity.
Qed.

(** *** The run of zeros replaced by the ellipsis *)
Lemma zero_run_spec gs : exists rest, gs = replicate (zero_run gs) (x00, x00) ++ rest.
Proof.
  induction gs as [|g gs [rest IH]]; [by exists []|]. cbn [zero_run]. case_decide as Hg; [|by exists (g :: gs)].
  subst g. exists rest. cbn. by rewrite <- IH.
Qed.

Definition zero_at (gs : list (byte * byte)) (r : nat * nat) : Prop :=
  r.2 = O \/ exists pre post, gs = pre ++ replicate r.2 (x00, x00) ++ post /\ length pre = r.1.

Lemma best_run_spec gs : forall pre best, zero_at (pre ++ gs) best -> zero_at (pre ++ gs) (best_run (length pre) gs best).
Proof.
  induction gs as [|g gs IH]; intros pre best Hb; [done|]. cbn [best_run].
  rewrite (cons_middle g pre gs), app_assoc in *.
  replace (S (length pre)) with (length (pre ++ [g])) by (rewrite length_app; cbn; lia). apply IH.
  case_decide; [|done]. right. destruct (zero_run_spec (g :: gs)) as [rest Hr].
  exists pre, rest. split; [|done]. cbn [snd]. rewrite <- Hr, <- app_assoc. done.
Qed.

Lemma groups_bytes n : forall ip, length ip = (2 * n)%nat -> group_bytes (groups ip) = ip /\ length (groups ip) = n.
Proof.
  induction n as [|n IH]; intros ip Hl; [by destruct ip|].
  destruct ip as [|a [|b ip]]; try (cbn in Hl; lia). cbn [groups].
  destruct (IH ip) as [E1 E2]; [cbn in Hl; lia|]. rewrite group_bytes_cons, E1. cbn. by rewrite E2.
Qed.

Lemma join_groups_chars gs : Forall addr_char (join_groups gs).
Proof.
  apply join_chars; [repeat constructor; done|]. apply Forall_fmap, Forall_true. intros g.
  destruct (group_head g) as (c & t & E & _ & Hc & _). change (Forall addr_char (hex_group g)). by rewrite E.
Qed.

Lemma groups_kind gs t : addr_kind (join_groups gs ++ x3a :: t) = Some x3a.
Proof.
  induction gs as [|g gs IH]; [done|]. destruct (group_head g) as (c & r & E & _ & _ & Hk). destruct gs as [|h gs].
  - change (join_groups [g]) with (hex_group g). by rewrite E, Hk.
  - rewrite join_groups_cons, <- app_assoc, E, Hk. done.
Qed.

Lemma addr_chars_percent s : Forall addr_char s -> x25 ∉ s.
Proof. intros Hs Hi. rewrite Forall_forall in Hs. by destruct (Hs _ Hi). Qed.

Lemma finish_ellipsis pre post n : (length pre + n + length post)%nat = 8%nat -> n <> O ->
  ipv6_finish (group_bytes pre ++ group_bytes post, Some (length (group_bytes pre)), []) =
  Some (group_bytes (pre ++ replicate n (x00, x00) ++ post)).
Proof.
  intros Hl Hn. unfold ipv6_finish. rewrite !group_bytes_app, !length_app.
  rewrite (decide_False (P := [] <> [])) by tauto.
  rewrite decide_True by (rewrite !group_bytes_length; lia). cbn [mbind option_bind].
  rewrite take_app_length, drop_app_length. do 3 f_equal.
  rewrite !group_bytes_length. replace (16 - _)%nat with (2 * n)%nat by lia.
  clear. induction n as [|n IH]; [done|]. replace (2 * S n)%nat with (S (S (2 * n))) by lia.
  change (replicate (S n) (x00, x00)) with ((x00, x00) :: replicate n (x00, x00)). rewrite group_bytes_cons, <- IH. done.
Qed.

Lemma parse6_text s : Forall addr_char s -> addr_kind s = Some x3a -> ParseIP s = parseIPv6 s.
Proof.
  intros Hc Hk. unfold ParseIP. rewrite Hk.
  rewrite (decide_False (P := x3a = x2e)), (decide_True (P := x3a = x3a)) by done.
  by rewrite decide_False by (by apply addr_chars_percent).
Qed.

Lemma not_ellipsis g gs rest : take 2 (join_groups (g :: gs) ++ rest) <> str "::".
Proof. destruct (group_start g gs rest) as (c & r & -> & Hne). destruct r; cbn; congruence. Qed.

Lemma parse6_plain gs : length gs = 8%nat -> parseIPv6 (join_groups gs) = Some (group_bytes gs).
Proof.
  intros Hl. unfold parseIPv6. destruct gs as [|g gs]; [done|].
  rewrite decide_False by (rewrite <- (app_nil_r (join_groups _)); apply not_ellipsis).
  rewrite loop_groups by (done || lia). cbn [mbind option_bind app]. unfold ipv6_finish.
  rewrite (decide_False (P := [] <> [])) by tauto. by rewrite decide_False by (rewrite group_bytes_length; lia).
Qed.

Lemma parse6_compressed pre post n : (length pre + n + length post)%nat = 8%nat -> n <> O ->
  parseIPv6 (join_groups pre ++ x3a :: x3a :: join_groups post) =
  Some (group_bytes (pre ++ replicate n (x00, x00) ++ post)).
Proof.
  intros Hl Hn. rewrite <- finish_ellipsis by done. unfold parseIPv6.
  assert (Ht : post <> [] -> exists c r, join_groups post = c :: r).
  { destruct post as [|h post]; [done|]. destruct (group_start h post []) as (c & r & Hj & _).
    rewrite app_nil_r in Hj. eauto. }
  destruct pre as [|g pre].
  - cbn [join_groups fmap list_fmap join app]. rewrite decide_True by done. cbn [drop]. rewrite drop_0.
    destruct post as [|h post]; [done|]. destruct (Ht ltac:(done)) as (c & r & Hj).
    rewrite Hj, <- Hj. by rewrite loop_groups by (done || cbn in *; lia).
  - rewrite decide_False by apply not_ellipsis. rewrite loop_ellipsis by (done || cbn in *; lia). cbv zeta. cbn [app].
    destruct post as [|h post].
    + cbn [join_groups fmap list_fmap join]. change (group_bytes []) with (@nil byte). by rewrite app_nil_r.
    + destruct (Ht ltac:(done)) as (c & r & Hj). rewrite Hj, <- Hj.
      by rewrite loop_groups by (done || cbn in *; lia).
Qed.

Lemma parse_string6 ip : length ip = 16%nat -> ParseIP (string6 ip) = Some ip /\ Forall addr_char (string6 ip).
Proof.
  intros Hl. destruct (groups_bytes 8 ip Hl) as [Hb Hg]. unfold string6.
  pose proof (best_run_spec (groups ip) [] (O, O) ltac:(by left)) as Hr. cbn [app length] in Hr.
  destruct (best_run 0 (groups ip) (O, O)) as [start l]. case_decide as Hz.
  - split; [|apply join_groups_chars]. rewrite parse6_text, parse6_plain, Hb; [done|done|apply join_groups_chars|].
    destruct (groups ip) as [|g [|h gs]]; try done. rewrite join_groups_cons.
    apply (groups_kind [g]).
  - destruct Hr as [?|(pre & post & E & Hp)]; [done|]. cbn [fst snd] in *.
    assert (Hs : take start (groups ip) = pre /\ drop (start + l) (groups ip) = post).
    { rewrite E, <- Hp, take_app_length. split; [done|]. rewrite app_assoc.
      apply drop_app_length'. rewrite length_app, length_replicate. lia. }
    destruct Hs as [-> ->]. rewrite E, !length_app, length_replicate in Hg.
    assert (Hc : Forall addr_char (join_groups pre ++ str "::" ++ join_groups post)).
    { rewrite !Forall_app. split_and!; [apply join_groups_chars|repeat constructor; done|apply join_groups_chars]. }
    split; [|done]. rewrite parse6_text by (done || apply groups_kind).
    change (str "::" ++ join_groups post) with (x3a :: x3a :: join_groups post).
    rewrite (parse6_compressed _ _ l), <- E, Hb by (done || lia). done.
Qed.

Lemma string4_chars ip : Forall addr_char (string4 ip).
Proof.
  apply join_chars; [repeat constructor; done|]. apply Forall_fmap, Forall_true. intros b. apply octet_chars.
Qed.

(** Every address is read back from its text, which is fit for a host. *)
Lemma parse_ip_string ip ip16 : To16 ip = Some ip16 ->
  ParseIP (IP_String ip) = Some ip16 /\ Forall addr_char (IP_String ip).
Proof.
  unfold To16, IP_String, To4. case_decide as H4.
  - intros [= <-]. destruct ip as [|a [|b [|c [|d [|]]]]]; try done. split; [apply parse_string4|apply string4_chars].
  - case_decide as H6; [|done]. intros [= <-]. case_decide as Hp.
    + destruct Hp as [_ Hp]. split; [|apply string4_chars].
      assert (E : ip = v4InV6Prefix ++ drop 12 ip) by (rewrite <- Hp; symmetry; apply take_drop).
      assert (Hd : length (drop 12 ip) = 4%nat) by (rewrite length_drop; lia).
      rewrite E at 2. destruct (drop 12 ip) as [|a [|b [|c [|d [|]]]]]; try done. apply parse_string4.
    + rewrite ?decide_True by done. by apply parse_string6.
Qed.

Lemma addr_chars_host s : Forall addr_char s -> host_ok s.
Proof. intros Hs. split; intros Hi; rewrite Forall_forall in Hs; by destruct (Hs _ Hi) as (_ & ? & ?). Qed.

(** ** Decimal integers read back *)
Lemma digit_val_digit d : 0 <= d < 10 -> digit_val (to_byte (48 + d)) = Some d.
Proof.
  intros Hd. unfold digit_val. rewrite byte_val_to_byte, Z.mod_small by lia.
  rewrite decide_True by lia. f_equal. lia.
Qed.

Lemma digits_val_app s t : forall acc, digits_val (s ++ t) acc = digits_val s acc ≫= digits_val t.
Proof.
  induction s as [|c s IH]; intros acc; [done|]. cbn [app digits_val].
  destruct (digit_val c); cbn [mbind option_bind]; [apply IH|done].
Qed.

Lemma dec_loop_ok fuel : forall v acc, 0 <= v < 10 ^ Z.of_nat fuel ->
  exists ds, dec_loop fuel v acc = ds ++ acc /\ digits_val ds 0 = Some v /\
    Forall (fun c => 48 <= byte_val c <= 57) ds /\ (0 < v -> ds <> []).
Proof.
  induction fuel as [|fuel IH]; intros v acc Hv.
  - assert (v = 0) as -> by (cbn in Hv; lia). exists []. done.
  - cbn [dec_loop]. case_decide as H0; [|exists []; split_and!; [done|f_equal; lia|constructor|lia]].
    rewrite Nat2Z.inj_succ, Z.pow_succ_r in Hv by lia.
    pose proof (Z.mod_pos_bound v 10 eq_refl). pose proof (Z.div_mod v 10 ltac:(done)).
    destruct (IH (v / 10) (to_byte (48 + v mod 10) :: acc)) as (ds & -> & Hds & Hf & _).
    { split; [apply Z.div_pos; lia|]. apply Z.div_lt_upper_bound; lia. }
    exists (ds ++ [to_byte (48 + v mod 10)]). rewrite <- app_assoc. split; [done|].
    rewrite digits_val_app, Hds. cbn [mbind option_bind digits_val]. rewrite digit_val_digit by lia.
    split; [cbn; f_equal; lia|]. split; [|intros _; by destruct ds].
    apply Forall_app_2; [done|]. apply Forall_singleton. rewrite byte_val_to_byte, Z.mod_small; lia.
Qed.

Lemma Itoa_ok v : 0 <= v ->
  digits_val (Itoa v) 0 = Some v /\ Forall (fun c => 48 <= byte_val c <= 57) (Itoa v) /\ Itoa v <> [].
Proof.
  intros Hv. unfold Itoa. case_decide as H0; [subst; split_and!; [done|repeat constructor; by vm_compute|done]|].
  destruct (dec_loop_ok (S (Z.to_nat (Z.log2 v))) v []) as (ds & -> & Hd & Hf & Hn).
  - split; [done|]. pose proof (Z.log2_spec v ltac:(lia)) as [_ Hl]. pose proof (Z.log2_nonneg v).
    rewrite Nat2Z.inj_succ, Z2Nat.id by lia.
    eapply Z.lt_le_trans; [exact Hl|]. apply Z.pow_le_mono_l. lia.
  - rewrite app_nil_r. split_and!; [done|done|apply Hn; lia].
Qed.

Lemma digit_chars s : Forall (fun c => 48 <= byte_val c <= 57) s -> port_ok s.
Proof.
  intros Hs. rewrite Forall_forall in Hs. split_and!; intros Hi; apply Hs in Hi; vm_compute in Hi; naive_solver.
Qed.

Lemma Itoa_port v : 0 <= v -> port_ok (Itoa v).
Proof. intros Hv. apply digit_chars. by apply Itoa_ok. Qed.

Lemma Itoa_inj u v : 0 <= u -> 0 <= v -> Itoa u = Itoa v -> u = v.
Proof.
  intros Hu Hv E. destruct (Itoa_ok u Hu) as [Eu _], (Itoa_ok v Hv) as [Ev _]. congruence.
Qed.

(** [strconv.Atoi] undoes [strconv.Itoa]. *)
Lemma Atoi_Itoa v : 0 <= v < 2 ^ 63 -> Atoi (Itoa v) = Some v.
Proof.
  intros Hv. destruct (Itoa_ok v ltac:(lia)) as (Hd & Hf & Hn). unfold Atoi.
  destruct (Itoa v) as [|c s]; [done|]. apply Forall_cons_1 in Hf as [Hc _].
  assert (E : match c :: s with x2d :: r => (true, r) | x2b :: r => (false, r) | _ => (false, c :: s) end = (false, c :: s)).
  { destruct c; try done; vm_compute in Hc; naive_solver. }
  rewrite E, Hd. cbn [mbind option_bind]. unfold int_range. by rewrite decide_True by lia.
Qed.
