(* ===== verification/Candidates.v ===== *)
(** Candidate addresses: [src/internal/rendezvous/candidates.go].  A peer's list
    is decrypted, decoded and filtered down to addresses it is safe to dial; the
    JSON codec is a parameter, as for control messages. *)
From Stdlib Require Import ZArith Lia.
From Stdlib Require Import Strings.Byte.
From stdpp Require Import base gmap strings numbers option sorting list.
From S2P Require Import Prelude GoStrings Net Crypto Identity.

Definition KindHost : bytes := str "host".
Definition KindReflexive : bytes := str "reflexive".
Definition MaxCandidates : Z := 8.
Definition MaxPrivateCandidates : Z := 2.
Definition MaxSealedCandidates : Z := Z.shiftl 4 10.

Record Candidate := mkCandidate { Addr : bytes; Kind : bytes }.

#[export] Instance Candidate_eq_dec : EqDecision Candidate.
Proof. solve_decision. Defined.

Record CandidateSet := mkCandidateSet { Candidates : list Candidate }.

Inductive cand_err := CandJSON | CandTooLarge (n : Z) | CandCrypto (e : crypto_err) | CandAuth (e : crypto_err).

Class CandidateJSON := {
  json_marshal_candidates : CandidateSet -> option bytes;
  json_unmarshal_candidates : bytes -> option CandidateSet
}.

Class CandidateJSONLaws `{CandidateJSON} := {
  json_candidates : CandidateSet -> Prop;
  json_candidates_roundtrip set : json_candidates set ->
    exists b, json_marshal_candidates set = Some b /\ json_unmarshal_candidates b = Some set
}.

Definition candidateAAD : bytes := str "heimdall v1 candidates".

(** ** Validation *)
Definition usableIP (ip : bytes) : bool :=
  if IsUnspecified ip || IsLoopback ip || IsLinkLocalUnicast ip || IsLinkLocalMulticast ip ||
     IsInterfaceLocalMulticast ip || IsMulticast ip then false
  else match To4 ip with
       | Some ip4 => if IP_Equal ip4 IPv4bcast then false else true
       | None => true
       end.

(** The loop of [ValidateCandidates]: [out] is what has been kept, [private] how
    many of it are private, [seen] its addresses. *)
Fixpoint validate (cs out : list Candidate) (private : Z) (seen : gset bytes) : list Candidate :=
  match cs with
  | [] => out
  | c :: rest =>
      if decide (MaxCandidates <= len out) then out
      else match SplitHostPort (Addr c) with
      | Ok (host, port) =>
          match ParseIP host with
          | None => validate rest out private seen
          | Some ip =>
              if negb (usableIP ip) then validate rest out private seen
              else if decide (port = [] \/ port = str "0") then validate rest out private seen
              else if decide (Addr c ∈ seen) then validate rest out private seen
              else if IsPrivate ip then
                if decide (MaxPrivateCandidates <= private) then validate rest out private seen
                else validate rest (out ++ [mkCandidate (Addr c) (Kind c)]) (private + 1) ({[Addr c]} ∪ seen)
              else validate rest (out ++ [mkCandidate (Addr c) (Kind c)]) private ({[Addr c]} ∪ seen)
          end
      | _ => validate rest out private seen
      end
  end.

Definition ValidateCandidates (l : list Candidate) : list Candidate := validate l [] 0 ∅.

(** ** Sealing *)
Section sealing.
Context `{CryptoOps, CandidateJSON}.

Definition SealCandidates (pairingKey : bytes) (set : CandidateSet) (rng : bytes) : res cand_err bytes :=
  match json_marshal_candidates set with
  | None => Err CandJSON
  | Some plain =>
      blob ← map_err CandCrypto (Seal pairingKey candidateAAD plain rng);
      if decide (MaxSealedCandidates < len blob) then Err (CandTooLarge (len blob)) else Ok blob
  end.

Definition OpenCandidates (pairingKey blob : bytes) : res cand_err CandidateSet :=
  if decide (MaxSealedCandidates < len blob) then Err (CandTooLarge (len blob))
  else
    plain ← map_err CandAuth (Open pairingKey candidateAAD blob);
    match json_unmarshal_candidates plain with
    | None => Err CandJSON
    | Some set => Ok (mkCandidateSet (ValidateCandidates (Candidates set)))
    end.
End sealing.

(** ** Local addresses *)

(** [itoa] writes into a 20-byte buffer: [room] slots are left. *)
Fixpoint itoa_loop (room : nat) (v : Z) (acc : bytes) : res cand_err bytes :=
  if decide (0 < v) then
    match room with
    | O => Panic
    | S i => itoa_loop i (v / 10) (to_byte (48 + v mod 10) :: acc)
    end
  else Ok acc.

Definition itoa (v : Z) : res cand_err bytes := if decide (v = 0) then Ok (str "0") else itoa_loop 20 v [].

(** The loop over the interface addresses, which are IP networks ([Some]) or
    something else ([None]). *)
Fixpoint local_loop (addrs : list (option bytes)) (port : Z) (out : list Candidate) : res cand_err (list Candidate) :=
  match addrs with
  | [] => Ok out
  | None :: rest => local_loop rest port out
  | Some ip :: rest =>
      if negb (usableIP ip) then local_loop rest port out
      else p ← itoa port; local_loop rest port (out ++ [mkCandidate (JoinHostPort (IP_String ip) p) KindHost])
  end.

(** [addrs] is what [net.InterfaceAddrs] returns. *)
Definition LocalCandidates (addrs : option (list (option bytes))) (port : Z) : res cand_err (list Candidate) :=
  if decide (port <= 0) then Ok []
  else match addrs with
       | None => Ok []
       | Some addrs => out ← local_loop addrs port []; Ok (ValidateCandidates out)
       end.

(** ** Reference definition of the filter *)

(** An address that may be dialled, and whether it is in a private range. *)
Definition target (c : Candidate) : option bytes :=
  match SplitHostPort (Addr c) with
  | Ok (host, port) =>
      ip ← ParseIP host;
      if usableIP ip && bool_decide (port <> [] /\ port <> str "0") then Some ip else None
  | _ => None
  end.

Definition dialable (c : Candidate) : Prop := is_Some (target c).
Definition private_range (c : Candidate) : bool := from_option IsPrivate false (target c).

#[export] Instance dialable_dec c : Decision (dialable c).
Proof. unfold dialable. apply _. Defined.

(** The first candidate for each address not in [seen]. *)
Fixpoint firsts (seen : list bytes) (cs : list Candidate) : list Candidate :=
  match cs with
  | [] => []
  | c :: rest => if decide (Addr c ∈ seen) then firsts seen rest else c :: firsts (Addr c :: seen) rest
  end.

(** At most [n] private candidates. *)
Fixpoint cap_private (n : nat) (cs : list Candidate) : list Candidate :=
  match cs with
  | [] => []
  | c :: rest =>
      if private_range c then match n with O => cap_private O rest | S m => c :: cap_private m rest end
      else c :: cap_private n rest
  end.

Definition validate_spec (cs : list Candidate) : list Candidate :=
  take (Z.to_nat MaxCandidates) (cap_private (Z.to_nat MaxPrivateCandidates) (firsts [] (filter dialable cs))).

(** ** The loop computes the reference definition *)
Lemma target_addr c d : Addr c = Addr d -> target c = target d.
Proof. unfold target. by intros ->. Qed.

Lemma private_addr c d : Addr c = Addr d -> private_range c = private_range d.
Proof. unfold private_range. by intros ->%target_addr. Qed.

(** One turn of the loop, by what the candidate's address is. *)
Lemma validate_cons c rest out private seen : len out < MaxCandidates ->
  validate (c :: rest) out private seen =
  match target c with
  | None => validate rest out private seen
  | Some ip =>
      if decide (Addr c ∈ seen) then validate rest out private seen
      else if IsPrivate ip then
        if decide (MaxPrivateCandidates <= private) then validate rest out private seen
        else validate rest (out ++ [c]) (private + 1) ({[Addr c]} ∪ seen)
      else validate rest (out ++ [c]) private ({[Addr c]} ∪ seen)
  end.
Proof.
  intros Hl. cbn [validate]. rewrite (decide_False (P := MaxCandidates <= _)) by lia.
  replace (mkCandidate (Addr c) (Kind c)) with c by (by destruct c).
  unfold target. destruct (SplitHostPort (Addr c)) as [[host port]| |]; try done.
  destruct (ParseIP host) as [ip|]; cbn [mbind option_bind]; [|done].
  destruct (usableIP ip); cbn [negb andb]; [|done].
  case_bool_decide as Hp; [by rewrite (decide_False (P := port = [] \/ _)) by tauto|].
  rewrite (decide_True (P := port = [] \/ _)); [done|].
  destruct (decide (port = [])), (decide (port = str "0")); tauto.
Qed.

Lemma firsts_cons L c rest : firsts L (c :: rest) =
  if decide (Addr c ∈ L) then firsts L rest else c :: firsts (Addr c :: L) rest.
Proof. done. Qed.

Lemma take_kept (out rest : list Candidate) c :
  take (Z.to_nat MaxCandidates) (out ++ c :: rest) = take (Z.to_nat MaxCandidates) ((out ++ [c]) ++ rest).
Proof. by rewrite <- app_assoc. Qed.

Lemma validate_general cs : forall out private seen L,
  len out <= MaxCandidates -> 0 <= private <= MaxPrivateCandidates -> (forall a, a ∈ seen -> a ∈ L) ->
  (forall c, Addr c ∈ L -> Addr c ∉ seen -> private_range c = true /\ private = MaxPrivateCandidates) ->
  validate cs out private seen =
  take (Z.to_nat MaxCandidates)
    (out ++ cap_private (Z.to_nat (MaxPrivateCandidates - private)) (firsts L (filter dialable cs))).
Proof.
  induction cs as [|c rest IH]; intros out private seen L Hl Hp Hs HL.
  { cbn. rewrite app_nil_r. symmetry. apply take_ge. unfold len, MaxCandidates in *. lia. }
  destruct (decide (MaxCandidates <= len out)) as [Hf|Hf].
  { cbn [validate]. rewrite decide_True by done. symmetry.
    assert (length out = Z.to_nat MaxCandidates) by (unfold len, MaxCandidates in *; lia).
    rewrite take_app_le by lia. apply take_ge. lia. }
  assert (Hl' : len (out ++ [c]) <= MaxCandidates) by (rewrite len_app, len_cons, len_nil; lia).
  rewrite validate_cons by lia. destruct (target c) as [ip|] eqn:Et.
  2:{ rewrite filter_cons_False by (unfold dialable; rewrite Et; by intros [? ?]). by apply IH. }
  rewrite filter_cons_True, firsts_cons by (by exists ip).
  destruct (decide (Addr c ∈ seen)) as [Hi|Hi]; [rewrite decide_True by auto; by apply IH|].
  assert (Ep : private_range c = IsPrivate ip) by (unfold private_range; by rewrite Et).
  destruct (IsPrivate ip).
  - destruct (decide (MaxPrivateCandidates <= private)) as [Hm|Hm].
    + assert (private = MaxPrivateCandidates) as -> by lia. rewrite Z.sub_diag in *. cbn [Z.to_nat].
      case_decide; [by apply IH|]. cbn [cap_private]. rewrite Ep. rewrite (IH _ _ _ (Addr c :: L)); [by rewrite Z.sub_diag|done|done|set_solver|].
      intros d Hd' Hn. apply elem_of_cons in Hd' as [E|Hd']; [|by apply HL]. split; [|done]. by rewrite (private_addr d c).
    + rewrite decide_False by (intros Hc; destruct (HL c Hc Hi); lia). cbn [cap_private]. rewrite Ep.
      replace (Z.to_nat (MaxPrivateCandidates - private))
        with (S (Z.to_nat (MaxPrivateCandidates - (private + 1)))) by (unfold MaxPrivateCandidates in *; lia).
      rewrite take_kept. apply IH; [done|lia|set_solver|].
      intros d Hd' Hn. exfalso. assert (Hd2 : Addr d ∈ L) by set_solver. destruct (HL d Hd2); [set_solver|lia].
  - rewrite decide_False by (intros Hc; destruct (HL c Hc Hi); congruence). cbn [cap_private]. rewrite Ep.
    rewrite take_kept. apply IH; [done|done|set_solver|].
    intros d Hd' Hn. apply HL; set_solver.
Qed.

Lemma validate_is_spec cs : ValidateCandidates cs = validate_spec cs.
Proof.
  unfold ValidateCandidates. rewrite (validate_general cs [] 0 ∅ []); [done|by vm_compute|by vm_compute|set_solver|set_solver].
Qed.

(** ** What the filter guarantees *)
Lemma firsts_nodup cs : forall L, NoDup (Addr <$> firsts L cs) /\ (forall a, a ∈ Addr <$> firsts L cs -> a ∉ L) /\
  firsts L cs `sublist_of` cs.
Proof.
  induction cs as [|c cs IH]; intros L; cbn [firsts]; [split_and!; [constructor|set_solver|done]|].
  case_decide as Hc.
  - destruct (IH L) as (? & ? & ?). split_and!; [done|done|by apply sublist_cons].
  - destruct (IH (Addr c :: L)) as (H1 & H2 & H3). cbn [fmap list_fmap]. split_and!; [|set_solver|by apply sublist_skip].
    apply NoDup_cons_2; [|done]. intros Hi. apply H2 in Hi. set_solver.
Qed.

Lemma cap_private_sub cs : forall n, cap_private n cs `sublist_of` cs.
Proof.
  induction cs as [|c cs IH]; intros n; cbn [cap_private]; [done|].
  destruct (private_range c); [destruct n; [apply sublist_cons|apply sublist_skip]|apply sublist_skip]; apply IH.
Qed.

Definition privates (cs : list Candidate) : list Candidate := filter (fun c => private_range c = true) cs.

Lemma cap_private_count cs : forall n, (length (privates (cap_private n cs)) <= n)%nat.
Proof.
  unfold privates. induction cs as [|c cs IH]; intros n; cbn [cap_private]; [cbn; lia|].
  destruct (private_range c) eqn:Ep; [destruct n as [|n]; [apply IH|]|].
  - rewrite filter_cons_True by done. cbn. specialize (IH n). lia.
  - rewrite filter_cons_False by congruence. apply IH.
Qed.

Lemma privates_sub (cs ds : list Candidate) : cs `sublist_of` ds -> (length (privates cs) <= length (privates ds))%nat.
Proof.
  unfold privates. induction 1 as [|c cs ds Hs IH|c cs ds Hs IH]; [done|..]; rewrite !filter_cons; repeat case_decide; cbn; lia.
Qed.

(** Lists a well-behaved peer sends. *)
Definition admissible (cs : list Candidate) : Prop :=
  Forall dialable cs /\ NoDup (Addr <$> cs) /\ len cs <= MaxCandidates /\ len (privates cs) <= MaxPrivateCandidates.

Lemma firsts_id cs : forall L, NoDup (Addr <$> cs) -> (forall a, a ∈ Addr <$> cs -> a ∉ L) -> firsts L cs = cs.
Proof.
  induction cs as [|c cs IH]; intros L Hn HL; [done|]. cbn [firsts fmap list_fmap] in *.
  apply NoDup_cons in Hn as [Hc Hn]. rewrite decide_False by set_solver. f_equal. apply IH; [done|]. set_solver.
Qed.

Lemma cap_private_id cs : forall n, (length (privates cs) <= n)%nat -> cap_private n cs = cs.
Proof.
  unfold privates. induction cs as [|c cs IH]; intros n Hn; [done|]. cbn [cap_private].
  destruct (private_range c) eqn:Ep.
  - rewrite filter_cons_True in Hn by done. destruct n as [|n]; cbn in Hn; [lia|]. rewrite IH by lia. done.
  - rewrite filter_cons_False in Hn by congruence. by rewrite IH.
Qed.

Lemma filter_all {A} (P : A -> Prop) `{forall x, Decision (P x)} (l : list A) : Forall P l -> filter P l = l.
Proof. induction 1 as [|x l Hx _ IH]; [done|]. by rewrite filter_cons_True, IH. Qed.

Lemma validate_spec_id cs : admissible cs -> validate_spec cs = cs.
Proof.
  intros (Hd & Hn & Hl & Hp). unfold validate_spec. rewrite filter_all by done.
  rewrite firsts_id, cap_private_id, take_ge; [done|..]; unfold len, MaxCandidates, MaxPrivateCandidates in *; try lia; try done.
  set_solver.
Qed.

Lemma validate_spec_sub cs : validate_spec cs `sublist_of` firsts [] (filter dialable cs).
Proof. unfold validate_spec. etrans; [apply sublist_take|apply cap_private_sub]. Qed.

Lemma validate_spec_admissible cs : admissible (validate_spec cs) /\ validate_spec cs `sublist_of` cs.
Proof.
  pose proof (validate_spec_sub cs) as Hs. destruct (firsts_nodup (filter dialable cs) []) as (Hn & _ & Hf).
  assert (Hsub : validate_spec cs `sublist_of` filter dialable cs) by (by etrans).
  split; [|etrans; [done|apply sublist_filter]]. split_and!.
  - apply Forall_forall. intros c Hc. pose proof (elem_of_sublist _ _ _ Hc Hsub) as Hi. by apply list_elem_of_filter in Hi as [? _].
  - eapply sublist_NoDup; [exact Hn|]. by apply fmap_sublist.
  - unfold validate_spec, len. rewrite length_take. unfold MaxCandidates. lia.
  - unfold len. assert (length (privates (validate_spec cs)) <= 2)%nat; [|unfold MaxPrivateCandidates; lia].
    etrans; [apply privates_sub, sublist_take|apply cap_private_count].
Qed.

Lemma validated_fixed cs : ValidateCandidates cs = cs <-> admissible cs.
Proof.
  rewrite validate_is_spec. split; [|apply validate_spec_id]. intros <-. apply validate_spec_admissible.
Qed.

(** C24: whatever list a peer sends, validation keeps exactly the first eight of
    its dialable addresses, each address once and at most two of them private,
    in the order sent: the loop with its counters and its set of addresses seen
    computes the composition of those four filters. *)
Theorem validate_equivalent cs : ValidateCandidates cs = validate_spec cs.
Proof. apply validate_is_spec. Qed.

(** A hostile candidate list cannot make this node dial more than eight
    addresses, more than two private ones, any address twice, or any that is not
    a literal unicast address outside the loopback, link-local and unspecified
    ranges; nothing is invented, and a list within those limits is kept whole. *)
Theorem validated_safe cs :
  admissible (ValidateCandidates cs) /\ ValidateCandidates cs `sublist_of` cs /\
  (ValidateCandidates cs = cs <-> admissible cs).
Proof.
  split_and!; [..|apply validated_fixed]; rewrite validate_is_spec; apply validate_spec_admissible.
Qed.

(** ** Local addresses are offered *)
Lemma dec_loop_fuel n : forall m v acc, 0 <= v < 10 ^ Z.of_nat n -> v < 10 ^ Z.of_nat m ->
  dec_loop n v acc = dec_loop m v acc.
Proof.
  induction n as [|n IH]; intros m v acc Hn Hm.
  { assert (v = 0) as -> by (cbn in Hn; lia). by destruct m. }
  destruct m as [|m]; [assert (v = 0) as -> by (cbn in Hm; lia); done|]. cbn [dec_loop]. case_decide; [|done].
  rewrite Nat2Z.inj_succ, Z.pow_succ_r in Hn, Hm by lia. apply IH.
  - split; [apply Z.div_pos; lia|]. apply Z.div_lt_upper_bound; lia.
  - apply Z.div_lt_upper_bound; lia.
Qed.

Lemma itoa_loop_dec room : forall v acc, 0 <= v < 10 ^ Z.of_nat room -> itoa_loop room v acc = Ok (dec_loop room v acc).
Proof.
  induction room as [|room IH]; intros v acc Hv; cbn [itoa_loop dec_loop].
  - rewrite decide_False; [done|]. cbn in Hv. lia.
  - case_decide; [|done]. rewrite Nat2Z.inj_succ, Z.pow_succ_r in Hv by lia. apply IH.
    split; [apply Z.div_pos; lia|]. apply Z.div_lt_upper_bound; lia.
Qed.

(** The 20-byte buffer is large enough for every int. *)
Lemma itoa_Itoa v : is_uint 63 v -> itoa v = Ok (Itoa v).
Proof.
  intros [H0 Hv]. unfold itoa, Itoa. case_decide as Hz; [done|].
  assert (H20 : 2 ^ 63 < 10 ^ Z.of_nat 20) by reflexivity.
  rewrite itoa_loop_dec by lia. f_equal. apply dec_loop_fuel; [lia|].
  pose proof (Z.log2_spec v ltac:(lia)) as [_ Hl]. pose proof (Z.log2_nonneg v).
  rewrite Nat2Z.inj_succ, Z2Nat.id by lia. eapply Z.lt_le_trans; [exact Hl|]. apply Z.pow_le_mono_l. lia.
Qed.

Lemma usable_to16 ip ip16 : To16 ip = Some ip16 -> usableIP ip16 = usableIP ip.
Proof.
  unfold To16. case_decide as H4; [|case_decide; [congruence|done]]. intros [= <-].
  destruct ip as [|a [|b [|c [|d [|]]]]]; done.
Qed.

Definition host_candidate (port : Z) (ip : bytes) : Candidate :=
  mkCandidate (JoinHostPort (IP_String ip) (Itoa port)) KindHost.

Lemma local_target ip ip16 port : To16 ip = Some ip16 -> usableIP ip = true -> 0 < port ->
  target (host_candidate port ip) = Some ip16.
Proof.
  intros H16 Hu Hp. destruct (parse_ip_string ip ip16 H16) as [Hs Hc]. unfold target, host_candidate. cbn [Addr].
  rewrite split_join by first [by apply addr_chars_host | apply Itoa_port; lia]. rewrite Hs. cbn [mbind option_bind].
  rewrite (usable_to16 ip), Hu by done. cbn [andb]. rewrite bool_decide_true; [done|].
  destruct (Itoa_ok port ltac:(lia)) as (Hd & _ & Hn). split; [done|]. intros E. rewrite E in Hd. assert (Some 0 = Some port) as [= <-] by exact Hd. lia.
Qed.

Lemma local_loop_ok addrs port : is_uint 63 port -> forall out,
  local_loop addrs port out = Ok (out ++ (host_candidate port <$> filter (fun ip => usableIP ip = true) (omap id addrs))).
Proof.
  intros Hp. induction addrs as [|[ip|] addrs IH]; intros out; cbn [local_loop omap list_omap id].
  - by rewrite app_nil_r.
  - destruct (usableIP ip) eqn:Eu; cbn [negb].
    + rewrite itoa_Itoa by done. step_bind. rewrite IH, filter_cons_True by done. cbn. by rewrite <- app_assoc.
    + by rewrite IH, filter_cons_False by congruence.
  - apply IH.
Qed.

(** A node offers its own addresses: with a listening port, every usable
    interface address, IPv4 or IPv6, is rendered to a text that reads back as
    that address and passes validation, and the list is the first eight of them
    (two private ones), so a peer that validates it drops nothing. *)
Theorem local_candidates_offered addrs port : 0 < port -> is_uint 63 port ->
  Forall (fun a => forall ip, a = Some ip -> is_Some (To16 ip)) addrs ->
  let own := host_candidate port <$> filter (fun ip => usableIP ip = true) (omap id addrs) in
  Forall dialable own /\ LocalCandidates (Some addrs) port = Ok (validate_spec own) /\
  ValidateCandidates (validate_spec own) = validate_spec own.
Proof.
  intros Hp Hu Ha own. split_and!.
  - apply Forall_fmap, Forall_forall. intros ip Hi. apply list_elem_of_filter in Hi as [Hus Hi].
    apply list_elem_of_omap in Hi as (a & Hi & E). cbn in E. rewrite Forall_forall in Ha.
    destruct (Ha a Hi ip E) as [ip16 H16]. exists ip16. by apply local_target.
  - unfold LocalCandidates. rewrite decide_False by lia. rewrite local_loop_ok by done. step_bind.
    by rewrite validate_is_spec.
  - rewrite validate_is_spec. apply validate_spec_id. apply validate_spec_admissible.
Qed.

(** ** The sealed exchange *)
Section exchange.
Context `{CryptoLaws, CandidateJSONLaws}.

Lemma open_candidates_inv k blob set : OpenCandidates k blob = Ok set ->
  exists nonce plain set0, len k = KeySize /\ len nonce = NonceSize /\
    blob = nonce ++ gcm_seal k nonce plain candidateAAD /\
    json_unmarshal_candidates plain = Some set0 /\ Candidates set = ValidateCandidates (Candidates set0).
Proof.
  unfold OpenCandidates. case_decide; [done|].
  destruct (Open k candidateAAD blob) as [plain| |] eqn:Eo; try done. step_bind.
  apply Open_iff in Eo as (nonce & Hk & Hn & ->).
  destruct (json_unmarshal_candidates plain) as [set0|] eqn:Ej; [|done]. intros [= <-].
  exists nonce, plain, set0. done.
Qed.

Lemma open_sealed k set rng blob : json_candidates set -> SealCandidates k set rng = Ok blob ->
  OpenCandidates k blob = Ok (mkCandidateSet (ValidateCandidates (Candidates set))).
Proof.
  intros Hj. unfold SealCandidates, OpenCandidates. destruct (json_candidates_roundtrip set Hj) as (b & -> & Hu).
  destruct (Seal k candidateAAD b rng) as [bl| |] eqn:Es; try done. step_bind. case_decide; [done|]. intros [= <-].
  rewrite decide_False by done. rewrite (Open_Seal _ _ _ _ _ Es). step_bind. by rewrite Hu.
Qed.

(** Candidates travel sealed: an end that holds the pairing key reads from a
    sealed list exactly its validated candidates, so an admissible list arrives
    unchanged; and whatever blob a relay delivers, what is accepted was encrypted
    under the pairing key for this purpose, and only safe addresses come out. *)
Theorem candidates_exchanged k set rng blob :
  json_candidates set -> SealCandidates k set rng = Ok blob ->
  (admissible (Candidates set) -> OpenCandidates k blob = Ok set) /\
  (forall blob' set', OpenCandidates k blob' = Ok set' ->
     admissible (Candidates set') /\
     exists nonce plain, len nonce = NonceSize /\ blob' = nonce ++ gcm_seal k nonce plain candidateAAD).
Proof.
  intros Hj Hs. split.
  - intros Ha. rewrite (open_sealed _ _ _ _ Hj Hs). rewrite validate_is_spec, validate_spec_id by done. by destruct set.
  - intros blob' set' (nonce & plain & set0 & _ & Hn & Hb & _ & ->)%open_candidates_inv.
    split; [rewrite validate_is_spec; apply validate_spec_admissible|]. eauto.
Qed.
End exchange.

(** ** A concrete codec, and witnesses *)
Module ToyCandidates.
Import ToyId.

Fixpoint put_candidates (cs : list Candidate) : bytes :=
  match cs with [] => [] | c :: rest => put_field (Addr c) ++ put_field (Kind c) ++ put_candidates rest end.

Fixpoint get_candidates (fuel : nat) (b : bytes) : option (list Candidate) :=
  match fuel, b with
  | _, [] => Some []
  | O, _ => None
  | S n, _ =>
      '(a, b1) ← get_field b; '(k, b2) ← get_field b1; rest ← get_candidates n b2; Some (mkCandidate a k :: rest)
  end.

Lemma put_field_ne p rest : put_field p ++ rest <> [].
Proof. by destruct p. Qed.

Lemma get_put_candidates cs : forall fuel, (length cs <= fuel)%nat -> get_candidates fuel (put_candidates cs) = Some cs.
Proof.
  induction cs as [|c cs IH]; intros fuel Hf; [by destruct fuel|]. destruct fuel as [|fuel]; [cbn in Hf; lia|].
  cbn [put_candidates get_candidates]. pose proof (put_field_ne (Addr c) (put_field (Kind c) ++ put_candidates cs)) as Hn.
  destruct (put_field (Addr c) ++ put_field (Kind c) ++ put_candidates cs) as [|x r] eqn:E; [done|]. rewrite <- E.
  rewrite get_put_field. cbn [mbind option_bind]. rewrite get_put_field. cbn [mbind option_bind].
  rewrite IH by (cbn in Hf; lia). cbn. by destruct c.
Qed.

Lemma put_candidates_length cs : (length cs <= length (put_candidates cs))%nat.
Proof.
  induction cs as [|c cs IH]; [done|]. cbn [put_candidates length]. rewrite !length_app.
  assert (1 <= length (put_field (Addr c)))%nat by (unfold put_field; rewrite length_app; cbn; lia). lia.
Qed.

#[export] Instance json : CandidateJSON :=
  {| json_marshal_candidates set := Some (put_candidates (Candidates set));
     json_unmarshal_candidates b := mkCandidateSet <$> get_candidates (length b) b |}.

#[export] Instance json_laws : CandidateJSONLaws.
Proof.
  refine (Build_CandidateJSONLaws _ (fun _ => True) _). intros [cs] _. eexists. split; [done|]. cbn.
  by rewrite get_put_candidates by apply put_candidates_length.
Defined.

(** The interfaces of a machine with a LAN address, a global one and loopback. *)
Definition interfaces : list (option bytes) :=
  [Some [x7f; x00; x00; x01]; None; Some [xc0; xa8; x01; x14];
   Some (str " " ++ [x01; x0d; xb8] ++ replicate 11 x00 ++ [x05])].

Definition offered : list Candidate :=
  [mkCandidate (str "192.168.1.20:7331") KindHost; mkCandidate (str "[2001:db8::5]:7331") KindHost].

Definition sample_pairing_key : bytes := replicate 32 x2a.
End ToyCandidates.

Import Crypto.Toy ToyCandidates.

Lemma local_candidates_offered_witness : LocalCandidates (Some interfaces) 7331 = Ok offered.
Proof.
  destruct (local_candidates_offered interfaces 7331) as (_ & -> & _).
  - reflexivity.
  - split; [done|reflexivity].
  - repeat constructor; intros ip [= <-]; vm_compute; eauto.
  - vm_compute. reflexivity.
Defined.

Lemma candidates_exchanged_witness :
  let k := sample_pairing_key in let set := mkCandidateSet offered in
  exists blob, SealCandidates k set ToyId.rng = Ok blob /\
    OpenCandidates k blob = Ok set.
Proof.
  cbv zeta.
  assert (Hok : is_ok (SealCandidates sample_pairing_key (mkCandidateSet offered) ToyId.rng) = true) by (vm_compute; reflexivity).
  destruct (SealCandidates sample_pairing_key (mkCandidateSet offered) ToyId.rng) as [blob| |] eqn:E; [|discriminate Hok..].
  exists blob. split; [reflexivity|].
  refine (proj1 (candidates_exchanged _ _ _ blob I E) _).
  apply validated_fixed. vm_compute. reflexivity.
Defined.
