(* ===== verification/Url.v ===== *)
(** The parts of the Go library's package net/url the program uses: [url.Parse]
    with the fields [Scheme], [User], [Host] and [Path], and the methods
    [Hostname] and [Port]; as of Go 1.24. *)
From Stdlib Require Import ZArith Lia.
From Stdlib Require Import Strings.Byte.
From stdpp Require Import base sets strings numbers option sorting list.
From S2P Require Import Prelude GoStrings Net.

(** ** Characters *)
Definition is_alpha (c : byte) : bool :=
  let v := byte_val c in bool_decide (97 <= v <= 122) || bool_decide (65 <= v <= 90).
Definition is_digit (c : byte) : bool := bool_decide (48 <= byte_val c <= 57).
Definition is_alnum (c : byte) : bool := is_alpha c || is_digit c.

(** Lower case of the ASCII letters, which is all a scheme can hold. *)
Definition lower1 (c : byte) : byte := if decide (65 <= byte_val c <= 90) then to_byte (byte_val c + 32) else c.

(** Characters allowed as they are in a host ([shouldEscape] is false). *)
Definition host_char (c : byte) : bool :=
  is_alnum c || bool_decide (c ∈ str "!$&'()*+,;=:[]<>-_.~") || bool_decide (c = x22).

Definition userinfo_char (c : byte) : bool := is_alnum c || bool_decide (c ∈ str "-._:~!$&'()*+,;=%@").

(** [strings.Cut] at a byte: before it, and after it if it occurs. *)
Fixpoint cut (s : bytes) (sep : byte) : bytes * option bytes :=
  match s with
  | [] => ([], None)
  | c :: rest => if decide (c = sep) then ([], Some rest) else let '(a, b) := cut rest sep in (c :: a, b)
  end.

(** ** Percent encoding *)
Inductive encoding := encodePath | encodeFragment | encodeUserPassword | encodeHost | encodeZone.

Definition escape_ok (mode : encoding) (hi lo : Z) : bool :=
  let v := to_byte (hi * 16 + lo) in
  match mode with
  | encodeHost => negb (bool_decide (hi < 8) && bool_decide (v <> x25))
  | encodeZone => negb (bool_decide (v <> x25) && bool_decide (v <> x20) && negb (host_char v))
  | _ => true
  end.

Definition literal_ok (mode : encoding) (c : byte) : bool :=
  match mode with
  | encodeHost | encodeZone => negb (bool_decide (byte_val c < 128) && negb (host_char c))
  | _ => true
  end.

Fixpoint unescape (s : bytes) (mode : encoding) : option bytes :=
  match s with
  | [] => Some []
  | c :: rest =>
      if decide (c = x25) then
        match rest with
        | h :: l :: rest' =>
            hi ← hex_val h; lo ← hex_val l;
            if escape_ok mode hi lo then t ← unescape rest' mode; Some (to_byte (hi * 16 + lo) :: t) else None
        | _ => None
        end
      else if literal_ok mode c then t ← unescape rest mode; Some (c :: t) else None
  end.

(** ** Parsing *)
Record URL := mkURL {
  Scheme : bytes;
  User : option (bytes * bytes);   (* user name and password *)
  u_Host : bytes;
  u_Path : bytes
}.

(** [getScheme]: the scheme and the rest; [None] for a missing scheme. *)
Fixpoint scheme_loop (acc s : bytes) : option (bytes * bytes) :=
  match s with
  | [] => Some ([], acc)
  | c :: rest =>
      if is_alpha c then scheme_loop (acc ++ [c]) rest
      else if is_digit c || bool_decide (c ∈ str "+-.") then
        match acc with [] => Some ([], s) | _ => scheme_loop (acc ++ [c]) rest end
      else if decide (c = x3a) then match acc with [] => None | _ => Some (acc, rest) end
      else Some ([], acc ++ s)
  end.

Definition validOptionalPort (p : bytes) : bool :=
  match p with
  | [] => true
  | c :: rest => bool_decide (c = x3a) && forallb is_digit rest
  end.

(** [strings.Index] of the text "%25" in a host. *)
Fixpoint index25 (s : bytes) : option nat :=
  match s with
  | [] => None
  | _ :: rest => if HasPrefix s (str "%25") then Some O else S <$> index25 rest
  end.

Definition parseHost (host : bytes) : option bytes :=
  if HasPrefix host (str "[") then
    match LastIndexByte host x5d with
    | None => None
    | Some i =>
        if negb (validOptionalPort (drop (S i) host)) then None
        else match index25 (take i host) with
             | Some z =>
                 h1 ← unescape (take z host) encodeHost;
                 h2 ← unescape (drop z (take i host)) encodeZone;
                 h3 ← unescape (drop i host) encodeHost;
                 Some (h1 ++ h2 ++ h3)
             | None => unescape host encodeHost
             end
    end
  else match LastIndexByte host x3a with
       | Some i => if negb (validOptionalPort (drop i host)) then None else unescape host encodeHost
       | None => unescape host encodeHost
       end.

Definition parseUser (userinfo : bytes) : option (bytes * bytes) :=
  if negb (forallb userinfo_char userinfo) then None
  else let '(name, pass) := cut userinfo x3a in
       n ← unescape name encodeUserPassword;
       p ← unescape (default [] pass) encodeUserPassword;
       Some (n, p).

Definition parseAuthority (authority : bytes) : option (option (bytes * bytes) * bytes) :=
  match LastIndexByte authority x40 with
  | None => h ← parseHost authority; Some (None, h)
  | Some i =>
      h ← parseHost (drop (S i) authority);
      u ← parseUser (take i authority);
      Some (Some u, h)
  end.

Definition is_ctl (c : byte) : bool := bool_decide (byte_val c < 32) || bool_decide (c = x7f).

(** The part of a URL before the fragment.  The query is cut off; it is not used. *)
Definition parse (raw : bytes) : option URL :=
  if existsb is_ctl raw then None
  else if decide (raw = str "*") then Some (mkURL [] None [] (str "*"))
  else
    '(scheme, rest) ← scheme_loop [] raw;
    let scheme := lower1 <$> scheme in
    let rest := (cut rest x3f).1 in
    if negb (HasPrefix rest (str "/")) && bool_decide (scheme <> []) then Some (mkURL scheme None [] [])
    else if negb (HasPrefix rest (str "/")) && bool_decide (x3a ∈ (cut rest x2f).1) then None
    else if (bool_decide (scheme <> []) || negb (HasPrefix rest (str "///"))) && HasPrefix rest (str "//") then
      let authority := (cut (drop 2 rest) x2f).1 in
      let path := drop (length authority) (drop 2 rest) in
      '(user, host) ← parseAuthority authority;
      p ← unescape path encodePath;
      Some (mkURL scheme user host p)
    else p ← unescape rest encodePath; Some (mkURL scheme None [] p).

Definition url_Parse (raw : bytes) : option URL :=
  let '(u, frag) := cut raw x23 in
  url ← parse u;
  match frag with
  | Some (c :: f) => _ ← unescape (c :: f) encodeFragment; Some url
  | _ => Some url
  end.

(** [splitHostPort] of package url, with [Hostname] and [Port]. *)
Definition url_splitHostPort (hostPort : bytes) : bytes * bytes :=
  let '(host, port) :=
    match LastIndexByte hostPort x3a with
    | Some i => if validOptionalPort (drop i hostPort) then (take i hostPort, drop (S i) hostPort) else (hostPort, [])
    | None => (hostPort, [])
    end in
  if HasPrefix host (str "[") && bool_decide (last host = Some x5d)
  then (take (length host - 2) (drop 1 host), port) else (host, port).

Definition Hostname (u : URL) : bytes := (url_splitHostPort (u_Host u)).1.
Definition url_Port (u : URL) : bytes := (url_splitHostPort (u_Host u)).2.
