(* ===== verification/Upgrade.v ===== *)
(** The WebSocket upgrade: [acceptKey], [ClientHandshake], [ServerHandshake] and
    [headerContainsToken] of [src/internal/rendezvous/ws.go], with SHA-1 and the
    reading of HTTP message heads from the Go library. *)
From Stdlib Require Import ZArith Lia.
From Stdlib Require Import Strings.Byte.
From stdpp Require Import base sets strings numbers option sorting list.
From S2P Require Import Prelude GoStrings Net Crypto Messages.

(** ** SHA-1 *)
Module Sha1.
Definition rotl (n x : Z) : Z := Z.lor (wrap 32 (Z.shiftl x n)) (Z.shiftr x (32 - n)).

Definition padded (m : bytes) : bytes :=
  m ++ [x80] ++ replicate (Z.to_nat ((55 - len m) mod 64)) x00 ++ be_put 8 (8 * len m).

Fixpoint chunks (fuel n : nat) (m : bytes) : list bytes :=
  match fuel, m with
  | _, [] => []
  | O, _ => []
  | S f, _ => take n m :: chunks f n (drop n m)
  end.

(** The message schedule, latest word first. *)
Fixpoint extend (n : nat) (ws : list Z) : list Z :=
  match n with
  | O => ws
  | S m =>
      let w i := nth i ws 0 in
      extend m (rotl 1 (Z.lxor (Z.lxor (w 2%nat) (w 7%nat)) (Z.lxor (w 13%nat) (w 15%nat))) :: ws)
  end.

Definition schedule (block : bytes) : list Z := rev (extend 64 (rev (be_get <$> chunks 16 4 block))).

Record state := mkState { sa : Z; sb : Z; sc : Z; sd : Z; se : Z }.

Definition mixer (t : Z) (b c d : Z) : Z * Z :=
  if decide (t < 20) then (Z.lor (Z.land b c) (Z.land (Z.lxor b 0xffffffff) d), 0x5a827999)
  else if decide (t < 40) then (Z.lxor (Z.lxor b c) d, 0x6ed9eba1)
  else if decide (t < 60) then (Z.lor (Z.lor (Z.land b c) (Z.land b d)) (Z.land c d), 0x8f1bbcdc)
  else (Z.lxor (Z.lxor b c) d, 0xca62c1d6).

Definition round (s : state) (tw : Z * Z) : state :=
  let '(f, k) := mixer tw.1 (sb s) (sc s) (sd s) in
  mkState (wrap 32 (rotl 5 (sa s) + f + se s + k + tw.2)) (sa s) (rotl 30 (sb s)) (sc s) (sd s).

Definition compress (s : state) (block : bytes) : state :=
  let r := foldl round s (zip (seqZ 0 80) (schedule block)) in
  mkState (wrap 32 (sa s + sa r)) (wrap 32 (sb s + sb r)) (wrap 32 (sc s + sc r)) (wrap 32 (sd s + sd r))
    (wrap 32 (se s + se r)).

Definition Sum (m : bytes) : bytes :=
  let p := padded m in
  let s := foldl compress (mkState 0x67452301 0xefcdab89 0x98badcfe 0x10325476 0xc3d2e1f0) (chunks (length p) 64 p) in
  be_put 4 (sa s) ++ be_put 4 (sb s) ++ be_put 4 (sc s) ++ be_put 4 (sd s) ++ be_put 4 (se s).
End Sha1.

(** The test vector of FIPS 180. *)
Example sha1_abc : Sha1.Sum (str "abc") =
  be_put 20 0xa9993e364706816aba3e25717850c26c9cd0d89d.
Proof. vm_compute. reflexivity. Qed.

(** ** Heads of HTTP messages

    A head is a first line and header lines up to an empty line; a header line
    is a name, a colon and a value with the white space around it removed. *)
Fixpoint fold_case (s : bytes) : bytes :=
  match s with
  | xc5 :: xbf :: rest => x73 :: fold_case rest            (* long s *)
  | xe2 :: x84 :: xaa :: rest => x6b :: fold_case rest     (* Kelvin sign *)
  | c :: rest => (if decide (65 <= byte_val c <= 90) then to_byte (byte_val c + 32) else c) :: fold_case rest
  | [] => []
  end.

(** [strings.EqualFold] where one side is ASCII. *)
Definition EqualFold (s t : bytes) : bool := bool_decide (fold_case s = fold_case t).

Definition headers : Type := list (bytes * bytes).

Fixpoint Header_Get (h : headers) (name : bytes) : bytes :=
  match h with
  | [] => []
  | (n, v) :: rest => if EqualFold n name then v else Header_Get rest name
  end.

(** Everything up to a line feed, without a carriage return before it. *)
Fixpoint read_line (s : bytes) : option (bytes * bytes) :=
  match s with
  | [] => None
  | c :: rest =>
      if decide (c = x0a) then Some ([], rest)
      else if decide (c = x0d /\ head rest = Some x0a) then Some ([], drop 1 rest)
      else '(l, r) ← read_line rest; Some (c :: l, r)
  end.

Definition blank (c : byte) : bool := bool_decide (c = x20 \/ c = x09).

Fixpoint skip_blank (s : bytes) : bytes :=
  match s with c :: rest => if blank c then skip_blank rest else s | [] => [] end.

Definition trim_blank (s : bytes) : bytes := rev (skip_blank (rev (skip_blank s))).

Definition header_line (l : bytes) : option (bytes * bytes) :=
  match IndexByte l x3a with
  | Some (S i) => if existsb blank (take (S i) l) then None else Some (take (S i) l, trim_blank (drop (S (S i)) l))
  | _ => None
  end.

Fixpoint read_headers (fuel : nat) (s : bytes) : option (headers * bytes) :=
  match fuel with
  | O => None
  | S n =>
      '(l, rest) ← read_line s;
      match l with
      | [] => Some ([], rest)
      | _ => h ← header_line l; '(hs, rest') ← read_headers n rest; Some (h :: hs, rest')
      end
  end.

Record head_of := mkHead { h_first : bytes; h_headers : headers; h_rest : bytes }.

(** Each line takes at least one byte. *)
Definition read_head (s : bytes) : option head_of :=
  '(l, rest) ← read_line s; '(hs, r) ← read_headers (length s) rest; Some (mkHead l hs r).

(** The status code of a response: three digits after the protocol version. *)
Definition status_code (first : bytes) : option Z :=
  match IndexByte first x20 with
  | Some i =>
      if HasPrefix first (str "HTTP/1.") then
        let code := take 3 (drop (S i) first) in
        let after := drop 3 (drop (S i) first) in
        if decide (length code = 3%nat /\ (after = [] \/ head after = Some x20)) then digits_val code 0 else None
      else None
  | None => None
  end.

(** ** The upgrade *)
Definition wsGUID : bytes := str "258EAFA5-E914-47DA-95CA-5AB0DC85B39A".
Definition crlf : bytes := [x0d; x0a].

Definition acceptKey (key : bytes) : bytes := EncodeToString (Sha1.Sum (key ++ wsGUID)).

Inductive upgrade_err := UpgradeRNG (e : crypto_err) | UpgradeIO | UpgradeStatus (n : Z) | UpgradeHeader | UpgradeAccept
  | NotUpgrade | BadVersion | NoKey | CannotHijack.

Definition upgrade_request (host path key : bytes) : bytes :=
  str "GET " ++ path ++ str " HTTP/1.1" ++ crlf ++
  str "Host: " ++ host ++ crlf ++
  str "Upgrade: websocket" ++ crlf ++
  str "Connection: Upgrade" ++ crlf ++
  str "Sec-WebSocket-Key: " ++ key ++ crlf ++
  str "Sec-WebSocket-Version: 13" ++ crlf ++
  crlf.

(** What the client makes of the response: the bytes after its head stay in the
    reader for the frames. *)
Definition check_response (key response : bytes) : res upgrade_err bytes :=
  match read_head response with
  | None => Err UpgradeIO
  | Some h =>
      match status_code (h_first h) with
      | None => Err UpgradeIO
      | Some code =>
          if decide (code <> 101) then Err (UpgradeStatus code)
          else if negb (EqualFold (Header_Get (h_headers h) (str "Upgrade")) (str "websocket")) then Err UpgradeHeader
          else if decide (Header_Get (h_headers h) (str "Sec-WebSocket-Accept") <> acceptKey key) then Err UpgradeAccept
          else Ok (h_rest h)
      end
  end.

(** [sent] is whether the request could be written, [response] what the server
    answers, as a function of the request. *)
Definition ClientHandshake (host path rng : bytes) (sent : bool) (response : bytes -> bytes) : res upgrade_err bytes :=
  nonce ← map_err UpgradeRNG (RandomBytes 16 rng);
  let key := EncodeToString nonce in
  let path := if decide (path = []) then str "/" else path in
  if negb sent then Err UpgradeIO else check_response key (response (upgrade_request host path key)).

(** [strings.Split] at a comma. *)
Fixpoint split_commas (s : bytes) : list bytes :=
  match s with
  | [] => [[]]
  | c :: rest =>
      match split_commas rest with
      | p :: ps => if decide (c = x2c) then [] :: p :: ps else (c :: p) :: ps
      | [] => []
      end
  end.

Definition headerContainsToken (header token : bytes) : bool :=
  existsb (fun part => EqualFold (TrimSpace part) token) (split_commas header).

Definition upgrade_response (key : bytes) : bytes :=
  str "HTTP/1.1 101 Switching Protocols" ++ crlf ++
  str "Upgrade: websocket" ++ crlf ++
  str "Connection: Upgrade" ++ crlf ++
  str "Sec-WebSocket-Accept: " ++ acceptKey key ++ crlf ++
  crlf.

(** [hijacks]: whether the connection can be taken over, [wrote] whether the
    response could be written.  Returns the response. *)
Definition ServerHandshake (h : headers) (hijacks wrote : bool) : res upgrade_err bytes :=
  if negb (EqualFold (Header_Get h (str "Upgrade")) (str "websocket")) ||
     negb (headerContainsToken (Header_Get h (str "Connection")) (str "upgrade")) then Err NotUpgrade
  else if decide (Header_Get h (str "Sec-WebSocket-Version") <> str "13") then Err BadVersion
  else
    let key := Header_Get h (str "Sec-WebSocket-Key") in
    if decide (key = []) then Err NoKey
    else if negb hijacks then Err CannotHijack
    else if negb wrote then Err UpgradeIO
    else Ok (upgrade_response key).

(** The server end of one upgrade: it reads the request's head and answers. *)
Definition serve_upgrade (request : bytes) : res upgrade_err (bytes * bytes) :=
  match read_head request with
  | None => Err UpgradeIO
  | Some h => resp ← ServerHandshake (h_headers h) true true; Ok (resp, h_rest h)
  end.

(** ** Reading back what was written *)
Definition line_text (s : bytes) : Prop := x0a ∉ s /\ x0d ∉ s.

Lemma read_line_crlf l rest : line_text l -> read_line (l ++ crlf ++ rest) = Some (l, rest).
Proof.
  intros [Ha Hd]. induction l as [|c l IH]; [done|]. cbn [app read_line].
  apply not_elem_of_cons in Ha as [? Ha]. apply not_elem_of_cons in Hd as [? Hd].
  rewrite !decide_False by naive_solver. by rewrite IH.
Qed.

Fixpoint lines (ls : list bytes) : bytes :=
  match ls with [] => [] | l :: rest => l ++ crlf ++ lines rest end.

Lemma read_headers_lines ls hs : Forall2 (fun l h => header_line l = Some h /\ line_text l /\ l <> []) ls hs ->
  forall fuel rest, (length ls < fuel)%nat -> read_headers fuel (lines ls ++ crlf ++ rest) = Some (hs, rest).
Proof.
  induction 1 as [|l h ls hs (Hh & Hl & Hn) _ IH]; intros fuel rest Hf; (destruct fuel as [|fuel]; [cbn in Hf; lia|]).
  - cbn [lines app read_headers]. reflexivity.
  - cbn [lines read_headers]. rewrite <- !app_assoc, read_line_crlf by done. cbn [mbind option_bind].
    destruct l as [|c l]; [done|]. rewrite Hh. cbn [mbind option_bind]. rewrite IH by (cbn in Hf; lia). done.
Qed.

Lemma lines_length ls : (length ls <= length (lines ls))%nat.
Proof. induction ls as [|l ls IH]; [done|]. cbn [lines length]. rewrite !length_app. cbn. lia. Qed.

Lemma read_head_lines first ls hs rest : line_text first ->
  Forall2 (fun l h => header_line l = Some h /\ line_text l /\ l <> []) ls hs ->
  read_head (first ++ crlf ++ lines ls ++ crlf ++ rest) = Some (mkHead first hs rest).
Proof.
  intros Hf Hl. unfold read_head. rewrite read_line_crlf by done. cbn [mbind option_bind].
  rewrite (read_headers_lines ls hs) by (done || (rewrite !length_app; pose proof (lines_length ls); cbn; lia)). done.
Qed.

(** Text without white space. *)
Definition solid (s : bytes) : Prop := Forall (fun c => c <> x0a /\ c <> x0d /\ blank c = false) s.

Lemma solid_line s : solid s -> line_text s.
Proof. intros Hs. unfold solid in Hs. rewrite Forall_forall in Hs. split; intros Hi; by destruct (Hs _ Hi) as (? & ? & _). Qed.

Lemma skip_solid c s : blank c = false -> skip_blank (c :: s) = c :: s.
Proof. intros Hc. cbn. by rewrite Hc. Qed.

Lemma trim_solid s : solid s -> trim_blank (x20 :: s) = s.
Proof.
  intros Hs. unfold trim_blank. change (skip_blank (x20 :: s)) with (skip_blank s).
  assert (Hk : forall t, solid t -> skip_blank t = t).
  { intros [|c t] Ht; [done|]. apply Forall_cons_1 in Ht as [(_ & _ & Hc) _]. by apply skip_solid. }
  rewrite (Hk s) by done. rewrite (Hk (rev s)); [by rewrite rev_involutive|].
  apply Forall_forall. intros c Hc. unfold solid in Hs. rewrite Forall_forall in Hs. apply Hs.
  by rewrite list_elem_of_In, <- in_rev, <- list_elem_of_In in Hc.
Qed.

Lemma header_line_ok name v : name <> [] -> x3a ∉ name -> existsb blank name = false ->
  header_line (name ++ x3a :: v) = Some (name, trim_blank v).
Proof.
  intros Hn Hc Hb. unfold header_line. rewrite IndexByte_app by done. destruct (length name) as [|i] eqn:El.
  { by apply nil_length_inv in El. }
  rewrite <- El, take_app_length, Hb. replace (S (length name)) with (length name + 1)%nat by lia.
  by rewrite <- drop_drop, drop_app_length.
Qed.

Definition solid_byte (c : byte) : bool := negb (bool_decide (c = x0a)) && negb (bool_decide (c = x0d)) && negb (blank c).

Lemma solid_bytes s : forallb solid_byte s = true -> solid s.
Proof.
  intros H. apply Forall_forall. intros c Hc. apply list_elem_of_In in Hc. pose proof (proj1 (forallb_forall _ _) H c Hc) as Hs.
  unfold solid_byte in Hs. rewrite !andb_true_iff, !negb_true_iff, !bool_decide_eq_false in Hs. naive_solver.
Qed.

Lemma digit_solid v : solid [digit v].
Proof.
  pose proof (Z.mod_pos_bound v 64 eq_refl) as Hv. apply solid_bytes. cbn [forallb]. rewrite andb_true_r.
  assert (Ha : forallb solid_byte alphabet = true) by (vm_compute; reflexivity).
  apply (proj1 (forallb_forall _ _) Ha). unfold digit. apply nth_In.
  change (length alphabet) with 64%nat. lia.
Qed.

Lemma encoded_solid n : forall b, (length b <= n)%nat -> solid (EncodeToString b).
Proof.
  induction n as [|n IH]; intros b Hb; [destruct b; [constructor|cbn in Hb; lia]|].
  assert (Hp : solid [pad]) by (apply solid_bytes; reflexivity).
  assert (Hd : forall v s, solid s -> solid (digit v :: s)).
  { intros v s Hs. apply (Forall_app_2 _ [digit v] s); [apply digit_solid|done]. }
  destruct b as [|x [|y [|z rest]]]; cbn [EncodeToString]; cbv zeta; [constructor| | |]; repeat apply Hd.
  - by apply (Forall_app_2 _ [pad] [pad]).
  - done.
  - apply IH. cbn in Hb. lia.
Qed.

Lemma accept_solid key : solid (acceptKey key).
Proof. by eapply encoded_solid. Qed.

Lemma get_headers_ok host key : key <> [] ->
  ServerHandshake [(str "Host", host); (str "Upgrade", str "websocket"); (str "Connection", str "Upgrade");
    (str "Sec-WebSocket-Key", key); (str "Sec-WebSocket-Version", str "13")] true true = Ok (upgrade_response key).
Proof.
  intros Hk. unfold ServerHandshake.
  set (h := [_; _; _; _; _]).
  change (Header_Get h (str "Upgrade")) with (str "websocket").
  change (Header_Get h (str "Connection")) with (str "Upgrade").
  change (Header_Get h (str "Sec-WebSocket-Version")) with (str "13").
  change (Header_Get h (str "Sec-WebSocket-Key")) with key. clear h. cbv zeta.
  replace (EqualFold (str "websocket") (str "websocket")) with true by reflexivity.
  replace (headerContainsToken (str "Upgrade") (str "upgrade")) with true by reflexivity. cbn [negb orb].
  rewrite (decide_False (P := str "13" <> str "13")) by tauto. by rewrite decide_False.
Qed.

Definition request_lines (host key : bytes) : list bytes :=
  [str "Host: " ++ host; str "Upgrade: websocket"; str "Connection: Upgrade"; str "Sec-WebSocket-Key: " ++ key;
   str "Sec-WebSocket-Version: 13"].

Lemma request_shape host path key more : upgrade_request host path key ++ more =
  (str "GET " ++ path ++ str " HTTP/1.1") ++ crlf ++ lines (request_lines host key) ++ crlf ++ more.
Proof.
  unfold upgrade_request, request_lines. cbn [lines]. rewrite !app_nil_r. repeat rewrite <- app_assoc. reflexivity.
Qed.

Lemma line_app s t : line_text s -> line_text t -> line_text (s ++ t).
Proof. unfold line_text. rewrite !elem_of_app. tauto. Qed.

Lemma line_str s : forallb (fun c => negb (bool_decide (c = x0a)) && negb (bool_decide (c = x0d))) s = true -> line_text s.
Proof.
  intros H. split; intros Hi; apply list_elem_of_In in Hi; by pose proof (proj1 (forallb_forall _ _) H _ Hi).
Qed.

(** One goal per line of a head; the constant lines are checked by computation. *)
Ltac each_line := first [apply Forall2_nil_2 | apply Forall2_cons_2; [split_and!|each_line]].
Ltac head_lines := each_line; try (vm_compute; reflexivity); try (by apply line_str); try done.

Lemma serve_upgrade_ok host path key more : line_text host -> line_text path -> solid key -> key <> [] ->
  serve_upgrade (upgrade_request host path key ++ more) = Ok (upgrade_response key, more).
Proof.
  intros Hh Hp Hk Hn. unfold serve_upgrade. rewrite request_shape.
  rewrite (read_head_lines _ _ [(str "Host", trim_blank (x20 :: host)); (str "Upgrade", str "websocket");
    (str "Connection", str "Upgrade"); (str "Sec-WebSocket-Key", key); (str "Sec-WebSocket-Version", str "13")]).
  - cbn [h_headers h_rest]. by rewrite get_headers_ok.
  - repeat apply line_app; try done; by apply line_str.
  - unfold request_lines. head_lines.
    + apply (line_app _ _ (line_str (str "Host: ") eq_refl) Hh).
    + rewrite <- (trim_solid key) at 2 by done.
      apply (header_line_ok (str "Sec-WebSocket-Key") (x20 :: key)); [done|apply (bool_decide_unpack _); vm_compute; exact I|reflexivity].
    + apply (line_app _ _ (line_str (str "Sec-WebSocket-Key: ") eq_refl)). by apply solid_line.
Qed.

Definition response_lines (key : bytes) : list bytes :=
  [str "Upgrade: websocket"; str "Connection: Upgrade"; str "Sec-WebSocket-Accept: " ++ acceptKey key].

Lemma response_shape key more : upgrade_response key ++ more =
  str "HTTP/1.1 101 Switching Protocols" ++ crlf ++ lines (response_lines key) ++ crlf ++ more.
Proof.
  unfold upgrade_response, response_lines. cbn [lines]. rewrite !app_nil_r. repeat rewrite <- app_assoc. reflexivity.
Qed.

Lemma check_response_ok key more : check_response key (upgrade_response key ++ more) = Ok more.
Proof.
  unfold check_response. rewrite response_shape. unfold response_lines.
  pose proof (accept_solid key) as Ha. set (a := acceptKey key) in *. clearbody a.
  rewrite (read_head_lines _ _ [(str "Upgrade", str "websocket"); (str "Connection", str "Upgrade");
    (str "Sec-WebSocket-Accept", a)]).
  - cbn [h_first h_headers h_rest]. change (status_code (str "HTTP/1.1 101 Switching Protocols")) with (Some 101).
    cbn match. rewrite (decide_False (P := 101 <> 101)) by tauto.
    set (h := [_; _; _]). change (Header_Get h (str "Upgrade")) with (str "websocket").
    change (Header_Get h (str "Sec-WebSocket-Accept")) with a. clear h.
    replace (EqualFold (str "websocket") (str "websocket")) with true by reflexivity. cbn [negb].
    by rewrite decide_False by tauto.
  - by apply line_str.
  - head_lines.
    + rewrite <- (trim_solid a) at 2 by done.
      apply (header_line_ok (str "Sec-WebSocket-Accept") (x20 :: a)); [done|apply (bool_decide_unpack _); vm_compute; exact I|reflexivity].
    + apply (line_app _ _ (line_str (str "Sec-WebSocket-Accept: ") eq_refl)). by apply solid_line.
Qed.

Lemma check_response_no_panic key r : check_response key r <> Panic.
Proof.
  unfold check_response. destruct (read_head r) as [h|]; [|done]. destruct (status_code (h_first h)) as [code|]; [|done].
  destruct (decide (code <> 101)); [done|]. destruct (negb _); [done|]. by case_decide.
Qed.

Lemma ClientHandshake_no_panic host path rng sent response : ClientHandshake host path rng sent response <> Panic.
Proof.
  unfold ClientHandshake, RandomBytes. destruct (decide (len rng < 16)); cbn; [done|]. destruct sent; cbn; [|done].
  apply check_response_no_panic.
Qed.


(** The accept key of the sample handshake in RFC 6455 is another one. *)
Example accept_key_differs_from_rfc :
  acceptKey (str "dGhlIHNhbXBsZSBub25jZQ==") = str "CPWQ34XzCEpqkRbr9NJspuqlRjs=" /\
  EncodeToString (Sha1.Sum (str "dGhlIHNhbXBsZSBub25jZQ==258EAFA5-E914-47DA-95CA-C5AB0DC85B11")) =
    str "s3pPLMBiTxaQ9kYGzzhZRbK+xOo=".
Proof. split; vm_compute; reflexivity. Qed.

