(* ===== verification/Dialer.v ===== *)
(** Reaching the relay: [src/internal/rendezvous/dialer.go] and
    [src/internal/rendezvous/proxy.go].

    What answers at the other end of a connection is a [server]; the outcome of
    every dial is an argument, so the theorems hold for every network.  Parsing a
    certificate is the class [X509Ops]. *)
From Stdlib Require Import ZArith Lia.
From Stdlib Require Import Strings.Byte.
From stdpp Require Import base sets strings numbers option sorting list.
From S2P Require Import Prelude GoStrings Net Url Crypto Identity Messages Upgrade.

(** ** The ladder *)
Definition Rung : Type := Z.
Definition RungTLSDirect : Rung := 0.
Definition RungTLSProxy : Rung := 1.
Definition RungHTTPDirect : Rung := 2.

Definition Rung_String (r : Rung) : bytes :=
  if decide (r = RungTLSDirect) then str "tls"
  else if decide (r = RungTLSProxy) then str "tls-via-proxy"
  else if decide (r = RungHTTPDirect) then str "http"
  else str "unknown".

Definition Ladder : list Rung := [RungTLSDirect; RungTLSProxy; RungHTTPDirect].

Definition DefaultTLSPort : Z := 443.
Definition DefaultHTTPPort : Z := 80.
Definition DefaultPath : bytes := str "/hmdl".

(** ** Endpoints *)
Record Endpoint := mkEndpoint {
  Host : bytes;
  TLSPort : Z;
  HTTPPort : Z;
  e_Path : bytes;
  Pin : bytes;
  e_Verify : bool;
  e_Proxy : bytes
}.

Inductive endpoint_err := EmptyAddress | BadAddress | BadPort (p : bytes) | NoHost.

Definition set_Path (ep : Endpoint) (p : bytes) : Endpoint :=
  mkEndpoint (Host ep) (TLSPort ep) (HTTPPort ep) p (Pin ep) (e_Verify ep) (e_Proxy ep).

Definition new_endpoint (host : bytes) (tls http : Z) : Endpoint := mkEndpoint host tls http DefaultPath [] false [].

(** A port number as the program accepts it. *)
Definition parse_port (p : bytes) : res endpoint_err Z :=
  match Atoi p with
  | Some n => if decide (n <= 0 \/ 65535 < n) then Err (BadPort p) else Ok n
  | None => Err (BadPort p)
  end.

Definition parse_url_endpoint (s : bytes) : res endpoint_err Endpoint :=
  match url_Parse s with
  | None => Err BadAddress
  | Some u =>
      ep ← (if decide (url_Port u = []) then Ok (new_endpoint (Hostname u) DefaultTLSPort DefaultHTTPPort)
            else n ← parse_port (url_Port u);
                 if decide (Scheme u = str "http") then Ok (new_endpoint (Hostname u) DefaultTLSPort n)
                 else Ok (new_endpoint (Hostname u) n DefaultHTTPPort));
      if decide (u_Path u <> [] /\ u_Path u <> str "/") then Ok (set_Path ep (u_Path u)) else Ok ep
  end.

Definition ParseEndpoint (s0 : bytes) : res endpoint_err Endpoint :=
  let s := TrimSpace s0 in
  if decide (s = []) then Err EmptyAddress
  else
    ep ← (if Contains s (str "://") then parse_url_endpoint s
          else match SplitHostPort s with
               | Ok (host, port) => n ← parse_port port; Ok (new_endpoint host n DefaultHTTPPort)
               | _ => Ok (new_endpoint s DefaultTLSPort DefaultHTTPPort)
               end);
    if decide (Host ep = []) then Err NoHost
    else if negb (HasPrefix (e_Path ep) (str "/")) then Ok (set_Path ep (str "/" ++ e_Path ep)) else Ok ep.

(** ** Proxies *)
Inductive dial_err :=
| NoProxy | BadProxy | ProxyNoHost | DialFailed | ProxyDial | ProxyWrite | ProxyResponse | ProxyRefused (status : Z)
| ProxyData | TlsFailed | Unverified | BadPin | PinMismatch | Upgrade (e : upgrade_err) | UnknownRung (r : Rung).

Definition proxy_variables : list bytes := [str "HTTPS_PROXY"; str "https_proxy"; str "HTTP_PROXY"; str "http_proxy"].

Fixpoint first_set (getenv : bytes -> bytes) (keys : list bytes) : bytes :=
  match keys with
  | [] => []
  | k :: rest => if decide (getenv k = []) then first_set getenv rest else getenv k
  end.

Definition set_Host (u : URL) (h : bytes) : URL := mkURL (Scheme u) (User u) h (u_Path u).

Definition ProxyURL (explicit : bytes) (getenv : bytes -> bytes) : res dial_err URL :=
  let raw := if decide (explicit = []) then first_set getenv proxy_variables else explicit in
  if decide (raw = []) then Err NoProxy
  else
    let raw := if Contains raw (str "://") then raw else str "http://" ++ raw in
    match url_Parse raw with
    | None => Err BadProxy
    | Some u =>
        if decide (u_Host u = []) then Err ProxyNoHost
        else if decide (url_Port u = []) then Ok (set_Host u (JoinHostPort (u_Host u) (str "8080"))) else Ok u
    end.

(** What is reached at the end of a TCP connection, as far as the client can
    tell: the certificates it presents, the key it holds, whether its chain
    verifies for the host against the system roots, whether it speaks TLS, and
    how it answers an upgrade request. *)
Record server := mkSrv {
  s_certs : list bytes;
  s_key : bytes;
  s_trusted : bool;
  s_tls : bool;
  s_respond : bytes -> bytes
}.

(** The CONNECT request sent to a proxy. *)
Definition connect_request (proxy : URL) (target : bytes) : bytes :=
  str "CONNECT " ++ target ++ str " HTTP/1.1" ++ crlf ++
  str "Host: " ++ target ++ crlf ++
  str "Proxy-Connection: Keep-Alive" ++ crlf ++
  match User proxy with
  | Some (name, pass) =>
      str "Proxy-Authorization: Basic " ++ EncodeToString (name ++ str ":" ++ pass) ++ crlf
  | None => []
  end ++ crlf.

(** How the dialogue with a proxy goes: its answer is a status, the number of
    bytes that came with it, and what the tunnel leads to. *)
Inductive proxy_outcome := PxNoDial | PxNoWrite | PxNoResponse | PxAnswer (status buffered : Z) (srv : server).

(** Returns the bytes sent to the proxy as well. *)
Definition DialViaProxy (proxy : URL) (target : bytes) (o : proxy_outcome) : bytes * res dial_err server :=
  let req := connect_request proxy target in
  match o with
  | PxNoDial => ([], Err ProxyDial)
  | PxNoWrite => ([], Err ProxyWrite)
  | PxNoResponse => (req, Err ProxyResponse)
  | PxAnswer status buffered srv =>
      if decide (status <> 200) then (req, Err (ProxyRefused status))
      else if decide (0 < buffered) then (req, Err ProxyData)
      else (req, Ok srv)
  end.

(** ** TLS *)
Class X509Ops := {
  (** the SubjectPublicKeyInfo of a certificate that parses *)
  spki_of : bytes -> option bytes
}.

(** [subtleEqual]: [v] collects the differences; indexing past [b] panics. *)
Fixpoint subtle_loop (a b : bytes) (v : Z) : res dial_err Z :=
  match a, b with
  | [], _ => Ok v
  | x :: a', y :: b' => subtle_loop a' b' (Z.lor v (Z.lxor (byte_val x) (byte_val y)))
  | _ :: _, [] => Panic
  end.

Definition subtleEqual (a b : bytes) : res dial_err bool := v ← subtle_loop a b 0; Ok (bool_decide (v = 0)).

Section dialling.
Context `{SignatureOps, X509Ops}.

Fixpoint pin_loop (want : bytes) (rawCerts : list bytes) : res dial_err unit :=
  match rawCerts with
  | [] => Err PinMismatch
  | raw :: rest =>
      match spki_of raw with
      | None => pin_loop want rest
      | Some spki =>
          let sum := sha256 spki in
          if decide (len want = len sum) then
            eq ← subtleEqual want sum;
            if eq : bool then Ok tt else pin_loop want rest
          else pin_loop want rest
      end
  end.

Definition verifyPin (e : Endpoint) (rawCerts : list bytes) : res dial_err unit :=
  match DecodeString (Pin e) with
  | None => Err BadPin
  | Some want => pin_loop want rawCerts
  end.

Definition PinFor (spki : bytes) : bytes := EncodeToString (sha256 spki).

Record tls_config := mkTls { InsecureSkipVerify : bool; VerifyPeerCertificate : option (list bytes -> res dial_err unit) }.

Definition tlsConfig (e : Endpoint) (skipVerify : bool) : tls_config :=
  if decide (Pin e <> []) then mkTls true (Some (verifyPin e)) else mkTls skipVerify None.

(** A client handshake of crypto/tls: the server proves that it holds the key of
    the first certificate it presents; the chain is verified unless that is
    switched off; the callback then sees the certificates as they were sent. *)
Definition HandshakeContext (cfg : tls_config) (srv : server) : res dial_err unit :=
  if negb (s_tls srv) then Err TlsFailed
  else if decide (head (s_certs srv) ≫= spki_of <> Some (s_key srv)) then Err TlsFailed
  else if negb (InsecureSkipVerify cfg) && negb (s_trusted srv) then Err Unverified
  else match VerifyPeerCertificate cfg with Some f => f (s_certs srv) | None => Ok tt end.

(** [isCertError]: the verification errors of crypto/x509 and crypto/tls; the
    errors of the callback are none of them. *)
Definition isCertError (e : dial_err) : bool := match e with Unverified => true | _ => false end.

(** The network while one rung is tried: the outcomes of up to two dials, direct
    or through a proxy, and of writing the upgrade request. *)
Record rung_env := mkRungEnv {
  re_direct1 : option server;
  re_direct2 : option server;
  re_proxy1 : proxy_outcome;
  re_proxy2 : proxy_outcome;
  re_rng : bytes;
  re_sent : bool
}.

Definition dialRaw (hostPort : bytes) (proxy : option URL) (direct : option server) (via : proxy_outcome) :
  res dial_err server :=
  match proxy with
  | Some p => (DialViaProxy p hostPort via).2
  | None => match direct with Some srv => Ok srv | None => Err DialFailed end
  end.

Definition dialTLS (e : Endpoint) (hostPort : bytes) (proxy : option URL) (env : rung_env) : res dial_err server :=
  srv ← dialRaw hostPort proxy (re_direct1 env) (re_proxy1 env);
  match HandshakeContext (tlsConfig e false) srv with
  | Ok _ => Ok srv
  | Panic => Panic
  | Err err =>
      if bool_decide (Pin e <> []) || e_Verify e || negb (isCertError err) then Err err
      else
        srv2 ← dialRaw hostPort proxy (re_direct2 env) (re_proxy2 env);
        _ ← HandshakeContext (tlsConfig e true) srv2;
        Ok srv2
  end.

(** The server reached and what it sent after the upgrade. *)
Definition DialRung (e : Endpoint) (rung : Rung) (getenv : bytes -> bytes) (env : rung_env) :
  res dial_err (server * bytes) :=
  srv ←
    (if decide (rung = RungTLSDirect) then dialTLS e (JoinHostPort (Host e) (Itoa (TLSPort e))) None env
     else if decide (rung = RungTLSProxy) then
       proxy ← ProxyURL (e_Proxy e) getenv;
       dialTLS e (JoinHostPort (Host e) (Itoa (TLSPort e))) (Some proxy) env
     else if decide (rung = RungHTTPDirect) then
       match re_direct1 env with Some srv => Ok srv | None => Err DialFailed end
     else Err (UnknownRung rung));
  rest ← map_err Upgrade (ClientHandshake (Host e) (e_Path e) (re_rng env) (re_sent env) (s_respond srv));
  Ok (srv, rest).

(** [Dial] over the rungs left: [expired r] is whether the caller's context has
    ended by the time rung [r] has failed.  The errors are collected. *)
Fixpoint dial_ladder (e : Endpoint) (getenv : bytes -> bytes) (env : Rung -> rung_env) (expired : Rung -> bool)
  (rungs : list Rung) (errs : list (Rung * dial_err)) : res (list (Rung * dial_err)) (server * bytes * Rung) :=
  match rungs with
  | [] => Err errs
  | r :: rest =>
      match DialRung e r getenv (env r) with
      | Ok c => Ok (c, r)
      | Panic => Panic
      | Err err => if expired r then Err (errs ++ [(r, err)])
                   else dial_ladder e getenv env expired rest (errs ++ [(r, err)])
      end
  end.

Definition Dial (e : Endpoint) (getenv : bytes -> bytes) (env : Rung -> rung_env) (expired : Rung -> bool) :
  res (list (Rung * dial_err)) (server * bytes * Rung) :=
  dial_ladder e getenv env expired Ladder [].
End dialling.

(** ** Endpoints are well formed *)
Definition port_range (n : Z) : Prop := 1 <= n <= 65535.

Lemma default_ports : port_range DefaultTLSPort /\ port_range DefaultHTTPPort.
Proof. unfold port_range, DefaultTLSPort, DefaultHTTPPort. lia. Qed.

Lemma parse_port_range p n : parse_port p = Ok n -> port_range n.
Proof. unfold parse_port, port_range. destruct (Atoi p); [|done]. case_decide; [done|]. intros [= <-]. lia. Qed.

Lemma HasPrefix_app p s : HasPrefix (p ++ s) p = true.
Proof. unfold HasPrefix. rewrite take_app_length. by apply bool_decide_true. Qed.

Definition endpoint_ok (ep : Endpoint) : Prop :=
  Host ep <> [] /\ port_range (TLSPort ep) /\ port_range (HTTPPort ep) /\ HasPrefix (e_Path ep) (str "/") = true.

Lemma url_endpoint_ports s ep : parse_url_endpoint s = Ok ep -> port_range (TLSPort ep) /\ port_range (HTTPPort ep).
Proof.
  unfold parse_url_endpoint. destruct (url_Parse s) as [u|]; [|done].
  pose proof default_ports as Hd.
  intros (ep0 & He & Hp)%bind_ok_inv.
  assert (port_range (TLSPort ep0) /\ port_range (HTTPPort ep0)).
  { clear Hp. case_decide; [by simplify_eq|]. apply bind_ok_inv in He as (n & Hn%parse_port_range & He).
    case_decide; simplify_eq; cbn; tauto. }
  case_decide; by simplify_eq.
Qed.

(** C39: whatever text names a relay, an endpoint that is accepted has a host, two
    port numbers between 1 and 65535 and a path that starts with a slash. *)
Theorem endpoint_wellformed s ep : ParseEndpoint s = Ok ep -> endpoint_ok ep.
Proof.
  unfold ParseEndpoint. case_decide; [done|]. intros (ep0 & He & Hp)%bind_ok_inv.
  assert (Hr : port_range (TLSPort ep0) /\ port_range (HTTPPort ep0)).
  { clear Hp. destruct (Contains _ _); [by eapply url_endpoint_ports|].
    destruct (SplitHostPort _) as [[host port]| |]; [|simplify_eq; apply default_ports..].
    apply bind_ok_inv in He as (n & Hn%parse_port_range & [= <-]). split; [done|apply default_ports]. }
  case_decide as Hh; [done|]. destruct (HasPrefix (e_Path ep0) (str "/")) eqn:Ep; cbn [negb] in Hp; simplify_eq.
  - by destruct Hr.
  - by destruct Hr.
Qed.

(** The documented forms, and two that are read differently from what they say. *)
Example endpoint_forms :
  ParseEndpoint (str " example.com ") = Ok (new_endpoint (str "example.com") 443 80) /\
  ParseEndpoint (str "example.com:8443") = Ok (new_endpoint (str "example.com") 8443 80) /\
  ParseEndpoint (str "https://example.com/hmdl") = Ok (new_endpoint (str "example.com") 443 80) /\
  ParseEndpoint (str "http://example.com:8080/relay") =
    Ok (set_Path (new_endpoint (str "example.com") 443 8080) (str "/relay")) /\
  ParseEndpoint (str "[2001:db8::1]:8443") = Ok (new_endpoint (str "2001:db8::1") 8443 80) /\
  ParseEndpoint (str "[2001:db8::1]") = Ok (new_endpoint (str "[2001:db8::1]") 443 80) /\
  ParseEndpoint (str "example.com/hmdl") = Ok (new_endpoint (str "example.com/hmdl") 443 80).
Proof. split_and!; vm_compute; reflexivity. Qed.

(** A proxy given as an IPv6 address without a port gets a second pair of
    brackets, which no dialler accepts. *)
Example proxy_ipv6_brackets :
  u_Host <$> ProxyURL (str "http://[2001:db8::7]") (fun _ => []) = Ok (str "[[2001:db8::7]]:8080") /\
  u_Host <$> ProxyURL (str "proxy.corp") (fun _ => []) = Ok (str "proxy.corp:8080") /\
  SplitHostPort (str "[[2001:db8::7]]:8080") = Err MissingPort.
Proof. split_and!; vm_compute; reflexivity. Qed.

(** ** Pins *)
Lemma subtle_loop_spec a : forall b v, length a = length b -> 0 <= v ->
  exists w, subtle_loop a b v = Ok w /\ 0 <= w /\ (w = 0 <-> v = 0 /\ a = b).
Proof.
  induction a as [|x a IH]; intros [|y b] v Hl Hv; try done; cbn [subtle_loop].
  - exists v. naive_solver.
  - pose proof (byte_val_range x). pose proof (byte_val_range y).
    assert (0 <= Z.lor v (Z.lxor (byte_val x) (byte_val y))).
    { apply Z.lor_nonneg. split; [done|]. apply Z.lxor_nonneg. lia. }
    destruct (IH b (Z.lor v (Z.lxor (byte_val x) (byte_val y)))) as (w & -> & Hw & E); [cbn in Hl; lia|done|].
    exists w. split; [done|]. split; [done|]. rewrite E, Z.lor_eq_0_iff, Z.lxor_eq_0_iff. split.
    + intros [[-> ->%byte_val_inj] ->]. done.
    + intros [-> [= -> ->]]. done.
Qed.

(** Comparison in constant time is comparison. *)
Lemma subtleEqual_spec a b : len a = len b -> subtleEqual a b = Ok (bool_decide (a = b)).
Proof.
  intros Hl. unfold subtleEqual. destruct (subtle_loop_spec a b 0) as (w & -> & _ & E); [unfold len in Hl; lia|done|].
  step_bind. f_equal. apply bool_decide_ext. rewrite E. tauto.
Qed.

Section policy.
Context `{SignatureOps, X509Ops}.

(** The pin of a certificate among those presented. *)
Definition pinned (e : Endpoint) (certs : list bytes) : Prop :=
  exists raw spki, raw ∈ certs /\ spki_of raw = Some spki /\ DecodeString (Pin e) = Some (sha256 spki).

Lemma pin_loop_spec want certs :
  pin_loop want certs <> Panic /\
  (pin_loop want certs = Ok tt <-> exists raw spki, raw ∈ certs /\ spki_of raw = Some spki /\ want = sha256 spki).
Proof.
  induction certs as [|raw certs [IHp IH]]; cbn [pin_loop].
  { split; [done|]. split; [done|]. intros (? & ? & []%elem_of_nil & _). }
  destruct (spki_of raw) as [spki|] eqn:Es.
  - destruct (decide (want = sha256 spki)) as [->|Hne].
    + rewrite decide_True by done. rewrite subtleEqual_spec by done. step_bind. rewrite bool_decide_true by done.
      split; [done|]. split; [|done]. intros _. exists raw, spki. split_and!; [set_solver|done|done].
    + assert (E : (if decide (len want = len (sha256 spki)) then
          eq ← subtleEqual want (sha256 spki); if eq : bool then Ok tt else pin_loop want certs
        else pin_loop want certs) = pin_loop want certs).
      { case_decide; [|done]. rewrite subtleEqual_spec by done. step_bind. by rewrite bool_decide_false. }
      rewrite E. split; [done|]. rewrite IH. split; intros (r & k & Hr & Hk & Hw); [exists r, k; set_solver|].
      apply elem_of_cons in Hr as [->|Hr]; [congruence|eauto].
  - split; [done|]. rewrite IH. split; intros (r & k & Hr & Hk & Hw); [exists r, k; set_solver|].
    apply elem_of_cons in Hr as [->|Hr]; [congruence|eauto].
Qed.

Lemma verifyPin_spec e certs : verifyPin e certs = Ok tt <-> pinned e certs.
Proof.
  unfold verifyPin, pinned. destruct (DecodeString (Pin e)) as [want|]; [|split; [done|naive_solver]].
  rewrite (proj2 (pin_loop_spec want certs)). split; intros (r & k & ? & ? & Hw); exists r, k; naive_solver.
Qed.

Lemma verifyPin_no_panic e certs : verifyPin e certs <> Panic.
Proof. unfold verifyPin. destruct (DecodeString (Pin e)); [apply pin_loop_spec|done]. Qed.

Lemma handshake_ok_inv cfg srv : HandshakeContext cfg srv = Ok tt ->
  s_tls srv = true /\ head (s_certs srv) ≫= spki_of = Some (s_key srv) /\
  (InsecureSkipVerify cfg = false -> s_trusted srv = true) /\
  (forall f, VerifyPeerCertificate cfg = Some f -> f (s_certs srv) = Ok tt).
Proof.
  unfold HandshakeContext. destruct (s_tls srv); [|done]. cbn [negb]. case_decide as Hk; [done|].
  destruct (InsecureSkipVerify cfg), (s_trusted srv); cbn [negb andb]; try done;
    destruct (VerifyPeerCertificate cfg) eqn:Ev; naive_solver.
Qed.

Lemma HandshakeContext_no_panic e skip srv : HandshakeContext (tlsConfig e skip) srv <> Panic.
Proof.
  unfold HandshakeContext, tlsConfig. destruct (negb (s_tls srv)); [done|]. destruct (decide (head _ ≫= _ <> _)); [done|].
  case_decide; cbn [InsecureSkipVerify VerifyPeerCertificate].
  - cbn [negb andb]. apply verifyPin_no_panic.
  - by destruct (negb skip && negb (s_trusted srv)).
Qed.


(** The pin can be met by anyone who has seen the relay's certificate: a
    server with a key of its own, presenting its own certificate first and the
    pinned one after it, is accepted, although it does not hold the pinned key. *)
Theorem pin_met_by_any_certificate e hostPort proxy env srv own relay_cert relay_key rest :
  DecodeString (Pin e) = Some (sha256 relay_key) -> Pin e <> [] ->
  spki_of relay_cert = Some relay_key -> spki_of own = Some (s_key srv) ->
  s_tls srv = true -> s_certs srv = own :: relay_cert :: rest ->
  dialRaw hostPort proxy (re_direct1 env) (re_proxy1 env) = Ok srv ->
  dialTLS e hostPort proxy env = Ok srv.
Proof.
  intros Hp Hn Hr Ho Ht Hc Hd. unfold dialTLS. rewrite Hd. step_bind.
  assert (E : HandshakeContext (tlsConfig e false) srv = Ok tt); [|by rewrite E].
  unfold HandshakeContext, tlsConfig. rewrite Ht. cbn [negb].
  rewrite (decide_False (P := _ ≫= _ <> _)) by (rewrite Hc; cbn; rewrite Ho; tauto).
  rewrite decide_True by done. cbn [InsecureSkipVerify VerifyPeerCertificate negb andb].
  apply verifyPin_spec. exists relay_cert, relay_key. rewrite Hc. split_and!; [set_solver|done|done].
Qed.

(** ** The ladder *)
Lemma DialRung_no_panic e r getenv env : DialRung e r getenv env <> Panic.
Proof.
  assert (Hr : forall hp px d v, dialRaw hp px d v <> Panic).
  { intros hp [px|] d v; cbn; [|by destruct d]. destruct v; cbn; repeat case_decide; done. }
  assert (Ht : forall hp px, dialTLS e hp px env <> Panic).
  { intros hp px. unfold dialTLS. apply bind_no_panic; [apply Hr|]. intros srv _.
    pose proof (HandshakeContext_no_panic e false srv). destruct (HandshakeContext (tlsConfig e false) srv) as [| |]; [done| |done].
    destruct (_ || _); [done|]. apply bind_no_panic; [apply Hr|]. intros srv2 _.
    apply bind_no_panic; [apply HandshakeContext_no_panic|done]. }
  unfold DialRung. apply bind_no_panic.
  - repeat case_decide; [apply Ht| |by destruct (re_direct1 env)|done].
    apply bind_no_panic; [|intros; apply Ht]. unfold ProxyURL. repeat case_decide; try done; cbv zeta.
    all: destruct (url_Parse _); [|done]; repeat case_decide; done.
  - intros srv _. apply bind_no_panic; [|done].
    pose proof (ClientHandshake_no_panic (Host e) (e_Path e) (re_rng env) (re_sent env) (s_respond srv)).
    by destruct (ClientHandshake _ _ _ _ _).
Qed.

(** What happens on each rung before the one that works. *)
Definition fails (e : Endpoint) getenv env (r : Rung) : Prop := exists err, DialRung e r getenv (env r) = Err err.

Lemma ladder_spec e getenv env expired rungs : forall errs,
  (exists pre r post c, rungs = pre ++ r :: post /\ Forall (fun r => fails e getenv env r /\ expired r = false) pre /\
     DialRung e r getenv (env r) = Ok c /\ dial_ladder e getenv env expired rungs errs = Ok (c, r)) \/
  (exists tried post es, rungs = tried ++ post /\ Forall (fails e getenv env) tried /\
     (post = [] \/ exists r, last tried = Some r /\ expired r = true) /\
     es.*1 = tried /\ dial_ladder e getenv env expired rungs errs = Err (errs ++ es)).
Proof.
  induction rungs as [|r rungs IH]; intros errs; cbn [dial_ladder].
  { right. exists [], [], []. rewrite (app_nil_r errs). split_and!; [done|apply Forall_nil_2|by left|done|done]. }
  pose proof (DialRung_no_panic e r getenv (env r)) as Hnp.
  destruct (DialRung e r getenv (env r)) as [c|err|] eqn:E; [..|done].
  { left. exists [], r, rungs, c. split_and!; [done|apply Forall_nil_2|done|done]. }
  assert (Hf : fails e getenv env r) by (by exists err).
  destruct (expired r) eqn:Ex.
  { right. exists [r], rungs, [(r, err)]. split_and!; [done|by apply Forall_singleton|right; by exists r|done|done]. }
  destruct (IH (errs ++ [(r, err)])) as [(pre & r' & post & c & -> & Hp & Hc & Hd)|(tried & post & es & -> & Ht & Hl & He & Hd)].
  - left. exists (r :: pre), r', post, c. split_and!; [done|by apply Forall_cons_2|done|done].
  - right. exists (r :: tried), post, ((r, err) :: es). rewrite Hd, <- app_assoc.
    split_and!; [done|by apply Forall_cons_2| |cbn; by rewrite He|done].
    destruct Hl as [->|(r' & Hl & Hx)]; [by left|right]. exists r'. split; [|done].
    destruct tried; [done|]. exact Hl.
Qed.

(** The ladder tries TLS, TLS through the proxy and plain HTTP in that order
    and answers with the first rung that works; it gives up only after the last
    rung or when the caller's time is over, and reports one error for each rung
    it tried. *)
Theorem dial_ladder_order e getenv env expired :
  (exists pre r post c, Ladder = pre ++ r :: post /\ Forall (fun r => fails e getenv env r /\ expired r = false) pre /\
     DialRung e r getenv (env r) = Ok c /\ Dial e getenv env expired = Ok (c, r)) \/
  (exists tried post es, Ladder = tried ++ post /\ Forall (fails e getenv env) tried /\
     (post = [] \/ exists r, last tried = Some r /\ expired r = true) /\
     es.*1 = tried /\ Dial e getenv env expired = Err es).
Proof. apply (ladder_spec e getenv env expired Ladder []). Qed.

(** A pin or strict verification does not survive the ladder: when both TLS
    rungs fail, because port 443 is blocked or because the certificate is the
    wrong one, the connection is made in clear text to whatever answers on the
    HTTP port, with no certificate at all. *)
Theorem strict_mode_downgrades e getenv env expired srv rest :
  fails e getenv env RungTLSDirect -> fails e getenv env RungTLSProxy ->
  expired RungTLSDirect = false -> expired RungTLSProxy = false ->
  re_direct1 (env RungHTTPDirect) = Some srv ->
  ClientHandshake (Host e) (e_Path e) (re_rng (env RungHTTPDirect)) (re_sent (env RungHTTPDirect)) (s_respond srv) = Ok rest ->
  Dial e getenv env expired = Ok (srv, rest, RungHTTPDirect).
Proof.
  intros [e1 H1] [e2 H2] X1 X2 Hs Hh. unfold Dial, Ladder. cbn [dial_ladder]. rewrite H1, X1, H2, X2.
  unfold DialRung. rewrite !decide_False by done. rewrite decide_True by done. rewrite Hs. step_bind. rewrite Hh. done.
Qed.
End policy.

(** ** Witnesses *)
Module SampleDial.
Import ToyId.

(** A certificate is its key after a marker. *)
#[export] Instance x509 : X509Ops :=
  {| spki_of raw := if HasPrefix raw (str "cert:") then Some (drop 5 raw) else None |}.

Definition respond (req : bytes) : bytes := match serve_upgrade req with Ok (r, _) => r | _ => [] end.

Definition relay : server := mkSrv [str "cert:relay key"] (str "relay key") false true respond.
Definition impostor : server := mkSrv [str "cert:mallory key"; str "cert:relay key"] (str "mallory key") false true respond.
Definition clear_text : server := mkSrv [] [] false false respond.

Definition pinned_endpoint : Endpoint :=
  mkEndpoint (str "relay.example.com") 443 80 DefaultPath (PinFor (str "relay key")) true [].

Definition env_of (srv : option server) : rung_env := mkRungEnv srv srv PxNoDial PxNoDial (replicate 16 x2a) true.
Definition blocked (r : Rung) : rung_env := if decide (r = RungHTTPDirect) then env_of (Some clear_text) else env_of None.
Definition unset (_ : bytes) : bytes := [].
End SampleDial.
Import ToyId SampleDial.

Lemma endpoint_wellformed_witness :
  endpoint_ok (set_Path (new_endpoint (str "example.com") 443 8080) (str "/relay")).
Proof. apply (endpoint_wellformed (str "http://example.com:8080/relay")). vm_compute. reflexivity. Defined.


Lemma pin_met_by_any_certificate_witness : dialTLS pinned_endpoint [] None (env_of (Some impostor)) = Ok impostor.
Proof.
  apply (pin_met_by_any_certificate pinned_endpoint [] None (env_of (Some impostor)) impostor
           (str "cert:mallory key") (str "cert:relay key") (str "relay key") []); try reflexivity.
  vm_compute. discriminate.
Defined.

Lemma strict_mode_downgrades_witness :
  Dial pinned_endpoint unset blocked (fun _ => false) = Ok (clear_text, [], RungHTTPDirect).
Proof.
  apply strict_mode_downgrades; try reflexivity.
  - exists DialFailed. vm_compute. reflexivity.
  - exists NoProxy. vm_compute. reflexivity.
Defined.
