(* ===== verification/Client.v ===== *)
(** The rendezvous client: [src/internal/rendezvous/client.go].

    Waiters are shared objects (the client's map, the call that registered one
    and the invite returned to the caller all hold it), so they live in a heap
    and the map holds identities.  A channel of capacity one is an [option].
    The client's relay connection is an identity; what happens on it, and which
    of several ready cases a select takes, are arguments. *)
From Stdlib Require Import ZArith Lia.
From Stdlib Require Import Strings.Byte.
From stdpp Require Import base gmap strings numbers option sorting list.
From S2P Require Import Prelude Crypto Identity Messages Candidates Relay Dialer.

Definition minBackoff : Z := Second.
Definition maxBackoff : Z := 30 * Second.

Record waiter := mkWaiter {
  published : option Message;   (* the channels, of capacity one *)
  paired : option Message;
  w_sealed : bytes;
  w_claim : bool;
  w_sent : bool
}.

Record Pairing := mkPairing {
  Role : bytes;
  PeerCandidates : list Candidate;
  PeerObserved : bytes;
  p_Observed : bytes;
  PunchIn : Z;                  (* nanoseconds *)
  Ticket : bytes;
  p_Rung : Rung
}.

Definition Initiator (p : Pairing) : bool := bool_decide (Role p = RoleClaimer).

Record Client := mkClient {
  c_conn : option nat;
  c_rung : Rung;
  c_observed : bytes;
  c_waiters : gmap bytes nat;
  c_connected : bool;           (* the channel [connected] is closed *)
  c_closed : bool;
  c_heap : gmap nat waiter
}.

Inductive client_err :=
| ErrClosed | CtxDone | ErrRelay (reason : bytes) | AlreadyOutstanding | ClMessage (e : message_err)
| ClCandidates (e : cand_err) | BadTicket | ClDial (e : dial_err) | ClSend | ClRecv | Unexpected (t : bytes).

Definition NewClient : Client := mkClient None 0 [] ∅ false false ∅.

Definition set_waiters (c : Client) (ws : gmap bytes nat) (h : gmap nat waiter) : Client :=
  mkClient (c_conn c) (c_rung c) (c_observed c) ws (c_connected c) (c_closed c) h.
Definition set_observed (c : Client) (o : bytes) : Client :=
  mkClient (c_conn c) (c_rung c) o (c_waiters c) (c_connected c) (c_closed c) (c_heap c).
Definition set_waiter (c : Client) (wid : nat) (w : waiter) : Client :=
  set_waiters c (c_waiters c) (<[wid := w]> (c_heap c)).

Definition mark_sent (b : bool) (w : waiter) : waiter := mkWaiter (published w) (paired w) (w_sealed w) (w_claim w) b.

(** The waiter registered for a rendezvous. *)
Definition waiter_of (c : Client) (rid : bytes) : option (nat * waiter) :=
  wid ← c_waiters c !! rid; w ← c_heap c !! wid; Some (wid, w).

(** *** Waiting *)

(** Which case of a select is taken, and whether it is ready. *)
Inductive case := FromChannel | FromClosed | FromContext.

(** [await]: the message taken from the channel, or why there is none; [None]
    when the case chosen is not ready. *)
Definition await (c : Client) (ch : option Message) (ctx_done : bool) (k : case) : option (res client_err Message) :=
  match k with
  | FromChannel => Ok <$> ch
  | FromClosed => if c_closed c then Some (Err ErrClosed) else None
  | FromContext => if ctx_done then Some (Err CtxDone) else None
  end.

Definition Client_Wait (c : Client) (ctx_done : bool) (k : case) : option (res client_err unit) :=
  match k with
  | FromChannel => if c_connected c then Some (Ok tt) else None
  | FromClosed => if c_closed c then Some (Err ErrClosed) else None
  | FromContext => if ctx_done then Some (Err CtxDone) else None
  end.

(** [Close]: the connection left to close. *)
Definition Client_Close (c : Client) : Client * option nat :=
  (mkClient None (c_rung c) (c_observed c) (c_waiters c) (c_connected c) true (c_heap c), c_conn c).

(** *** Dispatch *)

(** A send that does not block: a full channel keeps what it has. *)
Definition offer (ch : option Message) (m : Message) : option Message :=
  match ch with Some _ => ch | None => Some m end.

Definition to_published (m : Message) (w : waiter) : waiter :=
  mkWaiter (offer (published w) m) (paired w) (w_sealed w) (w_claim w) (w_sent w).
Definition to_paired (m : Message) (w : waiter) : waiter :=
  mkWaiter (published w) (offer (paired w) m) (w_sealed w) (w_claim w) (w_sent w).

Definition deliver (c : Client) (rid : bytes) (f : waiter -> waiter) : Client :=
  match waiter_of c rid with Some (wid, w) => set_waiter c wid (f w) | None => c end.

Definition dispatch (c : Client) (msg : Message) : Client :=
  if decide (m_type msg = MsgPublished) then
    let c1 := if decide (m_observed msg = []) then c else set_observed c (m_observed msg) in
    deliver c1 (m_rid msg) (to_published msg)
  else if decide (m_type msg = MsgPaired) then deliver c (m_rid msg) (to_paired msg)
  else if decide (m_type msg = MsgError) then deliver c (m_rid msg) (fun w => to_paired msg (to_published msg w))
  else c.

(** *** Requests *)
Definition request (rid : bytes) (w : waiter) : Message :=
  mkMessage (if w_claim w then MsgClaim else MsgPublish) rid (b64 (w_sealed w)) [] [] [] [] 0 [] [].

(** The unsent waiters, in the order of the map's iteration. *)
Definition unsent (c : Client) (order : list bytes) : list (bytes * nat * waiter) :=
  omap (fun rid => '(wid, w) ← waiter_of c rid; if w_sent w then None else Some (rid, wid, w)) order.

(** The sends of [resendWaiters] on a live connection: [ok rid] is whether the
    request for [rid] could be sent; the first failure ends the loop.  Only the
    flag [sent] of each waiter is set afterwards, on the object as it then is. *)
Fixpoint send_all (c : Client) (todo : list (bytes * nat * waiter)) (ok : bytes -> bool) : Client * list Message :=
  match todo with
  | [] => (c, [])
  | (rid, wid, w) :: rest =>
      if negb (ok rid) then (c, [])
      else
        let c1 := match c_heap c !! wid with Some w' => set_waiter c wid (mark_sent true w') | None => c end in
        let '(c2, ms) := send_all c1 rest ok in (c2, request rid w :: ms)
  end.

Definition resendWaiters (c : Client) (order : list bytes) (ok : bytes -> bool) : Client * list Message :=
  match c_conn c with
  | None => (c, [])
  | Some _ => send_all c (unsent c order) ok
  end.

Definition new_waiter (c : Client) : nat := fresh (elements (dom (c_heap c) : gset nat)).

Definition register (c : Client) (rid : bytes) (w : waiter) (order : list bytes) (ok : bytes -> bool) :
  Client * list Message * res client_err nat :=
  match c_waiters c !! rid with
  | Some _ => (c, [], Err AlreadyOutstanding)
  | None =>
      let wid := new_waiter c in
      let c1 := set_waiters c (<[rid := wid]> (c_waiters c)) (<[wid := w]> (c_heap c)) in
      let '(c2, ms) := resendWaiters c1 order ok in (c2, ms, Ok wid)
  end.

Definition unregister (c : Client) (rid : bytes) : Client := set_waiters c (delete rid (c_waiters c)) (c_heap c).

(** *** Publishing *)
Record Invite := mkInvite { i_rid : bytes; i_waiter : nat; i_observed : bytes }.

(** [Publish] up to its wait. *)
Definition Publish_start (c : Client) (rid sealed : bytes) (order : list bytes) (ok : bytes -> bool) :
  Client * list Message * res client_err nat :=
  register c (b64 rid) (mkWaiter None None sealed false false) order ok.

Definition take_published (c : Client) (wid : nat) : Client :=
  match c_heap c !! wid with
  | Some w => set_waiter c wid (mkWaiter None (paired w) (w_sealed w) (w_claim w) (w_sent w))
  | None => c
  end.

Definition take_paired (c : Client) (wid : nat) : Client :=
  match c_heap c !! wid with
  | Some w => set_waiter c wid (mkWaiter (published w) None (w_sealed w) (w_claim w) (w_sent w))
  | None => c
  end.

(** [Publish] from its wait on, for the waiter [wid] it registered. *)
Definition Publish_finish (c : Client) (rid : bytes) (wid : nat) (ctx_done : bool) (k : case) :
  option (Client * res client_err Invite) :=
  r ← await c (c_heap c !! wid ≫= published) ctx_done k;
  match r with
  | Ok msg =>
      let c1 := take_published c wid in
      if decide (m_type msg = MsgError) then Some (unregister c1 (b64 rid), Err (ErrRelay (m_reason msg)))
      else Some (c1, Ok (mkInvite (b64 rid) wid (m_observed msg)))
  | Err e => Some (unregister c (b64 rid), Err e)
  | Panic => Some (c, Panic)
  end.

(** *** Pairings *)

(** A 64-bit signed integer after overflow. *)
Definition int64 (z : Z) : Z := (z + 2 ^ 63) mod 2 ^ 64 - 2 ^ 63.

Section pairings.
Context `{CryptoOps, CandidateJSON}.

Definition toPairing (c : Client) (msg : Message) (pairingKey : bytes) : res client_err Pairing :=
  sealed ← map_err ClMessage (unb64 (m_peer_candidates msg) MaxSealedCandidates);
  set ← map_err ClCandidates (OpenCandidates pairingKey sealed);
  ticket ← map_err ClMessage (unb64 (m_ticket msg) TicketSize);
  if decide (len ticket <> TicketSize) then Err BadTicket
  else
    let punchIn := int64 (m_punch_ms msg * Millisecond) in
    let punchIn := if decide (punchIn < 0 \/ 30 * Second < punchIn) then 0 else punchIn in
    Ok (mkPairing (m_role msg) (Candidates set) (m_peer_observed msg) (c_observed c) punchIn ticket (c_rung c)).

(** What [Claim] and [Invite.Wait] do once their wait is over; both then
    unregister the rendezvous. *)
Definition finish_pairing (c : Client) (key : bytes) (wid : nat) (pairingKey : bytes) (ctx_done : bool) (k : case) :
  option (Client * res client_err Pairing) :=
  r ← await c (c_heap c !! wid ≫= paired) ctx_done k;
  match r with
  | Ok msg =>
      let c1 := take_paired c wid in
      if decide (m_type msg = MsgError) then Some (unregister c1 key, Err (ErrRelay (m_reason msg)))
      else Some (unregister c1 key, toPairing c1 msg pairingKey)
  | Err e => Some (unregister c key, Err e)
  | Panic => Some (c, Panic)
  end.

Definition Claim_start (c : Client) (rid sealed : bytes) (order : list bytes) (ok : bytes -> bool) :
  Client * list Message * res client_err nat :=
  register c (b64 rid) (mkWaiter None None sealed true false) order ok.

Definition Claim_finish (c : Client) (rid : bytes) (wid : nat) (pairingKey : bytes) (ctx_done : bool) (k : case) :
  option (Client * res client_err Pairing) :=
  finish_pairing c (b64 rid) wid pairingKey ctx_done k.

Definition Invite_Wait (c : Client) (i : Invite) (pairingKey : bytes) (ctx_done : bool) (k : case) :
  option (Client * res client_err Pairing) :=
  finish_pairing c (i_rid i) (i_waiter i) pairingKey ctx_done k.
End pairings.

Definition Invite_Cancel (c : Client) (i : Invite) : Client := unregister c (i_rid i).

(** *** Circuits *)

(** [OpenCircuit] on a connection dialled up the remembered rung: the request it
    sends, and its outcome.  [answer] is what is received. *)
Definition OpenCircuit {A} (dialled : res dial_err A) (ticket : bytes) (sent : bool) (answer : option Message) :
  option Message * res client_err A :=
  match dialled with
  | Err e => (None, Err (ClDial e))
  | Panic => (None, Panic)
  | Ok conn =>
      let req := mkMessage MsgCircuit [] [] [] [] [] [] 0 (b64 ticket) [] in
      if negb sent then (None, Err ClSend)
      else match answer with
           | None => (Some req, Err ClRecv)
           | Some msg =>
               if decide (m_type msg = MsgCircuitOK) then (Some req, Ok conn)
               else if decide (m_type msg = MsgError) then (Some req, Err (ErrRelay (m_reason msg)))
               else (Some req, Err (Unexpected (m_type msg)))
           end
  end.

(** *** The supervisor

    Where the loop of [supervise] stands: dialling, waiting out a backoff, or
    reading from a live connection. *)
Inductive phase := Dialling (backoff : Z) | BackingOff (backoff : Z) | Running (conn : nat) | Stopped.

Definition next_backoff (b : Z) : Z := if decide (maxBackoff < 2 * b) then maxBackoff else 2 * b.

(** The client's state once a dial has succeeded, and once the connection has
    failed. *)
Definition go_live (c : Client) (conn : nat) (r : Rung) : Client :=
  mkClient (Some conn) r (c_observed c) (c_waiters c) true (c_closed c) (c_heap c).

Definition mark_lost (c : Client) : Client :=
  mkClient None (c_rung c) (c_observed c) (c_waiters c) false (c_closed c)
    (map_imap (fun wid w => Some (if decide (wid ∈ (map_to_list (c_waiters c)).*2) then mark_sent false w else w)) (c_heap c)).

(** What happens to the supervisor: a dial ends (successfully, or not, before the
    loop's check of [closed] or after it), a backoff ends, a message arrives, the
    connection fails, or the user closes the client. *)
Inductive event :=
| EvDialled (conn : nat) (r : Rung) (order : list bytes) (ok : bytes -> bool)
| EvDialFailed
| EvBackoffOver
| EvReceived (msg : Message)
| EvLost
| EvClose.

(** The loop returns to its head, where it looks at [closed]. *)
Definition loop_head (c : Client) (b : Z) : phase := if c_closed c then Stopped else Dialling b.

(** One event: the client, the phase, and the messages sent; an event the phase
    cannot meet changes nothing. *)
Definition supervise (c : Client) (p : phase) (e : event) : Client * phase * list Message :=
  match e, p with
  | EvDialled conn r order ok, Dialling _ =>
      let '(c1, ms) := resendWaiters (go_live c conn r) order ok in (c1, Running conn, ms)
  | EvDialFailed, Dialling b => (c, if c_closed c then Stopped else BackingOff b, [])
  | EvBackoffOver, BackingOff b => (c, loop_head c (next_backoff b), [])
  | EvReceived msg, Running conn => (dispatch c msg, Running conn, [])
  | EvLost, Running _ => let c1 := mark_lost c in (c1, loop_head c1 minBackoff, [])
  | EvClose, BackingOff _ => ((Client_Close c).1, Stopped, [])
  | EvClose, _ => ((Client_Close c).1, p, [])
  | _, _ => (c, p, [])
  end.

(** ** Pairings are safe to act on *)
Lemma int64_range z : - 2 ^ 63 <= int64 z < 2 ^ 63.
Proof. unfold int64. pose proof (Z.mod_pos_bound (z + 2 ^ 63) (2 ^ 64) eq_refl). lia. Qed.

Lemma unb64_inv s max b : unb64 s max = Ok b -> DecodeString s = Some b /\ len b <= max.
Proof. unfold unb64. destruct (DecodeString s); [|done]. case_decide; [done|]. intros [= <-]. split; [done|lia]. Qed.

Section pairing_safety.
Context `{CryptoLaws, CandidateJSON}.

Lemma toPairing_no_panic c msg k : toPairing c msg k <> Panic.
Proof.
  unfold toPairing, unb64. destruct (DecodeString (m_peer_candidates msg)) as [b|]; [|done].
  destruct (decide (MaxSealedCandidates < len b)); [done|]. step_bind. unfold OpenCandidates.
  rewrite (decide_False (P := MaxSealedCandidates < len b)) by done. pose proof (Open_no_panic k candidateAAD b) as Hp.
  destruct (Open k candidateAAD b) as [plain| |]; [|done..]. step_bind.
  destruct (json_unmarshal_candidates plain) as [set|]; [|done]. step_bind.
  destruct (DecodeString (m_ticket msg)) as [t|]; [|done]. destruct (decide (TicketSize < len t)); [done|]. step_bind.
  by case_decide.
Qed.

(** C35: a relay's pairing message is never trusted further than it must be:
    whatever it says, conversion does not panic, and a pairing that results has
    candidates that were sealed under the pairing key and are safe to dial, a
    ticket of the right size, and a delay of at most thirty seconds even when the
    number of milliseconds overflows the clock. *)
Theorem pairing_safe c msg k :
  toPairing c msg k <> Panic /\
  forall p, toPairing c msg k = Ok p ->
    admissible (PeerCandidates p) /\ len (Ticket p) = TicketSize /\ 0 <= PunchIn p <= 30 * Second /\
    Role p = m_role msg /\ PeerObserved p = m_peer_observed msg /\
    exists nonce plain, DecodeString (m_peer_candidates msg) = Some (nonce ++ gcm_seal k nonce plain candidateAAD) /\
      len nonce = NonceSize.
Proof.
  split; [apply toPairing_no_panic|]. intros p. unfold toPairing.
  destruct (unb64 (m_peer_candidates msg) _) as [sealed| |] eqn:E1; try done. step_bind.
  destruct (OpenCandidates k sealed) as [set| |] eqn:E2; try done. step_bind.
  destruct (unb64 (m_ticket msg) _) as [t| |] eqn:E3; try done. step_bind.
  destruct (decide (len t <> TicketSize)) as [|Ht]; [done|]. intros [= <-]. cbn [PeerCandidates Ticket PunchIn Role PeerObserved].
  apply open_candidates_inv in E2 as (nonce & plain & set0 & _ & Hn & -> & _ & ->).
  apply unb64_inv in E1 as [E1 _]. split; [rewrite validate_is_spec; apply validate_spec_admissible|].
  split; [by destruct (decide (len t = TicketSize))|]. split; [case_decide; unfold Second, Millisecond in *; lia|].
  split_and!; eauto.
Qed.
End pairing_safety.

(** ** No outstanding rendezvous is forgotten *)

(** Everything that can happen to a client: the supervisor's events, and the
    calls of its users between them. *)
Inductive op :=
| Sup (e : event)
| Reg (rid sealed : bytes) (claim : bool) (order : list bytes) (ok : bytes -> bool)
| Unreg (rid : bytes)
| TakePublished (wid : nat)
| TakePaired (wid : nat).

Definition run_op (s : Client * phase) (o : op) : Client * phase :=
  let '(c, p) := s in
  match o with
  | Sup e => (supervise c p e).1
  | Reg rid sealed claim order ok => ((register c rid (mkWaiter None None sealed claim false) order ok).1.1, p)
  | Unreg rid => (unregister c rid, p)
  | TakePublished wid => (take_published c wid, p)
  | TakePaired wid => (take_paired c wid, p)
  end.

Inductive reachable : Client * phase -> Prop :=
| reach_new : reachable (NewClient, Dialling minBackoff)
| reach_op s o : reachable s -> reachable (run_op s o).

(** A registered rendezvous has a waiter of its own. *)
Definition waiters_ok (c : Client) : Prop :=
  (forall rid wid, c_waiters c !! rid = Some wid -> is_Some (c_heap c !! wid)) /\
  (forall r1 r2 wid, c_waiters c !! r1 = Some wid -> c_waiters c !! r2 = Some wid -> r1 = r2).

(** Nothing is marked as sent. *)
Definition all_unsent (c : Client) : Prop := forall rid wid w, waiter_of c rid = Some (wid, w) -> w_sent w = false.

Definition backoff_ok (p : phase) : Prop :=
  match p with Dialling b | BackingOff b => minBackoff <= b <= maxBackoff | _ => True end.

Definition running (p : phase) : bool := match p with Running _ => true | _ => false end.

Definition client_inv (s : Client * phase) : Prop :=
  let '(c, p) := s in
  waiters_ok c /\ backoff_ok p /\ c_connected c = running p /\
  (running p = false -> c_conn c = None /\ all_unsent c) /\
  (forall conn, p = Running conn -> c_conn c = Some conn \/ c_closed c = true).

(** Changes of the heap that keep which waiters exist, and the flag. *)
Definition same_shape (h h' : gmap nat waiter) : Prop := forall wid, w_sent <$> h !! wid = w_sent <$> h' !! wid.

Lemma waiter_of_Some c rid wid w : waiter_of c rid = Some (wid, w) <-> c_waiters c !! rid = Some wid /\ c_heap c !! wid = Some w.
Proof.
  unfold waiter_of. destruct (c_waiters c !! rid) as [wid'|]; cbn; [|naive_solver].
  destruct (c_heap c !! wid') eqn:E; cbn; naive_solver.
Qed.

Lemma waiters_ok_heap c c' : waiters_ok c -> c_waiters c' = c_waiters c ->
  (forall wid, is_Some (c_heap c !! wid) -> is_Some (c_heap c' !! wid)) -> waiters_ok c'.
Proof. intros [H1 H2] Hw Hh. split; rewrite Hw; naive_solver. Qed.

(** What [send_all] leaves alone. *)
Record same_but_heap (c c' : Client) : Prop := {
  sb_conn : c_conn c' = c_conn c; sb_rung : c_rung c' = c_rung c; sb_obs : c_observed c' = c_observed c;
  sb_waiters : c_waiters c' = c_waiters c; sb_connected : c_connected c' = c_connected c; sb_closed : c_closed c' = c_closed c
}.

Lemma send_all_frame todo ok : forall c c' ms, send_all c todo ok = (c', ms) ->
  same_but_heap c c' /\ (forall wid, is_Some (c_heap c !! wid) -> is_Some (c_heap c' !! wid)).
Proof.
  induction todo as [|[[rid wid] w] todo IH]; intros c c' ms; cbn [send_all].
  { intros [= <- <-]. by repeat split. }
  destruct (ok rid); cbn [negb]; [|intros [= <- <-]; by repeat split].
  destruct (send_all _ todo ok) as [c2 ms2] eqn:E. intros [= <- <-].
  apply IH in E as [[E1 E2 E3 E4 E5 E6] Hh]. destruct (c_heap c !! wid) as [w'|] eqn:Ew; [|by split].
  split; [by split|]. intros i Hi. apply Hh. cbn. destruct (decide (i = wid)) as [->|]; simplify_map_eq; eauto.
Qed.

Lemma resend_frame c order ok c' ms : resendWaiters c order ok = (c', ms) ->
  same_but_heap c c' /\ (forall wid, is_Some (c_heap c !! wid) -> is_Some (c_heap c' !! wid)).
Proof.
  unfold resendWaiters. destruct (c_conn c); [apply send_all_frame|]. intros [= <- <-]. by repeat split.
Qed.

Lemma fresh_waiter c : c_heap c !! new_waiter c = None.
Proof.
  unfold new_waiter. apply not_elem_of_dom. intros Hi. apply (infinite_is_fresh (elements (dom (c_heap c)))).
  by apply elem_of_elements.
Qed.

Lemma update_inv c p wid f : client_inv (c, p) -> (forall w, w_sent (f w) = w_sent w) ->
  client_inv (match c_heap c !! wid with Some w => set_waiter c wid (f w) | None => c end, p).
Proof.
  intros (Hw & Hb & Hc & Hu & Hr) Hf. destruct (c_heap c !! wid) as [w|] eqn:E; [|done].
  split; [|split; [done|split; [done|split; [|done]]]].
  - apply (waiters_ok_heap c); [done|done|]. intros i Hi. cbn. destruct (decide (i = wid)) as [->|]; simplify_map_eq; eauto.
  - intros Hp. destruct (Hu Hp) as [H1 H2]. split; [done|]. intros rid i w' [Hi Hw']%waiter_of_Some. cbn in Hi, Hw'.
    destruct (decide (i = wid)) as [->|]; simplify_map_eq; [rewrite Hf|]; eapply H2, waiter_of_Some; eauto.
Qed.

Lemma deliver_inv c p rid f : client_inv (c, p) -> (forall w, w_sent (f w) = w_sent w) -> client_inv (deliver c rid f, p).
Proof.
  intros Hi Hf. unfold deliver. destruct (waiter_of c rid) as [[wid w]|] eqn:E; [|done].
  apply waiter_of_Some in E as [_ E]. pose proof (update_inv c p wid f Hi Hf) as H. by rewrite E in H.
Qed.

Lemma dispatch_inv c p msg : client_inv (c, p) -> client_inv (dispatch c msg, p).
Proof.
  intros Hi. unfold dispatch. cbv zeta. repeat case_decide; try done; (apply deliver_inv; [done|by intros []]).
Qed.

Lemma mark_lost_unsent c : all_unsent (mark_lost c).
Proof.
  intros rid wid w [Hw Hh]%waiter_of_Some. cbn in Hw, Hh. rewrite map_lookup_imap in Hh.
  destruct (c_heap c !! wid) as [w'|]; [|done]. cbn in Hh. rewrite decide_True in Hh; [by simplify_eq|].
  apply list_elem_of_fmap. exists (rid, wid). split; [done|]. by apply elem_of_map_to_list.
Qed.

Lemma next_backoff_ok b : minBackoff <= b <= maxBackoff -> minBackoff <= next_backoff b <= maxBackoff.
Proof. unfold next_backoff. intros Hb. assert (0 < minBackoff) by done. case_decide; lia. Qed.

Lemma backoff_min : minBackoff <= minBackoff <= maxBackoff.
Proof. by vm_compute. Qed.

Lemma loop_head_not_running c b : running (loop_head c b) = false.
Proof. unfold loop_head. by destruct (c_closed c). Qed.

Lemma close_inv c p : client_inv (c, p) -> client_inv ((Client_Close c).1, p).
Proof.
  intros (Hw & Hb & Hc & Hu & Hr). split; [done|]. split; [done|]. split; [done|]. split; [|by right].
  intros Hp. split; [done|]. apply (Hu Hp).
Qed.

Lemma supervise_inv c p e : client_inv (c, p) -> client_inv (supervise c p e).1.
Proof.
  intros Hi. pose proof Hi as (Hw & Hb & Hc & Hu & Hr).
  destruct e as [conn r order ok| | |msg| |]; destruct p as [b|b|conn'|]; try done; cbn [supervise].
  - destruct (resendWaiters _ order ok) as [c1 ms] eqn:E. apply resend_frame in E as [[E1 E2 E3 E4 E5 E6] Hh].
    cbn [fst]. split; [by apply (waiters_ok_heap (go_live c conn r))|]. split; [done|]. split; [by rewrite E5|].
    split; [done|]. intros conn2 [= <-]. left. by rewrite E1.
  - cbn [fst]. destruct (c_closed c); by split_and!.
  - cbn [fst]. split; [done|]. split; [|split; [by rewrite loop_head_not_running|split; [by intros _; apply Hu|]]].
    + unfold loop_head. destruct (c_closed c); [done|]. by apply next_backoff_ok.
    + intros conn2. unfold loop_head. by destruct (c_closed c).
  - apply dispatch_inv, Hi.
  - cbn [fst]. split; [|split; [|split; [|split]]].
    + apply (waiters_ok_heap c); [done|done|]. intros wid [w Hwid]. cbn. rewrite map_lookup_imap, Hwid. cbn. eauto.
    + unfold loop_head. destruct (c_closed _); [done|apply backoff_min].
    + by rewrite loop_head_not_running.
    + intros _. split; [done|apply mark_lost_unsent].
    + intros conn2. unfold loop_head. by destruct (c_closed _).
  - by apply (close_inv c (Dialling b)).
  - apply (close_inv c Stopped). by split_and!.
  - by apply (close_inv c (Running conn')).
  - by apply (close_inv c Stopped).
Qed.

Lemma register_inv c p rid sealed claim order ok : client_inv (c, p) ->
  client_inv ((register c rid (mkWaiter None None sealed claim false) order ok).1.1, p).
Proof.
  intros Hi. pose proof Hi as ([H1 H2] & Hb & Hc & Hu & Hr). unfold register. destruct (c_waiters c !! rid) eqn:Er; [done|].
  set (w := mkWaiter None None sealed claim false). set (wid := new_waiter c).
  pose proof (fresh_waiter c) as Hf. fold wid in Hf.
  set (c1 := set_waiters c (<[rid := wid]> (c_waiters c)) (<[wid := w]> (c_heap c))).
  assert (Hw1 : waiters_ok c1).
  { split; cbn.
    - intros r i Hl. destruct (decide (i = wid)) as [->|]; [simplify_map_eq; eauto|]. rewrite lookup_insert_ne by done.
      destruct (decide (r = rid)) as [->|]; simplify_map_eq; eauto.
    - intros r1 r2 i Hl1 Hl2. destruct (decide (r1 = rid)) as [->|], (decide (r2 = rid)) as [->|]; simplify_map_eq; try done; eauto.
      + destruct (H1 _ _ Hl2). congruence.
      + destruct (H1 _ _ Hl1). congruence. }
  destruct (resendWaiters c1 order ok) as [c2 ms] eqn:E. cbn [fst].
  pose proof (resend_frame _ _ _ _ _ E) as [[E1 E2 E3 E4 E5 E6] Hh].
  split; [by apply (waiters_ok_heap c1)|]. split; [done|]. split; [by rewrite E5|]. split.
  - intros Hp. destruct (Hu Hp) as [Hn Ha]. split; [by rewrite E1|].
    assert (c2 = c1) as -> by (unfold resendWaiters in E; cbn in E; rewrite Hn in E; congruence).
    intros r i w' [Hl Hw']%waiter_of_Some. cbn in Hl, Hw'. destruct (decide (i = wid)) as [->|]; [by simplify_map_eq|].
    rewrite lookup_insert_ne in Hw' by done. destruct (decide (r = rid)) as [->|]; simplify_map_eq.
    eapply Ha, waiter_of_Some; eauto.
  - intros conn Hp. rewrite E1, E6. by apply Hr.
Qed.

Lemma unregister_inv c p rid : client_inv (c, p) -> client_inv (unregister c rid, p).
Proof.
  intros ([H1 H2] & Hb & Hc & Hu & Hr). split; [|split; [done|split; [done|split; [|done]]]].
  - split; cbn; intros *; rewrite !lookup_delete_Some; naive_solver.
  - intros Hp. destruct (Hu Hp) as [Hn Ha]. split; [done|]. intros r i w [Hl Hw]%waiter_of_Some. cbn in *.
    apply lookup_delete_Some in Hl as [_ Hl]. eapply Ha, waiter_of_Some; eauto.
Qed.

Lemma run_op_inv s o : client_inv s -> client_inv (run_op s o).
Proof.
  destruct s as [c p]. intros Hi. destruct o as [e|rid sealed claim order ok|rid|wid|wid]; cbn [run_op].
  - pose proof (supervise_inv c p e Hi) as H. by destruct (supervise c p e) as [[c' p'] ms].
  - by apply register_inv.
  - by apply unregister_inv.
  - apply (update_inv c p wid (fun w => mkWaiter None (paired w) (w_sealed w) (w_claim w) (w_sent w))); [done|by intros []].
  - apply (update_inv c p wid (fun w => mkWaiter (published w) None (w_sealed w) (w_claim w) (w_sent w))); [done|by intros []].
Qed.

Lemma reachable_inv s : reachable s -> client_inv s.
Proof.
  induction 1; [|by apply run_op_inv]. by split_and!.
Qed.

(** Which rendezvous are outstanding, in the order of an iteration. *)
Definition enumerates (order : list bytes) (c : Client) : Prop :=
  NoDup order /\ forall rid, rid ∈ order <-> is_Some (c_waiters c !! rid).

Definition outstanding (c : Client) (order : list bytes) : list Message :=
  omap (fun rid => request rid ∘ snd <$> waiter_of c rid) order.

Lemma unsent_all c order : all_unsent c ->
  unsent c order = omap (fun rid => (fun x => (rid, x.1, x.2)) <$> waiter_of c rid) order.
Proof.
  intros Ha. induction order as [|rid order IH]; [done|]. cbn [unsent omap list_omap] in *. unfold unsent in IH.
  destruct (waiter_of c rid) as [[wid w]|] eqn:E; cbn [mbind option_bind fmap option_fmap option_map]; [|done].
  rewrite (Ha _ _ _ E). by rewrite IH.
Qed.

Lemma length_omap_all {A B} (f : A -> option B) (l : list A) : Forall (fun x => is_Some (f x)) l ->
  length l = length (omap f l).
Proof. induction 1 as [|x l [y Hy] _ IH]; [done|]. cbn. rewrite Hy. cbn. by rewrite IH. Qed.

Lemma send_all_ok todo ok : (forall rid, ok rid = true) -> forall c c' ms, send_all c todo ok = (c', ms) ->
  Forall (fun x => is_Some (c_heap c !! x.1.2)) todo ->
  ms = (fun x => request x.1.1 x.2) <$> todo /\
  forall wid, (wid ∈ (fun x => x.1.2) <$> todo) \/ w_sent <$> c_heap c !! wid = Some true ->
    w_sent <$> c_heap c' !! wid = Some true.
Proof.
  intros Hok. induction todo as [|[[rid wid] w] todo IH]; intros c c' ms; cbn [send_all].
  { intros [= <- <-] _. split; [done|]. by intros i [[]%elem_of_nil|Hs]. }
  rewrite Hok. cbn [negb]. destruct (send_all _ todo ok) as [c2 ms2] eqn:E. intros [= <- <-] Hf.
  apply Forall_cons_1 in Hf as [[w1 Hw1] Hf]. cbn [fst snd] in Hw1. rewrite Hw1 in E.
  apply IH in E as [-> Hs].
  2:{ eapply Forall_impl; [exact Hf|]. intros x [w2 Hx]. cbn.
      destruct (decide (x.1.2 = wid)) as [->|]; simplify_map_eq; eauto. }
  split; [done|]. intros i Hi. apply Hs. cbn [fmap list_fmap fst snd] in Hi. cbn.
  destruct (decide (i = wid)) as [->|Hne]; [right; by simplify_map_eq|].
  destruct Hi as [[->|Hi]%elem_of_cons|Hi]; [done|by left|right]. by rewrite lookup_insert_ne.
Qed.


(** A connection that a dial in progress delivers after [Close] is never closed:
    [Close] finds no connection, the loop does not look at [closed] again before
    it starts to read, and only a failure of that connection ends the reading. *)
Theorem close_misses_dial c b conn r order ok :
  reachable (c, Dialling b) ->
  let c1 := (supervise c (Dialling b) EvClose).1.1 in
  let s2 := supervise c1 (Dialling b) (EvDialled conn r order ok) in
  (Client_Close c).2 = None /\ (supervise c (Dialling b) EvClose).1.2 = Dialling b /\
  s2.1.2 = Running conn /\ c_conn s2.1.1 = Some conn /\ c_closed s2.1.1 = true /\
  forall c' e, e <> EvLost -> (supervise c' (Running conn) e).1.2 = Running conn.
Proof.
  intros (_ & _ & _ & Hu & _)%reachable_inv. destruct (Hu eq_refl) as [Hn _]. cbn [supervise fst snd].
  destruct (resendWaiters _ order ok) as [c2 ms] eqn:E. apply resend_frame in E as [[E1 _ _ _ _ E6] _].
  cbn [fst snd]. split_and!; try done. intros c' e He. by destruct e.
Qed.

(** ** Witnesses *)
Import Crypto.Toy ToyCandidates.

Definition sample_sealed : bytes :=
  match SealCandidates sample_pairing_key (mkCandidateSet offered) ToyId.rng with Ok b => b | _ => [] end.

Definition sample_paired : Message :=
  mkMessage MsgPaired (str "rid") [] [] RoleClaimer (b64 sample_sealed) (str "203.0.113.9:40000") 250
    (b64 (replicate 32 x55)) [].

Lemma pairing_safe_witness : exists p, toPairing NewClient sample_paired sample_pairing_key = Ok p /\
  PeerCandidates p = offered /\ admissible (PeerCandidates p) /\ 0 <= PunchIn p <= 30 * Second.
Proof.
  assert (Hp : PeerCandidates <$> toPairing NewClient sample_paired sample_pairing_key = Ok offered) by (vm_compute; reflexivity).
  destruct (toPairing NewClient sample_paired sample_pairing_key) as [p| |] eqn:E; [|discriminate Hp..].
  exists p. split; [reflexivity|]. split.
  - cbn in Hp. congruence.
  - clear Hp. destruct (proj2 (pairing_safe NewClient sample_paired sample_pairing_key) p E) as (Ha & _ & Hp & _).
    exact (conj Ha Hp).
Defined.

Definition one_outstanding : Client * phase :=
  run_op (NewClient, Dialling minBackoff) (Reg (str "rid") (str "blob") false [str "rid"] (fun _ => true)).

