(* ===== verification/Reuse.v ===== *)
(** Sharing a port: [src/internal/transport/reuse.go] and its platform halves
    [reuse_linux.go], [reuse_bsd.go], [reuse_windows.go], [reuse_other.go]; who
    dials from it: the punch, and the relay client by the dialer [src/main.go]
    gives it; and [dialDirect] of [src/internal/connect/connect.go], which does not.

    The kernel is the list of open sockets; which options a call of [setsockopt]
    accepts, whether a port may be bound once more, and how a connection attempt
    ends are arguments.  What TCP fixes is in the model: a connection is its two
    endpoints, so a second one between the same two is refused. *)
From Stdlib Require Import ZArith Lia.
From Stdlib Require Import Strings.Byte.
From stdpp Require Import base list strings numbers option.
From S2P Require Import Prelude Messages Dialer Client.
Open Scope go_scope.

Inductive Platform := Linux | BSD | Windows | OtherOS.

(** Options by the name package [syscall] gives them, or by number. *)
Inductive sockopt := SO_REUSEADDR | SO_REUSEPORT | SO_NUMBER (n : Z).

#[export] Instance sockopt_eq_dec : EqDecision sockopt.
Proof. solve_decision. Defined.

Inductive net_err := ErrControl | ErrSetsockopt (o : sockopt) | ErrBind | ErrConnect | ErrInUse | ErrListenerType.

(** A call of [SetsockoptInt] with value 1 on a socket with the options [opts]. *)
Definition SetsockoptInt (accepts : sockopt -> bool) (opts : list sockopt) (o : sockopt) : list sockopt * res net_err unit :=
  if accepts o then (opts ++ [o], Ok tt) else (opts, Err (ErrSetsockopt o)).

(** ** The platform halves *)
Definition soReusePort : Z := 15.

Definition setReuse_linux (accepts : sockopt -> bool) (opts : list sockopt) : list sockopt * res net_err unit :=
  let '(opts1, r) := SetsockoptInt accepts opts SO_REUSEADDR in
  try[opts1] _ := r;
  SetsockoptInt accepts opts1 (SO_NUMBER soReusePort).

Definition setReuse_bsd (accepts : sockopt -> bool) (opts : list sockopt) : list sockopt * res net_err unit :=
  let '(opts1, r) := SetsockoptInt accepts opts SO_REUSEADDR in
  try[opts1] _ := r;
  SetsockoptInt accepts opts1 SO_REUSEPORT.

Definition setReuse_windows (accepts : sockopt -> bool) (opts : list sockopt) : list sockopt * res net_err unit :=
  SetsockoptInt accepts opts SO_REUSEADDR.

Definition setReuse_other (accepts : sockopt -> bool) (opts : list sockopt) : list sockopt * res net_err unit := (opts, Ok tt).

(** The build constraints choose one. *)
Definition setReuse (p : Platform) : (sockopt -> bool) -> list sockopt -> list sockopt * res net_err unit :=
  match p with
  | Linux => setReuse_linux
  | BSD => setReuse_bsd
  | Windows => setReuse_windows
  | OtherOS => setReuse_other
  end.

(** [ReuseControl]: [c.Control] may fail before it runs the function. *)
Definition ReuseControl (p : Platform) (control : bool) (accepts : sockopt -> bool) (opts : list sockopt) :
  list sockopt * res net_err unit :=
  if control then setReuse p accepts opts else (opts, Err ErrControl).

(** ** Sockets *)
(** A listener has no remote endpoint; remote addresses are resolved. *)
Record socket := mkSocket { sk_port : Z; sk_opts : list sockopt; sk_remote : option bytes }.

#[export] Instance socket_eq_dec : EqDecision socket.
Proof. solve_decision. Defined.

(** [net.Dialer]: its timeout, whether [Control] is [ReuseControl], its local port. *)
Record NetDialer := mkNetDialer { nd_timeout : Z; nd_reuse : bool; nd_local : option Z }.

Definition ReuseDialer (localPort timeout : Z) : NetDialer :=
  mkNetDialer timeout true (if decide (0 < localPort) then Some localPort else None).

(** [Endpoint.dialer] with the [Dialer] that [run] sets: bound to the punch port
    when there is a punch listener. *)
Definition RungTimeout : Z := 5000000000.
Definition relay_dialer (punch : option Z) : NetDialer :=
  match punch with
  | Some port => ReuseDialer port RungTimeout
  | None => mkNetDialer RungTimeout false None
  end.

(** What the kernel does while a socket is made. *)
Record kernel := mkKernel {
  k_control : bool;
  k_accepts : sockopt -> bool;
  k_free : option Z;          (* the port it would choose, if it has one *)
  k_connects : bool;
  k_tcp : bool                (* the value made is a [*net.TCPConn] or [*net.TCPListener] *)
}.

Section sharing.
(** Whether a socket with these options may be bound to a port that sockets with
    those are bound to. *)
Context (may_bind : list (list sockopt) -> list sockopt -> bool).

Definition on_port (port : Z) (open : list socket) : list (list sockopt) :=
  sk_opts <$> filter (fun s => sk_port s = port) open.

Definition bind (open : list socket) (port : Z) (opts : list sockopt) (k : kernel) : res net_err Z :=
  if decide (port = 0) then match k_free k with Some q => Ok q | None => Err ErrBind end
  else if may_bind (on_port port open) opts then Ok port else Err ErrBind.

(** [ListenReuse]: the sockets afterwards, and the port of the listener. *)
Definition ListenReuse (p : Platform) (open : list socket) (port : Z) (k : kernel) : list socket * res net_err Z :=
  let '(opts, r) := ReuseControl p (k_control k) (k_accepts k) [] in
  try[open] _ := r;
  try[open] q := bind open port opts k;
  if k_tcp k then (open ++ [mkSocket q opts None], Ok q) else (open, Err ErrListenerType).

(** The pair of endpoints is taken. *)
Definition taken (open : list socket) (port : Z) (addr : bytes) : Prop :=
  Exists (fun s => sk_port s = port /\ sk_remote s = Some addr) open.

#[local] Instance taken_dec open port addr : Decision (taken open port addr).
Proof. unfold taken. apply _. Defined.

(** [DialContext] of a dialer. *)
Definition DialContext (p : Platform) (open : list socket) (d : NetDialer) (addr : bytes) (k : kernel) :
  list socket * res net_err socket :=
  let '(opts, r) := if nd_reuse d then ReuseControl p (k_control k) (k_accepts k) [] else ([], Ok tt) in
  try[open] _ := r;
  try[open] q := bind open (match nd_local d with Some port => port | None => 0 end) opts k;
  if decide (taken open q addr) then (open, Err ErrInUse)
  else if negb (k_connects k) then (open, Err ErrConnect)
  else let s := mkSocket q opts (Some addr) in (open ++ [s], Ok s).

(** [SetNoDelay] after it asks for what the library has set already. *)
Definition DialFrom (p : Platform) (open : list socket) (localPort : Z) (addr : bytes) (timeout : Z) (k : kernel) :
  list socket * res net_err socket :=
  DialContext p open (ReuseDialer localPort timeout) addr k.

Definition directTimeout : Z := 3000000000.

Definition dialDirect (p : Platform) (open : list socket) (addr : bytes) (k : kernel) : list socket * res net_err socket :=
  DialContext p open (mkNetDialer directTimeout false None) addr k.

(** ** Sharing *)

(** The options a platform documents for two sockets to share a port. *)
Definition sharing_opts (p : Platform) : list sockopt :=
  match p with
  | Linux => [SO_REUSEADDR; SO_NUMBER 15]
  | BSD => [SO_REUSEADDR; SO_REUSEPORT]
  | Windows => [SO_REUSEADDR]
  | OtherOS => []
  end.

(** What platforms document: sockets that all have those options share; without
    them a port has one socket. *)
Class Sharing (p : Platform) := {
  shares : forall bound opts, p <> OtherOS -> Forall (fun o => o = sharing_opts p) bound -> opts = sharing_opts p ->
    may_bind bound opts = true;
  excludes : forall bound, may_bind bound [] = bool_decide (bound = [])
}.

(** The kernel lets the program do what it asks for. *)
Definition willing (k : kernel) : Prop := k_control k = true /\ (forall o, k_accepts k o = true) /\ k_connects k = true /\ k_tcp k = true.

Lemma reuse_control p k : willing k -> ReuseControl p (k_control k) (k_accepts k) [] = (sharing_opts p, Ok tt).
Proof.
  intros (Hc & Ha & _). unfold ReuseControl. rewrite Hc.
  destruct p; cbn; unfold setReuse_linux, setReuse_bsd, setReuse_windows, setReuse_other, SetsockoptInt; rewrite ?Ha; cbn;
    rewrite ?Ha; done.
Qed.

(** Every socket on the port was made by these functions. *)
Definition shared_port (p : Platform) (port : Z) (open : list socket) : Prop :=
  Forall (fun s => sk_port s = port -> sk_opts s = sharing_opts p) open.

Lemma on_port_shared p port open : shared_port p port open -> Forall (fun o => o = sharing_opts p) (on_port port open).
Proof.
  unfold shared_port, on_port. induction open as [|s open IH]; intros Hs; [constructor|].
  apply Forall_cons_iff in Hs as [Hs Ho]. rewrite filter_cons. case_decide; [constructor; auto|auto].
Qed.

(** Dial each address from the port, one after another. *)
Fixpoint dial_all (p : Platform) (open : list socket) (port : Z) (addrs : list (bytes * kernel)) : list socket * list (res net_err socket) :=
  match addrs with
  | [] => (open, [])
  | (a, k) :: rest =>
      let '(open1, r) := DialFrom p open port a directTimeout k in
      let '(open2, rs) := dial_all p open1 port rest in (open2, r :: rs)
  end.

Lemma dial_bound `{Sharing p} open port addr timeout k : p <> OtherOS -> 0 < port -> shared_port p port open -> willing k ->
  DialFrom p open port addr timeout k =
    if decide (taken open port addr) then (open, Err ErrInUse)
    else let s := mkSocket port (sharing_opts p) (Some addr) in (open ++ [s], Ok s).
Proof.
  intros Hp Hport Hs Hk. pose proof Hk as (_ & _ & Hc & _). unfold DialFrom, DialContext, ReuseDialer. cbn [nd_reuse nd_local].
  rewrite reuse_control by done. cbn [try_in]. rewrite (decide_True (P := 0 < port)) by done. unfold bind. rewrite decide_False by lia.
  rewrite shares by (try done; by apply on_port_shared). cbn [try_in]. by rewrite Hc.
Qed.

Lemma dials_share `{Sharing p} port addrs : forall open, p <> OtherOS -> 0 < port -> shared_port p port open ->
  Forall (fun ak => willing ak.2) addrs -> NoDup addrs.*1 -> Forall (fun a => ~ taken open port a) addrs.*1 ->
  (dial_all p open port addrs).2 = (fun ak => Ok (mkSocket port (sharing_opts p) (Some ak.1))) <$> addrs.
Proof.
  induction addrs as [|[a k] addrs IH]; intros open Hp Hport Hs Hk Hnd Hfree; [done|]. cbn [fmap list_fmap fst snd] in *.
  apply Forall_cons_iff in Hk as [Hk Hks]. apply Forall_cons_iff in Hfree as [Hf Hfree]. apply list.NoDup_cons in Hnd as [Ha Hnd].
  cbn [dial_all]. rewrite dial_bound by done. rewrite (decide_False (P := taken open port a)) by done.
  cbv zeta beta iota. set (s := mkSocket port (sharing_opts p) (Some a)).
  specialize (IH (open ++ [s]) Hp Hport). destruct (dial_all p (open ++ [s]) port addrs) as [open2 rs]. cbn [snd] in *.
  f_equal. apply IH; try done; [apply Forall_app; split; [done|by constructor]|].
  apply Forall_forall. intros x Hx [Ht|Ht]%Exists_app.
  - rewrite Forall_forall in Hfree. by apply (Hfree x Hx).
  - apply Exists_cons in Ht as [[_ E]|Ht]; [|by apply Exists_nil in Ht]. injection E as ->. by apply Ha, list_elem_of_In.
Qed.

(** C38: the port of the punch listener is shared.  Where the platform has options
    for it, the listener can have any port the kernel chooses and every later
    dial from that port to a new address succeeds while the listener and all the
    connections before it are still open.  Elsewhere every dial that binds it
    fails: the punches, and those of the relay client too, which is given a
    dialer bound to the same port; only direct dials remain. *)
Theorem port_is_shared `{Sharing p} open k q addrs a k' :
  willing k -> k_free k = Some q -> 0 < q -> Forall (fun s => sk_port s <> q) open ->
  Forall (fun ak => willing ak.2) addrs -> NoDup addrs.*1 ->
  willing k' -> (exists q', k_free k' = Some q' /\ q' <> q /\ ~ taken open q' a) ->
  exists open1, ListenReuse p open 0 k = (open1, Ok q) /\
    (p <> OtherOS -> (dial_all p open1 q addrs).2 = (fun ak => Ok (mkSocket q (sharing_opts p) (Some ak.1))) <$> addrs) /\
    (p = OtherOS -> (DialFrom p open1 q a directTimeout k').2 = Err ErrBind /\
       (DialContext p open1 (relay_dialer (Some q)) a k').2 = Err ErrBind) /\
    is_ok (dialDirect p open1 a k').2 = true.
Proof.
  intros Hk Hq Hpos Hfree Hks Hnd Hk' (q' & Hq' & Hne & Hnt).
  set (l := mkSocket q (sharing_opts p) None). exists (open ++ [l]). split.
  { unfold ListenReuse. rewrite reuse_control by done. cbn [try_in]. unfold bind. rewrite decide_True by done.
    rewrite Hq. cbn [try_in]. destruct Hk as (_ & _ & _ & ->). done. }
  assert (Hnt1 : forall port x, ~ taken open port x -> ~ taken (open ++ [l]) port x).
  { intros port x Hx [Ht|Ht]%Exists_app; [done|]. apply Exists_cons in Ht as [[_ E]|Ht]; [done|by apply Exists_nil in Ht]. }
  split; [|split].
  - intros Hp. apply dials_share; try done.
    + apply Forall_app. split; [|by constructor]. revert Hfree. apply Forall_impl. intros s ? ?. congruence.
    + apply Forall_forall. intros x _. apply Hnt1. intros (s & Hs & Hsq & _)%Exists_exists.
      rewrite Forall_forall in Hfree. by apply (Hfree s Hs).
  - intros ->. assert (Hb : forall t, (DialContext OtherOS (open ++ [l]) (ReuseDialer q t) a k').2 = Err ErrBind); [|split; apply Hb].
    intros t. unfold DialContext, ReuseDialer. cbn [nd_reuse nd_local]. rewrite reuse_control by done. cbn [try_in sharing_opts].
    rewrite (decide_True (P := 0 < q)) by done. unfold bind. rewrite decide_False by lia. rewrite excludes.
    rewrite bool_decide_false; [done|]. unfold on_port. rewrite list.filter_app, fmap_app. intros E. apply app_eq_nil in E as [_ E].
    rewrite filter_cons in E. by rewrite decide_True in E.
  - unfold dialDirect, DialContext. cbn [nd_reuse nd_local try_in]. unfold bind. rewrite decide_True by done.
    rewrite Hq'. cbn [try_in]. rewrite decide_False by (apply Hnt1; exact Hnt). destruct Hk' as (_ & _ & -> & _). done.
Qed.

(** The dial of a rung, as [OpenCircuit] sees it. *)
Definition rung_dial (r : res net_err socket) : res dial_err socket := map_err (fun _ => DialFailed) r.

Definition circuit_ok : Message := mkMessage MsgCircuitOK [] [] [] [] [] [] 0 [] [].

(** C20: with a punch listener there is no circuit.  The client's connection to the
    relay and the circuit it opens are dialled up the same rung by the same
    dialer, bound to the punch port, so they would be one connection to TCP: as
    long as the first is open, and it is what the pairing arrives on, the second
    is refused whatever the platform, and with it the path that is to be there
    when no other works.  A client without the listener opens its circuit. *)
Theorem circuit_dial_collides p open punch addr k open1 s open2 k' ticket sent answer :
  0 < punch -> DialContext p open (relay_dialer (Some punch)) addr k = (open1, Ok s) -> s ∈ open2 ->
  (OpenCircuit (rung_dial (DialContext p open2 (relay_dialer (Some punch)) addr k').2) ticket sent answer).2 = Err (ClDial DialFailed) /\
  forall q, willing k' -> k_free k' = Some q -> ~ taken open2 q addr ->
    is_ok (OpenCircuit (rung_dial (DialContext p open2 (relay_dialer None) addr k').2) ticket true (Some circuit_ok)).2 = true.
Proof.
  intros Hp Hd Hs. assert (Hsock : sk_port s = punch /\ sk_remote s = Some addr).
  { unfold DialContext, relay_dialer, ReuseDialer in Hd. cbn [nd_reuse nd_local] in Hd. rewrite (decide_True (P := 0 < punch)) in Hd by done.
    destruct (ReuseControl p _ _ []) as [opts [?|?|]]; cbn [try_in] in Hd; try done.
    unfold bind in Hd. rewrite decide_False in Hd by lia. destruct (may_bind _ _); cbn [try_in] in Hd; [|done].
    destruct (decide (taken open punch addr)); [done|]. destruct (k_connects k); cbn in Hd; [|done]. by simplify_eq. }
  split.
  - assert (He : exists e, (DialContext p open2 (relay_dialer (Some punch)) addr k').2 = Err e); [|by destruct He as [e ->]].
    unfold DialContext, relay_dialer, ReuseDialer. cbn [nd_reuse nd_local]. rewrite (decide_True (P := 0 < punch)) by done.
    unfold ReuseControl. destruct (k_control k'); cbn [try_in]; [|by eexists].
    destruct p; cbn [setReuse]; unfold setReuse_linux, setReuse_bsd, setReuse_windows, setReuse_other, SetsockoptInt;
      repeat (destruct (k_accepts k' _); cbn [try_in app]; [|by eexists]);
      unfold bind; rewrite decide_False by lia; (destruct (may_bind _ _); cbn [try_in]; [|by eexists]);
      (rewrite decide_True; [by eexists|]); apply Exists_exists; exists s; (split; [by apply list_elem_of_In|exact Hsock]).
  - intros q (_ & _ & Hc & _) Hq Hn. unfold DialContext, relay_dialer. cbn [nd_reuse nd_local try_in]. unfold bind.
    rewrite decide_True by done. rewrite Hq. cbn [try_in]. rewrite decide_False by done. rewrite Hc. reflexivity.
Qed.
End sharing.

(** ** A kernel *)
Module SampleKernel.
Definition may_bind (p : Platform) (bound : list (list sockopt)) (opts : list sockopt) : bool :=
  bool_decide (bound = []) || (bool_decide (opts <> []) && forallb (fun o => bool_decide (o = sharing_opts p)) (opts :: bound)).

#[export] Instance sharing p : Sharing (may_bind p) p.
Proof.
  split.
  - intros bound opts Hp Hb ->. unfold may_bind. apply orb_true_iff. right. apply andb_true_iff. split.
    + apply bool_decide_eq_true. by destruct p.
    + apply forallb_forall. intros o [<-|Ho]; apply bool_decide_eq_true; [done|].
      rewrite Forall_forall in Hb. by apply Hb.
  - intros bound. unfold may_bind. rewrite (bool_decide_false ([] <> [])) by (intros Hn; by apply Hn). cbn. by rewrite orb_false_r.
Defined.

Definition kern (q : Z) : kernel := mkKernel true (fun _ => true) (Some q) true true.
Lemma kern_willing q : willing (kern q).
Proof. done. Qed.
End SampleKernel.
Import SampleKernel.

Lemma port_is_shared_witness : exists open1,
  ListenReuse (may_bind Linux) Linux [] 0 (kern 7332) = (open1, Ok 7332) /\
  (dial_all (may_bind Linux) Linux open1 7332 [(str "a", kern 1); (str "b", kern 2)]).2 =
    [Ok (mkSocket 7332 [SO_REUSEADDR; SO_NUMBER 15] (Some (str "a")));
     Ok (mkSocket 7332 [SO_REUSEADDR; SO_NUMBER 15] (Some (str "b")))].
Proof.
  destruct (port_is_shared (may_bind Linux) (p := Linux) [] (kern 7332) 7332 [(str "a", kern 1); (str "b", kern 2)] (str "c") (kern 3))
    as (open1 & H1 & H2 & _); [done|reflexivity|reflexivity|constructor|by repeat constructor| |done| |].
  - apply (bool_decide_unpack _). vm_compute. exact I.
  - exists 3. split; [reflexivity|]. split; [done|]. apply (bool_decide_unpack _). vm_compute. exact I.
  - exists open1. split; [exact H1|]. by apply H2.
Defined.

Lemma circuit_dial_collides_witness : exists open1 s,
  DialContext (may_bind Linux) Linux [] (relay_dialer (Some 7332)) (str "relay:443") (kern 1) = (open1, Ok s) /\
  (OpenCircuit (rung_dial (DialContext (may_bind Linux) Linux open1 (relay_dialer (Some 7332)) (str "relay:443") (kern 2)).2)
     (replicate 32 x01) true (Some circuit_ok)).2 = Err (ClDial DialFailed).
Proof.
  do 2 eexists. split; [vm_compute; reflexivity|].
  refine (proj1 (circuit_dial_collides (may_bind Linux) Linux [] 7332 (str "relay:443") (kern 1) _ _ _ (kern 2) (replicate 32 x01) true (Some circuit_ok) _ _ _)).
  - reflexivity.
  - vm_compute. reflexivity.
  - apply (bool_decide_unpack _). vm_compute. exact I.
Defined.
