(* ===== verification/Rendezvous.v ===== *)
(** Two clients and a relay: the operations of [Client] and the handlers of
    [Relay] composed through the messages they exchange.  The relay and the
    clients may be in the middle of other rendezvous. *)
From Stdlib Require Import ZArith Lia.
From Stdlib Require Import Strings.Byte.
From stdpp Require Import base gmap strings numbers option sorting list.
From S2P Require Import Prelude GoStrings Crypto Identity Messages Candidates Relay Dialer Client.

(** ** Sizes *)
Lemma encode_len n : forall b, (length b <= n)%nat -> 3 * len (EncodeToString b) <= 4 * len b + 8.
Proof.
  induction n as [|n IH]; intros b Hb; [destruct b; [by vm_compute|cbn in Hb; lia]|].
  destruct b as [|x [|y [|z rest]]]; try by vm_compute.
  cbn [EncodeToString]. cbv zeta. specialize (IH rest ltac:(cbn in Hb; lia)). len_lia.
Qed.

(** ** The relay's answers *)

(** The relay has room for a code published from this address now. *)
Definition may_publish (s : Server) (addr : bytes) (now : Z) : Prop :=
  (allow (publishes s) (sourceIP addr) (PublishesPerIPPerMin (limits s)) Minute now).2 = true /\
  Z.of_nat (size (pending s)) < MaxPendingCodes (limits s).

Definition sealed_ok (sealed : bytes) : Prop := len sealed <= MaxSealedCandidates.

Lemma checkRID_ok conn typ rid sealed : len rid = rendezvousIDSize -> sealed_ok sealed ->
  checkRID conn (mkMessage typ (b64 rid) (b64 sealed) [] [] [] [] 0 [] []) = Ok (b64 rid).
Proof.
  intros Hr Hs. unfold checkRID, decodeExact, b64. cbn [m_rid m_candidates]. rewrite decode_encode.
  rewrite (decide_False (P := len rid <> _)) by (intros Hn; by apply Hn).
  rewrite decide_False; [done|]. pose proof (encode_len (length sealed) sealed ltac:(done)).
  unfold sealed_ok, MaxSealedCandidates, MaxControlFrame in *. change (Z.shiftl 4 10) with 4096 in Hs. lia.
Qed.

Lemma serve_publish s conn addr held rid sealed e : len rid = rendezvousIDSize -> sealed_ok sealed ->
  may_publish s addr (e_now e) -> e_sent e = true ->
  exists s', serveMessage s conn addr held (request (b64 rid) (mkWaiter None None sealed false false)) e =
      (s', [(conn, published_message (b64 rid) addr)], held ++ [b64 rid], true) /\
    pending s' = <[b64 rid := mkPending conn (b64 sealed) addr (e_now e)]> (pending s) /\
    limits s' = limits s /\ circuits s' = circuits s /\ tickets s' = tickets s /\ heap s' = heap s.
Proof.
  intros Hr Hs [Ha Hp] He. unfold serveMessage, request. cbn [m_type w_claim w_sealed].
  rewrite (decide_True (P := MsgPublish = MsgPublish)) by done. rewrite checkRID_ok by done.
  destruct (allow _ _ _ _ _) as [r ok]. cbn [snd] in Ha. subst ok. cbn [negb].
  unfold addPending. cbn [limits set_publishes pending m_candidates]. rewrite decide_False by lia. cbn [negb].
  rewrite He. eexists. split_and!; reflexivity.
Qed.

(** ** Clients *)

(** A live client that owes nothing: every outstanding request has been sent. *)
Definition settled (c : Client) : Prop :=
  is_Some (c_conn c) /\ waiters_ok c /\ forall rid wid w, waiter_of c rid = Some (wid, w) -> w_sent w = true.

Lemma unsent_new c rid w order : settled c -> c_waiters c !! rid = None -> w_sent w = false ->
  enumerates order (set_waiters c (<[rid := new_waiter c]> (c_waiters c)) (<[new_waiter c := w]> (c_heap c))) ->
  unsent (set_waiters c (<[rid := new_waiter c]> (c_waiters c)) (<[new_waiter c := w]> (c_heap c))) order =
    [(rid, new_waiter c, w)].
Proof.
  intros (_ & [Hh _] & Hs) Hn Hw [Hnd Hen]. set (c1 := set_waiters _ _ _) in *. pose proof (fresh_waiter c) as Hf.
  assert (Hself : waiter_of c1 rid = Some (new_waiter c, w)) by (apply waiter_of_Some; cbn; by rewrite !lookup_insert_eq).
  assert (Hother : forall r x, r <> rid -> waiter_of c1 r = Some x -> w_sent x.2 = true).
  { intros r [i w'] Hr [Hi Hw']%waiter_of_Some. cbn in Hi, Hw'. rewrite lookup_insert_ne in Hi by done.
    destruct (Hh _ _ Hi) as [w2 Hw2]. rewrite lookup_insert_ne in Hw' by congruence. by eapply Hs, waiter_of_Some. }
  assert (Hskip : forall l, rid ∉ l -> unsent c1 l = []).
  { induction l as [|r l IH]; [done|]. intros [Hr Hl]%not_elem_of_cons. unfold unsent. cbn [omap list_omap].
    destruct (waiter_of c1 r) as [[i w']|] eqn:E; cbn; [|by apply IH].
    pose proof (Hother r _ ltac:(done) E) as Hs'. cbn in Hs'. rewrite Hs'. by apply IH. }
  assert (Hin : rid ∈ order) by (apply Hen; cbn; rewrite lookup_insert_eq; eauto).
  apply list_elem_of_split in Hin as (l1 & l2 & ->). apply NoDup_app in Hnd as (_ & Hd & [Hn2 _]%NoDup_cons).
  unfold unsent in *. rewrite omap_app, (Hskip l1) by (intros Hi; by apply (Hd _ Hi), list_elem_of_here).
  cbn [omap list_omap app]. rewrite Hself. cbn [mbind option_bind]. rewrite Hw. by rewrite (Hskip l2).
Qed.

(** Registering on a live client sends exactly the new request. *)
Lemma register_sends c rid sealed claim order ok : settled c -> c_waiters c !! rid = None -> ok rid = true ->
  let w := mkWaiter None None sealed claim false in
  enumerates order (set_waiters c (<[rid := new_waiter c]> (c_waiters c)) (<[new_waiter c := w]> (c_heap c))) ->
  exists c', register c rid w order ok = (c', [request rid w], Ok (new_waiter c)) /\
    waiter_of c' rid = Some (new_waiter c, mark_sent true w) /\ c_observed c' = c_observed c /\ c_rung c' = c_rung c.
Proof.
  intros Hset Hn Hok w Hen. unfold register. rewrite Hn. pose proof Hset as ([cn Hc] & _ & _).
  unfold resendWaiters. cbn [c_conn set_waiters]. rewrite Hc. rewrite unsent_new by done.
  cbn [send_all]. rewrite Hok. cbn [negb c_heap set_waiters]. rewrite lookup_insert_eq.
  eexists. split; [reflexivity|]. split; [|done]. apply waiter_of_Some. cbn. by rewrite !lookup_insert_eq.
Qed.

Lemma deliver_self c rid wid w f : waiter_of c rid = Some (wid, w) -> waiter_of (deliver c rid f) rid = Some (wid, f w).
Proof.
  intros Hw. unfold deliver. rewrite Hw. apply waiter_of_Some in Hw as [Hi _]. apply waiter_of_Some. cbn.
  by rewrite lookup_insert_eq.
Qed.

Lemma dispatch_published c rid addr wid w : waiter_of c rid = Some (wid, w) -> published w = None ->
  waiter_of (dispatch c (published_message rid addr)) rid = Some (wid, to_published (published_message rid addr) w).
Proof.
  intros Hw Hp. unfold dispatch. cbn [m_type published_message m_rid m_observed]. rewrite (decide_True (P := MsgPublished = _)) by done.
  apply deliver_self. by case_decide.
Qed.

Lemma dispatch_paired c rid role cand obs ms t wid w : waiter_of c rid = Some (wid, w) -> paired w = None ->
  waiter_of (dispatch c (paired_message rid role cand obs ms t)) rid =
    Some (wid, to_paired (paired_message rid role cand obs ms t) w).
Proof.
  intros Hw Hp. unfold dispatch. cbn [m_type paired_message m_rid].
  rewrite (decide_False (P := MsgPaired = MsgPublished)) by done. rewrite (decide_True (P := MsgPaired = MsgPaired)) by done.
  by apply deliver_self.
Qed.

Section composition.
Context `{CryptoLaws, CandidateJSONLaws}.

(** A pairing message with the peer's sealed list yields the peer's candidates. *)
Lemma toPairing_ok c rid role obs ms set k rng sealed ticket :
  json_candidates set -> SealCandidates k set rng = Ok sealed -> len ticket = TicketSize ->
  exists p, toPairing c (paired_message rid role (b64 sealed) obs ms (encode ticket)) k = Ok p /\
    Role p = role /\ PeerCandidates p = ValidateCandidates (Candidates set) /\ PeerObserved p = obs /\
    Ticket p = ticket /\
    PunchIn p = (let d := int64 (ms * Millisecond) in if decide (d < 0 \/ 30 * Second < d) then 0 else d).
Proof.
  intros Hj Hs Ht. unfold toPairing, unb64, b64, encode. cbn [m_peer_candidates m_ticket m_role m_peer_observed m_punch_ms paired_message].
  rewrite !decode_encode. cbn match. rewrite (decide_False (P := MaxSealedCandidates < len sealed)).
  2:{ unfold SealCandidates in Hs. destruct (json_marshal_candidates set); [|done].
      destruct (Seal _ _ _ _) as [bl| |]; try done. revert Hs. step_bind. case_decide; [done|]. congruence. }
  step_bind. rewrite (open_sealed _ _ _ _ Hj Hs). step_bind.
  rewrite (decide_False (P := TicketSize < len ticket)) by lia. step_bind.
  rewrite (decide_False (P := len ticket <> TicketSize)) by (intros Hn; by apply Hn).
  eexists. split_and!; reflexivity.
Qed.

Lemma sealed_size k set rng sealed : SealCandidates k set rng = Ok sealed -> sealed_ok sealed.
Proof.
  unfold SealCandidates, sealed_ok. destruct (json_marshal_candidates set); [|done].
  destruct (Seal _ _ _ _) as [bl| |]; try done. step_bind. case_decide; [done|]. intros [= <-]. lia.
Qed.

Lemma finish_pairing_ok c key wid w msg k : waiter_of c key = Some (wid, w) -> paired w = Some msg ->
  m_type msg <> MsgError ->
  finish_pairing c key wid k false FromChannel =
    Some (unregister (take_paired c wid) key, toPairing (take_paired c wid) msg k).
Proof.
  intros [_ Hw]%waiter_of_Some Hp Ht. unfold finish_pairing, await. rewrite Hw. cbn [mbind option_bind]. rewrite Hp. cbn.
  by rewrite decide_False.
Qed.

(** What the relay does with a claim of a code it holds. *)
Lemma serve_claim s conn addr held rid sealed e p : len rid = rendezvousIDSize -> sealed_ok sealed ->
  pending s !! b64 rid = Some p -> pc_conn p <> conn -> circuits s < MaxCircuits (limits s) ->
  2 * TicketSize <= len (e_rng e) -> e_sent e = true -> e_sent_peer e = true -> e_sent_claim e = true ->
  exists s' a b, len a = TicketSize /\ len b = TicketSize /\
    take (Z.to_nat TicketSize) (e_rng e) = a /\ take (Z.to_nat TicketSize) (drop (Z.to_nat TicketSize) (e_rng e)) = b /\
    let ms := PunchDelay (limits s) ÷ Millisecond in
    serveMessage s conn addr held (request (b64 rid) (mkWaiter None None sealed true false)) e =
      (s', [(conn, published_message (b64 rid) addr);
            (pc_conn p, paired_message (b64 rid) RolePublisher (b64 sealed) addr ms (encode a));
            (conn, paired_message (b64 rid) RoleClaimer (pc_sealed p) (pc_observed p) ms (encode b))], held, true) /\
    pending s' !! b64 rid = None /\
    tickets s' = <[encode b := (new_circuit s, true)]> (<[encode a := (new_circuit s, false)]> (tickets s)) /\
    heap s' = <[new_circuit s := mkCircuit None None false (e_now e) false]> (heap s).
Proof.
  intros Hr Hs Hp Hne Hc Hrng E1 E2 E3. unfold TicketSize in *.
  pose proof (RandomBytes_ok 32 (e_rng e) ltac:(lia)) as [Ra La].
  pose proof (RandomBytes_ok 32 (drop (Z.to_nat 32) (e_rng e)) ltac:(rewrite len_drop by lia; lia)) as [Rb Lb].
  eexists _, _, _. split; [exact La|]. split; [exact Lb|]. split; [done|]. split; [done|]. cbv zeta.
  unfold serveMessage, request. cbn [m_type w_claim w_sealed].
  rewrite (decide_False (P := MsgClaim = MsgPublish)) by done. rewrite (decide_True (P := MsgClaim = MsgClaim)) by done.
  rewrite checkRID_ok by done. rewrite E1. cbn [negb m_candidates]. unfold pair, pair_reserve. rewrite Hp.
  rewrite (decide_False (P := pc_conn p = conn)) by done. rewrite (decide_False (P := MaxCircuits _ <= _)) by lia.
  unfold pair_tickets, NewTicket, TicketSize. rewrite Ra, Rb. unfold pair_issue. rewrite E2, E3. cbn [negb orb].
  split_and!; [reflexivity|cbn; by rewrite lookup_delete_eq|reflexivity|reflexivity].
Qed.

(** An invite code brings two peers together.  From any state of the relay
    with room for it, a publisher's request is answered and its call returns an
    invite; whatever happens in between, as long as the code is still held when
    a claimer with the same code asks, both calls return: one peer is to initiate
    the handshake and the other to respond, each has the other's own validated
    candidates and its address as the relay saw it, both are to start punching
    after the same delay, their tickets are the two sides of one new circuit, and the
    code is spent. *)
Theorem rendezvous_completes k rid setA setB rngA rngB sealedA sealedB
  A ca addrA heldA orderA okA s0 e0 :
  len rid = rendezvousIDSize -> json_candidates setA -> json_candidates setB ->
  SealCandidates k setA rngA = Ok sealedA -> SealCandidates k setB rngB = Ok sealedB ->
  settled A -> c_waiters A !! b64 rid = None -> okA (b64 rid) = true ->
  enumerates orderA (set_waiters A (<[b64 rid := new_waiter A]> (c_waiters A))
    (<[new_waiter A := mkWaiter None None sealedA false false]> (c_heap A))) ->
  may_publish s0 addrA (e_now e0) -> e_sent e0 = true ->
  exists A1 reqA s1 reply A3 inv,
    Publish_start A rid sealedA orderA okA = (A1, [reqA], Ok (new_waiter A)) /\
    serveMessage s0 ca addrA heldA reqA e0 = (s1, [(ca, reply)], heldA ++ [b64 rid], true) /\
    Publish_finish (dispatch A1 reply) rid (new_waiter A) false FromChannel = Some (A3, Ok inv) /\
    forall A' w B cb addrB heldB orderB okB s e,
      waiter_of A' (i_rid inv) = Some (i_waiter inv, w) -> paired w = None ->
      settled B -> c_waiters B !! b64 rid = None -> okB (b64 rid) = true ->
      enumerates orderB (set_waiters B (<[b64 rid := new_waiter B]> (c_waiters B))
        (<[new_waiter B := mkWaiter None None sealedB true false]> (c_heap B))) ->
      pending s !! b64 rid = pending s1 !! b64 rid -> ca <> cb ->
      circuits s < MaxCircuits (limits s) -> 2 * TicketSize <= len (e_rng e) ->
      take (Z.to_nat TicketSize) (e_rng e) <> take (Z.to_nat TicketSize) (drop (Z.to_nat TicketSize) (e_rng e)) ->
      e_sent e = true -> e_sent_peer e = true -> e_sent_claim e = true ->
      exists B1 reqB s2 toB toA toB' A4 B4 pA pB cid,
        Claim_start B rid sealedB orderB okB = (B1, [reqB], Ok (new_waiter B)) /\
        serveMessage s cb addrB heldB reqB e = (s2, [(cb, toB); (ca, toA); (cb, toB')], heldB, true) /\
        Invite_Wait (dispatch A' toA) inv k false FromChannel = Some (A4, Ok pA) /\
        Claim_finish (dispatch (dispatch B1 toB) toB') rid (new_waiter B) k false FromChannel = Some (B4, Ok pB) /\
        Initiator pA = false /\ Initiator pB = true /\
        PeerCandidates pA = ValidateCandidates (Candidates setB) /\
        PeerCandidates pB = ValidateCandidates (Candidates setA) /\
        PeerObserved pA = addrB /\ PeerObserved pB = addrA /\ PunchIn pA = PunchIn pB /\
        tickets s2 !! encode (Ticket pA) = Some (cid, false) /\ tickets s2 !! encode (Ticket pB) = Some (cid, true) /\
        pending s2 !! b64 rid = None /\
        heap s2 !! cid = Some (mkCircuit None None false (e_now e) false) /\
        len (Ticket pA) = TicketSize /\ len (Ticket pB) = TicketSize.
Proof.
  intros Hr HjA HjB HsA HsB SA NA OA EA HmP He0.
  destruct (register_sends A (b64 rid) sealedA false orderA okA SA NA OA EA) as (A1 & R1 & W1 & _).
  destruct (serve_publish s0 ca addrA heldA rid sealedA e0 Hr (sealed_size _ _ _ _ HsA) HmP He0)
    as (s1 & S1 & P1 & _).
  pose proof (dispatch_published A1 (b64 rid) addrA _ _ W1 eq_refl) as W2.
  set (A2 := dispatch A1 (published_message (b64 rid) addrA)) in *.
  pose proof (proj1 (waiter_of_Some _ _ _ _) W2) as [_ HA2].
  eexists A1, _, s1, _, (take_published A2 (new_waiter A)), (mkInvite (b64 rid) (new_waiter A) addrA).
  split; [exact R1|]. split; [exact S1|]. split.
  { unfold Publish_finish, await. fold A2. rewrite HA2. reflexivity. }
  intros A' w B cb addrB heldB orderB okB s e WA PA SB NB OB EB HP Hcc Hcap Hrng Hd E1 E2 E3.
  rewrite P1, lookup_insert_eq in HP. cbn [i_rid i_waiter] in WA.
  destruct (register_sends B (b64 rid) sealedB true orderB okB SB NB OB EB) as (B1 & RB & WB & _).
  destruct (serve_claim s cb addrB heldB rid sealedB e _ Hr (sealed_size _ _ _ _ HsB) HP Hcc Hcap Hrng E1 E2 E3)
    as (s2 & a & b & La & Lb & Ta & Tb & S2 & Pn & Tk & Hp). cbv zeta in S2. cbn [pc_conn pc_sealed pc_observed] in S2.
  set (ms := PunchDelay (limits s) ÷ Millisecond) in *.
  pose proof (dispatch_paired A' (b64 rid) RolePublisher (b64 sealedB) addrB ms (encode a) _ _ WA PA) as WA2.
  pose proof (dispatch_published B1 (b64 rid) addrB _ _ WB eq_refl) as WB2.
  pose proof (dispatch_paired _ (b64 rid) RoleClaimer (b64 sealedA) addrA ms (encode b) _ _ WB2 eq_refl) as WB3.
  set (toA := paired_message (b64 rid) RolePublisher _ _ _ _) in *.
  set (toB' := paired_message (b64 rid) RoleClaimer _ _ _ _) in *.
  destruct (toPairing_ok (take_paired (dispatch A' toA) (new_waiter A)) (b64 rid) RolePublisher addrB ms setB k rngB sealedB a HjB HsB La)
    as (pA & TA & RA & CA & OA' & KA & DA).
  destruct (toPairing_ok (take_paired (dispatch (dispatch B1 (published_message (b64 rid) addrB)) toB') (new_waiter B))
    (b64 rid) RoleClaimer addrA ms setA k rngA sealedA b HjA HsA Lb) as (pB & TB & RB' & CB & OB' & KB & DB).
  fold toA in TA. fold toB' in TB.
  eexists B1, _, s2, _, toA, toB', _, _, pA, pB, (new_circuit s).
  split; [exact RB|]. split; [exact S2|]. split.
  { unfold Invite_Wait. cbn [i_rid i_waiter]. rewrite (finish_pairing_ok _ _ _ _ toA k WA2); [by rewrite TA|cbn; by rewrite PA|done]. }
  split.
  { unfold Claim_finish. rewrite (finish_pairing_ok _ _ _ _ toB' k WB3); [by rewrite TB|done|done]. }
  unfold Initiator. rewrite RA, RB', KA, KB, Tk.
  assert (Hne : encode b <> encode a) by (intros E%encode_inj; congruence).
  split_and!; try done; [by rewrite DA, DB|by rewrite lookup_insert_ne, lookup_insert_eq|by rewrite lookup_insert_eq|by rewrite Hp, lookup_insert_eq].
Qed.
End composition.

(** ** Reconnection *)
Lemma dropPending_other s rid conn p key : pending s !! key = Some p -> pc_conn p <> conn ->
  pending (dropPending s rid conn) !! key = Some p.
Proof.
  intros Hp Hc. unfold dropPending. destruct (pending s !! rid) as [q|] eqn:E; [|done]. case_decide; [|done]. cbn.
  apply lookup_delete_Some. split; [|done]. intros ->. congruence.
Qed.

Lemma cleanup_other codes conn key p : forall s, pending s !! key = Some p -> pc_conn p <> conn ->
  pending (foldl (fun s rid => dropPending s rid conn) s codes) !! key = Some p.
Proof. induction codes as [|r codes IH]; intros s Hp Hc; [done|]. cbn. apply IH; [|done]. by apply dropPending_other. Qed.

Lemma request_publish key w : w_claim w = false -> request key w = request key (mkWaiter None None (w_sealed w) false false).
Proof. unfold request. by intros ->. Qed.

Lemma outstanding_in c order rid wid w : enumerates order c -> waiter_of c rid = Some (wid, w) ->
  request rid w ∈ outstanding c order.
Proof.
  intros [_ Hen] Hw. apply list_elem_of_omap. exists rid. split; [|by rewrite Hw].
  apply Hen. apply waiter_of_Some in Hw as [-> _]. eauto.
Qed.

(** A client's reconnection seen by the relay: the request that is sent again,
    and the entry it leaves. *)
Lemma republished c b rid wid w conn r order ok s addr held e :
  reachable (c, Dialling b) -> (forall k, ok k = true) -> enumerates order c ->
  waiter_of c (b64 rid) = Some (wid, w) -> w_claim w = false -> sealed_ok (w_sealed w) -> len rid = rendezvousIDSize ->
  may_publish s addr (e_now e) -> e_sent e = true ->
  exists c' ms s', supervise c (Dialling b) (EvDialled conn r order ok) = (c', Running conn, ms) /\
    request (b64 rid) w ∈ ms /\
    (serveMessage s conn addr held (request (b64 rid) w) e).1.1.1 = s' /\
    pending s' !! b64 rid = Some (mkPending conn (b64 (w_sealed w)) addr (e_now e)).
Proof.
  intros Hr Hok Hen Hw Hc Hs Hl Hm He.
  pose proof (reachable_inv _ Hr) as (_ & _ & _ & Hu & _). destruct (Hu eq_refl) as [_ Ha].
  destruct (supervise c (Dialling b) (EvDialled conn r order ok)) as [[c' p'] ms] eqn:E.
  cbn [supervise] in E. unfold resendWaiters in E. cbn [c_conn go_live] in E.
  destruct (send_all _ _ ok) as [c2 ms2] eqn:Es. simplify_eq.
  rewrite request_publish by done.
  destruct (serve_publish s conn addr held rid (w_sealed w) e Hl Hs Hm He) as (s' & S' & P' & _).
  exists c', ms, s'. split; [done|]. split; [|split; [by rewrite S'|rewrite P'; apply lookup_insert_eq]].
  change (unsent (go_live c conn r) order) with (unsent c order) in Es.
  apply send_all_ok in Es as [-> _]; [|done|].
  - rewrite unsent_all by done. apply list_elem_of_fmap. exists (b64 rid, wid, w).
    split; [cbn; by rewrite <- request_publish|]. apply list_elem_of_omap. exists (b64 rid). rewrite Hw. split; [|done].
    apply Hen. apply waiter_of_Some in Hw as [-> _]. eauto.
  - rewrite unsent_all by done. apply Forall_forall. intros [[k i] w'] (k' & _ & Hk)%list_elem_of_omap.
    destruct (waiter_of c k') as [[i' w2]|] eqn:E2; [|done]. cbn in Hk. simplify_eq. apply waiter_of_Some in E2 as [_ E2].
    cbn. eauto.
Qed.

(** An invite survives the loss of the relay connection: on the next
    connection the client publishes the code again with the same candidates, the
    relay then holds it for the new connection, and the clean-up of the old
    connection, whenever it runs, does not take it away. *)
Theorem invite_survives_reconnect c b rid wid w conn r order ok s addr held e :
  reachable (c, Dialling b) -> (forall k, ok k = true) -> enumerates order c ->
  waiter_of c (b64 rid) = Some (wid, w) -> w_claim w = false -> sealed_ok (w_sealed w) -> len rid = rendezvousIDSize ->
  may_publish s addr (e_now e) -> e_sent e = true ->
  exists c' ms s' entry, supervise c (Dialling b) (EvDialled conn r order ok) = (c', Running conn, ms) /\
    request (b64 rid) w ∈ ms /\
    (serveMessage s conn addr held (request (b64 rid) w) e).1.1.1 = s' /\
    pending s' !! b64 rid = Some entry /\ pc_conn entry = conn /\ pc_sealed entry = b64 (w_sealed w) /\
    forall old codes s'', old <> conn -> pending s'' !! b64 rid = Some entry ->
      pending (foldl (fun s rid => dropPending s rid old) s'' codes) !! b64 rid = Some entry.
Proof.
  intros Hr Hok Hen Hw Hc Hs Hl Hm He.
  destruct (republished c b rid wid w conn r order ok s addr held e) as (c' & ms & s' & H1 & H2 & H3 & H4); try done.
  eexists c', ms, s', _. split_and!; try done. intros old codes s'' Hne Hp. by apply cleanup_other.
Qed.

(** An expired invite comes back: the relay forgets a code that is older than
    its lifetime and tells nobody, so the publisher's call keeps waiting, and the
    next reconnection publishes the code again with a new lifetime. *)
Theorem expired_invite_returns c b rid wid w conn r order ok s p now addr held e :
  reachable (c, Dialling b) -> (forall k, ok k = true) -> enumerates order c ->
  waiter_of c (b64 rid) = Some (wid, w) -> w_claim w = false -> sealed_ok (w_sealed w) -> len rid = rendezvousIDSize ->
  pending s !! b64 rid = Some p -> CodeTTL (limits s) < now - pc_created p ->
  may_publish (reap s now) addr (e_now e) -> e_sent e = true ->
  pending (reap s now) !! b64 rid = None /\
  exists c' ms s', supervise c (Dialling b) (EvDialled conn r order ok) = (c', Running conn, ms) /\
    request (b64 rid) w ∈ ms /\
    (serveMessage (reap s now) conn addr held (request (b64 rid) w) e).1.1.1 = s' /\
    pc_created <$> pending s' !! b64 rid = Some (e_now e).
Proof.
  intros Hr Hok Hen Hw Hc Hs Hl Hp Ht Hm He. split.
  { cbn. apply map_lookup_filter_None. right. intros q Hq Hf. cbn in Hf. simplify_eq. lia. }
  destruct (republished c b rid wid w conn r order ok (reap s now) addr held e) as (c' & ms & s' & H1 & H2 & H3 & H4); try done.
  exists c', ms, s'. split_and!; try done. by rewrite H4.
Qed.

(** ** Witnesses *)
Import Crypto.Toy ToyCandidates.

Module SampleRendezvous.
Definition rid : bytes := replicate 16 x07.
Definition alice_addr : bytes := str "203.0.113.9:40000".
Definition bob_addr : bytes := str "198.51.100.4:51000".

(** A client with a live relay connection and nothing outstanding. *)
Definition live (conn : nat) : Client := go_live NewClient conn RungTLSDirect.

(** The randomness of two distinct tickets. *)
Definition at_now (now : Z) : env := mkEnv now (replicate 32 x0a ++ replicate 32 x0b) true true true CircuitDone [] [].

Lemma live_settled conn : settled (live conn).
Proof. split; [by eexists|]. split; [split; intros *; cbn; by rewrite lookup_empty|]. intros *. unfold waiter_of. cbn. by rewrite lookup_empty. Qed.

Lemma live_enumerates conn key w : enumerates [key] (set_waiters (live conn) (<[key := new_waiter (live conn)]> (c_waiters (live conn)))
  (<[new_waiter (live conn) := w]> (c_heap (live conn)))).
Proof.
  split; [apply NoDup_singleton|]. intros r. rewrite list_elem_of_singleton. cbn. rewrite lookup_insert_is_Some, lookup_empty.
  split; [by left|]. intros [?|[_ [? [=]]]]. done.
Qed.

Lemma may_publish_new addr now : may_publish (New DefaultLimits) addr now.
Proof. split; cbn; [unfold allow; by rewrite lookup_empty|by vm_compute]. Qed.

(** A client that has lost its connection with one code outstanding. *)
Definition published_one : Client * phase :=
  run_op (NewClient, Dialling minBackoff) (Reg (b64 rid) (str "blob") false [b64 rid] (fun _ => true)).

Lemma published_one_reachable : reachable (published_one.1, Dialling minBackoff).
Proof. exact (reach_op _ (Reg (b64 rid) (str "blob") false [b64 rid] (fun _ => true)) reach_new). Qed.

Lemma published_one_enumerates : enumerates [b64 rid] published_one.1.
Proof.
  split; [apply NoDup_singleton|]. intros r. rewrite list_elem_of_singleton.
  assert (E : c_waiters published_one.1 = {[b64 rid := new_waiter NewClient]}) by reflexivity.
  rewrite E, lookup_singleton_is_Some. split; congruence.
Qed.

(** A relay whose only code is old. *)
Definition stale : Server := set_pending (New DefaultLimits) {[b64 rid := mkPending 1 (b64 (str "blob")) alice_addr 0]}.

Lemma may_publish_stale addr now : may_publish (reap stale (6 * Minute)) addr now.
Proof. split; [vm_compute; reflexivity|by vm_compute]. Qed.
End SampleRendezvous.
Import SampleRendezvous.

Lemma rendezvous_completes_witness : exists A4 B4 inv A3 B2 toA pA pB,
  Invite_Wait (dispatch A3 toA) inv sample_pairing_key false FromChannel = Some (A4, Ok pA) /\
  Claim_finish B2 rid (new_waiter (live 2)) sample_pairing_key false FromChannel = Some (B4, Ok pB) /\
  Initiator pA = false /\ Initiator pB = true /\ PeerCandidates pA = [] /\ PeerCandidates pB = offered /\
  PeerObserved pA = bob_addr /\ PeerObserved pB = alice_addr.
Proof.
  set (setA := mkCandidateSet offered). set (setB := mkCandidateSet []).
  assert (HA : is_ok (SealCandidates sample_pairing_key (mkCandidateSet offered) ToyId.rng) = true) by (vm_compute; reflexivity).
  assert (HB : is_ok (SealCandidates sample_pairing_key (mkCandidateSet []) ToyId.rng) = true) by (vm_compute; reflexivity).
  destruct (SealCandidates sample_pairing_key (mkCandidateSet offered) ToyId.rng) as [sealedA| |] eqn:EA; [|discriminate HA..].
  destruct (SealCandidates sample_pairing_key (mkCandidateSet []) ToyId.rng) as [sealedB| |] eqn:EB; [|discriminate HB..].
  clear HA HB. assert (J : forall set, json_candidates set) by exact (fun _ => I).
  destruct (rendezvous_completes sample_pairing_key rid setA setB ToyId.rng ToyId.rng sealedA sealedB
    (live 1) 1 alice_addr [] [b64 rid] (fun _ => true) (New DefaultLimits) (at_now 0) eq_refl (J setA) (J setB) EA EB
    (live_settled 1) eq_refl eq_refl (live_enumerates _ _ _) (may_publish_new _ _) eq_refl)
    as (A1 & reqA & s1 & reply & A3 & inv & E1 & E2 & E3 & Hrest).
  destruct (register_sends (live 1) (b64 rid) sealedA false [b64 rid] (fun _ => true) (live_settled 1) eq_refl eq_refl
    (live_enumerates _ _ _)) as (A1' & R1 & W1 & _).
  destruct (serve_publish (New DefaultLimits) 1 alice_addr [] rid sealedA (at_now 0) eq_refl (sealed_size _ _ _ _ EA)
    (may_publish_new _ _) eq_refl) as (s1' & S1 & _ & L1 & C1 & _).
  unfold Publish_start in E1. rewrite R1 in E1.
  assert (A1' = A1) as -> by congruence.
  assert (reqA = request (b64 rid) (mkWaiter None None sealedA false false)) as -> by congruence. rewrite S1 in E2.
  assert (s1' = s1 /\ reply = published_message (b64 rid) alice_addr) as [-> ->] by (split; congruence).
  pose proof (dispatch_published A1 (b64 rid) alice_addr _ _ W1 eq_refl) as W2.
  pose proof (proj1 (waiter_of_Some _ _ _ _) W2) as [H1 H2].
  unfold Publish_finish, await in E3. rewrite H2 in E3. injection E3 as <- <-.
  assert (W3 : waiter_of (take_published (dispatch A1 (published_message (b64 rid) alice_addr)) (new_waiter (live 1))) (b64 rid) =
    Some (new_waiter (live 1), mkWaiter None None sealedA false true)).
  { apply waiter_of_Some. unfold take_published. rewrite H2. split; [exact H1|]. apply lookup_insert_eq. }
  destruct (Hrest _ _ (live 2) 2%nat bob_addr [] [b64 rid] (fun _ => true) s1 (at_now 7)
      W3 eq_refl (live_settled 2) eq_refl eq_refl (live_enumerates _ _ _) eq_refl ltac:(done) ltac:(rewrite L1, C1; done)
      ltac:(done) ltac:(done) eq_refl eq_refl eq_refl)
    as (B1 & reqB & s2 & toB & toA & toB' & A4 & B4 & pA & pB & cid & _ & _ & F1 & F2 & F3 & F4 & F5 & F6 & F7 & F8 & _).
  do 8 eexists. split; [exact F1|]. split; [exact F2|]. rewrite F5, F6.
  assert (V : ValidateCandidates offered = offered) by (vm_compute; reflexivity).
  exact (conj F3 (conj F4 (conj eq_refl (conj V (conj F7 F8))))).
Defined.

Lemma invite_survives_reconnect_witness : exists s',
  (serveMessage (New DefaultLimits) 9 alice_addr [] (request (b64 rid) (mkWaiter None None (str "blob") false false)) (at_now 3)).1.1.1 = s' /\
  pc_conn <$> pending s' !! b64 rid = Some 9%nat.
Proof.
  destruct (invite_survives_reconnect published_one.1 minBackoff rid (new_waiter NewClient)
    (mkWaiter None None (str "blob") false false) 9 RungTLSDirect [b64 rid] (fun _ => true) (New DefaultLimits)
    alice_addr [] (at_now 3) published_one_reachable (fun _ => eq_refl) published_one_enumerates eq_refl eq_refl)
    as (c' & ms & s' & entry & _ & _ & H1 & H2 & H3 & _); [done|reflexivity|apply may_publish_new|reflexivity|].
  exists s'. split; [exact H1|]. rewrite H2. cbn. by rewrite H3.
Defined.

Lemma expired_invite_returns_witness : pending (reap stale (6 * Minute)) !! b64 rid = None.
Proof.
  refine (proj1 (expired_invite_returns published_one.1 minBackoff rid (new_waiter NewClient)
    (mkWaiter None None (str "blob") false false) 9 RungTLSDirect [b64 rid] (fun _ => true) stale
    (mkPending 1 (b64 (str "blob")) alice_addr 0) (6 * Minute) alice_addr [] (at_now 400000000000)
    published_one_reachable (fun _ => eq_refl) published_one_enumerates eq_refl eq_refl _ eq_refl _ _ _ eq_refl)).
  - done.
  - reflexivity.
  - reflexivity.
  - apply may_publish_stale.
Defined.
