(* ===== verification/Idle.v ===== *)
(** The control connection: the client's [pingLoop] and [readPump]
    ([src/internal/rendezvous/client.go]) and the relay's [serveConn]
    ([src/internal/relay/server.go]) over the WebSocket of
    [src/internal/rendezvous/ws.go], with the read deadline the relay sets. *)
From Stdlib Require Import ZArith Lia.
From Stdlib Require Import Strings.Byte.
From stdpp Require Import base gmap strings numbers option list.
From S2P Require Import Prelude Crypto Messages Transport WebSocket Relay Candidates Dialer Client.

(** What is on the socket before a deadline passes. *)
Definition heard_by (arrivals : list (Z * bytes)) (deadline : Z) : bytes :=
  concat (filter (fun a => a.1 < deadline) arrivals).*2.

Section recv.
Context `{MessageJSON}.

(** One turn of the loop of [serveConn] at the time [now]: the deadline is set
    once, for the whole message; the end of the input is the deadline passing. *)
Definition recv_by (l : Limits) (c : WSConn) (now : Z) (arrivals : list (Z * bytes)) : WSConn * res ws_err Message :=
  RecvMessage (set_inp c (inp c ++ heard_by arrivals (now + CircuitIdle l))).

(** A server that gets control frames and no data answers them all and is then
    out of input. *)
Lemma nextFrame_dry (frames : list (wframe * bytes)) fuel c : (length frames < fuel)%nat ->
  inp c = concat (wire true <$> frames) -> Forall frame_ok frames -> concat (data <$> frames) = [] ->
  mask c = false -> broken c = false -> exists c', nextFrame fuel c = (c', Err WsEOF).
Proof.
  intros Hf Hi Hok Hd Hm Hb. replace fuel with (length frames + S (fuel - length frames - 1))%nat by lia.
  destruct (nextFrame_skip frames (S (fuel - length frames - 1)) c []) as (c1 & -> & E1 & _); try done.
  - by rewrite app_nil_r, Hm.
  - by rewrite Hm.
  - cbn [nextFrame]. unfold readHeader, readFull. rewrite E1. cbn. by eexists.
Qed.

Lemma heard_wire (frames : list (Z * (wframe * bytes))) d :
  heard_by ((fun f => (f.1, wire true f.2)) <$> frames) d =
  concat (wire true <$> (filter (fun f => f.1 < d) frames).*2).
Proof.
  unfold heard_by. induction frames as [|[t f] frames IH]; [done|]. cbn [fmap list_fmap fst snd].
  destruct (decide (t < d)).
  - rewrite !filter_cons_True by done. cbn [fmap list_fmap concat fst snd]. by rewrite IH.
  - by rewrite !filter_cons_False by done.
Qed.

(** A connection that has carried whole messages so far. *)
Definition between (c : WSConn) : Prop := mask c = false /\ rem c = 0 /\ inp c = [] /\ broken c = false.

Lemma recv_starves l c now (frames : list (Z * (wframe * bytes))) :
  between c -> Forall (fun f => frame_ok f.2 /\ data f.2 = []) frames ->
  exists c', recv_by l c now ((fun f => (f.1, wire true f.2)) <$> frames) = (c', Err WsEOF).
Proof.
  intros (Hm & Hr & Hi & Hb) Hf. unfold recv_by. rewrite Hi, heard_wire. cbn [app].
  set (fs := (filter _ frames).*2).
  assert (Hfs : Forall frame_ok fs /\ concat (data <$> fs) = []).
  { subst fs. induction Hf as [|[t f] frames [H1 H2] _ [IH1 IH2]]; [done|]. destruct (decide (t < now + CircuitIdle l)).
    - rewrite filter_cons_True by done. cbn in *. split; [by constructor|]. by rewrite H2.
    - by rewrite filter_cons_False by done. }
  destruct Hfs as [F1 F2]. set (c0 := set_inp c _).
  unfold RecvMessage, Read. rewrite decide_False by (cbn; lia).
  destruct (nextFrame_dry fs (enough c0) c0) as [c' ->]; try done; [|by eexists].
  unfold enough. subst c0. cbn [set_inp inp]. pose proof (frames_length true fs). lia.
Qed.

(** ** The loop of the relay *)

(** One turn of [serveConn] at the time [now], with its exit. *)
Definition timed_turn (s : Server) (conn : nat) (remoteAddr : bytes) (published : list bytes) (c : WSConn) (now : Z)
  (arrivals : list (Z * bytes)) (e : env) : Server * out * list bytes * bool :=
  match (recv_by (limits s) c now arrivals).2 with
  | Ok msg => serveMessage s conn remoteAddr published msg e
  | _ => (foldl (fun s rid => dropPending s rid conn) s published, [], [], false)
  end.

Lemma drop_other s rid rid' conn : pending (dropPending s rid' conn) !! rid = pending s !! rid \/
  pending (dropPending s rid' conn) !! rid = None.
Proof.
  unfold dropPending. destruct (pending s !! rid') as [p|]; [|by left]. case_decide; [|by left]. cbn.
  destruct (decide (rid' = rid)) as [->|Hne]; [right; apply lookup_delete_eq|left; by rewrite lookup_delete_ne].
Qed.

Lemma drops_keep_none published : forall s rid conn, pending s !! rid = None ->
  pending (foldl (fun s rid => dropPending s rid conn) s published) !! rid = None.
Proof.
  induction published as [|r published IH]; intros s rid conn Hn; cbn [foldl]; [done|]. apply IH.
  destruct (drop_other s rid r conn) as [->|]; done.
Qed.

Lemma drops_withdraw published : forall s rid conn, rid ∈ published ->
  (forall p, pending s !! rid = Some p -> pc_conn p = conn) ->
  pending (foldl (fun s rid => dropPending s rid conn) s published) !! rid = None.
Proof.
  induction published as [|r published IH]; intros s rid conn Hin Hp; [by apply not_elem_of_nil in Hin|]. cbn [foldl].
  destruct (decide (r = rid)) as [->|Hne].
  - apply drops_keep_none. unfold dropPending. destruct (pending s !! rid) as [p|] eqn:E; [|done].
    rewrite decide_True by (by apply Hp). cbn. apply lookup_delete_eq.
  - apply elem_of_cons in Hin as [->|Hin]; [done|]. apply IH; [done|]. intros p Hs.
    destruct (drop_other s rid r conn) as [E|E]; rewrite E in Hs; [by apply Hp|done].
Qed.

End recv.

(** ** The two ends of the connection *)
Section pump.
Context `{MessageJSONLaws}.

(** [pingLoop] for as many ticks as come before it is stopped. *)
Fixpoint pingLoop (c : WSConn) (ticks : nat) : WSConn :=
  match ticks with
  | O => c
  | S ticks => let '(c1, r) := Ping c in match r with Ok _ => pingLoop c1 ticks | _ => c1 end
  end.

(** [readPump] until its connection fails. *)
Fixpoint readPump (fuel : nat) (c : WSConn) (cl : Client) : WSConn * Client :=
  match fuel with
  | O => (c, cl)
  | S fuel => match RecvMessage c with (c1, Ok msg) => readPump fuel c1 (dispatch cl msg) | (c1, _) => (c1, cl) end
  end.

(** What one end writes: control messages and pings. *)
Inductive control := CMessage (m : Message) | CPing.

Definition message_of (x : control) : option Message := match x with CMessage m => Some m | CPing => None end.

Fixpoint write_control (c : WSConn) (xs : list control) : WSConn * res ws_err unit :=
  match xs with
  | [] => (c, Ok tt)
  | x :: rest =>
      let '(c1, r) := match x with CMessage m => SendMessage c m | CPing => Ping c end in
      try[c1] _ := r;
      write_control c1 rest
  end.

(** A message the codec keeps, that fits a control frame. *)
Definition sendable (m : Message) : Prop :=
  json_message m /\ m_type m <> [] /\
  forall b, json_marshal_message m = Some b -> b <> [] /\ len b <= MaxControlFrame.

Definition control_ok (x : control) : Prop := match x with CMessage m => sendable m | CPing => True end.

Definition coded (x : control) (f : wframe * bytes) : Prop :=
  frame_ok f /\
  match x with
  | CMessage m => exists b, f.1 = WData b /\ b <> [] /\ len b <= MaxControlFrame /\ DecodeMessage b = Ok m
  | CPing => f.1 = WPing []
  end.

Lemma coded_dry x f : coded x f -> message_of x = None -> data f = [].
Proof. destruct x; [done|]. intros [_ Hf] _. unfold data. by rewrite Hf. Qed.

Lemma write_coded c x : control_ok x -> broken c = false -> 4 <= len (wrng c) ->
  exists c' f, match x with CMessage m => SendMessage c m | CPing => Ping c end = (c', Ok tt) /\ coded x f /\
    outp c' = outp c ++ wire (mask c) f /\ mask c' = mask c /\ broken c' = false /\ len (wrng c) - 4 <= len (wrng c').
Proof.
  intros Hx Hb Hr.
  assert (Hw : forall f op p, op_of f = op -> payload_of f = p -> frame_ok (f, take 4 (wrng c)) ->
    exists c', writeFrame c op p = (c', Ok tt) /\ outp c' = outp c ++ wire (mask c) (f, take 4 (wrng c)) /\
      mask c' = mask c /\ broken c' = false /\ len (wrng c) - 4 <= len (wrng c')).
  { intros f op p <- <- _. destruct (writeFrame_wire c (op_of f) (payload_of f) Hb Hr) as (rng' & -> & Hl).
    eexists. split_and!; try done. cbn. lia. }
  assert (Hk : len (take 4 (wrng c)) = 4) by by apply (len_take_le 4).
  destruct x as [m|]; cbn in Hx.
  - destruct Hx as (Hj & Ht & Hs). destruct (json_message_roundtrip m Hj) as (b & Hm & Hu).
    destruct (Hs b Hm) as [Hne Hl]. unfold MaxControlFrame in Hl.
    assert (Hok : frame_ok (WData b, take 4 (wrng c))).
    { split; [done|]. cbn. change maxWSPayload with 1049600. lia. }
    destruct (Hw (WData b) opBinary b eq_refl eq_refl Hok) as (c' & E & O1 & O2 & O3 & O4).
    exists c', (WData b, take 4 (wrng c)). split_and!; [| |done..].
    + unfold SendMessage, EncodeMessage. rewrite Hm, decide_False by (unfold MaxControlFrame; lia). exact E.
    + split; [done|]. exists b. split_and!; try done. unfold DecodeMessage.
      rewrite (decide_False (P := MaxControlFrame < len b)) by (unfold MaxControlFrame; lia).
      rewrite Hu. by rewrite decide_False.
  - assert (Hok : frame_ok (WPing [], take 4 (wrng c))) by (split; [done|vm_compute; discriminate]).
    destruct (Hw (WPing []) opPing [] eq_refl eq_refl Hok) as (c' & E & O1 & O2 & O3 & O4).
    exists c', (WPing [], take 4 (wrng c)). split_and!; done.
Qed.

Lemma write_all_coded xs : forall c, Forall control_ok xs -> broken c = false -> 4 * Z.of_nat (length xs) <= len (wrng c) ->
  exists c' fs, write_control c xs = (c', Ok tt) /\ Forall2 coded xs fs /\ outp c' = outp c ++ concat (wire (mask c) <$> fs).
Proof.
  induction xs as [|x xs IH]; intros c Hx Hb Hr; cbn [write_control].
  { exists c, []. rewrite app_nil_r. by split_and!. }
  apply Forall_cons_iff in Hx as [Hx Hxs]. cbn [length] in Hr.
  destruct (write_coded c x Hx Hb) as (c1 & f & E & Hf & O1 & O2 & O3 & O4); [lia|]. rewrite E. cbn [try_in].
  destruct (IH c1) as (c' & fs & -> & Hfs & O5); try done; [lia|].
  exists c', (f :: fs). split; [done|]. split; [by constructor|]. cbn [fmap list_fmap concat]. by rewrite O5, O1, O2, <- app_assoc.
Qed.
(** One receive: the pings before a message leave no trace, and its frame is
    read whole. *)
Lemma recv_coded (xs : list control) : forall fs c, Forall2 coded xs fs -> rem c = 0 -> broken c = false ->
  inp c = concat (wire (negb (mask c)) <$> fs) -> 4 * Z.of_nat (length fs) <= len (wrng c) ->
  match omap message_of xs with
  | m :: ms => exists c' xs' fs', RecvMessage c = (c', Ok m) /\ omap message_of xs' = ms /\ Forall2 coded xs' fs' /\
      rem c' = 0 /\ broken c' = false /\ inp c' = concat (wire (negb (mask c')) <$> fs') /\
      4 * Z.of_nat (length fs') <= len (wrng c')
  | [] => exists c', RecvMessage c = (c', Err WsEOF)
  end.
Proof.
  assert (Hsplit : forall xs fs, Forall2 coded xs fs -> 
    match omap message_of xs with
    | m :: ms => exists ctl b key xs' rest, fs = ctl ++ (WData b, key) :: rest /\ concat (data <$> ctl) = [] /\
        coded (CMessage m) (WData b, key) /\ omap message_of xs' = ms /\ Forall2 coded xs' rest
    | [] => concat (data <$> fs) = []
    end).
  { clear. induction 1 as [|x f xs fs Hx Hxs IH]; [done|]. destruct x as [m|]; cbn [omap list_omap message_of].
    - destruct f as [f key]. pose proof Hx as [_ (b & Hb & _)]. cbn in Hb. subst f. by exists [], b, key, xs, fs.
    - pose proof (coded_dry _ _ Hx eq_refl) as Hd. destruct (omap message_of xs).
      + cbn [fmap list_fmap concat]. by rewrite Hd.
      + destruct IH as (ctl & b & key & xs' & rest & -> & Hc & ?). exists (f :: ctl), b, key, xs', rest.
        cbn [fmap list_fmap concat]. by rewrite Hd. }
  intros fs c Hf Hrem Hb Hi Hr. specialize (Hsplit _ _ Hf).
  assert (Hok : Forall frame_ok fs) by (clear -Hf; induction Hf as [|? ? ? ? []]; by constructor).
  unfold RecvMessage, Read. rewrite decide_False by lia. unfold enough. rewrite Hi.
  pose proof (frames_length (negb (mask c)) fs) as Hl. destruct (omap message_of xs) as [|m ms].
  - set (n := S _). replace n with (length fs + S (n - length fs - 1))%nat by lia.
    destruct (nextFrame_skip fs (S (n - length fs - 1)) c []) as (c1 & -> & E1 & _); try done; [by rewrite app_nil_r|].
    cbn [nextFrame]. unfold readHeader, readFull. rewrite E1. cbn. by eexists.
  - destruct Hsplit as (ctl & b & key & xs' & rest & -> & Hd & [Hfk (b' & E & Hne & Hlb & Hdec)] & <- & Hrest).
    cbn in E. simplify_eq. apply Forall_app in Hok as [Hok _]. rewrite length_app in *. cbn [length] in *.
    set (n := S _). replace n with (length ctl + S (n - length ctl - 1))%nat by lia.
    destruct (nextFrame_skip ctl (S (n - length ctl - 1)) c (concat (wire (negb (mask c)) <$> (WData b', key) :: rest)))
      as (c1 & -> & E1 & E2 & E3 & _ & E5); try done; [by rewrite Hi, fmap_app, concat_app|lia|].
    cbn [fmap list_fmap concat] in E1. rewrite <- E2 in E1. rewrite (nextFrame_data _ c1 b' key _ E1 Hfk Hne).
    set (m0 := negb (mask c1)). set (tail := concat (wire m0 <$> rest)). unfold readData.
    cbn [rem set_frame inp set_inp rmasked rmask rmaskPos].
    assert (Hk : (if decide (len b' < MaxControlFrame) then len b' else MaxControlFrame) = len b') by (case_decide; lia).
    rewrite Hk. set (body := if m0 then xor_mask key 0 b' else b').
    assert (Hbody : length body = Z.to_nat (len b')).
    { subst body. unfold len. rewrite Nat2Z.id. destruct m0; [|done].
      pose proof (xor_mask_len key b' 0) as Hx. unfold len in Hx. lia. }
    rewrite <- Hbody, take_app_length, drop_app_length.
    assert (Hlen : len body = len b') by (unfold len in *; lia).
    rewrite Hlen, Z.sub_diag, (decide_False (P := len b' < len b')) by lia. cbn [rem set_frame]. 
    rewrite (decide_False (P := 0 < 0)) by lia.
    assert (Hun : (if m0 then xor_mask (if m0 then key else replicate 4 x00) 0 body else body) = b').
    { subst body. destruct m0; [by rewrite xor_mask_twice|done]. }
    rewrite Hun, Hdec. eexists _, xs', rest. split; [done|]. split_and!; try done. cbn. lia.
Qed.

Lemma pump_coded fuel : forall xs fs c cl, Forall2 coded xs fs -> rem c = 0 -> broken c = false ->
  inp c = concat (wire (negb (mask c)) <$> fs) -> 4 * Z.of_nat (length fs) <= len (wrng c) ->
  (length (omap message_of xs) < fuel)%nat ->
  (readPump fuel c cl).2 = foldl dispatch cl (omap message_of xs).
Proof.
  induction fuel as [|fuel IH]; intros xs fs c cl Hf Hrem Hb Hi Hr Hn; [lia|].
  pose proof (recv_coded xs fs c Hf Hrem Hb Hi Hr) as Hrecv. cbn [readPump].
  destruct (omap message_of xs) as [|m ms]; [by destruct Hrecv as [c' ->]|].
  destruct Hrecv as (c' & xs' & fs' & -> & E & Hf' & G1 & G2 & G3 & G4). cbn [foldl]. rewrite <- E.
  apply (IH xs' fs'); try done. rewrite E. cbn in Hn. lia.
Qed.

(** C17: what the relay sends over a control connection is what the client's
    supervisor dispatches: any sequence of control messages, with any pings
    between them, written as WebSocket frames by one end and read by the other
    (in either role) dispatches exactly those messages in that order, and the
    pump ends when the input does. *)
Theorem control_messages_arrive client xs rng rng' cl :
  Forall control_ok xs -> 4 * Z.of_nat (length xs) <= len rng -> 4 * Z.of_nat (length xs) <= len rng' ->
  exists c', write_control (NewWSConn [] rng client) xs = (c', Ok tt) /\
    forall fuel, (length (omap message_of xs) < fuel)%nat ->
      (readPump fuel (NewWSConn (outp c') rng' (negb client)) cl).2 = foldl dispatch cl (omap message_of xs).
Proof.
  intros Hx Hr Hr'. destruct (write_all_coded xs (NewWSConn [] rng client) Hx eq_refl Hr) as (c' & fs & E & Hf & Ho).
  exists c'. split; [done|]. intros fuel Hn. apply (pump_coded fuel xs fs); try done.
  - rewrite Ho. cbn. by rewrite negb_involutive.
  - cbn. by rewrite <- (Forall2_length _ _ _ Hf).
Qed.

(** The client's pings are of the kind that renews nothing at the relay. *)
Lemma pingLoop_frames ticks : forall c, broken c = false -> 4 * Z.of_nat ticks <= len (wrng c) ->
  exists frames, outp (pingLoop c ticks) = outp c ++ concat (wire (mask c) <$> frames) /\ length frames = ticks /\
    Forall (fun f => frame_ok f /\ data f = []) frames.
Proof.
  induction ticks as [|ticks IH]; intros c Hb Hr; cbn [pingLoop].
  { exists []. by rewrite app_nil_r. }
  destruct (write_coded c CPing I Hb) as (c1 & f & -> & Hf & O1 & O2 & O3 & O4); [lia|].
  destruct (IH c1 O3) as (frames & E & Hl & Hd); [lia|]. exists (f :: frames). split; [|split].
  - cbn [fmap list_fmap concat]. by rewrite E, O1, O2, <- app_assoc.
  - cbn. by rewrite Hl.
  - constructor; [|done]. split; [apply Hf|]. by apply (coded_dry CPing).
Qed.
End pump.

(** ** Sample *)
Module SampleIdle.
(** A message coded as its type alone. *)
Definition json : MessageJSON := {|
  json_marshal_message := fun m => Some (m_type m);
  json_unmarshal_message := fun b => Some (mkMessage b [] [] [] [] [] [] 0 [] [])
|}.

Definition typed (t : bytes) : Message := mkMessage t [] [] [] [] [] [] 0 [] [].

Definition json_laws : MessageJSONLaws (H := json).
Proof.
  refine {| json_message := fun m => m = typed (m_type m) |}. intros m Hm. exists (m_type m). split; [done|].
  by rewrite Hm.
Defined.

(** A code published at time 0, and a client that pings every 20 seconds. *)
Definition rid : bytes := str "rid".
Definition relay_with_code : Server :=
  (addPending (New DefaultLimits) rid 1 [] (str "198.51.100.7:40000") 0).1.
Definition pings : list (Z * (wframe * bytes)) :=
  (fun n => (20 * Second * Z.of_nat n, (WPing [], str "mask"))) <$> seq 1 30.
Definition socket : WSConn := NewWSConn [] [] false.
Definition quiet : env := mkEnv 0 [] true true true CircuitDone [] [].

Lemma pings_control : Forall (fun f => frame_ok f.2 /\ data f.2 = []) pings.
Proof.
  unfold pings. apply Forall_fmap, Forall_forall. intros n _. cbn. split; [split; cbn; vm_compute; congruence|done].
Qed.
End SampleIdle.
Import SampleIdle.


Lemma control_messages_arrive_witness : exists c',
  write_control (H := json) (NewWSConn [] (replicate 12 x5a) false) [CPing; CMessage (typed MsgPublished); CPing] = (c', Ok tt) /\
  (readPump (H := json) 2 (NewWSConn (outp c') (replicate 12 x00) true) NewClient).2 = dispatch NewClient (typed MsgPublished).
Proof.
  destruct (control_messages_arrive (H0 := json_laws) false [CPing; CMessage (typed MsgPublished); CPing]
    (replicate 12 x5a) (replicate 12 x00) NewClient) as (c' & E & Hp).
  - repeat (split || constructor); try done; cbn in *; simplify_eq; vm_compute; congruence.
  - vm_compute. discriminate.
  - vm_compute. discriminate.
  - exists c'. split; [exact E|]. apply Hp. cbn. lia.
Defined.
