(* ===== verification/Punch.v ===== *)
(** Hole punching: [src/internal/transport/punch.go].

    A channel of capacity one is an [option]; the inbound channels are shared
    between the listener and the punches, so they live in a heap.  Connections
    and calls of [Punch] are identities.  The accept loop, the calls and their
    dial loops run concurrently: each event below is what one of them does
    between two points where another may run. *)
From Stdlib Require Import ZArith Lia.
From Stdlib Require Import Strings.Byte.
From stdpp Require Import base gmap strings numbers option list.
From S2P Require Import Prelude GoStrings Identity Relay.

Definition PunchInterval : Z := 250 * Millisecond.
Definition PunchDuration : Z := 5 * Second.
Definition punchDialTimeout : Z := 1500 * Millisecond.

Definition addrIP (addr : bytes) : bytes :=
  match SplitHostPort addr with Ok (host, _) => host | _ => addr end.

(** *** The listener *)
Record PunchListener := mkPunchListener {
  waiters : gmap bytes nat;          (* by source IP: the channel of a punch *)
  chans : gmap nat (option nat);     (* the channels and what they hold *)
  fallback : bool                    (* there is a fallback *)
}.

Definition NewPunchListener (fb : bool) : PunchListener := mkPunchListener ∅ ∅ fb.

Definition set_chan (p : PunchListener) (ch : nat) (v : option nat) : PunchListener :=
  mkPunchListener (waiters p) (<[ch := v]> (chans p)) (fallback p).

(** Where [route] takes a connection. *)
Inductive routed := ToPunch (ch : nat) | ToFallback | ToClose.

(** [route] looks the waiter up under the lock, and sends to its channel later. *)
Definition route_lookup (p : PunchListener) (addr : bytes) : option nat := waiters p !! addrIP addr.

Definition route_send (p : PunchListener) (conn : nat) (target : option nat) : PunchListener * routed :=
  let otherwise := (p, if fallback p then ToFallback else ToClose) in
  match target with
  | Some ch =>
      match chans p !! ch with
      | Some None => (set_chan p ch (Some conn), ToPunch ch)
      | _ => otherwise
      end
  | None => otherwise
  end.

Definition route (p : PunchListener) (conn : nat) (addr : bytes) : PunchListener * routed :=
  route_send p conn (route_lookup p addr).

Definition register (p : PunchListener) (ip : bytes) : PunchListener * nat :=
  let ch := fresh (elements (dom (chans p) : gset nat)) in
  (mkPunchListener (<[ip := ch]> (waiters p)) (<[ch := None]> (chans p)) (fallback p), ch).

Definition unregister (p : PunchListener) (ip : bytes) : PunchListener :=
  mkPunchListener (delete ip (waiters p)) (chans p) (fallback p).

(** *** One call of [Punch] *)
Inductive punch_err := NoTarget | PunchCtx | ErrPunchFailed.

(** Waiting out the delay, racing the two directions, or finished. *)
Inductive stage := Delaying | Racing | Returned (r : res punch_err nat).

Record call := mkCall {
  k_ip : bytes;
  k_inbound : nat;           (* the channel registered *)
  k_dialed : option nat;     (* the channel [dialed] *)
  k_loop : bool;             (* the dial loop is running *)
  k_stage : stage
}.

Definition set_stage (k : call) (s : stage) : call := mkCall (k_ip k) (k_inbound k) (k_dialed k) (k_loop k) s.
Definition set_dialed (k : call) (d : option nat) : call := mkCall (k_ip k) (k_inbound k) d (k_loop k) (k_stage k).
Definition stop_loop (k : call) : call := mkCall (k_ip k) (k_inbound k) (k_dialed k) false (k_stage k).
Definition start_race (k : call) : call := mkCall (k_ip k) (k_inbound k) None true Racing.

(** [Punch] up to its first wait. *)
Definition Punch_start (p : PunchListener) (remote : bytes) (delay : Z) : PunchListener * call :=
  let ip := addrIP remote in
  if decide (ip = []) then (p, mkCall [] 0 None false (Returned (Err NoTarget)))
  else
    let '(p1, inbound) := register p ip in
    let k := mkCall ip inbound None false Delaying in
    (p1, if decide (0 < delay) then k else start_race k).

(** The ways out of [Punch]: its result, after its deferred [unregister]. *)
Definition Punch_return (p : PunchListener) (k : call) (r : res punch_err nat) : PunchListener * call :=
  (unregister p (k_ip k), set_stage k (Returned r)).

(** A receive from the inbound channel, if there is something in it. *)
Definition take_inbound (p : PunchListener) (k : call) : option (PunchListener * nat) :=
  match chans p !! k_inbound k with
  | Some (Some c) => Some (set_chan p (k_inbound k) None, c)
  | _ => None
  end.

Definition Punch_inbound (p : PunchListener) (k : call) : option (PunchListener * call) :=
  '(p1, c) ← take_inbound p k; Some (Punch_return p1 k (Ok c)).

Definition Punch_dialed (p : PunchListener) (k : call) : option (PunchListener * call) :=
  c ← k_dialed k; Some (Punch_return p (set_dialed k None) (Ok c)).

(** The context ends: while delaying, [Punch] gives up at once; while racing, it
    drains its channels ([first] is the case of the inner select that is taken
    when both are ready). *)
Definition Punch_done (p : PunchListener) (k : call) (first : bool) : option (PunchListener * call) :=
  match k_stage k with
  | Delaying => Some (Punch_return p k (Err PunchCtx))
  | Racing =>
      match Punch_inbound p k, Punch_dialed p k with
      | Some a, Some b => Some (if first then a else b)
      | Some a, None => Some a
      | None, Some b => Some b
      | None, None => Some (Punch_return p k (Err ErrPunchFailed))
      end
  | Returned _ => None
  end.

(** [dialLoop]: a dial succeeded; the connection is sent or, with the channel
    full, closed, and the loop ends. *)
Definition dial_ok (k : call) (conn : nat) : call * bool :=
  match k_dialed k with
  | None => (stop_loop (set_dialed k (Some conn)), true)
  | Some _ => (stop_loop k, false)
  end.

(** *** The whole *)
Inductive origin := Accepted (addr : bytes) | Dialled (pid : nat).

Record world := mkWorld {
  w_pl : PunchListener;
  w_calls : gmap nat call;
  w_routing : option (nat * option nat);   (* the accept loop, inside [route] *)
  w_handed : list nat;                     (* given to the fallback *)
  w_closed : list nat;
  w_from : gmap nat origin                 (* every connection there has been *)
}.

Definition start (fb : bool) : world := mkWorld (NewPunchListener fb) ∅ None [] [] ∅.

Definition put_call (w : world) (pid : nat) (pk : PunchListener * call) : world :=
  mkWorld pk.1 (<[pid := pk.2]> (w_calls w)) (w_routing w) (w_handed w) (w_closed w) (w_from w).

Inductive event :=
| EvAccept (conn : nat) (addr : bytes)
| EvRoute
| EvPunch (pid : nat) (remote : bytes) (delay : Z)
| EvDelayOver (pid : nat)
| EvInbound (pid : nat)
| EvDialed (pid : nat)
| EvDone (pid : nat) (first : bool)
| EvDialOk (pid conn : nat)
| EvLoopEnd (pid : nat).

Definition waiting (s : stage) : bool := match s with Returned _ => false | _ => true end.

(** One event; [None] when it cannot happen. *)
Definition step (w : world) (e : event) : option world :=
  let p := w_pl w in
  match e with
  | EvAccept conn addr =>
      match w_from w !! conn, w_routing w with
      | None, None => Some (mkWorld p (w_calls w) (Some (conn, route_lookup p addr)) (w_handed w) (w_closed w)
                              (<[conn := Accepted addr]> (w_from w)))
      | _, _ => None
      end
  | EvRoute =>
      '(conn, target) ← w_routing w;
      let '(p1, r) := route_send p conn target in
      Some (mkWorld p1 (w_calls w) None
              (match r with ToFallback => conn :: w_handed w | _ => w_handed w end)
              (match r with ToClose => conn :: w_closed w | _ => w_closed w end) (w_from w))
  | EvPunch pid remote delay =>
      match w_calls w !! pid with None => Some (put_call w pid (Punch_start p remote delay)) | Some _ => None end
  | EvDelayOver pid =>
      k ← w_calls w !! pid;
      match k_stage k with Delaying => Some (put_call w pid (p, start_race k)) | _ => None end
  | EvInbound pid =>
      k ← w_calls w !! pid;
      if waiting (k_stage k) then put_call w pid <$> Punch_inbound p k else None
  | EvDialed pid =>
      k ← w_calls w !! pid;
      match k_stage k with Racing => put_call w pid <$> Punch_dialed p k | _ => None end
  | EvDone pid first => k ← w_calls w !! pid; put_call w pid <$> Punch_done p k first
  | EvDialOk pid conn =>
      k ← w_calls w !! pid;
      match w_from w !! conn, k_loop k with
      | None, true =>
          let '(k1, sent) := dial_ok k conn in
          Some (mkWorld p (<[pid := k1]> (w_calls w)) (w_routing w) (w_handed w)
                  (if sent : bool then w_closed w else conn :: w_closed w) (<[conn := Dialled pid]> (w_from w)))
      | _, _ => None
      end
  | EvLoopEnd pid => k ← w_calls w !! pid; if k_loop k then Some (put_call w pid (p, stop_loop k)) else None
  end.

Definition run (w : world) (es : list event) : option world := foldl (fun w e => w ≫= fun w => step w e) (Some w) es.

(** ** What holds in every reachable state *)

(** A connection that may be handed to a punch for [ip]: it came from there. *)
Definition came_from (w : world) (ip : bytes) (c : nat) : Prop :=
  exists a, w_from w !! c = Some (Accepted a) /\ addrIP a = ip.

Record call_ok (w : world) (pid : nat) (k : call) : Prop := {
  ok_target : k_ip k = [] -> k_loop k = false /\ k_dialed k = None /\ k_stage k = Returned (Err NoTarget);
  ok_loop : k_loop k = true -> k_dialed k = None /\ k_stage k <> Delaying;
  ok_delay : k_stage k = Delaying -> k_dialed k = None;
  ok_chan : k_ip k <> [] -> exists v, chans (w_pl w) !! k_inbound k = Some v /\ forall c, v = Some c -> came_from w (k_ip k) c;
  ok_dialed : forall c, k_dialed k = Some c -> w_from w !! c = Some (Dialled pid);
  ok_result : forall c, k_stage k = Returned (Ok c) -> came_from w (k_ip k) c \/ w_from w !! c = Some (Dialled pid)
}.

(** The punch that owns a channel. *)
Definition owns (w : world) (ch : nat) (ip : bytes) (pid : nat) (k : call) : Prop :=
  w_calls w !! pid = Some k /\ k_inbound k = ch /\ k_ip k = ip /\ ip <> [].

Record inv (w : world) : Prop := {
  inv_calls : forall pid k, w_calls w !! pid = Some k -> call_ok w pid k;
  inv_owner : forall ch ip ip' pid pid' k k', owns w ch ip pid k -> owns w ch ip' pid' k' -> pid = pid';
  inv_waiters : forall ip ch, waiters (w_pl w) !! ip = Some ch -> exists pid k, owns w ch ip pid k /\ waiting (k_stage k) = true;
  inv_routing : forall c target, w_routing w = Some (c, target) -> exists a, w_from w !! c = Some (Accepted a) /\
    forall ch, target = Some ch -> exists pid k, owns w ch (addrIP a) pid k
}.

Lemma start_inv fb : inv (start fb).
Proof. split; intros *; cbn; unfold owns; cbn; rewrite ?lookup_empty; naive_solver. Qed.

(** A step that keeps the calls' addresses and channels. *)
Lemma same_owner w pid k pk ch ip pid' k' : w_calls w !! pid = Some k -> k_ip pk.2 = k_ip k -> k_inbound pk.2 = k_inbound k ->
  owns (put_call w pid pk) ch ip pid' k' -> exists k0, owns w ch ip pid' k0 /\ (pid' <> pid -> k' = k0) /\ (pid' = pid -> k' = pk.2 /\ k0 = k).
Proof.
  intros Hk Hi Hc (Hl & H1 & H2 & H3). cbn in Hl. destruct (decide (pid' = pid)) as [->|Hne].
  - rewrite lookup_insert_eq in Hl. simplify_eq. exists k. unfold owns. split_and!; (done || congruence).
  - rewrite lookup_insert_ne in Hl by done. exists k'. by split_and!.
Qed.

Lemma owner_kept w pid k pk ch ip pid' k' : w_calls w !! pid = Some k -> k_ip pk.2 = k_ip k -> k_inbound pk.2 = k_inbound k ->
  owns w ch ip pid' k' -> exists k1, owns (put_call w pid pk) ch ip pid' k1 /\ (pid' <> pid -> k1 = k') /\ (pid' = pid -> k1 = pk.2).
Proof.
  intros Hk Hi Hc (Hl & H1 & H2 & H3). unfold owns. cbn. destruct (decide (pid' = pid)) as [->|Hne].
  - rewrite lookup_insert_eq. simplify_eq. exists pk.2. split_and!; (done || congruence).
  - rewrite lookup_insert_ne by done. exists k'. by split_and!.
Qed.

(** What a step of one call may do to the listener: empty its own channel, and
    drop the entry of its own address. *)
Definition touches (p p' : PunchListener) (k : call) : Prop :=
  (chans p' = chans p \/ chans p' = <[k_inbound k := None]> (chans p)) /\
  (forall ip ch, waiters p' !! ip = Some ch -> waiters p !! ip = Some ch).

Lemma put_inv w pid k p' k' : inv w -> w_calls w !! pid = Some k -> k_ip k' = k_ip k -> k_inbound k' = k_inbound k ->
  touches (w_pl w) p' k -> (waiting (k_stage k') = waiting (k_stage k) \/ waiters p' !! k_ip k = None) ->
  call_ok (put_call w pid (p', k')) pid k' -> inv (put_call w pid (p', k')).
Proof.
  intros [H1 H2 H3 H4] Hk Hi Hc [Ht Hw] Hs Hok. split.
  - intros pid2 k2. cbn. destruct (decide (pid2 = pid)) as [->|Hne]; [rewrite lookup_insert_eq; by intros [= <-]|].
    rewrite lookup_insert_ne by done. intros Hk2. destruct (H1 _ _ Hk2) as [A B C D E F]. split; try done.
    intros Hn. destruct (D Hn) as (v & Hv & Hf). cbn. destruct Ht as [->| ->]; [by exists v|].
    destruct (decide (k_inbound k2 = k_inbound k)) as [Heq|Hne2]; [|exists v; by rewrite lookup_insert_ne].
    exists None. rewrite Heq, lookup_insert_eq. by split.
  - intros ch ip ip' p1 p2 k1 k2 O1 O2. apply (same_owner w pid k) in O1 as (? & O1 & _); [|done..].
    apply (same_owner w pid k) in O2 as (? & O2 & _); [|done..]. eapply H2; eauto.
  - intros ip ch Hl. cbn in Hl. destruct (H3 _ _ (Hw _ _ Hl)) as (pid2 & k2 & O & Hwt).
    destruct (owner_kept w pid k (p', k') _ _ _ _ Hk Hi Hc O) as (k3 & O3 & Hd & Hse). exists pid2, k3. split; [done|].
    destruct (decide (pid2 = pid)) as [->|Hne]; [|by rewrite Hd]. rewrite Hse by done.
    destruct O as (Hl2 & _ & Hip & _). assert (k2 = k) by congruence. subst k2. destruct Hs as [Hs|Hs]; [cbn; by rewrite Hs|]. rewrite Hip in Hs. cbn in Hs. congruence.
  - intros c target Hr. destruct (H4 _ _ Hr) as (a & Ha & Hc4). exists a. split; [done|]. intros ch Hch.
    destruct (Hc4 _ Hch) as (p2 & k2 & O). destruct (owner_kept w pid k (p', k') _ _ _ _ Hk Hi Hc O) as (k3 & O3 & _). eauto.
Qed.

Lemma touches_refl p k : touches p p k.
Proof. split; [by left|done]. Qed.

Lemma unregister_touches p p' k ip : touches p p' k -> touches p (unregister p' ip) k.
Proof. intros [H1 H2]. split; [done|]. cbn. intros i ch [_ Hl]%lookup_delete_Some. by apply H2. Qed.

Lemma take_touches p k p' c : take_inbound p k = Some (p', c) ->
  touches p p' k /\ chans p !! k_inbound k = Some (Some c) /\ p' = set_chan p (k_inbound k) None.
Proof.
  unfold take_inbound. destruct (chans p !! k_inbound k) as [[?|]|] eqn:E; [|done..]. intros [= <- <-].
  split; [|done]. split; [by right|done].
Qed.

(** The call that returns is still as it should be. *)
Lemma return_inv w pid k p' k0 r : inv w -> w_calls w !! pid = Some k -> waiting (k_stage k) = true ->
  touches (w_pl w) p' k -> k0 = set_dialed k None \/ k0 = k ->
  (forall c, r = Ok c -> came_from w (k_ip k) c \/ w_from w !! c = Some (Dialled pid)) -> r <> Err NoTarget ->
  inv (put_call w pid (Punch_return p' k0 r)).
Proof.
  intros Hi Hk Hw Ht Hk0 Hr Hnt. unfold Punch_return.
  assert (E : k_ip k0 = k_ip k /\ k_inbound k0 = k_inbound k /\ k_loop k0 = k_loop k /\
    (k_dialed k0 = None \/ k_dialed k0 = k_dialed k)) by (destruct Hk0; subst; cbn; auto).
  destruct E as (E1 & E2 & E3 & E4). pose proof (inv_calls _ Hi _ _ Hk) as [A B C D F G].
  apply (put_inv w pid k); cbn; try done; [rewrite E1; by apply unregister_touches|right; rewrite E1; apply lookup_delete_eq|].
  assert (Hip : k_ip k <> []) by (intros Hn; destruct (A Hn) as (_ & _ & Hs); rewrite Hs in Hw; done).
  split; cbn; rewrite ?E1, ?E2, ?E3; try done.
  - intros Hl. split; [|done]. destruct E4 as [->| ->]; [done|]. by apply B.
  - intros _. destruct (D Hip) as (v & Hv & Hf). destruct Ht as [[->| ->] _]; [by exists v|].
    exists None. rewrite lookup_insert_eq. by split.
  - intros c Hc. destruct E4 as [E4|E4]; [congruence|]. apply F. congruence.
  - intros c [= ->]. by apply Hr.
Qed.

(** The lists of connections given away do not matter to the invariant. *)
Lemma inv_lists w h c : inv w -> inv (mkWorld (w_pl w) (w_calls w) (w_routing w) h c (w_from w)).
Proof. intros [H1 H2 H3 H4]. split; try done. intros pid k Hk. destruct (H1 pid k Hk). by split. Qed.

Definition arrive (w : world) (c : nat) (o : origin) : world :=
  mkWorld (w_pl w) (w_calls w) (w_routing w) (w_handed w) (w_closed w) (<[c := o]> (w_from w)).

Lemma from_mono w c o x y : w_from w !! c = None -> w_from w !! x = Some y -> w_from (arrive w c o) !! x = Some y.
Proof. intros Hc Hx. cbn. rewrite lookup_insert_ne; [done|congruence]. Qed.

Lemma arrive_inv w c o : inv w -> w_from w !! c = None -> inv (arrive w c o).
Proof.
  intros [H1 H2 H3 H4] Hc. assert (Hm : forall ip x, came_from w ip x -> came_from (arrive w c o) ip x)
    by (intros ip x (a & Ha & Hip); exists a; split; [by apply from_mono|done]).
  split; try done.
  - intros pid k Hk. destruct (H1 pid k Hk) as [A B C D E F]. split; try done.
    + intros Hn. destruct (D Hn) as (v & Hv & Hf). exists v. split; [done|]. auto.
    + intros x Hx. by apply from_mono, E.
    + intros x Hx. destruct (F x Hx) as [Hf|Hf]; [left; auto|right; by apply from_mono].
  - intros x t Hr. destruct (H4 x t Hr) as (a & Ha & Ht). exists a. split; [by apply from_mono|done].
Qed.

Lemma accept_inv w c addr : inv w -> w_from w !! c = None -> w_routing w = None ->
  inv (mkWorld (w_pl w) (w_calls w) (Some (c, route_lookup (w_pl w) addr)) (w_handed w) (w_closed w) (<[c := Accepted addr]> (w_from w))).
Proof.
  intros Hi Hc _. pose proof (arrive_inv w c (Accepted addr) Hi Hc) as [H1 H2 H3 H4]. split; try done.
  - intros pid k Hk. destruct (H1 pid k Hk). by split.
  - intros x t [= <- <-]. exists addr. cbn. rewrite lookup_insert_eq. split; [done|]. intros ch Hch.
    destruct (H3 _ _ Hch) as (pid & k & O & _). eauto.
Qed.

Lemma route_inv w c t : inv w -> w_routing w = Some (c, t) -> let '(p1, _) := route_send (w_pl w) c t in
  inv (mkWorld p1 (w_calls w) None (w_handed w) (w_closed w) (w_from w)).
Proof.
  intros Hi Hr. destruct (inv_routing _ Hi _ _ Hr) as (a & Ha & Ht). destruct Hi as [H1 H2 H3 H4].
  assert (Hn : inv (mkWorld (w_pl w) (w_calls w) None (w_handed w) (w_closed w) (w_from w)))
    by (split; try done; intros pid k Hk; destruct (H1 pid k Hk); by split).
  unfold route_send. destruct t as [ch|]; [|done]. destruct (chans (w_pl w) !! ch) as [[?|]|] eqn:E; [done| |done].
  destruct Hn as [N1 N2 N3 N4]. split; try done. intros pid k Hk. destruct (N1 pid k Hk) as [A B C D F G]. split; try done.
  intros Hip. cbn. destruct (decide (k_inbound k = ch)) as [<-|Hne].
  - exists (Some c). rewrite lookup_insert_eq. split; [done|]. intros x [= <-]. exists a. split; [done|].
    destruct (Ht _ eq_refl) as (pid' & k' & O). assert (pid = pid') by (apply (H2 (k_inbound k) (k_ip k) (addrIP a) pid pid' k k'); [by split_and!|done]).
    subst pid'. destruct O as (Hk' & _ & <- & _). cbn in Hk. congruence.
  - rewrite lookup_insert_ne by done. by apply D.
Qed.

Lemma punch_register_inv w pid remote delay : inv w -> w_calls w !! pid = None -> inv (put_call w pid (Punch_start (w_pl w) remote delay)).
Proof.
  intros [H1 H2 H3 H4] Hp.
  assert (Hold : forall ch ip p k pk, owns w ch ip p k -> owns (put_call w pid pk) ch ip p k).
  { intros ch ip p k pk (Hl & ?). split; [|done]. cbn. rewrite lookup_insert_ne; [done|congruence]. }
  unfold Punch_start. case_decide as Hip.
  { split.
    - intros p k. cbn. destruct (decide (p = pid)) as [->|Hne]; [rewrite lookup_insert_eq; by intros [= <-]|].
      rewrite lookup_insert_ne by done. intros Hk. destruct (H1 _ _ Hk). by split.
    - intros ch ip ip' p1 p2 k1 k2 (L1 & A1 & B1 & C1) (L2 & A2 & B2 & C2). cbn in L1, L2.
      destruct (decide (p1 = pid)) as [->|]; [rewrite lookup_insert_eq in L1; by simplify_eq|].
      destruct (decide (p2 = pid)) as [->|]; [rewrite lookup_insert_eq in L2; by simplify_eq|].
      rewrite lookup_insert_ne in L1, L2 by done. apply (H2 ch ip ip' p1 p2 k1 k2); by split_and!.
    - intros ip ch Hl. destruct (H3 _ _ Hl) as (p & k & O & Hw). eauto 6.
    - intros c t Hr. destruct (H4 _ _ Hr) as (a & Ha & Ht). exists a. split; [done|]. intros ch Hch.
      destruct (Ht _ Hch) as (p & k & O). eauto. }
  set (ip0 := addrIP remote) in *. cbn [register]. set (ch0 := fresh _).
  assert (Hch0 : chans (w_pl w) !! ch0 = None).
  { apply not_elem_of_dom. rewrite <- elem_of_elements. apply infinite_is_fresh. }
  assert (Hnew : forall ch ip p k, owns w ch ip p k -> ch <> ch0).
  { intros ch ip p k (Hl & <- & Hi & Hn) Heq. rewrite <- Hi in Hn. destruct (ok_chan _ _ _ (H1 _ _ Hl) Hn) as (v & Hv & _). congruence. }
  set (p1 := mkPunchListener _ _ _).
  set (k0 := if decide (0 < delay) then mkCall ip0 ch0 None false Delaying else start_race (mkCall ip0 ch0 None false Delaying)).
  assert (Hk0 : k_ip k0 = ip0 /\ k_inbound k0 = ch0 /\ k_dialed k0 = None /\ waiting (k_stage k0) = true /\ (k_loop k0 = true -> k_stage k0 = Racing))
    by (unfold k0; case_decide; by split_and!).
  clearbody k0. destruct Hk0 as (K1 & K2 & K3 & K4 & K5). split.
  - intros p k. cbn. destruct (decide (p = pid)) as [->|Hne].
    + rewrite lookup_insert_eq. intros [= <-]. split; rewrite ?K1, ?K2, ?K3; try done.
      * intros Hl. by rewrite K5.
      * intros _. exists None. cbn. rewrite lookup_insert_eq. by split.
      * intros c Hc. rewrite Hc in K4. done.
    + rewrite lookup_insert_ne by done. intros Hk. destruct (H1 _ _ Hk) as [A B C D E F]. split; try done.
      intros Hn. destruct (D Hn) as (v & Hv & Hf). exists v. cbn. rewrite lookup_insert_ne; [done|congruence].
  - intros ch ip ip' q1 q2 k1 k2 (L1 & A1 & B1 & C1) (L2 & A2 & B2 & C2). cbn in L1, L2.
    destruct (decide (q1 = pid)) as [->|N1], (decide (q2 = pid)) as [->|N2]; [done|..].
    + rewrite lookup_insert_eq in L1. rewrite lookup_insert_ne in L2 by done. exfalso. apply (Hnew ch ip' q2 k2); [done|congruence].
    + rewrite lookup_insert_ne in L1 by done. rewrite lookup_insert_eq in L2. exfalso.
      apply (Hnew ch ip q1 k1); [done|congruence].
    + rewrite lookup_insert_ne in L1, L2 by done. by apply (H2 ch ip ip' q1 q2 k1 k2).
  - intros ip ch. cbn. destruct (decide (ip = ip0)) as [->|Hne].
    + rewrite lookup_insert_eq. intros [= <-]. exists pid, k0. split; [|done]. split_and!; try done. cbn. by rewrite lookup_insert_eq.
    + rewrite lookup_insert_ne by done. intros Hl. destruct (H3 _ _ Hl) as (p & k & O & Hw). exists p, k. split; [by apply Hold|done].
  - intros c t Hr. destruct (H4 _ _ Hr) as (a & Ha & Ht). exists a. split; [done|]. intros ch Hch.
    destruct (Ht _ Hch) as (p & k & O). eauto.
Qed.

Lemma inbound_inv w pid k pk : inv w -> w_calls w !! pid = Some k -> waiting (k_stage k) = true ->
  Punch_inbound (w_pl w) k = Some pk -> inv (put_call w pid pk).
Proof.
  intros Hi Hk Hw. unfold Punch_inbound. destruct (take_inbound (w_pl w) k) as [[p1 c]|] eqn:E; [|done]. intros [= <-].
  apply take_touches in E as (Ht & Hc & _). apply (return_inv w pid k); try done; [by right|]. intros x [= <-]. left.
  pose proof (inv_calls _ Hi _ _ Hk) as [A _ _ D _ _].
  assert (Hip : k_ip k <> []) by (intros Hn; destruct (A Hn) as (_ & _ & Hs); rewrite Hs in Hw; done).
  destruct (D Hip) as (v & Hv & Hf). apply Hf. congruence.
Qed.

Lemma dialed_inv w pid k pk : inv w -> w_calls w !! pid = Some k -> waiting (k_stage k) = true ->
  Punch_dialed (w_pl w) k = Some pk -> inv (put_call w pid pk).
Proof.
  intros Hi Hk Hw. unfold Punch_dialed. destruct (k_dialed k) as [c|] eqn:E; [|done]. intros [= <-].
  apply (return_inv w pid k); try done; [apply touches_refl|by left|]. intros x [= <-]. right.
  by apply (ok_dialed _ _ _ (inv_calls _ Hi _ _ Hk)).
Qed.

Lemma done_inv w pid k first pk : inv w -> w_calls w !! pid = Some k ->
  Punch_done (w_pl w) k first = Some pk -> inv (put_call w pid pk).
Proof.
  intros Hi Hk. unfold Punch_done. destruct (k_stage k) as [| |r] eqn:Es; [| |done].
  - intros [= <-]. apply (return_inv w pid k); try done; [by rewrite Es|apply touches_refl|by right].
  - assert (Hw : waiting (k_stage k) = true) by by rewrite Es.
    pose proof (inbound_inv w pid k) as HI. pose proof (dialed_inv w pid k) as HD.
    destruct (Punch_inbound (w_pl w) k) as [a|], (Punch_dialed (w_pl w) k) as [b|]; intros [= <-]; auto.
    + destruct first; auto.
    + apply (return_inv w pid k); try done; [apply touches_refl|by right].
Qed.

Lemma punch_step_inv w e w' : inv w -> step w e = Some w' -> inv w'.
Proof.
  intros Hi. destruct e as [c a| |pid remote delay|pid|pid|pid|pid first|pid c|pid]; cbn [step].
  - destruct (w_from w !! c) eqn:Ef, (w_routing w) eqn:Er; try done. intros [= <-]. by apply accept_inv.
  - destruct (w_routing w) as [[c t]|] eqn:Er; [|done]. cbn. pose proof (route_inv w c t Hi Er) as H.
    destruct (route_send _ _ _) as [p1 r]. intros [= <-]. exact (inv_lists _ _ _ H).
  - destruct (w_calls w !! pid) eqn:E; [done|]. intros [= <-]. by apply punch_register_inv.
  - destruct (w_calls w !! pid) as [k|] eqn:E; [|done]. cbn. destruct (k_stage k) eqn:Es; [|done..]. intros [= <-].
    apply (put_inv w pid k); try done; [apply touches_refl|left; by rewrite Es|].
    pose proof (inv_calls _ Hi _ _ E) as [A B C D F G]. split; try done. cbn. intros Hn. destruct (A Hn) as (_ & _ & Hs). congruence.
  - destruct (w_calls w !! pid) as [k|] eqn:E; [|done]. cbn. destruct (waiting (k_stage k)) eqn:Ew; [|done].
    destruct (Punch_inbound _ k) eqn:Ep; [|done]. intros [= <-]. by apply (inbound_inv w pid k).
  - destruct (w_calls w !! pid) as [k|] eqn:E; [|done]. cbn. destruct (k_stage k) eqn:Es; [done| |done].
    destruct (Punch_dialed _ k) eqn:Ep; [|done]. intros [= <-]. apply (dialed_inv w pid k); try done. by rewrite Es.
  - destruct (w_calls w !! pid) as [k|] eqn:E; [|done]. cbn. destruct (Punch_done _ k first) eqn:Ep; [|done].
    intros [= <-]. by apply (done_inv w pid k first).
  - destruct (w_calls w !! pid) as [k|] eqn:E; [|done]. cbn. destruct (w_from w !! c) eqn:Ef; [done|].
    destruct (k_loop k) eqn:El; [|done]. unfold dial_ok. pose proof (inv_calls _ Hi _ _ E) as [A B C D F G].
    destruct (B El) as [-> Hd]. intros [= <-].
    assert (inv (put_call (arrive w c (Dialled pid)) pid (w_pl w, stop_loop (set_dialed k (Some c))))) as H.
    { pose proof (arrive_inv w c (Dialled pid) Hi Ef) as Hi2. pose proof (inv_calls _ Hi2 _ _ E) as [A2 B2 C2 D2 F2 G2].
      assert (Hip : k_ip k <> []) by (intros Hn; destruct (A Hn); congruence).
      apply (put_inv (arrive w c (Dialled pid)) pid k); try done; [apply touches_refl|by left|].
      split; try done. cbn. intros x [= <-]. cbn. by rewrite lookup_insert_eq. }
    exact H.
  - destruct (w_calls w !! pid) as [k|] eqn:E; [|done]. cbn. destruct (k_loop k) eqn:El; [|done]. intros [= <-].
    apply (put_inv w pid k); try done; [apply touches_refl|by left|]. pose proof (inv_calls _ Hi _ _ E) as [A B C D F G].
    split; try done. cbn. intros Hn. destruct (A Hn). congruence.
Qed.

(** ** Where connections are *)
Inductive place := InRoute | InChannel (ch : nat) | InDialed (pid : nat) | ReturnedBy (pid : nat) | Handed | Closed.

#[export] Instance place_eq_dec : EqDecision place.
Proof. solve_decision. Defined.

Definition result (k : call) : option nat := match k_stage k with Returned (Ok c) => Some c | _ => None end.

Definition at_place (w : world) (c : nat) (p : place) : Prop :=
  match p with
  | InRoute => fst <$> w_routing w = Some c
  | InChannel ch => chans (w_pl w) !! ch = Some (Some c)
  | InDialed pid => w_calls w !! pid ≫= k_dialed = Some c
  | ReturnedBy pid => w_calls w !! pid ≫= result = Some c
  | Handed => c ∈ w_handed w
  | Closed => c ∈ w_closed w
  end.

(** Every connection there has been is in exactly one place. *)
Record conserved (w : world) : Prop := {
  cs_somewhere : forall c, is_Some (w_from w !! c) -> exists p, at_place w c p;
  cs_once : forall c p q, at_place w c p -> at_place w c q -> p = q;
  cs_known : forall c p, at_place w c p -> is_Some (w_from w !! c)
}.

(** The effect of a step on one connection. *)
Definition moved (w w' : world) (c : nat) (q : place) : Prop :=
  (forall x p, at_place w' x p <-> x <> c /\ at_place w x p \/ x = c /\ p = q) /\
  (forall x, is_Some (w_from w' !! x) <-> is_Some (w_from w !! x) \/ x = c).

Definition stayed (w w' : world) : Prop := (forall x p, at_place w' x p <-> at_place w x p) /\ w_from w' = w_from w.

Lemma moved_conserved w w' c q : moved w w' c q -> conserved w -> conserved w'.
Proof.
  intros [Hp Hf] [H1 H2 H3]. split.
  - intros x. rewrite Hf. destruct (decide (x = c)) as [->|Hne]; [intros _; exists q; apply Hp; by right|].
    intros [Hx|Hx]; [|done]. destruct (H1 x Hx) as [p Hp']. exists p. apply Hp. by left.
  - intros x p1 p2. rewrite !Hp. intros [[? ?]|[? ?]] [[? ?]|[? ?]]; subst; try done. by eapply H2.
  - intros x p. rewrite Hp, Hf. intros [[? ?]|[? ?]]; [left; by eapply H3|by right].
Qed.

Lemma stayed_conserved w w' : stayed w w' -> conserved w -> conserved w'.
Proof.
  intros [Hp Hf] [H1 H2 H3]. split; rewrite ?Hf.
  - intros x Hx. destruct (H1 x Hx) as [p Hp']. exists p. by apply Hp.
  - intros x p q. rewrite !Hp. apply H2.
  - intros x p. rewrite Hp. apply H3.
Qed.

Lemma start_conserved fb : conserved (start fb).
Proof. split; [intros c; cbn; rewrite lookup_empty; by intros []|intros c p q|intros c p]; destruct p; cbn; rewrite ?lookup_empty; try done; intros H; by apply elem_of_nil in H. Qed.

(** A connection leaves [old], a place for one, or arrives, and goes to [q]. *)
Lemma moved_intro w w' c q old : conserved w ->
  (forall p, old = Some p -> at_place w c p /\ forall x, at_place w x p -> x = c) -> (old = None -> w_from w !! c = None) ->
  (forall x p, p <> q -> old <> Some p -> at_place w' x p <-> at_place w x p) ->
  (forall x, at_place w' x q <-> x = c \/ at_place w x q) -> (forall p x, old = Some p -> ~ at_place w' x p) -> old <> Some q ->
  (forall x, is_Some (w_from w' !! x) <-> is_Some (w_from w !! x) \/ x = c) -> moved w w' c q.
Proof.
  intros [H1 H2 H3] Ho Hn Hs Hq Hg Hd Hf. split; [|done].
  assert (Hc : forall p, at_place w c p -> old = Some p).
  { intros p Hp. destruct old as [p0|]; [f_equal; eapply H2; [by apply Ho|done]|]. destruct (H3 _ _ Hp). specialize (Hn eq_refl). congruence. }
  intros x p. destruct (decide (old = Some p)) as [E|E].
  - split; [intros Hx; by apply Hg in Hx|]. intros [[Hx Hp]|[-> ->]]; [|done]. destruct Hx. by apply (Ho p).
  - destruct (decide (p = q)) as [->|Hne].
    + rewrite Hq. split; [intros [->|Hx]; [by right|left]|intros [[_ Hx]|[-> _]]; by auto].
      split; [|done]. intros ->. by apply Hd, Hc.
    + rewrite Hs by done. split; [intros Hx; left; split; [intros ->; by apply E, Hc|done]|by intros [[_ ?]|[_ ?]]].
Qed.

(** What one call holds, after another's change. *)
Lemma other_call w pid pk pid' {A} (f : call -> option A) : pid' <> pid ->
  w_calls (put_call w pid pk) !! pid' ≫= f = w_calls w !! pid' ≫= f.
Proof. intros Hne. cbn. by rewrite lookup_insert_ne. Qed.

Lemma this_call w pid pk {A} (f : call -> option A) : w_calls (put_call w pid pk) !! pid ≫= f = f pk.2.
Proof. cbn. by rewrite lookup_insert_eq. Qed.

Ltac at_call pid := match goal with |- context [w_calls (put_call _ pid _) !! ?q ≫= _] =>
  destruct (decide (q = pid)) as [->|]; [rewrite this_call|rewrite other_call by done] end.

(** A call that takes a connection from one of its channels returns it. *)
Lemma inbound_moved w pid k pk : conserved w -> w_calls w !! pid = Some k -> waiting (k_stage k) = true ->
  Punch_inbound (w_pl w) k = Some pk -> exists c, moved w (put_call w pid pk) c (ReturnedBy pid).
Proof.
  intros Hcs Hk Hw. unfold Punch_inbound. destruct (take_inbound (w_pl w) k) as [[p1 c]|] eqn:E; [|done]. intros [= <-].
  apply take_touches in E as (_ & Hc & ->). exists c. apply (moved_intro _ _ _ _ (Some (InChannel (k_inbound k)))); try done.
  - intros p [= <-]. cbn. split; [done|]. intros x Hx. congruence.
  - intros x p Hq Ho. destruct p as [|ch|pid'|pid'| |]; cbn -[put_call]; try done.
    + cbn. rewrite lookup_insert_ne; [done|congruence].
    + at_call pid; [cbn; by rewrite Hk|done].
    + at_call pid; done.
  - intros x. cbn -[put_call]. rewrite this_call, Hk. cbn. unfold result. destruct (k_stage k); naive_solver.
  - intros p x [= <-]. cbn. by rewrite lookup_insert_eq.
  - intros x. cbn. split; [by left|intros [?| ->]; [done|by apply (cs_known _ Hcs c (InChannel (k_inbound k)))]].
Qed.

Lemma dialed_moved w pid k pk : conserved w -> w_calls w !! pid = Some k -> waiting (k_stage k) = true ->
  Punch_dialed (w_pl w) k = Some pk -> exists c, moved w (put_call w pid pk) c (ReturnedBy pid).
Proof.
  intros Hcs Hk Hw. unfold Punch_dialed. destruct (k_dialed k) as [c|] eqn:E; [|done]. intros [= <-].
  exists c. assert (Hp : at_place w c (InDialed pid)) by (cbn; by rewrite Hk).
  apply (moved_intro _ _ _ _ (Some (InDialed pid))); try done.
  - intros p [= <-]. split; [done|]. intros x Hx. cbn in Hx, Hp. congruence.
  - intros x p Hq Ho. destruct p as [|ch|pid'|pid'| |]; cbn -[put_call]; try done; at_call pid; done.
  - intros x. cbn -[put_call]. rewrite this_call, Hk. cbn. unfold result. destruct (k_stage k); naive_solver.
  - intros p x [= <-]. cbn -[put_call]. by rewrite this_call.
  - intros x. cbn. split; [by left|intros [?| ->]; [done|by apply (cs_known _ Hcs c (InDialed pid))]].
Qed.

(** A step that moves nothing out of or into a call. *)
Lemma call_stayed w pid p' k' : chans p' = chans (w_pl w) -> (w_calls w !! pid ≫= k_dialed) = k_dialed k' ->
  (w_calls w !! pid ≫= result) = result k' -> stayed w (put_call w pid (p', k')).
Proof.
  intros H1 H2 H3. split; [|done]. intros x p. destruct p as [|ch|pid'|pid'| |]; cbn -[put_call]; try done.
  - cbn. by rewrite H1.
  - at_call pid; [by rewrite H2|done].
  - at_call pid; [by rewrite H3|done].
Qed.

Lemma accept_moved w c a : conserved w -> w_from w !! c = None -> w_routing w = None ->
  moved w (mkWorld (w_pl w) (w_calls w) (Some (c, route_lookup (w_pl w) a)) (w_handed w) (w_closed w) (<[c := Accepted a]> (w_from w))) c InRoute.
Proof.
  intros Hcs Ef Er. apply (moved_intro _ _ _ _ None); try done.
  - intros x p Hq _. by destruct p.
  - intros x. cbn. rewrite Er. naive_solver.
  - intros x. cbn. rewrite lookup_insert_is_Some. destruct (decide (c = x)); naive_solver.
Qed.

Lemma route_cases p c t : let '(p1, r) := route_send p c t in
  p1 = p /\ (r = ToFallback \/ r = ToClose) \/
  exists ch, r = ToPunch ch /\ t = Some ch /\ chans p !! ch = Some None /\ p1 = set_chan p ch (Some c).
Proof.
  unfold route_send. destruct t as [ch|]; [|left; split; [done|]; destruct (fallback p); auto].
  destruct (chans p !! ch) as [[?|]|] eqn:E; [left|right; by eauto|left]; (split; [done|]; destruct (fallback p); auto).
Qed.

Lemma route_moved w c t : conserved w -> w_routing w = Some (c, t) -> let '(p1, r) := route_send (w_pl w) c t in
  exists q, moved w (mkWorld p1 (w_calls w) None (match r with ToFallback => c :: w_handed w | _ => w_handed w end)
              (match r with ToClose => c :: w_closed w | _ => w_closed w end) (w_from w)) c q.
Proof.
  intros Hcs Er. assert (Hp : at_place w c InRoute) by (cbn; by rewrite Er).
  assert (Ho : forall p, Some InRoute = Some p -> at_place w c p /\ forall x, at_place w x p -> x = c)
    by (intros p [= <-]; split; [done|]; cbn; rewrite Er; cbn; congruence).
  assert (Hf : forall x, is_Some (w_from w !! x) <-> is_Some (w_from w !! x) \/ x = c)
    by (intros x; split; [by left|intros [?| ->]; [done|by apply (cs_known _ Hcs c InRoute)]]).
  pose proof (route_cases (w_pl w) c t) as Hr. destruct (route_send (w_pl w) c t) as [p1 r].
  destruct Hr as [[-> [-> | ->]]|(ch & -> & _ & Hch & ->)]; [exists Handed|exists Closed|exists (InChannel ch)];
    (apply (moved_intro _ _ _ _ (Some InRoute)); try done; [| |by intros p x [= <-]]).
  - intros x p ? ?. by destruct p.
  - intros x. cbn. by rewrite elem_of_cons.
  - intros x p ? ?. by destruct p.
  - intros x. cbn. by rewrite elem_of_cons.
  - intros x p ? ?. destruct p; try done. cbn. rewrite lookup_insert_ne; [done|congruence].
  - intros x. cbn. rewrite lookup_insert_eq, Hch. naive_solver.
Qed.

Lemma punch_stayed w pid remote delay : w_calls w !! pid = None -> stayed w (put_call w pid (Punch_start (w_pl w) remote delay)).
Proof.
  intros E. unfold Punch_start. case_decide; [by apply call_stayed; rewrite ?E|]. cbn [register]. set (ch0 := fresh _).
  assert (Hch0 : chans (w_pl w) !! ch0 = None) by (apply not_elem_of_dom; rewrite <- elem_of_elements; apply infinite_is_fresh).
  split; [|done]. intros x p. destruct p as [|ch|pid'|pid'| |]; cbn -[put_call]; try done.
  - cbn. destruct (decide (ch = ch0)) as [->|]; [by rewrite lookup_insert_eq, Hch0|by rewrite lookup_insert_ne].
  - at_call pid; [rewrite E; by case_decide|done].
  - at_call pid; [rewrite E; by case_decide|done].
Qed.

Lemma dial_moved w pid k c k1 sent : inv w -> conserved w -> w_calls w !! pid = Some k -> w_from w !! c = None ->
  k_loop k = true -> dial_ok k c = (k1, sent) -> sent = true /\
  moved w (mkWorld (w_pl w) (<[pid := k1]> (w_calls w)) (w_routing w) (w_handed w) (w_closed w) (<[c := Dialled pid]> (w_from w))) c (InDialed pid).
Proof.
  intros Hi Hcs E Ef El. destruct (ok_loop _ _ _ (inv_calls _ Hi _ _ E) El) as [Hd _]. unfold dial_ok. rewrite Hd.
  intros [= <- <-]. split; [done|]. apply (moved_intro _ _ _ _ None); try done.
  - intros x p Hq _. destruct p as [|ch|pid'|pid'| |]; try done; cbn.
    + rewrite lookup_insert_ne; [done|congruence].
    + destruct (decide (pid' = pid)) as [->|]; [rewrite lookup_insert_eq, E; done|by rewrite lookup_insert_ne].
  - intros x. cbn. rewrite lookup_insert_eq, E. cbn. rewrite Hd. naive_solver.
  - intros x. cbn. rewrite lookup_insert_is_Some. destruct (decide (c = x)); naive_solver.
Qed.

(** How the end of the context ends a call. *)
Lemma done_cases w pid k first pk : conserved w -> w_calls w !! pid = Some k -> Punch_done (w_pl w) k first = Some pk ->
  waiting (k_stage k) = true /\
  (Punch_inbound (w_pl w) k = Some pk \/ Punch_dialed (w_pl w) k = Some pk \/
   exists e, pk = Punch_return (w_pl w) k (Err e)).
Proof.
  intros Hcs E. unfold Punch_done. destruct (k_stage k) eqn:Es; [| |done].
  - intros [= <-]. eauto.
  - destruct (Punch_inbound _ k), (Punch_dialed _ k); intros [= <-]; try destruct first; eauto 6.
Qed.

Lemma return_stayed w pid k e : w_calls w !! pid = Some k -> waiting (k_stage k) = true ->
  stayed w (put_call w pid (Punch_return (w_pl w) k (Err e))).
Proof. intros E Hw. apply call_stayed; rewrite ?E; try done. cbn. unfold result. by destruct (k_stage k). Qed.

Lemma step_conserved w e w' : inv w -> conserved w -> step w e = Some w' -> conserved w'.
Proof.
  intros Hi Hcs. destruct e as [c a| |pid remote delay|pid|pid|pid|pid first|pid c|pid]; cbn [step].
  2: { destruct (w_routing w) as [[c t]|] eqn:Er; [|done]. cbn. pose proof (route_moved w c t Hcs Er) as Hm.
       destruct (route_send (w_pl w) c t) as [p1 r]. destruct Hm as [q Hm]. intros [= <-]. by eapply moved_conserved. }
  { destruct (w_from w !! c) eqn:Ef, (w_routing w) eqn:Er; try done. intros [= <-]. by eapply moved_conserved, Hcs; apply accept_moved. }
  all: destruct (w_calls w !! pid) as [k|] eqn:E; try done; cbn.
  - intros [= <-]. by eapply stayed_conserved, Hcs; apply punch_stayed.
  - destruct (k_stage k) eqn:Es; [|done..]. intros [= <-]. eapply stayed_conserved, Hcs. apply call_stayed; rewrite ?E; try done; cbn.
    + by apply (ok_delay _ _ _ (inv_calls _ Hi _ _ E)).
    + unfold result. by rewrite Es.
  - destruct (waiting (k_stage k)) eqn:Ew; [|done]. destruct (Punch_inbound _ k) eqn:Ep; [|done]. intros [= <-].
    destruct (inbound_moved w pid k _ Hcs E Ew Ep). by eapply moved_conserved.
  - destruct (k_stage k) eqn:Es; [done| |done]. destruct (Punch_dialed _ k) eqn:Ep; [|done]. intros [= <-].
    destruct (dialed_moved w pid k _ Hcs E ltac:(by rewrite Es) Ep). by eapply moved_conserved.
  - destruct (Punch_done _ k first) eqn:Ep; [|done]. intros [= <-].
    destruct (done_cases w pid k first _ Hcs E Ep) as [Hw [Hp|[Hp|[x ->]]]].
    + destruct (inbound_moved w pid k _ Hcs E Hw Hp). by eapply moved_conserved.
    + destruct (dialed_moved w pid k _ Hcs E Hw Hp). by eapply moved_conserved.
    + by eapply stayed_conserved, Hcs; apply return_stayed.
  - destruct (w_from w !! c) eqn:Ef; [done|]. destruct (k_loop k) eqn:El; [|done]. destruct (dial_ok k c) as [k1 sent] eqn:Ed.
    intros [= <-]. destruct (dial_moved w pid k c k1 sent Hi Hcs E Ef El Ed) as [-> Hm]. by eapply moved_conserved.
  - destruct (k_loop k) eqn:El; [|done]. intros [= <-]. eapply stayed_conserved, Hcs. by apply call_stayed; rewrite ?E.
Qed.

(** ** Runs *)
Lemma run_invariant (P : world -> Prop) w es w' : (forall w e w', P w -> step w e = Some w' -> P w') -> P w ->
  run w es = Some w' -> P w'.
Proof.
  intros Hs. unfold run. revert w. induction es as [|e es IH]; intros w Hp; cbn; [by intros [= <-]|].
  destruct (step w e) as [w1|] eqn:E; [by apply IH, (Hs w e)|].
  assert (Hn : foldl (fun w e => w ≫= fun w => step w e) None es = None) by (clear; by induction es). by rewrite Hn.
Qed.

Definition sound (w : world) : Prop := inv w /\ conserved w /\ (fallback (w_pl w) = true -> w_closed w = []).

Lemma fallback_kept p k r pk : Punch_inbound p k = Some pk \/ Punch_dialed p k = Some pk \/ pk = Punch_return p k r ->
  fallback pk.1 = fallback p.
Proof.
  unfold Punch_inbound, Punch_dialed. intros [H|[H| ->]]; [|by destruct (k_dialed k); simplify_option_eq|done].
  destruct (take_inbound p k) as [[p1 c]|] eqn:E; [|done]. apply take_touches in E as (_ & _ & ->). by simplify_option_eq.
Qed.

Lemma step_sound w e w' : sound w -> step w e = Some w' -> sound w'.
Proof.
  intros (Hi & Hc & Hf) Hs. split; [by eapply punch_step_inv|]. split; [by eapply step_conserved|].
  revert Hs. destruct e as [c a| |pid remote delay|pid|pid|pid|pid first|pid c|pid]; cbn [step].
  2: { destruct (w_routing w) as [[c t]|]; [|done]. cbn. pose proof (route_cases (w_pl w) c t) as Hr.
       unfold route_send in *. destruct (match t with Some _ => _ | None => _ end) as [p1 r] eqn:Ep. intros [= <-]. cbn.
       destruct Hr as [[-> [-> | ->]]|(ch & -> & _ & _ & ->)]; try done. intros Hfb. rewrite Hfb in Ep.
       destruct t as [ch|]; [destruct (chans _ !! ch) as [[?|]|]|]; done. }
  { destruct (w_from w !! c), (w_routing w); try done. by intros [= <-]. }
  all: destruct (w_calls w !! pid) as [k|] eqn:E; try done; cbn.
  - intros [= <-]. unfold Punch_start. case_decide; done.
  - destruct (k_stage k); try done. by intros [= <-].
  - destruct (waiting _); [|done]. destruct (Punch_inbound _ k) eqn:Ep; [|done]. intros [= <-]. cbn.
    by erewrite (fallback_kept _ k (Err NoTarget)) by eauto.
  - destruct (k_stage k); try done. destruct (Punch_dialed _ k) eqn:Ep; [|done]. intros [= <-]. cbn.
    by erewrite (fallback_kept _ k (Err NoTarget)) by eauto.
  - destruct (Punch_done _ k first) eqn:Ep; [|done]. intros [= <-]. cbn.
    destruct (done_cases w pid k first _ Hc E Ep) as [Hw [Hp|[Hp|[x Hp]]]];
      [erewrite (fallback_kept _ k (Err NoTarget)) by eauto..|erewrite (fallback_kept _ k (Err x)) by eauto]; done.
  - destruct (w_from w !! c) eqn:Ef; [done|]. destruct (k_loop k) eqn:El; [|done]. destruct (dial_ok k c) as [k1 sent] eqn:Ed.
    destruct (dial_moved w pid k c k1 sent Hi Hc E Ef El Ed) as [-> _]. by intros [= <-].
  - destruct (k_loop k); [|done]. by intros [= <-].
Qed.

Lemma run_sound fb es w : run (start fb) es = Some w -> sound w.
Proof.
  apply run_invariant; [intros ? ? ?; apply step_sound|]. split; [apply start_inv|]. split; [apply start_conserved|done].
Qed.

(** C18: under every interleaving of the accept loop, any number of punches and
    their dial loops, each connection ever accepted or dialled is in exactly one
    place: inside [route], in a channel, returned by one punch, handed to the
    fallback or closed.  A punch returns only a connection that came from the
    address it was asked to reach or that it dialled itself, and with a fallback
    nothing that arrived is thrown away. *)
Theorem punch_conserves fb es w : run (start fb) es = Some w ->
  (forall c, is_Some (w_from w !! c) -> exists p, at_place w c p /\ forall q, at_place w c q -> q = p) /\
  (forall pid k c, w_calls w !! pid = Some k -> k_stage k = Returned (Ok c) ->
     came_from w (k_ip k) c \/ w_from w !! c = Some (Dialled pid)) /\
  (fallback (w_pl w) = true -> w_closed w = []).
Proof.
  intros (Hi & [H1 H2 H3] & Hf)%run_sound. split_and!; [|intros pid k c Hk; by apply (ok_result _ _ _ (inv_calls _ Hi _ _ Hk))|done].
  intros c Hc. destruct (H1 c Hc) as [p Hp]. exists p. split; [done|]. intros q Hq. by eapply H2.
Qed.

(** A punch cannot hang: while it waits, the end of its context makes it
    return, whatever else has happened.  Once it was racing, it reports failure
    exactly when neither direction has delivered a connection, and it leaves no
    waiter behind for its address. *)
Theorem punch_returns fb es w pid k first : run (start fb) es = Some w ->
  w_calls w !! pid = Some k -> waiting (k_stage k) = true ->
  exists w' r, step w (EvDone pid first) = Some w' /\ k_stage <$> w_calls w' !! pid = Some (Returned r) /\
    waiters (w_pl w') !! k_ip k = None /\
    (k_stage k = Racing -> r = Err ErrPunchFailed <-> k_dialed k = None /\ forall c, ~ at_place w c (InChannel (k_inbound k))).
Proof.
  intros (Hi & _)%run_sound Hk Hw. cbn [step]. rewrite Hk. cbn. unfold Punch_done.
  destruct (k_stage k) eqn:Es; [| |done].
  { eexists _, _. split; [done|]. cbn. rewrite lookup_insert_eq. split; [done|]. split; [apply lookup_delete_eq|done]. }
  unfold Punch_inbound, Punch_dialed, take_inbound, at_place.
  destruct (chans (w_pl w) !! k_inbound k) as [[c|]|] eqn:Ec; destruct (k_dialed k) as [d|] eqn:Ed; cbn; try destruct first;
    (eexists _, _; split; [done|]; cbn; rewrite lookup_insert_eq; split; [done|]; split; [apply lookup_delete_eq|]);
    (intros _; split; [intros H; try discriminate H; split; congruence|intros [H1 H2]; try done; try (by destruct (H2 c)); try (by destruct (H2 c eq_refl))]).
Qed.

(** ** Connections nobody takes *)

(** A connection in a channel of a punch that has returned. *)
Definition stranded (w : world) (pid c : nat) (p : place) : Prop :=
  exists k, w_calls w !! pid = Some k /\ waiting (k_stage k) = false /\ k_ip k <> [] /\
    (p = InChannel (k_inbound k) \/ p = InDialed pid) /\ at_place w c p.

(** Another call's step leaves it there. *)
Lemma put_stranded w pid c p pid' k' p' k'' : inv w -> stranded w pid c p -> w_calls w !! pid' = Some k' -> pid' <> pid ->
  touches (w_pl w) p' k' -> k_ip k' <> [] -> stranded (put_call w pid' (p', k'')) pid c p.
Proof.
  intros Hi (k & Hk & Hw & Hip & Hp & Ha) Hk' Hne [Ht _] Hip'. exists k. cbn. rewrite lookup_insert_ne by done. split_and!; try done.
  destruct Hp as [-> | ->]; cbn in *; [|by rewrite lookup_insert_ne].
  destruct Ht as [->| ->]; [done|]. rewrite lookup_insert_ne; [done|]. intros E. apply Hne.
  apply (inv_owner _ Hi (k_inbound k') (k_ip k') (k_ip k) pid' pid k' k); by split_and!.
Qed.

Lemma return_touches p k pk r : Punch_inbound p k = Some pk \/ Punch_dialed p k = Some pk \/ pk = Punch_return p k r -> touches p pk.1 k.
Proof.
  unfold Punch_inbound, Punch_dialed. intros [H|[H| ->]]; [|destruct (k_dialed k); [|done]; simplify_eq/=|];
    try (by apply unregister_touches, touches_refl).
  destruct (take_inbound p k) as [[p1 c]|] eqn:E; [|done]. apply take_touches in E as (Ht & _ & _). simplify_eq/=. by apply unregister_touches.
Qed.

Lemma step_stranded w pid c p e w' : inv w -> conserved w -> stranded w pid c p -> step w e = Some w' -> stranded w' pid c p.
Proof.
  intros Hi Hc Hs. pose proof Hs as (k & Hk & Hw & Hip & Hp & Ha).
  assert (Hlive : forall q k', w_calls w !! q = Some k' -> waiting (k_stage k') = true -> q <> pid /\ k_ip k' <> []).
  { intros q k' Hq Hl. split; [congruence|]. intros Hn. destruct (ok_target _ _ _ (inv_calls _ Hi _ _ Hq) Hn) as (_ & _ & Hr). by rewrite Hr in Hl. }
  destruct e as [x a| |q remote delay|q|q|q|q first|q x|q]; cbn [step].
  2: { destruct (w_routing w) as [[x t]|]; [|done]. cbn. pose proof (route_cases (w_pl w) x t) as Hr.
       destruct (route_send (w_pl w) x t) as [p1 r]. intros [= <-]. exists k. split_and!; try done.
       destruct Hp as [-> | ->]; [|done]. cbn in *. destruct Hr as [[-> _]|(ch & _ & _ & Hch & ->)]; [done|]. cbn.
       rewrite lookup_insert_ne; [done|congruence]. }
  { destruct (w_from w !! x), (w_routing w); try done. intros [= <-]. exists k. split_and!; try done. by destruct Hp as [-> | ->]. }
  all: destruct (w_calls w !! q) as [k'|] eqn:E; try done; cbn.
  - intros [= <-]. exists k. assert (q <> pid) by congruence. cbn. rewrite lookup_insert_ne by done. split_and!; try done.
    destruct (punch_stayed w q remote delay E) as [Hst _]. by apply Hst.
  - destruct (k_stage k') eqn:Es; try done. intros [= <-]. destruct (Hlive q k' E ltac:(by rewrite Es)).
    apply (put_stranded w pid c p q k'); try done. apply touches_refl.
  - destruct (waiting (k_stage k')) eqn:Ew; [|done]. destruct (Punch_inbound _ k') as [[p1 k1]|] eqn:Ep; [|done]. intros [= <-].
    destruct (Hlive q k' E Ew). apply (put_stranded w pid c p q k'); try done. apply (return_touches _ _ (p1, k1) (Err NoTarget)). by left.
  - destruct (k_stage k') eqn:Es; try done. destruct (Punch_dialed _ k') as [[p1 k1]|] eqn:Ep; [|done]. intros [= <-].
    destruct (Hlive q k' E ltac:(by rewrite Es)). apply (put_stranded w pid c p q k'); try done.
    apply (return_touches _ _ (p1, k1) (Err NoTarget)). auto.
  - destruct (Punch_done _ k' first) as [[p1 k1]|] eqn:Ep; [|done]. intros [= <-].
    destruct (done_cases w q k' first _ Hc E Ep) as [Hw' Hd]. destruct (Hlive q k' E Hw').
    apply (put_stranded w pid c p q k'); try done. destruct Hd as [Hd|[Hd|[x Hd]]];
      [apply (return_touches _ _ (p1, k1) (Err NoTarget))..|apply (return_touches _ _ (p1, k1) (Err x))]; auto.
  - destruct (w_from w !! x) eqn:Ef; [done|]. destruct (k_loop k') eqn:El; [|done]. destruct (dial_ok k' x) as [k1 sent] eqn:Ed.
    intros [= <-]. destruct (ok_loop _ _ _ (inv_calls _ Hi _ _ E) El) as [Hd _]. unfold dial_ok in Ed. rewrite Hd in Ed. simplify_eq.
    destruct (decide (q = pid)) as [->|Hne].
    + assert (k' = k) by congruence. subst k'. exists (stop_loop (set_dialed k (Some x))). cbn. rewrite lookup_insert_eq.
      split_and!; try done. destruct Hp as [-> | ->]; [done|]. cbn in Ha. rewrite Hk in Ha. cbn in Ha. congruence.
    + exists k. cbn. rewrite lookup_insert_ne by done. split_and!; try done. destruct Hp as [-> | ->]; [done|]. cbn. by rewrite lookup_insert_ne.
  - destruct (k_loop k') eqn:El; [|done]. intros [= <-]. destruct (decide (q = pid)) as [->|Hne].
    + assert (k' = k) by congruence. subst k'. exists (stop_loop k). cbn. rewrite lookup_insert_eq. split_and!; try done.
      destruct Hp as [-> | ->]; [done|]. cbn in *. rewrite Hk in Ha. by rewrite lookup_insert_eq.
    + exists k. cbn. rewrite lookup_insert_ne by done. split_and!; try done. destruct Hp as [-> | ->]; [done|]. cbn. by rewrite lookup_insert_ne.
Qed.

(** A connection that lands in one of a punch's two channels once the punch
    has returned by the other is lost: nothing that happens later hands it to
    anybody or closes it. *)
Theorem stranded_forever fb es w pid c p es' w' : run (start fb) es = Some w -> stranded w pid c p ->
  run w es' = Some w' -> stranded w' pid c p /\ ~ at_place w' c Handed /\ ~ at_place w' c Closed /\
    forall q, ~ at_place w' c (ReturnedBy q).
Proof.
  intros Hr Hs Hr'. apply run_sound in Hr. revert Hr'.
  assert (H : (sound w /\ stranded w pid c p) -> run w es' = Some w' -> sound w' /\ stranded w' pid c p).
  { apply (run_invariant (fun w => sound w /\ stranded w pid c p)). intros w1 e w2 [Hd1 Hd2] He.
    split; [by eapply step_sound|]. destruct Hd1 as (? & ? & _). by eapply step_stranded. }
  intros Hr'. destruct (H (conj Hr Hs) Hr') as [(_ & Hc & _) Hs']. split; [done|].
  destruct Hs' as (k & _ & _ & _ & Hp & Ha). pose proof (fun q => cs_once _ Hc c p q Ha) as Hu.
  split_and!; [intros E|intros E|intros q E]; apply Hu in E; destruct Hp; congruence.
Qed.

(** Two punches towards one address: the first to return takes the other's
    waiter with it, and what arrives from there later goes to the fallback. *)
Lemma punches_interfere fb es w a ka b kb first w' : run (start fb) es = Some w ->
  w_calls w !! a = Some ka -> w_calls w !! b = Some kb -> k_ip ka = k_ip kb ->
  step w (EvDone a first) = Some w' -> waiters (w_pl w') !! k_ip kb = None.
Proof.
  intros (_ & Hc & _)%run_sound Ha Hb Hip. cbn [step]. rewrite Ha. cbn. destruct (Punch_done _ ka first) as [pk|] eqn:E; [|done].
  intros [= <-]. rewrite <- Hip. destruct (done_cases w a ka first _ Hc Ha E) as [_ [Hd|[Hd|[x ->]]]]; [..|apply lookup_delete_eq].
  - unfold Punch_inbound in Hd. destruct (take_inbound _ ka) as [[p1 c]|]; [|done]. simplify_eq/=. apply lookup_delete_eq.
  - unfold Punch_dialed in Hd. destruct (k_dialed ka); [|done]. simplify_eq/=. apply lookup_delete_eq.
Qed.

(** ** Witnesses *)
Module SamplePunch.
Definition peer : bytes := str "203.0.113.9:40000".

(** The peer's connection arrives while the dial to it succeeds too. *)
Definition both : list event :=
  [EvPunch 0 peer 0; EvAccept 10 peer; EvRoute; EvDialOk 0 11; EvInbound 0].

Definition racing : list event := [EvPunch 0 peer 250; EvDelayOver 0].
End SamplePunch.
Import SamplePunch.

Lemma punch_conserves_witness : exists w, run (start true) both = Some w /\
  (k_stage <$> w_calls w !! 0%nat = Some (Returned (Ok 10%nat))) /\ (came_from w (str "203.0.113.9") 10 \/ w_from w !! 10%nat = Some (Dialled 0)).
Proof.
  destruct (run (start true) both) as [w|] eqn:E; [|vm_compute in E; discriminate E]. exists w. split; [reflexivity|].
  assert (Hk : exists k, w_calls w !! 0%nat = Some k /\ k_stage k = Returned (Ok 10%nat) /\ k_ip k = str "203.0.113.9")
    by (vm_compute in E; injection E as <-; eexists; split; [vm_compute; reflexivity|split; reflexivity]).
  destruct Hk as (k & H1 & H2 & H3). rewrite H1. split; [cbn; by rewrite H2|].
  rewrite <- H3. exact (proj1 (proj2 (punch_conserves true both w E)) 0%nat k 10%nat H1 H2).
Defined.

Lemma punch_returns_witness : exists w w' r, run (start true) racing = Some w /\ step w (EvDone 0 true) = Some w' /\
  k_stage <$> w_calls w' !! 0%nat = Some (Returned r).
Proof.
  destruct (run (start true) racing) as [w|] eqn:E; [|vm_compute in E; discriminate E].
  assert (Hk : exists k, w_calls w !! 0%nat = Some k /\ waiting (k_stage k) = true)
    by (vm_compute in E; injection E as <-; eexists; split; [vm_compute; reflexivity|reflexivity]).
  destruct Hk as (k & H1 & H2). destruct (punch_returns true racing w 0 k true E H1 H2) as (w' & r & H3 & H4 & _).
  exists w, w', r. split; [reflexivity|]. split; [exact H3|exact H4].
Defined.

Lemma stranded_forever_witness : exists w w', run (start true) both = Some w /\ run w [EvLoopEnd 5] = None /\
  run w [EvAccept 12 peer] = Some w' /\ stranded w' 0 11 (InDialed 0).
Proof.
  destruct (run (start true) both) as [w|] eqn:E; [|vm_compute in E; discriminate E].
  assert (Hs : stranded w 0 11 (InDialed 0)).
  { vm_compute in E. injection E as <-. eexists. split; [vm_compute; reflexivity|]. split; [reflexivity|]. split; [discriminate|].
    split; [right; reflexivity|vm_compute; reflexivity]. }
  destruct (run w [EvAccept 12 peer]) as [w'|] eqn:E'; [|vm_compute in E; injection E as <-; vm_compute in E'; discriminate E'].
  exists w, w'. split; [reflexivity|]. split; [vm_compute in E; injection E as <-; reflexivity|]. split; [exact E'|].
  exact (proj1 (stranded_forever true both w 0 11 (InDialed 0) [EvAccept 12 peer] w' E Hs E')).
Defined.
