(* ===== verification/Expect.v ===== *)
(** Expected inbound connections: [src/internal/connect/expect.go].

    The registry maps a source address to the options of the rendezvous that
    expects it; [A] is the type of those options.  Several rendezvous share one
    registry, and each holds the function that withdraws its own entries. *)
From Stdlib Require Import ZArith Lia.
From Stdlib Require Import Strings.Byte.
From stdpp Require Import base gmap strings numbers option list.
From S2P Require Import Prelude GoStrings Identity.

Section expectations.
Context {A : Type}.

(** A nil registry is [None]. *)
Definition Expectations := option (gmap bytes A).

Definition NewExpectations : Expectations := Some ∅.

(** [Hook] on a connection with this remote address ([None] when it has none). *)
Definition Hook (e : Expectations) (remote : option bytes) : option A :=
  match e, remote with
  | Some byIP, Some addr =>
      match SplitHostPort addr with
      | Ok (host, _) => byIP !! host
      | _ => None
      end
  | _, _ => None
  end.

(** The loop of [expect]: the registry and the addresses added. *)
Fixpoint expect_loop (byIP : gmap bytes A) (ips : list bytes) (opts : A) (added : list bytes) : gmap bytes A * list bytes :=
  match ips with
  | [] => (byIP, added)
  | ip :: rest =>
      if decide (ip = []) then expect_loop byIP rest opts added
      else match byIP !! ip with
           | Some _ => expect_loop byIP rest opts added
           | None => expect_loop (<[ip := opts]> byIP) rest opts (added ++ [ip])
           end
  end.

(** [expect], and what its result withdraws when it is called. *)
Definition expect (e : Expectations) (ips : list bytes) (opts : A) : Expectations * list bytes :=
  match e with
  | None => (e, [])
  | Some byIP =>
      if decide (ips = []) then (e, [])
      else let '(byIP', added) := expect_loop byIP ips opts [] in (Some byIP', added)
  end.

Definition withdraw (e : Expectations) (added : list bytes) : Expectations :=
  (fun byIP => foldl (fun m ip => delete ip m) byIP added) <$> e.
End expectations.
Arguments Expectations : clear implicits.

(** *** The addresses of a peer *)

(** The closure [add] of [peerIPs]; the set [seen] holds what [out] does. *)
Definition add_ip (seen : gset bytes) (out : list bytes) (addr : bytes) : gset bytes * list bytes :=
  if decide (addr = []) then (seen, out)
  else
    let host := match SplitHostPort addr with Ok (host, _) => host | _ => addr end in
    if decide (host = []) then (seen, out)
    else if decide (host ∈ seen) then (seen, out)
    else ({[host]} ∪ seen, out ++ [host]).

Definition peerIPs (observed : bytes) (candidates : list bytes) : list bytes :=
  (foldl (fun acc addr => add_ip acc.1 acc.2 addr) (add_ip ∅ [] observed) candidates).2.

(** ** The addresses are the right ones *)
Definition host_of (addr : bytes) : bytes := match SplitHostPort addr with Ok (host, _) => host | _ => addr end.

(** What [peerIPs] has after the addresses of [done]. *)
Record collected (done : list bytes) (acc : gset bytes * list bytes) : Prop := {
  col_seen : forall h, h ∈ acc.1 <-> h ∈ acc.2;
  col_nodup : NoDup acc.2;
  col_mem : forall h, h ∈ acc.2 <-> h <> [] /\ exists a, a ∈ done /\ a <> [] /\ h = host_of a
}.

Lemma add_collected done acc addr : collected done acc -> collected (done ++ [addr]) (add_ip acc.1 acc.2 addr).
Proof.
  destruct acc as [seen out]. intros [Hs Hn Hm]. cbn [fst snd] in *. unfold add_ip. fold (host_of addr).
  assert (Hsame : (addr = [] \/ host_of addr = [] \/ host_of addr ∈ out) -> collected (done ++ [addr]) (seen, out)).
  { intros Hc. split; cbn [fst snd]; try done. intros h. rewrite Hm. split.
    - intros (Hh & a & Ha & Hne & ->). split; [done|]. exists a. split; [apply elem_of_app; by left|done].
    - intros (Hh & a & [Ha| ->%list_elem_of_singleton]%elem_of_app & Hne & ->); [by eauto|].
      destruct Hc as [Hc|[Hc|Hc]]; [done..|]. by apply Hm in Hc. }
  case_decide as H1; [by apply Hsame; left|]. case_decide as H2; [apply Hsame; by right; left|].
  case_decide as H3; [apply Hsame; right; right; by apply Hs|]. rewrite Hs in H3. split; cbn [fst snd].
  - intros h. rewrite elem_of_union, elem_of_singleton, elem_of_app, list_elem_of_singleton, Hs. tauto.
  - apply NoDup_app. split_and!; [done|intros x Hx ->%list_elem_of_singleton; done|apply NoDup_singleton].
  - intros h. rewrite elem_of_app, list_elem_of_singleton, Hm. split.
    + intros [(Hh & a & Ha & Hne & ->)| ->]; (split; [done|]); [exists a|exists addr];
        (split; [apply elem_of_app; rewrite ?list_elem_of_singleton; auto|done]).
    + intros (Hh & a & [Ha| ->%list_elem_of_singleton]%elem_of_app & Hne & ->); [left; by eauto|by right].
Qed.

Lemma peerIPs_collected observed cs : exists acc, peerIPs observed cs = acc.2 /\ collected (observed :: cs) acc.
Proof.
  unfold peerIPs. eexists. split; [done|].
  assert (H0 : collected [observed] (add_ip ∅ [] observed)).
  { apply (add_collected [] (∅, [])). split; cbn; [intros h; by rewrite elem_of_empty, elem_of_nil|constructor|]. intros h. split; [by intros []%elem_of_nil|].
    intros (_ & a & []%elem_of_nil & _). }
  change (observed :: cs) with ([observed] ++ cs). revert H0. generalize ([observed]) (add_ip ∅ [] observed).
  induction cs as [|c cs IH]; intros d acc H0; cbn [foldl]; [by rewrite app_nil_r|].
  replace (d ++ c :: cs) with ((d ++ [c]) ++ cs) by by rewrite <- app_assoc. by apply IH, add_collected.
Qed.

Section registry.
Context {A : Type}.
Implicit Types (m : gmap bytes A) (o : A).

Lemma expect_loop_spec ips o : forall m added m' added', expect_loop m ips o added = (m', added') ->
  exists new, added' = added ++ new /\
    (forall ip, ip ∈ new <-> ip ∈ ips /\ ip <> [] /\ m !! ip = None) /\
    (forall ip, m' !! ip = if decide (ip ∈ new) then Some o else m !! ip).
Proof.
  induction ips as [|x ips IH]; intros m added m' added'; cbn [expect_loop].
  { intros [= <- <-]. exists []. rewrite app_nil_r. split; [done|]. split.
    - intros ip. split; [by intros []%elem_of_nil|by intros [[]%elem_of_nil _]].
    - intros ip. rewrite decide_False; [done|apply not_elem_of_nil]. }
  case_decide as Hx.
  { subst x. intros (new & -> & H1 & H2)%IH. exists new. split_and!; try done. intros ip. rewrite H1, elem_of_cons. naive_solver. }
  destruct (m !! x) as [o'|] eqn:E; intros (new & -> & H1 & H2)%IH.
  { exists new. split_and!; try done. intros ip. rewrite H1, elem_of_cons. split; [naive_solver|]. intros ([-> |?] & ? & ?); [congruence|done]. }
  exists (x :: new). rewrite <- app_assoc. split; [done|]. split.
  - intros ip. rewrite !elem_of_cons, H1. destruct (decide (ip = x)) as [->|Hne].
    + split; [by auto|]. by left.
    + rewrite lookup_insert_ne by done. naive_solver.
  - intros ip. rewrite H2. destruct (decide (ip = x)) as [->|Hne].
    + rewrite lookup_insert_eq. rewrite (decide_True (P := x ∈ x :: new)) by apply list_elem_of_here. by case_decide.
    + rewrite lookup_insert_ne by done. destruct (decide (ip ∈ new)) as [Hi|Hi].
      * rewrite decide_True; [done|by apply list_elem_of_further].
      * rewrite decide_False; [done|]. rewrite elem_of_cons. naive_solver.
Qed.

Lemma expect_spec m ips o : exists m' new, expect (Some m) ips o = (Some m', new) /\
  (forall ip, ip ∈ new <-> ip ∈ ips /\ ip <> [] /\ m !! ip = None) /\
  (forall ip, m' !! ip = if decide (ip ∈ new) then Some o else m !! ip).
Proof.
  unfold expect. case_decide as Hn.
  - subst. exists m, []. split; [done|]. split; [|intros ip; rewrite decide_False; [done|apply not_elem_of_nil]].
    intros ip. split; [by intros []%elem_of_nil|by intros [[]%elem_of_nil _]].
  - destruct (expect_loop m ips o []) as [m' new] eqn:E. apply expect_loop_spec in E as (new' & -> & H1 & H2). eauto.
Qed.

Lemma withdraw_lookup added : forall m ip, foldl (fun m ip => delete ip m) m added !! ip = if decide (ip ∈ added) then None else m !! ip.
Proof.
  induction added as [|x added IH]; intros m ip; cbn [foldl]; [rewrite decide_False; [done|apply not_elem_of_nil]|].
  rewrite IH. destruct (decide (ip ∈ added)) as [Hi|Hi]; [rewrite decide_True; [done|by apply list_elem_of_further]|].
  destruct (decide (ip = x)) as [->|Hne]; [rewrite lookup_delete_eq, decide_True; [done|apply list_elem_of_here]|].
  rewrite lookup_delete_ne by done. rewrite decide_False; [done|]. rewrite elem_of_cons. naive_solver.
Qed.

(** *** Several rendezvous *)

(** The registry, and what each rendezvous in progress has added to it. *)
Record shared := mkShared { s_map : gmap bytes A; s_live : gmap nat (A * list bytes) }.

Inductive happens : shared -> shared -> Prop :=
| hp_expect s rid ips o m' added : s_live s !! rid = None -> expect (Some (s_map s)) ips o = (Some m', added) ->
    happens s (mkShared m' (<[rid := (o, added)]> (s_live s)))
| hp_withdraw s rid o added m' : s_live s !! rid = Some (o, added) -> withdraw (Some (s_map s)) added = Some m' ->
    happens s (mkShared m' (delete rid (s_live s))).

Definition reached : shared -> Prop := rtc happens (mkShared ∅ ∅).

Record owned (s : shared) : Prop := {
  ow_some : forall ip o, s_map s !! ip = Some o <-> exists rid added, s_live s !! rid = Some (o, added) /\ ip ∈ added;
  ow_one : forall r1 r2 o1 o2 a1 a2 ip, s_live s !! r1 = Some (o1, a1) -> s_live s !! r2 = Some (o2, a2) ->
    ip ∈ a1 -> ip ∈ a2 -> r1 = r2
}.

Lemma happens_owned s s' : happens s s' -> owned s -> owned s'.
Proof.
  intros Hh [H1 H2]. destruct Hh as [s rid ips o m' added Hn He|s rid o added m' Hl Hw].
  - destruct (expect_spec (s_map s) ips o) as (m2 & new & E & N1 & N2). rewrite E in He. simplify_eq.
    assert (Hnew : forall r o1 a1 ip, s_live s !! r = Some (o1, a1) -> ip ∈ a1 -> ip ∈ added -> False).
    { intros r o1 a1 ip Hr Hi (_ & _ & Hm)%N1. assert (s_map s !! ip = Some o1) by (apply H1; eauto). congruence. }
    split; cbn.
    + intros ip o'. rewrite N2. case_decide as Hi.
      * split; [intros [= <-]; exists rid, added; by rewrite lookup_insert_eq|].
        intros (r & a & Hr & Ha). destruct (decide (r = rid)) as [->|]; [rewrite lookup_insert_eq in Hr; congruence|].
        rewrite lookup_insert_ne in Hr by done. destruct (Hnew r o' a ip); done.
      * rewrite H1. split.
        -- intros (r & a & Hr & Ha). exists r, a. rewrite lookup_insert_ne; [done|congruence].
        -- intros (r & a & Hr & Ha). destruct (decide (r = rid)) as [->|]; [rewrite lookup_insert_eq in Hr; congruence|].
           rewrite lookup_insert_ne in Hr by done. eauto.
    + intros r1 r2 o1 o2 a1 a2 ip. destruct (decide (r1 = rid)) as [->|N1'], (decide (r2 = rid)) as [->|N2']; [done|..].
      * rewrite lookup_insert_eq, lookup_insert_ne by done. intros [= <- <-] Hr Ha Hb. destruct (Hnew r2 o2 a2 ip); done.
      * rewrite lookup_insert_eq, lookup_insert_ne by done. intros Hr [= <- <-] Ha Hb. destruct (Hnew r1 o1 a1 ip); done.
      * rewrite !lookup_insert_ne by done. eauto.
  - cbn in Hw. simplify_eq. split; cbn.
    + intros ip o'. rewrite withdraw_lookup. case_decide as Hi.
      * split; [done|]. intros (r & a & [Hne Hr]%lookup_delete_Some & Ha). destruct Hne. by eapply H2.
      * rewrite H1. split.
        -- intros (r & a & Hr & Ha). exists r, a. split; [|done]. apply lookup_delete_Some. split; [|done]. intros ->. congruence.
        -- intros (r & a & [_ Hr]%lookup_delete_Some & Ha). eauto.
    + intros r1 r2 o1 o2 a1 a2 ip [_ Hr1]%lookup_delete_Some [_ Hr2]%lookup_delete_Some. eauto.
Qed.

Lemma reached_owned s : reached s -> owned s.
Proof.
  unfold reached. intros H. assert (H0 : owned (mkShared (∅ : gmap bytes A) ∅)).
  { split; cbn; [|intros *; by rewrite lookup_empty]. intros ip o. rewrite lookup_empty. split; [done|].
    intros (r & a & Hr & _). by rewrite lookup_empty in Hr. }
  revert H0. remember (mkShared ∅ ∅) as s0. clear Heqs0. induction H; eauto using happens_owned.
Qed.

(** The registry answers for exactly the rendezvous in progress: whatever
    order they begin and end in, a connection is taken for a rendezvous when its
    address is one that rendezvous added and has not withdrawn, never for two,
    and the end of one rendezvous does not take another's entries away. *)
Theorem expectations_owned s : reached s ->
  (forall addr host port o, SplitHostPort addr = Ok (host, port) ->
     Hook (Some (s_map s)) (Some addr) = Some o <-> exists rid added, s_live s !! rid = Some (o, added) /\ host ∈ added) /\
  (forall rid o added rid' o' added' addr ip port, s_live s !! rid = Some (o, added) -> s_live s !! rid' = Some (o', added') ->
     rid <> rid' -> ip ∈ added' -> SplitHostPort addr = Ok (ip, port) ->
     Hook (withdraw (Some (s_map s)) added) (Some addr) = Some o').
Proof.
  intros Hr. apply reached_owned in Hr as [H1 H2]. split.
  - intros addr host port o Hs. unfold Hook. rewrite Hs. apply H1.
  - intros rid o added rid' o' added' addr ip port Hl Hl' Hne Hi Hs. cbn. rewrite Hs, withdraw_lookup. rewrite decide_False.
    + apply H1. eauto.
    + intros Hi'. apply Hne. by eapply H2.
Qed.

(** One rendezvous is recognised by every address it may be reached from,
    unless another already expects that address; then, and for as long as the
    other lasts, its peer is taken for the other's. *)
Theorem expect_recognises m observed cs o addr host port :
  SplitHostPort addr = Ok (host, port) -> host <> [] -> host ∈ host_of <$> (observed :: cs) ->
  [] ∉ observed :: cs ->
  Hook (expect (Some m) (peerIPs observed cs) o).1 (Some addr) = Some (default o (m !! host)) /\
  NoDup (peerIPs observed cs).
Proof.
  intros Hs Hne Hh Hemp. destruct (peerIPs_collected observed cs) as (acc & Ea & [_ Hnd Hm]).
  rewrite Ea. split; [|done].
  destruct (expect_spec m acc.2 o) as (m' & new & -> & N1 & N2). cbn. rewrite Hs, N2.
  case_decide as Hi; [by apply N1 in Hi as (_ & _ & ->)|].
  destruct (m !! host) as [o'|] eqn:E; [done|]. exfalso. apply Hi, N1. split; [|done]. apply Hm. split; [done|].
  apply list_elem_of_fmap in Hh as (a & -> & Ha). exists a. split; [done|]. split; [|done]. by intros ->.
Qed.
End registry.

(** ** Witnesses *)
Module SampleExpect.
Definition observed : bytes := str "203.0.113.9:40000".
Definition lan : list bytes := [str "192.168.1.20:7331"; str "203.0.113.9:7331"].

Definition one : shared (A := nat) :=
  mkShared (default ∅ (expect (Some ∅) (peerIPs observed lan) 1%nat).1) 
    {[0%nat := (1%nat, (expect (Some ∅) (peerIPs observed lan) 1%nat).2)]}.

Lemma one_reached : reached one.
Proof.
  eapply rtc_once. unfold one. rewrite <- insert_empty. eapply (hp_expect (mkShared ∅ ∅) 0%nat (peerIPs observed lan) 1%nat).
  - reflexivity.
  - cbn [s_map]. destruct (expect_spec (A := nat) ∅ (peerIPs observed lan) 1%nat) as (m' & new & E & N1 & _).
    by rewrite E.
Qed.
End SampleExpect.
Import SampleExpect.

Lemma expectations_owned_witness : Hook (Some (s_map one)) (Some (str "192.168.1.20:50111")) = Some 1%nat.
Proof.
  apply (proj1 (expectations_owned one one_reached) (str "192.168.1.20:50111") (str "192.168.1.20") (str "50111") 1%nat eq_refl).
  eexists 0%nat, _. split; [reflexivity|]. apply (bool_decide_unpack _). vm_compute. exact I.
Defined.

Lemma expect_recognises_witness :
  Hook (expect (Some ∅) (peerIPs observed lan) 1%nat).1 (Some (str "203.0.113.9:61000")) = Some 1%nat.
Proof.
  destruct (expect_recognises (∅ : gmap bytes nat) observed lan 1%nat (str "203.0.113.9:61000") (str "203.0.113.9") (str "61000")) as [H _].
  5: exact H.
  - vm_compute. reflexivity.
  - discriminate.
  - apply (bool_decide_unpack _). vm_compute. exact I.
  - apply (bool_decide_unpack _). vm_compute. exact I.
Defined.
