(* ===== verification/Connect.v ===== *)
(** Connecting to a peer: [src/internal/connect/connect.go], and the inbound side
    of [src/internal/session/manager.go].

    A race runs one goroutine per path, one that waits for all of them, the
    connections accepted meanwhile, and the caller.  Each event below is what one
    of them does between two points where another may run.  The pairing key is
    one slice that all of them hold, so the state has its present contents and
    options only say whose key they carry. *)
From Stdlib Require Import ZArith Lia.
From Stdlib Require Import Strings.Byte.
From stdpp Require Import base gmap strings numbers option list.
From S2P Require Import Prelude GoStrings Crypto Identity Session Pairing Handshake Peers Messages Relay Candidates Dialer Client Manager ManagerProps Expect.

Definition RelayGrace : Z := 1500 * Millisecond.
Definition RaceTimeout : Z := 45 * Second.
Definition expectLinger : Z := 10 * Second.
Definition directDialTimeout : Z := 3 * Second.

(** The port of the punch listener, when there is one, and the listening port. *)
Record Config := mkConfig { cf_punch : option Z; cf_port : Z }.

Definition localCandidates (cfg : Config) (addrs : option (list (option bytes))) : res cand_err (list Candidate) :=
  let port := if decide (cf_port cfg = 0) then default 0 (cf_punch cfg) else cf_port cfg in
  LocalCandidates addrs port.

(** *** Options *)

(** Whose pairing key: none, this race's, or another rendezvous's. *)
Inductive owner := NoKey | Ours | Another (key : bytes).

Record options := mkOptions { op_initiator : bool; op_owner : owner; op_path : bytes }.

(** The options as the manager reads them, with the present contents of the key. *)
Definition adopt_options (key : bytes) (o : options) : AdoptOptions :=
  mkAdopt (op_initiator o) (match op_owner o with NoKey => [] | Ours => key | Another k => k end) (op_path o).

(** [Manager.inboundOptions] with the hook of the registry. *)
Definition inboundOptions (e : Expectations options) (remote : option bytes) : options :=
  match Hook e remote with Some o => o | None => mkOptions false NoKey PathDirect end.

(** *** A race *)
Inductive attempt_state := Grace | Dialing | Adopting | Finished.

Record attempt := mkAttempt { a_path : bytes; a_target : bytes; a_state : attempt_state }.

Inductive path_err := DirectWon | CtxEnded | DialFailed | AdoptFailed (e : manager_err).
Inductive race_err := NoManager | EveryPathFailed (errs : list (bytes * path_err)) | TimedOut.

(** What adopting a connection changes: the manager, the trust store, the files. *)
Record node := mkNode { n_manager : Manager; n_store : Store; n_fs : gmap bytes bytes }.

Record race := mkRace {
  r_node : node;
  r_expect : Expectations options;
  r_added : list bytes;                 (* what the withdrawal will remove *)
  r_key : bytes;                        (* the contents of the key slice *)
  r_initiator : bool;
  r_attempts : list attempt;
  r_inbound : list options;             (* accepted, in their handshake *)
  r_won : bool;
  r_errs : list (bytes * path_err);
  r_ctx : bool;                         (* the context has ended *)
  r_done : bool;                        (* every attempt has finished *)
  r_wiped : bool;
  r_result : option (res race_err unit)
}.

Definition set_attempts (r : race) (l : list attempt) : race :=
  mkRace (r_node r) (r_expect r) (r_added r) (r_key r) (r_initiator r) l (r_inbound r) (r_won r) (r_errs r) (r_ctx r)
    (r_done r) (r_wiped r) (r_result r).
Definition set_node (r : race) (n : node) : race :=
  mkRace n (r_expect r) (r_added r) (r_key r) (r_initiator r) (r_attempts r) (r_inbound r) (r_won r) (r_errs r) (r_ctx r)
    (r_done r) (r_wiped r) (r_result r).
Definition set_inbound (r : race) (l : list options) : race :=
  mkRace (r_node r) (r_expect r) (r_added r) (r_key r) (r_initiator r) (r_attempts r) l (r_won r) (r_errs r) (r_ctx r)
    (r_done r) (r_wiped r) (r_result r).
Definition set_ctx (r : race) : race :=
  mkRace (r_node r) (r_expect r) (r_added r) (r_key r) (r_initiator r) (r_attempts r) (r_inbound r) (r_won r) (r_errs r) true
    (r_done r) (r_wiped r) (r_result r).
Definition set_done (r : race) : race :=
  mkRace (r_node r) (r_expect r) (r_added r) (r_key r) (r_initiator r) (r_attempts r) (r_inbound r) (r_won r) (r_errs r) (r_ctx r)
    true (r_wiped r) (r_result r).

(** [succeed] and [fail]. *)
Definition succeed (r : race) : race :=
  mkRace (r_node r) (r_expect r) (r_added r) (r_key r) (r_initiator r) (r_attempts r) (r_inbound r) true (r_errs r) (r_ctx r)
    (r_done r) (r_wiped r) (r_result r).
Definition fail (r : race) (path : bytes) (e : path_err) : race :=
  mkRace (r_node r) (r_expect r) (r_added r) (r_key r) (r_initiator r) (r_attempts r) (r_inbound r) (r_won r) (r_errs r ++ [(path, e)])
    (r_ctx r) (r_done r) (r_wiped r) (r_result r).

(** The timer that ends the linger: the expectation is withdrawn, and the key
    overwritten in place. *)
Definition wipe (r : race) : race :=
  mkRace (r_node r) (withdraw (r_expect r) (r_added r)) (r_added r) (Zeroise (r_key r)) (r_initiator r) (r_attempts r) (r_inbound r)
    (r_won r) (r_errs r) (r_ctx r) (r_done r) true (r_result r).

(** Returning also cancels the context. *)
Definition return_ (r : race) (out : res race_err unit) : race :=
  mkRace (r_node r) (r_expect r) (r_added r) (r_key r) (r_initiator r) (r_attempts r) (r_inbound r) (r_won r) (r_errs r) true
    (r_done r) (r_wiped r) (Some out).

(** The paths: each candidate, the punch, and always the relay. *)
Definition race_attempts (cfg : Config) (p : Pairing) : list attempt :=
  map (fun c => mkAttempt PathDirect (Addr c) Dialing) (PeerCandidates p) ++
  (match cf_punch cfg with
   | Some _ => if decide (PeerObserved p = []) then [] else [mkAttempt PathPunched (PeerObserved p) Dialing]
   | None => []
   end) ++
  [mkAttempt PathRelay (Ticket p) Grace].

(** [Race] up to the wait of the caller. *)
Definition Race (cfg : Config) (m : option Manager) (st : Store) (fs : gmap bytes bytes) (e : Expectations options) (p : Pairing)
  (pairingKey : bytes) : res race_err race :=
  match m with
  | None => Err NoManager
  | Some m =>
      let inboundOpts := mkOptions (Initiator p) Ours PathDirect in
      let '(e', added) := expect e (peerIPs (PeerObserved p) (Addr <$> PeerCandidates p)) inboundOpts in
      Ok (mkRace (mkNode m st fs) e' added pairingKey (Initiator p) (race_attempts cfg p) [] false [] false false false None)
  end.

Inductive event :=
| EvDialled (i : nat)                    (* an attempt's dial ends *)
| EvDialFailed (i : nat)
| EvGraceOver (i : nat)                  (* the relay's select: its timer, *)
| EvGraceWon (i : nat)                   (* another path, *)
| EvGraceCtx (i : nat)                   (* or the context *)
| EvAdopted (i : nat) (env : hs_env)     (* an attempt's handshake ends *)
| EvInbound (remote : option bytes)      (* a connection is accepted *)
| EvInboundDone (j : nat) (env : hs_env) (* its handshake ends *)
| EvAllDone
| EvWipe
| EvCtx
| EvReturnWon | EvReturnDone | EvReturnCtx.

(** The attempt [i] in the given state. *)
Definition in_state (r : race) (i : nat) (s : attempt_state) : option attempt :=
  a ← r_attempts r !! i;
  match a_state a, s with
  | Grace, Grace | Dialing, Dialing | Adopting, Adopting => Some a
  | _, _ => None
  end.

Definition to_state (r : race) (i : nat) (a : attempt) (s : attempt_state) : race :=
  set_attempts r (<[i := mkAttempt (a_path a) (a_target a) s]> (r_attempts r)).

Definition finished (a : attempt) : bool := match a_state a with Finished => true | _ => false end.

Section steps.
Context `{CryptoOps, SignatureOps, DHOps, PeersJSON}.

(** [Manager.Adopt] and [Manager.HandleInbound]: the handshake with these
    options, and what it leaves behind. *)
Definition Adopt (r : race) (o : options) (env : hs_env) : race * res manager_err unit :=
  let n := r_node r in
  let '(m, st, fs, out) := runHandshake (n_manager n) (n_store n) (n_fs n) (adopt_options (r_key r) o) env in
  (set_node r (mkNode m st fs), out).

(** One event; [None] when it cannot happen, or when it panics. *)
Definition step (r : race) (e : event) : option race :=
  match e with
  | EvDialled i => a ← in_state r i Dialing; Some (to_state r i a Adopting)
  | EvDialFailed i => a ← in_state r i Dialing; Some (fail (to_state r i a Finished) (a_path a) DialFailed)
  | EvGraceOver i => a ← in_state r i Grace; Some (to_state r i a Dialing)
  | EvGraceWon i =>
      a ← in_state r i Grace; if r_won r then Some (fail (to_state r i a Finished) (a_path a) DirectWon) else None
  | EvGraceCtx i =>
      a ← in_state r i Grace; if r_ctx r then Some (fail (to_state r i a Finished) (a_path a) CtxEnded) else None
  | EvAdopted i env =>
      a ← in_state r i Adopting;
      let '(r1, out) := Adopt r (mkOptions (r_initiator r) Ours (a_path a)) env in
      match out with
      | Ok _ => Some (succeed (to_state r1 i a Finished))
      | Err err => Some (fail (to_state r1 i a Finished) (a_path a) (AdoptFailed err))
      | Panic => None
      end
  | EvInbound remote => Some (set_inbound r (r_inbound r ++ [inboundOptions (r_expect r) remote]))
  | EvInboundDone j env =>
      o ← r_inbound r !! j;
      let '(r1, out) := Adopt r o env in
      let r2 := set_inbound r1 (delete j (r_inbound r)) in
      match out with
      | Ok _ => Some (match op_owner o with Ours => succeed r2 | _ => r2 end)
      | Err _ => Some r2
      | Panic => None
      end
  | EvAllDone => if forallb finished (r_attempts r) then Some (set_done r) else None
  | EvWipe => if r_done r && negb (r_wiped r) then Some (wipe r) else None
  | EvCtx => Some (set_ctx r)
  | EvReturnWon =>
      match r_result r with None => if r_won r then Some (return_ r (Ok tt)) else None | Some _ => None end
  | EvReturnDone =>
      match r_result r with
      | None =>
          if r_done r then Some (return_ r (if r_won r then Ok tt else Err (EveryPathFailed (r_errs r)))) else None
      | Some _ => None
      end
  | EvReturnCtx =>
      match r_result r with None => if r_ctx r then Some (return_ r (Err TimedOut)) else None | Some _ => None end
  end.

Definition run (r : race) (es : list event) : option race := foldl (fun r e => r ≫= fun r => step r e) (Some r) es.
End steps.

(** ** What holds throughout a race *)
Definition over (l : list attempt) : list attempt := filter (fun a => finished a = true) l.
Arguments over : simpl never.

Lemma over_all l : Forall (fun a => finished a = true) l -> over l = l.
Proof. induction 1 as [|a l Ha _ IH]; [done|]. unfold over in *. rewrite filter_cons_True by done. by rewrite IH. Qed.

Lemma over_finish l : forall i a a', l !! i = Some a -> finished a = false -> finished a' = true ->
  over (<[i := a']> l) ≡ₚ a' :: over l.
Proof.
  unfold over. induction l as [|x l IH]; intros [|i] a a' Hi Hf Hf'; cbn in Hi; try done.
  - simplify_eq. change (<[O := a']> (a :: l)) with (a' :: l). rewrite filter_cons_True by done. rewrite filter_cons_False by (by rewrite Hf). done.
  - specialize (IH i a a' Hi Hf Hf'). change (<[S i := a']> (x :: l)) with (x :: <[i := a']> l). rewrite !filter_cons. case_decide; rewrite IH; [apply Permutation_swap|done].
Qed.

Lemma over_keep l : forall i a a', l !! i = Some a -> finished a = false -> finished a' = false -> over (<[i := a']> l) = over l.
Proof.
  unfold over. induction l as [|x l IH]; intros [|i] a a' Hi Hf Hf'; cbn in Hi; try done.
  - simplify_eq. change (<[O := a']> (a :: l)) with (a' :: l). rewrite !filter_cons_False by (rewrite ?Hf, ?Hf'; done). done.
  - change (<[S i := a']> (x :: l)) with (x :: <[i := a']> l). rewrite !filter_cons, (IH i a a') by done. done.
Qed.

Lemma in_state_Some r i s a : in_state r i s = Some a -> r_attempts r !! i = Some a /\ a_state a = s /\ finished a = false.
Proof.
  unfold in_state. destruct (r_attempts r !! i) as [b|] eqn:E; [|done]. cbn. unfold finished.
  destruct (a_state b) eqn:Es, s; try done; intros [= <-]; by rewrite Es.
Qed.

(** Options of this race carry its role. *)
Definition role_ok (ini : bool) (o : options) : Prop := op_owner o = Ours -> op_initiator o = ini.

Definition foreign (e : Expectations options) : Prop :=
  forall m ip o, e = Some m -> m !! ip = Some o -> op_owner o <> Ours.

Section race.
Context `{CryptoOps, SignatureOps, DHOps, PeersJSON}.
Context (ini : bool) (key : bytes) (paths : list bytes) (reg : Expectations options) (adds : list bytes).

Record race_ok (r : race) : Prop := {
  ok_key : r_key r = if r_wiped r then Zeroise key else key;
  ok_wiped : r_wiped r = true -> r_done r = true;
  ok_done : r_done r = true -> Forall (fun a => finished a = true) (r_attempts r);
  ok_paths : a_path <$> r_attempts r = paths;
  ok_errs : exists wins, (r_errs r).*1 ++ wins ≡ₚ a_path <$> over (r_attempts r) /\ (wins <> [] -> r_won r = true);
  ok_skip : forall path, (path, DirectWon) ∈ r_errs r -> r_won r = true;
  ok_role : r_initiator r = ini;
  ok_expect : forall m ip o, r_expect r = Some m -> m !! ip = Some o -> role_ok ini o;
  ok_registered : r_wiped r = false -> r_expect r = reg;
  ok_added : r_added r = adds;
  ok_withdrawn : r_wiped r = true -> r_expect r = withdraw reg adds;
  ok_inbound : Forall (role_ok ini) (r_inbound r);
  ok_success : r_result r = Some (Ok tt) -> r_won r = true;
  ok_failure : forall errs, r_result r = Some (Err (EveryPathFailed errs)) ->
    errs.*1 ≡ₚ paths /\ (forall path, (path, DirectWon) ∉ errs) /\ r_done r = true
}.

Lemma move_ok r i a s s' : race_ok r -> in_state r i s = Some a -> s' <> Finished -> race_ok (to_state r i a s').
Proof.
  intros [] (Hi & Hs & Hf)%in_state_Some Hs'. split; try done; cbn.
  - intros Hd. exfalso. eapply Forall_lookup_1 in Hi; [|by apply ok_done0]. cbn in Hi. congruence.
  - rewrite list_fmap_insert. cbn. rewrite list_insert_id; [done|]. by rewrite list_lookup_fmap, Hi.
  - rewrite (over_keep _ i a); [done..|]. by destruct s'.
Qed.

Lemma finish_ok r i a s : race_ok r -> in_state r i s = Some a ->
  (forall e, (e = DirectWon -> r_won r = true) -> race_ok (fail (to_state r i a Finished) (a_path a) e)) /\
  race_ok (succeed (to_state r i a Finished)).
Proof.
  intros [] (Hi & Hs & Hf)%in_state_Some.
  assert (Hp : a_path <$> <[i := mkAttempt (a_path a) (a_target a) Finished]> (r_attempts r) = paths).
  { rewrite list_fmap_insert. cbn. rewrite list_insert_id; [done|]. by rewrite list_lookup_fmap, Hi. }
  assert (Hd : r_done r = true -> False).
  { intros Hd. eapply Forall_lookup_1 in Hi; [|by apply ok_done0]. cbn in Hi. congruence. }
  assert (Hdn : r_done r = false) by (destruct (r_done r); [by destruct Hd|done]).
  assert (Hnf : forall errs, r_result r <> Some (Err (EveryPathFailed errs))) by (intros errs He; destruct (ok_failure0 _ He) as (_ & _ & ?); by destruct Hd).
  pose proof (over_finish (r_attempts r) i a (mkAttempt (a_path a) (a_target a) Finished) Hi Hf eq_refl) as Ho.
  destruct ok_errs0 as (wins & Hw & Hwon). split.
  - intros e He. split; try done; cbn.
    + exists wins. split; [|done]. rewrite Ho. cbn. rewrite fmap_app. cbn. rewrite <- Hw, <- app_assoc. cbn. by rewrite <- Permutation_middle.
    + intros path [Hin|[= -> Heq]%list_elem_of_singleton]%elem_of_app; eauto.
  - split; try done; cbn.
    exists (a_path a :: wins). split; [|done]. rewrite Ho. cbn. rewrite <- Hw. by rewrite <- Permutation_middle.
Qed.

Lemma node_ok r n : race_ok r -> race_ok (set_node r n).
Proof. intros []. by split. Qed.

Lemma step_ok r e r' : race_ok r -> step r e = Some r' -> race_ok r'.
Proof.
  intros Hok. destruct e as [i|i|i|i|i|i env|remote|j env| | | | | |]; cbn [step].
  - destruct (in_state r i Dialing) as [a|] eqn:E; [|done]. intros [= <-]. by eapply move_ok.
  - destruct (in_state r i Dialing) as [a|] eqn:E; [|done]. intros [= <-]. by eapply finish_ok.
  - destruct (in_state r i Grace) as [a|] eqn:E; [|done]. intros [= <-]. by eapply move_ok.
  - destruct (in_state r i Grace) as [a|] eqn:E; [|done]. cbn. destruct (r_won r) eqn:Ew; [|done]. intros [= <-]. by eapply finish_ok.
  - destruct (in_state r i Grace) as [a|] eqn:E; [|done]. cbn. destruct (r_ctx r) eqn:Ew; [|done]. intros [= <-]. by eapply finish_ok.
  - destruct (in_state r i Adopting) as [a|] eqn:E; [|done]. cbn. unfold Adopt.
    destruct (runHandshake _ _ _ _ env) as [[[m st] fs] out]. set (r1 := set_node r (mkNode m st fs)).
    assert (E1 : in_state r1 i Adopting = Some a) by exact E. pose proof (node_ok r (mkNode m st fs) Hok) as Hok1. fold r1 in Hok1.
    destruct out; [intros [= <-]; by eapply finish_ok..|done].
  - intros [= <-]. destruct Hok. split; try done. cbn. apply Forall_app. split; [done|]. apply Forall_singleton.
    unfold inboundOptions, Hook. destruct (r_expect r) as [m|] eqn:Em; [|done]. destruct remote as [addr|]; [|done].
    destruct (SplitHostPort addr) as [[host port]| |]; [|done..]. destruct (m !! host) eqn:El; [by eapply ok_expect0|done].
  - destruct (r_inbound r !! j) as [o|] eqn:E; [|done]. cbn. unfold Adopt.
    destruct (runHandshake _ _ _ _ env) as [[[m st] fs] out].
    assert (Hok1 : race_ok (set_inbound (set_node r (mkNode m st fs)) (delete j (r_inbound r)))).
    { destruct Hok. split; try done. cbn. by apply Forall_delete. }
    destruct out; [|by intros [= <-]|done]. destruct (op_owner o); [by intros [= <-]| |by intros [= <-]].
    intros [= <-]. destruct Hok1 as [? ? ? ? (wins & ? & ?) ? ? ? ? ? ? ? ? ?]. split; try done. cbn. by exists wins.
  - destruct (forallb finished (r_attempts r)) eqn:E; [|done]. intros [= <-]. destruct Hok. split; try done; cbn.
    + intros _. apply Forall_forall. intros a Ha. apply (proj1 (forallb_forall _ _) E). by apply list_elem_of_In.
    + intros errs He. by destruct (ok_failure0 errs He) as (? & ? & _).
  - destruct (r_done r) eqn:Ed, (r_wiped r) eqn:Ew; try done. intros [= <-]. destruct Hok. rewrite Ew in ok_key0. split; try done; cbn.
    + by rewrite ok_key0.
    + intros m ip o Hm Hl. destruct (r_expect r) as [m0|] eqn:Em; [|done]. cbn in Hm. simplify_eq.
      rewrite withdraw_lookup in Hl. case_decide; [done|]. by eapply ok_expect0.
    + intros _. by rewrite ok_registered0, ok_added0.
  - intros [= <-]. destruct Hok. by split.
  - destruct (r_result r) eqn:Er; [done|]. destruct (r_won r) eqn:Ew; [|done]. intros [= <-]. destruct Hok. split; try done; cbn; rewrite ?Ew; done.
  - destruct (r_result r) eqn:Er; [done|]. destruct (r_done r) eqn:Ed; [|done]. intros [= <-]. destruct Hok.
    split; try done; cbn; rewrite ?Ed; try done; destruct (r_won r) eqn:Ew; try done. intros errs [= <-].
    destruct ok_errs0 as (wins & Hw & Hn). destruct wins; [|by specialize (Hn ltac:(done))]. rewrite app_nil_r in Hw.
    split_and!; [|intros path Hp; by specialize (ok_skip0 _ Hp)|done]. rewrite Hw, over_all by auto. by rewrite ok_paths0.
  - destruct (r_result r) eqn:Er; [done|]. destruct (r_ctx r) eqn:Ew; [|done]. intros [= <-]. destruct Hok. by split.
Qed.

Lemma run_ind (P : race -> Prop) r es r' : (forall r e r', P r -> step r e = Some r' -> P r') -> P r -> run r es = Some r' -> P r'.
Proof.
  intros Hs. unfold run. revert r. induction es as [|e es IH]; intros r Hp; cbn; [by intros [= <-]|].
  destruct (step r e) as [r1|] eqn:E; [by apply IH, (Hs r e)|].
  assert (Hn : foldl (fun r e => r ≫= fun r => step r e) None es = None) by (clear; by induction es). by rewrite Hn.
Qed.

Lemma run_ok r es r' : race_ok r -> run r es = Some r' -> race_ok r'.
Proof. apply run_ind. apply step_ok. Qed.

(** The event that won a race. *)
Lemma won_event r es r' : run r es = Some r' -> r_won r = false -> r_won r' = true ->
  exists es1 e es2 r1 r2, es = es1 ++ e :: es2 /\ run r es1 = Some r1 /\ step r1 e = Some r2 /\ r_won r1 = false /\ r_won r2 = true.
Proof.
  revert r. induction es as [|e es IH]; intros r; [by intros [= <-]; congruence|].
  unfold run. cbn [foldl mbind option_bind]. destruct (step r e) as [r1|] eqn:E.
  2:{ assert (Hn : foldl (fun r e => r ≫= fun r => step r e) None es = None) by (clear; by induction es). by rewrite Hn. }
  intros Hr Hf Ht. destruct (r_won r1) eqn:Ew.
  - exists [], e, es, r, r1. by split_and!.
  - destruct (IH r1 Hr Ew Ht) as (es1 & e1 & es2 & r2 & r3 & -> & H3 & H4 & H5 & H6).
    exists (e :: es1), e1, es2, r2, r3. split_and!; try done. unfold run. cbn [foldl mbind option_bind]. by rewrite E.
Qed.

(** What an event that wins has done. *)
Definition establishes (r : race) (e : event) : Prop :=
  exists o env m st fs, op_owner o = Ours /\ op_initiator o = ini /\
    runHandshake (n_manager (r_node r)) (n_store (r_node r)) (n_fs (r_node r)) (adopt_options (r_key r) o) env = (m, st, fs, Ok tt) /\
    ((exists i, e = EvAdopted i env /\ r_wiped r = false) \/ (exists j, e = EvInboundDone j env)).

Lemma winning_step r e r' : race_ok r -> step r e = Some r' -> r_won r = false -> r_won r' = true -> establishes r e.
Proof.
  intros Hok Hs Hf Ht. destruct e as [i|i|i|i|i|i env|remote|j env| | | | | |]; cbn [step] in Hs.
  6: { destruct (in_state r i Adopting) as [a|] eqn:E; [|done]. cbn in Hs. unfold Adopt in Hs.
    destruct (runHandshake _ _ _ _ env) as [[[m st] fs] out] eqn:Er. destruct out as [[]| |]; simplify_eq; [|cbn in Ht; congruence].
    destruct Hok. exists (mkOptions (r_initiator r) Ours (a_path a)), env, m, st, fs. split_and!; try done. left. exists i. split; [done|].
    destruct (r_wiped r) eqn:Ew; [|done]. apply in_state_Some in E as (Hi & _ & Hn).
    eapply Forall_lookup_1 in Hi; [|by apply ok_done0, ok_wiped0]. cbn in Hi. congruence. }
  7: { destruct (r_inbound r !! j) as [o|] eqn:E; [|done]. cbn in Hs. unfold Adopt in Hs.
    destruct (runHandshake _ _ _ _ env) as [[[m st] fs] out] eqn:Er. destruct out as [[]| |]; simplify_eq; [|cbn in Ht; congruence].
    destruct (op_owner o) eqn:Eo; cbn in Ht; try congruence. exists o, env, m, st, fs. split_and!; eauto.
    destruct Hok. by apply (Forall_lookup_1 _ _ _ _ ok_inbound0 E). }
  all: try (destruct (in_state r i _) as [a|]; [|done]); cbn in Hs; repeat case_match; simplify_eq; cbn in Ht; congruence.
Qed.
End race.

(** ** The races of the program *)
Section races.
Context `{CryptoOps, SignatureOps, DHOps, PeersJSON}.
Context (cfg : Config) (m : option Manager) (st : Store) (fs : gmap bytes bytes) (e : Expectations options) (p : Pairing) (key : bytes).

Definition paths : list bytes := a_path <$> race_attempts cfg p.

Lemma start_ok r : foreign e -> Race cfg m st fs e p key = Ok r -> race_ok (Initiator p) key paths (r_expect r) (r_added r) r.
Proof.
  intros Hf. unfold Race. destruct m as [m0|]; [|done].
  destruct (expect e _ _) as [e' added] eqn:Ee. intros [= <-]. split; try done; cbn.
  - exists []. split; [|done]. cbn. assert (Ho : over (race_attempts cfg p) = []); [|by rewrite Ho].
    unfold race_attempts, over. rewrite !filter_app. assert (Hd : forall l, filter (fun a => finished a = true)
      (map (fun c => mkAttempt PathDirect (Addr c) Dialing) l) = []) by (clear; induction l; [done|by rewrite map_cons, filter_cons_False]).
    rewrite Hd. destruct (cf_punch cfg); [case_decide|]; done.
  - intros path Hp. by apply elem_of_nil in Hp.
  - intros m1 ip o -> Hl. destruct e as [m2|] eqn:Em; [|unfold expect in Ee; congruence].
    destruct (expect_spec m2 (peerIPs (PeerObserved p) (Addr <$> PeerCandidates p)) (mkOptions (Initiator p) Ours PathDirect))
      as (m3 & new & E3 & _ & N2). rewrite E3 in Ee. simplify_eq. rewrite N2 in Hl. case_decide; [by simplify_eq|].
    intros Ho. destruct (Hf m2 ip o eq_refl Hl Ho).
Qed.

Lemma relay_path : PathRelay ∈ paths.
Proof. unfold paths, race_attempts. rewrite !fmap_app, !elem_of_app. right. right. apply list_elem_of_here. Qed.

(** C15: a race reports success only for a session that was authenticated for this
    rendezvous: at some point of the run a handshake succeeded in the role the
    rendezvous gives this peer, with the rendezvous's pairing key required, except
    that an accepted connection whose handshake outlives the wiping of the key is
    held to the wiped key. *)
Theorem race_wins_with_proof r0 es r : foreign e -> Race cfg m st fs e p key = Ok r0 ->
  run r0 es = Some r -> r_result r = Some (Ok tt) ->
  exists es1 ev es2 r1 opts env m' st' fs', es = es1 ++ ev :: es2 /\ run r0 es1 = Some r1 /\
    runHandshake (n_manager (r_node r1)) (n_store (r_node r1)) (n_fs (r_node r1)) opts env = (m', st', fs', Ok tt) /\
    o_initiator opts = Initiator p /\
    ((exists i, ev = EvAdopted i env) /\ o_pairing opts = key \/
     (exists j, ev = EvInboundDone j env) /\ o_pairing opts = if r_wiped r1 then Zeroise key else key).
Proof.
  intros Hf Hr0 Hrun Hres. pose proof (start_ok r0 Hf Hr0) as Hok0. pose proof (run_ok _ _ _ _ _ _ _ _ Hok0 Hrun) as Hok.
  assert (Hw0 : r_won r0 = false).
  { unfold Race in Hr0. destruct m as [m0|]; [|done]. destruct (expect e _ _) as [e' added]. by simplify_eq. }
  destruct (won_event _ _ _ Hrun Hw0 (ok_success _ _ _ _ _ _ Hok Hres)) as (es1 & ev & es2 & r1 & r2 & -> & Hr1 & Hs1 & Hn1 & Hw1).
  pose proof (run_ok _ _ _ _ _ _ _ _ Hok0 Hr1) as Hok1.
  destruct (winning_step _ _ _ _ _ _ _ _ Hok1 Hs1 Hn1 Hw1) as (o & env & m' & st' & fs' & Ho & Hi & Hh & Hev).
  eexists es1, ev, es2, r1, _, env, m', st', fs'. split; [done|]. split; [done|]. split; [exact Hh|]. split; [done|].
  cbn. rewrite Ho. pose proof (ok_key _ _ _ _ _ _ Hok1) as Hk. destruct Hev as [(i & -> & Hw)|(j & ->)].
  - left. rewrite Hw in Hk. eauto.
  - right. eauto.
Qed.

(** C27: the key and the expectation are not taken from under an attempt: while
    any path is still being tried, under any interleaving, the shared key slice
    has its original contents and the registry still has this rendezvous. *)
Theorem race_key_kept r0 es r a : foreign e -> Race cfg m st fs e p key = Ok r0 ->
  run r0 es = Some r -> a ∈ r_attempts r -> finished a = false ->
  r_key r = key /\ r_expect r = r_expect r0 /\ a_path <$> r_attempts r = paths.
Proof.
  intros Hf Hr0 Hrun Ha Hn. destruct (run_ok _ _ _ _ _ _ _ _ (start_ok r0 Hf Hr0) Hrun).
  destruct (r_wiped r) eqn:Ew; [|by auto]. eapply Forall_forall in Ha; [|by apply ok_done0, ok_wiped0]. cbn in Ha. congruence.
Qed.

(** A race that reports failure has tried everything: its error lists every
    path exactly once, and the relay is among them, not skipped in favour of
    another path. *)
Theorem race_failure_complete r0 es r errs : foreign e -> Race cfg m st fs e p key = Ok r0 ->
  run r0 es = Some r -> r_result r = Some (Err (EveryPathFailed errs)) ->
  errs.*1 ≡ₚ paths /\ exists why, (PathRelay, why) ∈ errs /\ why <> DirectWon.
Proof.
  intros Hf Hr0 Hrun Hres. destruct (run_ok _ _ _ _ _ _ _ _ (start_ok r0 Hf Hr0) Hrun).
  destruct (ok_failure0 _ Hres) as (Hp & Hd & _). split; [done|].
  assert (Hin : PathRelay ∈ errs.*1) by (rewrite Hp; apply relay_path). apply list_elem_of_fmap in Hin as ([path why] & Hpath & Hin).
  cbn in Hpath. subst path. exists why. split; [done|]. intros ->. by apply (Hd PathRelay).
Qed.

(** C32: an inbound handshake that is still running when the key is wiped is held
    to a key everybody knows: the confirmation it accepts is a function of the
    transcript and the key's length alone, so a peer without the code passes. *)
Theorem wiped_key_is_public r0 es r j o : foreign e -> Race cfg m st fs e p key = Ok r0 ->
  run r0 es = Some r -> r_wiped r = true -> r_inbound r !! j = Some o -> op_owner o = Ours -> 0 < len key ->
  0 < len (o_pairing (adopt_options (r_key r) o)) /\
  forall transcript got, VerifyPairConfirm (o_pairing (adopt_options (r_key r) o)) transcript got = true <->
    PairConfirm (replicate (length key) x00) transcript = Ok got.
Proof.
  intros Hf Hr0 Hrun Hw Hj Ho Hk. destruct (run_ok _ _ _ _ _ _ _ _ (start_ok r0 Hf Hr0) Hrun).
  unfold adopt_options. cbn. rewrite Ho, ok_key0, Hw, Zeroise_len. split; [done|]. intros tr got. apply Verify_iff.
Qed.
End races.

(** The caller may report a timeout over a session that is up: the exit taken when
    the context ends does not look at [won]. *)
Lemma timeout_despite_session `{CryptoOps, SignatureOps, DHOps, PeersJSON} r :
  r_result r = None -> r_won r = true -> r_ctx r = true ->
  exists r', step r EvReturnCtx = Some r' /\ r_won r' = true /\ r_result r' = Some (Err TimedOut).
Proof. intros Hr Hw Hc. cbn [step]. rewrite Hr, Hc. eauto. Qed.

(** ** Every race comes to an end *)
Definition weight (a : attempt) : nat := match a_state a with Grace => 3 | Dialing => 2 | Adopting => 1 | Finished => 0 end.
Definition remaining (r : race) : nat := sum_list_with weight (r_attempts r).

(** A peer that says nothing. *)
Definition silence : hs_env := mkHsEnv [] [] [] [] true true true [] 0 [] [] IoOk.

Lemma sum_insert {A} (f : A -> nat) l : forall i a a', l !! i = Some a ->
  (sum_list_with f (<[i := a']> l) + f a = sum_list_with f l + f a')%nat.
Proof.
  induction l as [|x l IH]; intros [|i] a a' Hi; cbn in Hi; try done; [simplify_eq|specialize (IH i a a' Hi)].
  - change (<[O := a']> (a :: l)) with (a' :: l). cbn. lia.
  - change (<[S i := a']> (x :: l)) with (x :: <[i := a']> l). cbn. lia.
Qed.

Section ending.
Context `{CryptoOps, SignatureOps, DHOps, PeersJSON}.

Lemma silent_fails m st fs opts : exists m' st' fs' err, runHandshake m st fs opts silence = (m', st', fs', Err err).
Proof.
  unfold runHandshake, negotiate. destruct (NewHandshaker _ _ _) as [hs| |]; [|by do 4 eexists..].
  destruct (o_initiator opts); [destruct (InitMessage hs)|]; by do 4 eexists.
Qed.

(** Some event finishes an attempt that is not finished, or brings it nearer. *)
Lemma attempt_progress r i a : r_attempts r !! i = Some a -> finished a = false ->
  exists ev r', step r ev = Some r' /\ (remaining r' < remaining r)%nat /\ length (r_attempts r') = length (r_attempts r).
Proof.
  intros Hi Hf. unfold remaining.
  assert (Hin : forall s, a_state a = s -> s <> Finished -> in_state r i s = Some a) by (intros s Hs Hn; unfold in_state; rewrite Hi; cbn; destruct (a_state a); by subst).
  assert (Hsum : forall s, (weight (mkAttempt (a_path a) (a_target a) s) < weight a)%nat ->
    (sum_list_with weight (<[i := mkAttempt (a_path a) (a_target a) s]> (r_attempts r)) < sum_list_with weight (r_attempts r))%nat)
    by (intros s Hw; pose proof (sum_insert weight _ i a (mkAttempt (a_path a) (a_target a) s) Hi); lia).
  unfold finished in Hf. unfold weight in Hsum. cbn in Hsum. destruct (a_state a) eqn:Es; [| | |done].
  - exists (EvGraceOver i). eexists. cbn [step]. rewrite (Hin Grace) by done. split; [done|]. cbn. rewrite length_insert. split; [apply Hsum; lia|done].
  - exists (EvDialFailed i). eexists. cbn [step]. rewrite (Hin Dialing) by done. split; [done|]. cbn. rewrite length_insert. split; [apply Hsum; lia|done].
  - exists (EvAdopted i silence). cbn [step]. rewrite (Hin Adopting) by done. cbn. unfold Adopt.
    destruct (silent_fails (n_manager (r_node r)) (n_store (r_node r)) (n_fs (r_node r)) (adopt_options (r_key r) (mkOptions (r_initiator r) Ours (a_path a))))
      as (m' & st' & fs' & err & ->). eexists. split; [done|]. cbn. rewrite length_insert. split; [apply Hsum; lia|done].
Qed.

Lemma run_app r es1 es2 r1 : run r es1 = Some r1 -> run r (es1 ++ es2) = run r1 es2.
Proof. unfold run. intros Hr. by rewrite foldl_app, Hr. Qed.

Lemma attempts_finish n : forall r, (remaining r <= n)%nat ->
  exists es r', (length es <= remaining r)%nat /\ run r es = Some r' /\ forallb finished (r_attempts r') = true.
Proof.
  induction n as [n IH] using lt_wf_ind. intros r Hr.
  destruct (forallb finished (r_attempts r)) eqn:E; [exists [], r; split_and!; [cbn; lia|done|done]|].
  assert (Hex : exists i a, r_attempts r !! i = Some a /\ finished a = false).
  { clear -E. revert E. generalize (r_attempts r). intros l. induction l as [|a l IHl]; [done|]. cbn.
    destruct (finished a) eqn:Ea; [|intros _; by exists 0%nat, a]. intros (i & b & ? & ?)%IHl. by exists (S i), b. }
  destruct Hex as (i & a & Hi & Hf). destruct (attempt_progress r i a Hi Hf) as (ev & r1 & Hs & Hlt & _).
  destruct (IH (remaining r1) ltac:(lia) r1 ltac:(lia)) as (es & r' & Hlen & Hrun & Hall).
  exists (ev :: es), r'. split_and!; [cbn; lia| |done]. unfold run. cbn [foldl mbind option_bind]. by rewrite Hs.
Qed.

Lemma remaining_bound l : (sum_list_with weight l <= 3 * length l)%nat.
Proof. induction l as [|a l IH]; [done|]. cbn. unfold weight at 1. destruct (a_state a); lia. Qed.

End ending.

(** ** Sample races *)
Module SampleRace.
Import Crypto.Toy ToyId ToyDH ToyPeers SampleManager.

Definition race_key : bytes := replicate 32 x2a.

(** The peer, as the publisher sees it: one LAN address and a reflexive one. *)
Definition sample_pairing : Pairing :=
  mkPairing RolePublisher [mkCandidate (str "10.0.0.1:7331") KindHost] (str "203.0.113.9:40000") [] 250000000 (replicate 32 x55) RungTLSDirect.

(** Alice's side of a handshake with Bob that ends in a confirmation under [k]. *)
Definition alice_proves (k : bytes) : hs_env :=
  let confirm :=
    match exchange (ident x01 "alice") (ident x02 "bob") (ToyDH.rng x0a) (ToyDH.rng x0b) (ToyDH.rng x0c) (ToyDH.rng x0d) with
    | Ok (ra, _) => match (SealPairConfirm (hr_session ra) k (Transcript ra) (ToyDH.rng x0e)).2 with Ok b => b | _ => [] end
    | _ => []
    end in
  mkHsEnv (ToyDH.rng x0b) (ToyDH.rng x0c) (ToyDH.rng x0d) [Got first_msg; Got third_msg; Got confirm] true true true
    (str "10.0.0.1:50111") 9 order order IoOk.

Definition cfg : Config := mkConfig (Some 7000) 0.

(** A race of Bob's, and the state some events lead to. *)
Definition sample_race : res race_err race := Race cfg (Some empty) store ∅ (Some ∅) sample_pairing race_key.
Definition after (es : list event) : option race := match sample_race with Ok r0 => run r0 es | _ => None end.

Lemma no_rivals : foreign (Some ∅).
Proof. intros m ip o [= <-]. by rewrite lookup_empty. Qed.

Lemma after_inv es r : after es = Some r -> exists r0, sample_race = Ok r0 /\ run r0 es = Some r.
Proof. unfold after. destruct sample_race as [r0| |]; [|done..]. eauto. Qed.

(** Alice's own dial arrives and proves the code while the punch still runs. *)
Definition alice_arrives : list event := [EvInbound (Some (str "10.0.0.1:50111")); EvInboundDone 0 (alice_proves race_key)].

Lemma alice_wins : exists r, after alice_arrives = Some r /\ r_won r = true /\ r_result r = None.
Proof.
  assert (Hres : (fun r => (r_won r, match r_result r with None => true | _ => false end)) <$> after alice_arrives = Some (true, true))
    by (vm_compute; reflexivity).
  destruct (after alice_arrives) as [r|]; [|discriminate Hres]. injection Hres as Hw Hr. exists r. split; [reflexivity|].
  split; [exact Hw|]. by destruct (r_result r).
Qed.

Definition all_fail : list event :=
  [EvDialFailed 0; EvGraceOver 2; EvDialFailed 1; EvDialled 2; EvAdopted 2 silence; EvAllDone; EvReturnDone].

(** A connection from the peer's address that stalls until the key is wiped. *)
Definition stalls : list event :=
  [EvDialFailed 0; EvDialFailed 1; EvGraceOver 2; EvDialFailed 2; EvAllDone; EvReturnDone;
   EvInbound (Some (str "203.0.113.9:61000")); EvWipe].
End SampleRace.
Import SampleRace.
Import Crypto.Toy ToyId ToyDH ToyPeers SampleManager.

Lemma race_wins_with_proof_witness : exists r, after (alice_arrives ++ [EvReturnWon]) = Some r /\ r_result r = Some (Ok tt) /\
  exists opts env m st fs m' st' fs', runHandshake m st fs opts env = (m', st', fs', Ok tt) /\ o_initiator opts = false.
Proof.
  destruct alice_wins as (r1 & E & Hw & Hn). apply after_inv in E as (r0 & H0 & Hrun1).
  assert (Hrun : run r0 (alice_arrives ++ [EvReturnWon]) = Some (return_ r1 (Ok tt))).
  { rewrite (run_app _ _ _ _ Hrun1). unfold run. cbn [foldl mbind option_bind step]. by rewrite Hn, Hw. }
  exists (return_ r1 (Ok tt)). split; [unfold after; by rewrite H0|]. split; [reflexivity|].
  destruct (race_wins_with_proof cfg (Some empty) store ∅ (Some ∅) sample_pairing race_key r0 _ _ no_rivals H0 Hrun eq_refl)
    as (es1 & ev & es2 & r2 & opts & env & m' & st' & fs' & _ & _ & Hh & Hi & _).
  do 8 eexists. split; [exact Hh|exact Hi].
Defined.

Lemma race_key_kept_witness : exists r, after [EvDialFailed 0; EvGraceOver 2] = Some r /\ r_key r = race_key.
Proof.
  assert (Hres : (fun r => finished <$> r_attempts r) <$> after [EvDialFailed 0; EvGraceOver 2] = Some [true; false; false])
    by (vm_compute; reflexivity).
  destruct (after [EvDialFailed 0; EvGraceOver 2]) as [r|] eqn:E; [|discriminate Hres]. exists r. split; [reflexivity|].
  injection Hres as Hres. apply after_inv in E as (r0 & H0 & Hrun).
  destruct (r_attempts r) as [|a [|b l]] eqn:Ea; [discriminate Hres..|]. injection Hres as _ Hb _.
  refine (proj1 (race_key_kept cfg (Some empty) store ∅ (Some ∅) sample_pairing race_key r0 _ r b no_rivals H0 Hrun _ Hb)).
  rewrite Ea. apply list_elem_of_further, list_elem_of_here.
Defined.

Lemma race_failure_complete_witness : exists r errs, after all_fail = Some r /\ r_result r = Some (Err (EveryPathFailed errs)) /\
  errs.*1 ≡ₚ [PathDirect; PathPunched; PathRelay].
Proof.
  assert (Hres : (fun r => match r_result r with Some (Err (EveryPathFailed _)) => true | _ => false end) <$> after all_fail = Some true)
    by (vm_compute; reflexivity).
  destruct (after all_fail) as [r|] eqn:E; [|discriminate Hres]. cbn in Hres.
  destruct (r_result r) as [[|[|errs|]|]|] eqn:Hr; try discriminate Hres. exists r, errs. split; [reflexivity|]. split; [exact Hr|].
  apply after_inv in E as (r0 & H0 & Hrun).
  exact (proj1 (race_failure_complete cfg (Some empty) store ∅ (Some ∅) sample_pairing race_key r0 all_fail r errs no_rivals H0 Hrun Hr)).
Defined.

(** The stalled connection then proves possession of the all-zero key, and is
    counted as the peer. *)
Example forged_confirmation_wins :
  r_won <$> after (stalls ++ [EvInboundDone 0 (alice_proves (replicate 32 x00))]) = Some true.
Proof. vm_compute. reflexivity. Qed.

Lemma wiped_key_is_public_witness : exists r o, after stalls = Some r /\ r_inbound r = [o] /\
  forall transcript got, VerifyPairConfirm (o_pairing (adopt_options (r_key r) o)) transcript got = true <->
    PairConfirm (replicate 32 x00) transcript = Ok got.
Proof.
  assert (Hres : (fun r => (r_wiped r, (fun o => match op_owner o with Ours => true | _ => false end) <$> r_inbound r)) <$> after stalls = Some (true, [true]))
    by (vm_compute; reflexivity).
  destruct (after stalls) as [r|] eqn:E; [|discriminate Hres]. injection Hres as Hw Hi.
  destruct (r_inbound r) as [|o [|? ?]] eqn:Ei; [discriminate Hi| |discriminate Hi]. injection Hi as Ho.
  assert (Ho' : op_owner o = Ours) by (destruct (op_owner o); [discriminate Ho|reflexivity|discriminate Ho]).
  exists r, o. split; [reflexivity|]. split; [exact Ei|]. apply after_inv in E as (r0 & H0 & Hrun).
  refine (proj2 (wiped_key_is_public cfg (Some empty) store ∅ (Some ∅) sample_pairing race_key r0 stalls r 0 o no_rivals H0 Hrun Hw _ Ho' _)).
  - rewrite Ei. reflexivity.
  - reflexivity.
Defined.


(** A run in which the race is won, the context ends, and a timeout is reported. *)
Lemma won_then_timed_out : exists r, after (alice_arrives ++ [EvCtx; EvReturnCtx]) = Some r /\
  r_won r = true /\ r_result r = Some (Err TimedOut).
Proof.
  destruct alice_wins as (r1 & E & Hw & Hn). apply after_inv in E as (r0 & H0 & Hrun1).
  destruct (timeout_despite_session (set_ctx r1) Hn Hw eq_refl) as (r2 & Hs & H1 & H2). exists r2. split; [|done].
  unfold after. rewrite H0, (run_app _ _ _ _ Hrun1). unfold run. cbn [foldl mbind option_bind]. exact Hs.
Qed.
