(* ===== verification/Join.v ===== *)
(** Inviting and joining: [Invite] and [Join] of
    [src/internal/connect/connect.go], up to the race they hand over to.

    The two draws of randomness, the addresses of the machine and the outcomes of
    the sends are arguments. *)
From Stdlib Require Import ZArith Lia.
From Stdlib Require Import Strings.Byte.
From stdpp Require Import base gmap strings numbers option list.
From S2P Require Import Prelude GoStrings Crypto Identity Session Messages Candidates Relay Dialer Code Connect Client.

Inductive connect_err := CnCode (e : code_err) | CnCand (e : cand_err) | CnClient (e : client_err).

(** What both sides derive from a code, with their sealed addresses. *)
Record secrets := mkSecrets { s_rid : bytes; s_key : bytes; s_sealed : bytes }.

Section steps.
Context `{CryptoOps, CandidateJSON}.

Definition prepare (cfg : Config) (addrs : option (list (option bytes))) (c : Code) (rng : bytes) : res connect_err secrets :=
  rid ← map_err CnCode (ID c);
  pairingKey ← map_err CnCode (PairingKey c);
  cands ← map_err CnCand (localCandidates cfg addrs);
  sealed ← map_err CnCand (SealCandidates pairingKey (mkCandidateSet cands) rng);
  Ok (mkSecrets rid pairingKey sealed).

(** [Invite] up to the wait inside [Publish]: the code, and the waiter. *)
Definition Invite_begin (cfg : Config) (addrs : option (list (option bytes))) (rng_code rng : bytes) (cl : Client) (order : list bytes)
  (ok : bytes -> bool) : Client * list Message * res connect_err (Code * secrets * nat) :=
  match (c ← map_err CnCode (NewCode rng_code); s ← prepare cfg addrs c rng; Ok (c, s)) with
  | Ok (c, s) =>
      let '(cl1, ms, w) := Publish_start cl (s_rid s) (s_sealed s) order ok in
      (cl1, ms, wid ← map_err CnClient w; Ok (c, s, wid))
  | Err e => (cl, [], Err e)
  | Panic => (cl, [], Panic)
  end.

(** The rest of [Invite]: the code as text, and the invite its [wait] waits on;
    the code itself is wiped. *)
Definition Invite_end (cl : Client) (c : Code) (s : secrets) (wid : nat) (ctx_done : bool) (k : case) :
  option (Client * Code * res connect_err (bytes * Client.Invite)) :=
  '(cl1, r) ← Publish_finish cl (s_rid s) wid ctx_done k;
  match r with
  | Ok invite => Some (cl1, Code_Zeroise c, Ok (Code_String c, invite))
  | Err e => Some (cl1, c, Err (CnClient e))
  | Panic => Some (cl1, c, Panic)
  end.

(** The function [Invite] returns, up to the race. *)
Definition Invite_wait (cl : Client) (i : Client.Invite) (s : secrets) (ctx_done : bool) (k : case) :
  option (Client * secrets * res connect_err Pairing) :=
  '(cl1, r) ← Invite_Wait cl i (s_key s) ctx_done k;
  match r with
  | Ok p => Some (cl1, s, Ok p)
  | Err e => Some (cl1, mkSecrets (s_rid s) (Zeroise (s_key s)) (s_sealed s), Err (CnClient e))
  | Panic => Some (cl1, s, Panic)
  end.

(** [Join] up to the wait inside [Claim]. *)
Definition Join_begin (cfg : Config) (addrs : option (list (option bytes))) (codeText rng : bytes) (cl : Client) (order : list bytes)
  (ok : bytes -> bool) : Client * list Message * res connect_err (secrets * nat) :=
  match (c ← map_err CnCode (ParseCode codeText); prepare cfg addrs c rng) with
  | Ok s =>
      let '(cl1, ms, w) := Claim_start cl (s_rid s) (s_sealed s) order ok in
      (cl1, ms, wid ← map_err CnClient w; Ok (s, wid))
  | Err e => (cl, [], Err e)
  | Panic => (cl, [], Panic)
  end.

(** The rest of [Join], up to the race; on an error the key is wiped. *)
Definition Join_end (cl : Client) (s : secrets) (wid : nat) (ctx_done : bool) (k : case) :
  option (Client * secrets * res connect_err Pairing) :=
  '(cl1, r) ← Claim_finish cl (s_rid s) wid (s_key s) ctx_done k;
  match r with
  | Ok p => Some (cl1, s, Ok p)
  | Err e => Some (cl1, mkSecrets (s_rid s) (Zeroise (s_key s)) (s_sealed s), Err (CnClient e))
  | Panic => Some (cl1, s, Panic)
  end.
End steps.

(** ** Both sides of a code *)
Section agreement.
Context `{CryptoLaws, CandidateJSONLaws}.

Lemma prepare_inv cfg addrs c rng s : prepare cfg addrs c rng = Ok s ->
  ID c = Ok (s_rid s) /\ PairingKey c = Ok (s_key s) /\
  exists cands, localCandidates cfg addrs = Ok cands /\ SealCandidates (s_key s) (mkCandidateSet cands) rng = Ok (s_sealed s).
Proof.
  unfold prepare. destruct (ID c) as [rid| |]; [|done..]. step_bind. destruct (PairingKey c) as [k| |]; [|done..]. step_bind.
  destruct (localCandidates cfg addrs) as [cs| |]; [|done..]. step_bind.
  destruct (SealCandidates k (mkCandidateSet cs) rng) as [b| |] eqn:E; [|done..]. step_bind. intros [= <-]. split_and!; [done..|]. eauto.
Qed.

Lemma derived_sizes c rid k : len (secret c) = codeEntropyBytes -> ID c = Ok rid -> PairingKey c = Ok k ->
  len rid = rendezvousIDSize /\ len k = PairingKeySize.
Proof.
  intros Hl. unfold ID, PairingKey.
  destruct (DeriveKey_ok (secret c) [] infoRendezvousID codeIDSize) as (a & -> & Ha); [rewrite Hl; done|done|].
  destruct (DeriveKey_ok (secret c) [] infoPairingKey PairingKeySize) as (b & -> & Hb); [rewrite Hl; done|done|].
  cbn. intros [= <-] [= <-]. done.
Qed.

Lemma NewCode_size rng c : NewCode rng = Ok c -> len (secret c) = codeEntropyBytes.
Proof.
  unfold NewCode. destruct (RandomBytes codeEntropyBytes rng) as [b| |] eqn:E; [|done..]. step_bind. intros [= <-].
  by apply RandomBytes_inv in E.
Qed.

(** The text an inviter reads out is all a joiner needs: retyped in any way
    the parser allows, it gives the joiner the same rendezvous and the same
    pairing key, of the right sizes, so that each side opens the other's sealed
    addresses and finds the usable ones among those the other machine has. *)
Theorem invite_join_agree cfgA addrsA rc rA clA orderA okA clA' msA c sA widA text cfgB addrsB rB clB orderB okB clB' msB sB widB :
  (forall set, json_candidates set) ->
  Invite_begin cfgA addrsA rc rA clA orderA okA = (clA', msA, Ok (c, sA, widA)) ->
  retyped text (Code_String c) ->
  Join_begin cfgB addrsB text rB clB orderB okB = (clB', msB, Ok (sB, widB)) ->
  s_rid sB = s_rid sA /\ s_key sB = s_key sA /\ len (s_rid sA) = rendezvousIDSize /\ len (s_key sA) = PairingKeySize /\
  exists csA csB, localCandidates cfgA addrsA = Ok csA /\ localCandidates cfgB addrsB = Ok csB /\
    OpenCandidates (s_key sB) (s_sealed sA) = Ok (mkCandidateSet (ValidateCandidates csA)) /\
    OpenCandidates (s_key sA) (s_sealed sB) = Ok (mkCandidateSet (ValidateCandidates csB)).
Proof.
  intros Hj HA Ht HB. unfold Invite_begin in HA. destruct (NewCode rc) as [c'| |] eqn:Ec; [|done..]. revert HA. step_bind.
  destruct (prepare cfgA addrsA c' rA) as [s| |] eqn:Ep; [|done..]. step_bind.
  destruct (Publish_start _ _ _ _ _) as [[? ?] [?| |]]; cbn; intros HA; simplify_eq.
  unfold Join_begin in HB. pose proof (NewCode_size _ _ Ec) as Hsize. rewrite (parse_retyped c text Hsize Ht) in HB. revert HB. step_bind.
  destruct (prepare cfgB addrsB c rB) as [s| |] eqn:Eq; [|done..].
  destruct (Claim_start _ _ _ _ _) as [[? ?] [?| |]]; cbn; intros HB; simplify_eq.
  apply prepare_inv in Ep as (I1 & K1 & csA & L1 & S1). apply prepare_inv in Eq as (I2 & K2 & csB & L2 & S2).
  assert (s_rid sB = s_rid sA /\ s_key sB = s_key sA) as [-> Hk] by (split; congruence). rewrite Hk in *.
  destruct (derived_sizes c _ _ Hsize I1 K1). split_and!; try done. exists csA, csB.
  split_and!; try done; [by apply open_sealed in S1|by apply open_sealed in S2].
Qed.

(** A failed call leaves no key behind. *)
Lemma join_error_wipes cl s wid d k cl' s' e : Join_end cl s wid d k = Some (cl', s', Err e) -> s_key s' = Zeroise (s_key s).
Proof. unfold Join_end. destruct (Claim_finish _ _ _ _ _ _) as [[cl1 [?|?|]]|]; cbn; intros; by simplify_eq. Qed.
End agreement.

(** ** Witness *)
Import Crypto.Toy ToyCandidates.

Definition live_client (n : nat) : Client := go_live NewClient n RungTLSDirect.
Definition code_rng : bytes := str "twenty random bytes!".
Definition home : Config := mkConfig None 7331.

Lemma typed_as_shown : retyped (Code_String (mkCode code_rng)) (Code_String (mkCode code_rng)).
Proof.
  assert (E : Code_String (mkCode code_rng) = str "OR3W-K3TU-PEQH-EYLO-MRXW-2IDC-PF2G-K4ZB") by (vm_compute; reflexivity).
  rewrite E. cbn. repeat first [apply rt_nil | apply rt_char; [reflexivity|reflexivity|reflexivity|]
             | apply rt_dropped; [reflexivity|] | apply rt_added; [reflexivity|]].
Qed.

Lemma invite_join_agree_witness : exists c sA sB wA wB clA msA clB msB,
  Invite_begin home (Some interfaces) code_rng ToyId.rng (live_client 1) [] (fun _ => true) = (clA, msA, Ok (c, sA, wA)) /\
  Join_begin home None (Code_String c) ToyId.rng (live_client 2) [] (fun _ => true) = (clB, msB, Ok (sB, wB)) /\
  s_rid sB = s_rid sA /\ s_key sB = s_key sA.
Proof.
  set (a := Invite_begin home (Some interfaces) code_rng ToyId.rng (live_client 1) [] (fun _ => true)).
  assert (HA : (fun x => x.1.1) <$> a.2 = Ok (mkCode code_rng)) by (vm_compute; reflexivity).
  assert (HB : is_ok (Join_begin home None (Code_String (mkCode code_rng)) ToyId.rng (live_client 2) [] (fun _ => true)).2 = true)
    by (vm_compute; reflexivity).
  destruct a as [[clA msA] [[[c sA] wA]| |]] eqn:EA; [|discriminate HA..]. injection HA as ->. subst a.
  destruct (Join_begin home None (Code_String (mkCode code_rng)) ToyId.rng (live_client 2) [] (fun _ => true)) as [[clB msB] [[sB wB]| |]] eqn:EB;
    [|discriminate HB..].
  exists (mkCode code_rng), sA, sB, wA, wB, clA, msA, clB, msB. split; [reflexivity|]. split; [exact EB|].
  assert (J : forall set, json_candidates set) by exact (fun _ => I).
  destruct (invite_join_agree home (Some interfaces) code_rng ToyId.rng (live_client 1) [] (fun _ => true) clA msA (mkCode code_rng) sA wA
    (Code_String (mkCode code_rng)) home None ToyId.rng (live_client 2) [] (fun _ => true) clB msB sB wB J EA typed_as_shown EB) as (H1 & H2 & _).
  exact (conj H1 H2).
Defined.
