(* ===== verification/Invitation.v ===== *)
(** An invite code from end to end: [Invite] and [Join] of
    [src/internal/connect/connect.go], the relay between them, the circuit both
    open with their tickets, and the handshake over it.  Composes [Join],
    [Rendezvous], [Relay], [Connect] and [Adoption]; the relay and the clients may
    be in the middle of other rendezvous. *)
From Stdlib Require Import ZArith Lia.
From Stdlib Require Import Strings.Byte.
From stdpp Require Import base gmap strings numbers option list.
From S2P Require Import Prelude GoStrings Crypto Identity Session Handshake Peers Messages Relay Candidates Dialer Code Client Rendezvous Manager ManagerProps Adoption Expect Connect Join.

(** ** The circuit *)
Definition circuit_request (ticket : bytes) : Message := mkMessage MsgCircuit [] [] [] [] [] [] 0 (b64 ticket) [].
Definition circuit_ok : Message := mkMessage MsgCircuitOK [] [] [] [] [] [] 0 [] [].

(** What [OpenCircuit] sends is [circuit_request], and it returns the connection
    when the relay answers [circuit_ok]. *)
Lemma OpenCircuit_ok {A} (conn : A) ticket :
  OpenCircuit (Ok conn) ticket true (Some circuit_ok) = (Some (circuit_request ticket), Ok conn).
Proof. reflexivity. Qed.

(** The tickets of both sides of circuit [cid] are unspent. *)
Definition unspent (s : Server) (cid : nat) (tk : bool -> bytes) : Prop :=
  (forall side, len (tk side) = TicketSize /\ tickets s !! encode (tk side) = Some (cid, side)) /\
  exists t, heap s !! cid = Some (mkCircuit None None false t false).

Lemma unspent_differ s cid tk : unspent s cid tk -> encode (tk false) <> encode (tk true).
Proof. intros [Ht _] E. destruct (Ht false) as [_ H1], (Ht true) as [_ H2]. rewrite E in H1. congruence. Qed.

(** The relay's answer to a half whose ticket is good, up to the circuit. *)
Lemma serve_circuit s conn addr held ticket e cid side s2 second : len ticket = TicketSize ->
  tickets s !! encode ticket = Some (cid, side) -> e_sent e = true -> e_wait e = CircuitDone ->
  attach (set_tickets s (delete (encode ticket) (tickets s))) cid side conn = (s2, second) ->
  serveMessage s conn addr held (circuit_request ticket) e =
    (if second then releaseOnce s2 cid else s2, [(conn, circuit_ok)], held, false).
Proof.
  intros Hl Ht He Hw Ha. unfold serveMessage, circuit_request. cbn [m_type].
  rewrite (decide_False (P := MsgCircuit = MsgPublish)) by done. rewrite (decide_False (P := MsgCircuit = MsgClaim)) by done.
  rewrite (decide_True (P := MsgCircuit = MsgCircuit)) by done. unfold attachCircuit. cbn [m_ticket].
  unfold decodeExact, b64. rewrite decode_encode.
  rewrite (decide_False (P := len ticket <> TicketSize)) by (intros Hn; by apply Hn).
  unfold redeem. change (EncodeToString ticket) with (encode ticket). rewrite Ht, He. cbn [negb].
  rewrite Ha, Hw. by destruct second.
Qed.

(** Whichever side comes first, both calls of [OpenCircuit] return their
    connection: the first half waits, the second starts the splice; the tickets are
    spent and, when the splice ends, the slot is given back. *)
Definition opens (s : Server) (cid : nat) (tk : bool -> bytes) : Prop :=
  forall (cn : bool -> nat) (addr : bool -> bytes) (held : bool -> list bytes) (e : bool -> env) (first : bool),
    (forall side, e_sent (e side) = true /\ e_wait (e side) = CircuitDone) ->
    let req side := circuit_request (tk side) in
    (forall side, OpenCircuit (Ok (cn side)) (tk side) true (Some circuit_ok) = (Some (req side), Ok (cn side))) /\
    exists s1 s2,
      serveMessage s (cn first) (addr first) (held first) (req first) (e first) =
        (s1, [(cn first, circuit_ok)], held first, false) /\
      serveMessage s1 (cn (negb first)) (addr (negb first)) (held (negb first)) (req (negb first)) (e (negb first)) =
        (s2, [(cn (negb first), circuit_ok)], held (negb first), false) /\
      (forall side, tickets s2 !! encode (tk side) = None) /\ circuits s2 = circuits s - 1 /\
      exists t, heap s2 !! cid = Some (mkCircuit (Some (cn false)) (Some (cn true)) true t true).

Lemma circuit_opens s cid tk : unspent s cid tk -> 0 < circuits s -> opens s cid tk.
Proof.
  intros Hu Hn cn addr held e first He req. split; [done|]. pose proof (unspent_differ _ _ _ Hu) as Hd. destruct Hu as [Ht [t Hh]].
  set (half := mkCircuit (if first then None else Some (cn first)) (if first then Some (cn first) else None) false t false).
  set (both := mkCircuit (Some (cn false)) (Some (cn true)) true t false).
  set (t1 := delete (encode (tk first)) (tickets s)). set (t2 := delete (encode (tk (negb first))) t1).
  set (s1 := set_heap (set_tickets s t1) (<[cid := half]> (heap s))).
  set (s2 := set_heap (set_tickets s1 t2) (<[cid := both]> (heap s1))).
  assert (A1 : attach (set_tickets s t1) cid first (cn first) = (s1, false)).
  { unfold attach. cbn [heap set_tickets]. rewrite Hh. by destruct first. }
  assert (A2 : attach (set_tickets s1 t2) cid (negb first) (cn (negb first)) = (s2, true)).
  { unfold attach. cbn [heap set_tickets s1 set_heap]. rewrite lookup_insert_eq. by destruct first. }
  assert (T1 : tickets s1 !! encode (tk (negb first)) = Some (cid, negb first)).
  { cbn. unfold t1. rewrite lookup_delete_ne by (destruct first; cbn; congruence). apply Ht. }
  exists s1, (releaseOnce s2 cid). unfold req. destruct (He first) as [E1 W1], (He (negb first)) as [E2 W2].
  split; [by apply (serve_circuit s (cn first) (addr first) (held first) (tk first) (e first) cid first s1 false);
            [apply Ht|apply Ht|..]|].
  split; [by apply (serve_circuit s1 (cn (negb first)) (addr (negb first)) (held (negb first)) (tk (negb first)) (e (negb first))
            cid (negb first) s2 true); [apply Ht|..]|].
  assert (HR : releaseOnce s2 cid = set_circuits (set_heap s2 (<[cid := mkCircuit (Some (cn false)) (Some (cn true)) true t true]> (heap s2)))
    (circuits s - 1)).
  { unfold releaseOnce. replace (heap s2 !! cid) with (Some both) by (symmetry; apply lookup_insert_eq). cbn [released both].
    unfold releaseCircuit. by rewrite decide_True. }
  rewrite HR.
  split; [|split; [done|exists t; cbn; by rewrite lookup_insert_eq]].
  intros side. cbn. unfold t2. destruct (decide (side = first)) as [->|Hs].
  - rewrite lookup_delete_ne by (destruct first; cbn; congruence). apply lookup_delete_eq.
  - replace (negb first) with side by (destruct side, first; done). apply lookup_delete_eq.
Qed.

(** ** From a code to a session *)

(** A live client that can make this request: everything else it owes has been
    sent, and it has no other request for the rendezvous. *)
Record ready (c : Client) (rid sealed : bytes) (claim : bool) (order : list bytes) (ok : bytes -> bool) : Prop := {
  rd_settled : settled c;
  rd_free : c_waiters c !! b64 rid = None;
  rd_sent : ok (b64 rid) = true;
  rd_order : enumerates order (set_waiters c (<[b64 rid := new_waiter c]> (c_waiters c))
    (<[new_waiter c := mkWaiter None None sealed claim false]> (c_heap c)))
}.

(** The relay can pair a claimer with a publisher now. *)
Record can_pair (s : Server) (publisher claimer : nat) (e : env) : Prop := {
  cp_other : publisher <> claimer;
  cp_room : circuits s < MaxCircuits (limits s);
  cp_rng : 2 * TicketSize <= len (e_rng e);
  cp_tickets : take (Z.to_nat TicketSize) (e_rng e) <> take (Z.to_nat TicketSize) (drop (Z.to_nat TicketSize) (e_rng e));
  cp_sent : e_sent e = true;
  cp_sent_peer : e_sent_peer e = true;
  cp_sent_claim : e_sent_claim e = true
}.

Section invitation.
Context `{CryptoLaws, CandidateJSONLaws, SignatureLaws, DHLaws, PeersJSON}.

(** C12: an invite code connects two users.  The inviter's call publishes and
    returns the code's text; whenever a joiner types it, in any way the parser
    allows, while the relay still holds it, both calls are paired: with opposite
    roles and the two sides of one unspent circuit, which opens for both in
    whichever order they come; and over any connection that carries what they
    send, the two handshakes end with each user registered at the other, proved
    to hold the code, and everything either writes shown to the other. *)
Theorem invite_connects cfgA addrsA rc rA cfgB addrsB rB c sA sB clA ca addrA heldA orderA okA s0 e0 :
  (forall set, json_candidates set) ->
  NewCode rc = Ok c -> prepare cfgA addrsA c rA = Ok sA -> prepare cfgB addrsB c rB = Ok sB ->
  ready clA (s_rid sA) (s_sealed sA) false orderA okA -> may_publish s0 addrA (e_now e0) -> e_sent e0 = true ->
  exists clA1 reqA s1 reply clA2 inv,
    Invite_begin cfgA addrsA rc rA clA orderA okA = (clA1, [reqA], Ok (c, sA, new_waiter clA)) /\
    serveMessage s0 ca addrA heldA reqA e0 = (s1, [(ca, reply)], heldA ++ [b64 (s_rid sA)], true) /\
    Invite_end (dispatch clA1 reply) c sA (new_waiter clA) false FromChannel =
      Some (clA2, Code_Zeroise c, Ok (Code_String c, inv)) /\
    forall typed clA' w clB cb addrB heldB orderB okB s e,
      retyped typed (Code_String c) ->
      waiter_of clA' (i_rid inv) = Some (i_waiter inv, w) -> paired w = None ->
      ready clB (s_rid sB) (s_sealed sB) true orderB okB ->
      pending s !! b64 (s_rid sA) = pending s1 !! b64 (s_rid sA) -> can_pair s ca cb e ->
      exists clB1 reqB s2 toB toA toB' clA3 clB2 pA pB cid,
        Join_begin cfgB addrsB typed rB clB orderB okB = (clB1, [reqB], Ok (sB, new_waiter clB)) /\
        serveMessage s cb addrB heldB reqB e = (s2, [(cb, toB); (ca, toA); (cb, toB')], heldB, true) /\
        Invite_wait (dispatch clA' toA) inv sA false FromChannel = Some (clA3, sA, Ok pA) /\
        Join_end (dispatch (dispatch clB1 toB) toB') sB (new_waiter clB) false FromChannel = Some (clB2, sB, Ok pB) /\
        let tk (side : bool) := Ticket (if side then pB else pA) in
        unspent s2 cid tk /\
        (forall s', unspent s' cid tk -> 0 < circuits s' -> opens s' cid tk) /\
        forall ma mb sta stb fsa fsb ea eb path, strangers mb ma stb sta fsb fsa eb ea ->
          connects mb ma stb sta fsb fsa
            (adopt_options (s_key sB) (mkOptions (Initiator pB) Ours path))
            (adopt_options (s_key sA) (mkOptions (Initiator pA) Ours path)) eb ea.
Proof.
  intros Hj Hc HA HB [SA NA OA EA] Hm He0.
  pose proof (NewCode_size _ _ Hc) as Hsize.
  destruct (prepare_inv _ _ _ _ _ HA) as (I1 & K1 & csA & L1 & S1).
  destruct (prepare_inv _ _ _ _ _ HB) as (I2 & K2 & csB & L2 & S2).
  assert (s_rid sB = s_rid sA /\ s_key sB = s_key sA) as [Hrid Hkey] by (split; congruence).
  rewrite Hrid, Hkey in *. destruct (derived_sizes c _ _ Hsize I1 K1) as [Hlr _].
  destruct (rendezvous_completes (s_key sA) (s_rid sA) (mkCandidateSet csA) (mkCandidateSet csB) rA rB (s_sealed sA) (s_sealed sB)
    clA ca addrA heldA orderA okA s0 e0 Hlr (Hj _) (Hj _) S1 S2 SA NA OA EA Hm He0)
    as (clA1 & reqA & s1 & reply & clA2 & inv & P1 & P2 & P3 & Hrest).
  exists clA1, reqA, s1, reply, clA2, inv.
  split. { unfold Invite_begin. rewrite Hc. step_bind. rewrite HA. step_bind. by rewrite P1. }
  split; [done|]. split; [unfold Invite_end; rewrite P3; reflexivity|].
  intros typed clA' w clB cb addrB heldB orderB okB s e Ht HwA HpA [SB NB OB EB] Hpend [C1 C2 C3 C4 C5 C6 C7].
  destruct (Hrest clA' w clB cb addrB heldB orderB okB s e HwA HpA SB NB OB EB Hpend C1 C2 C3 C4 C5 C6 C7)
    as (clB1 & reqB & s2 & toB & toA & toB' & clA3 & clB2 & pA & pB & cid & Q1 & Q2 & Q3 & Q4 & IA & IB & _ & _ & _ & _ & _
        & TA & TB & _ & TH & LA & LB).
  exists clB1, reqB, s2, toB, toA, toB', clA3, clB2, pA, pB, cid.
  split. { unfold Join_begin. rewrite (parse_retyped c typed Hsize Ht). step_bind. rewrite HB. step_bind. rewrite ?Hrid. by rewrite Q1. }
  split; [done|]. split; [unfold Invite_wait; rewrite Q3; reflexivity|].
  split; [unfold Join_end; rewrite ?Hrid, ?Hkey, Q4; reflexivity|]. cbv zeta.
  split. { split; [intros []; by split|by eexists]. }
  split; [intros s'; apply circuit_opens|].
  intros ma mb sta stb fsa fsb ea eb path Hs. apply strangers_connect; [done|done|done|]. by rewrite ?Hkey.
Qed.
End invitation.

(** ** Witness *)
Import Crypto.Toy ToyCandidates ToyId ToyDH ToyPeers SamplePair SampleRendezvous.

Lemma live_ready n rid sealed claim : ready (live n) rid sealed claim [b64 rid] (fun _ => true).
Proof. split; [apply live_settled|reflexivity|reflexivity|apply live_enumerates]. Qed.

Lemma sample_strangers : strangers (party x02 "bob") (party x01 "alice") none none ∅ ∅
  (env_of x0b x0d x0f (ident x01 "alice")) (env_of x0a x0c x0e (ident x02 "bob")).
Proof.
  split; [apply ident_keyed|apply ident_keyed|done|done| |apply env_able|apply env_able|reflexivity..].
  intros E. by apply sample_keys_differ.
Qed.

Lemma invite_connects_witness : exists sA sB clB1 reqB s2 pA pB cid,
  Join_begin home None (Code_String (mkCode code_rng)) ToyId.rng (live 2) [b64 (s_rid sB)] (fun _ => true) =
    (clB1, [reqB], Ok (sB, new_waiter (live 2))) /\
  unspent s2 cid (fun side => Ticket (if side then pB else pA)) /\
  connects (party x02 "bob") (party x01 "alice") none none ∅ ∅
    (adopt_options (s_key sB) (mkOptions (Initiator pB) Ours PathRelay))
    (adopt_options (s_key sA) (mkOptions (Initiator pA) Ours PathRelay))
    (env_of x0b x0d x0f (ident x01 "alice")) (env_of x0a x0c x0e (ident x02 "bob")).
Proof.
  set (c := mkCode code_rng). assert (Hc : NewCode code_rng = Ok c) by (vm_compute; reflexivity).
  assert (HA : is_ok (prepare home (Some interfaces) c ToyId.rng) = true) by (vm_compute; reflexivity).
  assert (HB : is_ok (prepare home None c ToyId.rng) = true) by (vm_compute; reflexivity).
  destruct (prepare home (Some interfaces) c ToyId.rng) as [sA| |] eqn:EA; [|discriminate HA..].
  destruct (prepare home None c ToyId.rng) as [sB| |] eqn:EB; [|discriminate HB..]. clear HA HB.
  assert (J : forall set, json_candidates set) by exact (fun _ => I).
  destruct (invite_connects home (Some interfaces) code_rng ToyId.rng home None ToyId.rng c sA sB (live 1) 1 alice_addr []
    [b64 (s_rid sA)] (fun _ => true) (New DefaultLimits) (at_now 0) J Hc EA EB (live_ready _ _ _ _)
    (may_publish_new _ _) eq_refl) as (clA1 & reqA & s1 & reply & clA2 & inv & E1 & E2 & E3 & Hrest).
  destruct (Hrest (Code_String c) (set_waiters (live 1) {[i_rid inv := i_waiter inv]} {[i_waiter inv := mkWaiter None None [] false true]})
    (mkWaiter None None [] false true) (live 2) 2%nat bob_addr [] [b64 (s_rid sB)] (fun _ => true)
    (set_pending (New DefaultLimits) (pending s1)) (at_now 7)) as
    (clB1 & reqB & s2 & _ & _ & _ & _ & _ & pA & pB & cid & F1 & _ & _ & _ & F2 & _ & F3).
  - apply typed_as_shown.
  - apply waiter_of_Some. unfold set_waiters. cbn [c_waiters c_heap]. split; apply lookup_singleton_eq.
  - reflexivity.
  - apply live_ready.
  - reflexivity.
  - by split.
  - exists sA, sB, clB1, reqB, s2, pA, pB, cid. split; [exact F1|]. split; [exact F2|]. apply F3. apply sample_strangers.
Defined.
