(* ===== verification/Command.v ===== *)
(** The command line: [src/main.go].

    What is read from the terminal and the environment, and the outcome of dials,
    are arguments; what is printed is a value.  Work started in the background is
    returned for the caller to run. *)
From Stdlib Require Import ZArith Lia.
From Stdlib Require Import Strings.Byte.
From stdpp Require Import base gmap strings numbers option list.
From S2P Require Import Prelude GoStrings Net Crypto Identity Peers Code Manager Connect.

(** *** Library functions *)

(** [strings.Fields]: the maximal runs of bytes between white space; each turn
    consumes a byte or more. *)
Definition flush (cur : bytes) : list bytes := match cur with [] => [] | _ => [cur] end.

Fixpoint fields_loop (fuel : nat) (cur s : bytes) : list bytes :=
  match fuel with
  | O => flush cur
  | S n =>
      match s with
      | [] => flush cur
      | b :: rest =>
          match space_prefix s with
          | O => fields_loop n (cur ++ [b]) rest
          | k => flush cur ++ fields_loop n [] (drop k s)
          end
      end
  end.

Definition Fields (s : bytes) : list bytes := fields_loop (length s) [] s.

Definition TrimPrefix (s p : bytes) : bytes := if HasPrefix s p then drop (length p) s else s.

(** The limit of [bufio.Scanner] on a line with its end. *)
Definition MaxScanTokenSize : Z := 65536.

(** A line without its carriage return. *)
Definition drop_cr (s : bytes) : bytes := match last s with Some x0d => take (length s - 1) s | _ => s end.

(** *** Start-up *)
Definition portOf (addr : bytes) : Z :=
  if decide (addr = []) then 0
  else match SplitHostPort addr with
       | Ok (_, port) => match Atoi port with Some n => n | None => 0 end
       | _ => 0
       end.

Inductive start_err := NoIdentity | ReadingPassphrase | StIdentity (e : identity_err).

(** [variable] is HMDL_PASSPHRASE, [line] the line typed, if one was. *)
Definition readPassphrase (variable : bytes) (line : option bytes) : res start_err bytes :=
  if decide (variable <> []) then Ok variable
  else match line with
       | None => Err ReadingPassphrase
       | Some l => Ok (TrimSpace l)
       end.

Section identity.
Context `{CryptoOps, SignatureOps, DiskOps}.

Definition loadOrCreateIdentity (fs : gmap bytes bytes) (path name variable : bytes) (line : option bytes)
  (keygen : bytes -> bytes) (rng_key rng : bytes) (io : io_outcome) : gmap bytes bytes * res start_err Identity :=
  match fs !! path with
  | Some _ =>
      (fs, pass ← readPassphrase variable line; map_err StIdentity (Load fs path pass))
  | None =>
      if decide (TrimSpace name = []) then (fs, Err NoIdentity)
      else match (id ← map_err StIdentity (Generate keygen name rng_key); pass ← readPassphrase variable line; Ok (id, pass)) with
           | Ok (id, pass) =>
               let '(fs', r) := Save fs id path pass rng io in
               (fs', _ ← map_err StIdentity r; Ok id)
           | Err e => (fs, Err e)
           | Panic => (fs, Panic)
           end
  end.
End identity.

(** *** Commands *)
Inductive command :=
| CmdQuit | CmdHelp | CmdNoRelay | CmdInvite | CmdJoin (code : bytes) | CmdConnect (addr : bytes)
| CmdMsg (name text : bytes) | CmdAll (text : bytes) | CmdPeers | CmdVerify (name : bytes) | CmdUsage (cmd : bytes) | CmdUnknown.

(** The words of [handleCommand]; [relay] is whether a relay is configured. *)
Definition parse_command (relay : bool) (line : bytes) : res manager_err command :=
  match Fields line with
  | [] => Panic
  | word :: args =>
      let cmd := TrimPrefix word (str "/") in
      if decide (cmd = str "quit" \/ cmd = str "exit") then Ok CmdQuit
      else if decide (cmd = str "help") then Ok CmdHelp
      else if decide (cmd = str "invite") then Ok (if relay then CmdInvite else CmdNoRelay)
      else if decide (cmd = str "join") then
        if relay then
          match args with [] => Ok (CmdUsage cmd) | _ => Ok (CmdJoin (join [] args)) end
        else Ok CmdNoRelay
      else if decide (cmd = str "connect") then
        match args with [] => Ok (CmdUsage cmd) | addr :: _ => Ok (CmdConnect addr) end
      else if decide (cmd = str "msg") then
        match args with name :: (_ :: _) as words => Ok (CmdMsg name (join (str " ") words)) | _ => Ok (CmdUsage cmd) end
      else if decide (cmd = str "all") then
        match args with [] => Ok (CmdUsage cmd) | _ => Ok (CmdAll (join (str " ") args)) end
      else if decide (cmd = str "peers") then Ok CmdPeers
      else if decide (cmd = str "verify") then
        match args with [] => Ok (CmdUsage cmd) | name :: _ => Ok (CmdVerify name) end
      else Ok CmdUnknown
  end.

(** What the user sees. *)
Inductive printed :=
| PrHelp | PrNoRelay | PrUsage (cmd : bytes) | PrUnknown | PrNoPeers | PrSendFailed (e : manager_err) | PrConnectFailed
| PrPeers (l : list PeerInfo) | PrVerified (name : bytes) | PrVerifyFailed (e : peers_err).

(** What is left to run in the background. *)
Inductive job := JobInvite | JobJoin (code : bytes) | JobHandshake (addr : bytes) (opts : AdoptOptions).

(** The randomness, the orders of iteration, and the outcomes of a command. *)
Record console := mkConsole {
  cn_rng : bytes;
  cn_conns : list nat;
  cn_order : list bytes;
  cn_order' : list bytes;
  cn_io : io_outcome;
  cn_dialled : bool
}.

(** [Manager.Connect]: the handshake a successful dial leads to. *)
Definition Connect_options : AdoptOptions := mkAdopt true [] PathDirect.

Section commands.
Context `{CryptoOps, SignatureOps, PeersJSON}.

Definition set_manager (n : node) (m : Manager) : node := mkNode m (n_store n) (n_fs n).

Definition broadcast_line (n : node) (text : bytes) (e : console) : node * list printed :=
  let '(m, k) := Broadcast (n_manager n) (cn_conns e) text (cn_rng e) in
  (set_manager n m, if decide (k = 0) then [PrNoPeers] else []).

(** A command: the state, what is printed, what is started, and whether the user
    asked to quit. *)
Definition handleCommand (n : node) (relay : bool) (line : bytes) (e : console) :
  res manager_err (node * list printed * list job * bool) :=
  c ← parse_command relay line;
  match c with
  | CmdQuit => Ok (n, [], [], true)
  | CmdHelp => Ok (n, [PrHelp], [], false)
  | CmdNoRelay => Ok (n, [PrNoRelay], [], false)
  | CmdInvite => Ok (n, [], [JobInvite], false)
  | CmdJoin code => Ok (n, [], [JobJoin code], false)
  | CmdConnect addr =>
      if cn_dialled e then Ok (n, [], [JobHandshake addr Connect_options], false) else Ok (n, [PrConnectFailed], [], false)
  | CmdMsg name text =>
      let '(m, r) := Send (n_manager n) name text (cn_rng e) in
      match r with
      | Ok _ => Ok (set_manager n m, [], [], false)
      | Err err => Ok (set_manager n m, [PrSendFailed err], [], false)
      | Panic => Panic
      end
  | CmdAll text => let '(n1, out) := broadcast_line n text e in Ok (n1, out, [], false)
  | CmdPeers =>
      match Manager_Peers (n_manager n) (cn_conns e) with
      | [] => Ok (n, [PrNoPeers], [], false)
      | l => Ok (n, [PrPeers l], [], false)
      end
  | CmdVerify name =>
      let '(fs, st, r) := Peers.Verify (n_fs n) (n_store n) (cn_order e) (cn_order' e) name (cn_io e) in
      match r with
      | Ok (p, Ok _) => Ok (mkNode (n_manager n) st fs, [PrVerified (p_name p)], [], false)
      | Ok (_, Err err) | Err err => Ok (mkNode (n_manager n) st fs, [PrVerifyFailed err], [], false)
      | Ok (_, Panic) | Panic => Panic
      end
  | CmdUsage cmd => Ok (n, [PrUsage cmd], [], false)
  | CmdUnknown => Ok (n, [PrUnknown], [], false)
  end.

(** [repl]: the lines of the terminal, each with the circumstances of its
    execution; a line too long for the scanner ends the loop. *)
Fixpoint repl (n : node) (relay : bool) (lines : list (bytes * console)) : res manager_err (node * list printed * list job) :=
  match lines with
  | [] => Ok (n, [], [])
  | (raw, e) :: rest =>
      if decide (MaxScanTokenSize <= len raw) then Ok (n, [], [])
      else
        let line := TrimSpace (drop_cr raw) in
        if decide (line = []) then repl n relay rest
        else if negb (HasPrefix line (str "/")) then
          let '(n1, out) := broadcast_line n line e in
          '(n2, out', jobs) ← repl n1 relay rest; Ok (n2, out ++ out', jobs)
        else
          '(n1, out, js, quit) ← handleCommand n relay line e;
          if quit : bool then Ok (n1, out, js)
          else '(n2, out', jobs) ← repl n1 relay rest; Ok (n2, out ++ out', js ++ jobs)
  end.
End commands.

(** ** Words *)
Lemma flush_ne cur : cur <> [] -> flush cur = [cur].
Proof. by destruct cur. Qed.

Lemma fields_ne fuel : forall cur s, cur <> [] -> fields_loop fuel cur s <> [].
Proof.
  induction fuel as [|n IH]; intros cur s Hc; cbn; [by rewrite flush_ne|].
  destruct s as [|b rest]; [by rewrite flush_ne|]. destruct (space_prefix (b :: rest)); [apply IH; by destruct cur|].
  by rewrite flush_ne.
Qed.

(** A field has no white space in it; a space in particular. *)
Definition word (w : bytes) : Prop := w <> [] /\ x20 ∉ w.

Lemma flush_word cur : x20 ∉ cur -> Forall word (flush cur).
Proof. destruct cur; cbn; [constructor|]. intros Hn. by repeat constructor. Qed.

Lemma fields_word fuel : forall cur s, x20 ∉ cur -> Forall word (fields_loop fuel cur s).
Proof.
  induction fuel as [|n IH]; intros cur s Hc; cbn; [by apply flush_word|]. destruct s as [|b rest]; [by apply flush_word|].
  destruct (space_prefix (b :: rest)) as [|k] eqn:E.
  - apply IH. rewrite not_elem_of_app, list_elem_of_singleton. split; [done|]. intros <-. done.
  - apply Forall_app. split; [by apply flush_word|]. apply IH, not_elem_of_nil.
Qed.

Lemma Fields_word s : Forall word (Fields s).
Proof. apply fields_word, not_elem_of_nil. Qed.

(** A byte that starts no white space. *)
Definition space_lead (b : byte) : bool :=
  match b with x09 | x0a | x0b | x0c | x0d | x20 | xc2 | xe1 | xe2 | xe3 => true | _ => false end.

Lemma lead_prefix b s : space_lead b = false -> space_prefix (b :: s) = O.
Proof. by destruct b. Qed.

Lemma space_drop s : drop 1 (x20 :: s) = s.
Proof. done. Qed.

Lemma fields_run w : forall fuel cur s, Forall (fun b => space_lead b = false) w -> (length w <= fuel)%nat ->
  fields_loop fuel cur (w ++ s) = fields_loop (fuel - length w) (cur ++ w) s.
Proof.
  induction w as [|b w IH]; intros fuel cur s Hw Hf; cbn [length app] in *; [by rewrite Nat.sub_0_r, app_nil_r|].
  destruct fuel as [|fuel]; [lia|]. apply Forall_cons in Hw as [Hb Hw]. cbn [fields_loop]. rewrite lead_prefix by done.
  rewrite IH by (done || lia). by rewrite <- app_assoc.
Qed.

(** Words with single spaces between them come back as they are. *)
Lemma fields_join ws : forall fuel, Forall (fun w => w <> [] /\ Forall (fun b => space_lead b = false) w) ws ->
  (length (join (str " ") ws) <= fuel)%nat -> fields_loop fuel [] (join (str " ") ws) = ws.
Proof.
  induction ws as [|w ws IH]; intros fuel Hw Hf; [by destruct fuel|]. apply Forall_cons in Hw as [[Hne Hw] Hws].
  destruct ws as [|v ws].
  - cbn [join] in *. rewrite <- (app_nil_r w) at 1. rewrite fields_run by done. cbn [app].
    destruct (fuel - length w)%nat; cbn; by apply flush_ne.
  - rewrite join_cons in *. rewrite !length_app in Hf. rewrite fields_run by (done || lia). cbn [app].
    change (str " " ++ join (str " ") (v :: ws)) with (x20 :: join (str " ") (v :: ws)).
    destruct (fuel - length w)%nat as [|m] eqn:E; [change (length (str " ")) with 1%nat in Hf; lia|].
    cbn [fields_loop space_prefix]. rewrite flush_ne, space_drop by done. cbn [app]. f_equal. apply IH; [done|].
    change (length (str " ")) with 1%nat in Hf. lia.
Qed.

Lemma Fields_join ws : Forall (fun w => w <> [] /\ Forall (fun b => space_lead b = false) w) ws -> Fields (join (str " ") ws) = ws.
Proof. intros Hw. by apply fields_join. Qed.

(** ** Commands are understood *)
Lemma HasPrefix_slash line : HasPrefix line (str "/") = true -> exists rest, line = x2f :: rest.
Proof. unfold HasPrefix. intros Hp%bool_decide_eq_true. destruct line as [|b rest]; [done|]. cbn in Hp. exists rest. congruence. Qed.

Lemma parse_total relay line : HasPrefix line (str "/") = true -> exists c, parse_command relay line = Ok c.
Proof.
  intros (rest & ->)%HasPrefix_slash. unfold parse_command, Fields. cbn [length fields_loop].
  change (space_prefix (x2f :: rest)) with O. cbn match. pose proof (fields_ne (length rest) [x2f] rest ltac:(done)) as Hne. cbn [app].
  destruct (fields_loop (length rest) [x2f] rest) as [|word args]; [done|].
  repeat (case_decide; [try (destruct relay); try (destruct args as [|? [|? ?]]); by eexists|]). by eexists.
Qed.

(** Every line the user can type is handled: a line that reaches the command
    parser always has a command word, so the indexing of its fields never panics,
    and [/msg], whose words are separated by single spaces, means exactly what
    was typed. *)
Theorem commands_understood relay :
  (forall raw, HasPrefix (TrimSpace (drop_cr raw)) (str "/") = true ->
     exists c, parse_command relay (TrimSpace (drop_cr raw)) = Ok c) /\
  (forall name words, words <> [] ->
     Forall (fun w => w <> [] /\ Forall (fun b => space_lead b = false) w) (name :: words) ->
     parse_command relay (join (str " ") (str "/msg" :: name :: words)) = Ok (CmdMsg name (join (str " ") words))).
Proof.
  split; [intros raw; apply parse_total|]. intros name words Hne Hw. unfold parse_command. rewrite Fields_join.
  - cbn match. change (TrimPrefix (str "/msg") (str "/")) with (str "msg").
    do 5 (rewrite decide_False by (apply (bool_decide_unpack _); vm_compute; exact I)).
    rewrite decide_True by done. by destruct words.
  - constructor; [|done]. split; [done|]. apply (bool_decide_unpack _). vm_compute. exact I.
Qed.

(** A name with a space in it cannot be written on the command line: whatever
    is typed, the name [/msg] sends to and the name [/verify] trusts have none,
    and a text has its white space replaced by single spaces. *)
Theorem spaced_names_unreachable relay line :
  (forall name text, parse_command relay line = Ok (CmdMsg name text) ->
     word name /\ exists words, text = join (str " ") words /\ Forall word words) /\
  (forall name, parse_command relay line = Ok (CmdVerify name) -> word name).
Proof.
  pose proof (Fields_word line) as Hw. unfold parse_command. destruct (Fields line) as [|w args]; [done|].
  apply Forall_cons in Hw as [_ Hw].
  split; [intros name text|intros name]; repeat case_decide; try done; try (destruct relay; by destruct args as [|? [|? ?]]);
    (destruct args as [|a args]; [done|]); apply Forall_cons in Hw as [Ha Hw].
  - destruct args as [|b args]; [done|]. intros [= <- <-]. split; [done|]. by exists (b :: args).
  - by intros [= <-].
Qed.

(** ** Joining *)

(** Characters a retyped code is made of. *)
Definition code_char (c : byte) : Prop := byte_val c < 128 /\ c <> x0b /\ c <> x0c.

Lemma code_space c s : code_char c -> space_prefix (c :: s) = if decide (c = x20 \/ c = x09 \/ c = x0a \/ c = x0d) then 1%nat else 0%nat.
Proof. intros (Hv & H1 & H2). destruct c; try reflexivity; try done; vm_compute in Hv; discriminate Hv. Qed.

Lemma join_nil_app l : forall ws, join [] (l ++ ws) = join [] l ++ join [] ws.
Proof.
  induction l as [|w l IH]; intros ws; [done|]. destruct l as [|v l], ws as [|u ws]; cbn [app] in *; rewrite ?app_nil_r; try done.
  - rewrite join_cons, IH. cbn [app]. by rewrite join_cons, <- app_assoc.
Qed.

Lemma join_flush cur : join [] (flush cur) = cur.
Proof. by destruct cur. Qed.

Lemma fields_clean fuel : forall cur s, (length s <= fuel)%nat -> Forall code_char s ->
  filter (fun c => separator c = false) (join [] (fields_loop fuel cur s)) =
  filter (fun c => separator c = false) (cur ++ s).
Proof.
  induction fuel as [|n IH]; intros cur s Hl Hc.
  { destruct s; [|cbn in Hl; lia]. cbn. by rewrite join_flush, app_nil_r. }
  destruct s as [|c s]; [cbn; by rewrite join_flush, app_nil_r|]. apply Forall_cons in Hc as [Hc Hs]. cbn [fields_loop length] in *.
  rewrite code_space by done. case_decide as Hd.
  - cbn [drop]. rewrite drop_0, join_nil_app, join_flush, filter_app, IH by (done || lia). cbn [app]. rewrite filter_app, filter_cons_False; [done|].
    by destruct Hd as [->|[->|[->| ->]]].
  - rewrite IH by (done || lia). by rewrite <- app_assoc.
Qed.

(** The characters of a code are visible. *)
Lemma digit32_visible v : 32 < byte_val (digit32 v).
Proof.
  assert (Hall : forallb (fun n => 32 <? byte_val (nth n alphabet32 x3d)) (seq 0 32) = true) by (vm_compute; reflexivity).
  unfold digit32. pose proof (Z.mod_pos_bound v 32 eq_refl). apply Z.ltb_lt.
  apply (proj1 (forallb_forall _ _) Hall). apply in_seq. lia.
Qed.

Lemma encode32_visible k : forall b, length b = (5 * k)%nat -> Forall (fun c => 32 < byte_val c) (encode32 b).
Proof.
  induction k as [|k IH]; intros b Hb; [destruct b; [constructor|done]|].
  do 5 (destruct b as [|? b]; [cbn in Hb; lia|]). cbn [encode32]. apply Forall_app. split; [|apply IH; cbn in Hb; lia].
  apply Forall_fmap, Forall_true. intros v. apply digit32_visible.
Qed.

Lemma group_visible raw : forall i, Forall (fun c => 32 < byte_val c) raw -> Forall (fun c => 32 < byte_val c) (group i raw).
Proof.
  induction raw as [|c raw IH]; intros i Hf; [constructor|]. apply Forall_cons in Hf as [Hc Hf]. cbn [group].
  case_decide; repeat constructor; auto; by vm_compute.
Qed.

Lemma retyped_chars s t : retyped s t -> Forall (fun c => 32 < byte_val c) t -> Forall code_char s.
Proof.
  induction 1 as [|c s t Hc _ IH|c s t Hc _ IH|c d s t Hc Ha Hd _ IH]; intros Hf; [constructor|..].
  - constructor; [|by apply IH]. destruct c; try done; by vm_compute.
  - apply Forall_cons in Hf as [_ Hf]. by apply IH.
  - apply Forall_cons in Hf as [Hx Hf]. constructor; [|by apply IH]. split; [done|].
    split; intros ->; vm_compute in Hd; subst d; by vm_compute in Hx.
Qed.

Lemma Fields_cons w s : w <> [] -> Forall (fun b => space_lead b = false) w -> Fields (w ++ x20 :: s) = w :: fields_loop (length s) [] s.
Proof.
  intros Hne Hw. unfold Fields. rewrite fields_run by (try done; rewrite length_app; lia). cbn [app].
  rewrite length_app. replace (length w + length (x20 :: s) - length w)%nat with (S (length s)) by (cbn; lia).
  cbn [fields_loop space_prefix]. by rewrite flush_ne, space_drop by done.
Qed.

(** The code an inviter reads out can be typed after [/join] in upper or lower
    case and with spaces or dashes anywhere: what the command passes on is parsed
    as the same code. *)
Theorem join_command_accepts c s : len (secret c) = codeEntropyBytes -> retyped s (Code_String c) ->
  exists text, parse_command true (str "/join " ++ s) = Ok (CmdJoin text) /\ ParseCode text = Ok c.
Proof.
  intros Hl Hr. assert (Hlen : length (secret c) = (5 * 4)%nat) by (unfold len, codeEntropyBytes in Hl; lia).
  pose proof (retyped_chars _ _ Hr (group_visible _ 0 (encode32_visible 4 _ Hlen))) as Hc.
  pose proof (parse_retyped c s Hl Hr) as Hp. unfold parse_command.
  change (str "/join " ++ s) with (str "/join" ++ x20 :: s).
  rewrite Fields_cons; [|done|apply (bool_decide_unpack _); vm_compute; exact I]. cbn match.
  change (TrimPrefix (str "/join") (str "/")) with (str "join").
  do 3 (rewrite decide_False by (apply (bool_decide_unpack _); vm_compute; exact I)). rewrite decide_True by done.
  assert (Hclean : clean (join [] (fields_loop (length s) [] s)) = clean s) by (unfold clean; by rewrite fields_clean).
  assert (Hpt : ParseCode (join [] (fields_loop (length s) [] s)) = Ok c) by (unfold ParseCode in *; by rewrite Hclean).
  destruct (fields_loop (length s) [] s) as [|w ws] eqn:E; [cbn in Hpt; done|]. eauto.
Qed.

(** ** Identities *)
Section identities.
Context `{CryptoLaws, SignatureLaws, DiskLaws}.

(** The identity created on the first run is the one every later run loads:
    with a key generator that makes well-formed keys, if the first run reports an
    identity, a second run on the files it left, given the same passphrase and
    whatever name, reports the same identity and changes nothing. *)
Theorem identity_kept fs path name name' variable line keygen rk rng io rk' rng' io' fs' id :
  (forall seed, len (keygen seed) = PrivateKeySize) -> json_text name -> saltSize + NonceSize <= len rng ->
  fs !! path = None -> loadOrCreateIdentity fs path name variable line keygen rk rng io = (fs', Ok id) ->
  loadOrCreateIdentity fs' path name' variable line keygen rk' rng' io' = (fs', Ok id) /\ Name id = name.
Proof.
  intros Hk Hj Hr Hn. unfold loadOrCreateIdentity. rewrite Hn. case_decide as Hname; [done|].
  destruct (Generate keygen name rk) as [id0| |] eqn:Eg; [|done..]. step_bind.
  destruct (readPassphrase variable line) as [pass| |] eqn:Ep; [|done..]. step_bind.
  destruct (Save fs id0 path pass rng io) as [fs1 r] eqn:Es. destruct r as [[]| |]; cbn; intros [= <- <-].
  unfold Generate in Eg. rewrite decide_False in Eg by done. destruct (RandomBytes 32 rk) as [seed| |]; [|done..]. simplify_eq.
  assert (Hpass : pass <> []) by (intros ->; unfold Save in Es; cbn [priv] in Es; rewrite decide_True in Es by done; congruence).
  assert (Hid : identity_ok (mkIdentity name (Some (keygen seed)) (ed25519_public (keygen seed)))).
  { split; [done|]. exists (keygen seed). by split_and!. }
  destruct (save_then_load fs _ path pass rng io fs1 (Ok tt) Hid Hpass Hr Es) as [[_ Hload]|[? _]]; [|done].
  destruct (fs1 !! path) as [b|] eqn:Eb.
  - rewrite Hload. by split.
  - unfold Load, readIdentityFile in Hload. rewrite Eb in Hload. done.
Qed.
End identities.

(** A line that fills the scanner's buffer ends the program without a word. *)
Lemma long_line_ends_session `{CryptoOps, SignatureOps, PeersJSON} n relay raw e rest : MaxScanTokenSize <= len raw ->
  repl n relay ((raw, e) :: rest) = Ok (n, [], []).
Proof. intros Hl. cbn [repl]. by rewrite decide_True. Qed.

(** ** Witnesses *)
Import Crypto.Toy ToyId.

Lemma commands_understood_witness :
  parse_command false (str "/msg bob see you at six") = Ok (CmdMsg (str "bob") (str "see you at six")).
Proof.
  refine (proj2 (commands_understood false) (str "bob") [str "see"; str "you"; str "at"; str "six"] _ _).
  - discriminate.
  - apply (bool_decide_unpack _). vm_compute. exact I.
Defined.

Lemma spaced_names_unreachable_witness : word (str "Ann") /\
  parse_command false (str "/msg Ann Lee hello") = Ok (CmdMsg (str "Ann") (str "Lee hello")).
Proof.
  assert (E : parse_command false (str "/msg Ann Lee hello") = Ok (CmdMsg (str "Ann") (str "Lee hello"))) by (vm_compute; reflexivity).
  split; [|exact E]. exact (proj1 (proj1 (spaced_names_unreachable false (str "/msg Ann Lee hello")) _ _ E)).
Defined.

Lemma join_command_accepts_witness : exists text,
  parse_command true (str "/join or3w k3tu PEQH-EYLO MRXW 2IDC PF2GK4ZB") = Ok (CmdJoin text) /\ ParseCode text = Ok sample_code.
Proof.
  apply (join_command_accepts sample_code (str "or3w k3tu PEQH-EYLO MRXW 2IDC PF2GK4ZB")); [reflexivity|].
  assert (E : Code_String sample_code = str "OR3W-K3TU-PEQH-EYLO-MRXW-2IDC-PF2G-K4ZB") by (vm_compute; reflexivity).
  rewrite E. cbn.
  repeat first [apply rt_nil | apply rt_char; [reflexivity|reflexivity|reflexivity|]
               | apply rt_dropped; [reflexivity|] | apply rt_added; [reflexivity|]].
Defined.

Definition first_run : gmap bytes bytes * res start_err Identity :=
  loadOrCreateIdentity ∅ (str "id") (str "bob") (str "pass") None (fun _ => ToyId.secret) (replicate 32 x01) ToyId.rng IoOk.

Lemma identity_kept_witness : exists fs id, first_run = (fs, Ok id) /\
  loadOrCreateIdentity fs (str "id") [] (str "pass") None (fun _ => ToyId.secret) [] [] IoOk = (fs, Ok id).
Proof.
  assert (Hok : is_ok first_run.2 = true) by (vm_compute; reflexivity).
  destruct first_run as [fs [id| |]] eqn:E; [|discriminate Hok..]. exists fs, id. split; [reflexivity|].
  refine (proj1 (identity_kept ∅ (str "id") (str "bob") [] (str "pass") None (fun _ => ToyId.secret) (replicate 32 x01) ToyId.rng IoOk
    [] [] IoOk fs id _ I _ _ E)).
  - reflexivity.
  - discriminate.
  - reflexivity.
Defined.
