(* ===== verification/RelayCommand.v ===== *)
(** The relay command: [src/cmd/hmdl-relay/main.go], its certificates, its start
    and its end.

    Loading a key pair, creating a certificate and opening a socket are functions
    of the Go library: their outcomes are arguments. *)
From Stdlib Require Import ZArith Lia.
From Stdlib Require Import Strings.Byte.
From stdpp Require Import base gmap strings numbers option list.
From S2P Require Import Prelude GoStrings Net Url Crypto Identity Messages Upgrade Dialer Relay.

(** A [tls.Certificate]: the chain, and the public half of its key. *)
Record certificate := mkCertificate { ct_chain : list bytes; ct_spki : bytes }.

Record server_config := mkServerConfig { sc_cert : certificate; sc_min_version : Z; sc_protocols : list bytes }.

Definition VersionTLS12 : Z := 771.   (* 0x0303 *)

Inductive tls_err := CertWithoutKey | LoadingCertificate | Generating.

Definition baseTLSConfig (cert : certificate) : server_config := mkServerConfig cert VersionTLS12 [str "http/1.1"].

Section tls.
Context `{SignatureOps, X509Ops}.

(** [generated] is the DER of a new certificate, if the library made one. *)
Definition selfSignedCert (generated : option bytes) : res tls_err (certificate * bytes) :=
  match generated with
  | None => Err Generating
  | Some der =>
      match spki_of der with
      | None => Err Generating
      | Some spki => Ok (mkCertificate [der] spki, PinFor spki)
      end
  end.

(** [loaded] is the pair read from the two files. *)
Definition loadTLS (certFile keyFile : bytes) (loaded : option certificate) (generated : option bytes) :
  res tls_err (server_config * bytes) :=
  if decide (certFile <> [] \/ keyFile <> []) then
    if decide (certFile = [] \/ keyFile = []) then Err CertWithoutKey
    else match loaded with
         | None => Err LoadingCertificate
         | Some cert => Ok (baseTLSConfig cert, [])
         end
  else
    '(cert, pin) ← selfSignedCert generated;
    Ok (baseTLSConfig cert, pin).

(** *** [run] *)
Record relay_flags := mkRelayFlags {
  rf_addr : bytes; rf_http : bytes; rf_path : bytes; rf_cert : bytes; rf_key : bytes
}.

Record relay_machine := mkRelayMachine {
  rm_loaded : option certificate;
  rm_generated : option bytes;
  rm_listen : bool;            (* the TLS address can be listened on *)
  rm_listen_http : bool;
  rm_pattern : bool            (* the mux accepts a pattern that is not a plain path *)
}.

Inductive relay_err := RelayTLS (e : tls_err) | RelayListen (addr : bytes).

Record serving := mkServing {
  sv_server : Server;
  sv_tls : option server_config;
  sv_http : bool
}.

(** A pattern with neither a method, nor a host, nor wildcards. *)
Definition plain_path (path : bytes) : bool :=
  HasPrefix path (str "/") && forallb (fun c => bool_decide (c <> x7b /\ c <> x20 /\ c <> x09)) path.

(** Registering the relay at its path and then the rest of the site at [/]: a
    pattern registered twice, or one the mux cannot parse, panics. *)
Definition mounts (path : bytes) (pattern : bool) : bool :=
  if plain_path path then negb (bool_decide (path = str "/")) else pattern.

Definition println (l : list bytes) : bytes := concat l ++ [x0a].

Definition pin_lines (pin : bytes) : bytes :=
  if decide (pin = []) then []
  else println [str "Self-signed certificate. Clients must pass:"] ++ println [str "  -relay-pin "; pin].

(** [run] up to its wait: what it has printed, and what it serves. *)
Definition run (f : relay_flags) (e : relay_machine) : bytes * res relay_err serving :=
  if negb (mounts (rf_path f) (rm_pattern e)) then ([], Panic)
  else match loadTLS (rf_cert f) (rf_key f) (rm_loaded e) (rm_generated e) with
  | Err err => ([], Err (RelayTLS err))
  | Panic => ([], Panic)
  | Ok (cfg, pin) =>
      if decide (rf_addr f <> [] /\ rm_listen e = false) then ([], Err (RelayListen (rf_addr f)))
      else
        let tls := if decide (rf_addr f = []) then None else Some cfg in
        let out := if decide (rf_addr f = []) then []
                   else println [str "Relay listening on "; rf_addr f; rf_path f; str " (TLS)"] ++ pin_lines pin in
        if decide (rf_http f = []) then (out, Ok (mkServing (New DefaultLimits) tls false))
        else if rm_listen_http e
        then (out ++ println [str "Relay listening on "; rf_http f; rf_path f; str " (cleartext fallback)"],
              Ok (mkServing (New DefaultLimits) tls true))
        else (out, Err (RelayListen (rf_http f)))
  end.

(** The wait ends with a failure of one of the two servers, or with a signal. *)
Inductive relay_end := ServeFailed | Signalled.

Definition finish (s : Server) (e : relay_end) : bytes * bool :=
  match e with
  | ServeFailed => ([], false)
  | Signalled =>
      let '(pending, circuits) := Stats s in
      (x0a :: println [str "Shutting down ("; Itoa pending; str " pending codes, "; Itoa circuits; str " open circuits)"], true)
  end.

(** A relay that serves with a configuration. *)
Definition serves (cfg : server_config) (srv : server) : Prop :=
  s_tls srv = true /\ s_certs srv = ct_chain (sc_cert cfg) /\ s_key srv = ct_spki (sc_cert cfg).

Lemma PinFor_nonempty `{!SignatureLaws} spki : PinFor spki <> [].
Proof.
  unfold PinFor. intros E%(f_equal DecodeString). rewrite decode_encode in E. apply (f_equal (option_map len)) in E. cbn in E.
  rewrite sha256_len in E. done.
Qed.

(** The pin a relay prints is the pin its clients need: whenever the relay
    makes its own certificate, a client given what it printed, and only that,
    completes the TLS handshake with it, although no authority vouches for the
    certificate; with certificate files nothing is printed, and half a pair is
    refused. *)
Theorem printed_pin_accepted `{!SignatureLaws} certFile keyFile loaded generated cfg pin e hostPort srv env :
  loadTLS certFile keyFile loaded generated = Ok (cfg, pin) -> serves cfg srv ->
  dialRaw hostPort None (re_direct1 env) (re_proxy1 env) = Ok srv ->
  sc_min_version cfg = VersionTLS12 /\ (certFile = [] <-> keyFile = []) /\
  (pin = [] <-> certFile <> []) /\ (pin <> [] -> Pin e = pin -> dialTLS e hostPort None env = Ok srv).
Proof.
  intros Hl (Ht & Hc & Hk) Hd. unfold loadTLS in Hl. case_decide as Hf.
  { case_decide as Hh; [done|]. destruct loaded as [cert|]; [|done]. simplify_eq. split_and!; try done; tauto. }
  assert (certFile = [] /\ keyFile = []) as [-> ->] by (destruct certFile, keyFile; tauto || (exfalso; apply Hf; by (left + right))).
  unfold selfSignedCert in Hl. destruct generated as [der|]; [|done]. destruct (spki_of der) as [spki|] eqn:Es; [|done].
  revert Hl. step_bind. intros [= <- <-]. cbn in Hc, Hk.
  pose proof (PinFor_nonempty spki) as Hne.
  split; [done|]. split; [done|]. split; [by split|]. intros _ He. unfold dialTLS. rewrite Hd. step_bind.
  assert (Hs : HandshakeContext (tlsConfig e false) srv = Ok tt); [|by rewrite Hs].
  unfold HandshakeContext, tlsConfig. rewrite (decide_True (P := Pin e <> [])) by (by rewrite He). cbn [InsecureSkipVerify VerifyPeerCertificate negb andb].
  rewrite Ht, Hc, Hk. cbn [negb head]. rewrite (decide_False (P := _ <> Some spki)) by (cbn; intros Hn; by apply Hn).
  apply verifyPin_spec. exists der, spki. split; [apply list_elem_of_here|]. split; [done|]. rewrite He. unfold PinFor. by rewrite decode_encode.
Qed.

Lemma loadTLS_no_panic certFile keyFile loaded generated : loadTLS certFile keyFile loaded generated <> Panic.
Proof.
  unfold loadTLS, selfSignedCert. repeat case_decide; try done; [by destruct loaded|].
  destruct generated as [der|]; [|done]. by destruct (spki_of der).
Qed.

Lemma loadTLS_pin `{!SignatureLaws} certFile keyFile loaded generated cfg pin :
  loadTLS certFile keyFile loaded generated = Ok (cfg, pin) ->
  (pin = [] <-> certFile <> []) /\
  forall client hostPort srv env, pin <> [] -> Pin client = pin -> serves cfg srv ->
    dialRaw hostPort None (re_direct1 env) (re_proxy1 env) = Ok srv -> dialTLS client hostPort None env = Ok srv.
Proof.
  intros El. split.
  - revert El. unfold loadTLS, selfSignedCert. destruct (decide _) as [Hc|Hc].
    + case_decide; [done|]. destruct loaded; [|done]. intros [= _ <-]. tauto.
    + destruct generated as [der|]; [|done]. destruct (spki_of der) as [spki|]; [|done]. step_bind.
      intros [= _ <-]. pose proof (PinFor_nonempty spki). destruct certFile; [done|]. exfalso. apply Hc. by left.
  - intros client hostPort srv env Hp Hc Hs Hd.
    by apply (printed_pin_accepted _ _ _ _ _ _ client hostPort srv env El Hs Hd).
Qed.

(** What the relay command starts: it panics exactly when the mux refuses its
    path, and otherwise either fails or serves TLS exactly when -addr is not
    empty and clear text exactly when -http is not; with neither it prints
    nothing and waits, serving nobody.  A relay that made its own certificate
    prints a line with a pin, and any client given that pin, and only that,
    completes the TLS handshake with it; a relay with certificate files prints
    no pin. *)
Theorem relay_starts `{!SignatureLaws} f e out r : run f e = (out, r) ->
  (r = Panic <-> mounts (rf_path f) (rm_pattern e) = false) /\
  forall sv, r = Ok sv ->
    sv_server sv = New DefaultLimits /\
    (sv_tls sv = None <-> rf_addr f = []) /\ (sv_http sv = true <-> rf_http f <> []) /\
    (out = [] <-> sv_tls sv = None /\ sv_http sv = false) /\
    forall cfg, sv_tls sv = Some cfg -> exists pin before after,
      out = before ++ pin_lines pin ++ after /\ (pin = [] <-> rf_cert f <> []) /\
      forall client hostPort srv env, pin <> [] -> Pin client = pin -> serves cfg srv ->
        dialRaw hostPort None (re_direct1 env) (re_proxy1 env) = Ok srv -> dialTLS client hostPort None env = Ok srv.
Proof.
  unfold run. destruct (mounts _ _); cbn [negb]; [|intros [= <- <-]; split; [done|intros ? [=]]].
  destruct (loadTLS (rf_cert f) (rf_key f) (rm_loaded e) (rm_generated e)) as [[cfg pin]|err|] eqn:El;
    [|intros [= <- <-]; split; [done|intros ? [=]]|by apply loadTLS_no_panic in El].
  case_decide as Ha; [intros [= <- <-]; split; [done|intros ? [=]]|].
  set (first := if decide (rf_addr f = []) then [] else _).
  assert (Hfirst : first = [] <-> (if decide (rf_addr f = []) then None else Some cfg) = None).
  { subst first. by destruct (decide (rf_addr f = [])). }
  assert (Hlast : forall last cfg', (if decide (rf_addr f = []) then None else Some cfg) = Some cfg' ->
    exists before after, first ++ last = before ++ pin_lines pin ++ after).
  { intros last cfg'. subst first. destruct (decide (rf_addr f = [])); [done|]. intros _.
    do 2 eexists. by rewrite <- app_assoc. }
  assert (Hall : forall last http, (last = [] <-> http = false) -> (http = true <-> rf_http f <> []) ->
    forall sv, Ok (mkServing (New DefaultLimits) (if decide (rf_addr f = []) then None else Some cfg) http) = Ok (E := relay_err) sv ->
    sv_server sv = New DefaultLimits /\ (sv_tls sv = None <-> rf_addr f = []) /\ (sv_http sv = true <-> rf_http f <> []) /\
    (first ++ last = [] <-> sv_tls sv = None /\ sv_http sv = false) /\
    forall cfg, sv_tls sv = Some cfg -> exists pin before after, first ++ last = before ++ pin_lines pin ++ after /\
      (pin = [] <-> rf_cert f <> []) /\
      forall client hostPort srv env, pin <> [] -> Pin client = pin -> serves cfg srv ->
        dialRaw hostPort None (re_direct1 env) (re_proxy1 env) = Ok srv -> dialTLS client hostPort None env = Ok srv).
  { intros last http Hl Hh sv [= <-]. cbn [sv_server sv_tls sv_http]. split; [done|].
    split; [by destruct (decide (rf_addr f = []))|]. split; [done|]. split; [rewrite <- Hl, <- Hfirst; apply app_nil|].
    intros cfg' Ht. destruct (Hlast last cfg' Ht) as (before & after & E). exists pin, before, after.
    destruct (decide (rf_addr f = [])); [done|]. simplify_eq. split; [done|]. by apply (loadTLS_pin _ _ _ _ _ _ El). }
  destruct (decide (rf_http f = [])) as [Hh|Hh]; [|destruct (rm_listen_http e)];
    intros [= <- <-]; (split; [done|]); [|by apply Hall|done].
  rewrite <- (app_nil_r first). by apply Hall.
Qed.
End tls.

(** ** Witness *)
Import ToyId SampleDial.

Lemma printed_pin_accepted_witness : dialTLS pinned_endpoint [] None (env_of (Some relay)) = Ok relay.
Proof.
  refine (proj2 (proj2 (proj2 (printed_pin_accepted [] [] None (Some (str "cert:relay key"))
    (baseTLSConfig (mkCertificate [str "cert:relay key"] (str "relay key"))) (PinFor (str "relay key")) pinned_endpoint [] relay
    (env_of (Some relay)) eq_refl _ eq_refl))) _ eq_refl).
  - split; [reflexivity|]. split; reflexivity.
  - assert (E : bool_decide (PinFor (str "relay key") = []) = false) by (vm_compute; reflexivity). exact (bool_decide_eq_false_1 _ E).
Defined.

(** A relay on the default addresses with a certificate of its own. *)
Definition default_flags : relay_flags := mkRelayFlags (str ":443") (str ":80") DefaultPath [] [].
Definition sample_machine : relay_machine := mkRelayMachine None (Some (str "cert:relay key")) true true false.

Lemma relay_starts_witness : exists pin before after,
  (run default_flags sample_machine).1 = before ++ pin_lines pin ++ after /\ pin <> [] /\
  forall client, Pin client = pin -> dialTLS client [] None (env_of (Some relay)) = Ok relay.
Proof.
  destruct (run default_flags sample_machine) as [out r] eqn:E.
  destruct (relay_starts default_flags sample_machine out r E) as [_ Hs].
  pose proof (f_equal snd E) as Er. cbn [snd] in Er. symmetry in Er.
  destruct (Hs _ Er) as (_ & _ & _ & _ & Hp). destruct (Hp _ eq_refl) as (pin & before & after & Hout & Hpin & Hd).
  exists pin, before, after. assert (Hne : pin <> []) by (intros ->; by apply (proj1 Hpin)).
  split; [exact Hout|]. split; [exact Hne|]. intros client Hc. apply Hd; [exact Hne|exact Hc| |reflexivity].
  split; [reflexivity|]. split; reflexivity.
Defined.

(** The root cannot be the relay's path. *)
Example root_path_panics : run (mkRelayFlags (str ":443") [] (str "/") [] []) sample_machine = ([], Panic).
Proof. reflexivity. Qed.
