(* ===== verification/Main.v ===== *)
(** The program: [src/main.go], around the command loop of the file Command.

    Start-up ([run] up to the prompt), how it ends (the quit command and the
    interrupt handler, which both close the channel [done] and call
    [Shutdown]), and what the user reads ([printEvent]).  What flag parsing, the
    terminal and the network give is an argument. *)
From Stdlib Require Import ZArith Lia.
From Stdlib Require Import Strings.Byte.
From stdpp Require Import base gmap strings numbers option list.
From S2P Require Import Prelude GoStrings Net Crypto Frame Session SessionProps Identity Handshake Peers Manager ManagerProps Adoption Lifecycle Dialer Expect Connect Command.

(** ** Paths *)

(** [filepath.Clean] on the elements of a slash-separated path: empty and [.]
    elements go, [..] removes the element before it, if it is not itself one. *)
Fixpoint split_slash (s cur : bytes) : list bytes :=
  match s with
  | [] => [cur]
  | x2f :: rest => cur :: split_slash rest []
  | c :: rest => split_slash rest (cur ++ [c])
  end.

Definition clean_step (rooted : bool) (out : list bytes) (elem : bytes) : list bytes :=
  if decide (elem = [] \/ elem = str ".") then out
  else if decide (elem = str "..") then
    match out with
    | last :: before => if decide (last = str "..") then elem :: out else before
    | [] => if rooted then [] else [elem]
    end
  else elem :: out.

Definition Clean (path : bytes) : bytes :=
  let rooted := HasPrefix path (str "/") in
  let elems := rev (foldl (clean_step rooted) [] (split_slash path [])) in
  let body := join (str "/") elems in
  if rooted then str "/" ++ body else match body with [] => str "." | _ => body end.

(** [filepath.Join] of two elements. *)
Definition Join2 (a b : bytes) : bytes :=
  match a with
  | [] => match b with [] => [] | _ => Clean b end
  | _ => match b with [] => Clean a | _ => Clean (a ++ str "/" ++ b) end
  end.

(** [home] is [os.UserHomeDir], when it is known. *)
Definition defaultDataDir (home : option bytes) : bytes :=
  match home with Some h => Join2 h (str ".heimdall") | None => str ".heimdall" end.

(** ** What the user reads *)

(** The messages of the errors a handshake ends with. *)
Definition hs_failure_text (e : hs_failure) : bytes :=
  match e with
  | AlreadyComplete => str "handshake already complete"
  | BadMessageSize => str "bad message size"
  | UnexpectedType b => str "unexpected message type " ++ Itoa (byte_val b)
  | AuthBeforeInit => str "auth before init"
  | BadPeerEphemeral => str "bad peer ephemeral key"
  | KeyAgreementFailed => str "key agreement failed"
  | AuthOpenFailed => str "auth message authentication failed"
  | BadInitMessage => str "bad init message"
  | BadInitLength => str "bad init length"
  | BadAuthMessage => str "bad auth message"
  | BadAuthLength => str "bad auth length"
  | AuthPayloadTooShort => str "auth payload too short"
  | BadNameLength => str "bad name length"
  end.

Definition newline : bytes := [x0a].

(** [other] is the message of an error of another kind. *)
Definition error_text (other : proto_err -> bytes) (e : proto_err) : bytes :=
  match e with
  | ErrHandshake why => str "proto: handshake failed: " ++ hs_failure_text why
  | ErrBadSignature => str "proto: peer signature verification failed (possible MITM)"
  | ErrSelfConnection => str "proto: refusing to connect to self"
  | _ => other e
  end.

Definition warning_text (other : proto_err -> bytes) (e : Event) : bytes :=
  match ev_text e with
  | NoText => []
  | Text t => t
  | HandshakeFailed err => str "handshake failed (possible MITM): " ++ error_text other err
  | PairingFailed =>
      str "The peer that answered this invite code could not prove it holds the code." ++ newline ++ newline ++
      str "This is what a relay attempting a man-in-the-middle attack looks like." ++ newline ++
      str "The connection was dropped and the peer was NOT recorded as known."
  | KeyChanged old new =>
      str "The identity key for '" ++ ev_peer e ++ str "' has changed." ++ newline ++ newline ++
      str "Previous fingerprint:" ++ newline ++ old ++ newline ++ newline ++
      str "New fingerprint:" ++ newline ++ new ++ newline ++ newline ++
      str "Possible MITM attack or legitimate key replacement." ++ newline ++ str "Connection marked UNTRUSTED."
  end.

Definition prompt : bytes := newline ++ str "> ".

Definition printEvent (other : proto_err -> bytes) (e : Event) : bytes :=
  newline ++
  match ev_type e with
  | EventPeerConnected =>
      str "*** " ++ ev_peer e ++ str " connected [" ++ TrustLevel_String (ev_trust e) ++ str ", " ++ ev_path e ++ str "]"
  | EventPeerDisconnected => str "*** " ++ ev_peer e ++ str " disconnected"
  | EventMessage => ev_peer e ++ str ": " ++ warning_text other e
  | EventSecurityWarning => str "!!! SECURITY WARNING !!!" ++ newline ++ warning_text other e
  | EventError => str "*** error: " ++ warning_text other e
  end ++ prompt.

(** The loop that prints: the events in order. *)
Definition printed_events (other : proto_err -> bytes) (es : list Event) : bytes := concat (printEvent other <$> es).

(** ** Start-up *)
Record flags := mkFlags {
  fl_name : bytes; fl_listen : bytes; fl_connect : bytes; fl_data : bytes;
  fl_relay : bytes; fl_pin : bytes; fl_verify : bool; fl_proxy : bytes
}.

(** What the machine gives: files, the passphrase, key generation, and how the
    listener, the punch listener and the dial turn out. *)
Record machine := mkMachine {
  mc_fs : gmap bytes bytes;
  mc_variable : bytes;            (* HMDL_PASSPHRASE *)
  mc_line : option bytes;
  mc_keygen : bytes -> bytes;
  mc_rng_key : bytes;
  mc_rng : bytes;
  mc_io : io_outcome;
  mc_unreadable : bool;
  mc_bound : option bytes;        (* the address of the listener *)
  mc_punch : option Z;            (* the port of the punch listener *)
  mc_dialled : bool
}.

Inductive run_err := RunStart (e : start_err) | RunStore (e : peers_err) | RunListen | RunRelay (e : endpoint_err).

Record program := mkProgram {
  pr_id : Identity;
  pr_store : Store;
  pr_node : Lifecycle.node;
  pr_relay : option Endpoint;     (* the endpoint of the client, when there is one *)
  pr_config : Config
}.

Definition relay_endpoint (f : flags) : res endpoint_err (option Endpoint) :=
  if decide (fl_relay f = []) then Ok None
  else
    ep ← ParseEndpoint (fl_relay f);
    Ok (Some (mkEndpoint (Host ep) (TLSPort ep) (HTTPPort ep) (e_Path ep) (fl_pin f) (fl_verify f) (fl_proxy f))).

(** The inbound hook of fresh expectations. *)
Definition startup_hook (remote : bytes) : option AdoptOptions :=
  adopt_options [] <$> Hook NewExpectations (Some remote).

Section startup.
Context `{CryptoOps, SignatureOps, DiskOps, PeersJSON}.

(** [run] up to the prompt: the files it leaves, and what it starts. *)
Definition run (f : flags) (e : machine) : gmap bytes bytes * res run_err program :=
  let '(fs, r) := loadOrCreateIdentity (mc_fs e) (Join2 (fl_data f) (str "identity.hmdl")) (fl_name f) (mc_variable e)
                    (mc_line e) (mc_keygen e) (mc_rng_key e) (mc_rng e) (mc_io e) in
  (fs,
   id ← map_err RunStart r;
   st ← map_err RunStore (OpenStore fs (Join2 (fl_data f) (str "peers.json")) (mc_unreadable e));
   let '(n1, bound) := Listen (start id st fs) (fl_listen f) (mc_bound e) in
   addr ← map_err (fun _ => RunListen) bound;
   ep ← map_err RunRelay (relay_endpoint f);
   let n2 := Lifecycle.Node (SetInboundHook (n_world n1) (Some startup_hook)) (n_tasks n1) in
   let n3 := if decide (fl_connect f = []) then n2 else (Lifecycle.Connect n2 (mc_dialled e)).1 in
   Ok (mkProgram id st n3 ep (mkConfig (mc_punch e) (portOf addr)))).
End startup.

(** ** The end *)

(** Where the two goroutines that end the program are: the one of [main], which
    is in [repl], and the one that waits for an interrupt. *)
Inductive place := Before | InShutdown | Past.

Record exits := mkExits { ex_done : bool; ex_main : place; ex_signal : place }.

Inductive exit_event :=
| Quits         (* [repl] returns: /quit, end of input, or a line too long *)
| Interrupted   (* the first signal *)
| MainReturns   (* the [Shutdown] of [main] returns *)
| HandlerExits. (* the [Shutdown] of the handler returns, and it exits *)

(** [close(done)] panics when it was closed before. *)
Definition exit_step (x : exits) (ev : exit_event) : res unit exits :=
  match ev, ex_main x, ex_signal x with
  | Quits, Before, s => if ex_done x then Panic else Ok (mkExits true InShutdown s)
  | Interrupted, m, Before => if ex_done x then Panic else Ok (mkExits true m InShutdown)
  | MainReturns, InShutdown, s => Ok (mkExits (ex_done x) Past s)
  | HandlerExits, m, InShutdown => Ok (mkExits (ex_done x) m Past)
  | _, _, _ => Err tt
  end.

(** The process is over. *)
Definition ended (x : exits) : bool :=
  match ex_main x, ex_signal x with Past, _ | _, Past => true | _, _ => false end.

Fixpoint exit_run (x : exits) (evs : list exit_event) : res unit exits :=
  match evs with
  | [] => Ok x
  | ev :: rest => if ended x then Ok x else x1 ← exit_step x ev; exit_run x1 rest
  end.

Definition running : exits := mkExits false Before Before.

(** ** What a peer can make the user read *)
Lemma printed_app other a b : printed_events other (a ++ b) = printed_events other a ++ printed_events other b.
Proof. unfold printed_events. by rewrite fmap_app, concat_app. Qed.

(** Everything printed for an event ends with the prompt. *)
Lemma printEvent_prompt other e : exists body, printEvent other e = newline ++ body ++ prompt.
Proof. unfold printEvent. eexists. reflexivity. Qed.

Lemma message_printed other n fp tr t :
  printEvent other (mkEvent EventMessage n fp (Text t) tr []) = newline ++ n ++ str ": " ++ t ++ prompt.
Proof. unfold printEvent. cbn [ev_type ev_peer ev_text warning_text]. by rewrite <- !app_assoc. Qed.

(** One message is printed as a message and then any event. *)
Lemma message_forges other n fp tr t e : exists text,
  len text = len t + len (printEvent other e) /\
  printEvent other (mkEvent EventMessage n fp (Text text) tr []) =
    printEvent other (mkEvent EventMessage n fp (Text t) tr []) ++ printEvent other e.
Proof.
  destruct (printEvent_prompt other e) as [body ->]. exists (t ++ prompt ++ newline ++ body).
  rewrite !message_printed, !len_app. split; [lia|]. by rewrite <- !app_assoc.
Qed.

Section forging.
Context `{CryptoLaws}.

(** What a peer writes reaches the terminal as it is, so a connected peer,
    whatever its trust level, can make the program print any event after a
    message of its own, byte for byte as if it had happened: a security warning,
    the connection of another peer with the label VERIFIED, or a message from
    somebody else, as long as it fits in one chat frame. *)
Theorem events_forgeable other R n s r cs cr fps ns ts ss fpr nr tr sr t e rng :
  0 <= n -> lockstep R (n + 1) ss sr -> link_end s cs fps ns ts ss -> link_end r cr fpr nr tr sr ->
  NonceSize <= len rng -> len t + len (printEvent other e) + 2 <= MaxPlaintext ->
  exists text, printed_events other (deliver s r cs cr ns (Line true text rng)).2 =
    printed_events other [mkEvent EventMessage nr fpr (Text t) tr []; e].
Proof.
  intros Hn Hl Hs Hr Hrng Hlen. destruct (message_forges other nr fpr tr t e) as (text & Htl & Hp).
  exists text. destruct (deliver_ok R n s r cs cr fps ns ts ss fpr nr tr sr (Line true text rng)) as
    (s' & r' & ss' & sr' & -> & _); try done.
  { split; cbn; [lia|done]. }
  cbn [snd l_text]. unfold printed_events. cbn [fmap list_fmap concat]. by rewrite Hp, <- !app_assoc.
Qed.
End forging.

(** ** How the program ends *)

(** Ending the program panics exactly when an interrupt arrives while [main]
    waits for its Shutdown, or the user quits while the interrupt handler waits
    for its own: both close the same channel. *)
Theorem second_exit_panics evs :
  exit_run running evs = Panic <->
  exists rest, evs = Quits :: Interrupted :: rest \/ evs = Interrupted :: Quits :: rest.
Proof.
  split; [|intros (rest & [-> | ->]); done]. destruct evs as [|[] evs]; cbn; try done;
    (destruct evs as [|[] evs]; cbn; try done); try (by eexists; auto); destruct evs as [|? evs]; done.
Qed.

(** ** What start-up starts *)
Section started.
Context `{CryptoOps, SignatureOps, DHOps, DiskOps, PeersJSON}.

(** When [run] reaches its prompt, whatever the flags, the node is a state the
    lifecycle theorems speak of, started from the identity and trust store of
    the data directory; an empty -listen leaves no accept loop and no port to
    publish; and there is a relay client exactly when -relay was given, with the
    pin, verification and proxy of the other flags. *)
Theorem run_starts f e fs p : run f e = (fs, Ok p) ->
  reachable (start (pr_id p) (pr_store p) fs) (pr_node p) /\
  OpenStore fs (Join2 (fl_data f) (str "peers.json")) (mc_unreadable e) = Ok (pr_store p) /\
  (fl_listen f = [] -> ListenAddr (n_world (pr_node p)) = [] /\ ~ Exists accepting (n_tasks (pr_node p)) /\
     cf_port (pr_config p) = 0) /\
  (pr_relay p = None <-> fl_relay f = []) /\
  (forall ep, pr_relay p = Some ep -> Pin ep = fl_pin f /\ e_Verify ep = fl_verify f /\ e_Proxy ep = fl_proxy f).
Proof.
  unfold run. destruct (loadOrCreateIdentity _ _ _ _ _ _ _ _ _) as [fs' r]. intros [= -> Hr]. revert Hr.
  destruct r as [id| |]; cbn [map_err]; [|done..]. step_bind.
  destruct (OpenStore fs _ _) as [st| |] eqn:Est; cbn [map_err]; [|done..]. step_bind.
  destruct (Listen (start id st fs) (fl_listen f) (mc_bound e)) as [n1 bound] eqn:El.
  destruct bound as [addr| |]; cbn [map_err]; [|done..]. step_bind.
  destruct (relay_endpoint f) as [ep| |] eqn:Eep; cbn [map_err]; [|done..]. step_bind.
  intros [= <-]. cbn [pr_id pr_store pr_node pr_relay pr_config].
  set (n2 := Node (SetInboundHook (n_world n1) (Some startup_hook)) (n_tasks n1)).
  assert (R2 : reachable (start id st fs) n2).
  { eapply reach_call; [|apply c_hook]. replace n1 with (Listen (start id st fs) (fl_listen f) (mc_bound e)).1 by (by rewrite El).
    eapply reach_call; [apply reach_start|by apply c_listen]. }
  split_and!; [|done| | |].
  - destruct (decide (fl_connect f = [])); [done|]. eapply reach_call; [exact R2|apply c_connect].
  - intros Hl. unfold Listen in El. rewrite decide_True in El by done. simplify_eq.
    assert (Hn : forall n', n' = n2 \/ n' = (Lifecycle.Connect n2 (mc_dialled e)).1 ->
      ListenAddr (n_world n') = [] /\ ~ Exists accepting (n_tasks n')).
    { intros n' [->|Hc]; [split; [done|by intros ?%Exists_nil]|]. unfold Lifecycle.Connect in Hc.
      destruct (mc_dialled e); subst n'; (split; [done|]); cbn; [|by intros ?%Exists_nil].
      intros [Hx|Hx]%Exists_cons; [done|by apply Exists_nil in Hx]. }
    destruct (decide (fl_connect f = [])); [destruct (Hn n2)|destruct (Hn (Lifecycle.Connect n2 (mc_dialled e)).1)]; auto.
  - revert Eep. unfold relay_endpoint. destruct (decide (fl_relay f = [])); [by intros [= <-]|].
    destruct (ParseEndpoint (fl_relay f)); step_bind; by intros [= <-].
  - intros ep' ->. revert Eep. unfold relay_endpoint. destruct (decide (fl_relay f = [])); [done|].
    destruct (ParseEndpoint (fl_relay f)); step_bind; by intros [= <-].
Qed.
End started.

(** ** Witnesses *)
Module SampleMain.
Import Crypto.Toy ToyId ToyDH ToyPeers SamplePair.

Definition sample_flags : flags :=
  mkFlags (str "bob") [] (str "10.0.0.9:7331") (str "/home/bob/.heimdall") (str "relay.example.com") (str "pin") true [].
Definition sample_machine : machine :=
  mkMachine ∅ (str "pass") None (fun _ => ToyId.secret) (replicate 32 x01) ToyId.rng IoOk false None (Some 40000) true.
Definition started : gmap bytes bytes * res run_err program := run sample_flags sample_machine.

(** Two nodes with one open connection between them. *)
Definition end_of (name : string) (ini : bool) : Manager :=
  mkManager (ident x01 "x") {[str name := 0%nat]} {[str name := 0%nat]}
    {[0%nat := mkConn (str name) (str name) (Sample.sess ini) TrustUnverified [] [] false PathDirect 0 true]} [] false.

Lemma end_linked name ini : link_end (end_of name ini) 0 (str name) (str name) TrustUnverified (Sample.sess ini).
Proof. split; [apply lookup_singleton_eq|apply lookup_singleton_eq|]. do 4 eexists. apply lookup_singleton_eq. Qed.

Definition forged : Event :=
  mkEvent EventPeerConnected (str "carol") (str "12:34") NoText TrustVerified PathDirect.
Definition no_text (e : proto_err) : bytes := [].
End SampleMain.
Import Crypto.Toy ToyId ToyDH ToyPeers SamplePair SampleMain.

Lemma run_starts_witness : exists fs p, started = (fs, Ok p) /\
  reachable (start (pr_id p) (pr_store p) fs) (pr_node p) /\ ListenAddr (n_world (pr_node p)) = [].
Proof.
  assert (Hok : is_ok started.2 = true) by (vm_compute; reflexivity).
  destruct started as [fs [p| |]] eqn:E; [|discriminate Hok..]. exists fs, p. split; [reflexivity|].
  destruct (run_starts sample_flags sample_machine fs p E) as (Hr & _ & Hl & _). split; [exact Hr|].
  apply Hl. reflexivity.
Defined.

Lemma events_forgeable_witness : exists text,
  printed_events no_text (deliver (end_of "bob" true) (end_of "mallory" false) 0 0 (str "bob")
    (Line true text (ToyDH.rng x01))).2 =
  printed_events no_text [mkEvent EventMessage (str "mallory") (str "mallory") (Text (str "hi")) TrustUnverified []; forged].
Proof.
  destruct (lockstep_new Sample.shared Sample.transcript (Sample.sess true) (Sample.sess false) 1) as [R Hl];
    [apply Sample.sess_new|apply Sample.sess_new|reflexivity|].
  apply (events_forgeable no_text R 0 (end_of "bob" true) (end_of "mallory" false) 0 0 (str "bob") (str "bob")
    TrustUnverified (Sample.sess true) (str "mallory") (str "mallory") TrustUnverified (Sample.sess false) (str "hi") forged
    (ToyDH.rng x01)); [reflexivity|exact Hl|apply end_linked|apply end_linked|vm_compute; discriminate|vm_compute; discriminate].
Defined.
